(* ===== verification/_CoqProject ===== *)
-Q . S2P
Prelude.v
Sep.v
RBTree.v
RBTreeSpec.v
RBTreeProofs.v
RBTreeErase.v
RBTreeRemove.v
RBTreeApi.v
RBTreeProps.v
Env.v
EnvLogic.v
Trace.v
World.v
Threads.v
Bytes.v
Dll.v
Mem.v
Slice.v
SliceProofs.v
SliceLife.v
Alloc.v
SliceProps.v
TaskBase.v
Queue.v
Timer.v
QueueSpec.v
QueueProofs.v
TimerProofs.v
Reactor.v
Sched.v
SchedProofs.v
Task.v
QueueProps.v
TimerProps.v
Quiet.v
Kernel.v
Mutex.v
MutexProofs.v
MutexProps.v
Cond.v
CondProps.v
Channel.v
ChannelProofs.v
ChannelWrite.v
ChannelProps.v
Buffer.v
BufferProps.v
Object.v
IO.v
SpliceProofs.v
Socket.v
SocketProps.v
SpliceProps.v
Aide.v
Dns.v
DnsProofs.v
DnsServer.v
DnsProps.v
WinSys.v
WinFd.v
WinFdProps.v
WinSock.v
Iocp.v
IocpProofs.v
IocpLife.v
IocpProps.v
Detector.v
System.v
SystemProofs.v
SystemLife.v
SystemProps.v
Coroutine.v
RunProofs.v
Apps.v
Tests.v
RunProps.v
RunMutex.v
Arch.v
ArchProps.v
