(* ===== verification/Prelude.v ===== *)
(** * Verification of hev-task-system

    hev-task-system (the C files under [src/src] and [src/include]) is a
    library of cooperative tasks: each task has a stack of its own and runs
    until it suspends itself; a scheduler picks the next task among the
    running ones, wakes the tasks whose I/O events or timers have come, and
    the tasks talk through mutexes, conditions and channels.  This development
    translates the library's functions, as configured by default on Unix, and the
    layer that carries it to Windows, into programs over a memory of cells, and
    proves what they promise.

    ** Programs and memories

    A memory maps the address of a scalar object to its value; a field of a
    struct is the address of the struct plus the offset of the field.  Two
    kinds of programs act on it:
    - [M A] (this file): a function that only works on memory, as a state and
      error monad whose faults are an access outside the allocated cells, a
      call of [abort], undefined arithmetic, and a loop that outlives its fuel;
    - [co A] ([Env]): a tree of memory actions, calls of the C library and of
      the kernel, and suspensions of the task, run by [run] on a script of
      answers; [valid] and [sys_doc] say which answers are documented.
    Pointer-chasing loops run with one more round than there are allocated
    cells ([while], [co_chase]), which is enough because they visit distinct
    cells: every theorem about such a loop proves that its fuel does not run
    out.  Loops that wait for the outside world ([co_while]) have any number of
    rounds.

    [Sep] instantiates the proof mode of Iris with assertions on such memories
    and gives a total weakest precondition [wp]: a proved [M] program ends
    without a fault.  [EnvLogic] extends it to trees: [cwp Y c Q] says that [c]
    never faults, whatever documented answers it gets, and that its result
    satisfies [Q]; [Y] says what a suspension may assume and must ensure.
    [wp_adequate] and [cwp_adequate] relate both to runs.  Triples are written
    [{{{ P }}} c {{{ r, Q }}}] and [{{{ P }}} c @ Y {{{ r, Q }}}].

    [Bytes] has the lemmas about areas of known contents and the rule of
    [realloc].  [Trace] makes a program return the calls it made with their
    answers, for theorems about what a program tells the outside world, and
    [Quiet] lists the functions that leave the caller's streams alone.
    [Threads] runs several trees on one memory and one world of kernel objects:
    a step is one memory action, or one call with its answer, of any thread.
    [twp] is its weakest precondition under an invariant of memory and world
    that every step opens and closes; [threads_sound] is its adequacy for any
    interleaving, [solo_sound] the one for a thread alone.  [World] is for one
    program whose calls have a memory of their own in the kernel: [within] runs
    it against the answers that are possible then.

    ** Components

    Data structures:
    - [RBTree]: [lib/rbtree], every function of the tree and of the variant
      that caches the leftmost node; [RBTreeSpec] the trees as a data type with
      order and balance, [RBTreeProofs], [RBTreeErase], [RBTreeRemove] and
      [RBTreeApi] the proofs, [RBTreeProps] the theorems;
    - [Dll]: [lib/list];
    - [Mem], [Slice], [Alloc]: [mem], the allocator interface, the simple and
      the slice allocator and the public functions; [SliceProofs] and
      [SliceLife] refine the caching allocator to lists, [SliceProps] has the
      theorems.
    The kernel of the library:
    - [TaskBase]: the task object, its stack and its references,
      [kern/task];
    - [Queue] and [Sched]: [kern/core/hev-task-system-schedule.c], the run
      queue ordered by [sched_key], polling, choosing and switching;
      [QueueSpec] is the abstract run queue (a sorted list of tasks and their
      keys), [QueueProofs] and [SchedProofs] refine the functions to it,
      [QueueProps] has the theorems;
    - [Timer]: [kern/time], sleeping tasks in a tree ordered by expiry, with
      [TimerProofs] and [TimerProps];
    - [Reactor]: [kern/io], the epoll and the kqueue reactor;
    - [Task]: [hev-task.c], the executer and task calls;
    - [Kernel]: the interface the primitives below are proved against, with
      the scheduler as its instance.
    Synchronisation and communication:
    - [Mutex] with [MutexProofs] and [MutexProps], [Cond] with [CondProps]:
      [kern/sync];
    - [Channel]: [kern/itc], with [ChannelProofs], [ChannelWrite] and
      [ChannelProps].
    Libraries and the rest:
    - [Buffer]: [lib/io/buffer], with [BufferProps];
    - [IO] and [Socket]: [lib/io], with [SocketProps] for the transfer
      loops, [SpliceProofs] and [SpliceProps] for
      forwarding through circular buffers;
    - [Object]: [lib/object]; [Detector]: [lib/misc], the detector of stack
      overflows and the functions for a debugger;
    - [Aide]: [kern/aide], the thread that takes work off the tasks; [Dns]:
      [lib/dns], which sends it the requests for the resolver; [DnsProofs] (the
      invariant that both threads keep), [DnsServer] (the thread) and [DnsProps]
      (the task, and both together);
    - [System]: [kern/core/hev-task-system.c], which creates and destroys all of
      it, with [SystemProofs], [SystemLife] and [SystemProps];
    - [Coroutine]: the switch between the scheduler and its tasks, which merges
      their trees into one, with a logic of one task and one of the scheduler;
      [RunProofs] proves [hev_task_system_run] and [hev_task_executer] in it,
      [RunProps] has the theorem about a program with its tasks, and
      [RunMutex] the one about tasks that share a mutex;
    - [Apps]: the example programs of [src/apps], and runs of some of them on
      the whole library; [Tests]: the programs of [src/tests] that need the
      library alone, which pass, and benchmarks;
    - [Arch]: [arch] and [kern/task/hev-task-execute.S], the switch of stacks as
      the instructions of each architecture on a word machine, and the long jump
      of Windows; [ArchProps] has the theorems.
    The layer for Windows, which offers the calls of POSIX over Winsock:
    - [WinSys]: the error numbers, the clock and threads of [sys/windows];
    - [WinFd]: [hev-sys-fd.c] and [hev-sys-fdio.c], the registry that numbers
      sockets; [WinFdProps] refines it to an array without end of sockets and
      generations;
    - [WinSock]: [hev-sys-socket.c] and [hev-sys-msg.c];
    - [Iocp]: the reactor over I/O completion ports; [IocpProofs] and [IocpLife]
      refine it to a map from handles to data, [IocpProps] has the theorem.
    In these files one thread's steps are modelled: the locks are calls.  A
    temporary array that lives within one call is a list.

    ** What is proved

    - Red-black tree: insertion through the users' search loops and erasure
      keep order, colours and the cached leftmost node, touch nothing else,
      and end within logarithmic bounds; iteration steps to the neighbours.
    - Slice allocator: each operation refines the list specification, the
      cache stays within its bound, nothing leaks, [hev_calloc] clears.
    - Scheduler: every sequence of operations keeps the invariant of the run
      queue; a chosen task has the least key, after polls too ([RunProps]);
      while no task waits, tasks that pay for their passes do not starve, and a
      task of priority 0 may monopolise.
    - Timer: the arithmetic of expiry times against nanoseconds; what a sleep
      calls, in order, what it leaves behind, which sleeper it wakes and the
      time left that it returns.
    - Mutex and condition, by rely and guarantee over suspensions: exclusive
      ownership, no lost wakeup, a wait that holds nothing while it is
      suspended and ends only after a signal, what a signal, a broadcast and a
      timed out wait do to the list of waiters.
    - Channel: the ring of a channel with buffers, of which neither end is in a
      selector, is a bounded queue of messages; a write sleeps until there is
      room, appends, wakes a waiting reader and keeps its peer's memory until it
      is done, a read sleeps until there is a message and takes the oldest.
    - Circular buffer: its segments partition the buffer into the contents, in
      order, and the free space.
    - Sockets: the transfer loops stay within the caller's buffer.
    - Forwarding: what [hev_task_io_splice] passes on is what it got, in order
      and each byte once.
    - Aide thread and DNS proxy, while others use the aide too: a task that
      makes a request and destroys its proxy beside the thread that serves it
      never touches freed memory, in any interleaving, and gets the answer of
      the resolver.
    - Task system: starting, running and ending it gives back all memory, on
      the error paths as well.
    - Running tasks: a program with its tasks, each proved on its own against
      an invariant of what they share, is safe as a whole, returns from
      [hev_task_system_run] only when every task that was created has done its
      job to the end, and gives back all memory of the system.  Its tasks may yield, sleep and wake each other: in
      a program whose tasks share a mutex, and yield or sleep while they hold
      it, only the holder works on what the mutex protects.
    - Stack switch: on every architecture the entry is called on the new stack,
      and its return restores the caller; what the calling convention says of
      the entry's stack and registers holds but for the three exceptions listed
      in [Arch.given].  The long jump restores what the buffer holds.
    - Reactor on Windows: any session of it gives the results of a map of
      registrations, reports no handle that has been deleted and frees all.
    - Descriptors on Windows: a token names its socket until the descriptor is
      closed or replaced, and no socket afterwards, until its generation could
      come round.
    Some theorems are about code that does not do what it means to:
    [SliceProps.slice_alloc_truncated], [TimerProps.timeout_negative],
    [ChannelProps.select_writer_forgotten], [SystemProps.init_out_of_memory].

    ** Integers and structures

    Machine integers are [Z] with their wrap-around written out ([w8], [w32],
    [w64], and [s32], [s64] for conversions to signed types).  The fields have
    the offsets of the 64-bit ABI.  Constants are
    those of Linux, in the files of the Windows layer those of Windows.

    ** Assumptions

    The answers of the C library and of the kernel are arbitrary within
    [valid] and [sys_doc] ([recv] may return more than the length it was given
    when it has [MSG_TRUNC]).  The theorem about the DNS proxy assumes in addition
    that a socket pair delivers the bytes written to it, in order, and that
    [epoll_wait] reports a descriptor only when it can be read, and once; its
    proof adds a cell to the memory that records how far the session is, which
    no program reads.  There the aide thread has one client, so its mutex is
    never contended by a third thread.  The theorem about the task system takes
    the blocks of [malloc] as its memory; what [mmap] gave for a stack is a
    call, with its [munmap], and not a part of it; the block of the plain
    allocator, made at the first use, is assumed to be there ([init_out_of_memory]
    shows what happens otherwise).  The theorems about whole programs are for tasks
    that are created before the run and add no descriptors: [epoll_wait] reports
    no event then.  That about the choice of a task ([RunProps.pick_least_key])
    has descriptors, whose events carry the tags of slots of known tasks.  A completion port reports a packet only while
    it is associated, and not after a cancellation that removes it
    ([packet_valid], [packet_step]).  [Arch] takes instructions to do what their
    manuals say and functions to keep the calling convention of their platform.

    ** Not modelled

    A switch of stacks is a suspension of a tree, which [Coroutine] resumes:
    that the instructions of [Arch] implement it is not a theorem.  What [setjmp] of the C
    library stores, and its [longjmp] on Unix, are not in the sources.  The
    tests and benchmarks with descriptors or threads, and those of a single
    platform, are not translated.  The C library, the
    kernel and the entry points, yielders and methods a client supplies are
    parameters. *)

From Stdlib Require Export ZArith Lia.
From stdpp Require Export base numbers gmap list.

#[export] Set Default Goal Selector "!".
#[global] Open Scope Z_scope.

(** ** Results and the state monad *)

(** How a run of C code can fail to produce a value: an access outside the
    allocated cells, a call to [abort()], an exhausted loop bound of the
    model, or an arithmetic operation C leaves undefined. *)
Inductive fault : Type :=
| Segv
| Aborted
| OutOfFuel
| Undefined.

Inductive res (A : Type) : Type :=
| Ok (a : A)
| Err (e : fault).
Arguments Ok {_} _.
Arguments Err {_} _.

#[export] Instance fault_eq_dec : EqDecision fault.
Proof. solve_decision. Defined.

(** Memory: the scalar object stored at each (byte) address.  A struct is the
    collection of its fields' cells, so [&p->f] is [p + offsetof f]. *)
Abbreviation mem := (gmap Z Z).

Definition M (A : Type) : Type := mem -> res (A * mem).

Definition ret {A} (a : A) : M A := fun m => Ok (a, m).

Definition bind {A B} (c : M A) (k : A -> M B) : M B := fun m =>
  match c m with
  | Ok (a, m') => k a m'
  | Err e => Err e
  end.

Definition fail {A} (e : fault) : M A := fun _ => Err e.

Definition abort {A} : M A := fail Aborted.

Declare Scope c_scope.
Delimit Scope c_scope with C.
#[global] Open Scope c_scope.

Notation "x <- c ;; k" := (bind c (fun x => k))
  (at level 100, c at next level, right associativity) : c_scope.
Notation "c ;;; k" := (bind c (fun _ => k))
  (at level 100, right associativity) : c_scope.

Definition load (a : Z) : M Z := fun m =>
  match m !! a with
  | Some v => Ok (v, m)
  | None => Err Segv
  end.

Definition store (a v : Z) : M unit := fun m =>
  match m !! a with
  | Some _ => Ok (tt, <[a := v]> m)
  | None => Err Segv
  end.

Fixpoint store_all (l : list Z) (v : Z) : M unit :=
  match l with
  | [] => ret tt
  | a :: l => store a v ;;; store_all l v
  end.

Definition NULL : Z := 0.

(** Truth of a pointer or integer used as a condition. *)
Definition is_true (v : Z) : bool := negb (v =? 0).

Definition when (b : bool) (c : M unit) : M unit := if b then c else ret tt.

(** A [while] loop: [body] continues with a new loop state ([inl]) or leaves
    the loop with a result ([inr]). *)
Fixpoint loop {X R} (fuel : nat) (body : X -> M (X + R)) (x : X) : M R :=
  match fuel with
  | O => fail OutOfFuel
  | S n =>
      r <- body x ;;
      match r with
      | inl x' => loop n body x'
      | inr v => ret v
      end
  end.

(** Pointer-chasing loops visit distinct cells, so the number of allocated
    cells bounds their iterations. *)
Definition with_fuel {A} (f : nat -> M A) : M A := fun m => f (S (size m)) m.

Definition while {X R} (body : X -> M (X + R)) (x : X) : M R :=
  with_fuel (fun n => loop n body x).

(** ** Machine integers *)

Definition w8 (x : Z) : Z := x mod 2 ^ 8.
Definition w32 (x : Z) : Z := x mod 2 ^ 32.
Definition w64 (x : Z) : Z := x mod 2 ^ 64.

(** Conversion to a signed 32-bit [int] (two's complement). *)
Definition s32 (x : Z) : Z := (x + 2 ^ 31) mod 2 ^ 32 - 2 ^ 31.
Definition s64 (x : Z) : Z := (x + 2 ^ 63) mod 2 ^ 64 - 2 ^ 63.

Lemma w32_small x : 0 <= x < 2 ^ 32 -> w32 x = x.
Proof. intros H. by apply Z.mod_small. Qed.

Lemma w64_small x : 0 <= x < 2 ^ 64 -> w64 x = x.
Proof. intros H. by apply Z.mod_small. Qed.

Lemma w32_range x : 0 <= w32 x < 2 ^ 32.
Proof. apply Z.mod_pos_bound. lia. Qed.

Lemma w64_range x : 0 <= w64 x < 2 ^ 64.
Proof. apply Z.mod_pos_bound. lia. Qed.

Lemma s32_small x : - 2 ^ 31 <= x < 2 ^ 31 -> s32 x = x.
Proof. intros H. unfold s32. rewrite Z.mod_small; lia. Qed.

Lemma s64_small x : - 2 ^ 63 <= x < 2 ^ 63 -> s64 x = x.
Proof. intros H. unfold s64. rewrite Z.mod_small; lia. Qed.

Lemma is_true_spec v : is_true v = true <-> v <> 0.
Proof. unfold is_true. destruct (Z.eqb_spec v 0); simpl; intuition congruence. Qed.

(** ** Lists *)

Lemma filter_all {A} (P : A -> Prop) `{forall x, Decision (P x)} L :
  Forall P L -> filter P L = L.
Proof.
  induction 1 as [|x L Hx _ IH]; [done|]. by rewrite filter_cons_True, IH.
Qed.

Lemma filter_none {A} (P : A -> Prop) `{forall x, Decision (P x)} L :
  Forall (fun x => ~ P x) L -> filter P L = [].
Proof.
  induction 1 as [|x L Hx _ IH]; [done|]. by rewrite filter_cons_False.
Qed.

(** Linear arithmetic with division and modulo. *)
Ltac div_lia := Z.to_euclidean_division_equations; lia.
