(* ===== verification/Sep.v ===== *)
(** * Sep: a separation logic for the memory of [Prelude]

    [heapProp] are the predicates on concrete memories; they form a (linear)
    bunched-implications logic, so the Iris proof mode applies to them.  The
    weakest precondition [wp c Q] states total correctness: run on any memory
    that contains the described cells, [c] returns a value satisfying [Q] and
    leaves every other cell as it was. *)

From iris.bi Require Export bi.
From iris.proofmode Require Export proofmode.
From iris.proofmode Require Import environments coq_tactics reduction.
From S2P Require Export Prelude.

Record heapProp := HeapProp { heapProp_holds :> mem -> Prop }.
Arguments heapProp_holds : simpl never.
Add Printing Constructor heapProp.

Section ofe.
Inductive heapProp_equiv' (P Q : heapProp) : Prop :=
  { heapProp_in_equiv : forall h, P h <-> Q h }.
#[local] Instance heapProp_equiv : Equiv heapProp := heapProp_equiv'.
#[local] Instance heapProp_equivalence : Equivalence (≡@{heapProp}).
Proof.
  split.
  - by intros P.
  - intros P Q [H]. by constructor.
  - intros P Q R [H1] [H2]. constructor. intros h. by rw H1 H2.
Qed.
Canonical Structure heapPropO := discreteO heapProp.
End ofe.

Inductive heapProp_entails (P Q : heapProp) : Prop :=
  { heapProp_in_entails : forall h, P h -> Q h }.

Definition heapProp_emp : heapProp := {| heapProp_holds h := h = ∅ |}.
Definition heapProp_pure (φ : Prop) : heapProp := {| heapProp_holds _ := φ |}.
Definition heapProp_and (P Q : heapProp) : heapProp :=
  {| heapProp_holds h := P h /\ Q h |}.
Definition heapProp_or (P Q : heapProp) : heapProp :=
  {| heapProp_holds h := P h \/ Q h |}.
Definition heapProp_impl (P Q : heapProp) : heapProp :=
  {| heapProp_holds h := P h -> Q h |}.
Definition heapProp_forall {A} (Ψ : A -> heapProp) : heapProp :=
  {| heapProp_holds h := forall a, Ψ a h |}.
Definition heapProp_exist {A} (Ψ : A -> heapProp) : heapProp :=
  {| heapProp_holds h := exists a, Ψ a h |}.
Definition heapProp_sep (P Q : heapProp) : heapProp :=
  {| heapProp_holds h := exists h1 h2, h = h1 ∪ h2 /\ h1 ##ₘ h2 /\ P h1 /\ Q h2 |}.
Definition heapProp_wand (P Q : heapProp) : heapProp :=
  {| heapProp_holds h := forall h', h ##ₘ h' -> P h' -> Q (h ∪ h') |}.
Definition heapProp_persistently (P : heapProp) : heapProp :=
  heapProp_pure (heapProp_entails heapProp_emp P).
Definition heapProp_later (P : heapProp) : heapProp := P.

Section mixins.
Lemma heapProp_bi_mixin :
  BiMixin heapProp_entails heapProp_emp heapProp_pure heapProp_and
    heapProp_or heapProp_impl (@heapProp_forall) (@heapProp_exist)
    heapProp_sep heapProp_wand.
Proof.
  split.
  - split; [by intros P|]. intros P Q R [H1] [H2]. split. eauto.
  - intros P Q. split.
    + intros [H]. split; split; intros h; apply H.
    + intros [[H1] [H2]]. split. split; eauto.
  - intros n φ1 φ2 Hφ. split. intros h. exact Hφ.
  - intros n P1 P2 [HP] Q1 Q2 [HQ]. split. intros h.
    unfold heapProp_holds; cbn. by rw HP HQ.
  - intros n P1 P2 [HP] Q1 Q2 [HQ]. split. intros h.
    unfold heapProp_holds; cbn. by rw HP HQ.
  - intros n P1 P2 [HP] Q1 Q2 [HQ]. split. intros h.
    unfold heapProp_holds; cbn. by rw HP HQ.
  - intros A n Ψ1 Ψ2 HΨ. split. intros h. unfold heapProp_holds; cbn.
    split; intros H a; destruct (HΨ a) as [HΨa]; by apply HΨa.
  - intros A n Ψ1 Ψ2 HΨ. split. intros h. unfold heapProp_holds; cbn.
    split; intros [a H]; exists a; destruct (HΨ a) as [HΨa]; by apply HΨa.
  - intros n P1 P2 [HP] Q1 Q2 [HQ]. split. intros h.
    split; intros (h1 & h2 & ? & ? & HP1 & HQ1); exists h1, h2;
      apply HP in HP1; apply HQ in HQ1; done.
  - intros n P1 P2 [HP] Q1 Q2 [HQ]. split. intros h.
    split; intros H h' Hd HP1; apply HQ, H; [done|by apply HP|done|by apply HP].
  - intros φ P Hφ. split. by intros h.
  - intros φ P H. split. intros h Hφ. destruct (H Hφ) as [H']. by apply H'.
  - intros P Q. split. by intros h [??].
  - intros P Q. split. by intros h [??].
  - intros P Q R [H1] [H2]. split. intros h HP. split; eauto.
  - intros P Q. split. intros h HP. by left.
  - intros P Q. split. intros h HP. by right.
  - intros P Q R [H1] [H2]. split. intros h [?|?]; eauto.
  - intros P Q R [H]. split. intros h HP HQ. apply H. by split.
  - intros P Q R [H]. split. intros h [HP HQ]. by apply H.
  - intros A P Ψ H. split. intros h HP a. destruct (H a) as [Ha]. by apply Ha.
  - intros A Ψ a. split. intros h H. apply H.
  - intros A Ψ a. split. intros h H. by exists a.
  - intros A Ψ Q H. split. intros h [a HΨ]. destruct (H a) as [Ha]. by apply Ha.
  - intros P P' Q Q' [H1] [H2]. split. intros h (h1 & h2 & -> & ? & ? & ?).
    exists h1, h2. split; [done|]. split; [done|]. split; auto.
  - intros P. split. intros h HP. exists ∅, h.
    split; [by rw left_id_L|]. split; [apply map_disjoint_empty_l|]. by split.
  - intros P. split. intros h (h1 & h2 & -> & ? & -> & ?). by rw left_id_L.
  - intros P Q. split. intros h (h1 & h2 & -> & ? & ? & ?).
    exists h2, h1. split; [by apply map_union_comm|done].
  - intros P Q R. split. intros h (h1 & h2 & -> & Hd & (h3 & h4 & -> & Hd2 & ? & ?) & ?).
    apply map_disjoint_union_l in Hd as [??].
    exists h3, (h4 ∪ h2). split; [by rw assoc_L|]. split.
    + by apply map_disjoint_union_r_2.
    + split; [done|]. by exists h4, h2.
  - intros P Q R [H]. split. intros h HP h' Hd HQ. apply H. by exists h, h'.
  - intros P Q R [H]. split. intros h (h1 & h2 & -> & Hd & HP & HQ).
    by apply (H h1).
Qed.

Lemma heapProp_bi_persistently_mixin :
  BiPersistentlyMixin heapProp_entails heapProp_emp heapProp_and
    (@heapProp_exist) heapProp_sep heapProp_persistently.
Proof.
  eapply bi_persistently_mixin_discrete; [done| |done|apply heapProp_bi_mixin].
  intros A Φ [H]. destruct (H ∅) as [a Ha]; [done|].
  exists a. split. by intros h ->.
Qed.

Lemma heapProp_bi_later_mixin :
  BiLaterMixin heapProp_entails heapProp_pure heapProp_or heapProp_impl
    (@heapProp_forall) (@heapProp_exist) heapProp_sep heapProp_persistently
    heapProp_later.
Proof. eapply bi_later_mixin_id; [done|apply heapProp_bi_mixin]. Qed.
End mixins.

Canonical Structure heapPropI : bi :=
  {| bi_ofe_mixin := ofe_mixin_of heapProp;
     bi_bi_mixin := heapProp_bi_mixin;
     bi_bi_persistently_mixin := heapProp_bi_persistently_mixin;
     bi_bi_later_mixin := heapProp_bi_later_mixin |}.

#[global] Instance heapProp_pure_forall : BiPureForall heapPropI.
Proof. intros A φ. constructor. intros h H. exact H. Qed.

(** ** Cells, heap size, weakest preconditions *)

Definition points_to (a v : Z) : heapProp := {| heapProp_holds h := h = {[ a := v ]} |}.
Notation "a ↦ v" := (points_to a v) (at level 20, format "a  ↦  v") : bi_scope.

(** A pure fact that owns no cell. *)
Notation "⌞ φ ⌟" := (<affine> ⌜φ⌝)%I (at level 0, φ at level 200) : bi_scope.

(** At least [n] cells are owned. *)
Definition heap_ge (n : nat) : heapProp :=
  {| heapProp_holds h := (n <= size h)%nat |}.

Definition wp {A} (c : M A) (Q : A -> heapProp) : heapProp :=
  {| heapProp_holds h := forall hf, h ##ₘ hf -> exists a h',
       c (h ∪ hf) = Ok (a, h' ∪ hf) /\ h' ##ₘ hf /\ Q a h' |}.

(** Total correctness with framing, stated on memories: from any memory with a
    part satisfying [P], [c] succeeds and changes that part only. *)
Definition triple {A} (P : heapProp) (c : M A) (Q : A -> heapProp) : Prop :=
  forall h hf, P h -> h ##ₘ hf -> exists a h',
    c (h ∪ hf) = Ok (a, h' ∪ hf) /\ h' ##ₘ hf /\ Q a h'.

Notation "{{{ P } } } c {{{ r , Q } } }" := (triple P%I c (fun r => Q%I))
  (at level 20, c at level 100, r name,
   format "{{{  P  } } }  c  {{{  r ,  Q  } } }") : type_scope.

Lemma triple_wp {A} P (c : M A) Q : triple P c Q <-> (P ⊢ wp c Q).
Proof.
  split.
  - intros H. constructor. intros h HP hf Hd. by apply H.
  - intros [H] h hf HP Hd. by apply (H h HP hf).
Qed.

Section rules.
Implicit Types (P R : heapProp) (a v w : Z).

Lemma wp_ret {A} (x : A) (Q : A -> heapProp) : Q x ⊢ wp (ret x) Q.
Proof. constructor. intros h HQ hf Hd. by exists x, h. Qed.

Lemma wp_bind {A B} (c : M A) (k : A -> M B) Q :
  wp c (fun x => wp (k x) Q) ⊢ wp (bind c k) Q.
Proof.
  constructor. intros h Hwp hf Hd.
  destruct (Hwp hf Hd) as (x & h' & Hc & Hd' & Hk).
  destruct (Hk hf Hd') as (y & h'' & Hk' & ?).
  exists y, h''. split; [|done]. unfold bind. by rw Hc.
Qed.

Lemma wp_bind_assoc {A B C} (c : M A) (f : A -> M B) (g : B -> M C) Q :
  wp (bind c (fun x => bind (f x) g)) Q ⊢ wp (bind (bind c f) g) Q.
Proof.
  constructor. intros h H hf Hd.
  destruct (H hf Hd) as (x & h' & Hc & ?). exists x, h'. split; [|done].
  rw -Hc. unfold bind. by destruct (c (h ∪ hf)) as [[??]|].
Qed.

Lemma wp_wand {A} (c : M A) (Q1 Q2 : A -> heapProp) :
  wp c Q1 ∗ (∀ x, Q1 x -∗ Q2 x) ⊢ wp c Q2.
Proof.
  constructor. intros h (h1 & h2 & -> & Hd & Hwp & HQ) hf Hdf.
  apply map_disjoint_union_l in Hdf as [Hd1 Hd2].
  destruct (Hwp (h2 ∪ hf)) as (x & h' & Hc & Hd' & HQ1).
  { by apply map_disjoint_union_r_2. }
  apply map_disjoint_union_r in Hd' as [Hd'2 Hd'f].
  exists x, (h2 ∪ h'). split_and!.
  - by rw -assoc_L Hc (map_union_comm h2 h') // -assoc_L.
  - by apply map_disjoint_union_l_2.
  - by apply (HQ x).
Qed.

Lemma wp_load a v (Q : Z -> heapProp) :
  a ↦ v ∗ (a ↦ v -∗ Q v) ⊢ wp (load a) Q.
Proof.
  constructor. intros h (h1 & h2 & -> & Hd & -> & HQ) hf Hdf.
  exists v, ({[a := v]} ∪ h2). split_and!; [|done|].
  - unfold load. by rw -assoc_L lookup_union lookup_singleton_eq union_Some_l.
  - rw map_union_comm //. by apply HQ.
Qed.

Lemma wp_store a v w (Q : unit -> heapProp) :
  a ↦ v ∗ (a ↦ w -∗ Q tt) ⊢ wp (store a w) Q.
Proof.
  constructor. intros h (h1 & h2 & -> & Hd & -> & HQ) hf Hdf.
  exists tt, ({[a := w]} ∪ h2).
  apply map_disjoint_union_l in Hdf as [Hd1 Hd2].
  apply map_disjoint_singleton_l in Hd, Hd1.
  assert ({[a := w]} ##ₘ h2) as Hdw by by apply map_disjoint_singleton_l.
  split_and!.
  - unfold store. rw -!assoc_L lookup_union lookup_singleton_eq union_Some_l.
    by rw insert_union_l insert_singleton_eq.
  - apply map_disjoint_union_l_2; [by apply map_disjoint_singleton_l|done].
  - rw map_union_comm //. by apply HQ.
Qed.

Lemma points_to_ne a b v w : a ↦ v -∗ b ↦ w -∗ ⌜a <> b⌝.
Proof.
  apply bi.wand_intro_r, bi.wand_intro_r. rw left_id.
  constructor. intros h (h1 & h2 & -> & Hd & -> & ->) ->.
  by apply map_disjoint_singleton_l, lookup_singleton_None in Hd.
Qed.

(** *** Loop bounds *)

Lemma heap_ge_sep n1 n2 : heap_ge n1 ∗ heap_ge n2 ⊢ heap_ge (n1 + n2).
Proof.
  constructor. intros h (h1 & h2 & -> & Hd & H1 & H2).
  change (n1 <= size h1)%nat in H1. change (n2 <= size h2)%nat in H2.
  change (n1 + n2 <= size (h1 ∪ h2))%nat. rw map_size_disj_union //. lia.
Qed.

Lemma heap_ge_mono n1 n2 : (n2 <= n1)%nat -> heap_ge n1 ⊢ heap_ge n2.
Proof.
  intros Hle. constructor. intros h H. change (n1 <= size h)%nat in H.
  change (n2 <= size h)%nat. lia.
Qed.

Lemma heap_ge_0 P : P ⊢ heap_ge 0.
Proof. constructor. intros h _. change (0 <= size h)%nat. lia. Qed.

Lemma heap_ge_frame n P : heap_ge n ∗ P ⊢ heap_ge n.
Proof. rw (heap_ge_0 P) heap_ge_sep. apply heap_ge_mono. lia. Qed.

Lemma points_to_heap_ge a v : a ↦ v ⊢ heap_ge 1.
Proof.
  constructor. intros h ->. change (1 <= size ({[a := v]} : mem))%nat.
  by rw map_size_singleton.
Qed.

#[global] Instance heap_ge_absorbing n : Absorbing (heap_ge n).
Proof.
  unfold Absorbing, bi_absorbingly. rw comm. apply heap_ge_frame.
Qed.

Lemma wp_with_fuel {A} n (f : nat -> M A) Q :
  heap_ge n ∧ (∀ k, ⌜(n < k)%nat⌝ → wp (f k) Q) ⊢ wp (with_fuel f) Q.
Proof.
  constructor. intros h [Hge H] hf Hd. unfold with_fuel.
  apply (H (S (size (h ∪ hf)))); [|done].
  change (n <= size h)%nat in Hge. change (n < S (size (h ∪ hf)))%nat.
  rw map_size_disj_union //. lia.
Qed.

Lemma wp_while {X Res} n (body : X -> M (X + Res)) x Q :
  heap_ge n ∧ (∀ k, ⌜(n < k)%nat⌝ → wp (loop k body x) Q)
  ⊢ wp (while body x) Q.
Proof. apply wp_with_fuel. Qed.

Lemma wp_loop_S {X Res} k (body : X -> M (X + Res)) x Q :
  wp (body x) (fun r => match r with
                        | inl x' => wp (loop k body x') Q
                        | inr v => Q v
                        end) ⊢ wp (loop (S k) body x) Q.
Proof.
  simpl. iIntros "H". iApply wp_bind. iApply (wp_wand with "[$H]").
  iIntros ([x'|v]) "H"; [done|]. by iApply wp_ret.
Qed.
End rules.

#[global] Opaque wp.

(** ** Tactics: one step of symbolic execution *)

Lemma tac_wp_load {A} Δ i a v (k : Z -> M A) Q :
  envs_lookup i Δ = Some (false, a ↦ v)%I ->
  envs_entails Δ (wp (k v) Q) ->
  envs_entails Δ (wp (bind (load a) k) Q).
Proof.
  rw envs_entails_unseal. intros Hi Hk. rw -wp_bind -(wp_load a v).
  rw envs_lookup_split //=. apply bi.sep_mono_r. by rw Hk.
Qed.

Lemma tac_wp_store {A} Δ Δ' i a v w (k : unit -> M A) Q :
  envs_lookup i Δ = Some (false, a ↦ v)%I ->
  envs_simple_replace i false (Esnoc Enil i (a ↦ w)%I) Δ = Some Δ' ->
  envs_entails Δ' (wp (k tt) Q) ->
  envs_entails Δ (wp (bind (store a w) k) Q).
Proof.
  rw envs_entails_unseal. intros Hi HΔ Hk. rw -wp_bind -(wp_store a v w).
  rw envs_simple_replace_singleton_sound //=. apply bi.sep_mono_r. by rw Hk.
Qed.

Lemma tac_wp_load_last Δ i a v Q :
  envs_lookup i Δ = Some (false, a ↦ v)%I ->
  envs_entails Δ (Q v) ->
  envs_entails Δ (wp (load a) Q).
Proof.
  rw envs_entails_unseal. intros Hi Hk. rw -(wp_load a v).
  rw envs_lookup_split //=. apply bi.sep_mono_r. by rw Hk.
Qed.

Lemma tac_wp_store_last Δ Δ' i a v w Q :
  envs_lookup i Δ = Some (false, a ↦ v)%I ->
  envs_simple_replace i false (Esnoc Enil i (a ↦ w)%I) Δ = Some Δ' ->
  envs_entails Δ' (Q tt) ->
  envs_entails Δ (wp (store a w) Q).
Proof.
  rw envs_entails_unseal. intros Hi HΔ Hk. rw -(wp_store a v w).
  rw envs_simple_replace_singleton_sound //=. apply bi.sep_mono_r. by rw Hk.
Qed.

Lemma tac_wp_bind_bind {A B C} Δ (c : M A) (f : A -> M B) (g : B -> M C) Q :
  envs_entails Δ (wp (bind c (fun x => bind (f x) g)) Q) ->
  envs_entails Δ (wp (bind (bind c f) g) Q).
Proof.
  rw envs_entails_unseal. intros ->. apply wp_bind_assoc.
Qed.

Lemma tac_wp_bind_ret {A B} Δ (x : A) (k : A -> M B) Q :
  envs_entails Δ (wp (k x) Q) -> envs_entails Δ (wp (bind (ret x) k) Q).
Proof. rw envs_entails_unseal. intros ->. etrans; [|apply wp_bind]. apply (wp_ret x (fun x => wp (k x) Q)). Qed.

Lemma tac_wp_ret {A} Δ (x : A) Q :
  envs_entails Δ (Q x) -> envs_entails Δ (wp (ret x) Q).
Proof. rw envs_entails_unseal. intros ->. apply wp_ret. Qed.

(** [wp_norm] reassociates sequences and drops administrative [ret]s. *)
Ltac wp_norm :=
  repeat (lazymatch goal with
  | |- envs_entails _ (wp (bind (bind _ _) _) _) =>
      eapply tac_wp_bind_bind; cbv beta
  | |- envs_entails _ (wp (bind (ret _) _) _) =>
      eapply tac_wp_bind_ret; cbv beta
  | |- envs_entails _ (wp (ret _) _) => eapply tac_wp_ret; cbv beta
  end).

Ltac wp_load := wp_norm;
  first [ eapply tac_wp_load; [iAssumptionCore | cbv beta]
        | eapply tac_wp_load_last; [iAssumptionCore | cbv beta] ]; wp_norm.

Ltac wp_store := wp_norm;
  first [ eapply tac_wp_store; [iAssumptionCore | pm_reflexivity | cbv beta]
        | eapply tac_wp_store_last; [iAssumptionCore | pm_reflexivity | cbv beta] ];
  wp_norm.

(** Run as many loads and stores as the context allows. *)
Ltac wp_run := repeat first [wp_load | wp_store]; wp_norm.

(** Call a function through its specification [lem]. *)
Tactic Notation "wp_call" open_constr(lem) :=
  wp_norm; first [iApply wp_bind | idtac]; iApply (wp_wand with "[-]"); iApply lem.

(** Closed programs: from an entailment to a run on a concrete memory. *)
Lemma wp_adequate {A} (P : heapProp) (c : M A) Q h :
  (P ⊢ wp c Q) -> P h -> exists a h', c h = Ok (a, h') /\ Q a h'.
Proof.
  intros [H] HP. destruct (H h HP ∅) as (a & h' & Hc & _ & HQ).
  { apply map_disjoint_empty_r. }
  exists a, h'. by rw !right_id_L in Hc.
Qed.
