(* ===== verification/RBTree.v ===== *)
(** * RBTree: the intrusive red-black tree of [src/src/lib/rbtree]

    [HevRBTreeNode], [HevRBTree] and [HevRBTreeCached] as cells of memory, and
    every function of [hev-rbtree.h], [hev-rbtree.c], [hev-rbtree-cached.h] and
    [hev-rbtree-cached.c] as a program over them. *)

From S2P Require Import Prelude.

(** ** Layout *)

Definition rb_parent_color (n : Z) : Z := n.
Definition rb_right (n : Z) : Z := n + 8.
Definition rb_left (n : Z) : Z := n + 16.

Definition rb_root (self : Z) : Z := self.
Definition rb_leftmost (self : Z) : Z := self + 8.

Definition HEV_RBTREE_RED : Z := 0.
Definition HEV_RBTREE_BLACK : Z := 1.

(** ** Node accessors *)

Definition parent_of (pc : Z) : Z := Z.land pc (Z.lnot 3).
Definition color_of (pc : Z) : Z := Z.land pc 1.

Definition hev_rbtree_node_empty (node : Z) : M bool :=
  pc <- load (rb_parent_color node) ;; ret (pc =? node).

Definition hev_rbtree_node_parent (node : Z) : M Z :=
  pc <- load (rb_parent_color node) ;; ret (parent_of pc).

Definition hev_rbtree_node_link (node parent link : Z) : M unit :=
  store (rb_parent_color node) parent ;;;
  store (rb_right node) NULL ;;;
  store (rb_left node) NULL ;;;
  store link node.

Definition hev_rbtree_node_color (node : Z) : M Z :=
  pc <- load (rb_parent_color node) ;; ret (color_of pc).

Definition hev_rbtree_node_is_red (node : Z) : M bool :=
  c <- hev_rbtree_node_color node ;;
  ret (negb (is_true (Z.land c HEV_RBTREE_BLACK))).

Definition hev_rbtree_node_is_black (node : Z) : M bool :=
  c <- hev_rbtree_node_color node ;;
  ret (is_true (Z.land c HEV_RBTREE_BLACK)).

Definition _hev_rbtree_node_is_black (pc : Z) : bool :=
  is_true (Z.land pc HEV_RBTREE_BLACK).

Definition _hev_rbtree_node_parent (pc : Z) : Z := parent_of pc.

Definition hev_rbtree_node_red_parent (node : Z) : M Z :=
  load (rb_parent_color node).

Definition hev_rbtree_node_set_black (node : Z) : M unit :=
  pc <- load (rb_parent_color node) ;;
  store (rb_parent_color node) (Z.lor pc HEV_RBTREE_BLACK).

Definition hev_rbtree_node_set_parent (node parent : Z) : M unit :=
  c <- hev_rbtree_node_color node ;;
  store (rb_parent_color node) (Z.lor c parent).

Definition hev_rbtree_node_set_parent_color (node parent color : Z) : M unit :=
  store (rb_parent_color node) (Z.lor parent color).

Definition hev_rbtree_change_child (self old new parent : Z) : M unit :=
  if is_true parent then
    l <- load (rb_left parent) ;;
    if l =? old then store (rb_left parent) new
    else store (rb_right parent) new
  else store (rb_root self) new.

Definition hev_rbtree_rotate_set_parents (self old new color : Z) : M unit :=
  parent <- hev_rbtree_node_parent old ;;
  pc <- load (rb_parent_color old) ;;
  store (rb_parent_color new) pc ;;;
  hev_rbtree_node_set_parent_color old new color ;;;
  hev_rbtree_change_child self old new parent.

(** ** Traversal *)

(** [while (n->right) n = n->right;] and [while (n->left) n = n->left;] *)
Definition rb_go_body (child : Z -> Z) (n : Z) : M (Z + Z) :=
  c <- load (child n) ;; ret (if is_true c then inl c else inr n).

Definition rb_go_right : Z -> M Z := while (rb_go_body rb_right).
Definition rb_go_left : Z -> M Z := while (rb_go_body rb_left).

(** [while ((parent = hev_rbtree_node_parent (node)) && node == parent->left)
    node = parent;] with the child field as an argument; the result is the
    last [parent]. *)
Definition rb_climb_body (child : Z -> Z) (node : Z) : M (Z + Z) :=
  parent <- hev_rbtree_node_parent node ;;
  if is_true parent then
    c <- load (child parent) ;;
    ret (if node =? c then inl parent else inr parent)
  else ret (inr parent).

Definition rb_climb (child : Z -> Z) : Z -> M Z := while (rb_climb_body child).

Definition hev_rbtree_node_prev (node : Z) : M Z :=
  e <- hev_rbtree_node_empty node ;;
  if e then ret NULL else
  l <- load (rb_left node) ;;
  if is_true l then rb_go_right l else rb_climb rb_left node.

Definition hev_rbtree_node_next (node : Z) : M Z :=
  e <- hev_rbtree_node_empty node ;;
  if e then ret NULL else
  r <- load (rb_right node) ;;
  if is_true r then rb_go_left r else rb_climb rb_right node.

Definition hev_rbtree_first (self : Z) : M Z :=
  n <- load (rb_root self) ;;
  if is_true n then rb_go_left n else ret NULL.

Definition hev_rbtree_last (self : Z) : M Z :=
  n <- load (rb_root self) ;;
  if is_true n then rb_go_right n else ret NULL.

(** ** Insertion *)

(** Case 1: colour flips; continue at [gparent]. *)
Definition insert_color_flip (gparent parent tmp : Z) : M (Z * Z + unit) :=
  hev_rbtree_node_set_parent_color tmp gparent HEV_RBTREE_BLACK ;;;
  hev_rbtree_node_set_parent_color parent gparent HEV_RBTREE_BLACK ;;;
  parent' <- hev_rbtree_node_parent gparent ;;
  hev_rbtree_node_set_parent_color gparent parent' HEV_RBTREE_RED ;;;
  ret (inl (gparent, parent')).

(** [if (tmp && hev_rbtree_node_is_red (tmp))] *)
Definition rb_red_child (tmp : Z) : M bool :=
  if is_true tmp then hev_rbtree_node_is_red tmp else ret false.

(** [if (tmp) hev_rbtree_node_set_parent_color (tmp, parent, BLACK)] *)
Definition rb_adopt_black (tmp parent : Z) : M unit :=
  when (is_true tmp)
    (hev_rbtree_node_set_parent_color tmp parent HEV_RBTREE_BLACK).

(** Case 2, left side: left rotate at [parent]; the new [parent] and [tmp]. *)
Definition insert_case2_left (node parent : Z) : M (Z * Z) :=
  tmp <- load (rb_left node) ;;
  store (rb_right parent) tmp ;;;
  store (rb_left node) parent ;;;
  rb_adopt_black tmp parent ;;;
  hev_rbtree_node_set_parent_color parent node HEV_RBTREE_RED ;;;
  tmp <- load (rb_right node) ;;
  ret (node, tmp).

(** Case 3, left side: right rotate at [gparent]. *)
Definition insert_case3_left (self gparent parent tmp : Z) : M (Z * Z + unit) :=
  store (rb_left gparent) tmp ;;;
  store (rb_right parent) gparent ;;;
  rb_adopt_black tmp gparent ;;;
  hev_rbtree_rotate_set_parents self gparent parent HEV_RBTREE_RED ;;;
  ret (inr tt).

Definition insert_case2_right (node parent : Z) : M (Z * Z) :=
  tmp <- load (rb_right node) ;;
  store (rb_left parent) tmp ;;;
  store (rb_right node) parent ;;;
  rb_adopt_black tmp parent ;;;
  hev_rbtree_node_set_parent_color parent node HEV_RBTREE_RED ;;;
  tmp <- load (rb_left node) ;;
  ret (node, tmp).

Definition insert_case3_right (self gparent parent tmp : Z) : M (Z * Z + unit) :=
  store (rb_right gparent) tmp ;;;
  store (rb_left parent) gparent ;;;
  rb_adopt_black tmp gparent ;;;
  hev_rbtree_rotate_set_parents self gparent parent HEV_RBTREE_RED ;;;
  ret (inr tt).

Definition insert_color_body (self : Z) (st : Z * Z) : M (Z * Z + unit) :=
  let '(node, parent) := st in
  if negb (is_true parent) then
    hev_rbtree_node_set_parent_color node NULL HEV_RBTREE_BLACK ;;; ret (inr tt)
  else
  b <- hev_rbtree_node_is_black parent ;;
  if b then ret (inr tt) else
  gparent <- hev_rbtree_node_red_parent parent ;;
  tmp <- load (rb_right gparent) ;;
  if negb (parent =? tmp) then
    (* parent == gparent->left *)
    red <- rb_red_child tmp ;;
    if red then insert_color_flip gparent parent tmp else
    tmp <- load (rb_right parent) ;;
    st <- (if node =? tmp then insert_case2_left node parent
           else ret (parent, tmp)) ;;
    let '(parent, tmp) := st in
    insert_case3_left self gparent parent tmp
  else
    tmp <- load (rb_left gparent) ;;
    red <- rb_red_child tmp ;;
    if red then insert_color_flip gparent parent tmp else
    tmp <- load (rb_left parent) ;;
    st <- (if node =? tmp then insert_case2_right node parent
           else ret (parent, tmp)) ;;
    let '(parent, tmp) := st in
    insert_case3_right self gparent parent tmp.

Definition hev_rbtree_insert_color (self node : Z) : M unit :=
  parent <- hev_rbtree_node_red_parent node ;;
  while (insert_color_body self) (node, parent).

(** ** Replacement *)

(** [if (victim->f) hev_rbtree_node_set_parent (victim->f, new);] *)
Definition replace_child (field new : Z) : M unit :=
  c <- load field ;;
  when (is_true c) (c <- load field ;; hev_rbtree_node_set_parent c new).

Definition hev_rbtree_replace (self victim new : Z) : M unit :=
  parent <- hev_rbtree_node_parent victim ;;
  (* *new = *victim *)
  pc <- load (rb_parent_color victim) ;;
  r <- load (rb_right victim) ;;
  l <- load (rb_left victim) ;;
  store (rb_parent_color new) pc ;;;
  store (rb_right new) r ;;;
  store (rb_left new) l ;;;
  replace_child (rb_left victim) new ;;;
  replace_child (rb_right victim) new ;;;
  hev_rbtree_change_child self victim new parent.

(** ** Removal *)

(** [do { parent = successor; successor = tmp; tmp = tmp->left; } while (tmp);] *)
Definition erase_leftmost_body (st : Z * Z) : M (Z * Z + Z * Z) :=
  let '(successor, tmp) := st in
  tmp' <- load (rb_left tmp) ;;
  ret (if is_true tmp' then inl (tmp, tmp') else inr (successor, tmp)).

Definition erase_leftmost : Z * Z -> M (Z * Z) := while erase_leftmost_body.

(** Cases 2 and 3, common tail: [successor] takes the place of [node]. *)
Definition erase_finish (self node parent successor child2 : Z) : M Z :=
  tmp <- load (rb_left node) ;;
  store (rb_left successor) tmp ;;;
  hev_rbtree_node_set_parent tmp successor ;;;
  pc <- load (rb_parent_color node) ;;
  let tmp := _hev_rbtree_node_parent pc in
  hev_rbtree_change_child self node successor tmp ;;;
  rebalance <- (if is_true child2 then
                  hev_rbtree_node_set_parent_color child2 parent HEV_RBTREE_BLACK ;;;
                  ret NULL
                else
                  b <- hev_rbtree_node_is_black successor ;;
                  ret (if b then parent else NULL)) ;;
  store (rb_parent_color successor) pc ;;;
  ret rebalance.

Definition _hev_rbtree_erase (self node : Z) : M Z :=
  child <- load (rb_right node) ;;
  tmp <- load (rb_left node) ;;
  if negb (is_true tmp) then
    (* Case 1: no more than one child *)
    pc <- load (rb_parent_color node) ;;
    let parent := _hev_rbtree_node_parent pc in
    hev_rbtree_change_child self node child parent ;;;
    if is_true child then
      store (rb_parent_color child) pc ;;; ret NULL
    else ret (if _hev_rbtree_node_is_black pc then parent else NULL)
  else if negb (is_true child) then
    pc <- load (rb_parent_color node) ;;
    store (rb_parent_color tmp) pc ;;;
    let parent := _hev_rbtree_node_parent pc in
    hev_rbtree_change_child self node tmp parent ;;;
    ret NULL
  else
    tmp <- load (rb_left child) ;;
    if negb (is_true tmp) then
      (* Case 2: the successor is the right child *)
      child2 <- load (rb_right child) ;;
      erase_finish self node child child child2
    else
      (* Case 3: the successor is leftmost under the right child *)
      ps <- erase_leftmost (child, tmp) ;;
      let '(parent, successor) := ps in
      child2 <- load (rb_right successor) ;;
      store (rb_left parent) child2 ;;;
      store (rb_right successor) child ;;;
      hev_rbtree_node_set_parent child successor ;;;
      erase_finish self node parent successor child2.

(** [if (!tmp || hev_rbtree_node_is_black (tmp))] *)
Definition rb_black_child (tmp : Z) : M bool :=
  if negb (is_true tmp) then ret true else hev_rbtree_node_is_black tmp.

(** Case 2 of the rebalancing: sibling colour flip, then stop at a red parent
    or at the root, or continue one level up. *)
Definition erase_color_flip (parent sibling : Z) : M (Z * Z + unit) :=
  hev_rbtree_node_set_parent_color sibling parent HEV_RBTREE_RED ;;;
  r <- hev_rbtree_node_is_red parent ;;
  if r then hev_rbtree_node_set_black parent ;;; ret (inr tt)
  else
    parent' <- hev_rbtree_node_parent parent ;;
    ret (if is_true parent' then inl (parent, parent') else inr tt).

(** Case 3, [node == parent->left]: right rotate at the sibling; the new
    [tmp1] and [sibling]. *)
Definition erase_case3_left (parent sibling tmp2 : Z) : M (Z * Z) :=
  tmp1 <- load (rb_right tmp2) ;;
  store (rb_left sibling) tmp1 ;;;
  store (rb_right tmp2) sibling ;;;
  store (rb_right parent) tmp2 ;;;
  rb_adopt_black tmp1 sibling ;;;
  ret (sibling, tmp2).

(** Case 4, [node == parent->left]: left rotate at [parent] and colour flips. *)
Definition erase_case4_left (self parent sibling tmp1 : Z) : M (Z * Z + unit) :=
  tmp2 <- load (rb_left sibling) ;;
  store (rb_right parent) tmp2 ;;;
  store (rb_left sibling) parent ;;;
  hev_rbtree_node_set_parent_color tmp1 sibling HEV_RBTREE_BLACK ;;;
  when (is_true tmp2) (hev_rbtree_node_set_parent tmp2 parent) ;;;
  hev_rbtree_rotate_set_parents self parent sibling HEV_RBTREE_BLACK ;;;
  ret (inr tt).

(** Cases 2 to 4, [node == parent->left]. *)
Definition erase_color_left_black (self parent sibling : Z) : M (Z * Z + unit) :=
  tmp1 <- load (rb_right sibling) ;;
  b1 <- rb_black_child tmp1 ;;
  if b1 then
    tmp2 <- load (rb_left sibling) ;;
    b2 <- rb_black_child tmp2 ;;
    if b2 then erase_color_flip parent sibling else
    st <- erase_case3_left parent sibling tmp2 ;;
    let '(tmp1, sibling) := st in
    erase_case4_left self parent sibling tmp1
  else erase_case4_left self parent sibling tmp1.

(** Case 3, [node == parent->right]: left rotate at the sibling; the new
    [tmp1] and [sibling]. *)
Definition erase_case3_right (parent sibling tmp2 : Z) : M (Z * Z) :=
  tmp1 <- load (rb_left tmp2) ;;
  store (rb_right sibling) tmp1 ;;;
  store (rb_left tmp2) sibling ;;;
  store (rb_left parent) tmp2 ;;;
  rb_adopt_black tmp1 sibling ;;;
  ret (sibling, tmp2).

(** Case 4, [node == parent->right]: right rotate at [parent] and colour flips. *)
Definition erase_case4_right (self parent sibling tmp1 : Z) : M (Z * Z + unit) :=
  tmp2 <- load (rb_right sibling) ;;
  store (rb_left parent) tmp2 ;;;
  store (rb_right sibling) parent ;;;
  hev_rbtree_node_set_parent_color tmp1 sibling HEV_RBTREE_BLACK ;;;
  when (is_true tmp2) (hev_rbtree_node_set_parent tmp2 parent) ;;;
  hev_rbtree_rotate_set_parents self parent sibling HEV_RBTREE_BLACK ;;;
  ret (inr tt).

(** Cases 2 to 4, [node == parent->right]. *)
Definition erase_color_right_black (self parent sibling : Z) : M (Z * Z + unit) :=
  tmp1 <- load (rb_left sibling) ;;
  b1 <- rb_black_child tmp1 ;;
  if b1 then
    tmp2 <- load (rb_right sibling) ;;
    b2 <- rb_black_child tmp2 ;;
    if b2 then erase_color_flip parent sibling else
    st <- erase_case3_right parent sibling tmp2 ;;
    let '(tmp1, sibling) := st in
    erase_case4_right self parent sibling tmp1
  else erase_case4_right self parent sibling tmp1.

Definition erase_color_left (self parent sibling : Z) : M (Z * Z + unit) :=
  r <- hev_rbtree_node_is_red sibling ;;
  if r then
    (* Case 1: left rotate at parent *)
    tmp1 <- load (rb_left sibling) ;;
    store (rb_right parent) tmp1 ;;;
    store (rb_left sibling) parent ;;;
    hev_rbtree_node_set_parent_color tmp1 parent HEV_RBTREE_BLACK ;;;
    hev_rbtree_rotate_set_parents self parent sibling HEV_RBTREE_RED ;;;
    erase_color_left_black self parent tmp1
  else erase_color_left_black self parent sibling.

Definition erase_color_right (self parent : Z) : M (Z * Z + unit) :=
  sibling <- load (rb_left parent) ;;
  r <- hev_rbtree_node_is_red sibling ;;
  if r then
    (* Case 1: right rotate at parent *)
    tmp1 <- load (rb_right sibling) ;;
    store (rb_left parent) tmp1 ;;;
    store (rb_right sibling) parent ;;;
    hev_rbtree_node_set_parent_color tmp1 parent HEV_RBTREE_BLACK ;;;
    hev_rbtree_rotate_set_parents self parent sibling HEV_RBTREE_RED ;;;
    erase_color_right_black self parent tmp1
  else erase_color_right_black self parent sibling.

Definition erase_color_body (self : Z) (st : Z * Z) : M (Z * Z + unit) :=
  let '(node, parent) := st in
  sibling <- load (rb_right parent) ;;
  if negb (node =? sibling) then erase_color_left self parent sibling
  else erase_color_right self parent.

Definition _hev_rbtree_erase_color (self parent : Z) : M unit :=
  while (erase_color_body self) (NULL, parent).

Definition hev_rbtree_erase (self node : Z) : M unit :=
  rebalance <- _hev_rbtree_erase self node ;;
  when (is_true rebalance) (_hev_rbtree_erase_color self rebalance).

(** ** Looking up an insertion point

    The loop both users of the tree write before linking a node:
    [while ( *new) { parent = *new; if (..) new = &( *new)->left; else
    { new = &( *new)->right; leftmost = 0; } }].  [go_left] is the test. *)

Definition rb_descend_body (go_left : Z -> M bool) (st : Z * Z * bool)
    : M (Z * Z * bool + Z * Z * bool) :=
  let '(new, parent, leftmost) := st in
  cur <- load new ;;
  if is_true cur then
    b <- go_left cur ;;
    ret (inl (if b then (rb_left cur, cur, leftmost) else (rb_right cur, cur, false)))
  else ret (inr (new, parent, leftmost)).

Definition rb_descend (self : Z) (go_left : Z -> M bool) : M (Z * Z * bool) :=
  while (rb_descend_body go_left) (rb_root self, NULL, true).

(** ** The tree with a cached leftmost node *)

Definition hev_rbtree_cached_first (self : Z) : M Z := load (rb_leftmost self).

Definition hev_rbtree_cached_insert_color (self node : Z) (leftmost : bool) : M unit :=
  when leftmost (store (rb_leftmost self) node) ;;;
  hev_rbtree_insert_color (rb_root self) node.

Definition hev_rbtree_cached_replace (self victim new : Z) : M unit :=
  hev_rbtree_replace (rb_root self) victim new ;;;
  lm <- load (rb_leftmost self) ;;
  when (lm =? victim) (store (rb_leftmost self) new).

Definition hev_rbtree_cached_erase (self node : Z) : M unit :=
  lm <- load (rb_leftmost self) ;;
  when (node =? lm)
    (n <- hev_rbtree_node_next node ;; store (rb_leftmost self) n) ;;;
  hev_rbtree_erase (rb_root self) node.

(** Look up, link and colour: the insertion sequence of the tree's users; the
    result is their variable [leftmost]. *)
Definition rb_cached_insert_by (self x : Z) (go_left : Z -> M bool) : M bool :=
  st <- rb_descend self go_left ;;
  let '(new, parent, leftmost) := st in
  hev_rbtree_node_link x parent new ;;;
  hev_rbtree_cached_insert_color self x leftmost ;;;
  ret leftmost.
