(* ===== verification/RBTreeSpec.v ===== *)
(** * RBTreeSpec: functional red-black trees and their memory representation

    The abstract side of [RBTree]: trees of node addresses with colours, the
    red-black balance discipline, contexts (a tree with a hole, seen from the
    hole upwards, as the fix-up loops see it), and the cells that represent
    them. *)

From S2P Require Import Prelude Sep RBTree.

(** ** Trees and contexts *)

Inductive color : Type := Red | Black.

#[export] Instance color_eq_dec : EqDecision color.
Proof. solve_decision. Defined.

Inductive tree : Type :=
| Leaf
| Node (c : color) (l : tree) (a : Z) (r : tree).

Inductive ctx : Type :=
| Top
| CL (c : color) (k : ctx) (a : Z) (r : tree)
| CR (c : color) (l : tree) (a : Z) (k : ctx).

Fixpoint inorder (t : tree) : list Z :=
  match t with
  | Leaf => []
  | Node _ l a r => inorder l ++ a :: inorder r
  end.

Fixpoint plug (k : ctx) (t : tree) : tree :=
  match k with
  | Top => t
  | CL c k a r => plug k (Node c t a r)
  | CR c l a k => plug k (Node c l a t)
  end.

(** What comes before and after the hole, in order. *)
Fixpoint cbefore (k : ctx) : list Z :=
  match k with
  | Top => []
  | CL _ k _ _ => cbefore k
  | CR _ l a k => cbefore k ++ inorder l ++ [a]
  end.

Fixpoint cafter (k : ctx) : list Z :=
  match k with
  | Top => []
  | CL _ k a r => a :: inorder r ++ cafter k
  | CR _ _ _ k => cafter k
  end.

Fixpoint cdepth (k : ctx) : nat :=
  match k with
  | Top => 0
  | CL _ k _ _ => S (cdepth k)
  | CR _ _ _ k => S (cdepth k)
  end.

(** Equations between concatenations, up to associativity. *)
Ltac list_eq :=
  simpl; repeat (rewrite <-app_assoc; simpl); rewrite ?app_nil_r; done.

Lemma inorder_plug k t : inorder (plug k t) = cbefore k ++ inorder t ++ cafter k.
Proof.
  revert t. induction k as [|c k IH a r|c l a k IH]; intros t; simpl.
  - by rw app_nil_r.
  - rw IH. list_eq.
  - rw IH. list_eq.
Qed.

(** ** Balance *)

(** [rbt c n t]: [t] may hang below a node of colour [c], has black height
    [n] on every path and no red node with a red child. *)
Inductive rbt : color -> nat -> tree -> Prop :=
| rbt_leaf c : rbt c 0 Leaf
| rbt_red n l a r : rbt Red n l -> rbt Red n r -> rbt Black n (Node Red l a r)
| rbt_black c n l a r : rbt Black n l -> rbt Black n r -> rbt c (S n) (Node Black l a r).

(** [rbc c n k]: filling the hole of [k] with a [rbt c n] tree gives a
    balanced tree with a black root. *)
Inductive rbc : color -> nat -> ctx -> Prop :=
| rbc_top n : rbc Red n Top
| rbc_red_l n k a r : rbc Black n k -> rbt Red n r -> rbc Red n (CL Red k a r)
| rbc_red_r n k a l : rbc Black n k -> rbt Red n l -> rbc Red n (CR Red l a k)
| rbc_black_l c n k a r : rbc c (S n) k -> rbt Black n r -> rbc Black n (CL Black k a r)
| rbc_black_r c n k a l : rbc c (S n) k -> rbt Black n l -> rbc Black n (CR Black l a k).

Definition balanced (t : tree) : Prop := exists n, rbt Red n t.

Create HintDb rb discriminated.
#[export] Hint Constructors rbt rbc : rb.

Lemma rbt_weaken c n t : rbt Red n t -> rbt c n t.
Proof. inversion 1; subst; destruct c; eauto with rb. Qed.
Lemma rbt_weaken_black n t : rbt Red n t -> rbt Black n t.
Proof. apply rbt_weaken. Qed.
#[export] Hint Resolve rbt_weaken_black : rb.

Lemma rbt_inv_red c n l a r :
  rbt c n (Node Red l a r) -> c = Black /\ rbt Red n l /\ rbt Red n r.
Proof. by inversion 1. Qed.

Lemma rbt_inv_black c n l a r :
  rbt c n (Node Black l a r) -> exists m, n = S m /\ rbt Black m l /\ rbt Black m r.
Proof. inversion 1; subst; eauto. Qed.

Lemma rbt_inv_S n t :
  rbt Red (S n) t -> exists l a r, t = Node Black l a r /\ rbt Black n l /\ rbt Black n r.
Proof. inversion 1; subst; eauto 10. Qed.

Lemma rbc_inv_top c n : rbc c n Top -> c = Red.
Proof. by inversion 1. Qed.

Lemma rbc_inv_red_l c n k a r :
  rbc c n (CL Red k a r) -> c = Red /\ rbc Black n k /\ rbt Red n r.
Proof. by inversion 1. Qed.

Lemma rbc_inv_red_r c n k a l :
  rbc c n (CR Red l a k) -> c = Red /\ rbc Black n k /\ rbt Red n l.
Proof. by inversion 1. Qed.

Lemma rbc_inv_black_l c n k a r :
  rbc c n (CL Black k a r) -> exists c', c = Black /\ rbc c' (S n) k /\ rbt Black n r.
Proof. inversion 1; subst; eauto. Qed.

Lemma rbc_inv_black_r c n k a l :
  rbc c n (CR Black l a k) -> exists c', c = Black /\ rbc c' (S n) k /\ rbt Black n l.
Proof. inversion 1; subst; eauto. Qed.

Lemma rbc_color_l c n cp k a r : rbc c n (CL cp k a r) -> c = cp.
Proof. by inversion 1. Qed.

Lemma rbc_color_r c n cp k a l : rbc c n (CR cp l a k) -> c = cp.
Proof. by inversion 1. Qed.

Lemma plug_balanced k c n t : rbc c n k -> rbt c n t -> balanced (plug k t).
Proof.
  intros Hk. revert t. induction Hk; intros t Ht; simpl;
    [by exists n| | |apply IHHk; destruct c..]; eauto with rb.
Qed.

Definition root_red (t : tree) : bool :=
  match t with Node Red _ _ _ => true | _ => false end.

Lemma rbt_not_red n t : rbt Black n t -> root_red t = false -> rbt Red n t.
Proof. inversion 1; subst; simpl; [constructor|done|by constructor]. Qed.
#[export] Hint Resolve rbt_not_red : rb.

(** ** Words: parent address and colour in one cell *)

Definition aligned (a : Z) : Prop := 0 < a /\ a mod 4 = 0.
Definition paligned (a : Z) : Prop := 0 <= a /\ a mod 4 = 0.

Definition cw (c : color) : Z :=
  match c with Red => HEV_RBTREE_RED | Black => HEV_RBTREE_BLACK end.

Lemma aligned_paligned a : aligned a -> paligned a.
Proof. unfold aligned, paligned. lia. Qed.
Lemma paligned_0 : paligned 0.
Proof. done. Qed.
#[export] Hint Resolve aligned_paligned paligned_0 : rb.

Lemma lor_color p c : p mod 4 = 0 -> Z.lor p (cw c) = p + cw c.
Proof.
  intros Hp. assert (Z.land p (cw c) = 0) as Hl.
  { destruct c; simpl; [apply Z.land_0_r|]. rw (Z.land_ones p 1) //.
    pose proof (Z.div_mod p 4).
    replace p with ((p / 4 * 2) * 2) by lia. by apply Z.mod_mul. }
  pose proof (Z.add_lor_land p (cw c)). lia.
Qed.

Lemma parent_of_mod pc : parent_of pc = pc - pc mod 4.
Proof.
  unfold parent_of. change (Z.lnot 3) with (Z.lnot (Z.ones 2)).
  rw -Z.ldiff_land Z.ldiff_ones_r // Z.shiftl_mul_pow2 // Z.shiftr_div_pow2 //.
  change (2 ^ 2) with 4. pose proof (Z.div_mod pc 4). lia.
Qed.

Lemma color_of_mod pc : color_of pc = pc mod 2.
Proof. unfold color_of. by rw (Z.land_ones pc 1). Qed.

Lemma parent_of_lor p c : p mod 4 = 0 -> parent_of (Z.lor p (cw c)) = p.
Proof.
  intros Hp. rw lor_color // parent_of_mod -Zplus_mod_idemp_l Hp.
  destruct c; [change ((0 + cw Red) mod 4) with 0|change ((0 + cw Black) mod 4) with 1];
    unfold cw, HEV_RBTREE_RED, HEV_RBTREE_BLACK; lia.
Qed.

Lemma color_of_lor p c : p mod 4 = 0 -> color_of (Z.lor p (cw c)) = cw c.
Proof.
  intros Hp. rw lor_color // color_of_mod.
  apply Z.mod_divide in Hp as [q ->]; [|done].
  replace (q * 4 + cw c) with (cw c + (q * 2) * 2) by lia.
  rw Z.mod_add //. by destruct c.
Qed.

Lemma lor_red p : Z.lor p (cw Red) = p.
Proof. apply Z.lor_0_r. Qed.

(** ** Representation *)

Definition ptr (t : tree) : Z := match t with Leaf => NULL | Node _ _ a _ => a end.

Definition cptr (k : ctx) : Z :=
  match k with Top => NULL | CL _ _ a _ => a | CR _ _ a _ => a end.

(** The three fields of a [HevRBTreeNode]. *)
Definition rb_node (a pc l r : Z) : heapProp :=
  (rb_parent_color a ↦ pc ∗ rb_right a ↦ r ∗ rb_left a ↦ l)%I.

(** A node's memory, whatever it holds. *)
Definition rb_cell (a : Z) : heapProp := (∃ pc l r, rb_node a pc l r)%I.

Fixpoint is_tree (p : Z) (t : tree) : heapProp :=
  match t with
  | Leaf => emp
  | Node c l a r =>
      ⌞aligned a⌟ ∗ rb_node a (Z.lor p (cw c)) (ptr l) (ptr r) ∗
      is_tree a l ∗ is_tree a r
  end%I.

Fixpoint is_ctx (self : Z) (k : ctx) (hole : Z) : heapProp :=
  match k with
  | Top => rb_root self ↦ hole
  | CL c k a r =>
      ⌞aligned a⌟ ∗ rb_node a (Z.lor (cptr k) (cw c)) hole (ptr r) ∗
      is_tree a r ∗ is_ctx self k a
  | CR c l a k =>
      ⌞aligned a⌟ ∗ rb_node a (Z.lor (cptr k) (cw c)) (ptr l) hole ∗
      is_tree a l ∗ is_ctx self k a
  end%I.

Definition is_rbtree (self : Z) (t : tree) : heapProp :=
  (rb_root self ↦ ptr t ∗ is_tree NULL t)%I.

Lemma is_rbtree_plug self k t :
  is_rbtree self (plug k t) ⊣⊢ is_ctx self k (ptr t) ∗ is_tree (cptr k) t.
Proof.
  revert t. induction k as [|c k IH a r|c l a k IH]; intros t; simpl; [done|..].
  - rw IH; simpl. iSplit.
    + iIntros "($ & $ & $ & $ & $)".
    + iIntros "(($ & $ & $ & $) & $)".
  - rw IH; simpl. iSplit.
    + iIntros "($ & $ & $ & $ & $)".
    + iIntros "(($ & $ & $ & $) & $)".
Qed.

Lemma is_tree_paligned p t : is_tree p t -∗ ⌜paligned (ptr t)⌝.
Proof.
  destruct t; simpl; [by iIntros|]. iIntros "[%H _]". eauto with rb.
Qed.

Lemma is_ctx_paligned self k h : is_ctx self k h -∗ ⌜paligned (cptr k)⌝.
Proof.
  destruct k; simpl; [by iIntros| |]; iIntros "[%H _]"; eauto with rb.
Qed.
