(* ===== verification/RBTreeProofs.v ===== *)
(** * RBTreeProofs: the fix-up loops preserve balance and order

    Each helper and each iteration of [RBTree]'s loops, as a rule over the
    representation of [RBTreeSpec]. *)

From S2P Require Import Prelude Sep RBTree RBTreeSpec.

Definition is_black (c : color) : bool := match c with Black => true | Red => false end.

Section helpers.
Implicit Types (self p q a old new parent : Z).

Lemma is_true_aligned a : aligned a -> is_true a = true.
Proof. unfold aligned. intros ?. apply is_true_spec. lia. Qed.

Lemma black_word p c :
  p mod 4 = 0 ->
  is_true (Z.land (color_of (Z.lor p (cw c))) HEV_RBTREE_BLACK) = is_black c.
Proof. intros Hp. rw color_of_lor //. by destruct c. Qed.

Lemma black_word' p c :
  p mod 4 = 0 -> _hev_rbtree_node_is_black (Z.lor p (cw c)) = is_black c.
Proof.
  intros Hp. unfold _hev_rbtree_node_is_black, HEV_RBTREE_BLACK.
  pose proof (color_of_lor p c Hp) as Hc. unfold color_of in Hc.
  rw Hc. by destruct c.
Qed.

Lemma wp_is_black a p c (Q : bool -> heapProp) :
  paligned p ->
  rb_parent_color a ↦ Z.lor p (cw c) ∗
  (rb_parent_color a ↦ Z.lor p (cw c) -∗ Q (is_black c))
  ⊢ wp (hev_rbtree_node_is_black a) Q.
Proof.
  iIntros ([_ Hp]) "[Hc HQ]". unfold hev_rbtree_node_is_black, hev_rbtree_node_color.
  wp_load. rw black_word //. by iApply "HQ".
Qed.

Lemma wp_is_red a p c (Q : bool -> heapProp) :
  paligned p ->
  rb_parent_color a ↦ Z.lor p (cw c) ∗
  (rb_parent_color a ↦ Z.lor p (cw c) -∗ Q (negb (is_black c)))
  ⊢ wp (hev_rbtree_node_is_red a) Q.
Proof.
  iIntros ([_ Hp]) "[Hc HQ]". unfold hev_rbtree_node_is_red, hev_rbtree_node_color.
  wp_load. rw black_word //. by iApply "HQ".
Qed.

Lemma wp_node_parent a p c (Q : Z -> heapProp) :
  paligned p ->
  rb_parent_color a ↦ Z.lor p (cw c) ∗
  (rb_parent_color a ↦ Z.lor p (cw c) -∗ Q p)
  ⊢ wp (hev_rbtree_node_parent a) Q.
Proof.
  iIntros ([_ Hp]) "[Hc HQ]". unfold hev_rbtree_node_parent.
  wp_load. rw parent_of_lor //. by iApply "HQ".
Qed.

Lemma wp_red_child p t (Q : bool -> heapProp) :
  paligned p ->
  is_tree p t ∗ (is_tree p t -∗ Q (root_red t)) ⊢ wp (rb_red_child (ptr t)) Q.
Proof.
  iIntros (Hp) "[Ht HQ]". unfold rb_red_child. destruct t as [|c l a r]; simpl.
  - wp_norm. by iApply "HQ".
  - iDestruct "Ht" as "(%Ha & (Hpc & ? & ?) & ? & ?)". rw is_true_aligned //.
    iApply (wp_is_red _ p c); [done|]. iFrame "Hpc". iIntros "Hpc".
    replace (negb (is_black c)) with (match c with Red => true | Black => false end)
      by (by destruct c). iApply "HQ". by iFrame.
Qed.

Lemma wp_black_child p t (Q : bool -> heapProp) :
  paligned p ->
  is_tree p t ∗ (is_tree p t -∗ Q (negb (root_red t))) ⊢ wp (rb_black_child (ptr t)) Q.
Proof.
  iIntros (Hp) "[Ht HQ]". unfold rb_black_child. destruct t as [|c l a r]; simpl.
  - wp_norm. by iApply "HQ".
  - iDestruct "Ht" as "(%Ha & (Hpc & ? & ?) & ? & ?)". rw is_true_aligned //; cbn [negb].
    iApply (wp_is_black _ p c); [done|]. iFrame "Hpc". iIntros "Hpc".
    replace (is_black c) with (negb (match c with Red => true | Black => false end))
      by (by destruct c). iApply "HQ". by iFrame.
Qed.

(** A subtree with a black root moves under another parent. *)
Lemma wp_adopt_black n p q t (Q : unit -> heapProp) :
  rbt Red n t ->
  is_tree p t ∗ (is_tree q t -∗ Q tt) ⊢ wp (rb_adopt_black (ptr t) q) Q.
Proof.
  iIntros (Hb) "[Ht HQ]". unfold rb_adopt_black.
  destruct t as [|c l a r]; simpl; [by wp_norm; iApply "HQ"|].
  iDestruct "Ht" as "(%Ha & (Hpc & ? & ?) & ? & ?)". rw is_true_aligned //; cbn [when].
  unfold hev_rbtree_node_set_parent_color. wp_store. iApply "HQ".
  inversion Hb; subst. by iFrame.
Qed.

(** A subtree moves under another parent and keeps its colour. *)
Lemma wp_set_parent p q c l a r (Q : unit -> heapProp) :
  paligned p ->
  is_tree p (Node c l a r) ∗ (is_tree q (Node c l a r) -∗ Q tt)
  ⊢ wp (hev_rbtree_node_set_parent a q) Q.
Proof.
  iIntros ([_ Hp]) "[(%Ha & (Hpc & ? & ?) & ? & ?) HQ]".
  unfold hev_rbtree_node_set_parent, hev_rbtree_node_color. wp_load.
  wp_store. rw color_of_lor // Z.lor_comm. iApply "HQ". simpl. by iFrame.
Qed.

Lemma wp_when_set_parent p q t (Q : unit -> heapProp) :
  paligned p ->
  is_tree p t ∗ (is_tree q t -∗ Q tt)
  ⊢ wp (when (is_true (ptr t)) (hev_rbtree_node_set_parent (ptr t) q)) Q.
Proof.
  iIntros (Hp) "[Ht HQ]". destruct t as [|c l a r].
  - simpl. wp_norm. by iApply "HQ".
  - iAssert ⌜aligned a⌝%I as %Ha; [by iDestruct "Ht" as "[% _]"|].
    simpl (ptr _). rw is_true_aligned //. iApply (wp_set_parent p); [done|]. iFrame.
Qed.

Lemma is_tree_ptr_ne p t a v :
  is_tree p t -∗ rb_parent_color a ↦ v -∗ ⌜a <> 0 -> ptr t <> a⌝.
Proof.
  iIntros "Ht Ha". destruct t as [|c l b r]; simpl.
  - iPureIntro. unfold NULL. lia.
  - iDestruct "Ht" as "(_ & (Hb & _) & _)".
    iDestruct (points_to_ne with "Hb Ha") as %Hne. iPureIntro. by intros _ ->.
Qed.

Lemma wp_change_child self k old v new (Q : unit -> heapProp) :
  old <> 0 ->
  is_ctx self k old ∗ rb_parent_color old ↦ v ∗
  (is_ctx self k new -∗ rb_parent_color old ↦ v -∗ Q tt)
  ⊢ wp (hev_rbtree_change_child self old new (cptr k)) Q.
Proof.
  iIntros (Hold) "(Hk & Ho & HQ)". unfold hev_rbtree_change_child.
  destruct k as [|c k a r|c l a k]; simpl.
  - wp_store. by iApply ("HQ" with "[$] [$]").
  - iDestruct "Hk" as "(%Ha & (? & ? & ?) & ? & ?)". rw is_true_aligned //.
    wp_load. rw Z.eqb_refl. wp_store. iApply ("HQ" with "[-Ho] Ho"). by iFrame.
  - iDestruct "Hk" as "(%Ha & (? & ? & ?) & Hl & ?)". rw is_true_aligned //.
    wp_load. iDestruct (is_tree_ptr_ne with "Hl Ho") as %Hne.
    rw (proj2 (Z.eqb_neq (ptr l) old)); [|auto].
    wp_store. iApply ("HQ" with "[-Ho] Ho"). by iFrame.
Qed.

Lemma wp_rotate_set_parents self k c old new w col (Q : unit -> heapProp) :
  old <> 0 ->
  is_ctx self k old ∗ rb_parent_color old ↦ Z.lor (cptr k) (cw c) ∗
  rb_parent_color new ↦ w ∗
  (is_ctx self k new -∗ rb_parent_color old ↦ Z.lor new col -∗
   rb_parent_color new ↦ Z.lor (cptr k) (cw c) -∗ Q tt)
  ⊢ wp (hev_rbtree_rotate_set_parents self old new col) Q.
Proof.
  iIntros (Hold) "(Hk & Ho & Hn & HQ)". iDestruct (is_ctx_paligned with "Hk") as %Hp.
  unfold hev_rbtree_rotate_set_parents, hev_rbtree_node_set_parent_color.
  iApply wp_bind. iApply (wp_node_parent _ (cptr k)); [done|]. iFrame "Ho". iIntros "Ho".
  wp_load. wp_store. wp_store. iApply wp_change_child; [done|]. iFrame "Hk Ho".
  iIntros "Hk Ho". iApply ("HQ" with "Hk Ho Hn").
Qed.

Lemma is_ctx_heap_ge self k h : is_ctx self k h ⊢ heap_ge (cdepth k).
Proof.
  revert h. induction k as [|c k IH a r|c l a k IH]; intros h; simpl.
  - apply heap_ge_0.
  - rw (IH a). iIntros "(_ & (Hpc & _) & _ & Hk)".
    iApply (heap_ge_sep 1). iFrame "Hk". by iApply points_to_heap_ge.
  - rw (IH a). iIntros "(_ & (Hpc & _) & _ & Hk)".
    iApply (heap_ge_sep 1). iFrame "Hk". by iApply points_to_heap_ge.
Qed.
End helpers.

(** ** Insertion *)

(** What a finished fix-up establishes: a balanced tree listing [L]. *)
Definition rb_lists (self : Z) (L : list Z) : heapProp :=
  (∃ t, ⌞balanced t /\ inorder t = L⌟ ∗ is_rbtree self t)%I.

Lemma rb_lists_intro self k c n t L :
  rbc c n k -> rbt c n t -> L = cbefore k ++ inorder t ++ cafter k ->
  is_ctx self k (ptr t) ∗ is_tree (cptr k) t ⊢ rb_lists self L.
Proof.
  iIntros (Hk Ht ->) "H". iExists (plug k t). iSplitR.
  - iPureIntro. split; [by eapply plug_balanced|]. apply inorder_plug.
  - by iApply is_rbtree_plug.
Qed.

Section insert.
Implicit Types (self p g n : Z).

Lemma wp_insert_flip self u p g pk c w1 w2 (Q : Z * Z + unit -> heapProp) :
  paligned pk ->
  rb_parent_color u ↦ w1 ∗ rb_parent_color p ↦ w2 ∗
  rb_parent_color g ↦ Z.lor pk (cw c) ∗
  (rb_parent_color u ↦ Z.lor g (cw Black) -∗
   rb_parent_color p ↦ Z.lor g (cw Black) -∗
   rb_parent_color g ↦ Z.lor pk (cw Red) -∗ Q (inl (g, pk)))
  ⊢ wp (insert_color_flip g p u) Q.
Proof.
  iIntros (Hpk) "(Hu & Hp & Hg & HQ)".
  unfold insert_color_flip, hev_rbtree_node_set_parent_color.
  wp_store. wp_store. iApply wp_bind. iApply (wp_node_parent _ pk c); [done|].
  iFrame "Hg". iIntros "Hg". wp_store. by iApply ("HQ" with "Hu Hp Hg").
Qed.

Lemma wp_case2_left n p q0 l b a w (Q : Z * Z -> heapProp) m :
  rbt Red m a -> aligned p ->
  rb_node n w (ptr a) (ptr b) ∗ is_tree n a ∗
  rb_node p q0 (ptr l) n ∗ is_tree p l ∗
  (rb_node n w p (ptr b) -∗ is_tree n (Node Red l p a) -∗ Q (n, ptr b))
  ⊢ wp (insert_case2_left n p) Q.
Proof.
  iIntros (Ha Hp) "((? & ? & ?) & Ht & (? & ? & ?) & ? & HQ)".
  unfold insert_case2_left, hev_rbtree_node_set_parent_color.
  wp_load. wp_store. wp_store. iApply wp_bind.
  iApply (wp_adopt_black _ _ p); [done|]. iFrame "Ht". iIntros "Ht".
  wp_store. wp_load. iApply ("HQ" with "[$]"). simpl. by iFrame.
Qed.

Lemma wp_case2_right n p q0 r b a w (Q : Z * Z -> heapProp) m :
  rbt Red m b -> aligned p ->
  rb_node n w (ptr a) (ptr b) ∗ is_tree n b ∗
  rb_node p q0 n (ptr r) ∗ is_tree p r ∗
  (rb_node n w (ptr a) p -∗ is_tree n (Node Red b p r) -∗ Q (n, ptr a))
  ⊢ wp (insert_case2_right n p) Q.
Proof.
  iIntros (Ha Hp) "((? & ? & ?) & Ht & (? & ? & ?) & ? & HQ)".
  unfold insert_case2_right, hev_rbtree_node_set_parent_color.
  wp_load. wp_store. wp_store. iApply wp_bind.
  iApply (wp_adopt_black _ _ p); [done|]. iFrame "Ht". iIntros "Ht".
  wp_store. wp_load. iApply ("HQ" with "[$]"). simpl. by iFrame.
Qed.

Lemma wp_case3_left self k g p x y u w gl pr m (Q : Z * Z + unit -> heapProp) :
  rbt Red m y -> aligned g -> aligned p ->
  is_ctx self k g ∗ rb_node g (Z.lor (cptr k) (cw Black)) gl (ptr u) ∗ is_tree g u ∗
  rb_node p w (ptr x) pr ∗ is_tree p x ∗ is_tree p y ∗
  (is_ctx self k p -∗ is_tree (cptr k) (Node Black x p (Node Red y g u)) -∗ Q (inr tt))
  ⊢ wp (insert_case3_left self g p (ptr y)) Q.
Proof.
  iIntros (Hy Hg Hp) "(Hk & (? & ? & ?) & ? & (? & ? & ?) & ? & Hy & HQ)".
  unfold insert_case3_left. wp_store. wp_store. iApply wp_bind.
  iApply (wp_adopt_black _ _ g); [done|]. iFrame "Hy". iIntros "Hy".
  iApply wp_bind. iApply wp_rotate_set_parents; [unfold aligned in *; lia|].
  iFrame. iIntros "Hk ? ?". wp_norm. iApply ("HQ" with "Hk"). simpl. by iFrame.
Qed.

Lemma wp_case3_right self k g p x y u w gr pl m (Q : Z * Z + unit -> heapProp) :
  rbt Red m y -> aligned g -> aligned p ->
  is_ctx self k g ∗ rb_node g (Z.lor (cptr k) (cw Black)) (ptr u) gr ∗ is_tree g u ∗
  rb_node p w pl (ptr x) ∗ is_tree p x ∗ is_tree p y ∗
  (is_ctx self k p -∗ is_tree (cptr k) (Node Black (Node Red u g y) p x) -∗ Q (inr tt))
  ⊢ wp (insert_case3_right self g p (ptr y)) Q.
Proof.
  iIntros (Hy Hg Hp) "(Hk & (? & ? & ?) & ? & (? & ? & ?) & ? & Hy & HQ)".
  unfold insert_case3_right. wp_store. wp_store. iApply wp_bind.
  iApply (wp_adopt_black _ _ g); [done|]. iFrame "Hy". iIntros "Hy".
  iApply wp_bind. iApply wp_rotate_set_parents; [unfold aligned in *; lia|].
  iFrame. iIntros "Hk ? ?". wp_norm. iApply ("HQ" with "Hk"). simpl. by iFrame.
Qed.
End insert.

(** The loop of [hev_rbtree_insert_color]: the focus is a red node with
    balanced children; its parent may be red too. *)
Definition ins_inv (self : Z) (L : list Z) (k : ctx) (n : Z) : heapProp :=
  (∃ c m l r, ⌞rbc c m k /\ rbt Red m l /\ rbt Red m r /\
      L = cbefore k ++ inorder (Node Red l n r) ++ cafter k⌟ ∗
    is_ctx self k n ∗ is_tree (cptr k) (Node Red l n r))%I.

Definition ins_post (self : Z) (L : list Z) (d : nat) (r : Z * Z + unit) : heapProp :=
  match r with
  | inr _ => rb_lists self L
  | inl (n, pk) =>
      ∃ k, ⌞(cdepth k < d)%nat /\ pk = cptr k⌟ ∗ ins_inv self L k n
  end%I.

Lemma wp_post_eq self L L' d st :
  L = L' ->
  wp (insert_color_body self st) (ins_post self L d)
  ⊢ wp (insert_color_body self st) (ins_post self L' d).
Proof. by intros ->. Qed.

Section insert_step.
Implicit Types (self p g n : Z) (k : ctx).

Lemma insert_step_top self n l r m :
  rbt Red m l -> rbt Red m r ->
  is_ctx self Top n ∗ is_tree NULL (Node Red l n r)
  ⊢ wp (insert_color_body self (n, NULL))
       (ins_post self (inorder (Node Red l n r)) 0).
Proof.
  iIntros (Hl Hr) "[Hk (%Hn & (? & ? & ?) & ? & ?)]".
  unfold insert_color_body, hev_rbtree_node_set_parent_color.
  cbn [is_true negb Z.eqb NULL]. wp_store.
  iApply (rb_lists_intro self Top Red (S m) (Node Black l n r)).
  - constructor.
  - constructor; by apply rbt_weaken.
  - by rw /= app_nil_r.
  - simpl. by iFrame.
Qed.

(** The parent's colour is read from its own cell. *)
Lemma insert_step_black_l self n l r m k a s :
  rbc Black m (CL Black k a s) -> rbt Red m l -> rbt Red m r ->
  is_ctx self (CL Black k a s) n ∗ is_tree a (Node Red l n r)
  ⊢ wp (insert_color_body self (n, a))
       (ins_post self (cbefore k ++ inorder (Node Red l n r) ++ a :: inorder s ++ cafter k)
          (S (cdepth k))).
Proof.
  iIntros (Hk Hl Hr) "[(%Ha & (Hpc & ? & ?) & Hs & Hk) Hn]".
  iDestruct (is_ctx_paligned with "Hk") as %Hp.
  unfold insert_color_body. rw is_true_aligned //; cbn [negb].
  iApply wp_bind. iApply (wp_is_black _ (cptr k)); [done|]. iFrame "Hpc".
  iIntros "Hpc". cbn [is_black]. wp_norm.
  iApply (rb_lists_intro self (CL Black k a s) Black m (Node Red l n r)); [done|by constructor|done|].
  iSplitR "Hn"; [|done]. simpl. by iFrame.
Qed.

Lemma insert_step_black_r self n l r m k a s :
  rbc Black m (CR Black s a k) -> rbt Red m l -> rbt Red m r ->
  is_ctx self (CR Black s a k) n ∗ is_tree a (Node Red l n r)
  ⊢ wp (insert_color_body self (n, a))
       (ins_post self ((cbefore k ++ inorder s ++ [a]) ++ inorder (Node Red l n r) ++ cafter k)
          (S (cdepth k))).
Proof.
  iIntros (Hk Hl Hr) "[(%Ha & (Hpc & ? & ?) & Hs & Hk) Hn]".
  iDestruct (is_ctx_paligned with "Hk") as %Hp.
  unfold insert_color_body. rw is_true_aligned //; cbn [negb].
  iApply wp_bind. iApply (wp_is_black _ (cptr k)); [done|]. iFrame "Hpc".
  iIntros "Hpc". cbn [is_black]. wp_norm.
  iApply (rb_lists_intro self (CR Black s a k) Black m (Node Red l n r)); [done|by constructor|done|].
  iSplitR "Hn"; [|done]. simpl. by iFrame.
Qed.

(** Red parent [p], left child of [g]: up to the test of the uncle. *)
Lemma insert_enter_left self n p g u (Q : Z * Z + unit -> heapProp) :
  aligned p -> aligned g ->
  rb_parent_color p ↦ Z.lor g (cw Red) ∗
  rb_right g ↦ ptr u ∗ is_tree g u ∗
  (rb_parent_color p ↦ Z.lor g (cw Red) -∗ rb_right g ↦ ptr u -∗ is_tree g u -∗
   wp (if root_red u then insert_color_flip g p (ptr u)
       else tmp <- load (rb_right p) ;;
            st <- (if n =? tmp then insert_case2_left n p else ret (p, tmp)) ;;
            let '(parent, tmp) := st in insert_case3_left self g parent tmp) Q)
  ⊢ wp (insert_color_body self (n, p)) Q.
Proof.
  iIntros (Hp Hg) "(Hpc & Hgr & Hu & HQ)".
  unfold insert_color_body. rw is_true_aligned //; cbn [negb].
  iApply wp_bind. iApply (wp_is_black _ g); [by apply aligned_paligned|].
  iFrame "Hpc". iIntros "Hpc". cbn [is_black].
  unfold hev_rbtree_node_red_parent. wp_load. rw lor_red. wp_load.
  iDestruct (is_tree_ptr_ne with "Hu Hpc") as %Hne.
  rw (proj2 (Z.eqb_neq p (ptr u))); [|unfold aligned in *; intros ?; apply Hne; lia].
  cbn [negb]. iApply wp_bind. iApply (wp_red_child g); [by apply aligned_paligned|].
  iFrame "Hu". iIntros "Hu". iApply ("HQ" with "Hpc Hgr Hu").
Qed.

Lemma insert_enter_right self n p g u (Q : Z * Z + unit -> heapProp) :
  aligned p -> aligned g ->
  rb_parent_color p ↦ Z.lor g (cw Red) ∗
  rb_right g ↦ p ∗ rb_left g ↦ ptr u ∗ is_tree g u ∗
  (rb_parent_color p ↦ Z.lor g (cw Red) -∗ rb_right g ↦ p -∗
   rb_left g ↦ ptr u -∗ is_tree g u -∗
   wp (if root_red u then insert_color_flip g p (ptr u)
       else tmp <- load (rb_left p) ;;
            st <- (if n =? tmp then insert_case2_right n p else ret (p, tmp)) ;;
            let '(parent, tmp) := st in insert_case3_right self g parent tmp) Q)
  ⊢ wp (insert_color_body self (n, p)) Q.
Proof.
  iIntros (Hp Hg) "(Hpc & Hgr & Hgl & Hu & HQ)".
  unfold insert_color_body. rw is_true_aligned //; cbn [negb].
  iApply wp_bind. iApply (wp_is_black _ g); [by apply aligned_paligned|].
  iFrame "Hpc". iIntros "Hpc". cbn [is_black].
  unfold hev_rbtree_node_red_parent. wp_load. rw lor_red. wp_load.
  rw Z.eqb_refl. cbn [negb]. wp_load.
  iApply wp_bind. iApply (wp_red_child g); [by apply aligned_paligned|].
  iFrame "Hu". iIntros "Hu". iApply ("HQ" with "Hpc Hgr Hgl Hu").
Qed.

Lemma insert_step_ll self n l r m k g u p s :
  rbc Red m (CL Red (CL Black k g u) p s) -> rbt Red m l -> rbt Red m r ->
  is_ctx self (CL Red (CL Black k g u) p s) n ∗ is_tree p (Node Red l n r)
  ⊢ wp (insert_color_body self (n, p))
       (ins_post self (cbefore k ++ inorder (Node Red l n r) ++
          p :: inorder s ++ g :: inorder u ++ cafter k) (S (S (cdepth k)))).
Proof.
  iIntros (Hk Hl Hr) "[(%Hp & (Hpc & Hpr & Hpl) & Hs & %Hg & (Hgc & Hgr & Hgl) & Hu & Hk) Hn]".
  apply rbc_inv_red_l in Hk as (_ & (c0 & _ & Hk & Hu)%rbc_inv_black_l & Hs).
  iDestruct (is_ctx_paligned with "Hk") as %Hpk. simpl (cptr (CL _ _ _ _)).
  iApply (insert_enter_left self n p g u); [done..|]. iFrame "Hpc Hgr Hu".
  iIntros "Hpc Hgr Hu". destruct (root_red u) eqn:Hred.
  - destruct u as [|[] ul u ur]; try done. apply rbt_inv_red in Hu as (_ & ? & ?).
    iDestruct "Hu" as "(%Hua & (Huc & ? & ?) & ? & ?)".
    iApply (wp_insert_flip self); [done|]. iFrame "Huc Hpc Hgc". iIntros "Huc Hpc Hgc".
    iExists k. iSplitR; [iPureIntro; split; [lia|done]|].
    iExists c0, (S m), (Node Black (Node Red l n r) p s), (Node Black ul u ur).
    iSplitR; [iPureIntro; split_and!; eauto 6 with rb; list_eq|].
    iFrame "Hk". simpl. by iFrame.
  - iDestruct "Hn" as "(%Hn & (Hnc & ?) & ? & ?)".
    iDestruct (is_tree_ptr_ne with "Hs Hnc") as %Hne.
    wp_load. rw (proj2 (Z.eqb_neq n (ptr s))); [|unfold aligned in *; intros ?; apply Hne; lia].
    wp_norm. iApply (wp_case3_left self k g p (Node Red l n r) s u); [done..|].
    iFrame "Hk Hgc Hgr Hgl Hu Hpc Hpr Hpl Hs". simpl (is_tree p (Node _ _ _ _)). iFrame.
    iSplitR; [done|]. iIntros "Hk Ht".
    iApply (rb_lists_intro self k c0 (S m)
              (Node Black (Node Red l n r) p (Node Red s g u)));
      [done|eauto 6 with rb|list_eq|iFrame].
Qed.

Lemma insert_step_rr self n l r m k g u p s :
  rbc Red m (CR Red s p (CR Black u g k)) -> rbt Red m l -> rbt Red m r ->
  is_ctx self (CR Red s p (CR Black u g k)) n ∗ is_tree p (Node Red l n r)
  ⊢ wp (insert_color_body self (n, p))
       (ins_post self (cbefore k ++ inorder u ++ g :: inorder s ++
          p :: inorder (Node Red l n r) ++ cafter k) (S (S (cdepth k)))).
Proof.
  iIntros (Hk Hl Hr) "[(%Hp & (Hpc & Hpr & Hpl) & Hs & %Hg & (Hgc & Hgr & Hgl) & Hu & Hk) Hn]".
  apply rbc_inv_red_r in Hk as (_ & (c0 & _ & Hk & Hu)%rbc_inv_black_r & Hs).
  iDestruct (is_ctx_paligned with "Hk") as %Hpk. simpl (cptr (CR _ _ _ _)).
  iApply (insert_enter_right self n p g u); [done..|]. iFrame "Hpc Hgr Hgl Hu".
  iIntros "Hpc Hgr Hgl Hu". destruct (root_red u) eqn:Hred.
  - destruct u as [|[] ul u ur]; try done. apply rbt_inv_red in Hu as (_ & ? & ?).
    iDestruct "Hu" as "(%Hua & (Huc & ? & ?) & ? & ?)".
    iApply (wp_insert_flip self); [done|]. iFrame "Huc Hpc Hgc". iIntros "Huc Hpc Hgc".
    iExists k. iSplitR; [iPureIntro; split; [lia|done]|].
    iExists c0, (S m), (Node Black ul u ur), (Node Black s p (Node Red l n r)).
    iSplitR; [iPureIntro; split_and!; eauto 6 with rb; list_eq|].
    iFrame "Hk". simpl. by iFrame.
  - iDestruct "Hn" as "(%Hn & (Hnc & ?) & ? & ?)".
    iDestruct (is_tree_ptr_ne with "Hs Hnc") as %Hne.
    wp_load. rw (proj2 (Z.eqb_neq n (ptr s))); [|unfold aligned in *; intros ?; apply Hne; lia].
    wp_norm. iApply (wp_case3_right self k g p (Node Red l n r) s u); [done..|].
    iFrame "Hk Hgc Hgr Hgl Hu Hpc Hpr Hpl Hs". simpl (is_tree p (Node _ _ _ _)). iFrame.
    iSplitR; [done|]. iIntros "Hk Ht".
    iApply (rb_lists_intro self k c0 (S m)
              (Node Black (Node Red u g s) p (Node Red l n r)));
      [done|eauto 6 with rb|list_eq|iFrame].
Qed.

Lemma insert_step_lr self n l r m k g u p s :
  rbc Red m (CR Red s p (CL Black k g u)) -> rbt Red m l -> rbt Red m r ->
  is_ctx self (CR Red s p (CL Black k g u)) n ∗ is_tree p (Node Red l n r)
  ⊢ wp (insert_color_body self (n, p))
       (ins_post self (cbefore k ++ inorder s ++ p :: inorder (Node Red l n r) ++
          g :: inorder u ++ cafter k) (S (S (cdepth k)))).
Proof.
  iIntros (Hk Hl Hr) "[(%Hp & (Hpc & Hpr & Hpl) & Hs & %Hg & (Hgc & Hgr & Hgl) & Hu & Hk) Hn]".
  apply rbc_inv_red_r in Hk as (_ & (c0 & _ & Hk & Hu)%rbc_inv_black_l & Hs).
  iDestruct (is_ctx_paligned with "Hk") as %Hpk. simpl (cptr (CL _ _ _ _)).
  iApply (insert_enter_left self n p g u); [done..|]. iFrame "Hpc Hgr Hu".
  iIntros "Hpc Hgr Hu". destruct (root_red u) eqn:Hred.
  - destruct u as [|[] ul u ur]; try done. apply rbt_inv_red in Hu as (_ & ? & ?).
    iDestruct "Hu" as "(%Hua & (Huc & ? & ?) & ? & ?)".
    iApply (wp_insert_flip self); [done|]. iFrame "Huc Hpc Hgc". iIntros "Huc Hpc Hgc".
    iExists k. iSplitR; [iPureIntro; split; [lia|done]|].
    iExists c0, (S m), (Node Black s p (Node Red l n r)), (Node Black ul u ur).
    iSplitR; [iPureIntro; split_and!; eauto 6 with rb; list_eq|].
    iFrame "Hk". simpl. by iFrame.
  - iDestruct "Hn" as "(%Hn & Hnc & Hl & Hr)".
    wp_load. rw Z.eqb_refl. iApply wp_bind.
    iApply (wp_case2_left n p _ s r l _ _ m); [done..|]. iFrame "Hnc Hl Hpc Hpr Hpl Hs".
    iIntros "Hnc Hx".
    iApply (wp_case3_left self k g n (Node Red s p l) r u); [done..|].
    iFrame "Hk Hgc Hgr Hgl Hu Hnc Hx Hr". iIntros "Hk Ht".
    iApply (rb_lists_intro self k c0 (S m)
              (Node Black (Node Red s p l) n (Node Red r g u)));
      [done|eauto 6 with rb|list_eq|iFrame].
Qed.

Lemma insert_step_rl self n l r m k g u p s :
  rbc Red m (CL Red (CR Black u g k) p s) -> rbt Red m l -> rbt Red m r ->
  is_ctx self (CL Red (CR Black u g k) p s) n ∗ is_tree p (Node Red l n r)
  ⊢ wp (insert_color_body self (n, p))
       (ins_post self (cbefore k ++ inorder u ++ g :: inorder (Node Red l n r) ++
          p :: inorder s ++ cafter k) (S (S (cdepth k)))).
Proof.
  iIntros (Hk Hl Hr) "[(%Hp & (Hpc & Hpr & Hpl) & Hs & %Hg & (Hgc & Hgr & Hgl) & Hu & Hk) Hn]".
  apply rbc_inv_red_l in Hk as (_ & (c0 & _ & Hk & Hu)%rbc_inv_black_r & Hs).
  iDestruct (is_ctx_paligned with "Hk") as %Hpk. simpl (cptr (CR _ _ _ _)).
  iApply (insert_enter_right self n p g u); [done..|]. iFrame "Hpc Hgr Hgl Hu".
  iIntros "Hpc Hgr Hgl Hu". destruct (root_red u) eqn:Hred.
  - destruct u as [|[] ul u ur]; try done. apply rbt_inv_red in Hu as (_ & ? & ?).
    iDestruct "Hu" as "(%Hua & (Huc & ? & ?) & ? & ?)".
    iApply (wp_insert_flip self); [done|]. iFrame "Huc Hpc Hgc". iIntros "Huc Hpc Hgc".
    iExists k. iSplitR; [iPureIntro; split; [lia|done]|].
    iExists c0, (S m), (Node Black ul u ur), (Node Black (Node Red l n r) p s).
    iSplitR; [iPureIntro; split_and!; eauto 6 with rb; list_eq|].
    iFrame "Hk". simpl. by iFrame.
  - iDestruct "Hn" as "(%Hn & Hnc & Hl & Hr)".
    wp_load. rw Z.eqb_refl. iApply wp_bind.
    iApply (wp_case2_right n p _ s r l _ _ m); [done..|]. iFrame "Hnc Hr Hpc Hpr Hpl Hs".
    iIntros "Hnc Hx".
    iApply (wp_case3_right self k g n (Node Red r p s) l u); [done..|].
    iFrame "Hk Hgc Hgr Hgl Hu Hnc Hx Hl". iIntros "Hk Ht".
    iApply (rb_lists_intro self k c0 (S m)
              (Node Black (Node Red u g l) n (Node Red r p s)));
      [done|eauto 6 with rb|list_eq|iFrame].
Qed.

Lemma insert_step self L k n :
  ins_inv self L k n
  ⊢ wp (insert_color_body self (n, cptr k)) (ins_post self L (cdepth k)).
Proof.
  iIntros "(%c & %m & %l & %r & (%Hk & %Hl & %Hr & ->) & H)".
  destruct k as [|[] k p s|[] s p k].
  - rw app_nil_r. by iApply insert_step_top.
  - destruct (rbc_inv_red_l _ _ _ _ _ Hk) as (-> & Hk' & _).
    destruct k as [|[] k g u|[] u g k];
      [by apply rbc_inv_top in Hk'|by apply rbc_inv_red_l in Hk' as [??]
      |rw insert_step_ll //|by apply rbc_inv_red_r in Hk' as [??]|rw insert_step_rl //].
    all: iApply (wp_post_eq with "H"); list_eq.
  - destruct (rbc_inv_black_l _ _ _ _ _ Hk) as (? & -> & _).
    rw insert_step_black_l //.
  - destruct (rbc_inv_red_r _ _ _ _ _ Hk) as (-> & Hk' & _).
    destruct k as [|[] k g u|[] u g k];
      [by apply rbc_inv_top in Hk'|by apply rbc_inv_red_l in Hk' as [??]
      |rw insert_step_lr //|by apply rbc_inv_red_r in Hk' as [??]|rw insert_step_rr //].
    all: iApply (wp_post_eq with "H"); list_eq.
  - destruct (rbc_inv_black_r _ _ _ _ _ Hk) as (? & -> & _).
    rw insert_step_black_r //.
Qed.
End insert_step.
