(* ===== verification/RBTreeErase.v ===== *)
(** * RBTreeErase: rebalancing after a removal

    Rules for the loop of [_hev_rbtree_erase_color] and for
    [_hev_rbtree_erase], over the representation of [RBTreeSpec]. *)

From S2P Require Import Prelude Sep RBTree RBTreeSpec RBTreeProofs.

(** The hole of [k] holds [t], one black node short on its paths. *)
Definition del_inv (self : Z) (L : list Z) (k : ctx) (t : tree) : heapProp :=
  (∃ c m, ⌞rbc c (S m) k /\ rbt Red m t /\ k <> Top /\
      L = cbefore k ++ inorder t ++ cafter k⌟ ∗
    is_ctx self k (ptr t) ∗ is_tree (cptr k) t)%I.

Definition del_post (self : Z) (L : list Z) (d : nat) (r : Z * Z + unit) : heapProp :=
  match r with
  | inr _ => rb_lists self L
  | inl (n, pk) =>
      ∃ k t, ⌞(cdepth k < d)%nat /\ n = ptr t /\ pk = cptr k⌟ ∗ del_inv self L k t
  end%I.

Section cases.
Implicit Types (self p s x : Z) (k : ctx).

Lemma wp_erase_case4_left self k cp p t s y q x xl xr w w' pr (Q : Z * Z + unit -> heapProp) :
  aligned p -> aligned s -> aligned x -> paligned q ->
  is_ctx self k p ∗ rb_node p (Z.lor (cptr k) (cw cp)) (ptr t) pr ∗ is_tree p t ∗
  rb_node s w (ptr y) x ∗ is_tree q y ∗
  rb_node x w' (ptr xl) (ptr xr) ∗ is_tree x xl ∗ is_tree x xr ∗
  (is_ctx self k s -∗
   is_tree (cptr k) (Node cp (Node Black t p y) s (Node Black xl x xr)) -∗ Q (inr tt))
  ⊢ wp (erase_case4_left self p s x) Q.
Proof.
  iIntros (Hp Hs Hx Hq) "(Hk & (? & ? & ?) & ? & (? & ? & ?) & Hy & (? & ? & ?) & ? & ? & HQ)".
  unfold erase_case4_left, hev_rbtree_node_set_parent_color.
  wp_load. wp_store. wp_store. wp_store. iApply wp_bind.
  iApply (wp_when_set_parent q p); [done|]. iFrame "Hy". iIntros "Hy".
  iApply wp_bind. iApply wp_rotate_set_parents; [unfold aligned in *; lia|].
  iFrame. iIntros "Hk ? ?". wp_norm. iApply ("HQ" with "Hk"). simpl. by iFrame.
Qed.

Lemma wp_erase_case4_right self k cp p t s y q x xl xr w w' pl (Q : Z * Z + unit -> heapProp) :
  aligned p -> aligned s -> aligned x -> paligned q ->
  is_ctx self k p ∗ rb_node p (Z.lor (cptr k) (cw cp)) pl (ptr t) ∗ is_tree p t ∗
  rb_node s w x (ptr y) ∗ is_tree q y ∗
  rb_node x w' (ptr xl) (ptr xr) ∗ is_tree x xl ∗ is_tree x xr ∗
  (is_ctx self k s -∗
   is_tree (cptr k) (Node cp (Node Black xl x xr) s (Node Black y p t)) -∗ Q (inr tt))
  ⊢ wp (erase_case4_right self p s x) Q.
Proof.
  iIntros (Hp Hs Hx Hq) "(Hk & (? & ? & ?) & ? & (? & ? & ?) & Hy & (? & ? & ?) & ? & ? & HQ)".
  unfold erase_case4_right, hev_rbtree_node_set_parent_color.
  wp_load. wp_store. wp_store. wp_store. iApply wp_bind.
  iApply (wp_when_set_parent q p); [done|]. iFrame "Hy". iIntros "Hy".
  iApply wp_bind. iApply wp_rotate_set_parents; [unfold aligned in *; lia|].
  iFrame. iIntros "Hk ? ?". wp_norm. iApply ("HQ" with "Hk"). simpl. by iFrame.
Qed.

Lemma wp_erase_case3_left p s x a b w w' pr sr q m (Q : Z * Z -> heapProp) :
  rbt Red m b ->
  rb_right p ↦ pr ∗ rb_node s w x sr ∗
  rb_node x w' a (ptr b) ∗ is_tree q b ∗
  (rb_right p ↦ x -∗ rb_node s w (ptr b) sr -∗ rb_node x w' a s -∗
   is_tree s b -∗ Q (s, x))
  ⊢ wp (erase_case3_left p s x) Q.
Proof.
  iIntros (Hb) "(? & (? & ? & ?) & (? & ? & ?) & Hb & HQ)".
  unfold erase_case3_left. wp_load. wp_store. wp_store. wp_store.
  iApply wp_bind. iApply (wp_adopt_black _ _ s); [done|]. iFrame "Hb". iIntros "Hb".
  wp_norm. iApply ("HQ" with "[$] [$] [$] Hb").
Qed.

Lemma wp_erase_case3_right p s x a b w w' pl sl q m (Q : Z * Z -> heapProp) :
  rbt Red m a ->
  rb_left p ↦ pl ∗ rb_node s w sl x ∗
  rb_node x w' (ptr a) b ∗ is_tree q a ∗
  (rb_left p ↦ x -∗ rb_node s w sl (ptr a) -∗ rb_node x w' s b -∗
   is_tree s a -∗ Q (s, x))
  ⊢ wp (erase_case3_right p s x) Q.
Proof.
  iIntros (Hb) "(? & (? & ? & ?) & (? & ? & ?) & Hb & HQ)".
  unfold erase_case3_right. wp_load. wp_store. wp_store. wp_store.
  iApply wp_bind. iApply (wp_adopt_black _ _ s); [done|]. iFrame "Hb". iIntros "Hb".
  wp_norm. iApply ("HQ" with "[$] [$] [$] Hb").
Qed.

(** Sibling colour flip: done when [p] was red or is the root. *)
Lemma wp_erase_flip self L d k cp p s w m c (t : tree) :
  aligned p ->
  rbc c m k -> (cp = Black -> (cdepth k < d)%nat) ->
  (cp = Red -> rbt c m t) -> (cp = Black -> exists m', m = S m' /\ rbt Red m' t) ->
  ptr t = p ->
  L = cbefore k ++ inorder t ++ cafter k ->
  rb_parent_color s ↦ w ∗ rb_parent_color p ↦ Z.lor (cptr k) (cw cp) ∗
  is_ctx self k p ∗
  (rb_parent_color s ↦ Z.lor p (cw Red) -∗
   rb_parent_color p ↦ Z.lor (cptr k) (cw Black) -∗ is_tree (cptr k) t)
  ⊢ wp (erase_color_flip p s) (del_post self L d).
Proof.
  iIntros (Hp Hk Hd Hred Hblack <- ->) "(Hs & Hpc & Hk & Ht)".
  iDestruct (is_ctx_paligned with "Hk") as %Hkp.
  unfold erase_color_flip, hev_rbtree_node_set_parent_color. wp_store.
  iApply wp_bind. iApply (wp_is_red _ (cptr k) cp); [done|]. iFrame "Hpc". iIntros "Hpc".
  destruct cp; cbn [is_black negb].
  - unfold hev_rbtree_node_set_black. wp_load. wp_store.
    rw -Z.lor_assoc. change (Z.lor (cw Red) HEV_RBTREE_BLACK) with (cw Black).
    iApply (rb_lists_intro self k c m t); [done|by apply Hred|done|].
    iFrame "Hk". iApply ("Ht" with "Hs Hpc").
  - destruct (Hblack eq_refl) as (m' & -> & Ht).
    iApply wp_bind. iApply (wp_node_parent _ (cptr k) Black); [done|].
    iFrame "Hpc". iIntros "Hpc". iSpecialize ("Ht" with "Hs Hpc"). wp_norm.
    destruct k as [|ck k a r|ck l a k].
    + simpl. iApply (rb_lists_intro self Top Red m' t); [by constructor|done|done|].
      iFrame.
    + iAssert ⌜aligned a⌝%I as %Ha; [by iDestruct "Hk" as "[% _]"|].
      simpl (cptr _). rw is_true_aligned //. iExists (CL ck k a r), t.
      iSplitR; [iPureIntro; by auto|]. iExists c, m'. by iFrame.
    + iAssert ⌜aligned a⌝%I as %Ha; [by iDestruct "Hk" as "[% _]"|].
      simpl (cptr _). rw is_true_aligned //. iExists (CR ck l a k), t.
      iSplitR; [iPureIntro; by auto|]. iExists c, m'. by iFrame.
Qed.
End cases.

(** Both colours of a frame at once. *)
Lemma rbc_frame_l cp m k p r :
  rbc cp (S m) (CL cp k p r) -> exists c n, rbc c n k /\
    (forall l' a' r', rbt Red (S m) l' -> rbt Red (S m) r' -> rbt c n (Node cp l' a' r')) /\
    (cp = Red -> c = Black /\ n = S m) /\ (cp = Black -> n = S (S m)) /\
    rbt cp (S m) r.
Proof.
  destruct cp; intros H.
  - apply rbc_inv_red_l in H as (_ & ? & ?). exists Black, (S m).
    split_and!; eauto with rb; done.
  - apply rbc_inv_black_l in H as (c' & _ & ? & ?). exists c', (S (S m)).
    split_and!; eauto with rb; done.
Qed.

Lemma rbc_frame_r cp m k p l :
  rbc cp (S m) (CR cp l p k) -> exists c n, rbc c n k /\
    (forall l' a' r', rbt Red (S m) l' -> rbt Red (S m) r' -> rbt c n (Node cp l' a' r')) /\
    (cp = Red -> c = Black /\ n = S m) /\ (cp = Black -> n = S (S m)) /\
    rbt cp (S m) l.
Proof.
  destruct cp; intros H.
  - apply rbc_inv_red_r in H as (_ & ? & ?). exists Black, (S m).
    split_and!; eauto with rb; done.
  - apply rbc_inv_black_r in H as (c' & _ & ? & ?). exists c', (S (S m)).
    split_and!; eauto with rb; done.
Qed.

Section step.
Implicit Types (self p s x : Z) (k : ctx).

Lemma erase_left_black self L d k cp p t s sl sr m :
  rbc cp (S m) (CL cp k p (Node Black sl s sr)) -> rbt Red m t ->
  (cp = Black -> (cdepth k < d)%nat) ->
  L = cbefore k ++ inorder t ++ p :: inorder (Node Black sl s sr) ++ cafter k ->
  is_ctx self (CL cp k p (Node Black sl s sr)) (ptr t) ∗ is_tree p t
  ⊢ wp (erase_color_left_black self p s) (del_post self L d).
Proof.
  iIntros (Hc Ht Hd HL) "[(%Hp & (Hpc & Hpr & Hpl) & (%Hs & (Hsc & Hsr & Hsl) & Hl & Hr) & Hk) Ht]".
  apply rbc_frame_l in Hc as (c & n & Hk & Hfill & Hred & Hblk & Hsib).
  apply rbt_inv_black in Hsib as (? & [= <-] & Hbl & Hbr).
  assert (paligned s) as Hsp by by apply aligned_paligned.
  unfold erase_color_left_black. wp_load. iApply wp_bind.
  iApply (wp_black_child s); [done|]. iFrame "Hr". iIntros "Hr".
  destruct (root_red sr) eqn:Hrr; cbn [negb].
  { destruct sr as [|[] xl x xr]; try done. apply rbt_inv_red in Hbr as (_ & ? & ?).
    iDestruct "Hr" as "(%Hx & Hxn & Hxl & Hxr)".
    iApply (wp_erase_case4_left self k cp p t s sl s x xl xr); [done..|].
    iFrame "Hk Hpc Hpr Hpl Ht Hsc Hsr Hsl Hl Hxn Hxl Hxr". iIntros "Hk Ht".
    iApply (rb_lists_intro self k c n (Node cp (Node Black t p sl) s (Node Black xl x xr)));
      [done|apply Hfill; eauto with rb|subst; list_eq|iFrame]. }
  wp_load. iApply wp_bind. iApply (wp_black_child s); [done|]. iFrame "Hl". iIntros "Hl".
  destruct (root_red sl) eqn:Hrl; cbn [negb].
  - destruct sl as [|[] a x b]; try done. apply rbt_inv_red in Hbl as (_ & ? & ?).
    iDestruct "Hl" as "(%Hx & Hxn & Ha & Hb)". iApply wp_bind.
    iApply (wp_erase_case3_left p s x _ b _ _ _ _ x m); [done|].
    iFrame "Hpr Hsc Hsr Hsl Hxn Hb". iIntros "Hpr Hsn Hxn Hb".
    iApply (wp_erase_case4_left self k cp p t x a x s b sr); [eauto with rb..|].
    iFrame "Hk Hpc Hpr Hpl Ht Hxn Ha Hsn Hb Hr". iIntros "Hk Ht".
    iApply (rb_lists_intro self k c n (Node cp (Node Black t p a) x (Node Black b s sr)));
      [done|apply Hfill; eauto with rb|subst; list_eq|iFrame].
  - iApply (wp_erase_flip self L d k cp p s (Z.lor p (cw Black)) n c (Node Black t p (Node Red sl s sr)));
      [done..| | |done|subst; list_eq|].
    + intros Hcp. destruct (Hred Hcp) as [-> ->]. eauto 6 with rb.
    + intros Hcp. rw (Hblk Hcp). exists (S m). split; [done|eauto 6 with rb].
    + iFrame "Hsc Hpc Hk". iIntros "Hsc Hpc". simpl. by iFrame.
Qed.

Lemma erase_right_black self L d k cp p t s sl sr m :
  rbc cp (S m) (CR cp (Node Black sl s sr) p k) -> rbt Red m t ->
  (cp = Black -> (cdepth k < d)%nat) ->
  L = cbefore k ++ inorder (Node Black sl s sr) ++ p :: inorder t ++ cafter k ->
  is_ctx self (CR cp (Node Black sl s sr) p k) (ptr t) ∗ is_tree p t
  ⊢ wp (erase_color_right_black self p s) (del_post self L d).
Proof.
  iIntros (Hc Ht Hd HL) "[(%Hp & (Hpc & Hpr & Hpl) & (%Hs & (Hsc & Hsr & Hsl) & Hl & Hr) & Hk) Ht]".
  apply rbc_frame_r in Hc as (c & n & Hk & Hfill & Hred & Hblk & Hsib).
  apply rbt_inv_black in Hsib as (? & [= <-] & Hbl & Hbr).
  assert (paligned s) as Hsp by by apply aligned_paligned.
  unfold erase_color_right_black. wp_load. iApply wp_bind.
  iApply (wp_black_child s); [done|]. iFrame "Hl". iIntros "Hl".
  destruct (root_red sl) eqn:Hrl; cbn [negb].
  { destruct sl as [|[] xl x xr]; try done. apply rbt_inv_red in Hbl as (_ & ? & ?).
    iDestruct "Hl" as "(%Hx & Hxn & Hxl & Hxr)".
    iApply (wp_erase_case4_right self k cp p t s sr s x xl xr); [done..|].
    iFrame "Hk Hpc Hpr Hpl Ht Hsc Hsr Hsl Hr Hxn Hxl Hxr". iIntros "Hk Ht".
    iApply (rb_lists_intro self k c n (Node cp (Node Black xl x xr) s (Node Black sr p t)));
      [done|apply Hfill; eauto with rb|subst; list_eq|iFrame]. }
  wp_load. iApply wp_bind. iApply (wp_black_child s); [done|]. iFrame "Hr". iIntros "Hr".
  destruct (root_red sr) eqn:Hrr; cbn [negb].
  - destruct sr as [|[] a x b]; try done. apply rbt_inv_red in Hbr as (_ & ? & ?).
    iDestruct "Hr" as "(%Hx & Hxn & Ha & Hb)". iApply wp_bind.
    iApply (wp_erase_case3_right p s x a _ _ _ _ _ x m); [done|].
    iFrame "Hpl Hsc Hsr Hsl Hxn Ha". iIntros "Hpl Hsn Hxn Ha".
    iApply (wp_erase_case4_right self k cp p t x b x s sl a); [eauto with rb..|].
    iFrame "Hk Hpc Hpr Hpl Ht Hxn Hb Hsn Ha Hl". iIntros "Hk Ht".
    iApply (rb_lists_intro self k c n (Node cp (Node Black sl s a) x (Node Black b p t)));
      [done|apply Hfill; eauto with rb|subst; list_eq|iFrame].
  - iApply (wp_erase_flip self L d k cp p s (Z.lor p (cw Black)) n c (Node Black (Node Red sl s sr) p t));
      [done..| | |done|subst; list_eq|].
    + intros Hcp. destruct (Hred Hcp) as [-> ->]. eauto 6 with rb.
    + intros Hcp. rw (Hblk Hcp). exists (S m). split; [done|eauto 6 with rb].
    + iFrame "Hsc Hpc Hk". iIntros "Hsc Hpc". simpl. by iFrame.
Qed.
End step.

Section loop.
Implicit Types (self p s x : Z) (k : ctx).

Lemma erase_left_step self L k cp p t sib m :
  rbc cp (S m) (CL cp k p sib) -> rbt Red m t ->
  L = cbefore k ++ inorder t ++ p :: inorder sib ++ cafter k ->
  is_ctx self (CL cp k p sib) (ptr t) ∗ is_tree p t
  ⊢ wp (erase_color_left self p (ptr sib)) (del_post self L (S (cdepth k))).
Proof.
  iIntros (Hc Ht HL) "H". unfold erase_color_left.
  destruct (rbc_frame_l _ _ _ _ _ Hc) as (c & n & Hk & _ & _ & Hblk & Hsib).
  destruct sib as [|[] sl s sr]; [by inversion Hsib| |].
  - destruct cp; [by apply rbt_inv_red in Hsib as [? _]|]. rw (Hblk eq_refl) in Hk.
    apply rbt_inv_red in Hsib as (_ & (a & x & b & -> & ? & ?)%rbt_inv_S & ?).
    iDestruct "H" as "[(%Hp & (Hpc & Hpr & Hpl) & (%Hs & (Hsc & Hsr & Hsl) &
      (%Hx & (Hxc & ? & ?) & ? & ?) & Hr) & Hk) Ht]". simpl (ptr (Node _ _ _ _)).
    iApply wp_bind. iApply (wp_is_red _ p Red); [by apply aligned_paligned|].
    iFrame "Hsc". iIntros "Hsc". cbn [negb is_black].
    unfold hev_rbtree_node_set_parent_color. wp_load. wp_store. wp_store. wp_store.
    iApply wp_bind. iApply wp_rotate_set_parents; [unfold aligned in Hp; lia|].
    iFrame "Hk Hpc Hsc". iIntros "Hk Hpc Hsc".
    iApply (erase_left_black self L _ (CL Black k s sr) Red p t x a b m);
      [|done..|subst; list_eq|].
    + eauto 7 with rb.
    + iFrame "Ht". simpl. by iFrame.
  - iDestruct "H" as "[(%Hp & Hpn & (%Hs & (Hsc & Hsr & Hsl) & Hl & Hr) & Hk) Ht]".
    simpl (ptr (Node _ _ _ _)). iApply wp_bind.
    iApply (wp_is_red _ p Black); [by apply aligned_paligned|].
    iFrame "Hsc". iIntros "Hsc". cbn [negb is_black].
    iApply (erase_left_black self L _ k cp p t s sl sr m); [done|done|lia|done|].
    iFrame "Ht". simpl. by iFrame.
Qed.

Lemma erase_right_step self L k cp p t sib m :
  rbc cp (S m) (CR cp sib p k) -> rbt Red m t ->
  L = cbefore k ++ inorder sib ++ p :: inorder t ++ cafter k ->
  is_ctx self (CR cp sib p k) (ptr t) ∗ is_tree p t
  ⊢ wp (erase_color_right self p) (del_post self L (S (cdepth k))).
Proof.
  iIntros (Hc Ht HL) "H". unfold erase_color_right.
  destruct (rbc_frame_r _ _ _ _ _ Hc) as (c & n & Hk & _ & _ & Hblk & Hsib).
  destruct sib as [|[] sl s sr]; [by inversion Hsib| |].
  - destruct cp; [by apply rbt_inv_red in Hsib as [? _]|]. rw (Hblk eq_refl) in Hk.
    apply rbt_inv_red in Hsib as (_ & ? & (a & x & b & -> & ? & ?)%rbt_inv_S).
    iDestruct "H" as "[(%Hp & (Hpc & Hpr & Hpl) & (%Hs & (Hsc & Hsr & Hsl) & Hl &
      (%Hx & (Hxc & ? & ?) & ? & ?)) & Hk) Ht]". wp_load. simpl (ptr (Node _ _ _ _)).
    iApply wp_bind. iApply (wp_is_red _ p Red); [by apply aligned_paligned|].
    iFrame "Hsc". iIntros "Hsc". cbn [negb is_black].
    unfold hev_rbtree_node_set_parent_color. wp_load. wp_store. wp_store. wp_store.
    iApply wp_bind. iApply wp_rotate_set_parents; [unfold aligned in Hp; lia|].
    iFrame "Hk Hpc Hsc". iIntros "Hk Hpc Hsc".
    iApply (erase_right_black self L _ (CR Black sl s k) Red p t x a b m);
      [|done..|subst; list_eq|].
    + eauto 7 with rb.
    + iFrame "Ht". simpl. by iFrame.
  - iDestruct "H" as "[(%Hp & (Hpc & Hpr & Hpl) & (%Hs & (Hsc & Hsr & Hsl) & Hl & Hr) & Hk) Ht]".
    wp_load. simpl (ptr (Node _ _ _ _)). iApply wp_bind.
    iApply (wp_is_red _ p Black); [by apply aligned_paligned|].
    iFrame "Hsc". iIntros "Hsc". cbn [negb is_black].
    iApply (erase_right_black self L _ k cp p t s sl sr m); [done|done|lia|done|].
    iFrame "Ht". simpl. by iFrame.
Qed.

Lemma erase_step self L k t :
  del_inv self L k t
  ⊢ wp (erase_color_body self (ptr t, cptr k)) (del_post self L (cdepth k)).
Proof.
  iIntros "(%c & %m & (%Hk & %Ht & %Hne & ->) & Hk & Ht)". unfold erase_color_body.
  destruct k as [|cp k p s|cp s p k]; [done| |].
  - iDestruct "Hk" as "(%Hp & (Hpc & Hpr & Hpl) & Hs & Hk)". simpl (cptr _). wp_load.
    pose proof (rbc_color_l _ _ _ _ _ _ Hk) as ->.
    destruct (rbc_frame_l _ _ _ _ _ Hk) as (_ & _ & _ & _ & _ & _ & Hsib).
    destruct s as [|cs sl s sr]; [by inversion Hsib|].
    iDestruct "Hs" as "(%Hs & (Hsc & ? & ?) & ? & ?)".
    iDestruct (is_tree_ptr_ne with "Ht Hsc") as %Hd. simpl (ptr (Node _ _ _ _)).
    rw (proj2 (Z.eqb_neq (ptr t) s)); [|unfold aligned in *; apply Hd; lia].
    cbn [negb]. iApply (erase_left_step self _ k cp p t (Node cs sl s sr)); [done..|].
    iFrame "Ht". simpl. by iFrame.
  - iDestruct "Hk" as "(%Hp & (Hpc & Hpr & Hpl) & Hs & Hk)". simpl (cptr _). wp_load.
    pose proof (rbc_color_r _ _ _ _ _ _ Hk) as ->.
    rw Z.eqb_refl. cbn [negb].
    iApply (erase_right_step self _ k cp p t s); [done..|list_eq|].
    iFrame "Ht". simpl. by iFrame.
Qed.

Lemma wp_erase_color_loop self L k t fuel :
  (cdepth k < fuel)%nat ->
  del_inv self L k t
  ⊢ wp (loop fuel (erase_color_body self) (ptr t, cptr k)) (fun _ => rb_lists self L).
Proof.
  revert k t. induction fuel as [|fuel IH]; intros k t Hd; [lia|].
  iIntros "H". iApply wp_loop_S. iApply wp_wand. iSplitL "H"; [by iApply erase_step|].
  iIntros ([[n pk]|[]]) "H"; simpl; [|done].
  iDestruct "H" as "(%k' & %t' & %Heq & H)". destruct Heq as (Hk' & -> & ->). iApply IH; [lia|done].
Qed.

Lemma wp_erase_color self L k :
  del_inv self L k Leaf
  ⊢ wp (_hev_rbtree_erase_color self (cptr k)) (fun _ => rb_lists self L).
Proof.
  iIntros "H". unfold _hev_rbtree_erase_color. iApply (wp_while (cdepth k)). iSplit.
  - iDestruct "H" as "(% & % & _ & Hk & _)". by iApply is_ctx_heap_ge.
  - iIntros (fuel Hf). by iApply (wp_erase_color_loop self L k Leaf).
Qed.
End loop.
