(* ===== verification/RBTreeRemove.v ===== *)
(** * RBTreeRemove: unlinking a node

    The rule for [_hev_rbtree_erase] and the specification of
    [hev_rbtree_erase].  A path of left children, innermost first, describes
    the walk to the in-order successor. *)

From S2P Require Import Prelude Sep RBTree RBTreeSpec RBTreeProofs RBTreeErase.

Definition lpath : Type := list (color * Z * tree).

Fixpoint lp_ctx (s : lpath) (k : ctx) : ctx :=
  match s with [] => k | (c, a, r) :: s => CL c (lp_ctx s k) a r end.

Fixpoint lp_after (s : lpath) : list Z :=
  match s with [] => [] | (_, a, r) :: s => a :: inorder r ++ lp_after s end.

Definition lp_head (s : lpath) (q : Z) : Z :=
  match s with [] => q | (_, a, _) :: _ => a end.

Fixpoint lp_top (s : lpath) (hole : Z) : Z :=
  match s with [] => hole | (_, a, _) :: s => lp_top s a end.

Fixpoint is_lp (q : Z) (s : lpath) (hole : Z) : heapProp :=
  match s with
  | [] => emp
  | (c, a, r) :: s =>
      ⌞aligned a⌟ ∗ rb_node a (Z.lor (lp_head s q) (cw c)) hole (ptr r) ∗
      is_tree a r ∗ is_lp q s a
  end%I.

Lemma cptr_lp s k : cptr (lp_ctx s k) = lp_head s (cptr k).
Proof. by destruct s as [|[[c a] r] s]. Qed.

Lemma cbefore_lp s k : cbefore (lp_ctx s k) = cbefore k.
Proof. induction s as [|[[c a] r] s IH]; simpl; auto. Qed.

Lemma cafter_lp s k : cafter (lp_ctx s k) = lp_after s ++ cafter k.
Proof. induction s as [|[[c a] r] s IH]; simpl; [done|]. rw IH. list_eq. Qed.

Lemma plug_balanced_inv k t : balanced (plug k t) -> exists c n, rbc c n k /\ rbt c n t.
Proof.
  revert t. induction k as [|[] k IH a r|[] l a k IH]; intros t; simpl.
  - intros [n Hn]. eauto with rb.
  - intros (c & n & Hk & (-> & Hl & Hr)%rbt_inv_red)%IH. eauto with rb.
  - intros (c & n & Hk & (m & -> & Hl & Hr)%rbt_inv_black)%IH. eauto with rb.
  - intros (c & n & Hk & (-> & Hl & Hr)%rbt_inv_red)%IH. eauto with rb.
  - intros (c & n & Hk & (m & -> & Hl & Hr)%rbt_inv_black)%IH. eauto with rb.
Qed.

(** Balance does not depend on the addresses. *)
Lemma rbc_readdr c n s d l a b k :
  rbc c n (lp_ctx s (CR d l a k)) -> rbc c n (lp_ctx s (CR d l b k)).
Proof.
  revert c n. induction s as [|[[[] x] r] s IH]; simpl; intros c n H.
  - inversion H; subst; eauto with rb.
  - apply rbc_inv_red_l in H as (-> & ? & ?). eauto with rb.
  - apply rbc_inv_black_l in H as (? & -> & ? & ?). eauto with rb.
Qed.

Lemma is_ctx_lp self s c l a k hole :
  is_ctx self (lp_ctx s (CR c l a k)) hole ⊣⊢
  is_lp a s hole ∗ is_ctx self (CR c l a k) (lp_top s hole).
Proof.
  revert hole. induction s as [|[[d x] r] s IH]; intros hole; simpl.
  - by rw left_id.
  - rw IH cptr_lp. simpl. iSplit.
    + iIntros "($ & $ & $ & $ & $)".
    + iIntros "(($ & $ & $ & $) & $)".
Qed.

(** The topmost node of a path can be hung below another parent. *)
Lemma is_lp_reparent q s hole :
  s <> [] ->
  is_lp q s hole ⊢ ∃ c, rb_parent_color (lp_top s hole) ↦ Z.lor q (cw c) ∗
    (∀ q', rb_parent_color (lp_top s hole) ↦ Z.lor q' (cw c) -∗ is_lp q' s hole).
Proof.
  revert hole. induction s as [|[[c x] r] s IH]; intros hole; [done|intros _].
  destruct s as [|[[d y] r'] s'].
  - simpl. iIntros "(%Hx & (Hc & Hr & Hl) & Ht & _)". iExists c. iFrame "Hc".
    iIntros (q') "Hc". by iFrame.
  - iIntros "(Hx & Hn & Ht & Hs)". iDestruct (IH with "Hs") as (c') "[Hc Hs]"; [done|].
    iExists c'. iFrame "Hc". iIntros (q') "Hc". iDestruct ("Hs" with "Hc") as "Hs".
    iFrame "Hs Hx Hn Ht".
Qed.

Fixpoint tsize (t : tree) : nat :=
  match t with Leaf => 0 | Node _ l _ r => S (tsize l + tsize r) end.

Lemma is_tree_heap_ge p t : is_tree p t ⊢ heap_ge (tsize t).
Proof.
  revert p. induction t as [|c l IHl a r IHr]; intros p; simpl; [apply heap_ge_0|].
  rw (IHl a) (IHr a). iIntros "(_ & (Hpc & _) & Hl & Hr)".
  iApply (heap_ge_sep 1). iSplitL "Hpc"; [by iApply points_to_heap_ge|].
  iApply heap_ge_sep. iFrame.
Qed.

(** The walk to the leftmost node. *)
Lemma wp_erase_leftmost_loop fuel q s a tmp c l r :
  (tsize l < fuel)%nat -> lp_head s q = a -> s <> [] ->
  is_lp q s tmp ∗ is_tree a (Node c l tmp r)
  ⊢ wp (loop fuel erase_leftmost_body (a, tmp)) (fun '(p, x) =>
      ∃ s' cx xr, ⌞s' <> [] /\ p = lp_head s' q /\ lp_top s' x = lp_top s tmp /\
          (forall k, plug (lp_ctx s' k) (Node cx Leaf x xr) =
                     plug (lp_ctx s k) (Node c l tmp r))⌟ ∗
        is_lp q s' x ∗ is_tree p (Node cx Leaf x xr))%I.
Proof.
  revert s a tmp c l r. induction fuel as [|fuel IH]; intros s a tmp c l r Hf <- Hs; [lia|].
  iIntros "[Hs (%Ht & (Hc & Hr & Hl) & Htl & Htr)]". iApply wp_loop_S.
  unfold erase_leftmost_body. wp_load. destruct l as [|cl ll al lr].
  - simpl. iExists s, c, r. iSplitR; [done|]. iFrame "Hs". simpl. by iFrame.
  - iAssert ⌜aligned al⌝%I as %Hal; [by iDestruct "Htl" as "[% _]"|].
    simpl (ptr _). rw is_true_aligned //.
    iApply (wp_wand with "[-]"). iSplitL.
    + iApply (IH ((c, tmp, r) :: s) tmp al cl ll lr); [simpl in Hf; lia|done..|].
      iFrame "Htl". simpl. by iFrame.
    + iIntros ([p x]) "(%s' & %cx & %xr & (%H1 & %H2 & %H3 & %H4) & H)".
      iExists s', cx, xr. iFrame "H". iPureIntro. by split_and!.
Qed.

Definition er_post (self : Z) (L : list Z) (rb : Z) : heapProp :=
  ((⌞rb = NULL⌟ ∗ rb_lists self L) ∨
   (∃ k, ⌞is_true rb = true /\ rb = cptr k⌟ ∗ del_inv self L k Leaf))%I.

Lemma rbt_one_child_r c n d x r :
  rbt c n (Node d Leaf x r) ->
  r = Leaf \/ exists y, r = Node Red Leaf y Leaf /\ d = Black /\ n = 1%nat.
Proof.
  destruct d; intros H.
  - apply rbt_inv_red in H as (_ & Hl & Hr). inversion Hl; subst. inversion Hr; subst. by left.
  - apply rbt_inv_black in H as (m & -> & Hl & Hr). inversion Hl; subst.
    inversion Hr as [|? l y r' H1 H2|]; subst; [by left|right].
    inversion H1; subst. inversion H2; subst. eauto.
Qed.

Lemma rbt_one_child_l c n d x l :
  rbt c n (Node d l x Leaf) ->
  l = Leaf \/ exists y, l = Node Red Leaf y Leaf /\ d = Black /\ n = 1%nat.
Proof.
  destruct d; intros H.
  - apply rbt_inv_red in H as (_ & Hl & Hr). inversion Hr; subst. inversion Hl; subst. by left.
  - apply rbt_inv_black in H as (m & -> & Hl & Hr). inversion Hr; subst.
    inversion Hl as [|? ll y lr H1 H2|]; subst; [by left|right].
    inversion H1; subst. inversion H2; subst. eauto.
Qed.

(** A childless node is gone: either the tree is balanced, or one black node
    is missing at the hole. *)
Lemma er_leaf self L k c n d x :
  rbc c n k -> rbt c n (Node d Leaf x Leaf) -> L = cbefore k ++ cafter k ->
  is_ctx self k NULL ⊢ er_post self L (if is_black d then cptr k else NULL).
Proof.
  iIntros (Hk Ht ->) "Hk". destruct d; simpl.
  - apply rbt_inv_red in Ht as (-> & Hl & _). inversion Hl; subst.
    iLeft. iSplitR; [done|].
    iApply (rb_lists_intro self k Black 0 Leaf); [done|constructor|done|]. simpl. by iFrame.
  - apply rbt_inv_black in Ht as (m & -> & Hl & _). inversion Hl; subst.
    destruct k as [|ck k a r|ck l a k].
    + iLeft. iSplitR; [done|].
      iApply (rb_lists_intro self Top Red 0 Leaf); [constructor|constructor|done|].
      simpl. by iFrame.
    + iAssert ⌜aligned a⌝%I as %Ha; [by iDestruct "Hk" as "[% _]"|].
      iRight. iExists (CL ck k a r). iSplitR; [by rw is_true_aligned|].
      iExists c, 0%nat. iSplitR; [iPureIntro; split_and!; by eauto with rb|].
      simpl. by iFrame.
    + iAssert ⌜aligned a⌝%I as %Ha; [by iDestruct "Hk" as "[% _]"|].
      iRight. iExists (CR ck l a k). iSplitR; [by rw is_true_aligned|].
      iExists c, 0%nat. iSplitR; [iPureIntro; split_and!; by eauto with rb|].
      simpl. by iFrame.
Qed.

Section erase.
Implicit Types (self node : Z) (k : ctx).

Lemma rb_cell_intro a pc l r : rb_node a pc l r ⊢ rb_cell a.
Proof. iIntros "H". by iExists pc, l, r. Qed.

(** Cases 2 and 3: successor [x], reached by the path [s] below [node]. *)
Lemma wp_erase_finish self node L k c l s cx x xr q q' c0 n0 w wl nr :
  rbc c0 n0 (lp_ctx s (CR c l node k)) -> rbt c0 n0 (Node cx Leaf x xr) ->
  aligned node -> aligned x -> paligned q -> l <> Leaf ->
  L = cbefore k ++ inorder l ++ x :: inorder xr ++ lp_after s ++ cafter k ->
  is_ctx self k node ∗ rb_node node (Z.lor (cptr k) (cw c)) (ptr l) nr ∗
  is_tree node l ∗ is_lp x s (ptr xr) ∗
  rb_node x (Z.lor q (cw cx)) wl (lp_top s (ptr xr)) ∗ is_tree q' xr ∗ ⌞w = lp_head s x⌟
  ⊢ wp (erase_finish self node w x (ptr xr)) (fun rb => er_post self L rb ∗ rb_cell node).
Proof.
  iIntros (Hk Ht Hn Hx [_ Hq] Hl ->) "(Hk & (Hnc & Hnr & Hnl) & Hl & Hs & (Hxc & Hxr & Hxl) & Hr & ->)".
  apply (rbc_readdr _ _ _ _ _ _ x) in Hk. destruct l as [|cl ll al lr]; [done|].
  iDestruct (is_ctx_paligned with "Hk") as %Hp. destruct (Hp) as [_ Hp'].
  unfold erase_finish. simpl (ptr (Node _ _ _ _)). wp_load. wp_store.
  iApply wp_bind. iApply (wp_set_parent node x cl ll al lr); [by apply aligned_paligned|].
  iFrame "Hl". iIntros "Hl". wp_load. unfold _hev_rbtree_node_parent. rw parent_of_lor //.
  iApply wp_bind. iApply wp_change_child; [unfold aligned in Hn; lia|].
  iFrame "Hk Hnc". iIntros "Hk Hnc".
  iDestruct (rb_cell_intro with "[$Hnc $Hnl $Hnr]") as "Hcell".
  destruct (rbt_one_child_r _ _ _ _ _ Ht) as [->|(y & -> & -> & ->)].
  - change (is_true (ptr Leaf)) with false. cbv iota. unfold hev_rbtree_node_is_black, hev_rbtree_node_color.
    wp_load. rw black_word //. wp_store. iFrame "Hcell".
    replace (lp_head s x) with (cptr (lp_ctx s (CR c (Node cl ll al lr) x k)))
      by (by rw cptr_lp).
    iApply (er_leaf _ _ _ _ _ _ _ Hk Ht).
    { rw cbefore_lp cafter_lp. list_eq. }
    iApply is_ctx_lp. iFrame "Hs". simpl. by iFrame.
  - iDestruct "Hr" as "(%Hy & (Hyc & Hyr & Hyl) & _)". simpl (ptr (Node _ _ _ _)).
    rw is_true_aligned //. unfold hev_rbtree_node_set_parent_color.
    wp_store. wp_store. iFrame "Hcell". iLeft. iSplitR; [done|].
    iApply (rb_lists_intro self _ c0 1 (Node Black Leaf y Leaf) _ Hk).
    { apply rbt_inv_black in Ht as (m & [= <-] & ? & ?). constructor; constructor. }
    { rw cbefore_lp cafter_lp. list_eq. }
    rw is_ctx_lp cptr_lp. simpl. by iFrame.
Qed.

Lemma erase_case1_right self k c n d r node L (Q : Z -> heapProp) :
  rbc c n k -> rbt c n (Node d Leaf node r) -> L = cbefore k ++ inorder r ++ cafter k ->
  is_ctx self k node ∗ is_tree (cptr k) (Node d Leaf node r) ∗
  (∀ rb, er_post self L rb ∗ rb_cell node -∗ Q rb)
  ⊢ wp (_hev_rbtree_erase self node) Q.
Proof.
  iIntros (Hk Ht ->) "(Hk & (%Hn & (Hnc & Hnr & Hnl) & _ & Hr) & HQ)".
  iDestruct (is_ctx_paligned with "Hk") as %[_ Hp]. unfold _hev_rbtree_erase.
  wp_load. wp_load. change (negb (is_true (ptr Leaf))) with true. cbv iota zeta.
  wp_load. unfold _hev_rbtree_node_parent. rw parent_of_lor //.
  iApply wp_bind. iApply wp_change_child; [unfold aligned in Hn; lia|].
  iFrame "Hk Hnc". iIntros "Hk Hnc".
  iDestruct (rb_cell_intro with "[$Hnc $Hnl $Hnr]") as "Hcell".
  destruct (rbt_one_child_r _ _ _ _ _ Ht) as [->|(y & -> & -> & ->)].
  - change (is_true (ptr Leaf)) with false. cbv iota. rw black_word' //. wp_norm.
    iApply "HQ". iFrame "Hcell". by iApply (er_leaf _ _ _ _ _ _ _ Hk Ht).
  - iDestruct "Hr" as "(%Hy & (Hyc & Hyr & Hyl) & _)". simpl (ptr (Node _ _ _ _)).
    rw is_true_aligned //. wp_store. iApply "HQ". iFrame "Hcell". iLeft. iSplitR; [done|].
    iApply (rb_lists_intro self _ c 1 (Node Black Leaf y Leaf) _ Hk);
      [by repeat constructor|done|]. simpl. by iFrame.
Qed.

Lemma erase_case1_left self k c n d l node L (Q : Z -> heapProp) :
  rbc c n k -> rbt c n (Node d l node Leaf) -> l <> Leaf ->
  L = cbefore k ++ inorder l ++ cafter k ->
  is_ctx self k node ∗ is_tree (cptr k) (Node d l node Leaf) ∗
  (∀ rb, er_post self L rb ∗ rb_cell node -∗ Q rb)
  ⊢ wp (_hev_rbtree_erase self node) Q.
Proof.
  iIntros (Hk Ht Hl ->) "(Hk & (%Hn & (Hnc & Hnr & Hnl) & Hr & _) & HQ)".
  iDestruct (is_ctx_paligned with "Hk") as %[_ Hp]. unfold _hev_rbtree_erase.
  destruct (rbt_one_child_l _ _ _ _ _ Ht) as [->|(y & -> & -> & ->)]; [done|].
  iDestruct "Hr" as "(%Hy & (Hyc & Hyr & Hyl) & _)". simpl (ptr (Node _ _ _ _)).
  wp_load. wp_load. rw is_true_aligned //.
  change (is_true (ptr Leaf)) with false. cbn [negb]. cbv zeta.
  wp_load. wp_store. unfold _hev_rbtree_node_parent. rw parent_of_lor //.
  iApply wp_bind. iApply wp_change_child; [unfold aligned in Hn; lia|].
  iFrame "Hk Hnc". iIntros "Hk Hnc".
  iDestruct (rb_cell_intro with "[$Hnc $Hnl $Hnr]") as "Hcell".
  wp_norm. iApply "HQ". iFrame "Hcell". iLeft. iSplitR; [done|].
  iApply (rb_lists_intro self _ c 1 (Node Black Leaf y Leaf) _ Hk);
    [by repeat constructor|done|]. simpl. by iFrame.
Qed.

(** Where the walk of case 3 ends, in terms of contexts. *)
Lemma lp_walk_inorder s k d l node cx x xr r :
  (forall k, plug (lp_ctx s k) (Node cx Leaf x xr) = plug k r) ->
  plug (lp_ctx s (CR d l node k)) (Node cx Leaf x xr) = plug (CR d l node k) r /\
  x :: inorder xr ++ lp_after s = inorder r.
Proof.
  intros Hplug. split; [apply Hplug|].
  pose proof (f_equal inorder (Hplug Top)) as Hin.
  rw !inorder_plug cbefore_lp cafter_lp in Hin. by rw /= !app_nil_r in Hin.
Qed.

(** Case 3 up to the common tail: the walk and the relinking. *)
Lemma erase_case3 self k c n d l node cc child cl ll al lr cr L :
  let r := Node cc (Node cl ll al lr) child cr in
  rbc c n k -> rbt c n (Node d l node r) -> l <> Leaf ->
  L = cbefore k ++ inorder l ++ inorder r ++ cafter k -> aligned node ->
  is_ctx self k node ∗ rb_node node (Z.lor (cptr k) (cw d)) (ptr l) child ∗
  is_tree node l ∗ is_tree node r
  ⊢ wp (ps <- erase_leftmost (child, al) ;;
        let '(parent, successor) := ps in
        child2 <- load (rb_right successor) ;;
        store (rb_left parent) child2 ;;;
        store (rb_right successor) child ;;;
        hev_rbtree_node_set_parent child successor ;;;
        erase_finish self node parent successor child2)
       (fun rb => er_post self L rb ∗ rb_cell node).
Proof.
  iIntros (r Hk Ht Hl -> Hn) "(Hk & Hnn & Hl & (%Hc & Hcn & Hcl & Hcr))".
  iApply wp_bind. iApply wp_wand. iSplitL "Hcn Hcl Hcr".
  { unfold erase_leftmost. iApply (wp_while (tsize ll)). iSplit.
    - iDestruct "Hcl" as "(_ & _ & Hll & _)".
      iDestruct (is_tree_heap_ge with "Hll") as "Hll". iExact "Hll".
    - iIntros (fuel Hf).
      iApply (wp_erase_leftmost_loop fuel node [(cc, child, cr)] child al cl ll lr); [done..|].
      iFrame "Hcl". simpl. by iFrame. }
  iIntros ([p x]) "(%s & %cx & %xr & %Hw & Hs & (%Hx & (Hxc & Hxr & Hxl) & _ & Hxt))".
  destruct Hw as (Hs & -> & Htop & Hplug).
  destruct (lp_walk_inorder s k d l node cx x xr r Hplug) as [Hp Hin].
  destruct (plug_balanced_inv (lp_ctx s (CR d l node k)) (Node cx Leaf x xr))
    as (c1 & n1 & Hk1 & Ht1); [rw Hp; apply (plug_balanced k c n); done|].
  wp_load. destruct s as [|[[c2 y] yr] s2]; [done|].
  iDestruct "Hs" as "(%Hy & (Hyc & Hyr & Hyl) & Hyt & Hs2)".
  simpl (lp_head _ _). wp_store. wp_store.
  iAssert (is_lp node ((c2, y, yr) :: s2) (ptr xr)) with "[Hyc Hyr Hyl Hyt Hs2]" as "Hs".
  { simpl. by iFrame. }
  simpl in Htop. iDestruct (is_lp_reparent with "Hs") as (ct) "[Htc Hs]"; [done|].
  simpl (lp_top _ _). rw Htop. unfold hev_rbtree_node_set_parent, hev_rbtree_node_color.
  wp_load. wp_store. rw color_of_lor; [|by destruct Hn]. rw (Z.lor_comm (cw ct)).
  iDestruct ("Hs" with "Htc") as "Hs".
  iApply (wp_erase_finish self node _ k d l ((c2, y, yr) :: s2) cx x xr y x c1 n1 _ NULL child);
    [done|done|done|done|by apply aligned_paligned|done| |].
  - rw -Hin. list_eq.
  - simpl (lp_top _ _). rw Htop. iFrame "Hk Hnn Hl Hs Hxc Hxr Hxl Hxt". done.
Qed.

(** [_hev_rbtree_erase] unlinks [node]; its result tells whether the black
    heights must be repaired, and from where. *)
Lemma wp_erase_unlink self k c n d l r node L :
  rbc c n k -> rbt c n (Node d l node r) ->
  L = cbefore k ++ inorder l ++ inorder r ++ cafter k ->
  is_ctx self k node ∗ is_tree (cptr k) (Node d l node r)
  ⊢ wp (_hev_rbtree_erase self node) (fun rb => er_post self L rb ∗ rb_cell node).
Proof.
  iIntros (Hk Ht ->) "[Hk Hn]". destruct l as [|cl ll al lr].
  { iApply (erase_case1_right self k c n d r node); [done..|]. iFrame. by iIntros (rb) "$". }
  destruct r as [|cc rl child rr].
  { iApply (erase_case1_left self k c n d _ node); [done..|]. iFrame. by iIntros (rb) "$". }
  iDestruct "Hn" as "(%Hn & Hnn & Hl & Hr)".
  iAssert ⌜aligned al⌝%I as %Hal; [by iDestruct "Hl" as "[% _]"|].
  iAssert ⌜aligned child⌝%I as %Hch; [by iDestruct "Hr" as "[% _]"|].
  unfold _hev_rbtree_erase. iDestruct "Hnn" as "(Hnc & Hnr & Hnl)".
  wp_load. wp_load. simpl (ptr (Node _ _ _ _)). rw !is_true_aligned //. cbn [negb].
  iDestruct "Hr" as "(_ & (Hcc & Hcr & Hcl) & Hrl & Hrr)". wp_load.
  destruct rl as [|cx xl x xr].
  - change (negb (is_true (ptr Leaf))) with true. cbv iota. wp_load.
    destruct (plug_balanced_inv (CR d (Node cl ll al lr) node k) (Node cc Leaf child rr))
      as (c1 & n1 & Hk1 & Ht1); [by apply (plug_balanced k c n)|].
    iApply (wp_erase_finish self node _ k d _ [] cc child rr node child c1 n1 _ NULL child);
      [done|done|done|done|by apply aligned_paligned|done|list_eq|].
    simpl. by iFrame.
  - iAssert ⌜aligned x⌝%I as %Hx; [by iDestruct "Hrl" as "[% _]"|].
    simpl (ptr (Node _ _ _ _)). rw is_true_aligned //. cbn [negb].
    iApply (erase_case3 self k c n d _ node cc child cx xl x xr rr); [done..|].
    iFrame "Hk Hnc Hnr Hnl Hl". simpl. by iFrame.
Qed.

(** [hev_rbtree_erase] on a node in a given position. *)
Lemma wp_erase_at self k c n d l r node L :
  rbc c n k -> rbt c n (Node d l node r) ->
  L = cbefore k ++ inorder l ++ inorder r ++ cafter k ->
  is_ctx self k node ∗ is_tree (cptr k) (Node d l node r)
  ⊢ wp (hev_rbtree_erase self node) (fun _ => rb_lists self L ∗ rb_cell node).
Proof.
  iIntros (Hk Ht HL) "H". unfold hev_rbtree_erase. iApply wp_bind. iApply wp_wand.
  iSplitL "H"; [by iApply (wp_erase_unlink self k c n d l r)|].
  iIntros (rb) "[[[-> Hl]|(%k' & %Hrb & Hd)] Hn]".
  - simpl. wp_norm. iFrame.
  - destruct Hrb as [Hrb ->]. rw Hrb. cbn [when]. iApply wp_wand.
    iSplitL "Hd"; [by iApply wp_erase_color|]. iIntros (_) "$". done.
Qed.
End erase.
