(* ===== verification/RBTreeApi.v ===== *)
(** * RBTreeApi: the public functions of the red-black tree

    Traversal, insertion at a looked-up position, removal and replacement,
    specified on the in-order list of node addresses, and the cached tree as
    an ordered queue with a constant-time minimum. *)

From Stdlib Require Import Sorted.
From S2P Require Import Prelude Sep RBTree RBTreeSpec RBTreeProofs RBTreeErase RBTreeRemove.

(** ** Zippers *)

Lemma plug_at_ctx t k0 A x B :
  inorder t = A ++ x :: B ->
  exists k c l r, plug k0 t = plug k (Node c l x r) /\
    cbefore k0 ++ A = cbefore k ++ inorder l /\ B ++ cafter k0 = inorder r ++ cafter k.
Proof.
  revert k0 A B. induction t as [|c l IHl a r IHr]; intros k0 A B H; simpl in H.
  { by destruct A. }
  apply app_eq_app in H as [[|y D] [[Hl Hr]|[Hl Hr]]]; simpl in *.
  - injection Hr as ? ?. rw app_nil_r in Hl. exists k0, c, l, r. by subst.
  - injection Hr as ? ?. rw app_nil_r in Hl. exists k0, c, l, r. by subst.
  - injection Hr as <- ->. destruct (IHl (CL c k0 a r) A D Hl) as (k & c' & l' & r' & H1 & H2 & H3).
    exists k, c', l', r'. split; [done|]. split; [done|]. rw -H3. list_eq.
  - injection Hr as <- Hr. destruct (IHr (CR c l a k0) D B Hr) as (k & c' & l' & r' & H1 & H2 & H3).
    exists k, c', l', r'. split; [done|]. split; [rw -H2 Hl; list_eq|done].
Qed.

Lemma plug_at t A x B :
  inorder t = A ++ x :: B ->
  exists k c l r, t = plug k (Node c l x r) /\
    A = cbefore k ++ inorder l /\ B = inorder r ++ cafter k.
Proof.
  intros (k & c & l & r & H1 & H2 & H3)%(plug_at_ctx _ Top).
  exists k, c, l, r. by rw -H3 app_nil_r.
Qed.

(** ** Traversal *)

Definition last0 (L : list Z) : Z := default NULL (last L).
Definition hd0 (L : list Z) : Z := default NULL (head L).

Lemma hd0_app_cons L x L' : hd0 ((L ++ [x]) ++ L') = hd0 (L ++ [x]).
Proof. by destruct L. Qed.

Lemma last0_app_cons L x L' : last0 (L ++ x :: L') = last0 (x :: L').
Proof.
  unfold last0. rw last_app last_cons. by destruct (last L').
Qed.

Section traversal.
Implicit Types (self a : Z) (k : ctx).

Lemma wp_go_left_loop fuel p c l a r :
  (tsize l < fuel)%nat ->
  is_tree p (Node c l a r)
  ⊢ wp (loop fuel (rb_go_body rb_left) a)
       (fun n => ⌞n = hd0 (inorder (Node c l a r))⌟ ∗ is_tree p (Node c l a r)).
Proof.
  revert p c a r. induction l as [|cl ll IH al lr _] in fuel |-*; intros p c a r Hf;
    (destruct fuel as [|fuel]; [lia|]); iIntros "(%Ha & (Hc & Hr & Hl) & Htl & Htr)";
    iApply wp_loop_S; unfold rb_go_body; wp_load.
  - simpl. by iFrame.
  - iAssert ⌜aligned al⌝%I as %Hal; [by iDestruct "Htl" as "[% _]"|].
    simpl (ptr _). rw is_true_aligned //. iApply wp_wand. iSplitL "Htl".
    + iApply (IH fuel a cl al lr with "Htl"). simpl in Hf. lia.
    + iIntros (n) "[-> Htl]". iSplitR.
      * iPureIntro. simpl. by destruct (inorder ll).
      * simpl. by iFrame.
Qed.

Lemma wp_go_right_loop fuel p c l a r :
  (tsize r < fuel)%nat ->
  is_tree p (Node c l a r)
  ⊢ wp (loop fuel (rb_go_body rb_right) a)
       (fun n => ⌞n = last0 (inorder (Node c l a r))⌟ ∗ is_tree p (Node c l a r)).
Proof.
  revert p c a l. induction r as [|cl rl _ al rr IH] in fuel |-*; intros p c a l Hf;
    (destruct fuel as [|fuel]; [lia|]); iIntros "(%Ha & (Hc & Hr & Hl) & Htl & Htr)";
    iApply wp_loop_S; unfold rb_go_body; wp_load.
  - simpl. iSplitR; [|by iFrame]. iPureIntro. by rw last0_app_cons.
  - iAssert ⌜aligned al⌝%I as %Hal; [by iDestruct "Htr" as "[% _]"|].
    simpl (ptr _). rw is_true_aligned //. iApply wp_wand. iSplitL "Htr".
    + iApply (IH fuel a cl al rl with "Htr"). simpl in Hf. lia.
    + iIntros (n) "[-> Htr]". iSplitR.
      * iPureIntro. simpl. rw (last0_app_cons (inorder l)) -(last0_app_cons [a]).
        rw last0_app_cons -(last0_app_cons (a :: inorder rl)). done.
      * simpl. by iFrame.
Qed.

Lemma wp_climb_right fuel self k a c :
  (cdepth k < fuel)%nat -> aligned a ->
  is_ctx self k a ∗ rb_parent_color a ↦ Z.lor (cptr k) (cw c)
  ⊢ wp (loop fuel (rb_climb_body rb_right) a)
       (fun n => ⌞n = hd0 (cafter k)⌟ ∗ is_ctx self k a ∗
                 rb_parent_color a ↦ Z.lor (cptr k) (cw c)).
Proof.
  revert k a c. induction fuel as [|fuel IH]; intros k a c Hf Ha; [lia|].
  iIntros "[Hk Hc]". iDestruct (is_ctx_paligned with "Hk") as %Hp.
  iApply wp_loop_S. unfold rb_climb_body. iApply wp_bind.
  iApply (wp_node_parent _ (cptr k) c); [done|]. iFrame "Hc". iIntros "Hc".
  destruct k as [|d k b r|d l b k].
  - simpl. wp_norm. by iFrame.
  - iDestruct "Hk" as "(%Hb & (Hbc & Hbr & Hbl) & Hr & Hk)". simpl (cptr _).
    rw is_true_aligned //. wp_load. iDestruct (is_tree_ptr_ne with "Hr Hc") as %Hne.
    rw (proj2 (Z.eqb_neq a (ptr r))); [|unfold aligned in *; intros ->; apply Hne; lia].
    simpl. by iFrame.
  - iDestruct "Hk" as "(%Hb & (Hbc & Hbr & Hbl) & Hl & Hk)". simpl (cptr (CR _ _ _ _)).
    rw is_true_aligned //. wp_load. rw Z.eqb_refl. iApply wp_wand. iSplitL "Hk Hbc".
    + iApply (IH k b d); [simpl in Hf; lia|done|]. iFrame.
    + iIntros (n) "(-> & Hk & Hbc)". simpl. by iFrame.
Qed.

Lemma wp_climb_left fuel self k a c :
  (cdepth k < fuel)%nat -> aligned a ->
  is_ctx self k a ∗ rb_parent_color a ↦ Z.lor (cptr k) (cw c)
  ⊢ wp (loop fuel (rb_climb_body rb_left) a)
       (fun n => ⌞n = last0 (cbefore k)⌟ ∗ is_ctx self k a ∗
                 rb_parent_color a ↦ Z.lor (cptr k) (cw c)).
Proof.
  revert k a c. induction fuel as [|fuel IH]; intros k a c Hf Ha; [lia|].
  iIntros "[Hk Hc]". iDestruct (is_ctx_paligned with "Hk") as %Hp.
  iApply wp_loop_S. unfold rb_climb_body. iApply wp_bind.
  iApply (wp_node_parent _ (cptr k) c); [done|]. iFrame "Hc". iIntros "Hc".
  destruct k as [|d k b r|d l b k].
  - simpl. wp_norm. by iFrame.
  - iDestruct "Hk" as "(%Hb & (Hbc & Hbr & Hbl) & Hr & Hk)". simpl (cptr (CL _ _ _ _)).
    rw is_true_aligned //. wp_load. rw Z.eqb_refl. iApply wp_wand. iSplitL "Hk Hbc".
    + iApply (IH k b d); [simpl in Hf; lia|done|]. iFrame.
    + iIntros (n) "(-> & Hk & Hbc)". simpl. by iFrame.
  - iDestruct "Hk" as "(%Hb & (Hbc & Hbr & Hbl) & Hl & Hk)". simpl (cptr _).
    rw is_true_aligned //. wp_load. iDestruct (is_tree_ptr_ne with "Hl Hc") as %Hne.
    rw (proj2 (Z.eqb_neq a (ptr l))); [|unfold aligned in *; intros ->; apply Hne; lia].
    simpl. iSplitR; [iPureIntro; by rw app_assoc last0_app_cons|]. by iFrame.
Qed.

Lemma not_self_parent self k a c :
  aligned a -> rb_parent_color a ↦ Z.lor (cptr k) (cw c) -∗ is_ctx self k a -∗
  ⌜(Z.lor (cptr k) (cw c) =? a) = false⌝.
Proof.
  iIntros (Ha) "Hc Hk". iAssert ⌜paligned (cptr k) /\ cptr k <> a⌝%I as %[[Hp1 Hp2] Hne].
  { destruct k as [|d k b r|d l b k]; simpl.
    - iPureIntro. unfold aligned, NULL in *. split; [done|lia].
    - iDestruct "Hk" as "(%Hb & (Hbc & _) & _)".
      iDestruct (points_to_ne with "Hbc Hc") as %?. iPureIntro. eauto with rb.
    - iDestruct "Hk" as "(%Hb & (Hbc & _) & _)".
      iDestruct (points_to_ne with "Hbc Hc") as %?. iPureIntro. eauto with rb. }
  iPureIntro. apply Z.eqb_neq. intros Heq. apply Hne.
  rw -(parent_of_lor (cptr k) c) // Heq parent_of_mod. destruct Ha as [_ ->]. lia.
Qed.

(** [hev_rbtree_node_next] and [_prev] at a given position. *)
Lemma wp_next_at self k c l a r :
  is_ctx self k a ∗ is_tree (cptr k) (Node c l a r)
  ⊢ wp (hev_rbtree_node_next a) (fun n => ⌞n = hd0 (inorder r ++ cafter k)⌟ ∗
       is_ctx self k a ∗ is_tree (cptr k) (Node c l a r)).
Proof.
  iIntros "[Hk (%Ha & (Hc & Hr & Hl) & Htl & Htr)]".
  iDestruct (not_self_parent with "Hc Hk") as %Hne; [done|].
  unfold hev_rbtree_node_next, hev_rbtree_node_empty. wp_load. rw Hne. wp_load.
  destruct r as [|cr rl ar rr].
  - change (is_true (ptr Leaf)) with false. cbv iota. unfold rb_climb.
    iApply (wp_while (cdepth k)). iSplit.
    { iDestruct (is_ctx_heap_ge with "Hk") as "Hk". iExact "Hk". }
    iIntros (fuel Hf). iApply wp_wand. iSplitL "Hk Hc".
    + iApply (wp_climb_right fuel self k a c); [done..|]. iFrame.
    + iIntros (n) "(-> & Hk & Hc)". simpl. by iFrame.
  - iAssert ⌜aligned ar⌝%I as %Har; [by iDestruct "Htr" as "[% _]"|].
    simpl (ptr _). rw is_true_aligned //. unfold rb_go_left.
    iApply (wp_while (tsize rl)). iSplit.
    { iDestruct "Htr" as "(_ & _ & Hrl & _)".
      iDestruct (is_tree_heap_ge with "Hrl") as "Hrl". iExact "Hrl". }
    iIntros (fuel Hf). iApply wp_wand. iSplitL "Htr".
    + by iApply (wp_go_left_loop fuel a cr rl ar rr).
    + iIntros (n) "(-> & Ht)". iSplitR.
      * iPureIntro. simpl. by destruct (inorder rl).
      * simpl. by iFrame.
Qed.

Lemma wp_prev_at self k c l a r :
  is_ctx self k a ∗ is_tree (cptr k) (Node c l a r)
  ⊢ wp (hev_rbtree_node_prev a) (fun n => ⌞n = last0 (cbefore k ++ inorder l)⌟ ∗
       is_ctx self k a ∗ is_tree (cptr k) (Node c l a r)).
Proof.
  iIntros "[Hk (%Ha & (Hc & Hr & Hl) & Htl & Htr)]".
  iDestruct (not_self_parent with "Hc Hk") as %Hne; [done|].
  unfold hev_rbtree_node_prev, hev_rbtree_node_empty. wp_load. rw Hne. wp_load.
  destruct l as [|cl ll al lr].
  - change (is_true (ptr Leaf)) with false. cbv iota. unfold rb_climb.
    iApply (wp_while (cdepth k)). iSplit.
    { iDestruct (is_ctx_heap_ge with "Hk") as "Hk". iExact "Hk". }
    iIntros (fuel Hf). iApply wp_wand. iSplitL "Hk Hc".
    + iApply (wp_climb_left fuel self k a c); [done..|]. iFrame.
    + iIntros (n) "(-> & Hk & Hc)". simpl. rw app_nil_r. by iFrame.
  - iAssert ⌜aligned al⌝%I as %Hal; [by iDestruct "Htl" as "[% _]"|].
    simpl (ptr _). rw is_true_aligned //. unfold rb_go_right.
    iApply (wp_while (tsize lr)). iSplit.
    { iDestruct "Htl" as "(_ & _ & _ & Hlr)".
      iDestruct (is_tree_heap_ge with "Hlr") as "Hlr". iExact "Hlr". }
    iIntros (fuel Hf). iApply wp_wand. iSplitL "Htl".
    + by iApply (wp_go_right_loop fuel a cl ll al lr).
    + iIntros (n) "(-> & Ht)". iSplitR.
      * iPureIntro. simpl. by rw (app_assoc (cbefore k)) !last0_app_cons.
      * simpl. by iFrame.
Qed.
End traversal.

(** ** Looking up and filling an insertion point *)

Definition clink (self : Z) (k : ctx) : Z :=
  match k with
  | Top => rb_root self
  | CL _ _ a _ => rb_left a
  | CR _ _ a _ => rb_right a
  end.

Lemma is_ctx_link self k h :
  is_ctx self k h ⊢ clink self k ↦ h ∗ (∀ h', clink self k ↦ h' -∗ is_ctx self k h').
Proof.
  destruct k as [|c k a r|c l a k]; simpl.
  - iIntros "$". by iIntros (h') "$".
  - iIntros "(% & (? & ? & $) & ? & ?)". iIntros (h') "?". by iFrame.
  - iIntros "(% & (? & $ & ?) & ? & ?)". iIntros (h') "?". by iFrame.
Qed.

(** The longest path from the root, in nodes. *)
Fixpoint theight (t : tree) : nat :=
  match t with Leaf => 0 | Node _ l _ r => S (theight l `max` theight r) end.

Lemma theight_tsize t : (theight t <= tsize t)%nat.
Proof. induction t; simpl; lia. Qed.

Lemma tsize_inorder t : tsize t = length (inorder t).
Proof. induction t; simpl; rw ?length_app //=; lia. Qed.

Lemma rbt_height c n t :
  rbt c n t ->
  (theight t <= 2 * n + match c with Red => 0 | Black => 1 end)%nat /\
  (2 ^ n <= S (tsize t))%nat.
Proof.
  induction 1 as [c|n l a r _ [IHl Sl] _ [IHr Sr]|c n l a r _ [IHl Sl] _ [IHr Sr]];
    simpl; [lia..|]. split; [destruct c; lia|lia].
Qed.

(** The height of a balanced tree is logarithmic in the number of its nodes. *)
Lemma balanced_height t :
  balanced t -> (theight t <= 2 * Nat.log2 (S (length (inorder t))))%nat.
Proof.
  intros [n [Hh Hs]%rbt_height]. rw tsize_inorder in Hs.
  apply Nat.log2_le_mono in Hs. rw Nat.log2_pow2 in Hs; lia.
Qed.

Section descend.
(** [before x]: the new element goes before [x].  Along the tree's order it
    never goes back from true to false. *)
Context (R : heapProp) (go_left : Z -> M bool) (before : Z -> bool).

Definition before_upward (L : list Z) : Prop :=
  StronglySorted (fun x y => before x = true -> before y = true) L.

Lemma before_upward_app A x B :
  before_upward (A ++ x :: B) -> before_upward A /\ before_upward B /\
  (before x = true -> Forall (fun y => before y = true) B) /\
  (before x = false -> Forall (fun y => before y = false) A).
Proof.
  unfold before_upward. induction A as [|a A IH]; simpl; intros H.
  - inversion H as [|? ? HB Hx]; subst. split_and!; [constructor|done| |done].
    intros Hb. eapply Forall_impl; [exact Hx|]. simpl. auto.
  - inversion H as [|? ? HA Ha]; subst. destruct (IH HA) as (H1 & H2 & H3 & H4).
    apply Forall_app in Ha as [Ha1 Ha2]. inversion Ha2 as [|? ? Hax ?]; subst.
    split_and!; [by constructor|done|done|]. intros Hx. constructor; [|auto].
    destruct (before a) eqn:Hba; [|done]. by rw Hax in Hx.
Qed.

Lemma wp_descend_loop fuel self k t (T : list Z) :
  (theight t < fuel)%nat ->
  (forall x, x ∈ T -> R ⊢ wp (go_left x) (fun b => ⌞b = before x⌟ ∗ R)) ->
  inorder t ⊆ T -> before_upward (inorder t) ->
  Forall (fun y => before y = false) (cbefore k) ->
  Forall (fun y => before y = true) (cafter k) ->
  is_ctx self k (ptr t) ∗ is_tree (cptr k) t ∗ R
  ⊢ wp (loop fuel (rb_descend_body go_left)
          (clink self k, cptr k, bool_decide (cbefore k = []))) (fun '(new, parent, lm) =>
      ∃ k', ⌞new = clink self k' /\ parent = cptr k' /\
          lm = bool_decide (cbefore k' = []) /\ plug k' Leaf = plug k t /\
          Forall (fun y => before y = false) (cbefore k') /\
          Forall (fun y => before y = true) (cafter k')⌟ ∗
        is_ctx self k' NULL ∗ R)%I.
Proof.
  intros Hf Hgo. revert k t Hf. induction fuel as [|fuel IH]; intros k t Hf Hin Hup Hb Ha; [lia|].
  iIntros "(Hk & Ht & HR)". iApply wp_loop_S. unfold rb_descend_body.
  iDestruct (is_ctx_link with "Hk") as "[Hlink Hk]". wp_load.
  iDestruct ("Hk" with "Hlink") as "Hk".
  destruct t as [|c l a r]; [simpl; wp_norm; iExists k; by iFrame|].
  iDestruct "Ht" as "(%Hal & Hn & Hl & Hr)". simpl (ptr _). rw is_true_aligned //.
  iApply wp_bind. iApply wp_wand. iSplitL "HR"; [iApply (Hgo a with "HR")|].
  { apply Hin. simpl. apply list_elem_of_In, in_elt. }
  iIntros (b) "[-> HR]". wp_norm. simpl in Hin, Hup, Hf.
  apply before_upward_app in Hup as (Hupl & Hupr & Htrue & Hfalse).
  destruct (before a) eqn:Hba.
  - iApply (IH (CL c k a r) l with "[-]"); [lia| |done|done| |simpl; by iFrame].
    + intros y Hy. apply Hin, elem_of_app. by left.
    + simpl. constructor; [done|]. apply Forall_app. auto.
  - assert (bool_decide (cbefore (CR c l a k) = []) = false) as Hlm.
    { apply bool_decide_eq_false. simpl. by intros [_ [_ ?]%app_nil]%app_nil. }
    pose proof (IH (CR c l a k) r) as IHr. rw Hlm in IHr.
    iApply (IHr with "[-]"); [lia| |done| |done|simpl; by iFrame].
    + intros y Hy. apply Hin, elem_of_app. right. by right.
    + simpl. apply Forall_app. split; [done|]. apply Forall_app. auto.
Qed.
End descend.

(** ** The cached tree as an ordered queue *)

Definition is_cached (self : Z) (L : list Z) : heapProp :=
  (rb_lists (rb_root self) L ∗ rb_leftmost self ↦ hd0 L)%I.

(** Where an element goes: after everything it is not before. *)
Definition q_insert (before : Z -> bool) (x : Z) (L : list Z) : list Z :=
  filter (fun y => before y = false) L ++ x :: filter (fun y => before y = true) L.

Lemma q_insert_split before x A B :
  Forall (fun y => before y = false) A -> Forall (fun y => before y = true) B ->
  q_insert before x (A ++ B) = A ++ x :: B.
Proof.
  intros HA HB. unfold q_insert. rw !filter_app. f_equal.
  - rw (filter_all _ A) // (filter_none _ B) ?app_nil_r //.
    eapply Forall_impl; [exact HB|]. by intros y ->.
  - f_equal. rw (filter_all _ B) // (filter_none _ A) //.
    eapply Forall_impl; [exact HA|]. by intros y ->.
Qed.

Section api.
Implicit Types (self a : Z) (A B L : list Z).

(** Listed nodes are distinct, aligned cells of memory. *)
Lemma is_tree_cell p t x :
  x ∈ inorder t -> is_tree p t ⊢ ⌜aligned x⌝ ∧ ∃ v, rb_parent_color x ↦ v ∗ True.
Proof.
  revert p. induction t as [|c l IHl a r IHr]; intros p Hx; simpl in *.
  { by apply not_elem_of_nil in Hx. }
  iIntros "(%Ha & (Hc & Hr) & Htl & Htr)".
  apply elem_of_app in Hx as [Hx|[->|Hx]%elem_of_cons].
  - iDestruct (IHl a Hx with "Htl") as "[$ (%v & H & _)]". iExists v. by iFrame.
  - iSplit; [done|]. iExists _. by iFrame.
  - iDestruct (IHr a Hx with "Htr") as "[$ (%v & H & _)]". iExists v. by iFrame.
Qed.

Lemma is_tree_not_in p t x v :
  is_tree p t -∗ rb_parent_color x ↦ v -∗ ⌜x ∉ inorder t⌝.
Proof.
  iIntros "Ht Hx". destruct (decide (x ∈ inorder t)) as [Hin|]; [|done].
  iDestruct (is_tree_cell p t x Hin with "Ht") as "[_ (%w & H & _)]".
  by iDestruct (points_to_ne with "H Hx") as %?.
Qed.

Lemma is_tree_disjoint p q t1 t2 :
  is_tree p t1 -∗ is_tree q t2 -∗ ⌜forall x, x ∈ inorder t1 -> x ∈ inorder t2 -> False⌝.
Proof.
  iIntros "H1 H2". iIntros (x).
  destruct (decide (x ∈ inorder t1)) as [Hx1|]; [|iPureIntro; tauto].
  iDestruct (is_tree_cell p t1 x Hx1 with "H1") as "[_ (%w & H & _)]".
  by iDestruct (is_tree_not_in with "H2 H") as %?.
Qed.

Lemma is_tree_nodup p t : is_tree p t -∗ ⌜NoDup (inorder t)⌝.
Proof.
  revert p. induction t as [|c l IHl a r IHr]; intros p; simpl.
  { iIntros "_". iPureIntro. constructor. }
  iIntros "(%Ha & (Hc & _) & Hl & Hr)".
  iDestruct (IHl with "Hl") as %Hnl. iDestruct (IHr with "Hr") as %Hnr.
  iDestruct (is_tree_not_in with "Hl Hc") as %Hal.
  iDestruct (is_tree_not_in with "Hr Hc") as %Har.
  iDestruct (is_tree_disjoint with "Hl Hr") as %Hd. iPureIntro.
  apply NoDup_app. split; [done|]. split; [|by constructor].
  intros x Hx [->|Hx']%elem_of_cons; [done|by apply (Hd x)].
Qed.

Lemma rb_lists_nodup self L : rb_lists self L -∗ ⌜NoDup L⌝.
Proof. iIntros "(%t & [_ <-] & _ & Ht)". iApply (is_tree_nodup with "Ht"). Qed.

Lemma rb_lists_aligned self L : rb_lists self L -∗ ⌜Forall aligned L⌝.
Proof.
  iIntros "(%t & [_ <-] & _ & Ht)". rw Forall_forall. iIntros (x Hx).
  by iDestruct (is_tree_cell _ _ _ Hx with "Ht") as "[$ _]".
Qed.

Lemma nodup_hd0 A x B : NoDup (A ++ x :: B) -> hd0 (A ++ x :: B) = x -> A = [].
Proof.
  destruct A as [|a A]; [done|]. intros [Ha _]%NoDup_cons Hx. simpl in Ha, Hx.
  destruct Ha. apply elem_of_app. right. unfold hd0 in Hx. simpl in Hx. subst. by left.
Qed.

(** Open the representation at an element of the list. *)
Lemma rb_lists_at self A x B :
  rb_lists self (A ++ x :: B) ⊢ ∃ k c n d l r,
    ⌞rbc c n k /\ rbt c n (Node d l x r) /\
     A = cbefore k ++ inorder l /\ B = inorder r ++ cafter k⌟ ∗
    is_ctx self k x ∗ is_tree (cptr k) (Node d l x r).
Proof.
  iIntros "(%t & [%Hb %Hin] & H)".
  destruct (plug_at _ _ _ _ Hin) as (k & d & l & r & -> & -> & ->).
  destruct (plug_balanced_inv _ _ Hb) as (c & n & Hk & Ht).
  rw is_rbtree_plug. iExists k, c, n, d, l, r. by iFrame.
Qed.

Lemma rb_lists_close self k c n d l r x :
  rbc c n k -> rbt c n (Node d l x r) ->
  is_ctx self k x ∗ is_tree (cptr k) (Node d l x r)
  ⊢ rb_lists self ((cbefore k ++ inorder l) ++ x :: inorder r ++ cafter k).
Proof.
  iIntros (Hk Ht) "H". iApply (rb_lists_intro _ _ _ _ (Node d l x r) with "H"); [done..|list_eq].
Qed.

Lemma wp_rb_next self A x B :
  rb_lists self (A ++ x :: B)
  ⊢ wp (hev_rbtree_node_next x) (fun n => ⌞n = hd0 B⌟ ∗ rb_lists self (A ++ x :: B)).
Proof.
  iIntros "H". iDestruct (rb_lists_at with "H") as (k c n d l r) "[%Hp H]".
  destruct Hp as (Hk & Ht & -> & ->).
  iApply wp_wand. iSplitL "H"; [by iApply wp_next_at|].
  iIntros (v) "($ & H)". by iApply (rb_lists_close _ _ _ _ _ _ _ _ Hk Ht).
Qed.

Lemma wp_rb_prev self A x B :
  rb_lists self (A ++ x :: B)
  ⊢ wp (hev_rbtree_node_prev x) (fun n => ⌞n = last0 A⌟ ∗ rb_lists self (A ++ x :: B)).
Proof.
  iIntros "H". iDestruct (rb_lists_at with "H") as (k c n d l r) "[%Hp H]".
  destruct Hp as (Hk & Ht & -> & ->).
  iApply wp_wand. iSplitL "H"; [by iApply wp_prev_at|].
  iIntros (v) "($ & H)". by iApply (rb_lists_close _ _ _ _ _ _ _ _ Hk Ht).
Qed.

Lemma wp_rb_first self L :
  rb_lists self L ⊢ wp (hev_rbtree_first self) (fun n => ⌞n = hd0 L⌟ ∗ rb_lists self L).
Proof.
  iIntros "(%t & %Ht & Hr & H)". unfold hev_rbtree_first. wp_load.
  destruct Ht as [Hb <-]. destruct t as [|c l a r].
  - simpl. wp_norm. iSplitR; [done|]. iExists Leaf. by iFrame.
  - iAssert ⌜aligned a⌝%I as %Ha; [by iDestruct "H" as "[% _]"|].
    simpl (ptr _). rw is_true_aligned //. unfold rb_go_left.
    iApply (wp_while (tsize l)). iSplit.
    { iDestruct "H" as "(_ & _ & Hl & _)".
      iDestruct (is_tree_heap_ge with "Hl") as "Hl". iExact "Hl". }
    iIntros (fuel Hf). iApply wp_wand. iSplitL "H"; [by iApply wp_go_left_loop|].
    iIntros (n) "[-> H]". iSplitR; [done|]. iExists (Node c l a r). by iFrame.
Qed.

Lemma wp_rb_last self L :
  rb_lists self L ⊢ wp (hev_rbtree_last self) (fun n => ⌞n = last0 L⌟ ∗ rb_lists self L).
Proof.
  iIntros "(%t & %Ht & Hr & H)". unfold hev_rbtree_last. wp_load.
  destruct Ht as [Hb <-]. destruct t as [|c l a r].
  - simpl. wp_norm. iSplitR; [done|]. iExists Leaf. by iFrame.
  - iAssert ⌜aligned a⌝%I as %Ha; [by iDestruct "H" as "[% _]"|].
    simpl (ptr _). rw is_true_aligned //. unfold rb_go_right.
    iApply (wp_while (tsize r)). iSplit.
    { iDestruct "H" as "(_ & _ & _ & Hl)".
      iDestruct (is_tree_heap_ge with "Hl") as "Hl". iExact "Hl". }
    iIntros (fuel Hf). iApply wp_wand. iSplitL "H"; [by iApply wp_go_right_loop|].
    iIntros (n) "[-> H]". iSplitR; [done|]. iExists (Node c l a r). by iFrame.
Qed.

Lemma wp_rb_erase self A x B :
  rb_lists self (A ++ x :: B)
  ⊢ wp (hev_rbtree_erase self x) (fun _ => rb_lists self (A ++ B) ∗ rb_cell x).
Proof.
  iIntros "H". iDestruct (rb_lists_at with "H") as (k c n d l r) "[%Hp H]".
  destruct Hp as (Hk & Ht & -> & ->).
  iApply (wp_erase_at self k c n d l r with "H"); [done..|list_eq].
Qed.

Lemma rbt_readdr c n d l a b r : rbt c n (Node d l a r) -> rbt c n (Node d l b r).
Proof. inversion 1; subst; eauto with rb. Qed.

Lemma wp_replace_child field p q t (Q : unit -> heapProp) :
  paligned p ->
  field ↦ ptr t ∗ is_tree p t ∗ (field ↦ ptr t -∗ is_tree q t -∗ Q tt)
  ⊢ wp (replace_child field q) Q.
Proof.
  iIntros (Hp) "(Hf & Ht & HQ)". unfold replace_child. wp_load.
  destruct t as [|c l a r].
  - simpl. wp_norm. by iApply ("HQ" with "Hf").
  - iAssert ⌜aligned a⌝%I as %Ha; [by iDestruct "Ht" as "[% _]"|].
    simpl (ptr _). rw is_true_aligned //. cbn [when]. wp_load.
    iApply (wp_set_parent p); [done|]. iFrame "Ht". iApply ("HQ" with "Hf").
Qed.

Lemma wp_rb_replace self A v B new :
  aligned new ->
  rb_lists self (A ++ v :: B) ∗ rb_cell new
  ⊢ wp (hev_rbtree_replace self v new)
       (fun _ => rb_lists self (A ++ new :: B) ∗ rb_cell v).
Proof.
  iIntros (Hnew) "[H (%w1 & %w2 & %w3 & Hn1 & Hn2 & Hn3)]".
  iDestruct (rb_lists_at with "H") as (k c n d l r) "(%Hp & Hk & Hv)".
  destruct Hp as (Hk & Ht & -> & ->). iDestruct (is_ctx_paligned with "Hk") as %Hkp.
  iDestruct "Hv" as "(%Hv & (Hvc & Hvr & Hvl) & Hl & Hr)".
  unfold hev_rbtree_replace. iApply wp_bind.
  iApply (wp_node_parent _ (cptr k) d); [done|]. iFrame "Hvc". iIntros "Hvc".
  wp_load. wp_load. wp_load. wp_store. wp_store. wp_store.
  iApply wp_bind. iApply (wp_replace_child _ v new l); [by apply aligned_paligned|].
  iFrame "Hvl Hl". iIntros "Hvl Hl".
  iApply wp_bind. iApply (wp_replace_child _ v new r); [by apply aligned_paligned|].
  iFrame "Hvr Hr". iIntros "Hvr Hr".
  iApply wp_change_child; [unfold aligned in Hv; lia|]. iFrame "Hk Hvc". iIntros "Hk Hvc".
  iSplitR "Hvc Hvr Hvl"; [|by iExists _, _, _; iFrame].
  iApply (rb_lists_close _ _ _ _ _ _ _ _ Hk (rbt_readdr _ _ _ _ _ new _ Ht)).
  simpl. by iFrame.
Qed.

(** ** The cached tree *)

Lemma wp_cached_first self L :
  is_cached self L ⊢ wp (hev_rbtree_cached_first self) (fun n => ⌞n = hd0 L⌟ ∗ is_cached self L).
Proof. iIntros "[Ht Hl]". unfold hev_rbtree_cached_first. wp_load. by iFrame. Qed.

Lemma wp_cached_erase self A x B :
  is_cached self (A ++ x :: B)
  ⊢ wp (hev_rbtree_cached_erase self x) (fun _ => is_cached self (A ++ B) ∗ rb_cell x).
Proof.
  iIntros "[Ht Hl]". iDestruct (rb_lists_nodup with "Ht") as %Hnd. pose proof (nodup_hd0 _ _ _ Hnd) as Hhd.
  unfold hev_rbtree_cached_erase. wp_load.
  destruct (Z.eqb_spec x (hd0 (A ++ x :: B))) as [Heq|Hne]; cbn [when].
  - rw Hhd //. simpl. iApply wp_bind. wp_norm. iApply wp_bind. iApply wp_wand.
    iSplitL "Ht"; [iApply (wp_rb_next _ [] x B with "Ht")|].
    iIntros (n) "[-> Ht]". wp_store. iApply wp_wand.
    iSplitL "Ht"; [iApply (wp_rb_erase _ [] x B with "Ht")|].
    iIntros (_) "[Ht $]". iFrame.
  - wp_norm. iApply wp_wand. iSplitL "Ht"; [iApply (wp_rb_erase with "Ht")|].
    iIntros (_) "[Ht $]". destruct A; [done|]. iFrame.
Qed.

Lemma wp_cached_replace self A v B new :
  aligned new ->
  is_cached self (A ++ v :: B) ∗ rb_cell new
  ⊢ wp (hev_rbtree_cached_replace self v new)
       (fun _ => is_cached self (A ++ new :: B) ∗ rb_cell v).
Proof.
  iIntros (Hnew) "[[Ht Hl] Hn]". iDestruct (rb_lists_nodup with "Ht") as %Hnd. pose proof (nodup_hd0 _ _ _ Hnd) as Hhd.
  unfold hev_rbtree_cached_replace.
  iApply wp_bind. iApply wp_wand. iSplitL "Ht Hn"; [iApply wp_rb_replace; [done|iFrame]|].
  iIntros (_) "[Ht Hv]". wp_load.
  destruct (Z.eqb_spec (hd0 (A ++ v :: B)) v) as [Heq|Hne]; cbn [when].
  - rw Hhd //. wp_store. iFrame.
  - wp_norm. destruct A; [done|]. iFrame.
Qed.

(** Link a red leaf at the hole and repair. *)
Lemma wp_link_insert self k c n x :
  rbc c n k -> rbt c n Leaf -> aligned x ->
  is_ctx self k NULL ∗ rb_cell x
  ⊢ wp (hev_rbtree_node_link x (cptr k) (clink self k)) (fun _ =>
      ins_inv self (cbefore k ++ x :: cafter k) k x).
Proof.
  iIntros (Hk Ht Hx) "[Hk (%w1 & %w2 & %w3 & Hx1 & Hx2 & Hx3)]". unfold hev_rbtree_node_link.
  wp_store. wp_store. wp_store. iDestruct (is_ctx_link with "Hk") as "[Hl Hk]".
  wp_store. iDestruct ("Hk" with "Hl") as "Hk". inversion Ht; subst.
  iExists c, 0%nat, Leaf, Leaf. iSplitR; [iPureIntro; split_and!; by eauto with rb|].
  iFrame "Hk". simpl. rw lor_red. by iFrame.
Qed.

Lemma wp_insert_loop self L k n fuel :
  (cdepth k < fuel)%nat ->
  ins_inv self L k n
  ⊢ wp (loop fuel (insert_color_body self) (n, cptr k)) (fun _ => rb_lists self L).
Proof.
  revert k n. induction fuel as [|fuel IH]; intros k n Hd; [lia|].
  iIntros "H". iApply wp_loop_S. iApply wp_wand. iSplitL "H"; [by iApply insert_step|].
  iIntros ([[n' pk]|[]]) "H"; simpl; [|done].
  iDestruct "H" as "(%k' & [%Hk' ->] & H)". iApply IH; [lia|done].
Qed.

Lemma wp_insert_color self L k n :
  ins_inv self L k n ⊢ wp (hev_rbtree_insert_color self n) (fun _ => rb_lists self L).
Proof.
  iIntros "(%c & %m & %l & %r & %Hp & Hk & (%Hn & (Hc & Hr & Hl) & Htl & Htr))".
  unfold hev_rbtree_insert_color, hev_rbtree_node_red_parent. wp_load. rw lor_red.
  iApply (wp_while (cdepth k)). iSplit.
  { iDestruct (is_ctx_heap_ge with "Hk") as "Hk". iExact "Hk". }
  iIntros (fuel Hf). iApply (wp_insert_loop _ _ k); [done|].
  iExists c, m, l, r. iSplitR; [done|]. iFrame "Hk". simpl. rw lor_red. by iFrame.
Qed.

Lemma wp_cached_insert_by self L x R go_left before :
  aligned x -> before_upward before L ->
  (forall y, y ∈ L -> R ⊢ wp (go_left y) (fun b => ⌞b = before y⌟ ∗ R)) ->
  is_cached self L ∗ rb_cell x ∗ R
  ⊢ wp (rb_cached_insert_by self x go_left)
       (fun lm => ⌞lm = bool_decide (hd0 (q_insert before x L) = x)⌟ ∗
        is_cached self (q_insert before x L) ∗ R).
Proof.
  iIntros (Hx Hup Hgo) "([(%t & [%Hb <-] & Ht) Hlm] & Hx & HR)".
  unfold rb_cached_insert_by, rb_descend. iApply wp_bind. iApply wp_wand. iSplitL "Ht HR".
  { iApply (wp_while (tsize t)). iSplit.
    { iDestruct "Ht" as "[_ Ht]". iDestruct (is_tree_heap_ge with "Ht") as "Ht".
      iExact "Ht". }
    iIntros (fuel Hf). pose proof (theight_tsize t).
    iApply (wp_descend_loop R go_left before fuel self Top t (inorder t)); [lia|done..|].
    iDestruct "Ht" as "[$ $]". done. }
  iIntros ([[new parent] lm]) "(%k & %Hpure & Hk & HR)".
  destruct Hpure as (-> & -> & -> & Hplug & HA & HB). simpl in Hplug. subst t.
  destruct (plug_balanced_inv _ _ Hb) as (c & n & Hk & Hleaf).
  rw (inorder_plug k Leaf). simpl (inorder Leaf). rw app_nil_l. rw q_insert_split; [|done..].
  iApply wp_bind. iApply wp_wand. iSplitL "Hk Hx"; [iApply (wp_link_insert _ _ _ _ _ Hk Hleaf Hx); iFrame|].
  iIntros (_) "Hins". unfold hev_rbtree_cached_insert_color.
  iApply wp_bind. iApply (wp_wand _ (fun _ => is_cached self (cbefore k ++ x :: cafter k))).
  iSplitR "HR".
  - destruct (cbefore k) as [|b0 bs] eqn:Hcb.
    + rw bool_decide_eq_true_2 //. cbn [when]. wp_store. iApply wp_wand.
      iSplitL "Hins"; [by iApply wp_insert_color|]. iIntros (_) "Ht". iFrame.
    + rw bool_decide_eq_false_2 //. cbn [when]. wp_norm. iApply wp_wand.
      iSplitL "Hins"; [by iApply wp_insert_color|]. iIntros (_) "Ht". iFrame.
  - iIntros (_) "[Ht Hl]". iDestruct (rb_lists_nodup with "Ht") as %Hnd. wp_norm. iFrame.
    iPureIntro. apply bool_decide_ext. split; [by intros ->|]. by apply nodup_hd0.
Qed.
End api.
