(* ===== verification/RBTreeProps.v ===== *)
(** * RBTreeProps: what the red-black tree of [lib/rbtree] promises

    The correctness statements of [RBTree], as triples over memories: each
    operation is run on any memory that holds a balanced tree listing [L] (and
    anything else besides), returns normally, and leaves a balanced tree whose
    in-order listing is the one stated, with the rest of the memory unchanged. *)

From S2P Require Import Prelude Sep RBTree RBTreeSpec RBTreeProofs RBTreeApi.

(** C16. Linking a new node at the place the users' search loop finds and
    calling [hev_rbtree_cached_insert_color] with the loop's [leftmost] flag
    puts the node after every element it does not precede and before all
    others, keeps the tree red-black balanced and [leftmost] its first
    element, reports whether the new node is the first, whatever test [go_left] the loop makes as long as it computes a
    predicate that is monotone along the tree. *)
Theorem cached_insert_ordered self L x R go_left before :
  aligned x -> before_upward before L ->
  (forall y, y ∈ L -> {{{ R }}} go_left y {{{ b, ⌞b = before y⌟ ∗ R }}}) ->
  {{{ is_cached self L ∗ rb_cell x ∗ R }}}
    rb_cached_insert_by self x go_left
  {{{ lm, ⌞lm = bool_decide (hd0 (q_insert before x L) = x)⌟ ∗
          is_cached self (q_insert before x L) ∗ R }}}.
Proof.
  intros Hx Hup Hgo. apply triple_wp, wp_cached_insert_by; [done..|].
  intros y Hy. by apply triple_wp, Hgo.
Qed.

(** Inserting node 64 in front of node 128, whose keys are in cells 64 + 24
    and 128 + 24. *)
Definition key_before (k y : Z) : M bool := v <- load (y + 24) ;; ret (k <? v).

Lemma cached_insert_ordered_witness :
  {{{ is_cached 8 [128] ∗ rb_cell 64 ∗ 152 ↦ 7 }}}
    rb_cached_insert_by 8 64 (key_before 5)
  {{{ lm, ⌞lm = true⌟ ∗ is_cached 8 [64; 128] ∗ 152 ↦ 7 }}}.
Proof.
  apply (cached_insert_ordered 8 [128] 64 (152 ↦ 7)%I (key_before 5) (fun y => y =? 128)).
  - by split.
  - repeat constructor.
  - intros y Hy. apply list_elem_of_singleton in Hy as ->. apply triple_wp.
    iIntros "H". unfold key_before. wp_load. by iFrame.
Defined.

(** C17. [hev_rbtree_cached_erase] unlinks exactly the given node: the order of
    the others is unchanged, the tree is balanced again, [leftmost] is the
    first remaining node (or NULL), and the node's own cells are handed back. *)
Theorem cached_erase_unlinks self A x B :
  {{{ is_cached self (A ++ x :: B) }}}
    hev_rbtree_cached_erase self x
  {{{ _, is_cached self (A ++ B) ∗ rb_cell x }}}.
Proof. apply triple_wp, wp_cached_erase. Qed.

(** C36. The search loop of an insertion visits at most [2 * log2 (n + 1)]
    nodes of a tree of [n] nodes, and stops at the slot that splits the order
    into the elements the new one does not precede and those it precedes. *)
Theorem descend_logarithmic self L R go_left before fuel :
  (2 * Nat.log2 (S (length L)) < fuel)%nat ->
  before_upward before L ->
  (forall y, y ∈ L -> {{{ R }}} go_left y {{{ b, ⌞b = before y⌟ ∗ R }}}) ->
  {{{ rb_lists self L ∗ R }}}
    loop fuel (rb_descend_body go_left) (rb_root self, NULL, true)
  {{{ st, ∃ k, ⌞st = (clink self k, cptr k, bool_decide (cbefore k = [])) /\
        cbefore k = filter (fun y => before y = false) L /\
        cafter k = filter (fun y => before y = true) L⌟ ∗
      is_ctx self k NULL ∗ R }}}.
Proof.
  intros Hf Hup Hgo. apply triple_wp. iIntros "[(%t & [%Hb %Hin] & Ht) HR]". subst L.
  pose proof (balanced_height _ Hb) as Hh.
  iApply wp_wand. iSplitL.
  { iApply (wp_descend_loop R go_left before fuel self Top t (inorder t));
      [lia| |done|done|done|done|]; [|iDestruct "Ht" as "[$ $]"; done].
    intros y Hy. by apply triple_wp, Hgo. }
  iIntros ([[new parent] lm]) "(%k & %Hpure & Hk & HR)".
  destruct Hpure as (-> & -> & -> & Hplug & HA & HB). simpl in Hplug. subst t.
  iExists k. iFrame. iPureIntro. split; [done|]. rw (inorder_plug k Leaf). simpl.
  rw !filter_app. split.
  - rw (filter_all _ (cbefore k)) // (filter_none _ (cafter k)) ?app_nil_r //.
    eapply Forall_impl; [exact HB|]. by intros y ->.
  - rw (filter_all _ (cafter k)) // (filter_none _ (cbefore k)) //.
    eapply Forall_impl; [exact HA|]. by intros y ->.
Qed.

Lemma descend_logarithmic_witness :
  {{{ rb_lists 8 [128] ∗ 152 ↦ 7 }}}
    loop 3 (rb_descend_body (key_before 5)) (rb_root 8, NULL, true)
  {{{ st, ∃ k, ⌞st = (clink 8 k, cptr k, bool_decide (cbefore k = [])) /\
        cbefore k = [] /\ cafter k = [128]⌟ ∗ is_ctx 8 k NULL ∗ 152 ↦ 7 }}}.
Proof.
  apply (descend_logarithmic 8 [128] (152 ↦ 7)%I (key_before 5) (fun y => y =? 128) 3).
  - vm_compute. lia.
  - repeat constructor.
  - intros y Hy. apply list_elem_of_singleton in Hy as ->. apply triple_wp.
    iIntros "H". unfold key_before. wp_load. by iFrame.
Defined.

(** C37. [hev_rbtree_node_next] and [hev_rbtree_node_prev] are inverse steps
    along the order: from a node, next and then prev (when there is a next)
    comes back to it, and both leave the tree as it was. *)
Theorem next_prev_inverse self A x y B :
  {{{ rb_lists self (A ++ x :: y :: B) }}}
    (n <- hev_rbtree_node_next x ;; p <- hev_rbtree_node_prev n ;; ret (n, p))
  {{{ r, ⌞r = (y, x)⌟ ∗ rb_lists self (A ++ x :: y :: B) }}}.
Proof.
  apply triple_wp. iIntros "H". iApply wp_bind. iApply wp_wand.
  iSplitL; [by iApply wp_rb_next|]. iIntros (n) "[-> H]". simpl.
  iApply wp_bind. iApply wp_wand. iSplitL.
  { rw (cons_middle x A) app_assoc. by iApply (wp_rb_prev self (A ++ [x]) y B). }
  iIntros (p) "[-> H]". wp_norm. rw /last0 last_snoc -app_assoc. by iFrame.
Qed.

(** [hev_rbtree_cached_replace] puts the new node at the victim's place in
    the order, without rebalancing, and updates [leftmost]. *)
Theorem cached_replace_in_place self A v B new :
  aligned new ->
  {{{ is_cached self (A ++ v :: B) ∗ rb_cell new }}}
    hev_rbtree_cached_replace self v new
  {{{ _, is_cached self (A ++ new :: B) ∗ rb_cell v }}}.
Proof. intros H. by apply triple_wp, wp_cached_replace. Qed.

Lemma cached_replace_in_place_witness :
  {{{ is_cached 8 [128] ∗ rb_cell 64 }}}
    hev_rbtree_cached_replace 8 128 64
  {{{ _, is_cached 8 [64] ∗ rb_cell 128 }}}.
Proof. apply (cached_replace_in_place 8 [] 128 [] 64). by split. Defined.

(** C38. [hev_rbtree_first] and [hev_rbtree_last] return the ends of the order,
    NULL for an empty tree; the cached [leftmost] agrees with the search. *)
Theorem first_last_ends self L :
  {{{ is_cached self L }}}
    (c <- hev_rbtree_cached_first self ;;
     f <- hev_rbtree_first (rb_root self) ;;
     l <- hev_rbtree_last (rb_root self) ;; ret (c, f, l))
  {{{ r, ⌞r = (hd0 L, hd0 L, last0 L)⌟ ∗ is_cached self L }}}.
Proof.
  apply triple_wp. iIntros "H". iApply wp_bind. iApply wp_wand.
  iSplitL; [by iApply wp_cached_first|]. iIntros (c) "(-> & H & Hl)".
  iApply wp_bind. iApply wp_wand. iSplitL "H"; [by iApply wp_rb_first|].
  iIntros (f) "[-> H]". iApply wp_bind. iApply wp_wand.
  iSplitL "H"; [by iApply wp_rb_last|]. iIntros (l) "[-> H]". wp_norm. by iFrame.
Qed.
