(* ===== verification/Env.v ===== *)
(** * Env: programs that call the C library and the kernel

    A function of the library that only works on memory is an [M] program of
    [Prelude].  The others are trees [co]: between memory actions they call
    the outside world (libc and system calls) or suspend themselves, and go on
    with its answer.  This file holds the trees, what the outside world may
    answer and does to memory, and a runner over a script of answers. *)

From stdpp Require Export strings.
From S2P Require Export Prelude.

(** ** Trees of external calls *)

(** [Sys f args outs] is a call of [f] that may fill the cells [outs], in
    order; [Query f args n] one whose output, at most [n] words, lands in local
    variables of the caller; the bytes a call reads through a pointer follow its
    arguments where they matter.  [Yield t] is [hev_task_yield (t)], or the exit
    of the current task for the type [HEV_TASK_SCHED_REMOVE]. *)
Inductive ext : Type :=
| Malloc (size : Z)
| Realloc (ptr size : Z)
| Free (ptr : Z)
| Sys (f : string) (args outs : list Z)
| Query (f : string) (args : list Z) (n : nat)
| Yield (type : Z).

#[export] Instance ext_eq_dec : EqDecision ext.
Proof. solve_decision. Defined.

(** What the world answers: the value returned, [errno], and the data written
    through the call's pointers (for [Malloc], the bytes found in the block). *)
Record answer : Type := Answer { a_ret : Z; a_errno : Z; a_data : list Z }.

#[export] Instance answer_eq_dec : EqDecision answer.
Proof. solve_decision. Defined.

(** [Fuel] asks for the bound of a waiting loop, [Stop] is a loop that ran out
    of it: the run is then still waiting, not failed. *)
Inductive co (A : Type) : Type :=
| Ret (a : A)
| Act {X : Type} (c : M X) (k : X -> co A)
| Ext (e : ext) (k : answer -> co A)
| Fuel (k : nat -> co A)
| Stop.
Arguments Ret {_} _.
Arguments Act {_ _} _ _.
Arguments Ext {_} _ _.
Arguments Fuel {_} _.
Arguments Stop {_}.

Fixpoint co_bind {A B} (c : co A) (f : A -> co B) : co B :=
  match c with
  | Ret a => f a
  | Act c k => Act c (fun x => co_bind (k x) f)
  | Ext e k => Ext e (fun a => co_bind (k a) f)
  | Fuel k => Fuel (fun n => co_bind (k n) f)
  | Stop => Stop
  end.

Notation "x <~ c ;; k" := (co_bind c (fun x => k))
  (at level 100, c at next level, right associativity) : c_scope.
Notation "c ~;; k" := (co_bind c (fun _ => k))
  (at level 100, k at level 200, right associativity) : c_scope.
Notation "x <! c ;; k" := (Act c (fun x => k))
  (at level 100, c at next level, right associativity) : c_scope.
Notation "c !;; k" := (Act c (fun _ => k))
  (at level 100, k at level 200, right associativity) : c_scope.

Definition act {A} (c : M A) : co A := Act c Ret.
Definition call (e : ext) : co answer := Ext e Ret.

(** A system call whose result is all that matters. *)
Definition sys (f : string) (args : list Z) : co Z :=
  a <~ call (Query f args 0) ;; Ret (a_ret a).

Definition co_when (b : bool) (c : co unit) : co unit := if b then c else Ret tt.

(** Loops: [stop] is what remains when the bound [n] is used up. *)
Fixpoint co_loop {X R} (stop : co R) (n : nat) (body : X -> co (X + R)) (x : X) : co R :=
  match n with
  | O => stop
  | S n =>
      r <~ body x ;;
      match r with
      | inl x' => co_loop stop n body x'
      | inr v => Ret v
      end
  end.

(** A loop that waits for the outside world has no bound of its own. *)
Definition co_while {X R} (body : X -> co (X + R)) (x : X) : co R :=
  Fuel (fun n => co_loop Stop n body x).

(** A loop that chases pointers must end within the size of the memory. *)
Definition mem_bound : M nat := fun m => Ok (S (size m), m).

Definition co_chase {X R} (body : X -> co (X + R)) (x : X) : co R :=
  n <! mem_bound ;; co_loop (act (fail OutOfFuel)) n body x.

(** A loop over data known when it starts. *)
Fixpoint co_for {A} (l : list A) (body : A -> co unit) : co unit :=
  match l with
  | [] => Ret tt
  | x :: l => body x ~;; co_for l body
  end.

(** ** What calls do to memory *)

(** The C library keeps the size of a block just below it. *)
Definition libc_header (p : Z) : Z := p - 8.

Definition zrange (p n : Z) : list Z := seqZ p n.

(** Give the cells [l] the values [vs], junk 0 when there are not enough. *)
Fixpoint put_cells (l vs : list Z) (m : mem) : mem :=
  match l with
  | [] => m
  | a :: l => put_cells l (tail vs) (<[ a := default 0 (head vs) ]> m)
  end.

Definition del_cells (l : list Z) (m : mem) : mem := foldr delete m l.

Definition allocated (l : list Z) (m : mem) : bool :=
  forallb (fun a => bool_decide (is_Some (m !! a))) l.

Definition unallocated (l : list Z) (m : mem) : bool :=
  forallb (fun a => bool_decide (m !! a = None)) l.

Definition block_cells (p n : Z) : list Z := libc_header p :: zrange p n.

(** Write the data of an answer to a prefix of the given cells. *)
Definition fill (outs data : list Z) (m : mem) : res mem :=
  let l := take (length data) outs in
  if allocated l m then Ok (put_cells l data m) else Err Segv.

(** [malloc] returns NULL or the address of a fresh block aligned to 16
    bytes. *)
Definition alloc_answer (p size : Z) (m : mem) : bool :=
  if p =? 0 then true else (0 <? p) && (p mod 16 =? 0) && unallocated (block_cells p size) m.

Definition do_malloc (p size : Z) (data : list Z) (m : mem) : mem :=
  if p =? 0 then m
  else put_cells (zrange p size) data (<[ libc_header p := size ]> m).

Definition do_free (p : Z) (m : mem) : res mem :=
  if p =? 0 then Ok m else
  match m !! libc_header p with
  | Some n =>
      if allocated (zrange p n) m then Ok (del_cells (block_cells p n) m)
      else Err Segv
  | None => Err Segv
  end.

(** The contents of the first cells of a block, up to its size. *)
Definition read_cells (l : list Z) (m : mem) : list Z :=
  map (fun a => default 0 (m !! a)) l.

(** [realloc (p, size)] answering [q]: the old block's contents move to the
    new one; on failure ([q = NULL], [size] not 0) the old block stays. *)
Definition do_realloc (p q size : Z) (data : list Z) (m : mem) : res mem :=
  if (q =? 0) && negb (size =? 0) then Ok m else
  let old := if p =? 0 then 0 else default 0 (m !! libc_header p) in
  let kept := read_cells (zrange p (Z.min old size)) m in
  match do_free p m with
  | Ok m' => Ok (do_malloc q size (kept ++ data) m')
  | Err e => Err e
  end.

(** Documented results of system calls, as far as the proofs need them.  The
    clock 1 is [CLOCK_MONOTONIC], which every system has. *)
Definition nanoseconds_ok (ns : Z) : bool := (0 <=? ns) && (ns <? 1000000000).

Definition MSG_TRUNC : Z := 32.

Definition sys_doc (f : string) (args : list Z) (a : answer) : bool :=
  if String.eqb f "clock_gettime" then
    match args, a_data a with
    | _, [sec; nsec] => (a_ret a =? 0) && (0 <=? sec) && nanoseconds_ok nsec
    | [1], _ => false     (* it fails for an unknown clock or a bad pointer only *)
    | _, _ => a_ret a =? -1
    end
  else if String.eqb f "epoll_wait" then
    match args with
    | [_; maxevents; _] =>
        (-1 <=? a_ret a) && (a_ret a <=? maxevents) &&
        (Z.of_nat (length (a_data a)) =? 2 * Z.max 0 (a_ret a))
    | _ => false
    end
  else if String.eqb f "read" then
    match args with
    | [_; _; count] =>
        (-1 <=? a_ret a) && (a_ret a <=? count) &&
        (Z.of_nat (length (a_data a)) =? Z.max 0 (a_ret a))
    | _ => false
    end
  else if String.eqb f "recv" then
    match args with
    | [_; _; count; flags] =>     (* with MSG_TRUNC the length of the message *)
        let written := Z.of_nat (length (a_data a)) in
        (-1 <=? a_ret a) &&
        if Z.land flags MSG_TRUNC =? 0 then
          (a_ret a <=? count) && (written =? Z.max 0 (a_ret a))
        else (written <=? count) && (written <=? Z.max 0 (a_ret a))
    | _ => false
    end
  else if String.eqb f "readv" then
    (-1 <=? a_ret a) && (Z.of_nat (length (a_data a)) =? Z.max 0 (a_ret a))
  else if String.eqb f "writev" then
    match args with     (* the bytes written follow the arguments *)
    | _ :: _ :: _ :: bytes => (-1 <=? a_ret a) && (a_ret a <=? Z.of_nat (length bytes))
    | _ => false
    end
  else if String.eqb f "send" then
    match args with
    | [_; _; count; _] => (-1 <=? a_ret a) && (a_ret a <=? count)
    | _ => false
    end
  else true.

(** The answers documented for a call in a memory: no call writes more than
    the cells it was given, [realloc] may reuse the block it frees. *)
Definition valid (e : ext) (a : answer) (m : mem) : bool :=
  match e with
  | Malloc size => alloc_answer (a_ret a) size m
  | Realloc p size =>
      match do_free p m with
      | Ok m' => alloc_answer (a_ret a) size m'
      | Err _ => true
      end
  | Free _ => true
  | Sys f args outs =>
      bool_decide (length (a_data a) <= length outs)%nat && sys_doc f args a
  | Query f args n => bool_decide (length (a_data a) <= n)%nat && sys_doc f args a
  | Yield _ => true
  end.

Definition effect (e : ext) (a : answer) (m : mem) : res mem :=
  match e with
  | Malloc size => Ok (do_malloc (a_ret a) size (a_data a) m)
  | Realloc p size => do_realloc p (a_ret a) size (a_data a) m
  | Free p => do_free p m
  | Sys _ _ outs => fill outs (a_data a) m
  | Query _ _ _ => Ok m
  | Yield _ => Ok m
  end.

(** ** Running a tree against a script of answers *)

Inductive outcome (A : Type) : Type :=
| Done (a : A) (m : mem) (rest : list answer)
| Fault (e : fault)
| Waiting           (* the script is used up *)
| BadAnswer.        (* the script gives an answer no world gives *)
Arguments Done {_} _ _ _.
Arguments Fault {_} _.
Arguments Waiting {_}.
Arguments BadAnswer {_}.

(** The fuel of a waiting loop is the number of answers left: each of its
    rounds uses one.  The second component lists the calls made. *)
Fixpoint run {A} (script : list answer) (c : co A) (m : mem) : outcome A * list ext :=
  match c with
  | Ret a => (Done a m script, [])
  | Act c k =>
      match c m with
      | Ok (x, m') => run script (k x) m'
      | Err e => (Fault e, [])
      end
  | Ext e k =>
      match script with
      | [] => (Waiting, [e])
      | a :: script =>
          if valid e a m then
            match effect e a m with
            | Ok m' => let '(o, tr) := run script (k a) m' in (o, e :: tr)
            | Err f => (Fault f, [e])
            end
          else (BadAnswer, [e])
      end
  | Fuel k => run script (k (S (length script))) m
  | Stop => (Waiting, [])
  end.
