(* ===== verification/EnvLogic.v ===== *)
(** * EnvLogic: weakest preconditions of trees of external calls

    [cwp Y c Q] extends the weakest precondition of [Sep] to the trees of
    [Env]: whatever documented answers the world gives, the run never faults,
    and if it ends its result satisfies [Q].  The rules for each kind of call
    and the adequacy theorem that relates [cwp] to [run] are here. *)

From S2P Require Export Sep.
From S2P Require Export Env.

(** ** Definition *)

(** Whatever documented answer the world gives, the call does not fault and
    leads to [Φ]; the cells not owned are left alone. *)
Definition ext_wp (e : ext) (Φ : answer -> heapProp) : heapProp :=
  {| heapProp_holds h := forall hf a, h ##ₘ hf -> valid e a (h ∪ hf) = true ->
       exists h', effect e a (h ∪ hf) = Ok (h' ∪ hf) /\ h' ##ₘ hf /\ Φ a h' |}.

(** [Y t K]: what must hold to suspend with type [t], with [K] to be shown on
    resumption. *)
Fixpoint cwp {A} (Y : Z -> heapProp -> heapProp) (c : co A) (Q : A -> heapProp)
    : heapProp :=
  match c with
  | Ret a => Q a
  | Act c k => wp c (fun x => cwp Y (k x) Q)
  | Ext (Yield t) k => Y t (∀ a, cwp Y (k a) Q)
  | Ext e k => ext_wp e (fun a => cwp Y (k a) Q)
  | Fuel k => ∀ n, cwp Y (k n) Q
  | Stop => True
  end%I.

(** No suspension allowed. *)
Definition no_yield : Z -> heapProp -> heapProp := fun _ _ => False%I.

(** Suspensions do nothing to the cells owned: no other task touches them. *)
Definition yield_id : Z -> heapProp -> heapProp := fun _ K => K.

(** The suspension hands over [I] and gets it back, changed by others. *)
Definition yield_inv (I : heapProp) : Z -> heapProp -> heapProp :=
  fun _ K => (I ∗ (I -∗ K))%I.

Class YieldMono (Y : Z -> heapProp -> heapProp) : Prop :=
  yield_mono t K1 K2 : Y t K1 ∗ (K1 -∗ K2) ⊢ Y t K2.

#[export] Instance no_yield_mono : YieldMono no_yield.
Proof. intros t K1 K2. by iIntros "[? _]". Qed.

#[export] Instance yield_id_mono : YieldMono yield_id.
Proof. intros t K1 K2. iIntros "[H K]". by iApply "K". Qed.

#[export] Instance yield_inv_mono I : YieldMono (yield_inv I).
Proof. intros t K1 K2. iIntros "[[$ H] K] HI". iApply "K". by iApply "H". Qed.

(** ** Blocks of cells *)

Definition cells (l : list Z) : heapProp := ([∗ list] a ∈ l, ∃ v, a ↦ v)%I.

Definition cells_with (l vs : list Z) : heapProp := ([∗ list] a;v ∈ l;vs, a ↦ v)%I.

(** A block from the C library. *)
Definition mblock (p n : Z) : heapProp :=
  (⌞0 < p /\ p mod 16 = 0⌟ ∗ libc_header p ↦ n ∗ cells (zrange p n))%I.

Lemma cells_cons_holds a l h :
  cells (a :: l) h -> exists v h2, h = {[ a := v ]} ∪ h2 /\ {[ a := v ]} ##ₘ h2 /\ cells l h2.
Proof.
  intros (h1 & h2 & -> & Hd & [v Hv] & H2). change (h1 = {[ a := v ]}) in Hv.
  subst h1. by exists v, h2.
Qed.

Lemma cells_cons_intro a l v h :
  {[ a := v ]} ##ₘ h -> cells l h -> cells (a :: l) ({[ a := v ]} ∪ h).
Proof.
  intros Hd H. exists {[ a := v ]}, h. split; [done|]. split; [done|].
  split; [exact (ex_intro _ v eq_refl)|done].
Qed.

Lemma cells_allocated l h m : cells l h -> allocated l (h ∪ m) = true.
Proof.
  revert h m. induction l as [|a l IH]; intros h m; [done|].
  intros (v & h2 & -> & Hd & H2)%cells_cons_holds. simpl. apply andb_true_iff. split.
  - apply bool_decide_eq_true. exists v. by rw -assoc_L lookup_union lookup_singleton_eq union_Some_l.
  - apply map_disjoint_sym in Hd. rw (map_union_comm _ h2) // -assoc_L. by apply IH.
Qed.

Lemma put_cells_fresh l vs m :
  NoDup l -> unallocated l m = true ->
  exists h, put_cells l vs m = h ∪ m /\ h ##ₘ m /\ cells l h.
Proof.
  revert vs m. induction l as [|a l IH]; intros vs m Hnd Hun; simpl in *.
  { exists ∅. split_and!; [by rw left_id_L|apply map_disjoint_empty_l|done]. }
  apply NoDup_cons in Hnd as [Ha Hnd].
  apply andb_true_iff in Hun as [Hma%bool_decide_eq_true Hun].
  set (v := default 0 (head vs)).
  destruct (IH (tail vs) (<[a:=v]> m) Hnd) as (h & Hput & Hd & Hc).
  { unfold unallocated in *. rw !forallb_forall. rw forallb_forall in Hun.
    intros b Hb. specialize (Hun b Hb). apply bool_decide_eq_true in Hun.
    apply bool_decide_eq_true. rw lookup_insert_ne //. intros ->. apply Ha.
    by apply list_elem_of_In. }
  apply map_disjoint_insert_r in Hd as [Hha Hd].
  assert ({[a := v]} ##ₘ h) as Hdh by by apply map_disjoint_singleton_l.
  exists ({[a := v]} ∪ h). split_and!.
  - rw Hput insert_union_singleton_l assoc_L (map_union_comm h) //.
  - apply map_disjoint_union_l_2; [by apply map_disjoint_singleton_l|done].
  - by apply cells_cons_intro.
Qed.

Lemma del_cells_owned l h m : h ##ₘ m -> cells l h -> del_cells l (h ∪ m) = m.
Proof.
  revert h m. induction l as [|a l IH]; intros h m Hd; simpl.
  { intros ->. by rw left_id_L. }
  intros (v & h2 & -> & Hd2 & H2)%cells_cons_holds.
  apply map_disjoint_union_l in Hd as [Hd1 Hdm].
  rw (map_union_comm {[a:=v]} h2) // -assoc_L IH //.
  - apply map_disjoint_singleton_l in Hd1. rw -insert_union_singleton_l delete_insert_id //.
  - apply map_disjoint_union_r_2; [by apply map_disjoint_sym|done].
Qed.

Lemma put_cells_owned l vs h m :
  h ##ₘ m -> cells l h -> length vs = length l ->
  exists h', put_cells l vs (h ∪ m) = h' ∪ m /\ h' ##ₘ m /\ cells_with l vs h' /\ dom h' = dom h.
Proof.
  revert vs h m. induction l as [|a l IH]; intros [|w vs] h m Hd Hc Hlen; try done; simpl.
  { exists h. split_and!; done. }
  apply cells_cons_holds in Hc as (v & h2 & -> & Hd2 & H2).
  apply map_disjoint_union_l in Hd as [Hd1 Hdm].
  apply map_disjoint_singleton_l in Hd1 as Hma. apply map_disjoint_singleton_l in Hd2 as Hh2a.
  assert (h2 ##ₘ <[a:=w]> m) as Hdw by by apply map_disjoint_insert_r_2.
  destruct (IH vs h2 (<[a:=w]> m) Hdw H2) as (h' & Hput & Hd' & Hcw & Hdom); [simpl in *; lia|].
  apply map_disjoint_insert_r in Hd' as [Hh'a Hd'].
  assert ({[a := w]} ##ₘ h') as Hdh by by apply map_disjoint_singleton_l.
  exists ({[a := w]} ∪ h'). split_and!.
  - rw -assoc_L insert_union_l insert_singleton_eq.
    rw (map_union_comm {[a:=w]}); [|by apply map_disjoint_union_r_2; apply map_disjoint_singleton_l].
    rw -assoc_L -(map_union_comm {[a:=w]} m); [|by apply map_disjoint_singleton_l].
    rw -insert_union_singleton_l Hput insert_union_singleton_l assoc_L (map_union_comm h') //.
  - apply map_disjoint_union_l_2; [|done]. by apply map_disjoint_singleton_l.
  - by exists {[a := w]}, h'.
  - rw !dom_union_L !dom_singleton_L Hdom //.
Qed.

(** ** Rules of the external calls *)

Lemma cells_nodup l h : cells l h -> NoDup l.
Proof.
  revert h. induction l as [|a l IH]; intros h; [constructor|].
  intros (v & h2 & -> & Hd & H2)%cells_cons_holds. constructor; [|by eapply IH].
  intros Hin. clear IH. revert h2 Hd H2. induction l as [|b l IH]; intros h2 Hd H2.
  { by apply not_elem_of_nil in Hin. }
  apply cells_cons_holds in H2 as (w & h3 & -> & Hd3 & H3).
  apply map_disjoint_union_r in Hd as [Hab Ha3].
  apply elem_of_cons in Hin as [->|Hin]; [|by eapply IH].
  apply map_disjoint_singleton_l in Hab. by rw lookup_singleton_eq in Hab.
Qed.

Lemma cells_app l1 l2 : cells (l1 ++ l2) ⊣⊢ cells l1 ∗ cells l2.
Proof. apply big_sepL_app. Qed.

Lemma cells_with_cells l vs : cells_with l vs ⊢ cells l.
Proof.
  revert vs. induction l as [|a l IH]; intros [|v vs]; [exact (reflexivity _)|by iIntros "[]"|by iIntros "[]"|].
  iIntros "[H Hl]". iSplitL "H"; [by iExists v|]. by iApply IH.
Qed.

(** A call may fill a part of its cells. *)
Lemma cells_join n l : cells (take n l) ∗ cells (drop n l) ⊢ cells l.
Proof. by rw -cells_app take_drop. Qed.

Lemma cells_perm l1 l2 : l1 ≡ₚ l2 -> cells l1 ⊣⊢ cells l2.
Proof. intros H. unfold cells. by rw H. Qed.

(** [l] is part of [L]. *)
Lemma take_perm (l L : list Z) :
  NoDup l -> NoDup L -> l ⊆ L -> L ≡ₚ l ++ filter (fun a => a ∉ l) L.
Proof.
  intros Hl HL Hsub. apply NoDup_Permutation; [done| |].
  - apply NoDup_app. split; [done|]. split; [|by apply NoDup_filter].
    intros x Hx [Hx' _]%list_elem_of_filter. done.
  - intros x. rw elem_of_app list_elem_of_filter. destruct (decide (x ∈ l)) as [Hx|Hx]; [|tauto].
    pose proof (Hsub x Hx). tauto.
Qed.

(** The cells of [l] are among those of a block, the others stay behind. *)
Lemma cells_take l L :
  NoDup l -> NoDup L -> l ⊆ L -> cells L ⊣⊢ cells l ∗ cells (filter (fun a => a ∉ l) L).
Proof. intros Hl HL Hsub. rw -cells_app. by apply cells_perm, take_perm. Qed.

Lemma ext_wp_wand e (Φ Ψ : answer -> heapProp) :
  ext_wp e Φ ∗ (∀ a, Φ a -∗ Ψ a) ⊢ ext_wp e Ψ.
Proof.
  constructor. intros h (h1 & h2 & -> & Hd & H & HΨ) hf a Hdf Hv.
  apply map_disjoint_union_l in Hdf as [Hd1 Hd2]. rw -assoc_L in Hv.
  destruct (H (h2 ∪ hf) a) as (h' & He & Hd' & HQ); [by apply map_disjoint_union_r_2|done|].
  apply map_disjoint_union_r in Hd' as [Hd'2 Hd'f]. apply map_disjoint_sym in Hd'2.
  exists (h2 ∪ h'). split_and!.
  - by rw -assoc_L He (map_union_comm h2 h') // -assoc_L.
  - by apply map_disjoint_union_l_2.
  - apply (HΨ a); [by apply map_disjoint_sym|done].
Qed.

Lemma ext_wp_malloc size (Φ : answer -> heapProp) :
  (∀ a, (⌞a_ret a = 0⌟ ∨ mblock (a_ret a) size) -∗ Φ a) ⊢ ext_wp (Malloc size) Φ.
Proof.
  constructor. intros h H hf a Hd Hv. simpl in *. unfold alloc_answer, do_malloc in *.
  destruct (Z.eqb_spec (a_ret a) 0) as [Hz|Hz].
  { exists h. split_and!; [done..|]. rw -(right_id_L ∅ (∪) h). apply (H a).
    - apply map_disjoint_empty_r.
    - left. split; [done|]. done. }
  apply andb_true_iff in Hv as [Hv Hun]. apply andb_true_iff in Hv as [Hpos%Z.ltb_lt Hal%Z.eqb_eq].
  unfold unallocated, block_cells in Hun. cbn [forallb] in Hun.
  apply andb_true_iff in Hun as [Hh%bool_decide_eq_true Hun].
  set (p := a_ret a) in *. set (m := h ∪ hf) in *.
  destruct (put_cells_fresh (zrange p size) (a_data a) (<[libc_header p := size]> m))
    as (hb & Hput & Hdb & Hc).
  { apply NoDup_seqZ. }
  { apply forallb_forall. intros b Hb. rw forallb_forall in Hun. specialize (Hun b Hb).
    apply bool_decide_eq_true in Hun. apply bool_decide_eq_true. rw lookup_insert_ne //.
    intros <-. apply list_elem_of_In, elem_of_seqZ in Hb. unfold libc_header in Hb. lia. }
  apply map_disjoint_insert_r in Hdb as [Hbh Hdb].
  assert ({[libc_header p := size]} ##ₘ m) as Hdm by by apply map_disjoint_singleton_l.
  assert (hb ##ₘ ({[libc_header p := size]} : mem)) as Hdbh by by apply map_disjoint_singleton_r.
  set (hn := hb ∪ {[libc_header p := size]}).
  assert (hn ##ₘ m) as Hn by by apply map_disjoint_union_l_2.
  apply map_disjoint_union_r in Hn as [Hnh Hnf].
  exists (hn ∪ h). split_and!.
  - rw Hput insert_union_singleton_l. subst hn m. by rw !assoc_L.
  - by apply map_disjoint_union_l_2.
  - rw map_union_comm //. apply (H a); [by apply map_disjoint_sym|]. right.
    exists ∅, hn. split_and!; [by rw left_id_L|apply map_disjoint_empty_l|done|].
    subst hn. rw map_union_comm //. exists {[libc_header p := size]}, hb. by split_and!.
Qed.

Lemma do_free_block p n hb m :
  mblock p n hb -> hb ##ₘ m -> p <> 0 /\ do_free p (hb ∪ m) = Ok m.
Proof.
  intros (h0 & hb' & -> & _ & Hp & Hb). destruct Hp as [-> [Hp _]]. rw left_id_L.
  destruct Hb as (hh & hc & -> & Hdc & Hh & Hc). change (hh = {[libc_header p := n]}) in Hh.
  subst hh. intros [Hhm Hcm]%map_disjoint_union_l. split; [lia|]. unfold do_free.
  rw (proj2 (Z.eqb_neq p 0)); [|lia].
  rw -assoc_L lookup_union lookup_singleton_eq union_Some_l.
  assert (hc ##ₘ {[libc_header p := n]} ∪ m) as Hd.
  { apply map_disjoint_union_r_2; [by apply map_disjoint_sym|done]. }
  rw assoc_L (map_union_comm _ hc) // -assoc_L cells_allocated //.
  unfold block_cells. simpl. rw del_cells_owned //.
  rw -insert_union_singleton_l delete_insert_id //. by apply map_disjoint_singleton_l in Hhm.
Qed.

Lemma ext_wp_free p n (Φ : answer -> heapProp) :
  mblock p n ∗ (∀ a, Φ a) ⊢ ext_wp (Free p) Φ.
Proof.
  constructor. intros h (hb & h2 & -> & Hd & Hb & H) hf a Hdf _.
  apply map_disjoint_union_l in Hdf as [Hdf Hdf2].
  exists h2. rw -assoc_L /effect. split_and!; [|done|exact (H a)].
  apply (do_free_block p n); [done|by apply map_disjoint_union_r_2].
Qed.

Lemma ext_wp_free_null (Φ : answer -> heapProp) : (∀ a, Φ a) ⊢ ext_wp (Free 0) Φ.
Proof. constructor. intros h H hf a Hd _. exists h. split_and!; [done|done|exact (H a)]. Qed.

Lemma ext_wp_sys f args outs (Φ : answer -> heapProp) :
  cells outs ∗
  (∀ a, ⌜(length (a_data a) <= length outs)%nat /\ sys_doc f args a = true⌝ →
    cells_with (take (length (a_data a)) outs) (a_data a) -∗
    cells (drop (length (a_data a)) outs) -∗ Φ a)
  ⊢ ext_wp (Sys f args outs) Φ.
Proof.
  constructor. intros h (ho & h2 & -> & Hd & Ho & H) hf a Hdf Hv.
  apply andb_true_iff in Hv as [Hlen%bool_decide_eq_true Hdoc].
  set (n := length (a_data a)) in *.
  assert (cells outs ⊢ cells (take n outs) ∗ cells (drop n outs)) as [Hsplit].
  { by rw -cells_app take_drop. }
  destruct (Hsplit _ Ho) as (h3 & h4 & -> & Hd34 & H3 & H4).
  apply map_disjoint_union_l in Hd as [Hd3 Hd4].
  apply map_disjoint_union_l in Hdf as [Hdf Hdf2]. apply map_disjoint_union_l in Hdf as [Hdf3 Hdf4].
  assert (h3 ##ₘ h4 ∪ (h2 ∪ hf)) as Hd3m by by repeat apply map_disjoint_union_r_2.
  destruct (put_cells_owned (take n outs) (a_data a) h3 (h4 ∪ (h2 ∪ hf)) Hd3m H3)
    as (h' & Hput & Hd' & Hcw & _).
  { rw length_take. subst n. lia. }
  apply map_disjoint_union_r in Hd' as [Hd'4 Hd'2]. apply map_disjoint_union_r in Hd'2 as [Hd'2 Hd'f].
  exists (h' ∪ h4 ∪ h2). split_and!.
  - unfold effect, fill. fold n. rw -!assoc_L (cells_allocated _ _ _ H3) Hput. by rw !assoc_L.
  - by repeat apply map_disjoint_union_l_2.
  - match type of H with heapProp_holds ?P _ =>
      assert (cells_with (take n outs) (a_data a) ∗ cells (drop n outs) ∗ P ⊢ Φ a) as HE end.
    { iIntros "(H1 & H2 & H)". iApply ("H" with "[] H1 H2"). iPureIntro. done. }
    apply (heapProp_in_entails _ _ HE). rw -assoc_L.
    exists h', (h4 ∪ h2). split_and!; [done|by apply map_disjoint_union_r_2|done|].
    by exists h4, h2.
Qed.

Lemma ext_wp_query f args n (Φ : answer -> heapProp) :
  (∀ a, ⌜(length (a_data a) <= n)%nat /\ sys_doc f args a = true⌝ → Φ a)
  ⊢ ext_wp (Query f args n) Φ.
Proof.
  constructor. intros h H hf a Hd Hv. apply andb_true_iff in Hv as [Hlen%bool_decide_eq_true Hdoc].
  exists h. split_and!; [done|done|]. by apply (H a).
Qed.

(** ** Rules of trees *)

Lemma ext_wp_mono e (Φ Ψ : answer -> heapProp) :
  (forall a, Φ a ⊢ Ψ a) -> ext_wp e Φ ⊢ ext_wp e Ψ.
Proof.
  intros H. iIntros "H". iApply ext_wp_wand. iFrame. iIntros (a) "Ha". by iApply H.
Qed.

Lemma yield_mono' `{YieldMono Y} t K1 K2 : (K1 ⊢ K2) -> Y t K1 ⊢ Y t K2.
Proof.
  intros HK. iIntros "H". iApply (yield_mono t K1 K2). iFrame. iIntros "K". by iApply HK.
Qed.

Section cwp.
Context (Y : Z -> heapProp -> heapProp) `{!YieldMono Y}.

Lemma cwp_wand {A} (c : co A) (Q1 Q2 : A -> heapProp) :
  cwp Y c Q1 ∗ (∀ x, Q1 x -∗ Q2 x) ⊢ cwp Y c Q2.
Proof.
  induction c as [a|X c k IH|e k IH|k IH|]; cbn [cwp].
  - iIntros "[H K]". by iApply "K".
  - iIntros "[H K]". iApply wp_wand. iSplitL "H"; [iExact "H"|].
    iIntros (x) "H". iApply IH. iFrame.
  - destruct e; try (iIntros "[H K]"; iApply ext_wp_wand; iSplitL "H"; [iExact "H"|];
      iIntros (a) "H"; iApply IH; iFrame).
    iIntros "[H K]". iApply yield_mono. iSplitL "H"; [iExact "H"|].
    iIntros "H" (a). iApply IH. iSplitL "H"; [iApply "H"|iExact "K"].
  - iIntros "[H K]" (n). iApply IH. iSplitL "H"; [iApply "H"|iExact "K"].
  - by iIntros "_".
Qed.

Lemma cwp_mono {A} (c : co A) (Q1 Q2 : A -> heapProp) :
  (forall x, Q1 x ⊢ Q2 x) -> cwp Y c Q1 ⊢ cwp Y c Q2.
Proof.
  intros H. iIntros "H". iApply cwp_wand. iFrame. iIntros (x) "Hx". by iApply H.
Qed.

Lemma cwp_bind {A B} (c : co A) (k : A -> co B) Q :
  cwp Y c (fun x => cwp Y (k x) Q) ⊢ cwp Y (co_bind c k) Q.
Proof.
  induction c as [a|X c f IH|e f IH|f IH|]; cbn [cwp co_bind].
  - done.
  - iIntros "H". iApply wp_wand. iSplitL "H"; [iExact "H"|]. iIntros (x) "H". by iApply IH.
  - destruct e; try (apply ext_wp_mono; intros a; apply IH).
    apply yield_mono'. iIntros "H" (a). iApply IH. iApply "H".
  - iIntros "H" (n). iApply IH. iApply "H".
  - done.
Qed.

(** A function known by its specification. *)
Lemma cwp_call {A B} (c : co A) (k : A -> co B) (Q1 : A -> heapProp) Q :
  cwp Y c Q1 ∗ (∀ x, Q1 x -∗ cwp Y (k x) Q) ⊢ cwp Y (co_bind c k) Q.
Proof. iIntros "H". iApply cwp_bind. by iApply cwp_wand. Qed.

(** A call whose result may be anything. *)
Lemma cwp_sys {B} f args (k : Z -> co B) Q :
  (∀ v, cwp Y (k v) Q) ⊢ cwp Y (co_bind (sys f args) k) Q.
Proof.
  iIntros "H". iApply cwp_bind. unfold sys, call. cbn [cwp co_bind]. iApply ext_wp_query.
  iIntros (a _). iApply "H".
Qed.

Lemma cwp_loop_S {X Res} stop n (body : X -> co (X + Res)) x Q :
  cwp Y (body x) (fun r => match r with
                           | inl x' => cwp Y (co_loop stop n body x') Q
                           | inr v => Q v
                           end) ⊢ cwp Y (co_loop stop (S n) body x) Q.
Proof.
  simpl. iIntros "H". iApply cwp_bind. iApply cwp_wand. iFrame.
  iIntros ([x'|v]) "H"; done.
Qed.

(** A waiting loop by its invariant. *)
Lemma cwp_while {X Res} (body : X -> co (X + Res)) (Inv : X -> heapProp) x Q :
  (forall x, Inv x ⊢ cwp Y (body x) (fun r => match r with
                                              | inl x' => Inv x'
                                              | inr v => Q v
                                              end)) ->
  Inv x ⊢ cwp Y (co_while body x) Q.
Proof.
  intros Hbody. assert (forall n x, Inv x ⊢ cwp Y (co_loop Stop n body x) Q) as Hloop.
  { intros n. induction n as [|n IH]; intros y; [by iIntros "_"|].
    iIntros "H". iApply cwp_loop_S. iApply cwp_wand. iSplitL "H"; [by iApply Hbody|].
    iIntros ([y'|v]) "H"; [by iApply IH|done]. }
  unfold co_while. cbn [cwp]. iIntros "H" (n). by iApply Hloop.
Qed.

(** A pointer-chasing loop, by the number of cells owned. *)
Lemma wp_mem_bound n (Q : nat -> heapProp) :
  heap_ge n ∧ (∀ k, ⌜(n < k)%nat⌝ → Q k) ⊢ wp mem_bound Q.
Proof.
  rw /mem_bound. iIntros "H". iApply (wp_with_fuel n (fun k => ret k)). iSplit.
  - by iDestruct "H" as "[$ _]".
  - iDestruct "H" as "[_ H]". iIntros (k Hk). iApply wp_ret. by iApply "H".
Qed.

Lemma cwp_chase {X Res} n (body : X -> co (X + Res)) x Q :
  heap_ge n ∧ (∀ k, ⌜(n < k)%nat⌝ → cwp Y (co_loop (act (fail OutOfFuel)) k body x) Q)
  ⊢ cwp Y (co_chase body x) Q.
Proof. iIntros "H". unfold co_chase. cbn [cwp]. by iApply wp_mem_bound. Qed.
End cwp.

(** ** Adequacy *)

(** The run of a program proved without assumptions on suspension ends with a
    result satisfying its postcondition, or is waiting for more answers: it
    never faults. *)
Definition outcome_ok {A} (o : outcome A) (Q : A -> mem -> Prop) : Prop :=
  match o with
  | Done a m _ => Q a m
  | Fault _ => False
  | Waiting => True
  | BadAnswer => True
  end.

Lemma cwp_run {A} (c : co A) Q h script :
  cwp yield_id c Q h -> outcome_ok (run script c h).1 (fun a m => Q a m).
Proof.
  revert h script. induction c as [a|X c k IH|e k IH|k IH|]; intros h script H; cbn [run].
  - exact H.
  - destruct (wp_adequate {| heapProp_holds h' := h' = h |} c (fun x => cwp yield_id (k x) Q) h)
      as (x & h' & -> & Hk); [|done|by apply IH].
    constructor. intros h' Heq. change (h' = h) in Heq. subst h'. exact H.
  - destruct script as [|a script]; [done|].
    destruct (valid e a h) eqn:Hv; [|done].
    assert (exists h', effect e a h = Ok h' /\ cwp yield_id (k a) Q h') as (h' & -> & Hk).
    { destruct e; try (destruct (H ∅ a) as (h' & He & _ & Hk);
        [apply map_disjoint_empty_r|by rw right_id_L|]; rw !right_id_L in He;
        exists h'; split; [exact He|exact Hk]).
      exists h. split; [done|]. exact (H a). }
    specialize (IH a h' script Hk). by destruct (run script (k a) h').
  - apply IH. apply H.
  - done.
Qed.

Lemma cwp_adequate {A} (P : heapProp) (c : co A) Q h script :
  (P ⊢ cwp yield_id c Q) -> P h -> outcome_ok (run script c h).1 (fun a m => Q a m).
Proof. intros [H] HP. by apply cwp_run, H. Qed.

(** Triples for trees. *)
Definition ctriple {A} Y (P : heapProp) (c : co A) (Q : A -> heapProp) : Prop :=
  P ⊢ cwp Y c Q.

Notation "{{{ P } } } c @ Y {{{ r , Q } } }" := (ctriple Y P%I c (fun r => Q%I))
  (at level 20, c at level 100, Y at level 9, r name,
   format "{{{  P  } } }  c  @  Y  {{{  r ,  Q  } } }") : type_scope.

(** ** Structs in blocks *)

(** The field offsets [offs] of a struct of [n] bytes, in increasing order. *)
Fixpoint increasing (lo : Z) (l : list Z) (hi : Z) : bool :=
  match l with
  | [] => lo <=? hi
  | o :: l => (lo <=? o) && increasing (o + 1) l hi
  end.

Definition struct_ok (offs : list Z) (n : Z) : bool := increasing 0 offs n.

Lemma increasing_bounds lo l hi :
  increasing lo l hi = true -> NoDup l /\ forall o, o ∈ l -> lo <= o < hi.
Proof.
  revert lo. induction l as [|x l IH]; intros lo H; simpl in *.
  - split; [constructor|]. intros o []%not_elem_of_nil.
  - apply andb_true_iff in H as [Hx%Z.leb_le H]. destruct (IH _ H) as [Hnd Hl].
    assert (x < hi) as Hhi.
    { clear IH Hnd Hl. revert x H Hx. induction l as [|y l IH]; intros x H Hx; simpl in H.
      - apply Z.leb_le in H. lia.
      - apply andb_true_iff in H as [Hy%Z.leb_le H]. specialize (IH y H). lia. }
    split.
    + constructor; [|done]. intros Hin. apply Hl in Hin. lia.
    + intros o [->|Ho]%elem_of_cons; [lia|]. apply Hl in Ho. lia.
Qed.

Definition field_cells (p : Z) (offs : list Z) : heapProp :=
  ([∗ list] o ∈ offs, ∃ v, (p + o) ↦ v)%I.

(** The bytes of the struct that start no field. *)
Definition struct_rest (p : Z) (offs : list Z) (n : Z) : heapProp :=
  cells (filter (fun a => a ∉ Z.add p <$> offs) (zrange p n)).

Lemma cells_struct p offs n :
  struct_ok offs n = true -> cells (zrange p n) ⊣⊢ field_cells p offs ∗ struct_rest p offs n.
Proof.
  intros [Hnd Hr]%increasing_bounds.
  rw (cells_take (Z.add p <$> offs)).
  - unfold cells at 1. by rw big_sepL_fmap.
  - assert (Inj (=) (=) (Z.add p)) by (intros x y; lia). by apply NoDup_fmap_2.
  - apply NoDup_seqZ.
  - intros a (o & -> & Ho)%list_elem_of_fmap. apply Hr in Ho.
    apply elem_of_seqZ. lia.
Qed.

Lemma wp_store_all l v (Q : unit -> heapProp) :
  cells l ∗ (([∗ list] a ∈ l, a ↦ v) -∗ Q tt) ⊢ wp (store_all l v) Q.
Proof.
  revert Q. induction l as [|a l IH]; intros Q; simpl.
  - iIntros "[_ HQ]". wp_norm. by iApply "HQ".
  - iIntros "[[[%w Ha] Hl] HQ]". wp_store. iApply IH. iFrame. iIntros "Hl". iApply "HQ". iFrame.
Qed.

(** Cells whose values do not matter. *)
Lemma cells_of l v : ([∗ list] a ∈ l, a ↦ v) ⊢ cells l.
Proof. apply big_sepL_mono. iIntros (k a _) "H". by iExists v. Qed.
