(* ===== verification/Trace.v ===== *)
(** * Trace: what a program told the outside world

    [logged c log] is the program [c] that also returns the calls it made, with
    their answers, after those of [log].  Theorems about the calls of a program
    are triples of [logged].  Programs that only make calls of some kind are
    told by their trees ([calls_only]). *)

From S2P Require Import Prelude.
From S2P Require Import Sep.
From S2P Require Import Env.
From S2P Require Import EnvLogic.

Abbreviation entry := (ext * answer)%type.

Fixpoint logged {A} (c : co A) (log : list entry) : co (A * list entry) :=
  match c with
  | Ret a => Ret (a, log)
  | Act m k => Act m (fun x => logged (k x) log)
  | Ext e k => Ext e (fun a => logged (k a) (log ++ [(e, a)]))
  | Fuel k => Fuel (fun n => logged (k n) log)
  | Stop => Stop
  end.

(** Every call of the program satisfies [P]. *)
Fixpoint calls_only {A} (P : ext -> Prop) (c : co A) : Prop :=
  match c with
  | Ret _ => True
  | Act m k => forall x, calls_only P (k x)
  | Ext e k => P e /\ forall a, calls_only P (k a)
  | Fuel k => forall n, calls_only P (k n)
  | Stop => True
  end.

(** [log] goes on with calls satisfying [P]. *)
Definition extends (P : ext -> Prop) (log log' : list entry) : Prop :=
  exists l, log' = log ++ l /\ Forall (fun x => P x.1) l.

Lemma extends_refl P log : extends P log log.
Proof. exists []. by rw app_nil_r. Qed.

Lemma extends_cons P e a log log' :
  P e -> extends P (log ++ [(e, a)]) log' -> extends P log log'.
Proof.
  intros He (l & -> & Hl). exists ((e, a) :: l). by rw -app_assoc; split; [|constructor].
Qed.

(** ** Trees with calls of one kind *)

Section calls.
Context (P : ext -> Prop).

Lemma calls_bind {A B} (c : co A) (k : A -> co B) :
  calls_only P c -> (forall x, calls_only P (k x)) -> calls_only P (co_bind c k).
Proof.
  intros Hc Hk. induction c as [a|X m f IH|e f IH|f IH|]; simpl in *; [done| | | |done].
  - intros x. by apply IH.
  - destruct Hc as [He Hc]. split; [done|]. intros a. by apply IH.
  - intros n. by apply IH.
Qed.

Lemma calls_mono {A} (P' : ext -> Prop) (c : co A) :
  (forall e, P e -> P' e) -> calls_only P c -> calls_only P' c.
Proof.
  intros HP. induction c as [a|X m f IH|e f IH|f IH|]; simpl; [done| | | |done].
  - intros H x. by apply IH.
  - intros [He H]. split; [by apply HP|]. intros a. by apply IH.
  - intros H n. by apply IH.
Qed.

Lemma calls_loop {X R} stop n (body : X -> co (X + R)) x :
  calls_only P stop -> (forall x, calls_only P (body x)) -> calls_only P (co_loop stop n body x).
Proof.
  intros Hs Hb. revert x. induction n as [|n IH]; intros x; simpl; [done|].
  apply calls_bind; [apply Hb|]. intros [y|v]; [apply IH|done].
Qed.

Lemma calls_while {X R} (body : X -> co (X + R)) x :
  (forall x, calls_only P (body x)) -> calls_only P (co_while body x).
Proof. intros Hb n. by apply calls_loop. Qed.

Lemma calls_chase {X R} (body : X -> co (X + R)) x :
  (forall x, calls_only P (body x)) -> calls_only P (co_chase body x).
Proof. intros Hb n. by apply calls_loop. Qed.

Lemma calls_for {A} (l : list A) body :
  (forall x, calls_only P (body x)) -> calls_only P (co_for l body).
Proof.
  intros Hb. induction l as [|x l IH]; simpl; [done|]. apply calls_bind; [apply Hb|done].
Qed.

Lemma calls_when b c : calls_only P c -> calls_only P (co_when b c).
Proof. by destruct b. Qed.

Lemma calls_act {A X} (m : M X) (k : X -> co A) :
  (forall x, calls_only P (k x)) -> calls_only P (Act m k).
Proof. done. Qed.

Lemma calls_ext {A} e (k : answer -> co A) :
  P e -> (forall a, calls_only P (k a)) -> calls_only P (Ext e k).
Proof. done. Qed.

Lemma calls_call e : P e -> calls_only P (call e).
Proof. done. Qed.
End calls.

(** Walk down a tree; functions are known by the hints of [calls]. *)
Create HintDb calls.

Ltac calls :=
  repeat lazymatch goal with
  | |- forall _, _ => intro
  | |- calls_only _ (Ret _) => exact I
  | |- calls_only _ Stop => exact I
  | |- calls_only _ (co_bind _ _) => apply calls_bind
  | |- calls_only _ (Act _ _) => apply calls_act
  | |- calls_only _ (Ext _ _) => apply calls_ext; [first [exact I | reflexivity]|]
  | |- calls_only _ (call _) => apply calls_call; first [exact I | reflexivity]
  | |- calls_only _ (co_when _ _) => apply calls_when
  | |- calls_only _ (co_while _ _) => apply calls_while
  | |- calls_only _ (co_chase _ _) => apply calls_chase
  | |- calls_only _ (co_for _ _) => apply calls_for
  | |- calls_only _ (if ?b then _ else _) => destruct b
  | |- calls_only _ (match ?x with _ => _ end) => destruct x
  | |- calls_only _ (let _ := _ in _) => cbv zeta
  | |- calls_only _ _ => solve [auto with calls nocore]
  end.

(** ** Rules *)

Section logged.
Context (Y : Z -> heapProp -> heapProp) `{!YieldMono Y}.

Lemma cwp_logged_bind {A B} (c : co A) (k : A -> co B) log Q :
  cwp Y (logged c log) (fun xl => cwp Y (logged (k xl.1) xl.2) Q)
  ⊢ cwp Y (logged (co_bind c k) log) Q.
Proof.
  revert log. induction c as [a|X m f IH|e f IH|f IH|]; intros log; cbn [logged cwp co_bind fst snd].
  - done.
  - iIntros "H". iApply wp_wand. iSplitL "H"; [iExact "H"|]. iIntros (x) "H". by iApply IH.
  - destruct e; try (apply ext_wp_mono; intros a; apply IH).
    apply yield_mono'. iIntros "H" (a). iApply IH. iApply "H".
  - iIntros "H" (n). iApply IH. iApply "H".
  - done.
Qed.

Lemma cwp_logged_call {A B} (c : co A) (k : A -> co B) log Q1 Q :
  cwp Y (logged c log) Q1 ∗ (∀ x log', Q1 (x, log') -∗ cwp Y (logged (k x) log') Q)
  ⊢ cwp Y (logged (co_bind c k) log) Q.
Proof.
  iIntros "[H K]". iApply cwp_logged_bind. iApply cwp_wand. iFrame "H". iIntros ([x l]). iApply "K".
Qed.

(** A program known without its calls, if they do not matter. *)
Lemma cwp_logged_quiet {A} P (c : co A) log Q :
  calls_only P c ->
  cwp Y c Q ⊢ cwp Y (logged c log) (fun xl => ⌞extends P log xl.2⌟ ∗ Q xl.1).
Proof.
  revert log. induction c as [a|X m f IH|e f IH|f IH|]; intros log Hc; cbn [logged cwp fst snd] in *.
  - iIntros "$". iPureIntro. apply extends_refl.
  - iIntros "H". iApply wp_wand. iSplitL "H"; [iExact "H"|]. iIntros (x) "H". by iApply IH.
  - destruct Hc as [He Hc].
    assert (forall a, cwp Y (f a) Q ⊢ cwp Y (logged (f a) (log ++ [(e, a)]))
              (fun xl => ⌞extends P log xl.2⌟ ∗ Q xl.1)) as Hstep.
    { intros a. rw (IH a (log ++ [(e, a)]) (Hc a)). apply cwp_mono; [done|]. intros [x l].
      iIntros "[%H $]". iPureIntro. by eapply extends_cons. }
    destruct e; try (apply ext_wp_mono; intros a; apply Hstep).
    apply yield_mono'. iIntros "H" (a). iApply Hstep. iApply "H".
  - iIntros "H" (n). iApply IH; [apply Hc|]. iApply "H".
  - done.
Qed.

Lemma cwp_logged_loop_S {X R} stop n (body : X -> co (X + R)) x log Q :
  cwp Y (logged (body x) log) (fun rl =>
    match rl.1 with
    | inl x' => cwp Y (logged (co_loop stop n body x') rl.2) Q
    | inr v => Q (v, rl.2)
    end) ⊢ cwp Y (logged (co_loop stop (S n) body x) log) Q.
Proof.
  simpl. iIntros "H". iApply cwp_logged_bind. iApply cwp_wand. iFrame.
  iIntros ([[x'|v] l]) "H"; done.
Qed.

Lemma cwp_logged_while {X R} (body : X -> co (X + R)) (Inv : X -> list entry -> heapProp) x log Q :
  (forall x log, Inv x log ⊢ cwp Y (logged (body x) log) (fun rl =>
     match rl.1 with inl x' => Inv x' rl.2 | inr v => Q (v, rl.2) end)) ->
  Inv x log ⊢ cwp Y (logged (co_while body x) log) Q.
Proof.
  intros Hbody.
  assert (forall n x log, Inv x log ⊢ cwp Y (logged (co_loop Stop n body x) log) Q) as Hloop.
  { intros n. induction n as [|n IH]; intros y l; [by iIntros "_"|].
    iIntros "H". iApply cwp_logged_loop_S. iApply cwp_wand. iSplitL "H"; [by iApply Hbody|].
    iIntros ([[y'|v] l']) "H"; [by iApply IH|done]. }
  unfold co_while. cbn [logged cwp]. iIntros "H" (n). by iApply Hloop.
Qed.
End logged.

(** ** The log is what the run shows *)

(** When a program ends, its log is the list of the calls that [run] reports,
    each with the answer the script had for it. *)
Lemma logged_run {A} (c : co A) script log m a m' rest :
  (run script c m).1 = Done a m' rest ->
  exists used, script = used ++ rest /\ length used = length (run script c m).2 /\
    (run script (logged c log) m).1 = Done (a, log ++ zip (run script c m).2 used) m' rest.
Proof.
  revert script log m. induction c as [b|X p k IH|e k IH|k IH|]; intros script log m; cbn [logged run].
  - intros [= -> -> ->]. exists []. by rw app_nil_r.
  - destruct (p m) as [[x m1]|e]; [|done]. apply IH.
  - destruct script as [|w script]; [done|]. destruct (valid e w m); [|done].
    destruct (effect e w m) as [m1|e1]; [|done]. intros Hr.
    destruct (IH w script (log ++ [(e, w)]) m1) as (used & -> & Hlen & Hl).
    { by destruct (run script (k w) m1). }
    exists (w :: used). destruct (run (used ++ rest) (k w) m1) as [o tr].
    destruct (run (used ++ rest) (logged (k w) (log ++ [(e, w)])) m1) as [o' tr']. cbn in *.
    rw Hl -app_assoc Hlen. by split_and!.
  - apply IH.
  - done.
Qed.
