(* ===== verification/World.v ===== *)
(** * World: programs whose calls have a memory of their own

    The answers of a call may depend on the calls before it: a completion is
    reported for a packet that was associated and not cancelled.  A world [w]
    is what the kernel remembers; [wvalid w e a] says that [a] is a documented
    answer of [e] then, and [wstep w e a] is the world after it.  [within w c]
    is the program [c] started in the world [w]: where an answer is none of the
    documented ones it stops, and it returns the world it ends in.  Theorems
    about such programs are triples of [within]. *)

From S2P Require Import Prelude.
From S2P Require Import Sep.
From S2P Require Import Env.
From S2P Require Import EnvLogic.
From S2P Require Import Trace.

Section world.
Context {W : Type} (wvalid : W -> ext -> answer -> bool) (wstep : W -> ext -> answer -> W).

Fixpoint within {A} (w : W) (c : co A) : co (A * W) :=
  match c with
  | Ret x => Ret (x, w)
  | Act m k => Act m (fun x => within w (k x))
  | Ext e k => Ext e (fun a => if wvalid w e a then within (wstep w e a) (k a) else Stop)
  | Fuel k => Fuel (fun n => within w (k n))
  | Stop => Stop
  end.

(** Calls that the world does not remember. *)
Definition neutral_call (e : ext) : Prop := forall w a, wstep w e a = w.

Section rules.
Context (Y : Z -> heapProp -> heapProp) `{!YieldMono Y}.

Lemma cwp_within_bind {A B} (c : co A) (k : A -> co B) w Q :
  cwp Y (within w c) (fun xw => cwp Y (within xw.2 (k xw.1)) Q) ⊢ cwp Y (within w (co_bind c k)) Q.
Proof.
  revert w. induction c as [a|X m f IH|e f IH|f IH|]; intros w; cbn [within cwp co_bind fst snd].
  - done.
  - iIntros "H". iApply wp_wand. iSplitL "H"; [iExact "H"|]. iIntros (x) "H". by iApply IH.
  - assert (forall a, cwp Y (if wvalid w e a then within (wstep w e a) (f a) else Stop)
        (fun xw => cwp Y (within xw.2 (k xw.1)) Q)
      ⊢ cwp Y (if wvalid w e a then within (wstep w e a) (co_bind (f a) k) else Stop) Q) as Hstep.
    { intros a. destruct (wvalid w e a); [apply IH|done]. }
    destruct e; try (apply ext_wp_mono; intros a; apply Hstep).
    apply yield_mono'. iIntros "H" (a). iApply Hstep. iApply "H".
  - iIntros "H" (n). iApply IH. iApply "H".
  - done.
Qed.

Lemma cwp_within_call {A B} (c : co A) (k : A -> co B) w Q1 Q :
  cwp Y (within w c) Q1 ∗ (∀ x w', Q1 (x, w') -∗ cwp Y (within w' (k x)) Q)
  ⊢ cwp Y (within w (co_bind c k)) Q.
Proof.
  iIntros "[H K]". iApply cwp_within_bind. iApply cwp_wand. iFrame "H". iIntros ([x v]). iApply "K".
Qed.

(** A program whose calls are not remembered. *)
Lemma cwp_within_neutral {A} (c : co A) w Q :
  calls_only neutral_call c ->
  cwp Y c Q ⊢ cwp Y (within w c) (fun xw => ⌞xw.2 = w⌟ ∗ Q xw.1).
Proof.
  induction c as [a|X m f IH|e f IH|f IH|]; intros Hc; cbn [within cwp fst snd] in *.
  - iIntros "$". done.
  - iIntros "H". iApply wp_wand. iSplitL "H"; [iExact "H"|]. iIntros (x) "H". by iApply IH.
  - destruct Hc as [He Hc].
    assert (forall a, cwp Y (f a) Q ⊢
      cwp Y (if wvalid w e a then within (wstep w e a) (f a) else Stop)
            (fun xw => ⌞xw.2 = w⌟ ∗ Q xw.1)) as Hstep.
    { intros a. rw (He w a). destruct (wvalid w e a); [by apply IH|by iIntros "_"]. }
    destruct e; try (apply ext_wp_mono; intros a; apply Hstep).
    apply yield_mono'. iIntros "H" (a). iApply Hstep. iApply "H".
  - iIntros "H" (n). iApply IH; [apply Hc|]. iApply "H".
  - done.
Qed.

(** ... within a larger program. *)
Lemma cwp_within_plain {A B} (c : co A) (k : A -> co B) w Q1 Q :
  calls_only neutral_call c ->
  cwp Y c Q1 ∗ (∀ x, Q1 x -∗ cwp Y (within w (k x)) Q) ⊢ cwp Y (within w (co_bind c k)) Q.
Proof.
  intros Hc. iIntros "[H K]". iApply cwp_within_call. iSplitL "H"; [by iApply cwp_within_neutral|].
  iIntros (x w') "[%Hw H]". cbn [fst snd] in *. subst w'. by iApply "K".
Qed.

(** A call whose output lands in local variables. *)
Lemma cwp_within_query {A} f args n (k : answer -> co A) w Q :
  (∀ a, ⌜wvalid w (Query f args n) a = true⌝ →
     cwp Y (within (wstep w (Query f args n) a) (k a)) Q)
  ⊢ cwp Y (within w (Ext (Query f args n) k)) Q.
Proof.
  cbn [within cwp]. iIntros "H". iApply ext_wp_query. iIntros (a _).
  destruct (wvalid w (Query f args n) a) eqn:E; [by iApply "H"|]. cbn [cwp]. done.
Qed.

Lemma cwp_within_sys {B} f args (k : Z -> co B) w Q :
  (∀ a, ⌜wvalid w (Query f args 0) a = true⌝ →
     cwp Y (within (wstep w (Query f args 0) a) (k (a_ret a))) Q)
  ⊢ cwp Y (within w (co_bind (sys f args) k)) Q.
Proof. apply cwp_within_query. Qed.

(** ... and is not remembered. *)
Lemma cwp_within_sys_any {B} f args (k : Z -> co B) w Q :
  neutral_call (Query f args 0) ->
  (∀ r, cwp Y (within w (k r)) Q) ⊢ cwp Y (within w (co_bind (sys f args) k)) Q.
Proof.
  intros Hn. iIntros "H". iApply cwp_within_sys. iIntros (a _). rw (Hn w a). iApply "H".
Qed.

Lemma cwp_within_loop_S {X R} stop n (body : X -> co (X + R)) x w Q :
  cwp Y (within w (body x)) (fun rw =>
    match rw.1 with
    | inl x' => cwp Y (within rw.2 (co_loop stop n body x')) Q
    | inr v => Q (v, rw.2)
    end) ⊢ cwp Y (within w (co_loop stop (S n) body x)) Q.
Proof.
  simpl. iIntros "H". iApply cwp_within_bind. iApply cwp_wand. iFrame.
  iIntros ([[x'|v] v']) "H"; done.
Qed.

Lemma cwp_within_while {X R} (body : X -> co (X + R)) (Inv : X -> W -> heapProp) x w Q :
  (forall x w, Inv x w ⊢ cwp Y (within w (body x)) (fun rw =>
     match rw.1 with inl x' => Inv x' rw.2 | inr v => Q (v, rw.2) end)) ->
  Inv x w ⊢ cwp Y (within w (co_while body x)) Q.
Proof.
  intros Hbody.
  assert (forall n x w, Inv x w ⊢ cwp Y (within w (co_loop Stop n body x)) Q) as Hloop.
  { intros n. induction n as [|n IH]; intros y v; [by iIntros "_"|].
    iIntros "H". iApply cwp_within_loop_S. iApply cwp_wand. iSplitL "H"; [by iApply Hbody|].
    iIntros ([[y'|r] v']) "H"; [by iApply IH|done]. }
  unfold co_while. cbn [within cwp]. iIntros "H" (n). by iApply Hloop.
Qed.

Lemma cwp_within_chase {X R} n (body : X -> co (X + R)) x w Q :
  heap_ge n ∧ (∀ k, ⌜(n < k)%nat⌝ → cwp Y (within w (co_loop (act (fail OutOfFuel)) k body x)) Q)
  ⊢ cwp Y (within w (co_chase body x)) Q.
Proof. iIntros "H". unfold co_chase. cbn [within cwp]. by iApply wp_mem_bound. Qed.
End rules.
End world.
