(* ===== verification/Threads.v ===== *)
(** * Threads: programs that run at the same time

    A configuration has the programs of its threads, one memory, and a world
    that remembers what was sent between them.  One action or one call of one
    thread is a step; the world says which answers a call can get, and what it
    remembers of it.  [twp] extends the weakest precondition of [EnvLogic] with
    an invariant that owns the memory in flight between threads, and
    [threads_ok] is its soundness: no interleaving faults. *)

From S2P Require Import Prelude.
From S2P Require Import Sep.
From S2P Require Import Env.
From S2P Require Import EnvLogic.
From S2P Require Import Trace.

Section threads.
Context {W : Type} (wvalid : W -> ext -> answer -> Prop) (wstep : W -> ext -> answer -> W).

Record config : Type := Config { cf_threads : list (co Z); cf_mem : mem; cf_world : W }.

Inductive tstep : config -> config -> Prop :=
| step_act ts i X (c : M X) k x m m' w :
    ts !! i = Some (Act c k) -> c m = Ok (x, m') ->
    tstep (Config ts m w) (Config (<[i := k x]> ts) m' w)
| step_ext ts i e k a m m' w :
    ts !! i = Some (Ext e k) -> valid e a m = true -> wvalid w e a -> effect e a m = Ok m' ->
    tstep (Config ts m w) (Config (<[i := k a]> ts) m' (wstep w e a))
| step_fuel ts i k n m w :
    ts !! i = Some (Fuel k) ->
    tstep (Config ts m w) (Config (<[i := k n]> ts) m w).

(** Some thread's next step faults. *)
Inductive faulty : config -> Prop :=
| faulty_act ts i X (c : M X) k f m w :
    ts !! i = Some (Act c k) -> c m = Err f -> faulty (Config ts m w)
| faulty_ext ts i e k a f m w :
    ts !! i = Some (Ext e k) -> valid e a m = true -> wvalid w e a -> effect e a m = Err f ->
    faulty (Config ts m w).

(** Nothing reachable faults, and thread [i] only ends with a result that
    satisfies the [i]th predicate. *)
Definition run_ok (ts : list (co Z)) (posts : list (Z -> Prop)) (w : W) : heapProp :=
  {| heapProp_holds m := forall C, rtc tstep (Config ts m w) C ->
       ~ faulty C /\
       forall i r post, cf_threads C !! i = Some (Ret r) -> posts !! i = Some post -> post r |}.

(** ** The logic *)

Section logic.
Context (Inv : W -> heapProp).

(** An action or a call takes the invariant of the world and gives it back. *)
Definition text_wp (e : ext) (Φ : answer -> heapProp) : heapProp :=
  (∀ w, Inv w -∗ ext_wp e (fun a => ⌜wvalid w e a⌝ → Inv (wstep w e a) ∗ Φ a))%I.

Fixpoint twp {A} (c : co A) (Q : A -> heapProp) : heapProp :=
  match c with
  | Ret a => Q a
  | Act c k => ∀ w, Inv w -∗ wp c (fun x => Inv w ∗ twp (k x) Q)
  | Ext e k => text_wp e (fun a => twp (k a) Q)
  | Fuel k => ∀ n, twp (k n) Q
  | Stop => True
  end%I.

Lemma text_wp_wand e Φ Ψ : text_wp e Φ ∗ (∀ a, Φ a -∗ Ψ a) ⊢ text_wp e Ψ.
Proof.
  iIntros "[H K]" (w) "Hw". iDestruct ("H" with "Hw") as "H". iApply ext_wp_wand. iFrame "H".
  iIntros (a) "H %Hv". iDestruct ("H" with "[//]") as "[$ H]". by iApply "K".
Qed.

Lemma text_wp_mono e Φ Ψ : (forall a, Φ a ⊢ Ψ a) -> text_wp e Φ ⊢ text_wp e Ψ.
Proof. intros H. iIntros "H". iApply text_wp_wand. iFrame. iIntros (a) "Ha". by iApply H. Qed.

Lemma twp_wand {A} (c : co A) Q1 Q2 : twp c Q1 ∗ (∀ x, Q1 x -∗ Q2 x) ⊢ twp c Q2.
Proof.
  induction c as [a|X c k IH|e k IH|k IH|]; cbn [twp].
  - iIntros "[H K]". by iApply "K".
  - iIntros "[H K]" (w) "Hw". iApply wp_wand. iSplitL "H Hw"; [by iApply "H"|]. iIntros (x) "[$ H]".
    iApply IH. iFrame.
  - iIntros "[H K]". iApply text_wp_wand. iSplitL "H"; [iExact "H"|]. iIntros (a) "H". iApply IH. iFrame.
  - iIntros "[H K]" (n). iApply IH. iSplitL "H"; [iApply "H"|iExact "K"].
  - by iIntros "_".
Qed.

Lemma twp_bind {A B} (c : co A) (k : A -> co B) Q :
  twp c (fun x => twp (k x) Q) ⊢ twp (co_bind c k) Q.
Proof.
  induction c as [a|X c f IH|e f IH|f IH|]; cbn [twp co_bind].
  - done.
  - iIntros "H" (w) "Hw". iApply wp_wand. iSplitL; [by iApply "H"|]. iIntros (x) "[$ H]". by iApply IH.
  - apply text_wp_mono. intros a. apply IH.
  - iIntros "H" (n). iApply IH. iApply "H".
  - done.
Qed.

Lemma twp_ret {A} (x : A) Q : Q x ⊢ twp (Ret x) Q.
Proof. done. Qed.

Lemma twp_ext {A} e (k : answer -> co A) Q : text_wp e (fun a => twp (k a) Q) ⊢ twp (Ext e k) Q.
Proof. done. Qed.

(** An action on the thread's own cells. *)
Lemma twp_act {A X} (c : M X) (k : X -> co A) Q : wp c (fun x => twp (k x) Q) ⊢ twp (Act c k) Q.
Proof.
  cbn [twp]. iIntros "H" (w) "Hw". iApply wp_wand. iSplitL "H"; [iExact "H"|]. iIntros (x) "$". iExact "Hw".
Qed.

(** A cell that stays in the invariant. *)
Lemma twp_load_shared {A} a v (k : Z -> co A) Q :
  (forall w, Inv w ⊢ a ↦ v ∗ (a ↦ v -∗ Inv w)) -> twp (k v) Q ⊢ twp (Act (load a) k) Q.
Proof.
  intros Ha. cbn [twp]. iIntros "H" (w) "Hw". iDestruct (Ha with "Hw") as "[Hc Hw]".
  iApply wp_load. iFrame "Hc". iIntros "Hc". iSplitR "H"; [by iApply "Hw"|iExact "H"].
Qed.

Lemma twp_call {A B} (c : co A) (k : A -> co B) Q1 Q :
  twp c Q1 ∗ (∀ x, Q1 x -∗ twp (k x) Q) ⊢ twp (co_bind c k) Q.
Proof. iIntros "H". iApply twp_bind. by iApply twp_wand. Qed.

Lemma twp_loop {X R} (body : X -> co (X + R)) (I : X -> heapProp) n x Q :
  (forall x, I x ⊢ twp (body x) (fun r => match r with inl x' => I x' | inr v => Q v end)) ->
  I x ⊢ twp (co_loop Stop n body x) Q.
Proof.
  intros Hb. revert x. induction n as [|n IH]; intros x; [by iIntros "_"|].
  simpl. iIntros "H". iApply twp_call. iSplitL; [by iApply Hb|].
  iIntros ([y|v]) "H"; [by iApply IH|done].
Qed.

Lemma twp_while {X R} (body : X -> co (X + R)) (I : X -> heapProp) x Q :
  (forall x, I x ⊢ twp (body x) (fun r => match r with inl x' => I x' | inr v => Q v end)) ->
  I x ⊢ twp (co_while body x) Q.
Proof. intros Hb. unfold co_while. cbn [twp]. iIntros "H" (n). by iApply twp_loop. Qed.

Lemma twp_for {A} (l : list A) body (I : heapProp) :
  (forall x, x ∈ l -> I ⊢ twp (body x) (fun _ => I)) -> I ⊢ twp (co_for l body) (fun _ => I).
Proof.
  induction l as [|x l IH]; intros Hb; cbn [co_for twp]; [done|].
  iIntros "H". iApply twp_call. iSplitL; [iApply (Hb x with "H"); by constructor|].
  iIntros (_) "H". iApply (IH with "H"). intros y Hy. apply Hb. by constructor.
Qed.

(** Calls that the world does not remember, whatever it is. *)
Definition neutral (e : ext) : Prop := forall w a, wstep w e a = w.

Lemma text_wp_neutral e Φ : neutral e -> ext_wp e Φ ⊢ text_wp e Φ.
Proof.
  intros Hn. iIntros "H" (w) "Hw". iApply ext_wp_wand. iFrame "H". iIntros (a) "H %Hv".
  rw (Hn w a). iFrame.
Qed.

(** A call whose answer concerns the thread alone. *)
Lemma twp_query_any {A} f args n (k : answer -> co A) Q :
  neutral (Query f args n) -> (∀ x, twp (k x) Q) ⊢ twp (Ext (Query f args n) k) Q.
Proof.
  intros Hn. cbn [twp]. rw -text_wp_neutral //. iIntros "H". iApply ext_wp_query. iIntros (x _). iApply "H".
Qed.

Lemma text_wp_query f args n Φ :
  (∀ w x, ⌜wvalid w (Query f args n) x⌝ → Inv w -∗ Inv (wstep w (Query f args n) x) ∗ Φ x)
  ⊢ text_wp (Query f args n) Φ.
Proof.
  iIntros "H" (w) "Hw". iApply ext_wp_query. iIntros (x _ Hv). by iApply ("H" with "[//] Hw").
Qed.

Lemma ext_wp_yield t (Φ : answer -> heapProp) : (∀ a, Φ a) ⊢ ext_wp (Yield t) Φ.
Proof. constructor. intros h H hf a Hd _. exists h. split_and!; [done|done|exact (H a)]. Qed.

(** A program of one thread, whose calls do not concern the others. *)
Lemma twp_of_cwp {A} (c : co A) Q : calls_only neutral c -> cwp yield_id c Q ⊢ twp c Q.
Proof.
  induction c as [a|X c k IH|e k IH|k IH|]; intros Hc; cbn [twp cwp calls_only] in *.
  - done.
  - iIntros "H" (w) "Hw". iApply wp_wand. iSplitL "H"; [iExact "H"|]. iIntros (x) "H".
    iFrame "Hw". by iApply IH.
  - destruct Hc as [He Hc]. rw -(text_wp_neutral e); [|done]. destruct e;
      try (apply ext_wp_mono; intros a; by apply IH).
    rw -ext_wp_yield. iIntros "H" (a). iApply IH; [done|]. iApply "H".
  - iIntros "H" (n). iApply IH; [apply Hc|]. iApply "H".
  - done.
Qed.

(** ** Soundness *)

Definition all_threads (ts : list (co Z)) (Qs : list (Z -> heapProp)) (w : W) : heapProp :=
  (Inv w ∗ [∗ list] t;Q ∈ ts;Qs, twp t Q)%I.

(** One thread, and the configuration with another in its place. *)
Lemma thread_acc ts Qs w i t :
  ts !! i = Some t -> all_threads ts Qs w ⊢ ∃ Q, ⌜Qs !! i = Some Q⌝ ∧ (Inv w ∗ twp t Q ∗
    (∀ t' w', Inv w' -∗ twp t' Q -∗ all_threads (<[i := t']> ts) Qs w')).
Proof.
  intros Ht. iIntros "[Hw Hts]". iDestruct (big_sepL2_length with "Hts") as %Hlen.
  destruct (lookup_lt_is_Some_2 Qs i) as [Q HQ].
  { rw -Hlen. by apply lookup_lt_is_Some_1; exists t. }
  iExists Q. iSplit; [done|]. iFrame "Hw".
  iDestruct (big_sepL2_insert_acc _ _ _ _ _ _ Ht HQ with "Hts") as "[$ Hts]".
  iIntros (t' w') "$ Ht". iDestruct ("Hts" with "Ht") as "Hts". by rw (list_insert_id Qs).
Qed.

Lemma thread_holds ts Qs w i t m :
  ts !! i = Some t -> all_threads ts Qs w m -> exists Q, Qs !! i = Some Q /\
    heapProp_holds (Inv w ∗ twp t Q ∗
      (∀ t' w', Inv w' -∗ twp t' Q -∗ all_threads (<[i := t']> ts) Qs w'))%I m.
Proof. intros Ht H. apply (heapProp_in_entails _ _ (thread_acc ts Qs w i t Ht)) in H. done. Qed.

Lemma act_holds ts Qs w i X (c : M X) k m :
  ts !! i = Some (Act c k) -> all_threads ts Qs w m ->
  exists x m', c m = Ok (x, m') /\ all_threads (<[i := k x]> ts) Qs w m'.
Proof.
  intros Ht H. destruct (thread_holds _ _ _ _ _ _ Ht H) as (Q & _ & HQ).
  eapply wp_adequate; [|exact HQ]. cbn [twp]. iIntros "(Hw & H & Hk)". iApply wp_wand.
  iSplitL "Hw H"; [by iApply "H"|]. iIntros (x) "[Hw H]". iApply ("Hk" with "Hw H").
Qed.

Lemma ext_holds ts Qs w i e k a m :
  ts !! i = Some (Ext e k) -> all_threads ts Qs w m -> valid e a m = true -> wvalid w e a ->
  exists m', effect e a m = Ok m' /\ all_threads (<[i := k a]> ts) Qs (wstep w e a) m'.
Proof.
  intros Ht H Hv Hw. destruct (thread_holds _ _ _ _ _ _ Ht H) as (Q & _ & HQ).
  assert (Inv w ∗ twp (Ext e k) Q ∗
      (∀ t' w', Inv w' -∗ twp t' Q -∗ all_threads (<[i := t']> ts) Qs w') ⊢
    ext_wp e (fun a => ⌜wvalid w e a⌝ → all_threads (<[i := k a]> ts) Qs (wstep w e a))) as HE.
  { cbn [twp]. iIntros "(Hw & H & Hk)". iApply ext_wp_wand. iSplitR "Hk"; [iApply ("H" with "Hw")|].
    iIntros (b) "H %Hb". iDestruct ("H" with "[//]") as "[Hw H]". iApply ("Hk" with "Hw H"). }
  apply (heapProp_in_entails _ _ HE) in HQ. destruct (HQ ∅ a) as (m' & He & _ & Hm').
  - apply map_disjoint_empty_r.
  - by rw right_id_L.
  - rw !right_id_L in He. exists m'. split; [done|]. by apply Hm'.
Qed.

Lemma fuel_holds ts Qs w i k n m :
  ts !! i = Some (Fuel k) -> all_threads ts Qs w m -> all_threads (<[i := k n]> ts) Qs w m.
Proof.
  intros Ht H. destruct (thread_holds _ _ _ _ _ _ Ht H) as (Q & _ & HQ).
  refine (heapProp_in_entails _ _ _ m HQ). cbn [twp]. iIntros "(Hw & H & Hk)".
  iApply ("Hk" with "Hw"). iApply "H".
Qed.

Lemma tstep_holds C C' Qs :
  tstep C C' -> all_threads (cf_threads C) Qs (cf_world C) (cf_mem C) ->
  all_threads (cf_threads C') Qs (cf_world C') (cf_mem C').
Proof.
  intros Hs H. destruct Hs as [ts i X c k x m m' w Ht Hc|ts i e k a m m' w Ht Hv Hw He|ts i k n m w Ht];
    cbn in *.
  - destruct (act_holds _ _ _ _ _ _ _ _ Ht H) as (y & m1 & Hc' & Hn). congruence.
  - destruct (ext_holds _ _ _ _ _ _ _ _ Ht H Hv Hw) as (m1 & He' & Hn). congruence.
  - by apply fuel_holds.
Qed.

Lemma reachable_holds ts Qs w m C :
  all_threads ts Qs w m -> rtc tstep (Config ts m w) C ->
  all_threads (cf_threads C) Qs (cf_world C) (cf_mem C).
Proof.
  intros Hm HC. change (all_threads (cf_threads (Config ts m w)) Qs (cf_world (Config ts m w))
    (cf_mem (Config ts m w))) in Hm.
  induction HC as [C|C1 C2 C3 H12 _ IH]; [done|]. apply IH. by apply (tstep_holds _ _ _ H12).
Qed.

Lemma holds_not_faulty C Qs :
  all_threads (cf_threads C) Qs (cf_world C) (cf_mem C) -> ~ faulty C.
Proof.
  intros H Hf. destruct Hf as [ts i X c k f m w Ht Hc|ts i e k a f m w Ht Hv Hw He]; cbn in H.
  - destruct (act_holds _ _ _ _ _ _ _ _ Ht H) as (y & m1 & Hc' & _). congruence.
  - destruct (ext_holds _ _ _ _ _ _ _ _ Ht H Hv Hw) as (m1 & He' & _). congruence.
Qed.

(** Threads proved against the invariant run together without a fault, in any
    order, and end as their postconditions say. *)
Theorem threads_sound ts Qs posts w :
  length posts = length Qs ->
  (forall i Q post, Qs !! i = Some Q -> posts !! i = Some post -> forall r, Q r ⊢ ⌜post r⌝) ->
  all_threads ts Qs w ⊢ run_ok ts posts w.
Proof.
  intros Hlen Hposts. constructor. intros m Hm C HC. pose proof (reachable_holds _ _ _ _ _ Hm HC) as H.
  split; [by apply (holds_not_faulty C Qs)|].
  intros i r post Hr Hp. destruct (thread_holds _ _ _ _ _ _ Hr H) as (Q & HQ & Hh).
  assert (Inv (cf_world C) ∗ twp (Ret r) Q ∗
    (∀ t' w', Inv w' -∗ twp t' Q -∗ all_threads (<[i := t']> (cf_threads C)) Qs w') ⊢ ⌜post r⌝) as HE.
  { cbn [twp]. iIntros "(_ & H & _)". by iApply (Hposts i Q post). }
  exact (heapProp_in_entails _ _ HE _ Hh).
Qed.
End logic.

(** ** One thread alone *)

(** Nothing reachable faults, and when the program ends its memory, all of it,
    is as [Q] says. *)
Definition solo_ok (c : co Z) (Q : Z -> heapProp) (w : W) : heapProp :=
  {| heapProp_holds m := forall C, rtc tstep (Config [c] m w) C ->
       ~ faulty C /\ forall r, cf_threads C = [Ret r] -> Q r (cf_mem C) |}.

Theorem solo_sound c Q w : twp (fun _ => emp)%I c Q ⊢ solo_ok c Q w.
Proof.
  constructor. intros m Hm C HC.
  assert (all_threads (fun _ => emp)%I [c] [Q] w m) as H.
  { assert (twp (fun _ => emp)%I c Q ⊢ all_threads (fun _ => emp)%I [c] [Q] w) as [HE]; [|by apply HE].
    unfold all_threads. iIntros "H". iSplitR; [done|]. cbn [big_sepL2]. by iFrame. }
  pose proof (reachable_holds _ _ _ _ _ _ H HC) as Hr. split; [by apply (holds_not_faulty (fun _ => emp)%I C [Q])|].
  intros r Hret. rw Hret in Hr.
  assert (all_threads (fun _ => emp)%I [Ret r] [Q] (cf_world C) ⊢ Q r) as [HE]; [|by apply HE].
  unfold all_threads. cbn [big_sepL2 twp]. by iIntros "(_ & H & _)".
Qed.
End threads.

(** Steps on a thread's own cells and the ends of branches. *)
Ltac t_norm := cbn [co_bind call sys act co_when negb].
Ltac t_load := iApply twp_act; wp_load; t_norm.
Ltac t_store := iApply twp_act; wp_store; t_norm.
Ltac t_run := t_norm; repeat first [t_load | t_store].
