(* ===== verification/Bytes.v ===== *)
(** * Bytes: memory areas with known contents

    The contents of a buffer as a list, the blocks of the C library with their
    contents, and the rule of [realloc]. *)

From S2P Require Import Prelude.
From S2P Require Import Sep.
From S2P Require Import Env.
From S2P Require Import EnvLogic.

(** ** Buffers and their contents *)

Fixpoint bytes (a : Z) (vs : list Z) : heapProp :=
  match vs with
  | [] => emp%I
  | v :: vs => (a ↦ v ∗ bytes (a + 1) vs)%I
  end.

Lemma bytes_app a vs ws :
  bytes a (vs ++ ws) ⊣⊢ bytes a vs ∗ bytes (a + Z.of_nat (length vs)) ws.
Proof.
  revert a. induction vs as [|v vs IH]; intros a; simpl.
  - by rw Z.add_0_r left_id.
  - rw IH assoc. do 2 f_equiv. lia.
Qed.

(** The first [n] bytes of a buffer, and the rest. *)
Lemma bytes_split n a vs :
  (n <= length vs)%nat -> bytes a vs ⊣⊢ bytes a (take n vs) ∗ bytes (a + Z.of_nat n) (drop n vs).
Proof. intros Hn. rw -{1}(take_drop n vs) bytes_app length_take_le //. Qed.

Lemma bytes_cells a vs : bytes a vs ⊢ cells (zrange a (Z.of_nat (length vs))).
Proof.
  revert a. induction vs as [|v vs IH]; intros a.
  - exact (reflexivity _).
  - unfold zrange. rw seqZ_cons; [|simpl; lia]. cbn [bytes length].
    replace (Z.pred (Z.of_nat (S (length vs)))) with (Z.of_nat (length vs)) by lia.
    iIntros "[Ha H]". iSplitL "Ha"; [by iExists v|]. by iApply IH.
Qed.

Lemma zrange_split a n m : 0 <= n -> 0 <= m -> zrange a (n + m) = zrange a n ++ zrange (a + n) m.
Proof. intros Hn Hm. unfold zrange. by rw seqZ_app. Qed.

(** Bytes are cells with values. *)
Lemma bytes_cells_with a vs : bytes a vs ⊣⊢ cells_with (zrange a (Z.of_nat (length vs))) vs.
Proof.
  revert a. induction vs as [|v vs IH]; intros a; [done|].
  unfold zrange. rw seqZ_cons; [|simpl; lia]. cbn [bytes length].
  replace (Z.pred (Z.of_nat (S (length vs)))) with (Z.of_nat (length vs)) by lia.
  unfold cells_with. rw big_sepL2_cons. f_equiv. apply IH.
Qed.

Lemma cells_values l : cells l ⊢ ∃ vs, cells_with l vs ∗ ⌞length vs = length l⌟.
Proof.
  induction l as [|a l IH]; [iIntros "_"; iExists []; iSplitR; [by iApply big_sepL2_nil|done]|].
  iIntros "[[%v Ha] Hl]". iDestruct (IH with "Hl") as "(%vs & Hl & %Hlen)".
  iExists (v :: vs). unfold cells_with. rw big_sepL2_cons. iFrame. iPureIntro. simpl. lia.
Qed.

Lemma cells_bytes a n : cells (zrange a (Z.of_nat n)) ⊢ ∃ vs, bytes a vs ∗ ⌞length vs = n⌟.
Proof.
  iIntros "H". iDestruct (cells_values with "H") as "(%vs & H & %Hl)". unfold zrange in Hl.
  rw length_seqZ Nat2Z.id in Hl. iExists vs. rw bytes_cells_with Hl. by iFrame.
Qed.

(** ** Heaps of a list of cells *)

(** The heap that [bytes] describes. *)
Lemma bytes_holds a v vs h :
  bytes a (v :: vs) h -> exists h2, h = {[ a := v ]} ∪ h2 /\ {[ a := v ]} ##ₘ h2 /\ bytes (a + 1) vs h2.
Proof. intros (h1 & h2 & -> & Hd & Hv & H2). change (h1 = {[ a := v ]}) in Hv. subst h1. by exists h2. Qed.

Lemma bytes_read a vs h m :
  bytes a vs h -> read_cells (zrange a (Z.of_nat (length vs))) (h ∪ m) = vs.
Proof.
  revert a h m. induction vs as [|v vs IH]; intros a h m H; [done|].
  apply bytes_holds in H as (h2 & -> & Hd & H2). unfold zrange. rw seqZ_cons; [|simpl; lia].
  unfold read_cells. cbn [map length]. f_equal.
  - rw -assoc_L lookup_union lookup_singleton_eq union_Some_l //.
  - replace (Z.pred (Z.of_nat (S (length vs)))) with (Z.of_nat (length vs)) by lia.
    rw (map_union_comm _ h2) // -assoc_L. by apply IH.
Qed.

Lemma put_cells_bytes a n vs m :
  unallocated (zrange a (Z.of_nat n)) m = true ->
  exists h, put_cells (zrange a (Z.of_nat n)) vs m = h ∪ m /\ h ##ₘ m /\
    bytes a (resize n 0 vs) h.
Proof.
  revert a vs m. induction n as [|n IH]; intros a vs m Hun.
  { exists ∅. split_and!; [by rw left_id_L|apply map_disjoint_empty_l|by destruct vs]. }
  unfold zrange in *. rw seqZ_cons in Hun |- *; [|lia]. cbn [put_cells] in *.
  unfold unallocated in Hun. cbn [forallb] in Hun.
  apply andb_true_iff in Hun as [Hma%bool_decide_eq_true Hun].
  replace (Z.pred (Z.of_nat (S n))) with (Z.of_nat n) in * by lia.
  set (v := default 0 (head vs)).
  destruct (IH (Z.succ a) (tail vs) (<[a:=v]> m)) as (h & Hput & Hd & Hc).
  { unfold unallocated in *. rw !forallb_forall. rw forallb_forall in Hun.
    intros b Hb. specialize (Hun b Hb). apply bool_decide_eq_true in Hun.
    apply bool_decide_eq_true. rw lookup_insert_ne //. intros <-.
    apply list_elem_of_In, elem_of_seqZ in Hb. lia. }
  apply map_disjoint_insert_r in Hd as [Hha Hd].
  assert ({[a := v]} ##ₘ h) as Hdh by by apply map_disjoint_singleton_l.
  exists ({[a := v]} ∪ h). split_and!.
  - rw Hput insert_union_singleton_l assoc_L (map_union_comm h) //.
  - apply map_disjoint_union_l_2; [by apply map_disjoint_singleton_l|done].
  - assert (resize (S n) 0 vs = v :: resize n 0 (tail vs)) as -> by (destruct vs; [by rw !resize_nil|done]).
    exists {[ a := v ]}, h. split_and!; [done|done|done|]. done.
Qed.

(** ** Blocks with contents *)

Definition block_with (p : Z) (vs : list Z) : heapProp :=
  (⌞0 < p /\ p mod 16 = 0⌟ ∗ libc_header p ↦ Z.of_nat (length vs) ∗ bytes p vs)%I.

Lemma block_with_mblock p vs : block_with p vs ⊢ mblock p (Z.of_nat (length vs)).
Proof. iIntros "($ & $ & H)". by iApply bytes_cells. Qed.

(** A fresh block, its first bytes known. *)
Lemma do_malloc_bytes q n vs m :
  q <> 0 -> alloc_answer q (Z.of_nat n) m = true ->
  exists h, do_malloc q (Z.of_nat n) vs m = h ∪ m /\ h ##ₘ m /\ block_with q (resize n 0 vs) h.
Proof.
  intros Hq Hv. unfold alloc_answer, do_malloc in *. rw (proj2 (Z.eqb_neq q 0) Hq) in Hv |- *.
  apply andb_true_iff in Hv as [Hv Hun]. apply andb_true_iff in Hv as [Hpos%Z.ltb_lt Hal%Z.eqb_eq].
  unfold unallocated, block_cells in Hun. cbn [forallb] in Hun.
  apply andb_true_iff in Hun as [Hh%bool_decide_eq_true Hun].
  destruct (put_cells_bytes q n vs (<[libc_header q := Z.of_nat n]> m)) as (hb & Hput & Hdb & Hc).
  { apply forallb_forall. intros b Hb. rw forallb_forall in Hun. specialize (Hun b Hb).
    apply bool_decide_eq_true in Hun. apply bool_decide_eq_true. rw lookup_insert_ne //.
    intros <-. apply list_elem_of_In, elem_of_seqZ in Hb. unfold libc_header in Hb. lia. }
  apply map_disjoint_insert_r in Hdb as [Hbh Hdb].
  assert ({[libc_header q := Z.of_nat n]} ##ₘ m) as Hdm by by apply map_disjoint_singleton_l.
  assert (hb ##ₘ ({[libc_header q := Z.of_nat n]} : mem)) as Hdbh by by apply map_disjoint_singleton_r.
  exists (hb ∪ {[libc_header q := Z.of_nat n]}). split_and!.
  - rw Hput insert_union_singleton_l. by rw !assoc_L.
  - by apply map_disjoint_union_l_2.
  - exists ∅, (hb ∪ {[libc_header q := Z.of_nat n]}).
    split_and!; [by rw left_id_L|apply map_disjoint_empty_l|done|].
    rw map_union_comm //. exists {[libc_header q := Z.of_nat n]}, hb. split_and!; [done|done| |done].
    change ({[libc_header q := Z.of_nat n]} = ({[libc_header q := Z.of_nat (length (resize n 0 vs))]} : mem)).
    by rw length_resize.
Qed.

(** Growing a block. *)
Lemma ext_wp_realloc p vs n (Φ : answer -> heapProp) :
  (length vs <= n)%nat -> (0 < n)%nat ->
  block_with p vs ∗
  (∀ a, ((⌞a_ret a = 0⌟ ∗ block_with p vs) ∨
         (∃ ws, ⌞a_ret a <> 0 /\ (length vs + length ws)%nat = n⌟ ∗ block_with (a_ret a) (vs ++ ws))) -∗ Φ a)
  ⊢ ext_wp (Realloc p (Z.of_nat n)) Φ.
Proof.
  intros Hle Hn. constructor. intros h (hb & h2 & -> & Hd & Hb & H) hf a Hdf Hv.
  apply map_disjoint_union_l in Hdf as [Hdfb Hdf2]. rw -assoc_L in Hv |- *.
  assert (hb ##ₘ h2 ∪ hf) as Hdb by by apply map_disjoint_union_r_2.
  pose proof (heapProp_in_entails _ _ (block_with_mblock p vs) hb Hb) as Hmb.
  destruct (do_free_block p _ hb (h2 ∪ hf) Hmb Hdb) as [Hp Hfree].
  cbn [valid effect] in *. rw Hfree in Hv. unfold do_realloc.
  rw (proj2 (Z.eqb_neq (Z.of_nat n) 0)); [|lia].
  destruct (Z.eqb_spec (a_ret a) 0) as [Hz|Hz]; cbn [andb negb].
  { exists (hb ∪ h2). split_and!; [by rw assoc_L|by apply map_disjoint_union_l_2|].
    rw map_union_comm //. apply (H a); [by apply map_disjoint_sym|]. left.
    exists ∅, hb. split_and!; [by rw left_id_L|apply map_disjoint_empty_l|done|done]. }
  rw (proj2 (Z.eqb_neq p 0) Hp).
  destruct (do_malloc_bytes (a_ret a) n (vs ++ a_data a) (h2 ∪ hf) Hz Hv) as (hn & Hput & Hdn & Hbn).
  assert (read_cells (zrange p (Z.min (default 0 ((hb ∪ (h2 ∪ hf)) !! libc_header p)) (Z.of_nat n)))
            (hb ∪ (h2 ∪ hf)) = vs) as ->.
  { destruct Hb as (h0 & hb' & -> & _ & Hp0 & Hb). destruct Hp0 as [-> _]. rw left_id_L.
    destruct Hb as (hh & hc & -> & Hdc & Hh & Hc).
    change (hh = {[libc_header p := Z.of_nat (length vs)]}) in Hh. subst hh.
    assert ((({[libc_header p := Z.of_nat (length vs)]} ∪ hc ∪ (h2 ∪ hf)) : mem) !! libc_header p
            = Some (Z.of_nat (length vs))) as ->.
    { by rw -assoc_L lookup_union lookup_singleton_eq union_Some_l. }
    unfold default, from_option, id. rw Z.min_l; [|lia].
    rw (map_union_comm {[libc_header p := Z.of_nat (length vs)]} hc) // -assoc_L. by apply bytes_read. }
  rw Hfree Hput. apply map_disjoint_union_r in Hdn as [Hdn2 Hdnf].
  exists (hn ∪ h2). split_and!; [by rw assoc_L|by apply map_disjoint_union_l_2|].
  rw map_union_comm //. apply (H a); [by apply map_disjoint_sym|]. right.
  exists (take (n - length vs) (a_data a) ++ replicate (n - length vs - length (a_data a)) 0).
  assert (resize n 0 (vs ++ a_data a) =
          vs ++ take (n - length vs) (a_data a) ++ replicate (n - length vs - length (a_data a)) 0) as <-.
  { rw resize_spec take_app_ge // -assoc_L length_app. do 3 f_equal. lia. }
  exists ∅, hn. split_and!; [by rw left_id_L|apply map_disjoint_empty_l| |done].
  split; [done|]. split; [done|]. rw length_app length_take length_replicate. lia.
Qed.
