(* ===== verification/Dll.v ===== *)
(** * Dll: doubly linked lists

    The list of [src/src/lib/list] ([HevList], used for the list of all tasks)
    and the representation of doubly linked segments, shared with the LRU list
    of the slice allocator, the wait list of conditions and the channel
    lists, which lay out the same two links in their own structs. *)

From S2P Require Import Prelude.
From S2P Require Import Sep.

(** ** [hev-list.h] and [hev-list.c] *)

Definition list_head (self : Z) : Z := self.
Definition list_tail (self : Z) : Z := self + 8.
Definition list_next (node : Z) : Z := node.
Definition list_prev (node : Z) : Z := node + 8.

Definition hev_list_node_prev (node : Z) : M Z := load (list_prev node).
Definition hev_list_node_next (node : Z) : M Z := load (list_next node).
Definition hev_list_first (self : Z) : M Z := load (list_head self).
Definition hev_list_last (self : Z) : M Z := load (list_tail self).

Definition hev_list_add_tail (self new_ : Z) : M unit :=
  tail <- load (list_tail self) ;;
  store (list_prev new_) tail ;;;
  store (list_next new_) NULL ;;;
  tail <- load (list_tail self) ;;
  (if is_true tail then
     tail <- load (list_tail self) ;; store (list_next tail) new_
   else store (list_head self) new_) ;;;
  store (list_tail self) new_.

Definition hev_list_del (self node : Z) : M unit :=
  prev <- load (list_prev node) ;;
  (if is_true prev then
     prev <- load (list_prev node) ;;
     next <- load (list_next node) ;;
     store (list_next prev) next
   else
     next <- load (list_next node) ;;
     store (list_head self) next) ;;;
  next <- load (list_next node) ;;
  (if is_true next then
     next <- load (list_next node) ;;
     prev <- load (list_prev node) ;;
     store (list_prev next) prev
   else
     prev <- load (list_prev node) ;;
     store (list_tail self) prev).

(** ** Doubly linked segments *)

Section dseg.
(** Where the two links of a node are. *)
Context (nx pv : Z -> Z).

(** First and last node of a segment that continues at [n], comes from [p]. *)
Definition hdd (L : list Z) (n : Z) : Z := default n (head L).
Definition lastd (p : Z) (L : list Z) : Z := default p (last L).

Fixpoint dseg (p : Z) (L : list Z) (n : Z) : heapProp :=
  match L with
  | [] => emp
  | x :: L => ⌞x <> NULL⌟ ∗ pv x ↦ p ∗ nx x ↦ hdd L n ∗ dseg x L n
  end%I.

Lemma lastd_cons p x L : lastd p (x :: L) = lastd x L.
Proof. unfold lastd. rw last_cons. by destruct (last L). Qed.

Lemma lastd_snoc p L x : lastd p (L ++ [x]) = x.
Proof. unfold lastd. by rw last_snoc. Qed.

Lemma hdd_app A B n : hdd (A ++ B) n = hdd A (hdd B n).
Proof. by destruct A. Qed.

Lemma lastd_app p A B : lastd p (A ++ B) = lastd (lastd p A) B.
Proof.
  revert p. induction A as [|a A IH]; intros p; [done|].
  simpl. rw !lastd_cons. apply IH.
Qed.

Lemma dseg_app p A B n :
  dseg p (A ++ B) n ⊣⊢ dseg p A (hdd B n) ∗ dseg (lastd p A) B n.
Proof.
  revert p. induction A as [|a A IH]; intros p; simpl.
  { unfold lastd. simpl. by rw left_id. }
  rw hdd_app IH lastd_cons -!assoc //.
Qed.

Lemma dseg_hd_nonnull p L n : L <> [] -> dseg p L n -∗ ⌜hdd L n <> NULL⌝.
Proof. destruct L; [done|]. iIntros (_) "(%H & _)". done. Qed.

Lemma dseg_last_nonnull p L n : L <> [] -> dseg p L n -∗ ⌜lastd p L <> NULL⌝.
Proof.
  destruct L as [|x L _] using rev_ind; [done|]. iIntros (_) "H".
  rw dseg_app lastd_snoc. iDestruct "H" as "[_ (%H & _)]". done.
Qed.

(** Change what the segment continues with, or comes from. *)
Lemma dseg_last_link p L x n :
  dseg p (L ++ [x]) n ⊢
  nx x ↦ n ∗ (∀ n', nx x ↦ n' -∗ dseg p (L ++ [x]) n').
Proof.
  rw dseg_app. iIntros "[H (% & Hp & $ & _)]". iIntros (n') "Hn".
  rw dseg_app. simpl. by iFrame.
Qed.

Lemma dseg_first_link p x L n :
  dseg p (x :: L) n ⊢ pv x ↦ p ∗ (∀ p', pv x ↦ p' -∗ dseg p' (x :: L) n).
Proof. simpl. iIntros "(% & $ & Hn & Hs)". iIntros (p') "Hp". by iFrame. Qed.

(** The cell that points to what follows [A] (the head cell [hc] when [A] is
    empty), and the one that points back to what precedes [B]. *)
Definition plink (hc : Z) (A : list Z) : Z :=
  match last A with None => hc | Some y => nx y end.
Definition qlink (tc : Z) (B : list Z) : Z :=
  match B with [] => tc | y :: _ => pv y end.

(** A head cell and the segment it starts; a tail cell and the one it ends. *)
Definition hseg (hc : Z) (A : list Z) (n : Z) : heapProp :=
  (hc ↦ hdd A n ∗ dseg NULL A n)%I.
Definition tseg (tc : Z) (p : Z) (B : list Z) : heapProp :=
  (tc ↦ lastd p B ∗ dseg p B NULL)%I.

Lemma hseg_open hc A n :
  hseg hc A n ⊢ ⌞A = [] /\ lastd NULL A = NULL /\ plink hc A = hc \/
      lastd NULL A <> NULL /\ plink hc A = nx (lastd NULL A)⌟ ∗
    plink hc A ↦ n ∗ (∀ n', plink hc A ↦ n' -∗ hseg hc A n').
Proof.
  unfold hseg, plink. destruct A as [|y A _] using rev_ind.
  - iIntros "[$ _]". iSplitR; [iPureIntro; by left|]. by iIntros (n') "$".
  - iIntros "[Hc H]". iDestruct (dseg_last_nonnull with "H") as %Hne; [by destruct A|].
    iSplitR; [iPureIntro; right; split; [done|by rw lastd_snoc last_snoc]|]. rw last_snoc.
    iDestruct (dseg_last_link with "H") as "[$ H]". iIntros (n') "Hn".
    iSplitL "Hc"; [destruct A; by iFrame|by iApply "H"].
Qed.

Lemma tseg_open tc p B :
  tseg tc p B ⊢ ⌞B = [] /\ hdd B NULL = NULL /\ qlink tc B = tc \/
      hdd B NULL <> NULL /\ qlink tc B = pv (hdd B NULL)⌟ ∗
    qlink tc B ↦ p ∗ (∀ p', qlink tc B ↦ p' -∗ tseg tc p' B).
Proof.
  unfold tseg, qlink. destruct B as [|y B].
  - iIntros "[$ _]". iSplitR; [iPureIntro; by left|]. by iIntros (p') "$".
  - iIntros "[Hc H]". iDestruct (dseg_hd_nonnull with "H") as %Hne; [done|].
    iSplitR; [iPureIntro; by right|].
    iDestruct (dseg_first_link with "H") as "[$ H]". iIntros (p') "Hp".
    rw !lastd_cons. iFrame "Hc". by iApply "H".
Qed.

(** The whole list, cut anywhere. *)
Definition is_dll (hc tc : Z) (L : list Z) : heapProp :=
  (hc ↦ hdd L NULL ∗ tc ↦ lastd NULL L ∗ dseg NULL L NULL)%I.

Lemma is_dll_app hc tc A B :
  is_dll hc tc (A ++ B) ⊣⊢ hseg hc A (hdd B NULL) ∗ tseg tc (lastd NULL A) B.
Proof.
  unfold is_dll, hseg, tseg. rw hdd_app lastd_app dseg_app.
  iSplit; [iIntros "($ & $ & $ & $)"|iIntros "[[$ $] [$ $]]"].
Qed.

Definition dll_cell (x : Z) : heapProp := (∃ n p, nx x ↦ n ∗ pv x ↦ p)%I.

(** Cut at an element. *)
Lemma is_dll_at hc tc A x B :
  is_dll hc tc (A ++ x :: B) ⊣⊢
  hseg hc A x ∗ (⌞x <> NULL⌟ ∗ pv x ↦ lastd NULL A ∗ nx x ↦ hdd B NULL) ∗ tseg tc x B.
Proof.
  rw is_dll_app. unfold tseg. simpl. rw lastd_cons.
  iSplit; [iIntros "($ & $ & $ & $ & $ & $)"|iIntros "($ & ($ & $ & $) & $ & $)"].
Qed.
End dseg.

(** ** [HevList] *)

Definition is_list (self : Z) (L : list Z) : heapProp :=
  is_dll list_next list_prev (list_head self) (list_tail self) L.

Definition list_cell (node : Z) : heapProp := dll_cell list_next list_prev node.

Lemma is_true_nonnull v : v <> NULL -> is_true v = true.
Proof. apply is_true_spec. Qed.

Lemma wp_list_add_tail self L x :
  x <> NULL ->
  is_list self L ∗ list_cell x ⊢ wp (hev_list_add_tail self x) (fun _ => is_list self (L ++ [x])).
Proof.
  iIntros (Hx) "[HL (%n & %p & Hn & Hp)]". unfold hev_list_add_tail, is_list.
  iDestruct "HL" as "(Hh & Ht & Hs)".
  iAssert (hseg list_next list_prev (list_head self) L NULL)%I with "[$Hh $Hs]" as "HA".
  iDestruct (hseg_open with "HA") as "(%HA & Hl & HA)".
  wp_load. wp_store. wp_store. wp_load.
  destruct HA as [(-> & -> & Hpl)|[Hne Hpl]]; rw Hpl.
  - change (is_true NULL) with false. cbv iota. wp_store. wp_store.
    rw is_dll_at. iDestruct ("HA" with "Hl") as "$". by iFrame.
  - rw is_true_nonnull //. wp_load. wp_store. wp_store.
    rw is_dll_at. iDestruct ("HA" with "Hl") as "$". by iFrame.
Qed.

Lemma wp_list_del self A x B :
  is_list self (A ++ x :: B)
  ⊢ wp (hev_list_del self x) (fun _ => is_list self (A ++ B) ∗ list_cell x).
Proof.
  unfold is_list, list_cell, dll_cell. rw is_dll_at.
  iIntros "(HA & (%Hx & Hp & Hn) & HB)". unfold hev_list_del.
  iDestruct (hseg_open with "HA") as "(%HA & Hl & HA)".
  iDestruct (tseg_open with "HB") as "(%HB & Hq & HB)". wp_load.
  iApply wp_bind. iApply (wp_wand _ (fun _ => hseg list_next list_prev (list_head self) A (hdd B NULL) ∗
    list_prev x ↦ lastd NULL A ∗ list_next x ↦ hdd B NULL)%I). iSplitL "Hl HA Hp Hn".
  { destruct HA as [(-> & -> & Hpl)|[Hne Hpl]]; rw Hpl.
    - change (is_true NULL) with false. cbv iota. wp_load. wp_store. iDestruct ("HA" with "Hl") as "$". by iFrame.
    - rw is_true_nonnull //. wp_load. wp_load. wp_store. iDestruct ("HA" with "Hl") as "$". by iFrame. }
  iIntros (_) "(HA & Hp & Hn)". wp_load.
  destruct HB as [(-> & -> & Hql)|[Hne Hql]]; rw Hql.
  - change (is_true NULL) with false. cbv iota. wp_load. wp_store.
    rw is_dll_app. iDestruct ("HB" with "Hq") as "$". by iFrame.
  - rw is_true_nonnull //. wp_load. wp_load. wp_store. rw is_dll_app. iDestruct ("HB" with "Hq") as "$". by iFrame.
Qed.

Lemma wp_list_first self L :
  is_list self L ⊢ wp (hev_list_first self) (fun n => ⌞n = hdd L NULL⌟ ∗ is_list self L).
Proof. iIntros "(Hh & Ht & Hs)". unfold hev_list_first. wp_load. by iFrame. Qed.
