(* ===== verification/Mem.v ===== *)
(** * Mem: the memory allocators of [src/src/mem]

    The allocator interface ([mem/base]), the pass-through allocator
    ([mem/simple]), the allocator that caches freed blocks by size class with
    an LRU list of the classes ([mem/slice]), and the public functions
    [hev_malloc] ... [hev_free] that go through the thread's default
    allocator ([mem/api]). *)

From S2P Require Export Prelude.
From S2P Require Export Env.
From S2P Require Export Dll.

(** ** Machine arithmetic and the C library *)

(** [ALIGN_UP] and [ALIGN_DOWN] of [hev-compiler.h] at type [size_t]. *)
Definition ALIGN_UP (addr align : Z) : Z :=
  Z.land (w64 (addr + align - 1)) (Z.lnot (align - 1)).
Definition ALIGN_DOWN (addr align : Z) : Z := Z.land addr (Z.lnot (align - 1)).

Definition malloc (size : Z) : co Z := a <~ call (Malloc size) ;; Ret (a_ret a).
Definition realloc (ptr size : Z) : co Z := a <~ call (Realloc ptr size) ;; Ret (a_ret a).
Definition free (ptr : Z) : co unit := call (Free ptr) ~;; Ret tt.

(** [memset (p, 0, n)], cell by cell. *)
Definition memset0 (p n : Z) : M unit := store_all (zrange p n) 0.

Definition calloc (nmemb size : Z) : co Z :=
  p <~ malloc (nmemb * size) ;;
  when (is_true p) (memset0 p (nmemb * size)) !;;
  Ret p.

(** ** [hev-memory-allocator.h]: the interface *)

Definition ma_alloc (self : Z) : Z := self.
Definition ma_realloc (self : Z) : Z := self + 8.
Definition ma_free (self : Z) : Z := self + 16.
Definition ma_destroy (self : Z) : Z := self + 24.
Definition ma_ref_count (self : Z) : Z := self + 32.
Definition SIZEOF_ALLOCATOR : Z := 40.

(** Addresses of the functions stored in the table. *)
Definition FN_simple_alloc : Z := 101.
Definition FN_simple_realloc : Z := 102.
Definition FN_simple_free : Z := 103.
Definition FN_slice_alloc : Z := 104.
Definition FN_slice_realloc : Z := 105.
Definition FN_slice_free : Z := 106.
Definition FN_slice_destroy : Z := 107.

(** The thread's default allocator. *)
Definition tls_default_allocator : Z := 16.

(** ** [mem/simple] *)

Definition simple_new : co Z :=
  self <~ malloc SIZEOF_ALLOCATOR ;;
  if negb (is_true self) then Ret NULL else
  store (ma_ref_count self) 1 !;;
  store (ma_alloc self) FN_simple_alloc !;;
  store (ma_realloc self) FN_simple_realloc !;;
  store (ma_free self) FN_simple_free !;;
  store (ma_destroy self) NULL !;;
  Ret self.

Definition simple_alloc (self size : Z) : co Z := malloc size.
Definition simple_realloc (self ptr size : Z) : co Z := realloc ptr size.
Definition simple_free (self ptr : Z) : co unit := free ptr.

(** ** [mem/slice] *)

Definition CACHED_SLICE_ALIGN : Z := 16.
Definition MAX_CACHED_SLICE_SIZE : Z := 4096.
Definition MAX_CACHED_SLICE_COUNT : Z := 1000.
Definition MAX_CACHED_SLICE_INDEX : Z := MAX_CACHED_SLICE_SIZE / CACHED_SLICE_ALIGN.

(** [HevMemorySlice], [HevMemoryLRUNode], [HevMemoryAllocatorSlice]. *)
Definition slice_next (slice : Z) : Z := slice.
Definition slice_index (slice : Z) : Z := slice + 8.
Definition SIZEOF_SLICE : Z := 16.

Definition lru_prev (node : Z) : Z := node.
Definition lru_next (node : Z) : Z := node + 8.

Definition sl_lru_head (self : Z) : Z := self + 40.
Definition sl_lru_tail (self : Z) : Z := self + 48.
Definition sl_lru_node (self i : Z) : Z := self + 56 + 16 * i.
Definition sl_cached_count (self : Z) : Z := self + 4152.
Definition sl_cached (self i : Z) : Z := self + 4160 + 8 * i.
Definition SIZEOF_ALLOCATOR_SLICE : Z := 6208.

(** [node - self->lru_nodes] *)
Definition sl_node_index (self node : Z) : Z := (node - sl_lru_node self 0) / 16.

Definition slice_new : co Z :=
  allocator <~ malloc SIZEOF_ALLOCATOR_SLICE ;;
  if negb (is_true allocator) then Ret NULL else
  store (ma_ref_count allocator) 1 !;;
  store (ma_alloc allocator) FN_slice_alloc !;;
  store (ma_realloc allocator) FN_slice_realloc !;;
  store (ma_free allocator) FN_slice_free !;;
  store (ma_destroy allocator) FN_slice_destroy !;;
  let self := allocator in
  store (sl_lru_head self) NULL !;;
  store (sl_lru_tail self) NULL !;;
  store (sl_cached_count self) 0 !;;
  memset0 (sl_cached self 0) (8 * MAX_CACHED_SLICE_INDEX) !;;
  Ret allocator.

Definition lru_insert (self node : Z) : M unit :=
  store (lru_prev node) NULL ;;;
  head <- load (sl_lru_head self) ;;
  (if is_true head then
     store (lru_next node) head ;;;
     store (lru_prev head) node
   else store (lru_next node) NULL) ;;;
  store (sl_lru_head self) node ;;;
  tail <- load (sl_lru_tail self) ;;
  when (negb (is_true tail)) (store (sl_lru_tail self) node).

Definition lru_remove (self node : Z) : M unit :=
  prev <- load (lru_prev node) ;;
  when (is_true prev)
    (next <- load (lru_next node) ;; store (lru_next prev) next) ;;;
  next <- load (lru_next node) ;;
  when (is_true next)
    (prev <- load (lru_prev node) ;; store (lru_prev next) prev) ;;;
  head <- load (sl_lru_head self) ;;
  when (head =? node)
    (next <- load (lru_next node) ;; store (sl_lru_head self) next) ;;;
  tail <- load (sl_lru_tail self) ;;
  when (tail =? node)
    (prev <- load (lru_prev node) ;; store (sl_lru_tail self) prev).

(** Take the first cached slice of a class. *)
Definition slice_pop (self index owner slice : Z) : M unit :=
  next <- load (slice_next slice) ;;
  store owner next ;;;
  count <- load (sl_cached_count self) ;;
  store (sl_cached_count self) (w32 (count - 1)) ;;;
  let node := sl_lru_node self (index - 1) in
  lru_remove self node ;;;
  first <- load owner ;;
  when (is_true first) (lru_insert self node).

Definition slice_alloc (self size : Z) : co Z :=
  let size := ALIGN_UP size CACHED_SLICE_ALIGN in
  let index := s32 (size / CACHED_SLICE_ALIGN) in
  if index =? 0 then Ret NULL
  else if (1 <=? index) && (index <=? MAX_CACHED_SLICE_INDEX) then
    let owner := sl_cached self (index - 1) in
    slice <! load owner ;;
    if is_true slice then
      slice_pop self index owner slice !;;
      Ret (slice + SIZEOF_SLICE)
    else
      slice <~ malloc (w64 (SIZEOF_SLICE + size)) ;;
      if negb (is_true slice) then Ret NULL else
      store (slice_index slice) (index - 1) !;;
      Ret (slice + SIZEOF_SLICE)
  else
    slice <~ malloc (w64 (SIZEOF_SLICE + size)) ;;
    if negb (is_true slice) then Ret NULL else
    store (slice_index slice) (-1) !;;
    Ret (slice + SIZEOF_SLICE).

(** Make room: give the first slice of the least recently used class back. *)
Definition slice_evict (self : Z) : co unit :=
  node <! load (sl_lru_tail self) ;;
  let owner := sl_cached self (sl_node_index self node) in
  free_slice <! load owner ;;
  next <! load (slice_next free_slice) ;;
  store owner next !;;
  count <! load (sl_cached_count self) ;;
  store (sl_cached_count self) (w32 (count - 1)) !;;
  first <! load owner ;;
  when (negb (is_true first)) (lru_remove self node) !;;
  free free_slice.

(** Put a slice at the front of its class. *)
Definition slice_push (self slice : Z) : M unit :=
  index <- load (slice_index slice) ;;
  first <- load (sl_cached self index) ;;
  store (slice_next slice) first ;;;
  store (sl_cached self index) slice ;;;
  count <- load (sl_cached_count self) ;;
  store (sl_cached_count self) (w32 (count + 1)) ;;;
  next <- load (slice_next slice) ;;
  when (negb (is_true next))
    (index <- load (slice_index slice) ;; lru_insert self (sl_lru_node self index)).

Definition slice_free (self ptr : Z) : co unit :=
  let slice := ptr - SIZEOF_SLICE in
  index <! load (slice_index slice) ;;
  if index <? 0 then free slice
  else
    count <! load (sl_cached_count self) ;;
    co_when (MAX_CACHED_SLICE_COUNT <=? count) (slice_evict self) ~;;
    act (slice_push self slice).

Definition slice_realloc (self ptr size : Z) : co Z :=
  if size =? 0 then slice_free self ptr ~;; Ret NULL else
  let slice := ptr - SIZEOF_SLICE in
  let size := ALIGN_UP size CACHED_SLICE_ALIGN in
  let index := s32 (size / CACHED_SLICE_ALIGN) in
  slice <~ realloc slice (w64 (SIZEOF_SLICE + size)) ;;
  if negb (is_true slice) then Ret NULL else
  (if (1 <=? index) && (index <=? MAX_CACHED_SLICE_INDEX)
   then store (slice_index slice) (index - 1)
   else store (slice_index slice) (-1)) !;;
  Ret (slice + SIZEOF_SLICE).

(** The slices of one class, then the class's LRU neighbour. *)
Definition slice_destroy_class : Z -> co unit :=
  co_chase (fun iter =>
    if is_true iter then
      next <! load (slice_next iter) ;;
      free iter ~;; Ret (inl next)
    else Ret (inr tt)).

Definition slice_destroy (self : Z) : co unit :=
  head <! load (sl_lru_head self) ;;
  co_chase (fun node =>
    if is_true node then
      iter <! load (sl_cached self (sl_node_index self node)) ;;
      slice_destroy_class iter ~;;
      next <! load (lru_next node) ;;
      Ret (inl next)
    else Ret (inr tt)) head.

(** ** [mem/base]: dispatch and reference counts *)

Definition hev_memory_allocator_default : co Z :=
  allocator <! load tls_default_allocator ;;
  if is_true allocator then Ret allocator else
  allocator <~ simple_new ;;
  store tls_default_allocator allocator !;;
  Ret allocator.

Definition hev_memory_allocator_set_default (allocator : Z) : M Z :=
  old_allocator <- load tls_default_allocator ;;
  store tls_default_allocator allocator ;;;
  ret old_allocator.

Definition hev_memory_allocator_ref (self : Z) : M Z :=
  rc <- load (ma_ref_count self) ;;
  store (ma_ref_count self) (w32 (rc + 1)) ;;;
  ret self.

(** Calling through the table: an address that is no function faults. *)
Definition wild_call {A} : co A := act (fail Segv).

Definition hev_memory_allocator_unref (self : Z) : co unit :=
  rc <! load (ma_ref_count self) ;;
  store (ma_ref_count self) (w32 (rc - 1)) !;;
  rc <! load (ma_ref_count self) ;;
  if 0 <? rc then Ret tt else
  destroy <! load (ma_destroy self) ;;
  co_when (is_true destroy)
    (if destroy =? FN_slice_destroy then slice_destroy self else wild_call) ~;;
  free self.

Definition hev_memory_allocator_alloc (self size : Z) : co Z :=
  fn <! load (ma_alloc self) ;;
  if fn =? FN_simple_alloc then simple_alloc self size
  else if fn =? FN_slice_alloc then slice_alloc self size
  else wild_call.

Definition hev_memory_allocator_realloc (self ptr size : Z) : co Z :=
  fn <! load (ma_realloc self) ;;
  if fn =? FN_simple_realloc then simple_realloc self ptr size
  else if fn =? FN_slice_realloc then slice_realloc self ptr size
  else wild_call.

Definition hev_memory_allocator_free (self ptr : Z) : co unit :=
  fn <! load (ma_free self) ;;
  if fn =? FN_simple_free then simple_free self ptr
  else if fn =? FN_slice_free then slice_free self ptr
  else wild_call.

(** ** [mem/api] *)

Definition hev_malloc (size : Z) : co Z :=
  allocator <~ hev_memory_allocator_default ;;
  hev_memory_allocator_alloc allocator size.

Definition hev_malloc0 (size : Z) : co Z :=
  allocator <~ hev_memory_allocator_default ;;
  data <~ hev_memory_allocator_alloc allocator size ;;
  when (is_true data) (memset0 data size) !;;
  Ret data.

Definition hev_calloc (nmemb size : Z) : co Z :=
  if negb (is_true nmemb) || negb (is_true size) then Ret NULL else
  let size := w64 (size * nmemb) in
  allocator <~ hev_memory_allocator_default ;;
  data <~ hev_memory_allocator_alloc allocator size ;;
  when (is_true data) (memset0 data size) !;;
  Ret data.

Definition hev_realloc (ptr size : Z) : co Z :=
  allocator <~ hev_memory_allocator_default ;;
  hev_memory_allocator_realloc allocator ptr size.

Definition hev_free (ptr : Z) : co unit :=
  allocator <~ hev_memory_allocator_default ;;
  hev_memory_allocator_free allocator ptr.
