(* ===== verification/SliceProofs.v ===== *)
(** * SliceProofs: [slice_alloc] and [slice_free] implement the specification

    The memory of a slice allocator in a given abstract state, and the
    refinement proofs of its operations. *)

From S2P Require Import Prelude.
From S2P Require Import Sep.
From S2P Require Import Env.
From S2P Require Import EnvLogic.
From S2P Require Import Dll.
From S2P Require Import Mem.
From S2P Require Import Slice.

(** ** Slices in memory *)

(** The bytes of a slice header that hold no field of their own. *)
Definition slice_pad (s : Z) : list Z := zrange (s + 1) 7 ++ zrange (s + 9) 7.

(** A slice of payload size [cap] and class [idx], but for its link. *)
Definition slice_body (idx cap s : Z) : heapProp :=
  (⌞0 < s /\ s mod 16 = 0 /\ 0 <= cap⌟ ∗ libc_header s ↦ (SIZEOF_SLICE + cap) ∗
   slice_index s ↦ idx ∗ cells (slice_pad s) ∗ cells (zrange (s + SIZEOF_SLICE) cap))%I.

Lemma zrange_16 s cap :
  0 <= cap ->
  zrange s (SIZEOF_SLICE + cap) ≡ₚ
  slice_next s :: slice_index s :: slice_pad s ++ zrange (s + SIZEOF_SLICE) cap.
Proof.
  intros Hcap. unfold zrange, SIZEOF_SLICE, slice_pad, slice_next, slice_index, zrange.
  apply NoDup_Permutation; [apply NoDup_seqZ| |].
  - apply NoDup_cons; split; [|apply NoDup_cons; split; [|apply NoDup_app; split_and!;
      [apply NoDup_app; split_and!| |]]]; try apply NoDup_seqZ; set_unfold; intros;
      unfold not; intros; destruct_or?; repeat match goal with
      | H : _ ∈ seqZ _ _ |- _ => apply elem_of_seqZ in H | H : exists _, _ |- _ => destruct H end; lia.
  - intros x. rw 2!elem_of_cons 2!elem_of_app 4!elem_of_seqZ. lia.
Qed.

Lemma cells_cons a l : cells (a :: l) ⊣⊢ (∃ v, a ↦ v) ∗ cells l.
Proof. done. Qed.

(** A block from the C library of [16 + cap] bytes is a slice. *)
Lemma block_slice s cap :
  0 <= cap ->
  mblock s (SIZEOF_SLICE + cap) ⊣⊢
  (∃ v, slice_next s ↦ v) ∗ (∃ idx, slice_body idx cap s).
Proof.
  intros Hcap. unfold mblock. rw (cells_perm _ _ (zrange_16 s cap Hcap)) 2!cells_cons cells_app.
  unfold slice_body. iSplit.
  - iIntros "(%H & $ & $ & [%idx $] & $ & $)". iPureIntro. tauto.
  - iIntros "($ & %idx & %H & $ & $ & $ & $)". iPureIntro. tauto.
Qed.

(** What [hev_malloc (n)] hands out: the payload of a slice of some class. *)
Definition user_block (p n : Z) : heapProp :=
  (∃ idx cap, ⌞n <= cap /\ (idx = -1 \/ 0 <= idx < Z.of_nat NCLASSES /\ cap = (16 * (idx + 1))%Z)⌟ ∗
     (∃ v, slice_next (p - SIZEOF_SLICE) ↦ v) ∗ slice_body idx cap (p - SIZEOF_SLICE))%I.

(** The slices of one class. *)
Fixpoint chain (i : nat) (L : list Z) : heapProp :=
  match L with
  | [] => emp
  | s :: L => slice_next s ↦ hdd L NULL ∗
              slice_body (Z.of_nat i) (16 * (Z.of_nat i + 1)) s ∗ chain i L
  end%I.

(** ** The allocator in memory *)

Definition lru_cells (self : Z) (used : list nat) : heapProp :=
  ([∗ list] i ∈ filter (fun i => i ∉ used) (seq 0 NCLASSES),
     dll_cell lru_next lru_prev (sl_lru_node self (Z.of_nat i)))%I.

Definition node_of (self : Z) (i : nat) : Z := sl_lru_node self (Z.of_nat i).

Definition is_slice (self : Z) (st : cache) : heapProp :=
  (⌞cache_wf st /\ 0 < self⌟ ∗
   is_dll lru_next lru_prev (sl_lru_head self) (sl_lru_tail self) (node_of self <$> lru st) ∗
   lru_cells self (lru st) ∗
   sl_cached_count self ↦ Z.of_nat (cached st) ∗
   ([∗ list] i ↦ L ∈ classes st, sl_cached self (Z.of_nat i) ↦ hdd L NULL ∗ chain i L))%I.

Lemma lru_cells_take self used i :
  (i < NCLASSES)%nat -> i ∉ used ->
  lru_cells self used ⊣⊢ dll_cell lru_next lru_prev (node_of self i) ∗ lru_cells self (i :: used).
Proof.
  intros Hi Hu. unfold lru_cells.
  assert (filter (fun j => j ∉ used) (seq 0 NCLASSES) ≡ₚ
          i :: filter (fun j => j ∉ i :: used) (seq 0 NCLASSES)) as ->; [|done].
  apply NoDup_Permutation.
  - apply NoDup_filter, NoDup_seq.
  - apply NoDup_cons. split; [|apply NoDup_filter, NoDup_seq].
    rw list_elem_of_filter. intros [H _]. apply H. by left.
  - intros j. rw elem_of_cons !list_elem_of_filter elem_of_seq elem_of_cons.
    destruct (decide (j = i)) as [->|]; [|tauto]. split; [by left|]. intros _. split; [done|lia].
Qed.

Lemma lru_cells_ext self l1 l2 :
  (forall i, i ∈ l1 <-> i ∈ l2) -> lru_cells self l1 ⊣⊢ lru_cells self l2.
Proof.
  intros H. unfold lru_cells. rw (list_filter_iff _ (fun i => i ∉ l2)) //.
  intros j. by rw H.
Qed.

(** ** The LRU list *)

Lemma wp_lru_insert self L x :
  x <> NULL ->
  is_dll lru_next lru_prev (sl_lru_head self) (sl_lru_tail self) L ∗ dll_cell lru_next lru_prev x
  ⊢ wp (lru_insert self x) (fun _ =>
      is_dll lru_next lru_prev (sl_lru_head self) (sl_lru_tail self) (x :: L)).
Proof.
  iIntros (Hx) "[(Hh & Ht & Hs) (%n & %p & Hn & Hp)]". unfold lru_insert, is_dll.
  wp_store. wp_load. destruct L as [|y L].
  - change (is_true (hdd [] NULL)) with false. cbv iota. wp_store. wp_store. wp_load.
    change (lastd NULL []) with NULL. cbn [negb is_true Z.eqb when NULL].
    wp_store. simpl. by iFrame.
  - iDestruct (dseg_last_nonnull with "Hs") as %Hl; [done|].
    iDestruct "Hs" as "(%Hy & Hyp & Hyn & Hs)". change (hdd (y :: L) NULL) with y.
    rw is_true_nonnull //. wp_store. wp_store. wp_store. wp_load.
    rw is_true_nonnull //. cbn [negb when]. wp_norm. rw (lastd_cons NULL x). simpl.
    rw !lastd_cons. by iFrame.
Qed.

Lemma hdd_ne A n x : A <> [] -> x ∉ A -> (hdd A n =? x) = false.
Proof.
  destruct A as [|a A]; [done|]. intros _ H. apply Z.eqb_neq. intros <-. apply H. by left.
Qed.

Lemma lastd_ne p B x : B <> [] -> x ∉ B -> (lastd p B =? x) = false.
Proof.
  destruct B as [|b B _] using rev_ind; [done|]. intros _ H. rw lastd_snoc.
  apply Z.eqb_neq. intros ->. apply H, elem_of_app. right. by left.
Qed.

(** The link before [x], when something precedes it. *)
Lemma hseg_open_tail hc A x :
  A <> [] ->
  hseg lru_next lru_prev hc A x ⊢ ⌞lastd NULL A <> NULL⌟ ∗
    hc ↦ hdd A x ∗ lru_next (lastd NULL A) ↦ x ∗
    (∀ n, hc ↦ hdd A x -∗ lru_next (lastd NULL A) ↦ n -∗ hseg lru_next lru_prev hc A n).
Proof.
  iIntros (Hne) "[Hc H]". iDestruct (dseg_last_nonnull with "H") as %Hl; [done|].
  destruct A as [|y A _] using rev_ind; [done|]. rw lastd_snoc in Hl |- *.
  iDestruct (dseg_last_link with "H") as "[$ H]". iFrame "Hc". iSplitR; [done|].
  iIntros (n) "Hc Hl". iSplitL "Hc"; [by destruct A|by iApply "H"].
Qed.

Lemma tseg_open_head tc x B :
  B <> [] ->
  tseg lru_next lru_prev tc x B ⊢ ⌞hdd B NULL <> NULL⌟ ∗
    tc ↦ lastd x B ∗ lru_prev (hdd B NULL) ↦ x ∗
    (∀ p, tc ↦ lastd x B -∗ lru_prev (hdd B NULL) ↦ p -∗ tseg lru_next lru_prev tc p B).
Proof.
  destruct B as [|y B]; [done|]. iIntros (_) "[Hc (% & Hp & Hn & H)]". unfold tseg. simpl.
  rw !lastd_cons. iFrame "Hc Hp". iSplitR; [done|]. iIntros (p) "Hc Hp". rw ?lastd_cons. by iFrame.
Qed.

Lemma wp_lru_remove self A x B :
  NoDup (A ++ x :: B) ->
  is_dll lru_next lru_prev (sl_lru_head self) (sl_lru_tail self) (A ++ x :: B)
  ⊢ wp (lru_remove self x) (fun _ =>
      is_dll lru_next lru_prev (sl_lru_head self) (sl_lru_tail self) (A ++ B) ∗
      dll_cell lru_next lru_prev x).
Proof.
  rw is_dll_at. iIntros (Hnd) "(HA & (%Hx & Hp & Hn) & HB)". unfold lru_remove.
  apply NoDup_app in Hnd as (_ & HxA & [HxB _]%NoDup_cons).
  assert (x ∉ A) as HxA' by (intros H; apply (HxA x H); by left).
  wp_load. destruct (decide (A = [])) as [->|HA], (decide (B = [])) as [->|HB].
  - iDestruct "HA" as "[Hh _]". iDestruct "HB" as "[Ht _]". unfold lastd, hdd. simpl.
    wp_load. wp_load. rw Z.eqb_refl. cbn [when]. wp_load. wp_store. wp_load.
    rw Z.eqb_refl. cbn [when]. wp_load. wp_store. unfold is_dll. simpl. by iFrame.
  - iDestruct "HA" as "[Hh _]". iDestruct (tseg_open_head with "HB") as "(%Hb & Ht & Hq & HB)"; [done|].
    unfold lastd at 1. simpl (default _ _). change (is_true NULL) with false. cbn [when].
    wp_load. rw is_true_nonnull //. cbn [when]. wp_load. wp_store. wp_load.
    change (hdd [] x) with x. rw Z.eqb_refl. cbn [when]. wp_load. wp_store. wp_load.
    rw lastd_ne //. cbn [when]. wp_norm. rw is_dll_app.
    iDestruct ("HB" with "Ht Hq") as "$". unfold hseg. simpl. by iFrame.
  - iDestruct "HB" as "[Ht _]". iDestruct (hseg_open_tail with "HA") as "(%Ha & Hh & Hl & HA)"; [done|].
    rw is_true_nonnull //. cbn [when]. wp_load. wp_store. wp_load.
    change (hdd [] NULL) with NULL. change (is_true NULL) with false. cbn [when].
    wp_load. rw hdd_ne //. cbn [when]. wp_load. change (lastd x []) with x.
    rw Z.eqb_refl. cbn [when]. wp_load. wp_store. rw is_dll_app.
    iDestruct ("HA" with "Hh Hl") as "$". unfold tseg. simpl. by iFrame.
  - iDestruct (tseg_open_head with "HB") as "(%Hb & Ht & Hq & HB)"; [done|].
    iDestruct (hseg_open_tail with "HA") as "(%Ha & Hh & Hl & HA)"; [done|].
    rw is_true_nonnull //. cbn [when]. wp_load. wp_store. wp_load. rw is_true_nonnull //.
    cbn [when]. wp_load. wp_store. wp_load. rw hdd_ne //. cbn [when]. wp_load.
    rw lastd_ne //. cbn [when]. wp_norm. rw is_dll_app.
    iDestruct ("HA" with "Hh Hl") as "$". iDestruct ("HB" with "Ht Hq") as "$". by iFrame.
Qed.

(** ** Classes of the abstract state *)

#[local] Instance node_of_inj self : Inj (=) (=) (node_of self).
Proof. intros i j. unfold node_of, sl_lru_node. lia. Qed.

Lemma node_of_nonnull self i : 0 < self -> node_of self i <> NULL.
Proof. unfold node_of, sl_lru_node, NULL. lia. Qed.

Lemma sl_node_index_of self i : sl_node_index self (node_of self i) = Z.of_nat i.
Proof.
  unfold sl_node_index, node_of, sl_lru_node.
  replace (self + 56 + 16 * Z.of_nat i - (self + 56 + 16 * 0)) with (Z.of_nat i * 16) by lia.
  by rw Z.div_mul.
Qed.

Lemma filter_ne_id (A : list nat) i : i ∉ A -> filter (fun j => j <> i) A = A.
Proof.
  induction A as [|a A IH]; [done|]. intros [Ha HA]%not_elem_of_cons.
  rw filter_cons_True ?IH //.
Qed.

Lemma nodup_filter_ne (A B : list nat) i :
  NoDup (A ++ i :: B) -> filter (fun j => j <> i) (A ++ i :: B) = A ++ B.
Proof.
  intros (_ & HA & [HB _]%NoDup_cons)%NoDup_app. rw filter_app filter_cons_False; [|tauto].
  rw !filter_ne_id //. intros H. apply (HA i H). by left.
Qed.

Lemma wp_lru_remove_class self l i :
  NoDup l -> i ∈ l ->
  is_dll lru_next lru_prev (sl_lru_head self) (sl_lru_tail self) (node_of self <$> l)
  ⊢ wp (lru_remove self (node_of self i)) (fun _ =>
      is_dll lru_next lru_prev (sl_lru_head self) (sl_lru_tail self)
        (node_of self <$> filter (fun j => j <> i) l) ∗
      dll_cell lru_next lru_prev (node_of self i)).
Proof.
  intros Hnd (A & B & ->)%list_elem_of_split. rw nodup_filter_ne // !fmap_app fmap_cons.
  apply wp_lru_remove. pose proof (NoDup_fmap_2 (node_of self) _ Hnd) as H. by rw fmap_app in H.
Qed.

(** Open the allocator at class [i]. *)
Lemma is_slice_class (self : Z) (cl : list (list Z)) i :
  (i < length cl)%nat ->
  ([∗ list] i ↦ L ∈ cl, sl_cached self (Z.of_nat i) ↦ hdd L NULL ∗ chain i L)
  ⊢ let L := default [] (cl !! i) in
    sl_cached self (Z.of_nat i) ↦ hdd L NULL ∗ chain i L ∗
    (∀ L', sl_cached self (Z.of_nat i) ↦ hdd L' NULL -∗ chain i L' -∗
       [∗ list] i ↦ L ∈ <[i := L']> cl, sl_cached self (Z.of_nat i) ↦ hdd L NULL ∗ chain i L).
Proof.
  intros [L HL]%lookup_lt_is_Some. rw HL. simpl. iIntros "H".
  iDestruct (big_sepL_insert_acc _ _ i L HL with "H") as "[[$ $] H]".
  iIntros (L') "Hc HL". iApply "H". iFrame.
Qed.

Lemma cached_pos st i : class_of st i <> [] -> (0 < cached st)%nat.
Proof.
  unfold class_of, cached. destruct (classes st !! i) as [L|] eqn:HL; [|done]. intros H.
  pose proof (concat_insert _ _ _ [] HL) as Hc. destruct L; [done|]. simpl in *. lia.
Qed.

Lemma w32_count n : Z.of_nat n <= MAX_CACHED_SLICE_COUNT -> w32 (Z.of_nat n) = Z.of_nat n.
Proof. unfold MAX_CACHED_SLICE_COUNT. intros H. apply w32_small. lia. Qed.

(** [slice_pop] is [cache_pop]. *)
Lemma wp_slice_pop self st i s st' :
  cache_pop i st = Some (s, st') ->
  is_slice self st
  ⊢ wp (slice_pop self (Z.of_nat i + 1) (sl_cached self (Z.of_nat i)) s) (fun _ =>
      is_slice self st' ∗ (∃ v, slice_next s ↦ v) ∗
      slice_body (Z.of_nat i) (16 * (Z.of_nat i + 1)) s).
Proof.
  intros Hpop. iIntros "([%Hwf %Hself] & Hlru & Hun & Hcount & Hcl)".
  pose proof (cache_pop_wf st Hwf i s st' Hpop) as Hwf'. unfold cache_pop in Hpop.
  destruct (class_of st i) as [|s' L] eqn:Hi; [done|]. injection Hpop as <- <-.
  assert (i < length (classes st))%nat as Hlt by by apply class_of_lt; rw Hi.
  iDestruct (is_slice_class self _ i Hlt with "Hcl") as "Hcl".
  change (default [] (classes st !! i)) with (class_of st i). rw Hi. cbv zeta.
  iDestruct "Hcl" as "(Hc & (Hs & Hb & HL) & Hcl)". unfold slice_pop.
  wp_load. wp_store. wp_load. wp_store.
  replace (Z.of_nat i + 1 - 1) with (Z.of_nat i) by lia.
  change (sl_lru_node self (Z.of_nat i)) with (node_of self i).
  pose proof (cached_insert st (lru st) i L Hlt) as Hn. rw Hi /= in Hn.
  replace (w32 (Z.of_nat (cached st) - 1)) with (Z.of_nat (cached (Cache (<[i:=L]> (classes st))
    match L with [] => filter (fun j => j <> i) (lru st) | _ :: _ => i :: filter (fun j => j <> i) (lru st) end))).
  2:{ unfold cached in *. simpl in *. pose proof (wf_count _ Hwf) as Hle. unfold cached in Hle.
      rw -w32_count; [f_equal; lia|lia]. }
  assert (i ∈ lru st) as Hin by by apply (wf_lru _ Hwf); rw Hi.
  iApply wp_bind. iApply wp_wand. iSplitL "Hlru".
  { iApply (wp_lru_remove_class with "Hlru"); [apply Hwf|done]. }
  iIntros (_) "[Hlru Hnode]".
  destruct L as [|s2 L].
  - wp_load. change (is_true (hdd [] NULL)) with false. cbn [when]. wp_norm.
    iDestruct ("Hcl" with "Hc HL") as "Hcl". iFrame "Hb". iSplitR "Hs"; [|by iExists _].
    iSplitR; [done|]. simpl. iFrame.
    rw (lru_cells_take self (filter (fun j => j <> i) (lru st)) i); [|by apply (wf_lru_lt st Hwf)|
      rw list_elem_of_filter; tauto].
    iFrame. rw (lru_cells_ext self (lru st)) //. intros j.
    rw elem_of_cons list_elem_of_filter. destruct (decide (j = i)) as [->|]; tauto.
  - iAssert ⌜s2 <> NULL⌝%I as %Hs2.
    { iDestruct "HL" as "(_ & (%H & _) & _)". iPureIntro. unfold NULL. lia. }
    wp_load. change (hdd (s2 :: L) NULL) with s2. rw is_true_nonnull //. cbn [when].
    iApply wp_wand. iSplitL "Hlru Hnode".
    { iApply wp_lru_insert; [by apply node_of_nonnull|iFrame]. }
    iIntros (_) "Hlru". iDestruct ("Hcl" $! (s2 :: L) with "Hc HL") as "Hcl". iFrame "Hb". iSplitR "Hs"; [|by iExists _].
    iSplitR; [done|]. simpl. iFrame.
    rw (lru_cells_ext self (lru st)) //. intros j.
    rw elem_of_cons list_elem_of_filter. destruct (decide (j = i)) as [->|]; tauto.
Qed.

(** [slice_push] is [cache_push]. *)
Lemma wp_slice_push self st i s :
  (i < NCLASSES)%nat -> Z.of_nat (cached st) < MAX_CACHED_SLICE_COUNT ->
  is_slice self st ∗ (∃ v, slice_next s ↦ v) ∗
  slice_body (Z.of_nat i) (16 * (Z.of_nat i + 1)) s
  ⊢ wp (slice_push self s) (fun _ => is_slice self (cache_push i s st)).
Proof.
  intros Hi Hroom. iIntros "(([%Hwf %Hself] & Hlru & Hun & Hcount & Hcl) & (%v & Hs) & Hb)".
  destruct (cache_push_wf st Hwf i s Hi Hroom) as [Hwf' Hcnt]. unfold cache_push in *.
  assert (i < length (classes st))%nat as Hlt by by rw (wf_classes _ Hwf).
  iDestruct (is_slice_class self _ i Hlt with "Hcl") as "Hcl".
  change (default [] (classes st !! i)) with (class_of st i). cbv zeta.
  iDestruct "Hcl" as "(Hc & HL & Hcl)". iDestruct "Hb" as "(%Hs & Hh & Hix & Hb)".
  unfold slice_push. wp_load. wp_load. wp_store. wp_store. wp_load. wp_store. wp_load.
  replace (w32 (Z.of_nat (cached st) + 1)) with (Z.of_nat (S (cached st))).
  2:{ rw -w32_count; [f_equal; lia|lia]. }
  destruct (class_of st i) as [|s2 L] eqn:HL.
  - change (is_true (hdd [] NULL)) with false. cbn [negb when]. wp_load.
    change (sl_lru_node self (Z.of_nat i)) with (node_of self i).
    assert (i ∉ lru st) as Hni by by intros []%(wf_lru _ Hwf).
    iEval (rw (lru_cells_take self (lru st) i Hi Hni)) in "Hun". iDestruct "Hun" as "[Hnode Hun]".
    iApply wp_wand. iSplitL "Hlru Hnode".
    { iApply wp_lru_insert; [by apply node_of_nonnull|iFrame]. }
    iIntros (_) "Hlru". iDestruct ("Hcl" $! [s] with "Hc [Hs Hh Hix Hb]") as "Hcl"; [by iFrame|].
    iSplitR; [done|]. rw Hcnt. simpl. by iFrame.
  - iAssert ⌜s2 <> NULL⌝%I as %Hs2.
    { iDestruct "HL" as "(_ & (%H & _) & _)". iPureIntro. unfold NULL. lia. }
    change (hdd (s2 :: L) NULL) with s2. rw is_true_nonnull //. cbn [negb when]. wp_norm.
    iDestruct ("Hcl" $! (s :: s2 :: L) with "Hc [Hs Hh Hix Hb HL]") as "Hcl"; [by iFrame|].
    iSplitR; [done|]. rw Hcnt. simpl. by iFrame.
Qed.

(** [slice_evict] is [cache_evict], and gives the slice to the C library. *)
Lemma wp_slice_evict Y `{!YieldMono Y} self st s st' :
  cache_evict st = Some (s, st') ->
  is_slice self st ⊢ cwp Y (slice_evict self) (fun _ => is_slice self st').
Proof.
  intros Hev. iIntros "([%Hwf %Hself] & Hlru & Hun & Hcount & Hcl)".
  destruct (cache_evict_wf st Hwf s st' Hev) as [Hwf' Hcnt]. unfold cache_evict in Hev.
  destruct (last (lru st)) as [j|] eqn:Hl; [|done].
  destruct (class_of st j) as [|s' L] eqn:Hj; [done|]. injection Hev as <- <-.
  assert (j < length (classes st))%nat as Hlt by by apply class_of_lt; rw Hj.
  assert (j ∈ lru st) as Hin by by apply (wf_lru _ Hwf); rw Hj.
  iDestruct (is_slice_class self _ j Hlt with "Hcl") as "Hcl".
  change (default [] (classes st !! j)) with (class_of st j). rw Hj. cbv zeta.
  iDestruct "Hcl" as "(Hc & (Hs & Hb & HL) & Hcl)".
  unfold slice_evict. cbn [cwp].
  iDestruct "Hlru" as "(Hlh & Hlt & Hls)". wp_load.
  unfold lastd. rw fmap_last Hl. simpl (default NULL _). rw sl_node_index_of.
  iAssert (is_dll lru_next lru_prev (sl_lru_head self) (sl_lru_tail self) (node_of self <$> lru st))
    with "[Hlh Hlt Hls]" as "Hlru".
  { unfold is_dll, lastd. rw fmap_last Hl. by iFrame. }
  wp_load. wp_load. wp_store. wp_load. wp_store. wp_load.
  replace (w32 (Z.of_nat (cached st) - 1)) with (Z.of_nat (cached st - 1)).
  2:{ pose proof (wf_count _ Hwf). rw -w32_count; [f_equal; lia|lia]. }
  destruct L as [|s2 L].
  - change (is_true (hdd [] NULL)) with false. cbn [negb when].
    iApply wp_wand. iSplitL "Hlru".
    { iApply (wp_lru_remove_class with "Hlru"); [apply Hwf|done]. }
    iIntros (_) "[Hlru Hnode]". unfold free, call. cbn [co_bind cwp].
    iApply (ext_wp_free s' (SIZEOF_SLICE + 16 * (Z.of_nat j + 1))).
    iSplitL "Hs Hb". { rw block_slice; [|lia]. iFrame. }
    iIntros (_). iDestruct ("Hcl" with "Hc HL") as "Hcl". iSplitR; [done|].
    rw Hcnt Nat.sub_1_r. simpl. iFrame.
    rw (lru_cells_take self (filter (fun i => i <> j) (lru st)) j); [|by apply (wf_lru_lt st Hwf)|
      rw list_elem_of_filter; tauto].
    iFrame. rw (lru_cells_ext self (lru st)) //. intros i.
    rw elem_of_cons list_elem_of_filter. destruct (decide (i = j)) as [->|]; tauto.
  - iAssert ⌜s2 <> NULL⌝%I as %Hs2.
    { iDestruct "HL" as "(_ & (%H & _) & _)". iPureIntro. unfold NULL. lia. }
    change (hdd (s2 :: L) NULL) with s2. rw is_true_nonnull //. cbn [negb when]. wp_norm.
    unfold free, call. cbn [co_bind cwp].
    iApply (ext_wp_free s' (SIZEOF_SLICE + 16 * (Z.of_nat j + 1))).
    iSplitL "Hs Hb". { rw block_slice; [|lia]. iFrame. }
    iIntros (_). iDestruct ("Hcl" $! (s2 :: L) with "Hc HL") as "Hcl". iSplitR; [done|].
    rw Hcnt Nat.sub_1_r. simpl. by iFrame.
Qed.

(** ** Allocation *)

Lemma ALIGN_UP_16 n : 0 <= n < 2 ^ 63 -> ALIGN_UP n CACHED_SLICE_ALIGN = 16 * ((n + 15) / 16).
Proof.
  intros Hn. unfold ALIGN_UP, CACHED_SLICE_ALIGN. rw w64_small; [|lia].
  rw -Z.ldiff_land. change (16 - 1) with (Z.ones 4). rw Z.ldiff_ones_r // Z.shiftr_div_pow2 //.
  rw Z.shiftl_mul_pow2 //. change (2 ^ 4) with 16. replace (n + 16 - 1) with (n + 15) by lia. lia.
Qed.

(** The largest request whose class number fits an [int]. *)
Definition MAX_REQUEST : Z := 2 ^ 31 * 16 - 32.

Definition request_index (n : Z) : Z := (n + 15) / 16.

Lemma request_index_bounds n :
  0 <= n <= MAX_REQUEST ->
  n <= 16 * request_index n /\ 0 <= request_index n < 2 ^ 31 /\ (0 < n -> 0 < request_index n).
Proof. unfold MAX_REQUEST, request_index. intros Hn. split_and!; div_lia. Qed.

Lemma alloc_index n :
  0 <= n <= MAX_REQUEST ->
  s32 (ALIGN_UP n CACHED_SLICE_ALIGN / CACHED_SLICE_ALIGN) = request_index n.
Proof.
  intros Hn. pose proof (request_index_bounds n Hn) as (_ & Hi & _). unfold MAX_REQUEST in Hn.
  rw ALIGN_UP_16; [|lia]. unfold CACHED_SLICE_ALIGN. rw Z.mul_comm Z.div_mul //.
  apply s32_small. fold (request_index n). lia.
Qed.

(** The result of allocating [n] bytes in state [st]. *)
Definition alloc_post (self : Z) (st : cache) (n p : Z) : heapProp :=
  let fresh := (is_slice self st ∗ (⌞p = NULL⌟ ∨ user_block p n))%I in
  let index := request_index n in
  if index =? 0 then (⌞p = NULL⌟ ∗ is_slice self st)%I
  else if index <=? MAX_CACHED_SLICE_INDEX then
    match cache_pop (Z.to_nat (index - 1)) st with
    | Some (s, st') => (⌞p = (s + SIZEOF_SLICE)%Z⌟ ∗ is_slice self st' ∗ user_block p n)%I
    | None => fresh
    end
  else fresh.

(** A new block from the C library, given its class number. *)
Lemma wp_slice_fresh Y `{!YieldMono Y} self st n cap idx :
  n <= cap -> 0 <= cap ->
  (idx = -1 \/ 0 <= idx < Z.of_nat NCLASSES /\ cap = (16 * (idx + 1))%Z) ->
  is_slice self st
  ⊢ cwp Y (slice <~ malloc (SIZEOF_SLICE + cap) ;;
           if negb (is_true slice) then Ret NULL else
           store (slice_index slice) idx !;;
           Ret (slice + SIZEOF_SLICE))
      (fun p => is_slice self st ∗ (⌞p = NULL⌟ ∨ user_block p n)).
Proof.
  intros Hn Hcap Hidx. iIntros "H". unfold malloc, call. cbn [co_bind cwp].
  iApply ext_wp_malloc. iIntros (a) "[%Hz|Hb]".
  - rw Hz. change (is_true 0) with false. cbn [negb cwp]. iFrame. by iLeft.
  - rw block_slice //. iDestruct "Hb" as "[Hs (%i & %Hp & Hh & Hi & Hb)]".
    rw is_true_nonnull; [|unfold NULL; lia]. cbn [negb cwp]. wp_store. iFrame "H". iRight.
    unfold user_block. iExists idx, cap.
    replace (a_ret a + SIZEOF_SLICE - SIZEOF_SLICE) with (a_ret a) by lia. by iFrame.
Qed.

Lemma is_slice_owner self st i :
  (i < NCLASSES)%nat ->
  is_slice self st ⊢
  sl_cached self (Z.of_nat i) ↦ hdd (class_of st i) NULL ∗
  ⌞class_of st i <> [] -> hdd (class_of st i) NULL <> NULL⌟ ∗
  (sl_cached self (Z.of_nat i) ↦ hdd (class_of st i) NULL -∗ is_slice self st).
Proof.
  iIntros (Hi) "([%Hwf %Hself] & Hlru & Hun & Hcount & Hcl)".
  assert (is_Some (classes st !! i)) as [L HL].
  { apply lookup_lt_is_Some. by rw (wf_classes _ Hwf). }
  iDestruct (big_sepL_lookup_acc _ _ i L HL with "Hcl") as "[[Hc HL] Hcl]".
  unfold class_of. rw HL /=.
  iAssert ⌜L <> [] -> hdd L NULL <> NULL⌝%I as %Hne.
  { destruct L as [|s L]; [done|]. iDestruct "HL" as "(_ & (%H & _) & _)".
    iPureIntro. intros _. unfold hdd, NULL. simpl. lia. }
  iFrame "Hc". iSplitR; [done|].
  iIntros "Hc". iSplitR; [done|]. iFrame. iApply "Hcl". iFrame.
Qed.

(** A class that has a cached slice. *)
Lemma wp_slice_hit Y `{!YieldMono Y} self st i s st' (miss : co Z) :
  cache_pop i st = Some (s, st') ->
  is_slice self st
  ⊢ cwp Y (slice <! load (sl_cached self (Z.of_nat i)) ;;
           if is_true slice then
             slice_pop self (Z.of_nat i + 1) (sl_cached self (Z.of_nat i)) slice !;;
             Ret (slice + SIZEOF_SLICE)
           else miss) (fun p =>
      ⌞p = (s + SIZEOF_SLICE)%Z⌟ ∗ is_slice self st' ∗
      (∃ v, slice_next s ↦ v) ∗ slice_body (Z.of_nat i) (16 * (Z.of_nat i + 1)) s).
Proof.
  intros Hpop. iIntros "H".
  assert (exists L, class_of st i = s :: L) as [L HL].
  { unfold cache_pop in Hpop. destruct (class_of st i); [done|]. injection Hpop as <- _. by eexists. }
  iAssert ⌜(i < NCLASSES)%nat⌝%I as %Hi.
  { iDestruct "H" as "([%Hwf _] & _)". iPureIntro. rw -(wf_classes _ Hwf).
    apply class_of_lt. by rw HL. }
  iDestruct (is_slice_owner _ _ i with "H") as "(Hc & %Hs & H)"; [done|]. rw HL in Hs |- *.
  assert (s <> NULL) as Hs' by by apply Hs. change (hdd (s :: L) NULL) with s.
  cbn [cwp]. wp_load. iDestruct ("H" with "Hc") as "H". rw is_true_nonnull //. cbn [cwp].
  iApply wp_wand. iSplitL; [by iApply (wp_slice_pop with "H")|].
  iIntros (_) "($ & $ & $)". done.
Qed.

Lemma wp_slice_alloc Y `{!YieldMono Y} self st n :
  0 <= n <= MAX_REQUEST ->
  is_slice self st ⊢ cwp Y (slice_alloc self n) (alloc_post self st n).
Proof.
  intros Hn. unfold slice_alloc, alloc_post. cbv zeta. rw alloc_index //.
  pose proof (request_index_bounds n Hn) as (Hle & Hr & _).
  rw ALIGN_UP_16; [|unfold MAX_REQUEST in Hn; lia]. fold (request_index n).
  set (i := request_index n) in *.
  assert (w64 (SIZEOF_SLICE + 16 * i) = SIZEOF_SLICE + 16 * i) as ->.
  { apply w64_small. unfold SIZEOF_SLICE. lia. }
  destruct (Z.eqb_spec i 0) as [Hz|Hz]; [iIntros "$"; done|].
  destruct (Z.leb_spec 1 i) as [H1|]; [|lia]. cbn [andb].
  destruct (Z.leb_spec i MAX_CACHED_SLICE_INDEX) as [Hc|Hc].
  - change MAX_CACHED_SLICE_INDEX with 256 in Hc.
    destruct (cache_pop (Z.to_nat (i - 1)) st) as [[s st']|] eqn:Hpop.
    + pose proof (wp_slice_hit Y self st _ s st' (slice <~ malloc (SIZEOF_SLICE + 16 * i) ;;
        if negb (is_true slice) then Ret NULL else
        store (slice_index slice) (i - 1) !;; Ret (slice + SIZEOF_SLICE)) Hpop) as Hhit.
      rw Z2Nat.id in Hhit; [|lia]. replace (i - 1 + 1) with i in Hhit by lia.
      iIntros "H". iApply cwp_wand. iSplitL; [by iApply Hhit|].
      iIntros (p) "(-> & $ & Hs & Hb)". iSplitR; [done|]. iExists (i - 1), (16 * i).
      replace (s + SIZEOF_SLICE - SIZEOF_SLICE) with s by lia. iFrame. iPureIntro.
      change (Z.of_nat NCLASSES) with 256. split; [lia|]. right. split; lia.
    + iIntros "H".
      iDestruct (is_slice_owner _ _ (Z.to_nat (i - 1)) with "H") as "(Hc & %Hs & H)"; [unfold NCLASSES; lia|].
      rw Z2Nat.id; [|lia]. cbn [cwp]. wp_load. iDestruct ("H" with "Hc") as "H".
      unfold cache_pop in Hpop. destruct (class_of st _) as [|s' L] eqn:HL; [|done].
      change (is_true (hdd [] NULL)) with false. cbv iota.
      iApply (wp_slice_fresh Y self st n (16 * i) (i - 1) with "H"); [lia..|].
      right. change (Z.of_nat NCLASSES) with 256. split; lia.
  - apply (wp_slice_fresh Y self st n (16 * i) (-1)); [lia|lia|by left].
Qed.

(** ** Release *)

(** Releasing slice [s] of class [i]. *)
Definition cache_free (i : nat) (s : Z) (st : cache) : cache :=
  let st := if MAX_CACHED_SLICE_COUNT <=? Z.of_nat (cached st)
            then match cache_evict st with Some (_, st') => st' | None => st end
            else st in
  cache_push i s st.

Lemma wp_slice_free Y `{!YieldMono Y} self st idx cap s :
  idx < 0 \/ 0 <= idx < Z.of_nat NCLASSES /\ cap = (16 * (idx + 1))%Z ->
  is_slice self st ∗ (∃ v, slice_next s ↦ v) ∗ slice_body idx cap s
  ⊢ cwp Y (slice_free self (s + SIZEOF_SLICE)) (fun _ =>
      if idx <? 0 then is_slice self st
      else is_slice self (cache_free (Z.to_nat idx) s st)).
Proof.
  iIntros (Hidx) "(H & Hs & (%Hb & Hh & Hi & Hb))". unfold slice_free.
  replace (s + SIZEOF_SLICE - SIZEOF_SLICE) with s by lia. cbn [cwp]. wp_load.
  destruct (Z.ltb_spec idx 0) as [Hneg|Hpos].
  - unfold free, call. cbn [co_bind cwp]. iApply (ext_wp_free s (SIZEOF_SLICE + cap)).
    iSplitR "H"; [|by iFrame]. rw block_slice; [|lia]. by iFrame.
  - destruct Hidx as [|[Hidx ->]]; [lia|]. cbn [cwp].
    iDestruct "H" as "([%Hwf %Hself] & Hlru & Hun & Hcount & Hcl)". wp_load.
    iAssert (is_slice self st) with "[Hlru Hun Hcount Hcl]" as "H"; [by iFrame|].
    iApply cwp_bind. unfold cache_free.
    destruct (Z.leb_spec MAX_CACHED_SLICE_COUNT (Z.of_nat (cached st))) as [Hfull|Hroom];
      cbn [co_when cwp].
    + destruct (cache_evict_some st Hwf) as [[f st'] Hev].
      { unfold MAX_CACHED_SLICE_COUNT in Hfull. lia. }
      rw Hev. destruct (cache_evict_wf st Hwf f st' Hev) as [Hwf' Hcnt].
      iApply cwp_wand. iSplitL "H"; [by iApply wp_slice_evict|].
      iIntros (_) "H". unfold act. cbn [cwp]. iApply wp_slice_push.
      * unfold NCLASSES in *. lia.
      * pose proof (wf_count _ Hwf). lia.
      * rw Z2Nat.id; [|lia]. by iFrame.
    + unfold act. cbn [cwp]. iApply wp_slice_push; [unfold NCLASSES in *; lia|lia|].
      rw Z2Nat.id; [|lia]. by iFrame.
Qed.

(** ** Destruction *)

(** The links of the classes from [i] on, whatever they hold. *)
Lemma chain_heap_ge i L : chain i L ⊢ heap_ge (length L).
Proof.
  induction L as [|s L IH]; simpl; [apply heap_ge_0|].
  iIntros "(Hs & _ & HL)". iDestruct (IH with "HL") as "HL".
  iDestruct (points_to_heap_ge with "Hs") as "Hs".
  change (S (length L)) with (1 + length L)%nat. iApply heap_ge_sep. iFrame.
Qed.

Lemma wp_destroy_class_loop Y `{!YieldMono Y} i L k :
  (length L < k)%nat ->
  chain i L ⊢ cwp Y (co_loop (act (fail OutOfFuel)) k (fun iter =>
    if is_true iter then
      next <! load (slice_next iter) ;;
      free iter ~;; Ret (inl next)
    else Ret (inr tt)) (hdd L NULL)) (fun _ => emp).
Proof.
  revert L. induction k as [|k IH]; intros L Hk; [lia|]. iIntros "H". iApply cwp_loop_S.
  destruct L as [|s L]; simpl in *.
  - change (is_true (hdd [] NULL)) with false. cbn [cwp]. done.
  - iDestruct "H" as "(Hs & Hb & HL)". change (hdd (s :: L) NULL) with s.
    iDestruct "Hb" as "(%Hs & Hb)". rw is_true_nonnull; [|unfold NULL; lia]. cbn [cwp].
    wp_load. unfold free, call. cbn [co_bind cwp].
    iApply (ext_wp_free s (SIZEOF_SLICE + 16 * (Z.of_nat i + 1))). iSplitL "Hs Hb".
    { rw block_slice; [|lia]. iSplitL "Hs"; [by iExists _|]. iExists _. by iFrame. }
    iIntros (_). iApply (IH L with "HL"). lia.
Qed.

Lemma wp_destroy_class Y `{!YieldMono Y} i L :
  chain i L ⊢ cwp Y (slice_destroy_class (hdd L NULL)) (fun _ => emp).
Proof.
  iIntros "H". unfold slice_destroy_class. iApply (cwp_chase _ (length L)). iSplit.
  { iDestruct (chain_heap_ge with "H") as "H". iExact "H". }
  iIntros (k Hk). by iApply wp_destroy_class_loop.
Qed.

Lemma dseg_heap_ge nx pv p L n : dseg nx pv p L n ⊢ heap_ge (length L).
Proof.
  revert p. induction L as [|x L IH]; intros p; simpl; [apply heap_ge_0|].
  iIntros "(_ & Hp & _ & HL)". iDestruct (IH with "HL") as "HL".
  iDestruct (points_to_heap_ge with "Hp") as "Hp".
  change (S (length L)) with (1 + length L)%nat. iApply heap_ge_sep. iFrame.
Qed.

Definition class_cells (self : Z) (st : cache) (i : nat) : heapProp :=
  (sl_cached self (Z.of_nat i) ↦ hdd (class_of st i) NULL ∗ chain i (class_of st i))%I.

Definition owner_cell (self : Z) (i : nat) : heapProp :=
  (∃ v, sl_cached self (Z.of_nat i) ↦ v)%I.

Lemma classes_seq (Φ : nat -> list Z -> heapProp) cl :
  ([∗ list] i ↦ L ∈ cl, Φ i L) ⊣⊢
  [∗ list] i ∈ seq 0 (length cl), Φ i (default [] (cl !! i)).
Proof.
  induction cl as [|L cl IH] using rev_ind; [done|].
  rw big_sepL_snoc length_app Nat.add_1_r seq_S big_sepL_snoc IH /=.
  rw list_lookup_middle // /=. f_equiv.
  apply big_sepL_proper. intros k i [-> Hi]%lookup_seq. simpl. by rw lookup_app_l.
Qed.

(** The classes in use and the others. *)
Lemma classes_split st :
  cache_wf st ->
  seq 0 NCLASSES ≡ₚ lru st ++ filter (fun i => i ∉ lru st) (seq 0 NCLASSES).
Proof.
  intros Hwf. apply NoDup_Permutation; [apply NoDup_seq| |].
  - apply NoDup_app. split; [apply Hwf|]. split; [|apply NoDup_filter, NoDup_seq].
    intros i Hi [? _]%list_elem_of_filter. done.
  - intros i. rw elem_of_app list_elem_of_filter elem_of_seq.
    destruct (decide (i ∈ lru st)) as [Hi|]; [|tauto].
    pose proof (wf_lru_lt st Hwf i Hi). split; [by left|lia].
Qed.

Lemma wp_slice_destroy_loop Y `{!YieldMono Y} self st A B k :
  lru st = A ++ B -> 0 < self -> (length B < k)%nat ->
  is_dll lru_next lru_prev (sl_lru_head self) (sl_lru_tail self) (node_of self <$> lru st) ∗
  ([∗ list] i ∈ A, owner_cell self i) ∗ ([∗ list] i ∈ B, class_cells self st i)
  ⊢ cwp Y (co_loop (act (fail OutOfFuel)) k (fun node =>
    if is_true node then
      iter <! load (sl_cached self (sl_node_index self node)) ;;
      slice_destroy_class iter ~;;
      next <! load (lru_next node) ;;
      Ret (inl next)
    else Ret (inr tt)) (hdd (node_of self <$> B) NULL)) (fun _ =>
    is_dll lru_next lru_prev (sl_lru_head self) (sl_lru_tail self) (node_of self <$> lru st) ∗
    [∗ list] i ∈ lru st, owner_cell self i).
Proof.
  intros Hl Hself. revert A B Hl. induction k as [|k IH]; intros A B Hl Hk; [lia|].
  iIntros "(Hd & HA & HB)". iApply cwp_loop_S. destruct B as [|j B].
  - change (is_true (hdd _ NULL)) with false. cbn [cwp]. rw app_nil_r in Hl. subst A. iFrame.
  - change (hdd (node_of self <$> j :: B) NULL) with (node_of self j).
    rw is_true_nonnull; [|by apply node_of_nonnull]. cbn [cwp]. rw sl_node_index_of.
    iDestruct "HB" as "[[Hc Hch] HB]". wp_load. iApply cwp_bind. iApply cwp_wand.
    iSplitL "Hch"; [by iApply wp_destroy_class|]. iIntros (_) "_". cbn [cwp].
    rw {1}Hl fmap_app fmap_cons is_dll_at. iDestruct "Hd" as "(Hd1 & (%Hj & Hp & Hn) & Hd2)".
    wp_load. iAssert (is_dll lru_next lru_prev (sl_lru_head self) (sl_lru_tail self)
      (node_of self <$> lru st)) with "[Hd1 Hp Hn Hd2]" as "Hd".
    { rw Hl fmap_app fmap_cons is_dll_at. by iFrame. }
    iApply (IH (A ++ [j]) B with "[-]"); [by rw -app_assoc|simpl in Hk; lia|].
    rw big_sepL_snoc. iFrame.
Qed.

Lemma wp_slice_destroy Y `{!YieldMono Y} self st :
  is_slice self st
  ⊢ cwp Y (slice_destroy self) (fun _ =>
      is_dll lru_next lru_prev (sl_lru_head self) (sl_lru_tail self) (node_of self <$> lru st) ∗
      lru_cells self (lru st) ∗ (∃ v, sl_cached_count self ↦ v) ∗
      [∗ list] i ∈ seq 0 NCLASSES, owner_cell self i).
Proof.
  iIntros "([%Hwf %Hself] & (Hh & Ht & Hs) & Hun & Hcount & Hcl)". unfold slice_destroy.
  cbn [cwp]. wp_load. iApply (cwp_chase _ (length (lru st))). iSplit.
  { iDestruct (dseg_heap_ge with "Hs") as "Hs". rw length_fmap. iExact "Hs". }
  iIntros (k Hk). rw (classes_seq (fun i L => sl_cached self (Z.of_nat i) ↦ hdd L NULL ∗ chain i L)%I).
  iEval (rw (wf_classes _ Hwf) (classes_split st Hwf) big_sepL_app) in "Hcl".
  iDestruct "Hcl" as "[Hcl Hrest]". iApply cwp_wand. iSplitL "Hh Ht Hs Hcl".
  { iApply (wp_slice_destroy_loop Y self st [] (lru st) k with "[-]"); [done..|].
    iFrame. done. }
  iIntros (_) "[$ Ho]". iFrame "Hun". iEval (rw (classes_split st Hwf) big_sepL_app).
  iFrame "Ho". iSplitL "Hcount"; [by iExists _|].
  iApply (big_sepL_impl with "Hrest"). iIntros "!>" (n i Hi) "[Hc Hch]".
  apply list_elem_of_lookup_2, list_elem_of_filter in Hi as [Hi _].
  change (default [] (classes st !! i)) with (class_of st i).
  destruct (class_of st i) eqn:E; [by iExists _|]. exfalso. apply Hi, (wf_lru _ Hwf). by rw E.
Qed.
