(* ===== verification/SliceLife.v ===== *)
(** * SliceLife: creation and destruction of the slice allocator

    [slice_new] makes an empty allocator out of one block of the C library;
    dropping the last reference gives back that block and every cached slice. *)

From S2P Require Import Prelude.
From S2P Require Import Sep.
From S2P Require Import Env.
From S2P Require Import EnvLogic.
From S2P Require Import Dll.
From S2P Require Import Mem.
From S2P Require Import Slice.
From S2P Require Import SliceProofs.

(** Offsets of the fields, the array of class heads byte by byte. *)
Definition lru_offs : list Z :=
  seq 0 NCLASSES ≫= fun i => [56 + 16 * Z.of_nat i; 64 + 16 * Z.of_nat i].

Definition slice_offs : list Z :=
  [0; 8; 16; 24; 32; 40; 48] ++ lru_offs ++ [4152] ++ zrange 4160 2048.

Lemma slice_offs_ok : struct_ok slice_offs SIZEOF_ALLOCATOR_SLICE = true.
Proof. vm_compute. reflexivity. Qed.

Definition owners (self : Z) : list Z :=
  (fun i : nat => sl_cached self (Z.of_nat i)) <$> seq 0 NCLASSES.

Definition owner_pad (self : Z) : list Z :=
  filter (fun a => a ∉ owners self) (zrange (sl_cached self 0) 2048).

Lemma owners_perm self : zrange (sl_cached self 0) 2048 ≡ₚ owners self ++ owner_pad self.
Proof.
  apply take_perm.
  - assert (Inj (=) (=) (fun i : nat => sl_cached self (Z.of_nat i))).
    { intros i j. unfold sl_cached. lia. }
    apply NoDup_fmap_2; [done|apply NoDup_seq].
  - apply NoDup_seqZ.
  - intros a (i & -> & Hi)%list_elem_of_fmap. apply elem_of_seq in Hi. apply elem_of_seqZ.
    unfold sl_cached, NCLASSES in *. lia.
Qed.

(** The table and reference count of an allocator. *)
Definition vtable (self fa fr ff fd rc : Z) : heapProp :=
  (ma_alloc self ↦ fa ∗ ma_realloc self ↦ fr ∗ ma_free self ↦ ff ∗ ma_destroy self ↦ fd ∗
   ma_ref_count self ↦ rc)%I.

(** A slice allocator as an object of the C library. *)
Definition slice_obj (self : Z) (st : cache) (rc : Z) : heapProp :=
  (is_slice self st ∗
   vtable self FN_slice_alloc FN_slice_realloc FN_slice_free FN_slice_destroy rc ∗
   ⌞self mod 16 = 0⌟ ∗ libc_header self ↦ SIZEOF_ALLOCATOR_SLICE ∗
   struct_rest self slice_offs SIZEOF_ALLOCATOR_SLICE ∗ cells (owner_pad self))%I.

Definition empty_cache : cache := Cache (replicate NCLASSES []) [].

Lemma class_of_empty i : class_of empty_cache i = [].
Proof.
  unfold class_of, empty_cache. cbn [classes].
  destruct (replicate NCLASSES ([] : list Z) !! i) as [L|] eqn:E; [|done].
  by apply lookup_replicate in E as [-> _].
Qed.

Lemma empty_cache_wf : cache_wf empty_cache.
Proof.
  split; [done|constructor| |].
  - intros i. rw class_of_empty. simpl. split; [by intros []%not_elem_of_nil|done].
  - by vm_compute.
Qed.

Lemma field_cells_app p l1 l2 : field_cells p (l1 ++ l2) ⊣⊢ field_cells p l1 ∗ field_cells p l2.
Proof. apply big_sepL_app. Qed.

Lemma owner_fields self :
  field_cells self (zrange 4160 2048) ⊣⊢ cells (zrange (sl_cached self 0) 2048).
Proof.
  unfold field_cells, cells, zrange, sl_cached, seqZ. rw !big_sepL_fmap.
  apply big_sepL_proper. intros k i _. f_equiv. intros v.
  by replace (self + (Z.of_nat i + 4160)) with (Z.of_nat i + (self + 4160 + 8 * 0)) by lia.
Qed.

Lemma lru_fields self : field_cells self lru_offs ⊣⊢ lru_cells self [].
Proof.
  unfold field_cells, lru_offs, lru_cells. rw big_sepL_bind.
    rw (filter_all (fun i : nat => i ∉ [])); [|apply Forall_forall; intros i _; apply not_elem_of_nil].
    apply big_sepL_proper. intros k i _. simpl. unfold dll_cell, lru_next, lru_prev, sl_lru_node.
    replace (self + (56 + 16 * Z.of_nat i)) with (self + 56 + 16 * Z.of_nat i) by lia.
    replace (self + (64 + 16 * Z.of_nat i)) with (self + 56 + 16 * Z.of_nat i + 8) by lia.
    iSplit; [iIntros "([%a Ha] & [%b Hb] & _)"; iExists b, a; by iSplitL "Hb"|].
    iIntros "(%a & %b & Ha & Hb)". iSplitL "Hb"; [by iExists b|]. iSplitL; [by iExists a|done].
Qed.

Lemma cells_owners self :
  cells (zrange (sl_cached self 0) 2048) ⊣⊢
  ([∗ list] i ∈ seq 0 NCLASSES, owner_cell self i) ∗ cells (owner_pad self).
Proof.
  etrans; [apply cells_perm, owners_perm|]. etrans; [apply cells_app|]. f_equiv.
  unfold cells, owners. by rw big_sepL_fmap.
Qed.

(** The links of a list and of the nodes outside it, as plain cells. *)
Lemma dseg_cells nx pv p L n : dseg nx pv p L n ⊢ [∗ list] x ∈ L, dll_cell nx pv x.
Proof.
  revert p. induction L as [|x L IH]; intros p; simpl; [done|].
  iIntros "(_ & Hp & Hn & HL)". rw IH. iFrame.
Qed.

Lemma lru_cells_join self st :
  cache_wf st ->
  is_dll lru_next lru_prev (sl_lru_head self) (sl_lru_tail self) (node_of self <$> lru st) ∗
  lru_cells self (lru st)
  ⊢ (∃ v, sl_lru_head self ↦ v) ∗ (∃ v, sl_lru_tail self ↦ v) ∗ lru_cells self [].
Proof.
  iIntros (Hwf) "[($ & $ & Hs) Hun]". rw dseg_cells big_sepL_fmap.
  unfold lru_cells. rw (filter_all (fun i : nat => i ∉ []));
    [|apply Forall_forall; intros i _; apply not_elem_of_nil].
  iEval (rw (classes_split st Hwf) big_sepL_app). iFrame.
Qed.

Lemma sep_assoc3 (P1 P2 P3 R : heapProp) : (P1 ∗ P2 ∗ P3) ∗ R ⊣⊢ P1 ∗ P2 ∗ P3 ∗ R.
Proof. by rw -!assoc. Qed.

#[local] Opaque zrange NCLASSES lru_cells cells field_cells.

(** The fields of the struct as the representation uses them. *)
Lemma slice_fields self :
  field_cells self slice_offs ⊣⊢
  (∃ fa fr ff fd rc, vtable self fa fr ff fd rc) ∗
  (∃ v, sl_lru_head self ↦ v) ∗ (∃ v, sl_lru_tail self ↦ v) ∗ lru_cells self [] ∗
  (∃ v, sl_cached_count self ↦ v) ∗ cells (zrange (sl_cached self 0) 2048).
Proof.
  pose proof (owner_fields self) as Ha.
  pose proof (lru_fields self) as Hl.
  assert (field_cells self [0; 8; 16; 24; 32; 40; 48] ⊣⊢
    (∃ fa fr ff fd rc, vtable self fa fr ff fd rc) ∗
    (∃ v, sl_lru_head self ↦ v) ∗ (∃ v, sl_lru_tail self ↦ v)) as Hv.
  { Transparent field_cells. unfold field_cells, vtable, ma_alloc, ma_realloc, ma_free, ma_destroy, ma_ref_count,
      sl_lru_head, sl_lru_tail. simpl. rw Z.add_0_r. iSplit.
    - iIntros "([%a $] & [%b $] & [%c $] & [%d $] & [%e $] & [%f $] & [%g $] & _)".
    - iIntros "((%a & %b & %c & %d & %e & $ & $ & $ & $ & $) & $ & $)". }
  assert (field_cells self [4152] ⊣⊢ ∃ v, sl_cached_count self ↦ v) as Hc.
  { unfold field_cells, sl_cached_count. simpl. by rw right_id. }
  unfold slice_offs. rw (field_cells_app _ [0; 8; 16; 24; 32; 40; 48]) (field_cells_app _ lru_offs)
    (field_cells_app _ [4152]) Hl Ha Hv Hc.
  apply sep_assoc3.
Qed.

Lemma big_sepL_perm (Φ : Z -> heapProp) l1 l2 :
  l1 ≡ₚ l2 -> ([∗ list] a ∈ l1, Φ a) ⊢ [∗ list] a ∈ l2, Φ a.
Proof. by intros ->. Qed.

Lemma is_slice_empty self :
  0 < self ->
  sl_lru_head self ↦ NULL ∗ sl_lru_tail self ↦ NULL ∗ lru_cells self [] ∗
  sl_cached_count self ↦ 0 ∗ ([∗ list] a ∈ owners self, a ↦ 0)
  ⊢ is_slice self empty_cache.
Proof.
  iIntros (Hpos) "(Hh & Ht & Hun & Hc & Hown)". unfold is_slice.
  iSplitR; [iPureIntro; split; [apply empty_cache_wf|done]|].
  iSplitL "Hh Ht"; [unfold is_dll; iFrame "Hh Ht"; done|].
  iSplitL "Hun"; [iExact "Hun"|]. iSplitL "Hc"; [iExact "Hc"|].
  iApply classes_seq. unfold owners. rw big_sepL_fmap.
  iApply (big_sepL_impl with "Hown"). iIntros "!>" (k i _) "Hi".
  change (default [] (classes empty_cache !! i)) with (class_of empty_cache i).
  rw class_of_empty. iSplitL "Hi"; [iExact "Hi"|done].
Qed.

(** [slice_new] *)
Lemma wp_slice_new Y `{!YieldMono Y} :
  emp ⊢ cwp Y slice_new (fun p => ⌞p = NULL⌟ ∨ slice_obj p empty_cache 1).
Proof.
  iIntros "_". unfold slice_new, malloc, call. cbn [co_bind cwp].
  iApply ext_wp_malloc. iIntros (a) "[%Hz|Hb]".
  { rw Hz. change (is_true 0) with false. cbn [negb cwp]. by iLeft. }
  set (self := a_ret a). iDestruct "Hb" as "([%Hpos %Hal] & Hh & Hb)".
  rw is_true_nonnull; [|unfold NULL; subst self; lia]. cbn [negb cwp].
  rw (cells_struct self _ _ slice_offs_ok) slice_fields.
  iDestruct "Hb" as "(((%fa & %fr & %ff & %fd & %rc & Ha & Hr & Hf & Hd & Hc) &
    [%lh Hlh] & [%lt Hlt] & Hun & [%cc Hcc] & Hown) & Hrest)".
  wp_store. wp_store. wp_store. wp_store. wp_store. wp_store. wp_store. wp_store.
  unfold memset0. iApply wp_store_all. iFrame "Hown". iIntros "Hown". cbn [cwp]. iRight.
  change (8 * MAX_CACHED_SLICE_INDEX) with 2048.
  iDestruct (big_sepL_perm _ _ _ (owners_perm self) with "Hown") as "Hown".
  iDestruct (big_sepL_app with "Hown") as "[Hown Hpad]". unfold slice_obj.
  iSplitL "Hlh Hlt Hun Hcc Hown".
  { iApply is_slice_empty; [done|]. iSplitL "Hlh"; [iExact "Hlh"|]. iSplitL "Hlt"; [iExact "Hlt"|].
    iSplitL "Hun"; [iExact "Hun"|]. iSplitL "Hcc"; [iExact "Hcc"|iExact "Hown"]. }
  iSplitL "Ha Hr Hf Hd Hc"; [unfold vtable; iFrame "Ha Hr Hf Hd Hc"|].
  iSplitR; [done|]. iSplitL "Hh"; [iExact "Hh"|]. iSplitL "Hrest"; [iExact "Hrest"|].
  iApply (cells_of with "Hpad").
Qed.

(** Dropping a reference that is not the last one. *)
Lemma wp_unref_keep Y `{!YieldMono Y} self fa fr ff fd rc :
  2 <= rc < 2 ^ 32 ->
  vtable self fa fr ff fd rc ⊢
  cwp Y (hev_memory_allocator_unref self) (fun _ => vtable self fa fr ff fd (rc - 1)).
Proof.
  iIntros (Hrc) "(Ha & Hr & Hf & Hd & Hc)". unfold hev_memory_allocator_unref. cbn [cwp].
  wp_load. wp_store. wp_load. rw w32_small; [|lia].
  destruct (Z.ltb_spec 0 (rc - 1)); [|lia]. cbn [cwp]. iFrame.
Qed.

(** Dropping the last reference to a slice allocator. *)
Lemma wp_slice_unref Y `{!YieldMono Y} self st :
  slice_obj self st 1 ⊢ cwp Y (hev_memory_allocator_unref self) (fun _ => emp).
Proof.
  iIntros "(H & (Ha & Hr & Hf & Hd & Hc) & %Hal & Hh & Hrest & Hpad)".
  iAssert ⌜cache_wf st /\ 0 < self⌝%I as %[Hwf Hpos]; [by iDestruct "H" as "(% & _)"|].
  unfold hev_memory_allocator_unref. cbn [cwp]. wp_load. wp_store. wp_load.
  change (w32 (1 - 1)) with 0. change (0 <? 0) with false. cbn [cwp]. wp_load.
  change (is_true FN_slice_destroy) with true. cbn [co_when].
  rw Z.eqb_refl. iApply cwp_bind. iApply cwp_wand. iSplitL "H"; [by iApply wp_slice_destroy|].
  iIntros (_) "(Hd1 & Hun & Hcc & Hown)".
  iDestruct (lru_cells_join with "[$Hd1 $Hun]") as "(Hlh & Hlt & Hun)"; [done|].
  unfold free, call. cbn [co_bind cwp].
  iApply (ext_wp_free self SIZEOF_ALLOCATOR_SLICE). iSplitL; [|by iIntros].
  iSplitR; [done|]. iFrame "Hh". rw (cells_struct self _ _ slice_offs_ok) slice_fields.
  iSplitR "Hrest"; [|iExact "Hrest"].
  iSplitL "Ha Hr Hf Hd Hc"; [iExists _, _, _, _, _; unfold vtable; iFrame "Ha Hr Hf Hd Hc"|].
  iSplitL "Hlh"; [iExact "Hlh"|]. iSplitL "Hlt"; [iExact "Hlt"|].
  iSplitL "Hun"; [iExact "Hun"|]. iSplitL "Hcc"; [iExact "Hcc"|].
  iApply cells_owners. iSplitL "Hown"; [iExact "Hown"|iExact "Hpad"].
Qed.
