(* ===== verification/Alloc.v ===== *)
(** * Alloc: the interface of the default allocator

    What the rest of the library relies on when it calls [hev_malloc],
    [hev_malloc0], [hev_calloc] and [hev_free], as a class; the pass-through
    and the caching allocator are its two instances. *)

From S2P Require Import Prelude.
From S2P Require Import Sep.
From S2P Require Import Env.
From S2P Require Import EnvLogic.
From S2P Require Import Dll.
From S2P Require Import Mem.
From S2P Require Import Slice.
From S2P Require Import SliceProofs.
From S2P Require Import SliceLife.

(** [al_heap] is the state of the thread's allocator [al_self], [al_block p n]
    a block of [n] bytes at [p] that the caller owns. *)
Class Allocator := {
  al_self : Z;
  al_heap : heapProp;
  al_block : Z -> Z -> heapProp;
  al_pos p n : al_block p n ⊢ ⌜0 < p /\ p mod 16 = 0⌝;
  al_cells p n : 0 <= n ->
    al_block p n ⊢ cells (zrange p n) ∗ (cells (zrange p n) -∗ al_block p n);
  al_default Y `{!YieldMono Y} :
    al_heap ⊢ cwp Y hev_memory_allocator_default (fun a => ⌞a = al_self⌟ ∗ al_heap);
  al_alloc Y `{!YieldMono Y} n : 0 < n <= MAX_REQUEST ->
    al_heap ⊢ cwp Y (hev_memory_allocator_alloc al_self n) (fun p =>
      al_heap ∗ (⌞p = NULL⌟ ∨ al_block p n));
  al_free Y `{!YieldMono Y} p n :
    al_heap ∗ al_block p n ⊢ cwp Y (hev_memory_allocator_free al_self p) (fun _ => al_heap)
}.

(** ** The public functions, for any allocator *)

Section api.
Context `{!Allocator} (Y : Z -> heapProp -> heapProp) `{!YieldMono Y}.

Lemma wp_hev_malloc n :
  0 < n <= MAX_REQUEST ->
  al_heap ⊢ cwp Y (hev_malloc n) (fun p => al_heap ∗ (⌞p = NULL⌟ ∨ al_block p n)).
Proof.
  iIntros (Hn) "H". unfold hev_malloc. iApply cwp_bind. iApply cwp_wand.
  iSplitL; [by iApply al_default|]. iIntros (a) "[-> H]". by iApply al_alloc.
Qed.

(** A zeroed block: its cells hold 0; giving the cells back makes it a block. *)
Definition zeroed (p n : Z) : heapProp :=
  (⌞0 < p /\ p mod 16 = 0⌟ ∗ ([∗ list] a ∈ zrange p n, a ↦ 0) ∗
   (cells (zrange p n) -∗ al_block p n))%I.

Lemma zeroed_block p n : zeroed p n ⊢ al_block p n.
Proof. iIntros "(_ & Hc & H)". iApply "H". by iApply cells_of. Qed.

(** A struct with fields at [offs] in a block of [n] bytes: what is left when
    the fields are taken out, to make it a block again. *)
Definition block_rest (p : Z) (offs : list Z) (n : Z) : heapProp :=
  (struct_rest p offs n ∗ (cells (zrange p n) -∗ al_block p n))%I.

Lemma block_close p offs n :
  struct_ok offs n = true -> field_cells p offs ∗ block_rest p offs n ⊢ al_block p n.
Proof. intros Ho. iIntros "(Hf & Hr & H)". iApply "H". rw (cells_struct p offs) //. iFrame. Qed.

Lemma block_open p offs n :
  struct_ok offs n = true -> 0 <= n ->
  al_block p n ⊢ field_cells p offs ∗ block_rest p offs n.
Proof.
  intros Ho Hn. iIntros "H". iDestruct (al_cells with "H") as "[Hc H]"; [done|].
  rw {1}(cells_struct p offs) //. iDestruct "Hc" as "[$ $]". iExact "H".
Qed.

(** The fields of a fresh struct are 0. *)
Lemma zeroed_struct p offs n :
  struct_ok offs n = true ->
  zeroed p n ⊢ ⌞0 < p /\ p mod 16 = 0⌟ ∗ ([∗ list] o ∈ offs, (p + o) ↦ 0) ∗ block_rest p offs n.
Proof.
  intros [Hnd Hr]%increasing_bounds. iIntros "($ & Hc & H)". unfold block_rest, struct_rest.
  assert (zrange p n ≡ₚ (Z.add p <$> offs) ++ filter (fun a => a ∉ Z.add p <$> offs) (zrange p n)) as Hp.
  { apply take_perm.
    - apply NoDup_fmap; [intros x y; lia|done].
    - apply NoDup_seqZ.
    - intros a (o & -> & Ho)%list_elem_of_fmap. apply Hr in Ho. apply elem_of_seqZ. lia. }
  iEval (rw {1}Hp big_sepL_app big_sepL_fmap) in "Hc". iDestruct "Hc" as "[$ Hc]".
  iSplitL "Hc"; [by iApply cells_of|iExact "H"].
Qed.

Lemma wp_memset0 data n :
  0 <= n ->
  ⌞data = NULL⌟ ∨ al_block data n
  ⊢ wp (when (is_true data) (memset0 data n)) (fun _ => ⌞data = NULL⌟ ∨ zeroed data n).
Proof.
  iIntros (Hn) "[->|H]".
  - change (is_true NULL) with false. cbn [when]. wp_norm. by iLeft.
  - iAssert ⌜0 < data /\ data mod 16 = 0⌝%I as %[Hp Ha]; [by iApply al_pos|].
    rw is_true_nonnull; [|unfold NULL; lia]. cbn [when]. unfold memset0.
    iDestruct (al_cells with "H") as "[Hc H]"; [done|].
    iApply wp_store_all. iFrame "Hc". iIntros "Hc". iRight.
    iSplitR; [done|]. iSplitL "Hc"; [iExact "Hc"|iExact "H"].
Qed.

(** ... from the point where the allocator is known. *)
Lemma wp_malloc0_from n :
  0 < n <= MAX_REQUEST ->
  al_heap ⊢ cwp Y (data <~ hev_memory_allocator_alloc al_self n ;;
                   when (is_true data) (memset0 data n) !;;
                   Ret data)
    (fun p => al_heap ∗ (⌞p = NULL⌟ ∨ zeroed p n)).
Proof.
  iIntros (Hn) "H". iApply cwp_bind. iApply cwp_wand. iSplitL; [by iApply al_alloc|].
  iIntros (data) "[H Hb]". cbn [cwp]. iApply wp_wand.
  iSplitL "Hb"; [iApply (wp_memset0 with "Hb"); lia|]. iIntros (_) "$". iExact "H".
Qed.

Lemma wp_hev_malloc0 n :
  0 < n <= MAX_REQUEST ->
  al_heap ⊢ cwp Y (hev_malloc0 n) (fun p => al_heap ∗ (⌞p = NULL⌟ ∨ zeroed p n)).
Proof.
  iIntros (Hn) "H". unfold hev_malloc0. iApply cwp_bind. iApply cwp_wand.
  iSplitL; [by iApply al_default|]. iIntros (a) "[-> H]". by iApply wp_malloc0_from.
Qed.

Lemma wp_hev_calloc nmemb size :
  0 < nmemb -> 0 < size -> nmemb * size <= MAX_REQUEST ->
  al_heap ⊢ cwp Y (hev_calloc nmemb size) (fun p =>
    al_heap ∗ (⌞p = NULL⌟ ∨ zeroed p (nmemb * size))).
Proof.
  iIntros (Hm Hs Hn) "H". unfold hev_calloc. unfold MAX_REQUEST in Hn.
  rw !is_true_nonnull; [|unfold NULL; lia..]. cbn [negb orb]. cbv zeta.
  rw (Z.mul_comm size) w64_small; [|nia]. iApply cwp_bind. iApply cwp_wand.
  iSplitL; [by iApply al_default|]. iIntros (a) "[-> H]".
  iApply cwp_bind. iApply cwp_wand. iSplitL; [iApply (al_alloc with "H"); unfold MAX_REQUEST; nia|].
  iIntros (data) "[H Hb]". cbn [cwp]. iApply wp_wand.
  iSplitL "Hb"; [iApply (wp_memset0 with "Hb"); nia|]. iIntros (_) "$". iExact "H".
Qed.

Lemma wp_hev_free p n :
  al_heap ∗ al_block p n ⊢ cwp Y (hev_free p) (fun _ => al_heap).
Proof.
  iIntros "[H Hb]". unfold hev_free. iApply cwp_bind. iApply cwp_wand.
  iSplitL "H"; [by iApply al_default|]. iIntros (a) "[-> H]". iApply (al_free Y p n). iFrame.
Qed.
End api.

(** The default allocator, once set. *)
Lemma wp_default_set Y `{!YieldMono Y} self (Φ : Z -> heapProp) :
  self <> NULL ->
  tls_default_allocator ↦ self ∗ (tls_default_allocator ↦ self -∗ Φ self)
  ⊢ cwp Y hev_memory_allocator_default Φ.
Proof.
  iIntros (Hne) "[H HΦ]". unfold hev_memory_allocator_default. cbn [cwp]. wp_load.
  rw is_true_nonnull //. cbn [cwp]. by iApply "HΦ".
Qed.

(** ** The pass-through allocator *)

Definition simple_offs : list Z := [0; 8; 16; 24; 32].

(** The allocator as an object of the C library, with one reference. *)
Definition simple_obj (self : Z) : heapProp :=
  (⌞0 < self /\ self mod 16 = 0⌟ ∗ vtable self FN_simple_alloc FN_simple_realloc FN_simple_free NULL 1 ∗
   libc_header self ↦ SIZEOF_ALLOCATOR ∗ struct_rest self simple_offs SIZEOF_ALLOCATOR)%I.

Definition simple_heap (self : Z) : heapProp := (tls_default_allocator ↦ self ∗ simple_obj self)%I.

Lemma simple_cells self :
  cells (zrange self SIZEOF_ALLOCATOR) ⊣⊢
  (∃ fa fr ff fd rc, vtable self fa fr ff fd rc) ∗ struct_rest self simple_offs SIZEOF_ALLOCATOR.
Proof.
  rw (cells_struct self simple_offs) //. f_equiv. unfold field_cells, vtable, simple_offs. simpl.
  rw Z.add_0_r. iSplit.
  - iIntros "([%a $] & [%b $] & [%c $] & [%d $] & [%e $] & _)".
  - iIntros "(%a & %b & %c & %d & %e & $ & $ & $ & $ & $)".
Qed.

Lemma wp_simple_new Y `{!YieldMono Y} :
  emp ⊢ cwp Y simple_new (fun p => ⌞p = NULL⌟ ∨ simple_obj p).
Proof.
  iIntros "_". unfold simple_new, malloc, call. cbn [co_bind cwp].
  iApply ext_wp_malloc. iIntros (a) "[%Hz|([%Hpos %Hal] & Hh & Hb)]".
  { rw Hz. change (is_true 0) with false. cbn [negb cwp]. by iLeft. }
  rw is_true_nonnull; [|unfold NULL; lia]. cbn [negb cwp]. rw simple_cells.
  iDestruct "Hb" as "[(%fa & %fr & %ff & %fd & %rc & Ha & Hr & Hf & Hd & Hc) Hrest]".
  do 5 wp_store. iRight. unfold simple_obj, vtable. by iFrame.
Qed.

(** Dropping the only reference. *)
Lemma wp_simple_unref Y `{!YieldMono Y} self :
  simple_obj self ⊢ cwp Y (hev_memory_allocator_unref self) (fun _ => emp).
Proof.
  iIntros "(%Hp & (Ha & Hr & Hf & Hd & Hc) & Hh & Hrest)". unfold hev_memory_allocator_unref.
  cbn [cwp]. wp_load. wp_store. wp_load. change (w32 (1 - 1)) with 0. change (0 <? 0) with false.
  cbn [cwp]. wp_load. change (is_true NULL) with false. unfold free, call. cbn [co_when co_bind cwp].
  iApply (ext_wp_free self SIZEOF_ALLOCATOR). iSplitL; [|by iIntros].
  iSplitR; [done|]. iFrame "Hh". rw simple_cells. iFrame "Hrest". iExists _, _, _, _, _.
  unfold vtable. iFrame.
Qed.

#[refine] Instance simple_allocator (self : Z) : Allocator := {|
  al_self := self;
  al_heap := simple_heap self;
  al_block := mblock
|}.
Proof.
  - intros p n. iIntros "(% & _)". done.
  - intros p n _. iIntros "(%H & Hh & $)". iIntros "Hc". by iFrame.
  - intros Y HY. iIntros "(Ht & %Hs & Hv)". iApply (wp_default_set _ self); [unfold NULL; lia|].
    iFrame "Ht". iIntros "Ht". iSplitR; [done|]. by iFrame.
  - intros Y HY n Hn. iIntros "(Ht & %Hs & (Ha & Hr & Hf & Hd & Hc) & Hrest)".
    unfold hev_memory_allocator_alloc. cbn [cwp]. wp_load. rw Z.eqb_refl.
    unfold simple_alloc, malloc, call. cbn [co_bind cwp]. iApply ext_wp_malloc.
    iIntros (a) "$". by iFrame.
  - intros Y HY p n. iIntros "[(Ht & %Hs & (Ha & Hr & Hf & Hd & Hc) & Hrest) Hb]".
    unfold hev_memory_allocator_free. cbn [cwp]. wp_load. rw Z.eqb_refl.
    unfold simple_free, free, call. cbn [co_bind cwp]. iApply (ext_wp_free p n).
    iFrame "Hb". iIntros (_). by iFrame.
Defined.

(** ** The caching allocator *)

Definition slice_heap (self : Z) : heapProp :=
  (tls_default_allocator ↦ self ∗ ∃ st, slice_obj self st 1)%I.

Lemma slice_heap_pos self : slice_heap self ⊢ ⌜0 < self⌝.
Proof. iIntros "(_ & %st & ([% %] & _) & _)". done. Qed.

Lemma user_block_pos p n : user_block p n ⊢ ⌜0 < p /\ p mod 16 = 0⌝.
Proof.
  iIntros "(%idx & %cap & _ & _ & (%Hs & _))". iPureIntro.
  unfold SIZEOF_SLICE in *. destruct Hs as (H1 & H2 & _). split; [lia|div_lia].
Qed.

Lemma user_block_cells p n :
  0 <= n -> user_block p n ⊢ cells (zrange p n) ∗ (cells (zrange p n) -∗ user_block p n).
Proof.
  iIntros (Hn) "(%idx & %cap & [%Hle %Hi] & Hs & (%Hb & Hh & Hx & Hpad & Hc))".
  replace (p - SIZEOF_SLICE + SIZEOF_SLICE) with p by lia.
  replace (zrange p cap) with (zrange p n ++ zrange (p + n) (cap - n)).
  2:{ unfold zrange. rw -seqZ_app; [f_equal; lia|lia|lia]. }
  rw cells_app. iDestruct "Hc" as "[$ Hrest]". iIntros "Hc". iExists idx, cap.
  iSplitR; [done|]. iFrame "Hs". iSplitR; [done|]. iFrame "Hh Hx Hpad".
  replace (p - SIZEOF_SLICE + SIZEOF_SLICE) with p by lia.
  replace (zrange p cap) with (zrange p n ++ zrange (p + n) (cap - n)).
  2:{ unfold zrange. rw -seqZ_app; [f_equal; lia|lia|lia]. }
  rw cells_app. iFrame.
Qed.

Lemma alloc_post_heap self st n p :
  0 < n <= MAX_REQUEST ->
  alloc_post self st n p ⊢ (∃ st', is_slice self st') ∗ (⌞p = NULL⌟ ∨ user_block p n).
Proof.
  intros Hn. unfold alloc_post. cbv zeta.
  destruct (request_index_bounds n) as (_ & _ & Hp); [lia|].
  destruct (Z.eqb_spec (request_index n) 0) as [|_]; [lia|].
  destruct (request_index n <=? MAX_CACHED_SLICE_INDEX).
  - destruct (cache_pop _ st) as [[s st']|].
    + iIntros "(_ & H & Hb)". iSplitL "H"; [by iExists st'|by iRight].
    + iIntros "[H $]". by iExists st.
  - iIntros "[H $]". by iExists st.
Qed.

#[refine] Instance slice_allocator (self : Z) : Allocator := {|
  al_self := self;
  al_heap := slice_heap self;
  al_block := user_block
|}.
Proof.
  - apply user_block_pos.
  - apply user_block_cells.
  - intros Y HY. iIntros "H". iDestruct (slice_heap_pos with "H") as %Hpos.
    iDestruct "H" as "[Ht H]". iApply (wp_default_set _ self); [unfold NULL; lia|].
    iFrame "Ht". iIntros "Ht". iSplitR; [done|]. iSplitL "Ht"; [iExact "Ht"|iExact "H"].
  - intros Y HY n Hn. iIntros "[Ht (%st & H & (Ha & Hr & Hf & Hd & Hc) & Hrest)]".
    unfold hev_memory_allocator_alloc. cbn [cwp]. wp_load.
    change (FN_slice_alloc =? FN_simple_alloc) with false. rw Z.eqb_refl.
    iApply cwp_wand. iSplitL "H"; [iApply (wp_slice_alloc with "H"); lia|].
    iIntros (p) "H". iDestruct (alloc_post_heap with "H") as "[[%st' H] $]"; [done|].
    iSplitL "Ht"; [iExact "Ht"|]. iExists st'. iSplitL "H"; [iExact "H"|].
    iFrame "Ha Hr Hf Hd Hc". iExact "Hrest".
  - intros Y HY p n. iIntros "[[Ht (%st & H & (Ha & Hr & Hf & Hd & Hc) & Hrest)] Hb]".
    unfold hev_memory_allocator_free. cbn [cwp]. wp_load.
    change (FN_slice_free =? FN_simple_free) with false. rw Z.eqb_refl.
    iDestruct "Hb" as "(%idx & %cap & [%Hle %Hi] & Hs & Hb)".
    iApply cwp_wand. iSplitL "H Hs Hb".
    { pose proof (wp_slice_free Y self st idx cap (p - SIZEOF_SLICE)) as Hw.
      replace (p - SIZEOF_SLICE + SIZEOF_SLICE) with p in Hw by lia. iApply Hw.
      - destruct Hi as [->|]; [left; lia|by right].
      - iSplitL "H"; [iExact "H"|]. iSplitL "Hs"; [iExact "Hs"|iExact "Hb"]. }
    iIntros (_) "H". iSplitL "Ht"; [iExact "Ht"|].
    destruct (idx <? 0); iExists _; (iSplitL "H"; [iExact "H"|]);
      iFrame "Ha Hr Hf Hd Hc"; iExact "Hrest".
Defined.
