(* ===== verification/SliceProps.v ===== *)
(** * SliceProps: what the allocators of [mem] promise *)

From S2P Require Import Prelude.
From S2P Require Import Sep.
From S2P Require Import Env.
From S2P Require Import EnvLogic.
From S2P Require Import Dll.
From S2P Require Import Mem.
From S2P Require Import Slice.
From S2P Require Import SliceProofs.
From S2P Require Import SliceLife.
From S2P Require Import Alloc.

(** C18. [slice_alloc] implements the abstract allocator: a request of [n] bytes
    is served with the newest cached slice of its class when there is one (and
    the class moves to the front of the LRU list, or leaves it), otherwise with
    a fresh block; the caller owns at least [n] bytes either way, and a request
    of no bytes gets NULL. *)
Theorem slice_alloc_refines self st n :
  0 <= n <= MAX_REQUEST ->
  {{{ is_slice self st }}} slice_alloc self n @ no_yield {{{ p, alloc_post self st n p }}}.
Proof. apply wp_slice_alloc, _. Qed.

Lemma slice_alloc_refines_witness :
  {{{ is_slice 6400 empty_cache }}}
    slice_alloc 6400 24 @ no_yield
  {{{ p, is_slice 6400 empty_cache ∗ (⌞p = NULL⌟ ∨ user_block p 24) }}}.
Proof. apply (slice_alloc_refines 6400 empty_cache 24). unfold MAX_REQUEST. lia. Defined.

(** C19. [slice_free] implements the abstract allocator: an uncached block goes
    back to the C library; a slice becomes the newest of its class, after the
    newest slice of the least recently used class has been given back when the
    cache was full. *)
Theorem slice_free_refines self st idx cap s :
  idx < 0 \/ 0 <= idx < Z.of_nat NCLASSES /\ cap = 16 * (idx + 1) ->
  {{{ is_slice self st ∗ (∃ v, slice_next s ↦ v) ∗ slice_body idx cap s }}}
    slice_free self (s + SIZEOF_SLICE) @ no_yield
  {{{ _, if idx <? 0 then is_slice self st
         else is_slice self (cache_free (Z.to_nat idx) s st) }}}.
Proof. intros H. by apply wp_slice_free; [apply _|]. Qed.

Lemma slice_free_refines_witness :
  {{{ is_slice 6400 empty_cache ∗ (∃ v, slice_next 64 ↦ v) ∗ slice_body 1 32 64 }}}
    slice_free 6400 80 @ no_yield
  {{{ _, is_slice 6400 (cache_free 1 64 empty_cache) }}}.
Proof. apply (slice_free_refines 6400 empty_cache 1 32 64). right. split; [unfold NCLASSES; lia|lia]. Defined.

(** Releasing a slice and asking for the same class again returns the same
    block without calling the C library for more memory. *)
Theorem slice_free_alloc_same self st i s :
  0 <= i < Z.of_nat NCLASSES ->
  {{{ is_slice self st ∗ (∃ v, slice_next s ↦ v) ∗ slice_body i (16 * (i + 1)) s }}}
    (slice_free self (s + SIZEOF_SLICE) ~;; slice_alloc self (16 * (i + 1))) @ no_yield
  {{{ p, ⌞p = (s + SIZEOF_SLICE)%Z⌟ ∗ (∃ st', is_slice self st') ∗ user_block p (16 * (i + 1)) }}}.
Proof.
  intros Hi. change (Z.of_nat NCLASSES) with 256 in Hi. unfold ctriple. iIntros "H".
  iApply cwp_bind. iApply cwp_wand. iSplitL.
  { iApply (wp_slice_free with "H"). right. split; [unfold NCLASSES; lia|done]. }
  iIntros (_) "H". destruct (Z.ltb_spec i 0); [lia|].
  iAssert ⌜length (classes (cache_free (Z.to_nat i) s st)) = NCLASSES⌝%I as %Hlen.
  { iDestruct "H" as "([%Hwf _] & _)". by rw (wf_classes _ Hwf). }
  unfold cache_free in Hlen. destruct (cache_pop_push (Z.to_nat i) s (if MAX_CACHED_SLICE_COUNT <=?
    Z.of_nat (cached st) then match cache_evict st with Some (_, st') => st' | None => st end else st))
    as [st' Hpop]; [rw Hlen; unfold NCLASSES; lia|]. change (cache_pop (Z.to_nat i)
    (cache_free (Z.to_nat i) s st) = Some (s, st')) in Hpop.
  iApply cwp_wand. iSplitL; [iApply (wp_slice_alloc with "H"); unfold MAX_REQUEST; lia|].
  iIntros (p) "H". unfold alloc_post. cbv zeta.
  assert (request_index (16 * (i + 1)) = i + 1) as -> by (unfold request_index; div_lia).
  destruct (Z.eqb_spec (i + 1) 0); [lia|].
  destruct (Z.leb_spec (i + 1) MAX_CACHED_SLICE_INDEX) as [_|Hgt];
    [|change MAX_CACHED_SLICE_INDEX with 256 in Hgt; lia].
  replace (i + 1 - 1) with i by lia. rw Hpop.
  iDestruct "H" as "(-> & H & $)". iSplitR; [done|by iExists st'].
Qed.

Lemma slice_free_alloc_same_witness :
  {{{ is_slice 6400 empty_cache ∗ (∃ v, slice_next 64 ↦ v) ∗ slice_body 1 32 64 }}}
    (slice_free 6400 80 ~;; slice_alloc 6400 32) @ no_yield
  {{{ p, ⌞p = 80⌟ ∗ (∃ st', is_slice 6400 st') ∗ user_block p 32 }}}.
Proof. apply (slice_free_alloc_same 6400 empty_cache 1 64). unfold NCLASSES. lia. Defined.

(** The number of cached slices never exceeds
    [CONFIG_MEMALLOC_SLICE_MAX_COUNT], whatever is released. *)
Theorem slice_cache_bounded self st idx cap s :
  idx < 0 \/ 0 <= idx < Z.of_nat NCLASSES /\ cap = 16 * (idx + 1) ->
  {{{ is_slice self st ∗ (∃ v, slice_next s ↦ v) ∗ slice_body idx cap s }}}
    (slice_free self (s + SIZEOF_SLICE) ~;;
     count <! load (sl_cached_count self) ;; Ret count) @ no_yield
  {{{ count, ⌞0 <= count <= MAX_CACHED_SLICE_COUNT⌟ ∗ ∃ st', is_slice self st' }}}.
Proof.
  intros H. unfold ctriple. iIntros "H". iApply cwp_bind. iApply cwp_wand. iSplitL.
  { by iApply (wp_slice_free with "H"). }
  iIntros (_) "H". iAssert (∃ st', is_slice self st')%I with "[H]" as (st') "H".
  { destruct (idx <? 0); by iExists _. }
  iDestruct "H" as "([%Hwf %Hself] & Hl & Hu & Hc & Hcl)". cbn [cwp]. wp_load.
  iSplitR; [iPureIntro; pose proof (wf_count _ Hwf); lia|]. iExists st'. by iFrame.
Qed.

Lemma slice_cache_bounded_witness :
  {{{ is_slice 6400 empty_cache ∗ (∃ v, slice_next 64 ↦ v) ∗ slice_body 1 32 64 }}}
    (slice_free 6400 80 ~;; count <! load (sl_cached_count 6400) ;; Ret count) @ no_yield
  {{{ count, ⌞0 <= count <= MAX_CACHED_SLICE_COUNT⌟ ∗ ∃ st', is_slice 6400 st' }}}.
Proof.
  apply (slice_cache_bounded 6400 empty_cache 1 32 64). right. split; [unfold NCLASSES; lia|lia].
Defined.

(** ** A client of the allocator *)

(** What a client asks for: a block of so many bytes, or the release of the
    [i]-th block it holds. *)
Inductive slice_op : Type := SliceAlloc (n : Z) | SliceFree (i : nat).

Definition slice_op_ok (op : slice_op) : Prop :=
  match op with SliceAlloc n => 0 <= n <= MAX_REQUEST | SliceFree _ => True end.

(** The blocks held after the requests, those held before being [held]. *)
Fixpoint slice_script (self : Z) (held : list Z) (ops : list slice_op) : co (list Z) :=
  match ops with
  | [] => Ret held
  | SliceAlloc n :: ops =>
      p <~ slice_alloc self n ;;
      slice_script self (if is_true p then p :: held else held) ops
  | SliceFree i :: ops =>
      match held !! i with
      | Some p => slice_free self p ~;; slice_script self (delete i held) ops
      | None => slice_script self held ops
      end
  end.

Fixpoint slice_free_all (self : Z) (held : list Z) : co unit :=
  match held with
  | [] => Ret tt
  | p :: held => slice_free self p ~;; slice_free_all self held
  end.

Definition slice_client (ops : list slice_op) : co unit :=
  self <~ slice_new ;;
  if negb (is_true self) then Ret tt else
  held <~ slice_script self [] ops ;;
  slice_free_all self held ~;;
  hev_memory_allocator_unref self.

(** The client's blocks, whatever their sizes. *)
Definition held_blocks (held : list Z) : heapProp := ([∗ list] p ∈ held, ∃ n, user_block p n)%I.

Definition some_slice (self : Z) : heapProp := (∃ st, is_slice self st)%I.

Lemma cwp_slice_request self st n :
  0 <= n <= MAX_REQUEST ->
  is_slice self st ⊢ cwp no_yield (slice_alloc self n) (fun p =>
    some_slice self ∗ (⌞p = NULL⌟ ∨ user_block p n)).
Proof.
  intros Hn. iIntros "H". iApply cwp_wand. iSplitL; [by iApply (wp_slice_alloc with "H")|].
  iIntros (p) "H". destruct (decide (n = 0)) as [->|].
  - change (alloc_post self st 0 p) with (⌞p = NULL⌟ ∗ is_slice self st)%I.
    iDestruct "H" as "[-> H]". iSplitL; [by iExists st|by iLeft].
  - iApply (alloc_post_heap with "H"). lia.
Qed.

Lemma cwp_slice_release self p n :
  some_slice self ∗ user_block p n ⊢ cwp no_yield (slice_free self p) (fun _ => some_slice self).
Proof.
  iIntros "[[%st H] (%idx & %cap & [_ %Hi] & Hs & Hb)]".
  pose proof (wp_slice_free no_yield self st idx cap (p - SIZEOF_SLICE)) as Hw.
  replace (p - SIZEOF_SLICE + SIZEOF_SLICE) with p in Hw by lia.
  iApply cwp_wand. iSplitL.
  { iApply Hw; [destruct Hi as [->|]; [left; lia|by right]|].
    iSplitL "H"; [iExact "H"|]. iSplitL "Hs"; [iExact "Hs"|iExact "Hb"]. }
  iIntros (_) "H". destruct (idx <? 0); iExists _; iExact "H".
Qed.

Lemma cwp_slice_script self ops held :
  Forall slice_op_ok ops ->
  some_slice self ∗ held_blocks held
  ⊢ cwp no_yield (slice_script self held ops) (fun held => some_slice self ∗ held_blocks held).
Proof.
  intros Hok. revert held. induction Hok as [|[n|i] ops Hn _ IH]; intros held; cbn [slice_script].
  - iIntros "H". iExact "H".
  - iIntros "[[%st H] Hb]". iApply cwp_bind. iApply cwp_wand.
    iSplitL "H"; [by iApply cwp_slice_request|]. iIntros (p) "[H Hp]". iApply IH. iFrame "H".
    iDestruct "Hp" as "[->|Hp]"; [iExact "Hb"|]. iDestruct (user_block_pos with "Hp") as %[Hp _].
    rw is_true_nonnull; [|unfold NULL; lia]. iSplitL "Hp"; [by iExists n|iExact "Hb"].
  - destruct (held !! i) as [p|] eqn:Hi; [|apply IH]. iIntros "[H Hb]".
    iDestruct (big_sepL_perm _ _ _ (delete_Permutation _ _ _ Hi) with "Hb") as "Hb".
    iDestruct "Hb" as "[[%n Hp] Hb]". iApply cwp_bind. iApply cwp_wand.
    iSplitL "H Hp"; [by iApply (cwp_slice_release with "[$H $Hp]")|].
    iIntros (_) "H". iApply IH. iSplitL "H"; [iExact "H"|iExact "Hb"].
Qed.

Lemma cwp_slice_free_all self held :
  some_slice self ∗ held_blocks held
  ⊢ cwp no_yield (slice_free_all self held) (fun _ => some_slice self).
Proof.
  induction held as [|p held IH]; cbn [slice_free_all].
  - iIntros "[H _]". iExact "H".
  - iIntros "[H [[%n Hp] Hb]]". iApply cwp_bind. iApply cwp_wand.
    iSplitL "H Hp"; [by iApply (cwp_slice_release with "[$H $Hp]")|].
    iIntros (_) "H". iApply IH. iSplitL "H"; [iExact "H"|iExact "Hb"].
Qed.

(** C32. An allocator that is created, used through any sequence of requests
    and releases, and dropped when its blocks have been released leaves nothing
    behind: its own block, every slice in its cache, of whatever classes, and
    every block that was not cached are back in the C library, each once. *)
Theorem slice_no_leak ops :
  Forall slice_op_ok ops ->
  {{{ emp }}} slice_client ops @ no_yield {{{ _, emp }}}.
Proof.
  intros Hok. unfold ctriple, slice_client. iIntros "H". iApply cwp_bind. iApply cwp_wand.
  iSplitL; [by iApply wp_slice_new|]. iIntros (self) "[->|H]".
  { change (is_true NULL) with false. by cbn [negb cwp]. }
  iAssert ⌜0 < self⌝%I as %Hpos.
  { iDestruct "H" as "(([%Hw %Hp] & _) & _)". iPureIntro. exact Hp. }
  rw is_true_nonnull; [|unfold NULL; lia]. cbn [negb]. iDestruct "H" as "[H Hobj]".
  iApply cwp_bind. iApply cwp_wand. iSplitL "H".
  { iApply (cwp_slice_script self ops []); [done|]. iSplitL; [by iExists empty_cache|by unfold held_blocks]. }
  iIntros (held) "H". iApply cwp_bind. iApply cwp_wand.
  iSplitL "H"; [by iApply cwp_slice_free_all|]. iIntros (_) "[%st H]".
  iApply wp_slice_unref. iSplitL "H"; [iExact "H"|iExact "Hobj"].
Qed.

Lemma slice_no_leak_witness :
  {{{ emp }}}
    slice_client [SliceAlloc 40; SliceAlloc 40; SliceAlloc 9; SliceFree 0; SliceFree 0; SliceAlloc 16]
    @ no_yield
  {{{ _, emp }}}.
Proof.
  apply slice_no_leak. unfold slice_op_ok, MAX_REQUEST. repeat constructor; lia.
Defined.

(** Over either allocator, [hev_calloc (nmemb, size)] returns NULL or a
    block of [nmemb * size] bytes whose cells are all 0, as long as the product
    is a request the allocator can serve. *)
Theorem calloc_zeroed `{!Allocator} nmemb size :
  0 < nmemb -> 0 < size -> nmemb * size <= MAX_REQUEST ->
  {{{ al_heap }}} hev_calloc nmemb size @ no_yield
  {{{ p, al_heap ∗ (⌞p = NULL⌟ ∨ zeroed p (nmemb * size)) }}}.
Proof. apply wp_hev_calloc, _. Qed.

Lemma calloc_zeroed_witness :
  {{{ slice_heap 6400 }}} hev_calloc 3 8 @ no_yield
  {{{ p, slice_heap 6400 ∗ (⌞p = NULL⌟ ∨ @zeroed (slice_allocator 6400) p (3 * 8)) }}}.
Proof. apply (@calloc_zeroed (slice_allocator 6400) 3 8); unfold MAX_REQUEST; lia. Defined.

(** ** Sizes of 64 GiB and more *)

(** The class number of such a size goes round. *)
Lemma truncated_index k n :
  0 < k -> 0 < n <= 16 * Z.of_nat NCLASSES -> k * 2 ^ 36 + n < 2 ^ 64 ->
  s32 (ALIGN_UP (k * 2 ^ 36 + n) CACHED_SLICE_ALIGN / CACHED_SLICE_ALIGN) = (n + 15) / 16.
Proof.
  change (Z.of_nat NCLASSES) with 256. intros Hk Hn Hm. set (q := (n + 15) / 16).
  assert (1 <= q <= 256) as Hq by (unfold q; div_lia).
  assert (k < 2 ^ 28) as Hk28 by lia.
  assert (ALIGN_UP (k * 2 ^ 36 + n) CACHED_SLICE_ALIGN = 16 * (k * 2 ^ 32 + q)) as ->.
  { unfold ALIGN_UP, CACHED_SLICE_ALIGN. rw w64_small; [|lia].
    rw -Z.ldiff_land. change (16 - 1) with (Z.ones 4). rw Z.ldiff_ones_r // Z.shiftr_div_pow2 //.
    rw Z.shiftl_mul_pow2 //. change (2 ^ 4) with 16. unfold q. div_lia. }
  unfold CACHED_SLICE_ALIGN. rw Z.mul_comm Z.div_mul //.
  unfold s32. div_lia.
Qed.

(** C39. A request of [k * 2^36 + n] bytes, [k] at least 1 and [n] from 1 to
    4096, has a class number that does not fit an [int]: when a slice of the
    class that the number is cut down to is cached, the request is answered
    with that slice, a block of [n] bytes rounded up to 16. *)
Theorem slice_alloc_truncated self st k n s L :
  0 < k -> 0 < n <= 16 * Z.of_nat NCLASSES -> k * 2 ^ 36 + n < 2 ^ 64 ->
  class_of st (Z.to_nat (request_index n - 1)) = s :: L ->
  {{{ is_slice self st }}} slice_alloc self (k * 2 ^ 36 + n) @ no_yield
  {{{ p, ⌞p = (s + SIZEOF_SLICE)%Z⌟ ∗ (∃ st', is_slice self st') ∗ (∃ v, slice_next s ↦ v) ∗
         slice_body (request_index n - 1) (16 * request_index n) s }}}.
Proof.
  intros Hk Hn Hm HL. unfold ctriple, slice_alloc. cbv zeta. rw truncated_index //.
  fold (request_index n).
  assert (1 <= request_index n <= 256) as Hi.
  { change (Z.of_nat NCLASSES) with 256 in Hn. unfold request_index. div_lia. }
  set (i := request_index n) in *.
  assert (exists st', cache_pop (Z.to_nat (i - 1)) st = Some (s, st')) as [st' Hpop].
  { unfold cache_pop. rw HL. by eexists. }
  destruct (Z.eqb_spec i 0) as [|_]; [lia|]. rw (proj2 (Z.leb_le 1 i)); [|lia].
  change MAX_CACHED_SLICE_INDEX with 256. rw (proj2 (Z.leb_le i 256)); [|lia]. cbn [andb].
  iIntros "H". iApply cwp_wand. iSplitL.
  { iDestruct (wp_slice_hit no_yield self st _ s st' _ Hpop with "H") as "H".
    rw Z2Nat.id; [|lia]. replace (i - 1 + 1) with i by lia. iExact "H". }
  iIntros (p) "($ & H & $ & $)". by iExists st'.
Qed.

Lemma slice_alloc_truncated_witness :
  {{{ is_slice 6400 (cache_push 0 64 empty_cache) }}} slice_alloc 6400 (1 * 2 ^ 36 + 16) @ no_yield
  {{{ p, ⌞p = 80⌟ ∗ (∃ st', is_slice 6400 st') ∗ (∃ v, slice_next 64 ↦ v) ∗
         slice_body 0 16 64 }}}.
Proof.
  apply (slice_alloc_truncated 6400 (cache_push 0 64 empty_cache) 1 16 64 []);
    [lia|unfold NCLASSES; lia|lia|reflexivity].
Defined.
