(* ===== verification/TaskBase.v ===== *)
(** * TaskBase: tasks, their stacks and the system context as data

    The structs [HevTask] and [HevTaskSystemContext], the stack backends of
    [kern/task] and the life cycle of a task object ([hev_task_new],
    [hev_task_ref], [hev_task_unref], [hev_task_destroy]). *)

From S2P Require Export Prelude.
From S2P Require Export Env.
From S2P Require Export Dll.
From S2P Require Export Mem.

(** ** Constants of [hev-task.h] and [hev-task-system-private.h] *)

Definition HEV_TASK_STOPPED : Z := 0.
Definition HEV_TASK_RUNNING : Z := 1.
Definition HEV_TASK_WAITING : Z := 2.

Definition HEV_TASK_YIELD : Z := 1.
Definition HEV_TASK_WAITIO : Z := 2.
Definition HEV_TASK_YIELD_COUNT : Z := 3.

Definition HEV_TASK_SCHED_SWITCH : Z := HEV_TASK_YIELD.
Definition HEV_TASK_SCHED_WAITIO : Z := HEV_TASK_WAITIO.
Definition HEV_TASK_SCHED_REMOVE : Z := HEV_TASK_YIELD_COUNT.
Definition HEV_TASK_RUN_SCHEDULER : Z := HEV_TASK_YIELD_COUNT.

Definition HEV_TASK_PRIORITY_MIN : Z := 0.
Definition HEV_TASK_PRIORITY_MAX : Z := 15.
Definition HEV_TASK_PRIORITY_DEFAULT : Z := 8.

(** ** [struct _HevTask] *)

Definition task_stack_bottom (t : Z) : Z := t.
Definition task_entry (t : Z) : Z := t + 8.
Definition task_data (t : Z) : Z := t + 16.
Definition task_sched_key (t : Z) : Z := t + 24.
Definition task_sched_node (t : Z) : Z := t + 32.
Definition task_stack (t : Z) : Z := t + 56.
Definition task_joiner (t : Z) : Z := t + 64.
Definition task_ref_count (t : Z) : Z := t + 72.
Definition task_priority (t : Z) : Z := t + 76.
Definition task_next_priority (t : Z) : Z := t + 77.
Definition task_state (t : Z) : Z := t + 78.
Definition task_list_node (t : Z) : Z := t + 280.
Definition SIZEOF_TASK : Z := 296.

(** [container_of (node, HevTask, sched_node)] and [..., list_node)] *)
Definition task_of_sched_node (n : Z) : Z := n - 32.
Definition task_of_list_node (n : Z) : Z := n - 280.

(** The event data of a task, or of a slot that holds one. *)
Definition HEV_TASK_SCHED_SLOT_TAG : Z := 1.

Definition hev_task_to_data (task : Z) : Z := task.
Definition hev_task_slot_to_data (slot : Z) : Z := Z.lor slot HEV_TASK_SCHED_SLOT_TAG.
Definition hev_task_from_data (data : Z) : M Z :=
  if is_true (Z.land data HEV_TASK_SCHED_SLOT_TAG)
  then load (Z.land data (Z.lnot HEV_TASK_SCHED_SLOT_TAG))
  else ret data.

(** ** [struct _HevTaskSystemContext] *)

Definition ctx_total_task_count (c : Z) : Z := c.
Definition ctx_running_task_count (c : Z) : Z := c + 4.
Definition ctx_timer (c : Z) : Z := c + 8.
Definition ctx_reactor (c : Z) : Z := c + 16.
Definition ctx_dns_proxy (c : Z) : Z := c + 24.
Definition ctx_stack_detector (c : Z) : Z := c + 32.
Definition ctx_current_task (c : Z) : Z := c + 40.
Definition ctx_running_tasks (c : Z) : Z := c + 48.
Definition ctx_all_tasks (c : Z) : Z := c + 280.
Definition SIZEOF_CONTEXT : Z := 296.

(** The thread's context. *)
Definition hev_task_system_tls_context : Z := 24.

Definition hev_task_system_get_context : M Z := load hev_task_system_tls_context.

(** ** Stacks: [hev-task-stack.c] and the two backends *)

Definition getpagesize : co Z := sys "getpagesize" [].

Definition STACK_RELEASE_MARGIN : Z := 512.
Definition MADV_DONTNEED : Z := 4.

Definition hev_task_stack_discard (start sp : Z) : co unit :=
  page_size <~ getpagesize ;;
  let start := ALIGN_UP start page_size in
  let end_ := ALIGN_DOWN (w64 (sp - STACK_RELEASE_MARGIN)) page_size in
  co_when (start <? end_)
    (sys "madvise" [start; end_ - start; MADV_DONTNEED] ~;; Ret tt).

(** [STACK_MMAP], with [ENABLE_STACK_OVERFLOW_DETECTION]. *)
Definition stack_size (s : Z) : Z := s.
Definition stack_stack (s : Z) : Z := s + 8.
Definition SIZEOF_STACK : Z := 16.

(** [static int page_size] of [hev_task_stack_new]. *)
Definition stack_page_size : Z := 32.

Definition MAP_FAILED : Z := 2 ^ 64 - 1.
Definition PROT_NONE : Z := 0.
Definition PROT_READ_WRITE : Z := 3.
Definition MAP_PRIVATE_ANON_STACK : Z := 131106.

Definition ALIGN_UP_int (addr align : Z) : Z :=
  Z.land (s32 (addr + align - 1)) (Z.lnot (align - 1)).

Definition hev_task_stack_new (size : Z) : co Z :=
  page_size <! load stack_page_size ;;
  co_when (negb (is_true page_size))
    (p <~ getpagesize ;; act (store stack_page_size p)) ~;;
  page_size <! load stack_page_size ;;
  let size := s32 (ALIGN_UP_int size page_size + page_size) in
  self <~ hev_malloc SIZEOF_STACK ;;
  if negb (is_true self) then Ret NULL else
  stack <~ sys "mmap" [NULL; size; PROT_READ_WRITE; MAP_PRIVATE_ANON_STACK; -1; 0] ;;
  store (stack_stack self) stack !;;
  if stack =? MAP_FAILED then hev_free self ~;; Ret NULL else
  r <~ sys "mprotect" [stack; page_size; PROT_NONE] ;;
  if r <? 0 then
    sys "munmap" [stack; size] ~;; hev_free self ~;; Ret NULL
  else
    store (stack_size self) size !;;
    Ret self.

Definition hev_task_stack_destroy (self : Z) : co unit :=
  stack <! load (stack_stack self) ;;
  size <! load (stack_size self) ;;
  sys "munmap" [stack; size] ~;;
  hev_free self.

Definition hev_task_stack_release (self sp : Z) : co unit :=
  start <! load (stack_stack self) ;;
  page <~ getpagesize ;;
  hev_task_stack_discard (start + page) sp.

Definition hev_task_stack_get_base (self : Z) : M Z := load (stack_stack self).

Definition hev_task_stack_get_bottom (self : Z) : M Z :=
  stack <- load (stack_stack self) ;;
  size <- load (stack_size self) ;;
  ret (stack + size).

(** [STACK_HEAP], with the configured one-tag overflow detection. *)
Definition STACK_OVERFLOW_DETECTION_SIZE : Z := 4.
Definition STACK_OVERFLOW_DETECTION_TAG : Z := 3735928559.
Definition SIZEOF_HEAP_STACK : Z := 4.

Definition stack_tags (self : Z) : list Z :=
  (fun i => self + SIZEOF_HEAP_STACK + 4 * i) <$> zrange 0 (STACK_OVERFLOW_DETECTION_SIZE / 4).

Definition hev_task_stack_detection_mark (self : Z) : M unit :=
  store_all (stack_tags self) STACK_OVERFLOW_DETECTION_TAG.

Fixpoint check_tags (l : list Z) : M unit :=
  match l with
  | [] => ret tt
  | a :: l => v <- load a ;; if v =? STACK_OVERFLOW_DETECTION_TAG then check_tags l else abort
  end.

Definition hev_task_stack_detection_check (self : Z) : M unit := check_tags (stack_tags self).

Definition heap_stack_new (size : Z) : co Z :=
  let size := s32 (size + STACK_OVERFLOW_DETECTION_SIZE) in
  self <~ hev_malloc (w64 (SIZEOF_HEAP_STACK + size)) ;;
  (if is_true self then
     store (stack_size self) size ;;; hev_task_stack_detection_mark self
   else ret tt) !;;
  Ret self.

Definition heap_stack_destroy (self : Z) : co unit :=
  hev_task_stack_detection_check self !;;
  hev_free self.

Definition heap_stack_release (self sp : Z) : co unit :=
  hev_task_stack_discard (self + SIZEOF_HEAP_STACK + STACK_OVERFLOW_DETECTION_SIZE) sp.

Definition heap_stack_get_base (self : Z) : Z := self + SIZEOF_HEAP_STACK.

Definition heap_stack_get_bottom (self : Z) : M Z :=
  size <- load (stack_size self) ;; ret (ALIGN_DOWN (self + size) 16).

(** ** Task objects *)

Definition HEV_TASK_STACK_SIZE : Z := 65536.

Definition hev_task_new (stack_size : Z) : co Z :=
  self <~ hev_malloc0 SIZEOF_TASK ;;
  if negb (is_true self) then Ret NULL else
  store (task_ref_count self) 1 !;;
  store (task_next_priority self) HEV_TASK_PRIORITY_DEFAULT !;;
  let stack_size := if stack_size <? 0 then HEV_TASK_STACK_SIZE else stack_size in
  stack <~ hev_task_stack_new stack_size ;;
  store (task_stack self) stack !;;
  if negb (is_true stack) then hev_free self ~;; Ret NULL else
  bottom <! hev_task_stack_get_bottom stack ;;
  store (task_stack_bottom self) bottom !;;
  ctx <! hev_task_system_get_context ;;
  hev_list_add_tail (ctx_all_tasks ctx) (task_list_node self) !;;
  Ret self.

Definition hev_task_ref (self : Z) : M Z :=
  rc <- load (task_ref_count self) ;;
  store (task_ref_count self) (s32 (rc + 1)) ;;;
  ret self.

Definition hev_task_destroy (self : Z) : co unit :=
  ctx <! hev_task_system_get_context ;;
  hev_list_del (ctx_all_tasks ctx) (task_list_node self) !;;
  stack <! load (task_stack self) ;;
  hev_task_stack_destroy stack ~;;
  hev_free self.

Definition hev_task_unref (self : Z) : co unit :=
  rc <! load (task_ref_count self) ;;
  store (task_ref_count self) (s32 (rc - 1)) !;;
  rc <! load (task_ref_count self) ;;
  if is_true rc then Ret tt else hev_task_destroy self.
