(* ===== verification/Queue.v ===== *)
(** * Queue: the run queue of the scheduler

    The functions of [hev-task-system-schedule.c] that keep the tree of
    running tasks, ordered by [sched_key], and the wakeup of a waiting task.
    The configured scheduling clock is [CLOCK_NONE]. *)

From S2P Require Export Prelude.
From S2P Require Export RBTree.
From S2P Require Export TaskBase.

(** [hev_task_system_get_clock_time]: nothing to read without a clock. *)
Definition hev_task_system_get_clock_time : M unit := ret tt.

Definition hev_task_system_update_sched_key (ctx : Z) : M unit :=
  curr_task <- load (ctx_current_task ctx) ;;
  let runtime := 1 in
  key <- load (task_sched_key curr_task) ;;
  priority <- load (task_priority curr_task) ;;
  store (task_sched_key curr_task) (w64 (key + runtime * priority)).

Definition hev_task_system_update_sched_time (ctx : Z) : M unit :=
  hev_task_system_get_clock_time.

Definition hev_task_system_get_min_sched_key (ctx : Z) : M Z :=
  sched_node <- hev_rbtree_cached_first (ctx_running_tasks ctx) ;;
  if is_true sched_node then load (task_sched_key (task_of_sched_node sched_node))
  else ret 0.

(** [task->sched_key < this->sched_key] *)
Definition task_before (task : Z) (node : Z) : M bool :=
  key <- load (task_sched_key task) ;;
  this_key <- load (task_sched_key (task_of_sched_node node)) ;;
  ret (key <? this_key).

Definition _hev_task_system_insert_task (tree task : Z) : M unit :=
  _ <- rb_cached_insert_by tree (task_sched_node task) (task_before task) ;; ret tt.

Definition hev_task_system_insert_task (ctx task : Z) : M unit :=
  store (task_state task) HEV_TASK_RUNNING ;;;
  next_priority <- load (task_next_priority task) ;;
  store (task_priority task) next_priority ;;;
  _hev_task_system_insert_task (ctx_running_tasks ctx) task ;;;
  count <- load (ctx_running_task_count ctx) ;;
  store (ctx_running_task_count ctx) (w32 (count + 1)).

Definition hev_task_system_reinsert_current_task (ctx : Z) : M unit :=
  task <- load (ctx_current_task ctx) ;;
  next_priority <- load (task_next_priority task) ;;
  store (task_priority task) next_priority ;;;
  hev_rbtree_cached_erase (ctx_running_tasks ctx) (task_sched_node task) ;;;
  _hev_task_system_insert_task (ctx_running_tasks ctx) task.

Definition hev_task_system_remove_current_task (ctx state : Z) : co unit :=
  task <! load (ctx_current_task ctx) ;;
  store (task_state task) state !;;
  hev_rbtree_cached_erase (ctx_running_tasks ctx) (task_sched_node task) !;;
  count <! load (ctx_running_task_count ctx) ;;
  store (ctx_running_task_count ctx) (w32 (count - 1)) !;;
  if HEV_TASK_STOPPED =? state then
    total <! load (ctx_total_task_count ctx) ;;
    store (ctx_total_task_count ctx) (w32 (total - 1)) !;;
    hev_task_unref task
  else
    next_priority <! load (task_next_priority task) ;;
    act (store (task_sched_key task) next_priority).

Definition hev_task_system_wakeup_task_with_context (ctx task : Z) : M unit :=
  state <- load (task_state task) ;;
  if state =? HEV_TASK_RUNNING then ret tt
  else if state =? HEV_TASK_STOPPED then abort
  else
    key <- load (task_sched_key task) ;;
    min <- hev_task_system_get_min_sched_key ctx ;;
    store (task_sched_key task) (w64 (key + min)) ;;;
    hev_task_system_insert_task ctx task.

Definition hev_task_system_wakeup_task (task : Z) : M unit :=
  ctx <- hev_task_system_get_context ;;
  hev_task_system_wakeup_task_with_context ctx task.
