(* ===== verification/Timer.v ===== *)
(** * Timer: sleeping tasks, [src/src/kern/time]

    Points in time are pairs of seconds and nanoseconds ([struct timespec]);
    the sleeping tasks are in a red-black tree ordered by expiry. *)

From S2P Require Export Prelude.
From S2P Require Export RBTree.
From S2P Require Export TaskBase.
From S2P Require Export Queue.

(** ** Layout *)

Definition timer_sort_tree (self : Z) : Z := self.
Definition timer_ctx (self : Z) : Z := self + 16.
Definition timer_cached_curr (self : Z) : Z := self + 24.
Definition timer_cached_curr_valid (self : Z) : Z := self + 40.
Definition timer_poll_deadline (self : Z) : Z := self + 48.
Definition SIZEOF_TIMER : Z := 64.

Definition tnode_base (node : Z) : Z := node.
Definition tnode_expire (node : Z) : Z := node + 24.
Definition tnode_task (node : Z) : Z := node + 40.

(** [struct timespec] in memory. *)
Definition ts_sec (a : Z) : Z := a.
Definition ts_nsec (a : Z) : Z := a + 8.

Definition timespec : Type := (Z * Z)%type.

Definition load_ts (a : Z) : M timespec :=
  sec <- load (ts_sec a) ;; nsec <- load (ts_nsec a) ;; ret (sec, nsec).
Definition store_ts (a : Z) (ts : timespec) : M unit :=
  store (ts_sec a) ts.1 ;;; store (ts_nsec a) ts.2.

(** ** Arithmetic *)

Definition hev_task_timer_cmp (a b : timespec) : Z :=
  if a.1 <? b.1 then -1
  else if b.1 <? a.1 then 1
  else if a.2 <? b.2 then -1
  else if b.2 <? a.2 then 1
  else 0.

Definition hev_task_timer_node_cmp (a b : Z) : M Z :=
  ea <- load_ts (tnode_expire a) ;;
  eb <- load_ts (tnode_expire b) ;;
  let res := hev_task_timer_cmp ea eb in
  ret (if is_true res then res
       else if a <? b then -1 else if b <? a then 1 else 0).

Definition hev_task_timer_get_expire (expire : timespec) (milliseconds : Z) : timespec :=
  let sec := expire.1 + milliseconds / 1000 in
  let nsec := expire.2 + (milliseconds mod 1000) * 1000000 in
  if 1000000000 <=? nsec then (sec + 1, nsec - 1000000000) else (sec, nsec).

Definition hev_task_timer_add_ns (ts : timespec) (ns : Z) : timespec :=
  let sec := ts.1 + ns / 1000000000 in
  let nsec := ts.2 + ns mod 1000000000 in
  if 1000000000 <=? nsec then (sec + 1, nsec - 1000000000) else (sec, nsec).

(** The result is an [unsigned int]. *)
Definition hev_task_timer_get_time (curr expire : timespec) : Z :=
  let sec := expire.1 - curr.1 in
  let nsec := expire.2 - curr.2 in
  let '(sec, nsec) := if nsec <? 0 then (sec - 1, nsec + 1000000000) else (sec, nsec) in
  if sec <? 0 then 0
  else w32 (sec * 1000 + (nsec + 999999) / 1000000).

(** ** The clock *)

Definition HEV_TASK_TIMER_CLOCK : Z := 1.

Definition hev_task_timer_get_curr : co timespec :=
  a <~ call (Query "clock_gettime" [HEV_TASK_TIMER_CLOCK] 2) ;;
  if a_ret a <? 0 then act abort
  else
    match a_data a with
    | [sec; nsec] => Ret (sec, nsec)
    | _ => act (fail Undefined)
    end.

(** ** Operations *)

Definition hev_task_timer_new (ctx : Z) : co Z :=
  self <~ hev_malloc0 SIZEOF_TIMER ;;
  if negb (is_true self) then Ret NULL else
  store (timer_ctx self) ctx !;;
  Ret self.

Definition hev_task_timer_destroy (self : Z) : co unit := hev_free self.

(** The first timer's expiry, [None] for NULL. *)
Definition hev_task_timer_peek_expiry (self : Z) : M (option timespec) :=
  node <- hev_rbtree_cached_first (timer_sort_tree self) ;;
  if negb (is_true node) then ret None else
  expire <- load_ts (tnode_expire node) ;;
  ret (Some expire).

(** The result is an [int]. *)
Definition hev_task_timer_get_timeout (self : Z) : co Z :=
  node <! hev_rbtree_cached_first (timer_sort_tree self) ;;
  if negb (is_true node) then Ret (-1) else
  valid <! load (timer_cached_curr_valid self) ;;
  curr <~ (if is_true valid then
             curr <! load_ts (timer_cached_curr self) ;;
             store (timer_cached_curr_valid self) 0 !;;
             Ret curr
           else hev_task_timer_get_curr) ;;
  expire <! load_ts (tnode_expire node) ;;
  Ret (s32 (hev_task_timer_get_time curr expire)).

Definition hev_task_timer_wakeup (self : Z) (curr : timespec) : M unit :=
  node <- hev_rbtree_cached_first (timer_sort_tree self) ;;
  if negb (is_true node) then ret tt else
  expire <- load_ts (tnode_expire node) ;;
  if hev_task_timer_cmp curr expire <? 0 then ret tt else
  ctx <- load (timer_ctx self) ;;
  task <- load (tnode_task node) ;;
  hev_task_system_wakeup_task_with_context ctx task.

Definition hev_task_timer_wake (self : Z) : co unit :=
  store (timer_cached_curr_valid self) 0 !;;
  node <! hev_rbtree_cached_first (timer_sort_tree self) ;;
  if negb (is_true node) then Ret tt else
  curr <~ hev_task_timer_get_curr ;;
  act (hev_task_timer_wakeup self curr).

Definition hev_task_timer_poll_due (self : Z) : co bool :=
  curr <~ hev_task_timer_get_curr ;;
  deadline <! load_ts (timer_poll_deadline self) ;;
  if hev_task_timer_cmp curr deadline <? 0 then
    expire <! hev_task_timer_peek_expiry self ;;
    match expire with
    | None => Ret false
    | Some expire => Ret (negb (0 <? hev_task_timer_cmp expire deadline))
    end
  else Ret true.

Definition hev_task_timer_poll_rearm (self interval : Z) : co unit :=
  ts <~ hev_task_timer_get_curr ;;
  act (store_ts (timer_poll_deadline self) (hev_task_timer_add_ns ts interval)).

(** [result < 0] of the insertion loop of [hev_task_timer_wait]. *)
Definition timer_before (node this : Z) : M bool :=
  result <- hev_task_timer_node_cmp node this ;; ret (result <? 0).

(** The first half: record the expiry and insert the node.  The result is the
    loop's [leftmost]. *)
Definition timer_insert (self node : Z) (curr : timespec) (milliseconds task : Z) : M bool :=
  store_ts (timer_cached_curr self) curr ;;;
  store (timer_cached_curr_valid self) 1 ;;;
  store_ts (tnode_expire node) (hev_task_timer_get_expire curr milliseconds) ;;;
  store (tnode_task node) task ;;;
  rb_cached_insert_by (timer_sort_tree self) (tnode_base node) (timer_before node).

(** [node] is the local variable [curr_node]. *)
Definition hev_task_timer_wait (self milliseconds task node : Z) : co Z :=
  curr <~ hev_task_timer_get_curr ;;
  leftmost <! timer_insert self node curr milliseconds task ;;
  call (Yield HEV_TASK_WAITIO) ~;;
  first <! hev_rbtree_cached_first (timer_sort_tree self) ;;
  let leftmost := leftmost || (tnode_base node =? first) in
  hev_rbtree_cached_erase (timer_sort_tree self) (tnode_base node) !;;
  curr <~ hev_task_timer_get_curr ;;
  when leftmost (hev_task_timer_wakeup self curr) !;;
  expire <! load_ts (tnode_expire node) ;;
  Ret (hev_task_timer_get_time curr expire).
