(* ===== verification/QueueSpec.v ===== *)
(** * QueueSpec: the run queue as a sorted list, and its refinement

    The abstract scheduler keeps, per task, its key, priorities and state, and
    the list of the running tasks sorted by key.  The functions of [Queue]
    implement the operations on it. *)

From stdpp Require Import sorting.
From S2P Require Import Prelude.
From S2P Require Import Sep.
From S2P Require Import RBTree.
From S2P Require Import RBTreeSpec.
From S2P Require Import RBTreeProofs.
From S2P Require Import RBTreeApi.
From S2P Require Import Env.
From S2P Require Import EnvLogic.
From S2P Require Import TaskBase.
From S2P Require Import Queue.

(** ** Abstract state *)

Record tinfo : Type := TInfo { ti_key : Z; ti_prio : Z; ti_next : Z; ti_state : Z }.

Record sched : Type := Sched {
  s_tasks : gmap Z tinfo;
  s_queue : list Z;
  s_current : Z
}.

Definition info (ts : gmap Z tinfo) (t : Z) : tinfo := default (TInfo 0 0 0 0) (ts !! t).
Definition key_in (ts : gmap Z tinfo) (t : Z) : Z := ti_key (info ts t).

(** After the tasks with a key not above its own, before the others. *)
Definition q_ins (ts : gmap Z tinfo) (t : Z) (q : list Z) : list Z :=
  filter (fun y => (key_in ts t <? key_in ts y) = false) q ++
  t :: filter (fun y => (key_in ts t <? key_in ts y) = true) q.

Definition min_key (s : sched) : Z :=
  match s_queue s with [] => 0 | t :: _ => key_in (s_tasks s) t end.

(** [hev_task_system_insert_task] *)
Definition s_insert (t : Z) (s : sched) : sched :=
  let i := info (s_tasks s) t in
  let ts := <[t := TInfo (ti_key i) (ti_next i) (ti_next i) HEV_TASK_RUNNING]> (s_tasks s) in
  Sched ts (q_ins ts t (s_queue s)) (s_current s).

Definition s_set_key (t k : Z) (s : sched) : sched :=
  let i := info (s_tasks s) t in
  Sched (<[t := TInfo k (ti_prio i) (ti_next i) (ti_state i)]> (s_tasks s))
        (s_queue s) (s_current s).

(** [hev_task_system_wakeup_task_with_context] of a task that is not stopped *)
Definition s_wakeup (t : Z) (s : sched) : sched :=
  let i := info (s_tasks s) t in
  if ti_state i =? HEV_TASK_RUNNING then s
  else s_insert t (s_set_key t (w64 (ti_key i + min_key s)) s).

(** [hev_task_system_update_sched_key] *)
Definition s_charge (s : sched) : sched :=
  let i := info (s_tasks s) (s_current s) in
  s_set_key (s_current s) (w64 (ti_key i + ti_prio i)) s.

(** [hev_task_system_reinsert_current_task] *)
Definition s_reinsert (s : sched) : sched :=
  let t := s_current s in
  let i := info (s_tasks s) t in
  let ts := <[t := TInfo (ti_key i) (ti_next i) (ti_next i) (ti_state i)]> (s_tasks s) in
  Sched ts (q_ins ts t (filter (fun y => y <> t) (s_queue s))) t.

(** [hev_task_system_remove_current_task] into the waiting state *)
Definition s_block (s : sched) : sched :=
  let t := s_current s in
  let i := info (s_tasks s) t in
  Sched (<[t := TInfo (ti_next i) (ti_prio i) (ti_next i) HEV_TASK_WAITING]> (s_tasks s))
        (filter (fun y => y <> t) (s_queue s)) t.

Definition q_sorted (ts : gmap Z tinfo) (q : list Z) : Prop :=
  StronglySorted (fun x y => key_in ts x <= key_in ts y) q.

(** The running tasks are exactly the queued ones. *)
Record sched_base (s : sched) : Prop := {
  sw_nodup : NoDup (s_queue s);
  sw_known : forall t, t ∈ s_queue s -> is_Some (s_tasks s !! t);
  sw_running : forall t i, s_tasks s !! t = Some i ->
    (ti_state i = HEV_TASK_RUNNING <-> t ∈ s_queue s);
  sw_states : forall t i, s_tasks s !! t = Some i ->
    ti_state i = HEV_TASK_RUNNING \/ ti_state i = HEV_TASK_WAITING \/ ti_state i = HEV_TASK_STOPPED;
  sw_keys : forall t i, s_tasks s !! t = Some i ->
    0 <= ti_key i < 2 ^ 64 /\ 0 <= ti_prio i <= HEV_TASK_PRIORITY_MAX /\
    0 <= ti_next i <= HEV_TASK_PRIORITY_MAX;
  sw_addr : forall t i, s_tasks s !! t = Some i -> 0 < t /\ t mod 16 = 0
}.

(** ... and sorted by key. *)
Definition sched_wf (s : sched) : Prop := sched_base s /\ q_sorted (s_tasks s) (s_queue s).

(** ** Sorted insertion *)

Lemma key_in_insert_ne ts t i x : x <> t -> key_in (<[t := i]> ts) x = key_in ts x.
Proof. intros H. unfold key_in, info. by rw lookup_insert_ne. Qed.

Lemma key_in_insert ts t i : key_in (<[t := i]> ts) t = ti_key i.
Proof. unfold key_in, info. by rw lookup_insert_eq. Qed.

Lemma info_insert ts t i : info (<[t := i]> ts) t = i.
Proof. unfold info. by rw lookup_insert_eq. Qed.

Lemma q_ins_elem ts t q x : x ∈ q_ins ts t q <-> x = t \/ x ∈ q.
Proof.
  unfold q_ins. rw elem_of_app  elem_of_cons  !list_elem_of_filter.
  destruct (key_in ts t <? key_in ts x); intuition congruence.
Qed.

Lemma q_ins_nodup ts t q : NoDup q -> t ∉ q -> NoDup (q_ins ts t q).
Proof.
  intros Hnd Ht. unfold q_ins. apply NoDup_app. split; [by apply NoDup_filter|].
  split.
  - intros x [Hx Hxq]%list_elem_of_filter [->|[Hx' _]%list_elem_of_filter]%elem_of_cons;
      [done|congruence].
  - constructor; [|by apply NoDup_filter]. by intros [_ ?]%list_elem_of_filter.
Qed.

Lemma q_ins_length ts t q : length (q_ins ts t q) = S (length q).
Proof.
  unfold q_ins. rw length_app. simpl. rw Nat.add_succ_r. f_equal.
  induction q as [|x q IH]; [done|]. rw !filter_cons.
  destruct (key_in ts t <? key_in ts x); simpl; lia.
Qed.

Lemma q_sorted_filter ts (P : Z -> Prop) `{forall x, Decision (P x)} q :
  q_sorted ts q -> q_sorted ts (filter P q).
Proof.
  unfold q_sorted. induction 1 as [|x q Hq IH Hx]; [constructor|].
  rw filter_cons. case_decide; [|done]. constructor; [done|].
  apply Forall_forall. intros y [_ Hy]%list_elem_of_filter.
  rw Forall_forall in Hx. by apply Hx.
Qed.

Lemma q_ins_sorted ts t q : q_sorted ts q -> q_sorted ts (q_ins ts t q).
Proof.
  intros Hq. unfold q_ins.
  assert (forall l1 l2, q_sorted ts l1 -> q_sorted ts l2 ->
    (forall x y, x ∈ l1 -> y ∈ l2 -> key_in ts x <= key_in ts y) -> q_sorted ts (l1 ++ l2)) as Happ.
  { intros l1 l2 H1 H2 H12. unfold q_sorted in *.
    induction H1 as [|x l1 H1 IH Hx]; [done|]. simpl. constructor.
    - apply IH. intros a b Ha Hb. apply H12; [by right|done].
    - apply Forall_app. split; [done|]. apply Forall_forall. intros b Hb. apply H12; [by left|done]. }
  apply Happ; [by apply q_sorted_filter| |].
  - constructor; [by apply q_sorted_filter|]. apply Forall_forall.
    intros y [Hy _]%list_elem_of_filter. apply Z.ltb_lt in Hy. lia.
  - intros x y [Hx Hxq]%list_elem_of_filter Hy. apply Z.ltb_ge in Hx.
    apply elem_of_cons in Hy as [->|[Hy _]%list_elem_of_filter]; [done|]. apply Z.ltb_lt in Hy. lia.
Qed.

Lemma q_sorted_ext ts ts' q :
  (forall x, x ∈ q -> key_in ts' x = key_in ts x) -> q_sorted ts q -> q_sorted ts' q.
Proof.
  intros Hext. unfold q_sorted. induction 1 as [|x q Hq IH Hx]; [constructor|]. constructor.
  - apply IH. intros y Hy. apply Hext. by right.
  - apply Forall_forall. intros y Hy. rw Forall_forall in Hx.
    rw !Hext; [by apply Hx|by right|by left].
Qed.

Lemma info_some s t i : s_tasks s !! t = Some i -> info (s_tasks s) t = i.
Proof. unfold info. by intros ->. Qed.

(** ** The operations preserve the invariant *)

Section wf.
Context (s : sched) (Hb : sched_base s).

Lemma not_running_not_queued t i :
  s_tasks s !! t = Some i -> ti_state i <> HEV_TASK_RUNNING -> t ∉ s_queue s.
Proof. intros Ht Hs Hq. by apply Hs, (sw_running _ Hb t i Ht). Qed.

(** Change one task, and the queue at most at that task. *)
Lemma base_update t i j q' c :
  s_tasks s !! t = Some i ->
  (0 <= ti_key j < 2 ^ 64 /\ 0 <= ti_prio j <= HEV_TASK_PRIORITY_MAX /\
   0 <= ti_next j <= HEV_TASK_PRIORITY_MAX) ->
  (ti_state j = HEV_TASK_RUNNING \/ ti_state j = HEV_TASK_WAITING \/
   ti_state j = HEV_TASK_STOPPED) ->
  NoDup q' -> (forall x, x <> t -> (x ∈ q' <-> x ∈ s_queue s)) ->
  (ti_state j = HEV_TASK_RUNNING <-> t ∈ q') ->
  sched_base (Sched (<[t := j]> (s_tasks s)) q' c).
Proof.
  intros Ht Hj Hst Hnd Hq Hr. split; simpl; [done|..].
  - intros x Hx. destruct (decide (x = t)) as [->|]; [by rw lookup_insert_eq|].
    rw lookup_insert_ne //. by apply Hb, Hq.
  - intros x k. destruct (decide (x = t)) as [->|]; [rw lookup_insert_eq; by intros [= <-]|].
    rw lookup_insert_ne // Hq //. apply Hb.
  - intros x k. destruct (decide (x = t)) as [->|]; [rw lookup_insert_eq; by intros [= <-]|].
    rw lookup_insert_ne //. apply Hb.
  - intros x k. destruct (decide (x = t)) as [->|]; [rw lookup_insert_eq; by intros [= <-]|].
    rw lookup_insert_ne //. apply Hb.
  - intros x k. destruct (decide (x = t)) as [->|]; [intros _; by apply (sw_addr _ Hb t i)|].
    rw lookup_insert_ne //. apply Hb.
Qed.

Lemma sorted_update ts' q' t :
  (forall x, x ∈ q' -> x <> t) -> (forall x, x <> t -> key_in ts' x = key_in (s_tasks s) x) ->
  q_sorted (s_tasks s) q' -> q_sorted ts' q'.
Proof. intros Hne Hk. apply q_sorted_ext. intros x Hx. apply Hk. by apply Hne. Qed.

Lemma insert_wf t i :
  s_tasks s !! t = Some i -> ti_state i <> HEV_TASK_RUNNING ->
  q_sorted (s_tasks s) (s_queue s) -> sched_wf (s_insert t s).
Proof.
  intros Ht Hst Hs. pose proof (not_running_not_queued t i Ht Hst) as Hq.
  pose proof (sw_keys _ Hb t i Ht) as (Hk & Hp & Hn).
  unfold s_insert. rw (info_some s t i Ht). split.
  - apply (base_update t i); simpl; [done..|by left| | |].
    + by apply q_ins_nodup; [apply Hb|].
    + intros x Hx. rw q_ins_elem. tauto.
    + rw q_ins_elem. tauto.
  - apply q_ins_sorted. eapply (sorted_update _ _ t); [|intros x Hx; by apply key_in_insert_ne|done].
    intros x Hx ->. done.
Qed.
End wf.

Lemma wakeup_wf s t i :
  sched_wf s -> s_tasks s !! t = Some i -> sched_wf (s_wakeup t s).
Proof.
  intros [Hb Hs] Ht. unfold s_wakeup. rw (info_some s t i Ht).
  destruct (Z.eqb_spec (ti_state i) HEV_TASK_RUNNING) as [|Hne]; [done|].
  pose proof (not_running_not_queued s Hb t i Ht Hne) as Hq.
  pose proof (sw_keys _ Hb t i Ht) as (_ & Hp & Hn). set (k := w64 _).
  assert (s_tasks (s_set_key t k s) !! t = Some (TInfo k (ti_prio i) (ti_next i) (ti_state i))) as Ht'.
  { unfold s_set_key. rw (info_some s t i Ht). simpl. by rw lookup_insert_eq. }
  apply (insert_wf _) with (i := TInfo k (ti_prio i) (ti_next i) (ti_state i)); [|done|done|].
  - unfold s_set_key. rw (info_some s t i Ht). apply (base_update s Hb t i); simpl; [done| |..].
    + split; [apply w64_range|done].
    + by apply (sw_states _ Hb t).
    + apply Hb.
    + done.
    + by apply (sw_running _ Hb).
  - apply (sorted_update s _ _ t); [by intros x Hx ->|intros x Hx; by apply key_in_insert_ne|done].
Qed.

(** The current task is known and running. *)
Definition runs (s : sched) : Prop := s_current s ∈ s_queue s.

Lemma charge_base s :
  sched_base s -> runs s -> sched_base (s_charge s) /\ runs (s_charge s).
Proof.
  intros Hb Hr. split; [|done]. destruct (sw_known _ Hb _ Hr) as [i Hi].
  unfold s_charge, s_set_key. rw (info_some s _ i Hi).
  apply (base_update s Hb _ i); simpl; [done| |by apply (sw_states _ Hb _ _ Hi)|apply Hb|done|].
  - split; [apply w64_range|]. by apply (sw_keys _ Hb _ _ Hi).
  - by apply (sw_running _ Hb).
Qed.

(** Without its current task the queue is sorted. *)
Definition sorted_but_current (s : sched) : Prop :=
  q_sorted (s_tasks s) (filter (fun y => y <> s_current s) (s_queue s)).

Lemma charge_sorted s :
  q_sorted (s_tasks s) (s_queue s) -> sorted_but_current (s_charge s).
Proof.
  intros Hs. unfold sorted_but_current. simpl.
  apply (sorted_update s _ _ (s_current s)).
  - by intros x [? _]%list_elem_of_filter.
  - intros x Hx. by apply key_in_insert_ne.
  - by apply q_sorted_filter.
Qed.

Lemma reinsert_wf s :
  sched_base s -> runs s -> sorted_but_current s -> sched_wf (s_reinsert s) /\ runs (s_reinsert s).
Proof.
  intros Hb Hr Hs. destruct (sw_known _ Hb _ Hr) as [i Hi].
  pose proof (sw_keys _ Hb _ i Hi) as (Hk & Hp & Hn).
  unfold s_reinsert. rw (info_some s _ i Hi). split; [split|].
  - apply (base_update s Hb _ i); simpl; [done|done|by apply (sw_states _ Hb _ _ Hi)| | |].
    + apply q_ins_nodup; [apply NoDup_filter, Hb|]. by intros [? _]%list_elem_of_filter.
    + intros x Hx. rw q_ins_elem list_elem_of_filter. tauto.
    + rw q_ins_elem. split; [by left|]. intros _. by apply (sw_running _ Hb _ i Hi).
  - apply q_ins_sorted. apply (sorted_update s _ _ (s_current s)); [|intros x Hx; by apply key_in_insert_ne|done].
    by intros x [? _]%list_elem_of_filter.
  - unfold runs. simpl. rw q_ins_elem. by left.
Qed.

Lemma block_wf s :
  sched_base s -> runs s -> sorted_but_current s -> sched_wf (s_block s).
Proof.
  intros Hb Hr Hs. destruct (sw_known _ Hb _ Hr) as [i Hi].
  pose proof (sw_keys _ Hb _ i Hi) as (Hk & Hp & Hn).
  unfold s_block. rw (info_some s _ i Hi). split.
  - apply (base_update s Hb _ i); simpl; [done| |by right; left| | |].
    + unfold HEV_TASK_PRIORITY_MAX in *. split; [lia|done].
    + apply NoDup_filter, Hb.
    + intros x Hx. rw list_elem_of_filter. tauto.
    + split; [done|]. by intros [? _]%list_elem_of_filter.
  - apply (sorted_update s _ _ (s_current s)); [|intros x Hx; by apply key_in_insert_ne|done].
    by intros x [? _]%list_elem_of_filter.
Qed.
