(* ===== verification/QueueProofs.v ===== *)
(** * QueueProofs: the run queue implements the abstract scheduler

    [is_sched ctx s] describes the memory of a system context whose tasks and
    run queue are those of the abstract scheduler [s] of [QueueSpec].  Each
    function of [Queue] takes it to the state given by the corresponding
    abstract operation. *)

From stdpp Require Import sorting.
From S2P Require Import Prelude.
From S2P Require Import Sep.
From S2P Require Import RBTree.
From S2P Require Import RBTreeSpec.
From S2P Require Import RBTreeProofs.
From S2P Require Import RBTreeApi.
From S2P Require Import Env.
From S2P Require Import EnvLogic.
From S2P Require Import TaskBase.
From S2P Require Import Queue.
From S2P Require Import QueueSpec.

(** ** The memory of a scheduler *)

Definition task_cells (t : Z) (i : tinfo) : heapProp :=
  (task_sched_key t ↦ ti_key i ∗ task_priority t ↦ ti_prio i ∗
   task_next_priority t ↦ ti_next i ∗ task_state t ↦ ti_state i)%I.

(** The tree node of a task that is not queued is not in the tree. *)
Definition idle_node (t : Z) (i : tinfo) : heapProp :=
  if ti_state i =? HEV_TASK_RUNNING then emp%I else rb_cell (task_sched_node t).

Definition all_cells (ts : gmap Z tinfo) : heapProp := ([∗ map] t ↦ i ∈ ts, task_cells t i)%I.
Definition idle_nodes (ts : gmap Z tinfo) : heapProp := ([∗ map] t ↦ i ∈ ts, idle_node t i)%I.

Definition is_queue (ctx : Z) (q : list Z) : heapProp :=
  (is_cached (ctx_running_tasks ctx) (task_sched_node <$> q) ∗
   ctx_running_task_count ctx ↦ w32 (Z.of_nat (length q)))%I.

Definition is_sched (ctx : Z) (s : sched) : heapProp :=
  (⌞sched_base s⌟ ∗ is_queue ctx (s_queue s) ∗ ctx_current_task ctx ↦ s_current s ∗
   all_cells (s_tasks s) ∗ idle_nodes (s_tasks s))%I.

Lemma all_cells_acc ts t i :
  ts !! t = Some i ->
  all_cells ts ⊢ task_cells t i ∗ (∀ j, task_cells t j -∗ all_cells (<[t := j]> ts)).
Proof. apply (big_sepM_insert_acc task_cells). Qed.

Lemma idle_nodes_acc ts t i :
  ts !! t = Some i ->
  idle_nodes ts ⊢ idle_node t i ∗ (∀ j, idle_node t j -∗ idle_nodes (<[t := j]> ts)).
Proof. apply (big_sepM_insert_acc idle_node). Qed.

Lemma of_sched_node t : task_of_sched_node (task_sched_node t) = t.
Proof. unfold task_of_sched_node, task_sched_node. lia. Qed.

Lemma sched_node_aligned s t : sched_base s -> t ∈ s_queue s \/ is_Some (s_tasks s !! t) ->
  aligned (task_sched_node t).
Proof.
  intros Hb Ht. assert (is_Some (s_tasks s !! t)) as [i Hi].
  { destruct Ht; [by apply (sw_known _ Hb)|done]. }
  pose proof (sw_addr _ Hb _ _ Hi). unfold aligned, task_sched_node. split; [lia|div_lia].
Qed.

(** ** Sorted insertion into the tree *)

Lemma wp_task_before ts t y :
  is_Some (ts !! t) -> is_Some (ts !! y) ->
  all_cells ts ⊢ wp (task_before t (task_sched_node y))
    (fun b => ⌞b = (key_in ts t <? key_in ts y)⌟ ∗ all_cells ts).
Proof.
  intros [i Hi] [j Hj]. unfold task_before, key_in, info. rw Hi Hj of_sched_node /=.
  iIntros "H". iDestruct (all_cells_acc _ _ _ Hi with "H") as "[(Hk & H2) Hback]".
  wp_load. iDestruct ("Hback" with "[Hk H2]") as "H"; [by iFrame|]. rw insert_id //.
  iDestruct (all_cells_acc _ _ _ Hj with "H") as "[(Hk & H2) Hback]".
  wp_load. iDestruct ("Hback" with "[Hk H2]") as "H"; [by iFrame|]. rw insert_id //. by iFrame.
Qed.

(** The tree's order on nodes is the order of the tasks' keys. *)
Definition node_before (ts : gmap Z tinfo) (t : Z) (y : Z) : bool :=
  key_in ts t <? key_in ts (task_of_sched_node y).

Lemma q_insert_nodes ts t q :
  q_insert (node_before ts t) (task_sched_node t) (task_sched_node <$> q) =
  task_sched_node <$> q_ins ts t q.
Proof.
  unfold q_insert, q_ins. rw fmap_app fmap_cons. unfold node_before.
  f_equal; [|f_equal]; (induction q as [|y q IH]; [done|];
    rw fmap_cons !filter_cons of_sched_node; destruct (_ <? _); simpl; by rw ?fmap_cons IH).
Qed.

Lemma nodes_upward ts t q :
  q_sorted ts q -> before_upward (node_before ts t) (task_sched_node <$> q).
Proof.
  unfold q_sorted, before_upward. induction 1 as [|x q Hq IH Hx]; simpl; constructor; [done|].
  apply Forall_fmap. eapply Forall_impl; [exact Hx|]. intros y Hxy. simpl. unfold node_before.
  rw !of_sched_node. intros Hlt%Z.ltb_lt. apply Z.ltb_lt. simpl in *. lia.
Qed.

Lemma wp_insert_node tree ts t q :
  aligned (task_sched_node t) -> is_Some (ts !! t) ->
  (forall y, y ∈ q -> is_Some (ts !! y)) -> q_sorted ts q ->
  is_cached tree (task_sched_node <$> q) ∗ rb_cell (task_sched_node t) ∗ all_cells ts
  ⊢ wp (_hev_task_system_insert_task tree t)
       (fun _ => is_cached tree (task_sched_node <$> q_ins ts t q) ∗ all_cells ts).
Proof.
  iIntros (Ha Ht Hq Hs) "H". unfold _hev_task_system_insert_task. iApply wp_bind.
  iApply wp_wand. iSplitL.
  - iApply (wp_cached_insert_by _ _ _ (all_cells ts) _ (node_before ts t)); [done| |..|iExact "H"].
    + by apply nodes_upward.
    + intros y Hy. apply list_elem_of_fmap in Hy as (x & -> & Hx). unfold node_before.
      rw of_sched_node. apply wp_task_before; [done|by apply Hq].
  - iIntros (lm) "(_ & Ht & HR)". wp_norm. rw q_insert_nodes. iFrame.
Qed.

Lemma count_succ n : w32 (w32 (Z.of_nat n) + 1) = w32 (Z.of_nat (S n)).
Proof. unfold w32. rw Zplus_mod_idemp_l. f_equal. lia. Qed.

Lemma count_pred n : w32 (w32 (Z.of_nat (S n)) - 1) = w32 (Z.of_nat n).
Proof. unfold w32. rw Zminus_mod_idemp_l. f_equal. lia. Qed.

(** Change one task's cells that are not its key, and put it in the queue. *)
Lemma wp_insert_task ctx s t i :
  s_tasks s !! t = Some i -> ti_state i <> HEV_TASK_RUNNING ->
  q_sorted (s_tasks s) (s_queue s) ->
  is_sched ctx s ⊢ wp (hev_task_system_insert_task ctx t) (fun _ => is_sched ctx (s_insert t s)).
Proof.
  iIntros (Ht Hst Hs) "(%Hb & [Hq Hn] & Hcur & Hts & Hidle)".
  iDestruct (all_cells_acc _ _ _ Ht with "Hts") as "[(Hk & Hp & Hx & Hst) Hts]".
  iDestruct (idle_nodes_acc _ _ _ Ht with "Hidle") as "[Hnode Hidle]".
  unfold idle_node at 1. rw (proj2 (Z.eqb_neq _ _) Hst).
  unfold hev_task_system_insert_task. wp_store. wp_load. wp_store.
  set (j := TInfo (ti_key i) (ti_next i) (ti_next i) HEV_TASK_RUNNING).
  iDestruct ("Hts" $! j with "[Hk Hp Hx Hst]") as "Hts"; [by iFrame|].
  iDestruct ("Hidle" $! j with "[//]") as "Hidle".
  pose proof (insert_wf s Hb t i Ht Hst Hs) as [Hb' _].
  pose proof (not_running_not_queued s Hb t i Ht Hst) as Hnq.
  unfold s_insert in Hb' |- *. rw (info_some s t i Ht) in Hb' |- *. fold j in Hb' |- *.
  iApply wp_bind. iApply wp_wand. iSplitL "Hq Hnode Hts".
  { iApply (wp_insert_node _ (<[t:=j]> (s_tasks s)) t (s_queue s)); [|by rw lookup_insert_eq|..|by iFrame].
    - apply (sched_node_aligned s); [done|]. right. by eexists.
    - intros y Hy. rw lookup_insert_is_Some'. right. by apply (sw_known _ Hb).
    - apply (sorted_update s _ _ t); [by intros x Hx ->|intros x Hx; by apply key_in_insert_ne|done]. }
  iIntros (_) "[Hq Hts]". wp_load. wp_store. unfold is_sched, is_queue. simpl. rw q_ins_length count_succ.
  by iFrame.
Qed.

(** ** The smallest key *)

Lemma wp_get_min_sched_key ctx s :
  is_sched ctx s ⊢ wp (hev_task_system_get_min_sched_key ctx)
    (fun k => ⌞k = min_key s⌟ ∗ is_sched ctx s).
Proof.
  iIntros "(%Hb & [Hq Hn] & Hcur & Hts & Hidle)". unfold hev_task_system_get_min_sched_key.
  iApply wp_bind. iApply wp_wand. iSplitL "Hq"; [by iApply wp_cached_first|].
  iIntros (n) "[-> Hq]". unfold min_key. destruct (s_queue s) as [|t q] eqn:Hsq.
  { simpl. wp_norm. iSplitR; [done|]. unfold is_sched, is_queue. rw Hsq. by iFrame. }
  assert (t ∈ s_queue s) as Hin by (rw Hsq; by left).
  destruct (sw_known _ Hb t Hin) as [i Hi].
  pose proof (sched_node_aligned s t Hb (or_introl Hin)) as Hal.
  unfold hd0. cbn [fmap list_fmap head from_option default]. simpl.
  rw is_true_aligned // of_sched_node.
  iDestruct (all_cells_acc _ _ _ Hi with "Hts") as "[(Hk & H2) Hback]".
  wp_load. iDestruct ("Hback" with "[Hk H2]") as "H"; [by iFrame|]. rw insert_id //.
  iSplitR; [by rw /key_in /info Hi|]. unfold is_sched, is_queue. rw Hsq. by iFrame.
Qed.

(** ** Changing a key *)

(** The key of [t], when its place in the queue does not matter. *)
Lemma is_sched_key ctx s t i :
  s_tasks s !! t = Some i ->
  is_sched ctx s ⊢ task_sched_key t ↦ ti_key i ∗
    (task_sched_key t ↦ ti_key i -∗ is_sched ctx s) ∧
    (∀ k, ⌜0 <= k < 2 ^ 64⌝ → task_sched_key t ↦ k -∗ is_sched ctx (s_set_key t k s)).
Proof.
  iIntros (Ht) "(%Hb & Hq & Hcur & Hts & Hidle)".
  iDestruct (all_cells_acc _ _ _ Ht with "Hts") as "[(Hk & H2) Hts]".
  iDestruct (idle_nodes_acc _ _ _ Ht with "Hidle") as "[Hnode Hidle]".
  iFrame "Hk". iSplit.
  - iIntros "Hk". iDestruct ("Hts" $! i with "[$Hk $H2]") as "Hts".
    iDestruct ("Hidle" with "Hnode") as "Hidle". rw !insert_id //. by iFrame.
  - iIntros (k Hr) "Hk". unfold s_set_key. rw (info_some s t i Ht).
    set (j := TInfo k _ _ _). iDestruct ("Hts" $! j with "[$Hk $H2]") as "Hts".
    iDestruct ("Hidle" $! j with "Hnode") as "Hidle". unfold is_sched. simpl. iFrame.
    iPureIntro. apply (base_update s Hb t i); simpl; [done| |..].
    + split; [done|]. by apply (sw_keys _ Hb t).
    + by apply (sw_states _ Hb t).
    + apply Hb.
    + done.
    + by apply (sw_running _ Hb).
Qed.

(** ** Wakeup *)

Lemma is_sched_state ctx s t i :
  s_tasks s !! t = Some i ->
  is_sched ctx s ⊢ task_state t ↦ ti_state i ∗ (task_state t ↦ ti_state i -∗ is_sched ctx s).
Proof.
  iIntros (Ht) "(%Hb & Hq & Hcur & Hts & Hidle)".
  iDestruct (all_cells_acc _ _ _ Ht with "Hts") as "[(Hk & Hp & Hx & Hs) Hts]".
  iFrame "Hs". iIntros "Hs". iDestruct ("Hts" $! i with "[$Hk $Hp $Hx $Hs]") as "Hts".
  rw insert_id //. by iFrame.
Qed.

Lemma wp_wakeup ctx s t i :
  s_tasks s !! t = Some i -> ti_state i <> HEV_TASK_STOPPED -> sched_wf s ->
  is_sched ctx s ⊢ wp (hev_task_system_wakeup_task_with_context ctx t)
    (fun _ => is_sched ctx (s_wakeup t s)).
Proof.
  iIntros (Ht Hstop [Hb Hs]) "H". unfold hev_task_system_wakeup_task_with_context, s_wakeup.
  rw (info_some s t i Ht). iDestruct (is_sched_state _ _ _ _ Ht with "H") as "[Hst H]".
  wp_load. iDestruct ("H" with "Hst") as "H".
  destruct (Z.eqb_spec (ti_state i) HEV_TASK_RUNNING) as [|Hne]; [by wp_norm|].
  rw (proj2 (Z.eqb_neq _ _) Hstop).
  iDestruct (is_sched_key _ _ _ _ Ht with "H") as "[Hk H]". wp_load.
  iDestruct "H" as "[H _]". iDestruct ("H" with "Hk") as "H".
  iApply wp_bind. iApply wp_wand. iSplitL; [by iApply wp_get_min_sched_key|].
  iIntros (min) "[-> H]". iDestruct (is_sched_key _ _ _ _ Ht with "H") as "[Hk H]".
  wp_store. iDestruct "H" as "[_ H]". set (k := w64 _).
  iDestruct ("H" $! k with "[%] Hk") as "H"; [apply w64_range|].
  iApply (wp_insert_task with "H").
  - unfold s_set_key. rw (info_some s t i Ht). simpl. by rw lookup_insert_eq.
  - done.
  - pose proof (not_running_not_queued s Hb t i Ht Hne) as Hnq.
    apply (sorted_update s _ _ t); [by intros x Hx ->|intros x Hx; by apply key_in_insert_ne|done].
Qed.

(** A stopped task cannot be woken. *)
Lemma wakeup_stopped ctx t m :
  m !! task_state t = Some HEV_TASK_STOPPED ->
  hev_task_system_wakeup_task_with_context ctx t m = Err Aborted.
Proof.
  intros H. unfold hev_task_system_wakeup_task_with_context, bind, load. by rw H.
Qed.

(** ** The current task: charged, requeued, blocked *)

Lemma is_sched_current ctx s :
  is_sched ctx s ⊢ ctx_current_task ctx ↦ s_current s ∗
    (ctx_current_task ctx ↦ s_current s -∗ is_sched ctx s).
Proof. iIntros "($ & $ & $ & $ & $)". by iIntros "$". Qed.

Lemma is_sched_base ctx s : is_sched ctx s -∗ ⌜sched_base s⌝.
Proof. by iIntros "[% _]". Qed.

Lemma wp_update_sched_key ctx s :
  runs s ->
  is_sched ctx s ⊢ wp (hev_task_system_update_sched_key ctx) (fun _ => is_sched ctx (s_charge s)).
Proof.
  iIntros (Hr) "H". iDestruct (is_sched_base with "H") as %Hb.
  destruct (sw_known _ Hb _ Hr) as [i Hi]. unfold hev_task_system_update_sched_key, s_charge.
  rw (info_some s _ i Hi).
  iDestruct "H" as "(_ & Hq & Hcur & Hts & Hidle)".
  iDestruct (all_cells_acc _ _ _ Hi with "Hts") as "[(Hk & Hp & H2) Hts]".
  wp_load. wp_load. wp_load. iDestruct ("Hts" $! i with "[$Hk $Hp $H2]") as "Hts".
  rw insert_id //. rw Z.mul_1_l.
  iAssert (is_sched ctx s) with "[$Hq $Hcur $Hts $Hidle //]" as "H".
  iDestruct (is_sched_key _ _ _ _ Hi with "H") as "[Hk H]". wp_store.
  iDestruct "H" as "[_ H]". iApply ("H" with "[%] Hk"). apply w64_range.
Qed.

(** The queue around one of its tasks. *)
Lemma queue_split q (t : Z) :
  NoDup q -> t ∈ q -> exists A B, q = A ++ t :: B /\ filter (fun y => y <> t) q = A ++ B.
Proof.
  intros Hnd Ht. apply list_elem_of_split in Ht as (A & B & ->).
  exists A, B. split; [done|]. apply NoDup_app in Hnd as (_ & HA & HB).
  apply NoDup_cons in HB as [HB _].
  rw filter_app filter_cons_False; [|naive_solver]. rw !filter_all //.
  - apply Forall_forall. by intros y Hy ->.
  - apply Forall_forall. intros y Hy ->. apply (HA t Hy). by left.
Qed.

Lemma wp_queue_erase ctx q t :
  NoDup q -> t ∈ q ->
  is_cached (ctx_running_tasks ctx) (task_sched_node <$> q)
  ⊢ wp (hev_rbtree_cached_erase (ctx_running_tasks ctx) (task_sched_node t)) (fun _ =>
      is_cached (ctx_running_tasks ctx) (task_sched_node <$> filter (fun y => y <> t) q) ∗
      rb_cell (task_sched_node t)).
Proof.
  intros Hnd Ht. destruct (queue_split q t Hnd Ht) as (A & B & -> & ->).
  rw !fmap_app fmap_cons. apply wp_cached_erase.
Qed.

Lemma filter_count (q : list Z) t :
  NoDup q -> t ∈ q -> length q = S (length (filter (fun y => y <> t) q)).
Proof.
  intros Hnd Ht. destruct (queue_split q t Hnd Ht) as (A & B & -> & ->).
  rw !length_app. simpl. lia.
Qed.

Lemma wp_reinsert ctx s :
  runs s -> sorted_but_current s ->
  is_sched ctx s ⊢ wp (hev_task_system_reinsert_current_task ctx)
    (fun _ => is_sched ctx (s_reinsert s)).
Proof.
  iIntros (Hr Hs) "(%Hb & [Hq Hn] & Hcur & Hts & Hidle)".
  pose proof (reinsert_wf s Hb Hr Hs) as [[Hb' _] _].
  pose proof (sched_node_aligned s _ Hb (or_introl Hr)) as Hal.
  destruct (sw_known _ Hb _ Hr) as [i Hi]. unfold hev_task_system_reinsert_current_task.
  unfold s_reinsert in Hb' |- *. rw (info_some s _ i Hi) in Hb' |- *.
  set (t := s_current s) in *. set (j := TInfo (ti_key i) (ti_next i) (ti_next i) (ti_state i)) in *.
  iDestruct (all_cells_acc _ _ _ Hi with "Hts") as "[(Hk & Hp & Hx & Hst) Hts]".
  iDestruct (idle_nodes_acc _ _ _ Hi with "Hidle") as "[Hnode Hidle]".
  wp_load. wp_load. wp_store. iDestruct ("Hts" $! j with "[$Hk $Hp $Hx $Hst]") as "Hts".
  iDestruct ("Hidle" $! j with "Hnode") as "Hidle".
  iApply wp_bind. iApply wp_wand. iSplitL "Hq"; [iApply (wp_queue_erase with "Hq"); [apply Hb|done]|].
  iIntros (_) "[Hq Hnode]". iApply wp_wand. iSplitL "Hq Hnode Hts".
  { iApply (wp_insert_node _ (<[t:=j]> (s_tasks s)) t with "[$Hq $Hnode $Hts]");
      [done|by rw lookup_insert_eq|..].
    - intros y [_ Hy]%list_elem_of_filter. rw lookup_insert_is_Some'. right. by apply (sw_known _ Hb).
    - apply (sorted_update s _ _ t); [|intros x Hx; by apply key_in_insert_ne|done].
      by intros x [? _]%list_elem_of_filter. }
  iIntros (_) "[Hq Hts]". unfold is_sched, is_queue. simpl.
  rw q_ins_length -(filter_count _ _ (sw_nodup _ Hb) Hr). by iFrame.
Qed.

(** Blocking: any state but the stopped one keeps the task object. *)
Lemma cwp_remove_waiting Y `{!YieldMono Y} ctx s :
  runs s -> sorted_but_current s ->
  is_sched ctx s ⊢ cwp Y (hev_task_system_remove_current_task ctx HEV_TASK_WAITING)
    (fun _ => is_sched ctx (s_block s)).
Proof.
  iIntros (Hr Hs) "(%Hb & [Hq Hn] & Hcur & Hts & Hidle)".
  pose proof (block_wf s Hb Hr Hs) as [Hb' _].
  destruct (sw_known _ Hb _ Hr) as [i Hi]. unfold hev_task_system_remove_current_task.
  unfold s_block in Hb' |- *. rw (info_some s _ i Hi) in Hb' |- *.
  set (t := s_current s) in *. set (j := TInfo _ _ _ _) in *.
  iDestruct (all_cells_acc _ _ _ Hi with "Hts") as "[(Hk & Hp & Hx & Hst) Hts]".
  iDestruct (idle_nodes_acc _ _ _ Hi with "Hidle") as "[Hidle0 Hidle]".
  unfold idle_node at 1. rw (proj2 (sw_running _ Hb _ _ Hi) Hr) /=.
  cbn [cwp co_bind]. wp_load. wp_store.
  iApply wp_wand. iSplitL "Hq"; [iApply (wp_queue_erase with "Hq"); [apply Hb|done]|].
  iIntros (_) "[Hq Hnode]". wp_load. wp_store.
  change (HEV_TASK_STOPPED =? HEV_TASK_WAITING) with false. cbv iota. cbn [cwp act].
  wp_load. wp_store.
  iDestruct ("Hts" $! j with "[$Hk $Hp $Hx $Hst]") as "Hts".
  iDestruct ("Hidle" $! j with "Hnode") as "Hidle".
  unfold is_sched, is_queue. simpl. rw (filter_count _ _ (sw_nodup _ Hb) Hr) count_pred. fold t. by iFrame.
Qed.
