(* ===== verification/TimerProofs.v ===== *)
(** * TimerProofs: the timer's arithmetic and its sorted tree

    Timespecs are counted in nanoseconds; the tree of sleeping tasks is a list
    of nodes sorted by expiry, then by address. *)

From stdpp Require Import sorting.
From S2P Require Import Prelude.
From S2P Require Import Sep.
From S2P Require Import RBTree.
From S2P Require Import RBTreeSpec.
From S2P Require Import RBTreeProofs.
From S2P Require Import RBTreeApi.
From S2P Require Import Env.
From S2P Require Import EnvLogic.
From S2P Require Import Trace.
From S2P Require Import TaskBase.
From S2P Require Import Queue.
From S2P Require Import QueueSpec.
From S2P Require Import QueueProofs.
From S2P Require Import Timer.

(** ** Timespecs *)

Definition normalised (t : timespec) : Prop := 0 <= t.2 < 1000000000.

(** Nanoseconds. *)
Definition ns (t : timespec) : Z := t.1 * 1000000000 + t.2.

Lemma cmp_spec a b :
  hev_task_timer_cmp a b =
  (if (a.1 <? b.1) || ((a.1 =? b.1) && (a.2 <? b.2)) then -1
   else if (a.1 =? b.1) && (a.2 =? b.2) then 0 else 1).
Proof.
  unfold hev_task_timer_cmp.
  destruct (Z.ltb_spec a.1 b.1), (Z.ltb_spec b.1 a.1), (Z.eqb_spec a.1 b.1),
    (Z.ltb_spec a.2 b.2), (Z.ltb_spec b.2 a.2), (Z.eqb_spec a.2 b.2); simpl; lia.
Qed.

Lemma cmp_ns a b :
  normalised a -> normalised b -> hev_task_timer_cmp a b = Z.sgn (ns a - ns b).
Proof.
  unfold normalised, ns, hev_task_timer_cmp. intros Ha Hb.
  destruct (Z.ltb_spec a.1 b.1), (Z.ltb_spec b.1 a.1),
    (Z.ltb_spec a.2 b.2), (Z.ltb_spec b.2 a.2); lia.
Qed.

Lemma get_expire_ns t ms :
  normalised t -> 0 <= ms ->
  normalised (hev_task_timer_get_expire t ms) /\
  ns (hev_task_timer_get_expire t ms) = ns t + ms * 1000000.
Proof.
  unfold normalised, ns, hev_task_timer_get_expire. intros Ht Hms.
  destruct (Z.leb_spec 1000000000 (t.2 + ms mod 1000 * 1000000)); simpl; div_lia.
Qed.

Lemma add_ns_ns t n :
  normalised t -> 0 <= n ->
  normalised (hev_task_timer_add_ns t n) /\ ns (hev_task_timer_add_ns t n) = ns t + n.
Proof.
  unfold normalised, ns, hev_task_timer_add_ns. intros Ht Hn.
  destruct (Z.leb_spec 1000000000 (t.2 + n mod 1000000000)); simpl; div_lia.
Qed.

(** The remaining milliseconds, rounded up. *)
Lemma get_time_ns curr expire :
  normalised curr -> normalised expire ->
  hev_task_timer_get_time curr expire =
  w32 (Z.max 0 ((ns expire - ns curr + 999999) / 1000000)).
Proof.
  unfold normalised, ns, hev_task_timer_get_time. intros Hc He.
  assert (w32 0 = 0) as H0 by done.
  destruct (Z.ltb_spec (expire.2 - curr.2) 0).
  - destruct (Z.ltb_spec (expire.1 - curr.1 - 1) 0).
    + rw Z.max_l; [done|]. div_lia.
    + f_equal. rw Z.max_r; [|div_lia]. div_lia.
  - destruct (Z.ltb_spec (expire.1 - curr.1) 0).
    + rw Z.max_l; [done|]. div_lia.
    + f_equal. rw Z.max_r; [|div_lia]. div_lia.
Qed.

(** ** The sleeping tasks *)

Record tentry : Type := TEntry { te_expire : timespec; te_task : Z }.

Record timers : Type := Timers { tm_entries : gmap Z tentry; tm_queue : list Z }.

Definition expire_of (E : gmap Z tentry) (n : Z) : timespec :=
  te_expire (default (TEntry (0, 0) 0) (E !! n)).

(** The order of the tree: expiry, then address. *)
Definition tcmp (E : gmap Z tentry) (a b : Z) : Z :=
  let res := hev_task_timer_cmp (expire_of E a) (expire_of E b) in
  if is_true res then res else if a <? b then -1 else if b <? a then 1 else 0.

Definition tlt (E : gmap Z tentry) (a b : Z) : Prop :=
  (expire_of E a).1 < (expire_of E b).1 \/
  ((expire_of E a).1 = (expire_of E b).1 /\
   ((expire_of E a).2 < (expire_of E b).2 \/ ((expire_of E a).2 = (expire_of E b).2 /\ a < b))).

Lemma tcmp_lt E a b : (tcmp E a b <? 0) = true <-> tlt E a b.
Proof.
  unfold tcmp, tlt. rw cmp_spec.
  destruct (Z.ltb_spec (expire_of E a).1 (expire_of E b).1),
    (Z.eqb_spec (expire_of E a).1 (expire_of E b).1),
    (Z.ltb_spec (expire_of E a).2 (expire_of E b).2),
    (Z.eqb_spec (expire_of E a).2 (expire_of E b).2),
    (Z.ltb_spec a b), (Z.ltb_spec b a); simpl; intuition (congruence || lia).
Qed.

Lemma tlt_trans E a b c : tlt E a b -> tlt E b c -> tlt E a c.
Proof. unfold tlt. lia. Qed.

Lemma tlt_total E a b : a <> b -> tlt E a b \/ tlt E b a.
Proof. unfold tlt. lia. Qed.

Definition t_sorted (E : gmap Z tentry) (q : list Z) : Prop := StronglySorted (tlt E) q.

Record timers_wf (T : timers) : Prop := {
  tw_nodup : NoDup (tm_queue T);
  tw_known : forall n, n ∈ tm_queue T <-> is_Some (tm_entries T !! n);
  tw_sorted : t_sorted (tm_entries T) (tm_queue T)
}.

(** Insert a node, remove it. *)
Definition t_ins (E : gmap Z tentry) (n : Z) (q : list Z) : list Z :=
  q_insert (fun y => tcmp E n y <? 0) n q.

Definition t_insert (n : Z) (e : tentry) (T : timers) : timers :=
  let E := <[n := e]> (tm_entries T) in Timers E (t_ins E n (tm_queue T)).

Definition t_remove (n : Z) (T : timers) : timers :=
  Timers (delete n (tm_entries T)) (filter (fun y => y <> n) (tm_queue T)).

Lemma expire_of_insert_ne E n e x : x <> n -> expire_of (<[n := e]> E) x = expire_of E x.
Proof. intros H. unfold expire_of. by rw lookup_insert_ne. Qed.

Lemma t_sorted_ext E E' q :
  (forall x, x ∈ q -> expire_of E' x = expire_of E x) -> t_sorted E q -> t_sorted E' q.
Proof.
  intros Hext. unfold t_sorted. induction 1 as [|x q Hq IH Hx]; constructor.
  - apply IH. intros y Hy. apply Hext. by right.
  - apply Forall_forall. intros y Hy. rw Forall_forall in Hx. unfold tlt.
    rw !Hext; [by apply Hx|by right|by left].
Qed.

Lemma t_sorted_upward E n q :
  t_sorted E q -> before_upward (fun y => tcmp E n y <? 0) q.
Proof.
  unfold before_upward, t_sorted. induction 1 as [|x q Hq IH Hx]; constructor; [done|].
  eapply Forall_impl; [exact Hx|]. intros y Hxy Hn. simpl in *.
  apply tcmp_lt in Hn. apply tcmp_lt. by eapply tlt_trans.
Qed.

Lemma sorted_app (R : Z -> Z -> Prop) l1 l2 :
  StronglySorted R l1 -> StronglySorted R l2 ->
  (forall x y, x ∈ l1 -> y ∈ l2 -> R x y) -> StronglySorted R (l1 ++ l2).
Proof.
  intros H1 H2 H12. induction H1 as [|x l1 H1 IH Hx]; [done|]. simpl. constructor.
  - apply IH. intros y z Hy. apply H12. by right.
  - apply Forall_app. split; [done|]. apply Forall_forall. intros y. apply H12. by left.
Qed.

Lemma sorted_filter (R : Z -> Z -> Prop) (P : Z -> Prop) `{forall x, Decision (P x)} q :
  StronglySorted R q -> StronglySorted R (filter P q).
Proof.
  induction 1 as [|x q Hq IH Hx]; [constructor|]. rw filter_cons. case_decide; [|done].
  constructor; [done|]. apply Forall_forall. intros y [_ Hy]%list_elem_of_filter.
  rw Forall_forall in Hx. by apply Hx.
Qed.

Lemma t_ins_elem E n q x : x ∈ t_ins E n q <-> x = n \/ x ∈ q.
Proof.
  unfold t_ins, q_insert. rw elem_of_app elem_of_cons !list_elem_of_filter.
  destruct (tcmp E n x <? 0); intuition congruence.
Qed.

Lemma t_ins_sorted E n q : n ∉ q -> t_sorted E q -> t_sorted E (t_ins E n q).
Proof.
  intros Hn Hs. unfold t_ins, q_insert. apply sorted_app.
  - by apply sorted_filter.
  - constructor; [by apply sorted_filter|]. apply Forall_forall.
    intros y [Hy _]%list_elem_of_filter. by apply tcmp_lt.
  - intros x y [Hx Hxq]%list_elem_of_filter Hy.
    assert (tlt E x n) as Hxn.
    { destruct (tlt_total E x n) as [|H]; [by intros ->|done|]. apply tcmp_lt in H. congruence. }
    apply elem_of_cons in Hy as [->|[Hy _]%list_elem_of_filter]; [done|].
    apply tcmp_lt in Hy. by eapply tlt_trans.
Qed.

Lemma t_insert_wf n e T :
  timers_wf T -> tm_entries T !! n = None -> timers_wf (t_insert n e T).
Proof.
  intros [Hnd Hk Hs] Hn. assert (n ∉ tm_queue T) as Hq.
  { intros H. apply Hk in H. rw Hn in H. by destruct H. }
  unfold t_insert. split; simpl.
  - unfold t_ins, q_insert. apply NoDup_app. split; [by apply NoDup_filter|]. split.
    + intros x [Hx Hxq]%list_elem_of_filter [->|[Hx' _]%list_elem_of_filter]%elem_of_cons;
        [done|congruence].
    + constructor; [|by apply NoDup_filter]. by intros [_ ?]%list_elem_of_filter.
  - intros x. rw t_ins_elem lookup_insert_is_Some' Hk. intuition congruence.
  - apply t_ins_sorted; [done|]. eapply t_sorted_ext; [|exact Hs].
    intros x Hx. apply expire_of_insert_ne. by intros ->.
Qed.

Lemma t_remove_wf n T : timers_wf T -> timers_wf (t_remove n T).
Proof.
  intros [Hnd Hk Hs]. split; simpl.
  - by apply NoDup_filter.
  - intros x. rw list_elem_of_filter lookup_delete_is_Some Hk. intuition congruence.
  - eapply t_sorted_ext; [|by apply sorted_filter]. intros x [Hx _]%list_elem_of_filter.
    unfold expire_of. by rw lookup_delete_ne.
Qed.

(** ** The memory of a timer *)

Definition entry_cells (n : Z) (e : tentry) : heapProp :=
  (ts_sec (tnode_expire n) ↦ (te_expire e).1 ∗ ts_nsec (tnode_expire n) ↦ (te_expire e).2 ∗
   tnode_task n ↦ te_task e)%I.

Definition entries (E : gmap Z tentry) : heapProp := ([∗ map] n ↦ e ∈ E, entry_cells n e)%I.

Definition is_timer (self ctx : Z) (T : timers) : heapProp :=
  (⌞timers_wf T⌟ ∗ is_cached (timer_sort_tree self) (tm_queue T) ∗ timer_ctx self ↦ ctx ∗
   entries (tm_entries T))%I.

(** The one-shot clock reading kept for the next blocking poll. *)
Definition timer_clock (self : Z) : heapProp :=
  (∃ s n v, ts_sec (timer_cached_curr self) ↦ s ∗ ts_nsec (timer_cached_curr self) ↦ n ∗
    timer_cached_curr_valid self ↦ v)%I.

(** The cells of a node on the stack of a task. *)
Definition stack_tnode (n : Z) : heapProp := (rb_cell (tnode_base n) ∗ ∃ e, entry_cells n e)%I.

Lemma entries_acc E n e :
  E !! n = Some e -> entries E ⊢ entry_cells n e ∗ (entry_cells n e -∗ entries E).
Proof. intros H. by apply (big_sepM_lookup_acc entry_cells). Qed.

Lemma wp_load_expire E n e :
  E !! n = Some e ->
  entries E ⊢ wp (load_ts (tnode_expire n)) (fun t => ⌞t = expire_of E n⌟ ∗ entries E).
Proof.
  iIntros (He) "H". iDestruct (entries_acc _ _ _ He with "H") as "[(Hs & Hn & Ht) H]".
  unfold load_ts. wp_load. wp_load. iSplitR.
  - iPureIntro. unfold expire_of. rw He /=. by destruct (te_expire e).
  - iApply "H". by iFrame.
Qed.

Lemma wp_timer_before E n y :
  is_Some (E !! n) -> is_Some (E !! y) ->
  entries E ⊢ wp (timer_before n y) (fun b => ⌞b = (tcmp E n y <? 0)⌟ ∗ entries E).
Proof.
  iIntros ([e He] [f Hf]) "H". unfold timer_before, hev_task_timer_node_cmp.
  wp_norm. iApply wp_bind. iApply wp_wand. iSplitL; [by iApply (wp_load_expire with "H")|].
  iIntros (ta) "[-> H]". wp_norm. iApply wp_bind. iApply wp_wand.
  iSplitL; [by iApply (wp_load_expire with "H")|]. iIntros (tb) "[-> H]". wp_norm. by iFrame.
Qed.

Lemma wp_store_ts a s n t (Q : unit -> heapProp) :
  ts_sec a ↦ s ∗ ts_nsec a ↦ n ∗ (ts_sec a ↦ t.1 -∗ ts_nsec a ↦ t.2 -∗ Q tt)
  ⊢ wp (store_ts a t) Q.
Proof. iIntros "(Hs & Hn & HQ)". unfold store_ts. wp_store. wp_store. iApply ("HQ" with "Hs Hn"). Qed.

Lemma wp_timer_insert self ctx T n curr ms task :
  aligned n -> tm_entries T !! n = None ->
  is_timer self ctx T ∗ timer_clock self ∗ stack_tnode n
  ⊢ wp (timer_insert self n curr ms task) (fun lm =>
      let T' := t_insert n (TEntry (hev_task_timer_get_expire curr ms) task) T in
      ⌞lm = bool_decide (hd0 (tm_queue T') = n)⌟ ∗ is_timer self ctx T' ∗ timer_clock self).
Proof.
  iIntros (Hal Hn) "[(%Hwf & Hq & Hctx & HE) [(%s & %m & %v & Hc1 & Hc2 & Hv) [Hnode (%e & H1 & H2 & H3)]]]".
  unfold timer_insert. set (e' := TEntry (hev_task_timer_get_expire curr ms) task).
  iApply wp_bind. iApply wp_store_ts. iFrame "Hc1 Hc2". iIntros "Hc1 Hc2". wp_store.
  iApply wp_bind. iApply wp_store_ts. iFrame "H1 H2". iIntros "H1 H2". wp_store.
  iAssert (entries (<[n := e']> (tm_entries T))) with "[HE H1 H2 H3]" as "HE".
  { unfold entries. rw big_sepM_insert //. iFrame. }
  pose proof (t_insert_wf n e' T Hwf Hn) as Hwf'.
  iApply wp_wand. iSplitL "Hq Hnode HE".
  - iApply (wp_cached_insert_by _ (tm_queue T) n (entries (<[n := e']> (tm_entries T))) _
      (fun y => tcmp (<[n := e']> (tm_entries T)) n y <? 0)); [done| | |iFrame].
    + apply t_sorted_upward. eapply t_sorted_ext; [|apply Hwf].
      intros x Hx. apply expire_of_insert_ne. intros ->. apply (tw_known _ Hwf) in Hx.
      rw Hn in Hx. by destruct Hx.
    + intros y Hy. apply wp_timer_before; [by rw lookup_insert_eq|].
      rw lookup_insert_is_Some'. right. by apply (tw_known _ Hwf).
  - iIntros (lm) "(-> & Hq & HE)". iSplitR; [done|]. unfold is_timer. iFrame "Hq Hctx HE".
    iSplitR; [done|]. iExists _, _, _. iFrame.
Qed.

(** ** Waking the first sleeper *)

Definition s_timer_wake (T : timers) (curr : timespec) (s : sched) : sched :=
  match tm_queue T with
  | [] => s
  | n :: _ =>
      if hev_task_timer_cmp curr (expire_of (tm_entries T) n) <? 0 then s
      else s_wakeup (te_task (default (TEntry (0, 0) 0) (tm_entries T !! n))) s
  end.

(** Every sleeping task can be woken. *)
Definition sleepers_ok (T : timers) (s : sched) : Prop :=
  forall n e, tm_entries T !! n = Some e ->
    exists i, s_tasks s !! te_task e = Some i /\ ti_state i <> HEV_TASK_STOPPED.

Lemma timer_first self ctx T :
  is_timer self ctx T -∗ ⌜match tm_queue T with
    | [] => True
    | n :: _ => is_true n = true /\ exists e, tm_entries T !! n = Some e
    end⌝.
Proof.
  iIntros "(%Hwf & [Hq _] & _)". iDestruct (rb_lists_aligned with "Hq") as %Hal. iPureIntro.
  destruct (tm_queue T) as [|n q] eqn:Hq; [done|]. inversion Hal; subst.
  split; [by apply is_true_aligned|]. apply (tw_known _ Hwf). rw Hq. by left.
Qed.

Lemma wp_timer_first self ctx T :
  is_timer self ctx T ⊢ wp (hev_rbtree_cached_first (timer_sort_tree self))
    (fun n => ⌞n = hd0 (tm_queue T)⌟ ∗ is_timer self ctx T).
Proof.
  iIntros "(%Hwf & Hq & Hctx & HE)". iApply wp_wand. iSplitL "Hq"; [by iApply wp_cached_first|].
  iIntros (n) "[-> Hq]". by iFrame.
Qed.

Lemma wp_timer_expire self ctx T n e :
  tm_entries T !! n = Some e ->
  is_timer self ctx T ⊢ wp (load_ts (tnode_expire n))
    (fun t => ⌞t = expire_of (tm_entries T) n⌟ ∗ is_timer self ctx T).
Proof.
  iIntros (He) "(%Hwf & Hq & Hctx & HE)". iApply wp_wand.
  iSplitL "HE"; [by iApply (wp_load_expire with "HE")|]. iIntros (t) "[-> HE]". by iFrame.
Qed.

Lemma wp_timer_wakeup self ctx T curr s :
  sleepers_ok T s -> sched_wf s ->
  is_timer self ctx T ∗ is_sched ctx s
  ⊢ wp (hev_task_timer_wakeup self curr) (fun _ =>
      is_timer self ctx T ∗ is_sched ctx (s_timer_wake T curr s)).
Proof.
  iIntros (Hok Hwf) "[HT HS]". iDestruct (timer_first with "HT") as %Hf.
  unfold hev_task_timer_wakeup, s_timer_wake. iApply wp_bind. iApply wp_wand.
  iSplitL "HT"; [by iApply wp_timer_first|]. iIntros (n) "[-> HT]".
  destruct (tm_queue T) as [|n q] eqn:Hq; [by simpl; wp_norm; iFrame|].
  destruct Hf as [Hn [e He]]. change (hd0 (n :: q)) with n. rw Hn. cbn [negb].
  iApply wp_bind. iApply wp_wand. iSplitL "HT"; [iApply (wp_timer_expire _ _ _ _ _ He with "HT")|].
  iIntros (t) "[-> HT]". destruct (hev_task_timer_cmp curr _ <? 0); [by wp_norm; iFrame|].
  iDestruct "HT" as "(%HwT & Hq & Hctx & HE)". wp_load.
  iDestruct (entries_acc _ _ _ He with "HE") as "[(H1 & H2 & H3) HE]". wp_load.
  iDestruct ("HE" with "[$H1 $H2 $H3]") as "HE". rw He /=.
  destruct (Hok n e He) as (i & Hi & Hst).
  iApply wp_wand. iSplitL "HS"; [by iApply (wp_wakeup with "HS")|]. iIntros (_) "$".
  unfold is_timer. rw Hq. by iFrame.
Qed.

(** ** Removal *)

Lemma wp_timer_erase self ctx T n e :
  tm_entries T !! n = Some e ->
  is_timer self ctx T
  ⊢ wp (hev_rbtree_cached_erase (timer_sort_tree self) (tnode_base n)) (fun _ =>
      is_timer self ctx (t_remove n T) ∗ rb_cell (tnode_base n) ∗ entry_cells n e).
Proof.
  iIntros (He) "(%Hwf & Hq & Hctx & HE)".
  assert (n ∈ tm_queue T) as Hin by (apply (tw_known _ Hwf); by exists e).
  pose proof (t_remove_wf n T Hwf) as Hwf'.
  destruct (queue_split _ n (tw_nodup _ Hwf) Hin) as (A & B & HAB & Hf).
  unfold entries. iDestruct (big_sepM_delete _ _ _ _ He with "HE") as "[Hn HE]".
  iApply wp_wand. iSplitL "Hq"; [rw HAB; by iApply wp_cached_erase|].
  iIntros (_) "[Hq $]". iFrame "Hn". unfold is_timer, t_remove in *. simpl. rw Hf in Hwf' |- *.
  iFrame. done.
Qed.

(** ** Operations with the clock *)

Section clock.
Context (Y : Z -> heapProp -> heapProp) `{!YieldMono Y}.

Lemma cwp_get_curr (Q : timespec -> heapProp) :
  (∀ t, ⌜normalised t⌝ → Q t) ⊢ cwp Y hev_task_timer_get_curr Q.
Proof.
  iIntros "HQ". unfold hev_task_timer_get_curr. cbn [co_bind call cwp].
  iApply ext_wp_query. iIntros (a [_ Hdoc]). unfold sys_doc in Hdoc. simpl in Hdoc.
  destruct (a_data a) as [|sec [|nsec [|? ?]]]; try done.
  apply andb_true_iff in Hdoc as [Hdoc Hns]. apply andb_true_iff in Hdoc as [Hr%Z.eqb_eq Hs].
  rw Hr. cbn [Z.ltb]. simpl. iApply "HQ". iPureIntro. unfold normalised. simpl.
  unfold nanoseconds_ok in Hns. apply andb_true_iff in Hns. lia.
Qed.

(** [hev_task_timer_wake] *)
Lemma cwp_timer_wake self ctx T s :
  sleepers_ok T s -> sched_wf s ->
  is_timer self ctx T ∗ timer_clock self ∗ is_sched ctx s
  ⊢ cwp Y (hev_task_timer_wake self) (fun _ =>
      is_timer self ctx T ∗ timer_clock self ∗
      ∃ curr, ⌞normalised curr⌟ ∗ is_sched ctx (s_timer_wake T curr s)).
Proof.
  iIntros (Hok Hwf) "(HT & (%x & %m & %v & Hc1 & Hc2 & Hv) & HS)".
  iDestruct (timer_first with "HT") as %Hf. unfold hev_task_timer_wake.
  cbn [cwp]. wp_store. iApply wp_wand. iSplitL "HT"; [by iApply wp_timer_first|].
  iIntros (n) "[-> HT]". iAssert (timer_clock self) with "[Hc1 Hc2 Hv]" as "Hc".
  { iExists _, _, _. iFrame. }
  destruct (tm_queue T) as [|n q] eqn:Hq.
  { change (is_true (hd0 [])) with false. cbn [negb cwp]. iFrame. iExists (0, 0).
    iSplitR; [by iPureIntro; unfold normalised; simpl; lia|]. unfold s_timer_wake. by rw Hq. }
  destruct Hf as [Hn _]. change (hd0 (n :: q)) with n. rw Hn. cbn [negb].
  iApply cwp_bind. iApply cwp_get_curr. iIntros (curr Hc). cbn [act cwp].
  iApply wp_wand. iSplitL "HT HS"; [iApply (wp_timer_wakeup with "[$HT $HS]"); done|].
  iIntros (_) "[$ HS]". iFrame "Hc". iExists curr. iFrame "HS". done.
Qed.

(** [hev_task_timer_poll_due] *)
Definition timer_deadline (self : Z) (t : timespec) : heapProp :=
  (ts_sec (timer_poll_deadline self) ↦ t.1 ∗ ts_nsec (timer_poll_deadline self) ↦ t.2)%I.

Lemma wp_load_deadline self t :
  timer_deadline self t ⊢ wp (load_ts (timer_poll_deadline self))
    (fun r => ⌞r = t⌟ ∗ timer_deadline self t).
Proof. iIntros "[H1 H2]". unfold load_ts. wp_load. wp_load. iFrame. by destruct t. Qed.

Definition first_expiry (T : timers) : option timespec :=
  expire_of (tm_entries T) <$> head (tm_queue T).

Lemma wp_peek_expiry self ctx T :
  is_timer self ctx T ⊢ wp (hev_task_timer_peek_expiry self)
    (fun r => ⌞r = first_expiry T⌟ ∗ is_timer self ctx T).
Proof.
  iIntros "HT". iDestruct (timer_first with "HT") as %Hf. unfold hev_task_timer_peek_expiry, first_expiry.
  iApply wp_bind. iApply wp_wand. iSplitL; [by iApply wp_timer_first|]. iIntros (n) "[-> HT]".
  destruct (tm_queue T) as [|n q]; [by simpl; wp_norm; iFrame|].
  destruct Hf as [Hn [e He]]. change (hd0 (n :: q)) with n. rw Hn. cbn [negb].
  iApply wp_bind. iApply wp_wand. iSplitL; [iApply (wp_timer_expire _ _ _ _ _ He with "HT")|].
  iIntros (t) "[-> HT]". wp_norm. by iFrame.
Qed.

Lemma cwp_poll_due self ctx T d :
  is_timer self ctx T ∗ timer_deadline self d
  ⊢ cwp Y (hev_task_timer_poll_due self) (fun r =>
      is_timer self ctx T ∗ timer_deadline self d ∗
      ∃ curr, ⌞normalised curr /\
        r = ((0 <=? hev_task_timer_cmp curr d) ||
             match first_expiry T with
             | Some e => hev_task_timer_cmp e d <=? 0
             | None => false
             end)⌟).
Proof.
  iIntros "[HT Hd]". unfold hev_task_timer_poll_due. iApply cwp_bind. iApply cwp_get_curr.
  iIntros (curr Hc). cbn [cwp]. iApply wp_wand. iSplitL "Hd"; [by iApply wp_load_deadline|].
  iIntros (t) "[-> Hd]". rw (Z.ltb_antisym 0).
  destruct (0 <=? hev_task_timer_cmp curr d) eqn:Hcd; cbn [negb orb cwp].
  { iFrame. iExists curr. iPureIntro. by rw Hcd. }
  iApply wp_wand. iSplitL "HT"; [by iApply wp_peek_expiry|]. iIntros (r) "[-> HT]".
  destruct (first_expiry T) as [e|]; cbn [cwp]; iFrame; iExists curr; iPureIntro;
    rw Hcd; [|done]. by rw Z.ltb_antisym negb_involutive.
Qed.

(** [hev_task_timer_get_timeout]: with the cached reading or a new one. *)
Lemma cwp_get_timeout self ctx T s n v :
  is_timer self ctx T ∗ ts_sec (timer_cached_curr self) ↦ s ∗ ts_nsec (timer_cached_curr self) ↦ n ∗
  timer_cached_curr_valid self ↦ v
  ⊢ cwp Y (hev_task_timer_get_timeout self) (fun r =>
      is_timer self ctx T ∗ timer_clock self ∗
      match first_expiry T with
      | None => ⌞r = -1⌟
      | Some e => ∃ curr, ⌞(is_true v = true -> curr = (s, n)) /\
          (is_true v = false -> normalised curr) /\ r = s32 (hev_task_timer_get_time curr e)⌟
      end).
Proof.
  iIntros "(HT & Hc1 & Hc2 & Hv)". iDestruct (timer_first with "HT") as %Hf.
  unfold hev_task_timer_get_timeout, first_expiry. cbn [cwp].
  iApply wp_wand. iSplitL "HT"; [by iApply wp_timer_first|]. iIntros (m) "[-> HT]".
  destruct (tm_queue T) as [|m q].
  { change (is_true (hd0 [])) with false. cbn [negb cwp]. iFrame "HT". iSplitL; [|done].
    iExists _, _, _. iFrame. }
  destruct Hf as [Hm [e He]]. change (hd0 (m :: q)) with m. rw Hm. cbn [negb cwp fmap option_fmap option_map head].
  wp_load. iApply cwp_bind.
  iApply (cwp_wand _ _ (fun curr => timer_clock self ∗
    ⌞(is_true v = true -> curr = (s, n)) /\ (is_true v = false -> normalised curr)⌟)%I).
  iSplitR "HT".
  - destruct (is_true v).
    + cbn [cwp]. unfold load_ts. wp_load. wp_load. wp_store. iSplitL; [|done]. iExists _, _, _. iFrame.
    + iApply cwp_get_curr. iIntros (t Ht). iSplitL; [|done]. iExists _, _, _. iFrame.
  - iIntros (curr) "[Hck %Hc]". cbn [cwp]. iApply wp_wand.
    iSplitL "HT"; [iApply (wp_timer_expire _ _ _ _ _ He with "HT")|]. iIntros (t) "[-> HT]".
    iFrame "HT Hck". iExists curr. iPureIntro. split_and!; [apply Hc|apply Hc|done].
Qed.
End clock.

(** ** Sleeping *)

(** The entry of a task that falls asleep at [t0] for [ms] milliseconds. *)
Definition sleeper (t0 : timespec) (ms task : Z) : tentry :=
  TEntry (hev_task_timer_get_expire t0 ms) task.

(** The one suspension of a sleeping task: its entry has been inserted in the
    sleepers [T], the scheduler is as it was.  The others keep the entry and
    the sleepers wakeable.  [Ψ t0 T' s'] stands for what they have made of the
    sleepers and the scheduler: it is handed over with them, once. *)
Definition sleep_yield (self ctx n ms task : Z) (T : timers) (s : sched)
    (Ψ : timespec -> timers -> sched -> heapProp) (t : Z) (K : heapProp) : heapProp :=
  (∃ t0, ⌞t = HEV_TASK_WAITIO⌟ ∗
    is_timer self ctx (t_insert n (sleeper t0 ms task) T) ∗ timer_clock self ∗ is_sched ctx s ∗
    (∀ T' s', is_timer self ctx T' -∗ timer_clock self -∗ is_sched ctx s' -∗ Ψ t0 T' s' -∗
      ⌞sched_wf s' /\ sleepers_ok T' s' /\ tm_entries T' !! n = Some (sleeper t0 ms task)⌟ -∗ K))%I.

#[export] Instance sleep_yield_mono self ctx n ms task T s Ψ :
  YieldMono (sleep_yield self ctx n ms task T s Ψ).
Proof.
  intros t K1 K2. iIntros "[(%t0 & Ht & HT & Hc & HS & HK) H]". iExists t0. iFrame "Ht HT Hc HS".
  iIntros (T' s') "HT Hc HS HΨ %Hp'". iApply "H". iApply ("HK" with "HT Hc HS HΨ"). done.
Qed.

Lemma sleepers_insert T s n e i :
  sleepers_ok T s -> s_tasks s !! te_task e = Some i -> ti_state i <> HEV_TASK_STOPPED ->
  sleepers_ok (t_insert n e T) s.
Proof.
  intros Hok Hi Hst m f. simpl. destruct (decide (m = n)) as [->|Hne].
  - rw lookup_insert_eq. intros [= <-]. by exists i.
  - rw lookup_insert_ne //. apply Hok.
Qed.

Lemma sleepers_remove T s n : sleepers_ok T s -> sleepers_ok (t_remove n T) s.
Proof. intros Hok m f. simpl. intros [_ H]%lookup_delete_Some. by eapply Hok. Qed.

(** The call that reads the clock, and the time it answers. *)
Definition clock_call : ext := Query "clock_gettime" [HEV_TASK_TIMER_CLOCK] 2.

Definition clock_reading (a : answer) : timespec :=
  match a_data a with [sec; nsec] => (sec, nsec) | _ => (0, 0) end.

Lemma cwp_logged_get_curr Y `{!YieldMono Y} log (Q : timespec * list entry -> heapProp) :
  (∀ a, ⌜normalised (clock_reading a)⌝ → Q (clock_reading a, log ++ [(clock_call, a)]))
  ⊢ cwp Y (logged hev_task_timer_get_curr log) Q.
Proof.
  iIntros "HQ". unfold hev_task_timer_get_curr. cbn [co_bind call logged cwp].
  iApply ext_wp_query. iIntros (a [_ Hdoc]). iSpecialize ("HQ" $! a).
  unfold clock_reading. unfold sys_doc in Hdoc. simpl in Hdoc.
  destruct (a_data a) as [|sec [|nsec [|? ?]]]; try done.
  apply andb_true_iff in Hdoc as [Hdoc Hns]. apply andb_true_iff in Hdoc as [Hr%Z.eqb_eq Hs].
  rw Hr. cbn [Z.ltb]. simpl. iApply "HQ". iPureIntro. unfold normalised. simpl.
  unfold nanoseconds_ok in Hns. apply andb_true_iff in Hns. lia.
Qed.

(** The node was the first of the sleepers when it was inserted, or is the
    first now, in [T']. *)
Definition was_first (n : Z) (e : tentry) (T T' : timers) : bool :=
  bool_decide (hd0 (tm_queue (t_insert n e T)) = n) || (n =? hd0 (tm_queue T')).

(** The time slept is measured from the first reading of the clock to the
    last; the next sleeper is woken when this one was, or still is, the first. *)
Lemma cwp_timer_wait self ctx T s n ms task i Ψ :
  aligned n -> tm_entries T !! n = None -> 0 <= ms ->
  sched_wf s -> sleepers_ok T s -> s_tasks s !! task = Some i -> ti_state i <> HEV_TASK_STOPPED ->
  is_timer self ctx T ∗ timer_clock self ∗ is_sched ctx s ∗ stack_tnode n
  ⊢ cwp (sleep_yield self ctx n ms task T s Ψ) (logged (hev_task_timer_wait self ms task n) [])
    (fun rl => ∃ a0 ay a1 T' s', let t0 := clock_reading a0 in let t1 := clock_reading a1 in
        ⌞normalised t0 /\ normalised t1 /\
         rl.2 = [(clock_call, a0); (Yield HEV_TASK_WAITIO, ay); (clock_call, a1)] /\
         rl.1 = hev_task_timer_get_time t1 (hev_task_timer_get_expire t0 ms)⌟ ∗
        Ψ t0 T' s' ∗ is_timer self ctx (t_remove n T') ∗ timer_clock self ∗ stack_tnode n ∗
        is_sched ctx (if was_first n (sleeper t0 ms task) T T'
                      then s_timer_wake (t_remove n T') t1 s' else s')).
Proof.
  iIntros (Hal Hn Hms Hwf Hok Hi Hst) "(HT & Hc & HS & Hnode)". unfold hev_task_timer_wait.
  iApply cwp_logged_bind. iApply cwp_logged_get_curr. iIntros (a0 Ht0). cbn [cwp co_bind call logged fst snd].
  iApply wp_wand. iSplitL "HT Hc Hnode"; [iApply (wp_timer_insert with "[$HT $Hc $Hnode]"); done|].
  iIntros (lm) "(-> & HT & Hc)". set (t0 := clock_reading a0) in *.
  change (TEntry _ _) with (sleeper t0 ms task). set (e := sleeper t0 ms task).
  iExists t0. iSplitR; [done|]. iFrame "HT Hc HS".
  iIntros (T' s') "HT Hc HS HΨ %Hp". destruct Hp as (Hwf' & Hok' & He). iIntros (ay).
  iApply wp_wand. iSplitL "HT"; [by iApply wp_timer_first|]. iIntros (f) "[-> HT]".
  iApply wp_wand. iSplitL "HT"; [iApply (wp_timer_erase _ _ _ _ _ He with "HT")|].
  iIntros (_) "(HT & Hb & He)". iApply cwp_logged_bind. iApply cwp_logged_get_curr.
  iIntros (a1 Ht1). cbn [cwp logged fst snd]. set (t1 := clock_reading a1) in *.
  change (bool_decide (hd0 (tm_queue (t_insert n e T)) = n) || (tnode_base n =? hd0 (tm_queue T')))
    with (was_first n e T T').
  iApply (wp_wand _ (fun _ => is_timer self ctx (t_remove n T') ∗
    is_sched ctx (if was_first n e T T' then s_timer_wake (t_remove n T') t1 s' else s'))%I).
  iSplitL "HT HS".
  - destruct (was_first n e T T'); cbn [when]; [|by wp_norm; iFrame].
    iApply (wp_timer_wakeup with "[$HT $HS]"); [by apply sleepers_remove|done].
  - iIntros (_) "[HT HS]". iDestruct "He" as "(H1 & H2 & H3)". unfold load_ts. wp_load. wp_load.
    iExists a0, ay, a1, T', s'. iSplitR.
    + iPureIntro. split_and!; [done|done|done|]. by destruct (hev_task_timer_get_expire t0 ms).
    + iFrame "HΨ HT Hc HS Hb". iExists e. iFrame.
Qed.
