(* ===== verification/Reactor.v ===== *)
(** * Reactor: the I/O reactors, [src/src/kern/io]

    The epoll reactor and the kqueue one.  Arrays of events that live on a
    caller's stack are lists.  The names of the kqueue variants carry a
    [kqueue_] prefix. *)

From S2P Require Export Prelude.
From S2P Require Export Env.
From S2P Require Export Mem.

(** ** Constants of [poll.h], [fcntl.h] and [sys/epoll.h] *)

Definition POLLIN : Z := 1.
Definition POLLOUT : Z := 4.
Definition POLLERR : Z := 8.

Definition F_GETFD : Z := 1.
Definition F_SETFD : Z := 2.
Definition FD_CLOEXEC : Z := 1.

Definition EPOLLET : Z := 2 ^ 31.

Definition HEV_TASK_IO_REACTOR_EV_RO : Z := 1.
Definition HEV_TASK_IO_REACTOR_EV_WO : Z := 4.
Definition HEV_TASK_IO_REACTOR_EV_ER : Z := 8.

Definition HEV_TASK_IO_REACTOR_OP_ADD : Z := 1.
Definition HEV_TASK_IO_REACTOR_OP_DEL : Z := 2.
Definition HEV_TASK_IO_REACTOR_OP_MOD : Z := 3.

Definition HEV_TASK_IO_REACTOR_EVENT_GEN_MAX : Z := 1.

(** ** [struct _HevTaskIOReactor] *)

Definition reactor_fd (self : Z) : Z := self.
Definition SIZEOF_REACTOR : Z := 8.

(** The part of [hev_task_io_reactor_new] that both reactors share, from the
    system call that opens the descriptor. *)
Definition reactor_open (open : co Z) : co Z :=
  self <~ hev_malloc0 SIZEOF_REACTOR ;;
  if negb (is_true self) then Ret NULL else
  fd <~ open ;;
  store (reactor_fd self) fd !;;
  if fd <? 0 then hev_free self ~;; Ret NULL else
  flags <~ sys "fcntl" [fd; F_GETFD] ;;
  if flags <? 0 then sys "close" [fd] ~;; hev_free self ~;; Ret NULL else
  let flags := Z.lor flags FD_CLOEXEC in
  r <~ sys "fcntl" [fd; F_SETFD; flags] ;;
  if r <? 0 then sys "close" [fd] ~;; hev_free self ~;; Ret NULL else
  Ret self.

Definition hev_task_io_reactor_new : co Z := reactor_open (sys "epoll_create" [128]).

Definition hev_task_io_reactor_destroy (self : Z) : co unit :=
  fd <! load (reactor_fd self) ;;
  sys "close" [fd] ~;;
  hev_free self.

(** ** epoll events *)

Record HevTaskIOReactorSetupEvent : Type := SetupEvent {
  se_op : Z;
  se_fd : Z;
  se_events : Z;
  se_data : Z
}.

(** [struct epoll_event] *)
Record HevTaskIOReactorWaitEvent : Type := WaitEvent { we_events : Z; we_data : Z }.

Definition hev_task_io_reactor_setup_event_set (fd op events data : Z) :
    HevTaskIOReactorSetupEvent :=
  SetupEvent op fd (Z.lor events EPOLLET) data.

(** The event generated, and the count returned. *)
Definition hev_task_io_reactor_setup_event_fd_gen (fd op poll_events data : Z) :
    list HevTaskIOReactorSetupEvent * Z :=
  let reactor_events := 0 in
  let reactor_events :=
    if is_true (Z.land poll_events POLLIN)
    then Z.lor reactor_events HEV_TASK_IO_REACTOR_EV_RO else reactor_events in
  let reactor_events :=
    if is_true (Z.land poll_events POLLOUT)
    then Z.lor reactor_events HEV_TASK_IO_REACTOR_EV_WO else reactor_events in
  let reactor_events :=
    if is_true (Z.land poll_events POLLERR)
    then Z.lor reactor_events HEV_TASK_IO_REACTOR_EV_ER else reactor_events in
  ([hev_task_io_reactor_setup_event_set fd op reactor_events data], 1).

Definition hev_task_io_reactor_setup_event_whandle_gen (handle op data : Z) :
    list HevTaskIOReactorSetupEvent * Z := ([], -1).

Definition hev_task_io_reactor_wait_event_get_events (event : HevTaskIOReactorWaitEvent) : Z :=
  we_events event.
Definition hev_task_io_reactor_wait_event_get_data (event : HevTaskIOReactorWaitEvent) : Z :=
  we_data event.

Fixpoint setup_loop (fd : Z) (events : list HevTaskIOReactorSetupEvent) (res : Z) : co Z :=
  match events with
  | [] => Ret res
  | ev :: events =>
      r <~ sys "epoll_ctl" [fd; se_op ev; se_fd ev; se_events ev; se_data ev] ;;
      setup_loop fd events (Z.lor res r)
  end.

Definition hev_task_io_reactor_setup (self : Z) (events : list HevTaskIOReactorSetupEvent)
    (count : Z) : co Z :=
  fd <! load (reactor_fd self) ;;
  setup_loop fd (take (Z.to_nat count) events) 0.

(** The words of an array of [struct epoll_event]. *)
Fixpoint wait_events (data : list Z) : list HevTaskIOReactorWaitEvent :=
  match data with
  | ev :: p :: data => WaitEvent ev p :: wait_events data
  | _ => []
  end.

Definition hev_task_io_reactor_wait (self count timeout : Z) :
    co (Z * list HevTaskIOReactorWaitEvent) :=
  fd <! load (reactor_fd self) ;;
  a <~ call (Query "epoll_wait" [fd; count; timeout] (Z.to_nat (2 * count))) ;;
  Ret (a_ret a, wait_events (a_data a)).

(** ** kqueue events *)

Definition EVFILT_READ : Z := -1.
Definition EVFILT_WRITE : Z := -2.
Definition EVFILT_EXCEPT : Z := 0.
Definition EV_ADD : Z := 1.
Definition EV_DELETE : Z := 2.
Definition EV_CLEAR : Z := 32.

Definition KQUEUE_OP_ADD : Z := 0.
Definition KQUEUE_OP_MOD : Z := 1.
Definition KQUEUE_OP_DEL : Z := 2.

Definition KQUEUE_EVENT_GEN_MAX : Z := 6.

(** [struct kevent], the fields the library sets. *)
Record kevent : Type := KEvent {
  ke_ident : Z;
  ke_filter : Z;
  ke_flags : Z;
  ke_udata : Z
}.

Definition kqueue_reactor_new : co Z := reactor_open (sys "kqueue" []).

Definition kqueue_setup_event_set (fd op events data : Z) : kevent :=
  let action := if op =? KQUEUE_OP_DEL then EV_DELETE else EV_ADD in
  KEvent fd events (Z.lor action EV_CLEAR) data.

Definition kqueue_setup_event_fd_gen (fd op poll_events data : Z) : list kevent * Z :=
  let dels :=
    if KQUEUE_OP_ADD <? op then
      (if is_true (Z.land poll_events POLLIN) then []
       else [kqueue_setup_event_set fd KQUEUE_OP_DEL EVFILT_READ data]) ++
      (if is_true (Z.land poll_events POLLOUT) then []
       else [kqueue_setup_event_set fd KQUEUE_OP_DEL EVFILT_WRITE data]) ++
      (if is_true (Z.land poll_events POLLERR) then []
       else [kqueue_setup_event_set fd KQUEUE_OP_DEL EVFILT_EXCEPT data])
    else [] in
  if op =? KQUEUE_OP_DEL then (dels, Z.of_nat (length dels)) else
  let events := dels ++
    (if is_true (Z.land poll_events POLLIN)
     then [kqueue_setup_event_set fd op EVFILT_READ data] else []) ++
    (if is_true (Z.land poll_events POLLOUT)
     then [kqueue_setup_event_set fd op EVFILT_WRITE data] else []) ++
    (if is_true (Z.land poll_events POLLERR)
     then [kqueue_setup_event_set fd op EVFILT_EXCEPT data] else []) in
  (events, Z.of_nat (length events)).

Definition kqueue_setup_event_whandle_gen (handle op data : Z) : list kevent * Z := ([], -1).

Definition kevent_words (ev : kevent) : list Z :=
  [ke_ident ev; ke_filter ev; ke_flags ev; ke_udata ev].

(** Deletions one by one, then the rest in one call. *)
Fixpoint kqueue_setup_loop (fd : Z) (events : list kevent) (res : Z) : co Z :=
  match events with
  | [] => Ret res
  | ev :: rest =>
      if negb (is_true (Z.land (ke_flags ev) EV_DELETE))
      then sys "kevent" (fd :: Z.of_nat (length events) :: concat (map kevent_words events))
      else
        r <~ sys "kevent" (fd :: 1 :: kevent_words ev) ;;
        kqueue_setup_loop fd rest (Z.land res r)
  end.

Definition kqueue_reactor_setup (self : Z) (events : list kevent) (count : Z) : co Z :=
  fd <! load (reactor_fd self) ;;
  kqueue_setup_loop fd (take (Z.to_nat count) events) (-1).

(** Filter and user data of the events returned. *)
Definition kqueue_reactor_wait (self count timeout : Z) :
    co (Z * list HevTaskIOReactorWaitEvent) :=
  let tsp :=
    if 0 <=? timeout then [Z.quot timeout 1000; Z.rem timeout 1000 * 1000000] else [] in
  fd <! load (reactor_fd self) ;;
  a <~ call (Query "kevent" (fd :: count :: tsp) (Z.to_nat (2 * count))) ;;
  Ret (a_ret a, wait_events (a_data a)).

Definition kqueue_wait_event_get_events (event : HevTaskIOReactorWaitEvent) : Z :=
  if we_events event =? EVFILT_READ then POLLIN
  else if we_events event =? EVFILT_WRITE then POLLOUT
  else POLLERR.

Definition kqueue_wait_event_get_data (event : HevTaskIOReactorWaitEvent) : Z := we_data event.
