(* ===== verification/Sched.v ===== *)
(** * Sched: the scheduler, the rest of [hev-task-system-schedule.c]

    The kernel side polls for events, picks the running task with the least
    key and jumps to it; the task comes back with a yield type.  A jump to a
    task is the external call [Yield t] of the kernel's program, whose answer
    is the type passed to [hev_longjmp]; a task's own [hev_task_yield] is
    [Yield] of the type.  The stack bookkeeping of [hev_sys_task_stack_enter]
    and [_leave] is empty on POSIX systems. *)

From S2P Require Export Prelude.
From S2P Require Export Env.
From S2P Require Export TaskBase.
From S2P Require Export Queue.
From S2P Require Export Timer.
From S2P Require Export Reactor.

Definition CONFIG_SCHED_IO_POLL_INTERVAL : Z := 50000.

(** ** Polling *)

Fixpoint wake_events (ctx : Z) (events : list HevTaskIOReactorWaitEvent) : M unit :=
  match events with
  | [] => ret tt
  | ev :: events =>
      let data := hev_task_io_reactor_wait_event_get_data ev in
      task <- hev_task_from_data data ;;
      hev_task_system_wakeup_task_with_context ctx task ;;;
      wake_events ctx events
  end.

Definition hev_task_system_io_poll (ctx timeout : Z) : co unit :=
  timer <! load (ctx_timer ctx) ;;
  timeout <~ (if timeout <? 0 then hev_task_timer_get_timeout timer else Ret timeout) ;;
  reactor <! load (ctx_reactor ctx) ;;
  r <~ hev_task_io_reactor_wait reactor 1024 timeout ;;
  wake_events ctx (take (Z.to_nat r.1) r.2) !;;
  hev_task_timer_wake timer ~;;
  hev_task_timer_poll_rearm timer CONFIG_SCHED_IO_POLL_INTERVAL.

Definition hev_task_system_io_poll_maybe (ctx : Z) : co unit :=
  timer <! load (ctx_timer ctx) ;;
  due <~ hev_task_timer_poll_due timer ;;
  if due then hev_task_system_io_poll ctx 0 else Ret tt.

(** ** Picking the next task *)

(** One round of the [do ... while] that waits for a task to run. *)
Definition poll_until_running (ctx : Z) (_ : unit) : co (unit + unit) :=
  hev_task_system_io_poll ctx (-1) ~;;
  running <! load (ctx_running_task_count ctx) ;;
  Ret (if is_true running then inr tt else inl tt).

(** The leftmost task of the queue becomes the current one. *)
Definition pick_first (ctx : Z) : M unit :=
  sched_node <- hev_rbtree_cached_first (ctx_running_tasks ctx) ;;
  store (ctx_current_task ctx) (task_of_sched_node sched_node).

Definition hev_task_system_pick_current_task (ctx : Z) : co unit :=
  running <! load (ctx_running_task_count ctx) ;;
  total <! load (ctx_total_task_count ctx) ;;
  (if running <? total then
     if is_true running then hev_task_system_io_poll_maybe ctx
     else co_while (poll_until_running ctx) tt
   else Ret tt) ~;;
  act (pick_first ctx).

(** ** [hev_task_system_schedule] *)

(** The [switch] on the value [setjmp] returns with. *)
Definition schedule_switch (ctx type : Z) : co unit :=
  if type =? HEV_TASK_SCHED_SWITCH then
    hev_task_system_update_sched_key ctx !;;
    act (hev_task_system_reinsert_current_task ctx)
  else if type =? HEV_TASK_SCHED_WAITIO then
    hev_task_system_update_sched_key ctx !;;
    hev_task_system_remove_current_task ctx HEV_TASK_WAITING
  else if type =? HEV_TASK_SCHED_REMOVE then
    hev_task_system_remove_current_task ctx HEV_TASK_STOPPED
  else Ret tt.

(** From one return of [setjmp] in kernel context to the next, or to the end
    when all tasks have exited. *)
Definition schedule_round (ctx type : Z) : co (Z + unit) :=
  schedule_switch ctx type ~;;
  total <! load (ctx_total_task_count ctx) ;;
  if total =? 0 then store (ctx_current_task ctx) NULL !;; Ret (inr tt) else
  hev_task_system_pick_current_task ctx ~;;
  hev_task_system_update_sched_time ctx !;;
  task <! load (ctx_current_task ctx) ;;
  a <~ call (Yield task) ;;
  Ret (inl (a_ret a)).

(** The kernel part runs when there is no current task.  Without [setjmp], a
    task has no valid place to jump back to. *)
Definition schedule_kernel (ctx type : Z) : co unit :=
  if type =? HEV_TASK_RUN_SCHEDULER then co_while (schedule_round ctx) 0
  else
    r <~ schedule_round ctx 0 ;;
    match r with
    | inl _ => act (fail Undefined)
    | inr _ => Ret tt
    end.

Definition hev_task_system_schedule (type : Z) : co unit :=
  ctx <! hev_task_system_get_context ;;
  current_task <! load (ctx_current_task ctx) ;;
  if is_true current_task then call (Yield type) ~;; Ret tt
  else schedule_kernel ctx type.

(** ** Starting and ending a task *)

(** [hev_task_executer] returns from its [setjmp] right away here. *)
Definition hev_task_system_run_new_task (task : Z) : co unit :=
  ctx <! hev_task_system_get_context ;;
  bottom <! load (task_stack_bottom task) ;;
  stack <! load (task_stack task) ;;
  base <! hev_task_stack_get_base stack ;;
  sys "hev_task_execute" [task; bottom; base] ~;;
  current <! load (ctx_current_task ctx) ;;
  (if is_true current then
     key <- load (task_sched_key task) ;;
     min <- hev_task_system_get_min_sched_key ctx ;;
     store (task_sched_key task) (w64 (key + min))
   else ret tt) !;;
  hev_task_system_insert_task ctx task !;;
  total <! load (ctx_total_task_count ctx) ;;
  act (store (ctx_total_task_count ctx) (w32 (total + 1))).

(** Control never comes back to the caller. *)
Definition hev_task_system_kill_current_task : co unit :=
  call (Yield HEV_TASK_SCHED_REMOVE) ~;; Stop.
