(* ===== verification/SchedProofs.v ===== *)
(** * SchedProofs: one pass of the scheduler

    What a pass of [hev_task_system_schedule] does between two jumps, on the
    abstract scheduler: the switch on the yield type, the events of a poll,
    and the choice of the next task; and how long a task can be passed over. *)

From stdpp Require Import sorting.
From S2P Require Import Prelude.
From S2P Require Import Sep.
From S2P Require Import RBTree.
From S2P Require Import RBTreeApi.
From S2P Require Import Env.
From S2P Require Import EnvLogic.
From S2P Require Import TaskBase.
From S2P Require Import Queue.
From S2P Require Import QueueSpec.
From S2P Require Import QueueProofs.
From S2P Require Import Reactor.
From S2P Require Import Sched.

(** ** Abstract operations *)

(** [schedule_switch], for a task that goes on or waits *)
Definition s_switch (type : Z) (s : sched) : sched :=
  if type =? HEV_TASK_SCHED_SWITCH then s_reinsert (s_charge s)
  else if type =? HEV_TASK_SCHED_WAITIO then s_block (s_charge s)
  else s.

(** The first of the queue becomes the current task. *)
Definition s_pick (s : sched) : sched :=
  Sched (s_tasks s) (s_queue s) (default (-32) (head (s_queue s))).

(** A pass in which the current task yields. *)
Definition s_round (s : sched) : sched := s_pick (s_switch HEV_TASK_SCHED_SWITCH s).

Lemma switch_wf type s :
  sched_wf s -> runs s -> sched_wf (s_switch type s).
Proof.
  intros [Hb Hs] Hr. destruct (charge_base s Hb Hr) as [Hb' Hr'].
  pose proof (charge_sorted s Hs) as Hs'. unfold s_switch.
  destruct (type =? HEV_TASK_SCHED_SWITCH); [by destruct (reinsert_wf _ Hb' Hr' Hs')|].
  destruct (type =? HEV_TASK_SCHED_WAITIO); [by apply block_wf|done].
Qed.

Lemma pick_wf s : sched_wf s -> sched_wf (s_pick s).
Proof. intros [[] Hs]. split; [by split|done]. Qed.

(** ** The switch *)

Lemma cwp_switch Y `{!YieldMono Y} ctx type s :
  type = HEV_TASK_SCHED_SWITCH \/ type = HEV_TASK_SCHED_WAITIO ->
  sched_wf s -> runs s ->
  is_sched ctx s ⊢ cwp Y (schedule_switch ctx type) (fun _ => is_sched ctx (s_switch type s)).
Proof.
  iIntros (Hty [Hb Hs] Hr) "H". destruct (charge_base s Hb Hr) as [Hb' Hr'].
  pose proof (charge_sorted s Hs) as Hs'. unfold schedule_switch, s_switch.
  destruct Hty as [-> | ->];
    [rw Z.eqb_refl|change (HEV_TASK_SCHED_WAITIO =? HEV_TASK_SCHED_SWITCH) with false; rw Z.eqb_refl];
    cbn [cwp act].
  - iApply wp_wand. iSplitL; [iApply (wp_update_sched_key _ _ Hr with "H")|]. iIntros (_) "H".
    iApply wp_wand. iSplitL; [iApply (wp_reinsert _ _ Hr' Hs' with "H")|]. by iIntros (_) "H".
  - iApply wp_wand. iSplitL; [iApply (wp_update_sched_key _ _ Hr with "H")|]. iIntros (_) "H".
    iApply (cwp_remove_waiting _ _ _ Hr' Hs' with "H").
Qed.

(** ** The events of a poll *)

(** The task an event stands for: the data itself, or the task in a slot. *)
Definition event_task (slots : list (Z * Z)) (ev : HevTaskIOReactorWaitEvent) (t : Z) : Prop :=
  (t = we_data ev /\ Z.land t HEV_TASK_SCHED_SLOT_TAG = 0) \/
  (exists slot, (slot, t) ∈ slots /\ Z.land slot HEV_TASK_SCHED_SLOT_TAG = 0 /\
    we_data ev = hev_task_slot_to_data slot).

Definition slots_cells (slots : list (Z * Z)) : heapProp :=
  ([∗ list] p ∈ slots, p.1 ↦ p.2)%I.

Lemma slot_data slot :
  Z.land slot HEV_TASK_SCHED_SLOT_TAG = 0 ->
  is_true (Z.land (hev_task_slot_to_data slot) HEV_TASK_SCHED_SLOT_TAG) = true /\
  Z.land (hev_task_slot_to_data slot) (Z.lnot HEV_TASK_SCHED_SLOT_TAG) = slot.
Proof.
  intros H. unfold hev_task_slot_to_data. split.
  - by rw Z.land_lor_distr_l H.
  - rw Z.land_lor_distr_l Z.land_lnot_diag Z.lor_0_r.
    apply Z.bits_inj'. intros n Hn. rw Z.land_spec Z.lnot_spec //.
    destruct (Z.testbit slot n) eqn:Hb; [|done]. simpl.
    destruct (Z.testbit HEV_TASK_SCHED_SLOT_TAG n) eqn:Ht; [|done].
    assert (Z.testbit (Z.land slot HEV_TASK_SCHED_SLOT_TAG) n = true) as Hc by by rw Z.land_spec Hb Ht.
    by rw H Z.bits_0 in Hc.
Qed.

Lemma wp_from_data slots ev t :
  event_task slots ev t ->
  slots_cells slots ⊢ wp (hev_task_from_data (hev_task_io_reactor_wait_event_get_data ev))
    (fun r => ⌞r = t⌟ ∗ slots_cells slots).
Proof.
  unfold hev_task_from_data, hev_task_io_reactor_wait_event_get_data.
  iIntros ([[-> Ht] | (slot & Hin & Ht & ->)]) "H".
  - rw Ht. simpl. wp_norm. by iFrame.
  - destruct (slot_data slot Ht) as [-> ->].
    apply list_elem_of_lookup in Hin as [i Hi].
    iDestruct (big_sepL_lookup_acc with "H") as "[Hs H]"; [exact Hi|]. simpl.
    wp_load. iSplitR; [done|]. by iApply "H".
Qed.

(** Waking a list of tasks that are known and not stopped. *)
Definition wakeable (s : sched) (t : Z) : Prop :=
  exists i, s_tasks s !! t = Some i /\ ti_state i <> HEV_TASK_STOPPED.

Lemma wakeup_keeps s t i u :
  s_tasks s !! t = Some i -> wakeable s u -> wakeable (s_wakeup t s) u.
Proof.
  intros Ht [j [Hj Hs]]. unfold s_wakeup. rw (info_some s t i Ht).
  destruct (Z.eqb_spec (ti_state i) HEV_TASK_RUNNING) as [|Hne]; [by exists j|].
  unfold s_insert, s_set_key, wakeable. simpl. rw insert_insert_eq.
  destruct (decide (u = t)) as [->|Hut].
  - rw lookup_insert_eq. eexists. by split.
  - rw lookup_insert_ne //. by exists j.
Qed.

Lemma wp_wake_events ctx slots evs ts s :
  Forall2 (event_task slots) evs ts -> Forall (wakeable s) ts -> sched_wf s ->
  is_sched ctx s ∗ slots_cells slots ⊢ wp (wake_events ctx evs) (fun _ =>
    is_sched ctx (foldl (fun s t => s_wakeup t s) s ts) ∗ slots_cells slots).
Proof.
  intros Hev. revert s. induction Hev as [|ev t evs ts Ht _ IH]; intros s Hw Hwf; simpl.
  { iIntros "H". by wp_norm. }
  apply Forall_cons in Hw as [[i [Hi Hst]] Hw].
  iIntros "[H Hs]". iApply wp_bind. iApply wp_wand. iSplitL "Hs"; [by iApply wp_from_data|].
  iIntros (r) "[-> Hs]". iApply wp_bind. iApply wp_wand.
  iSplitL "H"; [by iApply wp_wakeup|]. iIntros (_) "H".
  iApply (IH with "[$H $Hs]"); [|by eapply wakeup_wf].
  eapply Forall_impl; [exact Hw|]. intros u Hu. by eapply wakeup_keeps.
Qed.

(** ** Choosing the next task *)

Lemma wp_pick_first ctx s :
  is_sched ctx s ⊢ wp (pick_first ctx) (fun _ => is_sched ctx (s_pick s)).
Proof.
  iIntros "(%Hb & [Hq Hn] & Hcur & Hts & Hidle)". unfold pick_first.
  iApply wp_bind. iApply wp_wand. iSplitL "Hq"; [by iApply wp_cached_first|].
  iIntros (n) "[-> Hq]". wp_store.
  unfold is_sched, is_queue, s_pick. simpl. iFrame "Hq Hn Hts Hidle".
  iSplitR; [iPureIntro; by destruct Hb|].
  unfold hd0. destruct (s_queue s) as [|t q]; [done|]. simpl. by rw of_sched_node.
Qed.

(** No task is waiting: nothing is polled. *)
Lemma cwp_pick Y `{!YieldMono Y} ctx s :
  Z.of_nat (length (s_queue s)) < 2 ^ 32 ->
  is_sched ctx s ∗ ctx_total_task_count ctx ↦ Z.of_nat (length (s_queue s))
  ⊢ cwp Y (hev_task_system_pick_current_task ctx) (fun _ =>
    is_sched ctx (s_pick s) ∗ ctx_total_task_count ctx ↦ Z.of_nat (length (s_queue s))).
Proof.
  iIntros (Hlen) "[(%Hb & [Hq Hn] & Hcur & Hts & Hidle) Htot]".
  unfold hev_task_system_pick_current_task. cbn [cwp co_bind].
  assert (w32 (Z.of_nat (length (s_queue s))) = Z.of_nat (length (s_queue s))) as Hw by (apply w32_small; lia).
  wp_load. wp_load. rw Hw Z.ltb_irrefl. cbn [cwp co_bind act].
  iApply wp_wand. iSplitR "Htot".
  - iApply (wp_pick_first ctx s). unfold is_sched, is_queue. rw Hw.
    iFrame "Hq Hn Hcur Hts Hidle". done.
  - iIntros (_) "H". iFrame.
Qed.

(** The picked task has the least key. *)
Lemma pick_least s t :
  q_sorted (s_tasks s) (s_queue s) -> t ∈ s_queue s ->
  s_current (s_pick s) ∈ s_queue s /\
  key_in (s_tasks s) (s_current (s_pick s)) <= key_in (s_tasks s) t.
Proof.
  intros Hs Ht. simpl. destruct (s_queue s) as [|u q]; [by apply not_elem_of_nil in Ht|].
  simpl. split; [by left|]. apply elem_of_cons in Ht as [->|Ht]; [lia|].
  inversion Hs as [|? ? _ Hu]; subst. rw Forall_forall in Hu. by apply Hu.
Qed.

(** ** Fairness *)

(** How far behind [t] the task [u] is: an upper bound on the passes in which
    [u] is chosen before [t]. *)
Definition lag (ts : gmap Z tinfo) (t u : Z) : nat :=
  if decide (u = t) then 0%nat else Z.to_nat (key_in ts t - key_in ts u + 1).

Definition lags (s : sched) (t : Z) : nat := sum_list_with (lag (s_tasks s) t) (s_queue s).

(** Every task pays for a pass, and [t] is far from wrapping around. *)
Record contended (s : sched) (t : Z) : Prop := {
  ct_wf : sched_wf s;
  ct_head : head (s_queue s) = Some (s_current s);
  ct_in : t ∈ s_queue s;
  ct_key : key_in (s_tasks s) t + HEV_TASK_PRIORITY_MAX < 2 ^ 64;
  ct_pay : forall u, u ∈ s_queue s ->
    1 <= ti_prio (info (s_tasks s) u) /\ 1 <= ti_next (info (s_tasks s) u)
}.

Lemma contended_runs s t : contended s t -> runs s.
Proof. intros [_ Hh _ _ _]. unfold runs. destruct (s_queue s); [done|]. injection Hh as ->. by left. Qed.

Lemma q_ins_perm ts t q : q_ins ts t q ≡ₚ t :: q.
Proof.
  unfold q_ins. rw -Permutation_middle. f_equiv. induction q as [|x q IH]; [done|].
  rw !filter_cons. destruct (key_in ts t <? key_in ts x); simpl.
  - by rw -Permutation_middle IH.
  - by rw IH.
Qed.

Lemma filter_perm (q : list Z) t :
  NoDup q -> t ∈ q -> q ≡ₚ t :: filter (fun y => y <> t) q.
Proof.
  intros Hnd Ht. destruct (queue_split q t Hnd Ht) as (A & B & -> & ->).
  by rw Permutation_middle.
Qed.

(** The state after a pass. *)
Lemma round_state s :
  sched_base s -> runs s ->
  exists i, s_tasks s !! s_current s = Some i /\
    s_tasks (s_round s) = <[s_current s := TInfo (w64 (ti_key i + ti_prio i)) (ti_next i)
                                            (ti_next i) (ti_state i)]> (s_tasks s) /\
    s_queue (s_round s) ≡ₚ s_queue s.
Proof.
  intros Hb Hr. destruct (sw_known _ Hb _ Hr) as [i Hi]. exists i. split; [done|].
  unfold s_round, s_switch. rw Z.eqb_refl. unfold s_pick, s_reinsert, s_charge, s_set_key. simpl.
  rw (info_some s _ i Hi) info_insert /= insert_insert_eq. split; [done|].
  rw q_ins_perm -filter_perm //. by apply Hb.
Qed.

Lemma lags_perm ts t q q' :
  q ≡ₚ q' -> sum_list_with (lag ts t) q = sum_list_with (lag ts t) q'.
Proof. induction 1; simpl; lia. Qed.

Lemma lags_ext ts ts' t c q :
  key_in ts' t = key_in ts t -> (forall x, x <> c -> key_in ts' x = key_in ts x) -> c ∉ q ->
  sum_list_with (lag ts' t) q = sum_list_with (lag ts t) q.
Proof.
  intros Ht Hx. induction q as [|x q IH]; intros Hc; [done|]. simpl.
  apply not_elem_of_cons in Hc as [Hne Hc]. rw IH //. unfold lag. by rw Ht Hx.
Qed.

Lemma head_pick s : s_queue s <> [] -> head (s_queue (s_pick s)) = Some (s_current (s_pick s)).
Proof. unfold s_pick. simpl. by destruct (s_queue s). Qed.

Lemma round_contended s t :
  contended s t -> s_current s <> t ->
  contended (s_round s) t /\ (lags (s_round s) t < lags s t)%nat.
Proof.
  intros Hc Hne. pose proof (contended_runs _ _ Hc) as Hr. destruct Hc as [Hwf Hh Ht Hk Hpay].
  destruct Hwf as [Hb Hs]. destruct (round_state s Hb Hr) as (i & Hi & Hts & Hperm).
  pose proof (Hpay _ Hr) as Hp. unfold info in Hp. rw Hi /= in Hp.
  pose proof (sw_keys _ Hb _ _ Hi) as (Hki & Hpi & Hni).
  assert (ti_key i <= key_in (s_tasks s) t) as Hle.
  { pose proof (pick_least s t Hs Ht) as [_ H]. simpl in H. rw Hh /= in H.
    unfold key_in at 1 in H. unfold info in H. by rw Hi /= in H. }
  assert (w64 (ti_key i + ti_prio i) = ti_key i + ti_prio i) as Hw by (apply w64_small; lia).
  assert (key_in (s_tasks (s_round s)) t = key_in (s_tasks s) t) as Hkt.
  { rw Hts. by apply key_in_insert_ne. }
  split; [split|].
  - apply pick_wf, switch_wf; [by split|done].
  - apply head_pick. intros Hq. change (s_queue (s_round s) = []) in Hq. rw Hq in Hperm.
    apply Permutation_nil_l in Hperm. rw -Hperm in Ht. by apply not_elem_of_nil in Ht.
  - by rw Hperm.
  - by rw Hkt.
  - intros u Hu. rw Hperm in Hu. unfold info. rw Hts.
    destruct (decide (u = s_current s)) as [->|Hue]; [rw lookup_insert_eq /=; lia|].
    rw lookup_insert_ne //. by apply Hpay.
  - unfold lags. rw (lags_perm _ _ _ _ Hperm).
    apply list_elem_of_split in Hr as (A & B & HAB). rw HAB.
    pose proof (sw_nodup _ Hb) as Hnd. rw HAB in Hnd.
    apply NoDup_app in Hnd as (_ & HA & HB). apply NoDup_cons in HB as [HB _].
    assert (forall x, x <> s_current s -> key_in (s_tasks (s_round s)) x = key_in (s_tasks s) x) as Hx.
    { intros x Hx. rw Hts. by apply key_in_insert_ne. }
    assert (s_current s ∉ A) as HA' by (intros H; apply (HA _ H); by left).
    rw !sum_list_with_app. cbn [sum_list_with].
    rw !(lags_ext (s_tasks s) (s_tasks (s_round s)) t (s_current s)) //.
    assert (lag (s_tasks (s_round s)) t (s_current s) < lag (s_tasks s) t (s_current s))%nat; [|lia].
    unfold lag. rw decide_False // decide_False // Hkt.
    assert (key_in (s_tasks s) (s_current s) = ti_key i) as -> by by rw /key_in /info Hi.
    rw Hts key_in_insert /=. lia.
Qed.

Lemma no_starvation n s t :
  contended s t -> (lags s t <= n)%nat ->
  exists k, (k <= n)%nat /\ s_current (Nat.iter k s_round s) = t /\
    forall j, (j <= k)%nat -> contended (Nat.iter j s_round s) t.
Proof.
  revert s. induction n as [|n IH]; intros s Hc Hn;
    (destruct (decide (s_current s = t)) as [Heq|Hne];
      [exists 0%nat; split_and!; [lia|done|by intros [|j] Hj; [|lia]]|]);
    destruct (round_contended s t Hc Hne) as [Hc' Hl].
  - lia.
  - destruct (IH (s_round s) Hc') as (k & Hk & Hcur & Hck); [lia|].
    exists (S k). rw Nat.iter_succ_r. split_and!; [lia|done|].
    intros [|j] Hj; [done|]. rw Nat.iter_succ_r. apply Hck. lia.
Qed.

(** Passes of the scheduler in which the task that ran yields. *)
Fixpoint passes (ctx : Z) (n : nat) : co unit :=
  match n with
  | O => Ret tt
  | S n =>
      schedule_switch ctx HEV_TASK_SCHED_SWITCH ~;;
      hev_task_system_pick_current_task ctx ~;;
      passes ctx n
  end.

Lemma round_length s :
  sched_base s -> runs s -> length (s_queue (s_round s)) = length (s_queue s).
Proof.
  intros Hb Hr. destruct (round_state s Hb Hr) as (i & _ & _ & Hp). by apply Permutation_length.
Qed.

Lemma cwp_passes Y `{!YieldMono Y} ctx n s :
  Z.of_nat (length (s_queue s)) < 2 ^ 32 ->
  (forall k, (k < n)%nat -> sched_wf (Nat.iter k s_round s) /\ runs (Nat.iter k s_round s)) ->
  is_sched ctx s ∗ ctx_total_task_count ctx ↦ Z.of_nat (length (s_queue s))
  ⊢ cwp Y (passes ctx n) (fun _ =>
    is_sched ctx (Nat.iter n s_round s) ∗
    ctx_total_task_count ctx ↦ Z.of_nat (length (s_queue s))).
Proof.
  revert s. induction n as [|n IH]; intros s Hlen Hk; [done|]. cbn [passes].
  destruct (Hk 0%nat) as [Hwf Hr]; [lia|]. simpl in Hwf, Hr.
  pose proof (round_length s (proj1 Hwf) Hr) as Hrl.
  assert (length (s_queue (s_switch HEV_TASK_SCHED_SWITCH s)) = length (s_queue s)) as Hsw by exact Hrl.
  iIntros "[H Ht]". iApply cwp_bind. iApply cwp_wand. iSplitL "H".
  { iApply (cwp_switch with "H"); [by left|done..]. }
  iIntros (_) "H". iApply cwp_bind. iApply cwp_wand. iSplitL.
  { iApply (cwp_pick _ _ (s_switch HEV_TASK_SCHED_SWITCH s)); [by rw Hsw|]. rw Hsw. iFrame. }
  iIntros (_) "[H Ht]". rw Nat.iter_succ_r -Hrl. iEval (rw Hsw -Hrl) in "Ht".
  iApply (IH (s_round s) with "[$H $Ht]").
  - by rw Hrl.
  - intros k Hkn. pose proof (Hk (S k)) as H. rw Nat.iter_succ_r in H. apply H. lia.
Qed.

(** ** A task that pays nothing *)

(** The current task has priority 0 and the strictly least key. *)
Record monopoly (s : sched) : Prop := {
  mo_wf : sched_wf s;
  mo_runs : runs s;
  mo_free : ti_prio (info (s_tasks s) (s_current s)) = 0 /\
            ti_next (info (s_tasks s) (s_current s)) = 0;
  mo_least : forall u, u ∈ s_queue s -> u <> s_current s ->
    key_in (s_tasks s) (s_current s) < key_in (s_tasks s) u
}.

Lemma round_monopoly s :
  monopoly s -> s_current (s_round s) = s_current s /\ monopoly (s_round s).
Proof.
  intros [Hwf Hr [Hp Hx] Hl]. destruct Hwf as [Hb Hs].
  destruct (round_state s Hb Hr) as (i & Hi & Hts & Hperm).
  assert (sched_wf (s_round s)) as Hwf' by (by apply pick_wf, switch_wf).
  pose proof (sw_keys _ Hb _ _ Hi) as (Hki & _).
  assert (key_in (s_tasks (s_round s)) (s_current s) = key_in (s_tasks s) (s_current s)) as Hk.
  { rw Hts key_in_insert /=. rw /info Hi /= in Hp. rw /key_in /info Hi /= Hp Z.add_0_r.
    by apply w64_small. }
  assert (forall u, u <> s_current s -> key_in (s_tasks (s_round s)) u = key_in (s_tasks s) u) as Hu.
  { intros u Hu. rw Hts. by apply key_in_insert_ne. }
  assert (s_current (s_round s) = s_current s) as Hcur.
  { assert (s_current s ∈ s_queue (s_round s)) as Hin by by rw Hperm.
    destruct (pick_least (s_round s) (s_current s) (proj2 Hwf') Hin) as [Hin' Hle].
    change (s_current (s_pick (s_round s))) with (s_current (s_round s)) in *.
    destruct (decide (s_current (s_round s) = s_current s)) as [|Hne]; [done|].
    rw Hperm in Hin'. specialize (Hl _ Hin' Hne). rw (Hu _ Hne) Hk in Hle. lia. }
  split; [done|]. split.
  - done.
  - unfold runs. by rw Hcur Hperm.
  - rw Hcur Hts info_insert /=. rw /info Hi /= in Hx. by rw Hx.
  - intros u Hu' Hne. rw Hcur in Hne |- *. rw Hk (Hu u Hne). apply Hl; [by rw -Hperm|done].
Qed.

Lemma iter_monopoly n s :
  monopoly s -> s_current (Nat.iter n s_round s) = s_current s /\ monopoly (Nat.iter n s_round s).
Proof.
  intros Hm. induction n as [|n [IH Hn]]; [done|].
  change (Nat.iter (S n) s_round s) with (s_round (Nat.iter n s_round s)).
  destruct (round_monopoly _ Hn) as [Hc H]. by rw Hc.
Qed.
