(* ===== verification/Task.v ===== *)
(** * Task: the public functions of [hev-task.c], [hev-task-executer.c] and
    [hev-task-call.c]

    Entry points are function pointers of the client: [entries f data] is what
    calling [f (data)] does. *)

From S2P Require Export Prelude.
From S2P Require Export Env.
From S2P Require Export TaskBase.
From S2P Require Export Timer.
From S2P Require Export Reactor.
From S2P Require Export Sched.

Definition hev_task_self : M Z :=
  ctx <- hev_task_system_get_context ;;
  load (ctx_current_task ctx).

Definition hev_task_get_state (self : Z) : M Z := load (task_state self).

Definition hev_task_set_priority (self priority : Z) : M unit :=
  let priority :=
    if priority <? HEV_TASK_PRIORITY_MIN then HEV_TASK_PRIORITY_MIN
    else if HEV_TASK_PRIORITY_MAX <? priority then HEV_TASK_PRIORITY_MAX
    else priority in
  store (task_next_priority self) (w8 priority).

Definition hev_task_get_priority (self : Z) : M Z := load (task_next_priority self).

(** ** Descriptors *)

Definition hev_task_add_fd (self fd events : Z) : co Z :=
  ctx <! hev_task_system_get_context ;;
  reactor <! load (ctx_reactor ctx) ;;
  let '(revents, count) :=
    hev_task_io_reactor_setup_event_fd_gen fd HEV_TASK_IO_REACTOR_OP_ADD events
      (hev_task_to_data self) in
  hev_task_io_reactor_setup reactor revents count.

Definition hev_task_mod_fd (self fd events : Z) : co Z :=
  ctx <! hev_task_system_get_context ;;
  reactor <! load (ctx_reactor ctx) ;;
  let '(revents, count) :=
    hev_task_io_reactor_setup_event_fd_gen fd HEV_TASK_IO_REACTOR_OP_MOD events
      (hev_task_to_data self) in
  hev_task_io_reactor_setup reactor revents count.

Definition hev_task_del_fd (self fd : Z) : co Z :=
  ctx <! hev_task_system_get_context ;;
  reactor <! load (ctx_reactor ctx) ;;
  let '(revents, count) :=
    hev_task_io_reactor_setup_event_fd_gen fd HEV_TASK_IO_REACTOR_OP_DEL 0 NULL in
  hev_task_io_reactor_setup reactor revents count.

Definition hev_task_add_whandle (self handle : Z) : co Z :=
  ctx <! hev_task_system_get_context ;;
  reactor <! load (ctx_reactor ctx) ;;
  let '(revents, count) :=
    hev_task_io_reactor_setup_event_whandle_gen handle HEV_TASK_IO_REACTOR_OP_ADD
      (hev_task_to_data self) in
  if count <? 0 then Ret (-1) else
  hev_task_io_reactor_setup reactor revents count.

Definition hev_task_del_whandle (self handle : Z) : co Z :=
  ctx <! hev_task_system_get_context ;;
  reactor <! load (ctx_reactor ctx) ;;
  let '(revents, count) :=
    hev_task_io_reactor_setup_event_whandle_gen handle HEV_TASK_IO_REACTOR_OP_DEL NULL in
  if count <? 0 then Ret (-1) else
  hev_task_io_reactor_setup reactor revents count.

(** ** Scheduling *)

Definition hev_task_wakeup (task : Z) : M unit := hev_task_system_wakeup_task task.

Definition hev_task_yield (type : Z) : co unit := hev_task_system_schedule type.

(** [sp] is [__builtin_frame_address (0)]. *)
Definition hev_task_release_stack (self : Z) : co unit :=
  ctx <! hev_task_system_get_context ;;
  sp <~ sys "__builtin_frame_address" [0] ;;
  current <! load (ctx_current_task ctx) ;;
  if negb (self =? current) then Ret tt else
  stack <! load (task_stack self) ;;
  base <! hev_task_stack_get_base stack ;;
  bottom <! load (task_stack_bottom self) ;;
  if (sp <=? base) || (bottom <? sp) then Ret tt else
  hev_task_stack_release stack sp.

(** [node] is the timer node on the caller's stack. *)
Definition hev_task_sleep (milliseconds node : Z) : co Z :=
  if milliseconds =? 0 then Ret 0 else
  ctx <! hev_task_system_get_context ;;
  timer <! load (ctx_timer ctx) ;;
  task <! load (ctx_current_task ctx) ;;
  hev_task_timer_wait timer milliseconds task node.

Definition hev_task_run (self entry data : Z) : co unit :=
  state <! load (task_state self) ;;
  if negb (state =? HEV_TASK_STOPPED) then Ret tt else
  store (task_entry self) entry !;;
  store (task_data self) data !;;
  next_priority <! load (task_next_priority self) ;;
  store (task_priority self) next_priority !;;
  store (task_sched_key self) next_priority !;;
  hev_task_system_run_new_task self.

Definition hev_task_exit : co unit := hev_task_system_kill_current_task.

Definition join_body (task : Z) (_ : unit) : co (unit + unit) :=
  state <! hev_task_get_state task ;;
  if state =? HEV_TASK_STOPPED then Ret (inr tt) else
  hev_task_wakeup task !;;
  hev_task_yield HEV_TASK_WAITIO ~;;
  Ret (inl tt).

Definition hev_task_join (task : Z) : co Z :=
  joiner <! load (task_joiner task) ;;
  if is_true joiner then Ret (-1) else
  self <! hev_task_self ;;
  store (task_joiner task) self !;;
  co_while (join_body task) tt ~;;
  store (task_joiner task) NULL !;;
  Ret 0.

Definition hev_task_get_data (self : Z) : M Z := load (task_data self).

(** ** Task calls *)

Definition call_stack_top (self : Z) : Z := self.
Definition call_retval (self : Z) : Z := self + 8.
Definition SIZEOF_CALL : Z := 16.

Definition hev_task_call_new (base_size stack_size : Z) : co Z :=
  self <~ hev_malloc (w64 (s32 (base_size + stack_size))) ;;
  (if is_true self then
     let stack_addr := w64 (self + base_size + stack_size) in
     store (call_stack_top self) (ALIGN_DOWN stack_addr 16)
   else ret tt) !;;
  Ret self.

Definition hev_task_call_destroy (self : Z) : co unit := hev_free self.

Definition hev_task_call_set_retval (self value : Z) : M unit := store (call_retval self) value.

Section entries.
Context (entries : Z -> Z -> co unit).

(** What [hev_task_executer] does when the task is first switched to. *)
Definition hev_task_executer (task : Z) : co unit :=
  entry <! load (task_entry task) ;;
  data <! load (task_data task) ;;
  entries entry data ~;;
  joiner <! load (task_joiner task) ;;
  when (is_true joiner) (hev_task_wakeup joiner) !;;
  hev_task_system_kill_current_task.

(** The stack switch of [hev_task_execute] reads the stack's top. *)
Definition hev_task_call_jump (self entry : Z) : co Z :=
  load (call_stack_top self) !;;
  entries entry self ~;;
  retval <! load (call_retval self) ;;
  Ret retval.
End entries.
