(* ===== verification/QueueProps.v ===== *)
(** * QueueProps: what the run queue and the scheduler promise

    The statements are triples over memories: [is_sched ctx s] is the memory of
    a system context in the abstract state [s] of [QueueSpec]. *)

From stdpp Require Import sorting.
From S2P Require Import Prelude.
From S2P Require Import Sep.
From S2P Require Import RBTree.
From S2P Require Import RBTreeApi.
From S2P Require Import Env.
From S2P Require Import EnvLogic.
From S2P Require Import TaskBase.
From S2P Require Import Queue.
From S2P Require Import QueueSpec.
From S2P Require Import QueueProofs.
From S2P Require Import Reactor.
From S2P Require Import Sched.
From S2P Require Import SchedProofs.
From S2P Require Import Task.

(** ** Deciding well-formedness of concrete states *)

Definition tinfo_ok (q : list Z) (t : Z) (i : tinfo) : Prop :=
  (ti_state i = HEV_TASK_RUNNING <-> t ∈ q) /\
  (ti_state i = HEV_TASK_RUNNING \/ ti_state i = HEV_TASK_WAITING \/ ti_state i = HEV_TASK_STOPPED) /\
  (0 <= ti_key i < 2 ^ 64 /\ 0 <= ti_prio i <= HEV_TASK_PRIORITY_MAX /\
   0 <= ti_next i <= HEV_TASK_PRIORITY_MAX) /\
  0 < t /\ t mod 16 = 0.

Definition sched_check (s : sched) : Prop :=
  NoDup (s_queue s) /\ Forall (fun t => is_Some (s_tasks s !! t)) (s_queue s) /\
  map_Forall (tinfo_ok (s_queue s)) (s_tasks s) /\
  Sorted (fun x y => key_in (s_tasks s) x <= key_in (s_tasks s) y) (s_queue s).

#[export] Instance tinfo_ok_dec q t i : Decision (tinfo_ok q t i).
Proof. unfold tinfo_ok. apply _. Defined.
#[export] Instance sched_check_dec s : Decision (sched_check s).
Proof. unfold sched_check. apply _. Defined.

Lemma sched_check_wf s : sched_check s -> sched_wf s.
Proof.
  intros (Hnd & Hk & Ht & Hs). split.
  - split; [done|by apply Forall_forall|intros t i Hi; apply (Ht t i Hi)..].
  - apply Sorted_StronglySorted; [|done]. intros x y z. lia.
Qed.

(** Two tasks: 4096 runs with key 8, 8192 waits. *)
Definition two_tasks (key prio : Z) : sched :=
  Sched {[ 4096 := TInfo 8 8 8 HEV_TASK_RUNNING; 8192 := TInfo key prio prio HEV_TASK_WAITING ]}
        [4096] 4096.

Definition two_running (key prio : Z) : sched :=
  Sched {[ 4096 := TInfo 8 8 8 HEV_TASK_RUNNING; 8192 := TInfo key prio prio HEV_TASK_RUNNING ]}
        [4096; 8192] 4096.

Lemma two_tasks_wf : sched_wf (two_tasks 3 3).
Proof. apply sched_check_wf. by apply (bool_decide_unpack _); vm_compute. Qed.

Lemma two_running_wf : sched_wf (two_running 20 3).
Proof. apply sched_check_wf. by apply (bool_decide_unpack _); vm_compute. Qed.

(** ** Wakeup *)

(** C4. Waking a task that is not stopped leaves a running task as it is, and
    otherwise adds the least key of the queue to the task's (in 64 bits), makes
    the task running with the priority last set for it, and puts it behind
    every queued task whose key is not greater, before the others. *)
Theorem wakeup_refines ctx s t i :
  s_tasks s !! t = Some i -> ti_state i <> HEV_TASK_STOPPED -> sched_wf s ->
  {{{ is_sched ctx s }}}
    hev_task_system_wakeup_task_with_context ctx t
  {{{ _, is_sched ctx (s_wakeup t s) ∗ ⌞sched_wf (s_wakeup t s)⌟ }}}.
Proof.
  intros Ht Hs Hwf. apply triple_wp. iIntros "H". iApply wp_wand.
  iSplitL; [by iApply (wp_wakeup with "H")|]. iIntros (_) "$". iPureIntro. by eapply wakeup_wf.
Qed.

Lemma wakeup_refines_witness :
  {{{ is_sched 65536 (two_tasks 3 3) }}}
    hev_task_system_wakeup_task_with_context 65536 8192
  {{{ _, is_sched 65536 (s_wakeup 8192 (two_tasks 3 3)) ∗
         ⌞sched_wf (s_wakeup 8192 (two_tasks 3 3))⌟ }}} /\
  s_queue (s_wakeup 8192 (two_tasks 3 3)) = [4096; 8192] /\
  key_in (s_tasks (s_wakeup 8192 (two_tasks 3 3))) 8192 = 11.
Proof.
  split; [|by split; vm_compute].
  apply (wakeup_refines 65536 (two_tasks 3 3) 8192 (TInfo 3 3 3 HEV_TASK_WAITING));
    [by vm_compute|done|exact two_tasks_wf].
Defined.

(** Waking a stopped task aborts the process, whatever the rest of the
    memory holds. *)
Theorem wakeup_stopped_aborts ctx t m :
  m !! task_state t = Some HEV_TASK_STOPPED ->
  hev_task_system_wakeup_task_with_context ctx t m = Err Aborted.
Proof. apply wakeup_stopped. Qed.

Lemma wakeup_stopped_aborts_witness :
  hev_task_system_wakeup_task_with_context 65536 4096 {[ 4096 + 78 := 0 ]} = Err Aborted.
Proof. apply wakeup_stopped_aborts. by vm_compute. Defined.

(** ** The operations in any order *)

(** What happens to the queue between two jumps to tasks, and from within a
    task: wakeups, the switch on the yield type, the choice of the next task,
    and changes of priority. *)
Inductive kop : Type :=
| KWakeup (t : Z)
| KSwitch (type : Z)
| KPick
| KPriority (t p : Z).

Definition exec_kop (ctx : Z) (o : kop) : co unit :=
  match o with
  | KWakeup t => act (hev_task_system_wakeup_task_with_context ctx t)
  | KSwitch type => schedule_switch ctx type
  | KPick => act (pick_first ctx)
  | KPriority t p => act (hev_task_set_priority t p)
  end.

Fixpoint exec_kops (ctx : Z) (l : list kop) : co unit :=
  match l with
  | [] => Ret tt
  | o :: l => exec_kop ctx o ~;; exec_kops ctx l
  end.

Definition clamp (p : Z) : Z :=
  Z.max HEV_TASK_PRIORITY_MIN (Z.min HEV_TASK_PRIORITY_MAX p).

Definition s_priority (t p : Z) (s : sched) : sched :=
  let i := info (s_tasks s) t in
  Sched (<[t := TInfo (ti_key i) (ti_prio i) (clamp p) (ti_state i)]> (s_tasks s))
        (s_queue s) (s_current s).

(** The steps the library takes: only tasks that are not stopped are woken,
    a task that gives up the processor is running, a task is chosen only when
    there is one. *)
Inductive kstep : sched -> kop -> sched -> Prop :=
| step_wakeup s t : wakeable s t -> kstep s (KWakeup t) (s_wakeup t s)
| step_yield s : runs s -> kstep s (KSwitch HEV_TASK_SCHED_SWITCH) (s_switch HEV_TASK_SCHED_SWITCH s)
| step_wait s : runs s -> kstep s (KSwitch HEV_TASK_SCHED_WAITIO) (s_switch HEV_TASK_SCHED_WAITIO s)
| step_pick s : s_queue s <> [] -> kstep s KPick (s_pick s)
| step_priority s t p : is_Some (s_tasks s !! t) -> kstep s (KPriority t p) (s_priority t p s).

Inductive ksteps : sched -> list kop -> sched -> Prop :=
| ksteps_nil s : ksteps s [] s
| ksteps_cons s o s' l s'' : kstep s o s' -> ksteps s' l s'' -> ksteps s (o :: l) s''.

Lemma clamp_range p : HEV_TASK_PRIORITY_MIN <= clamp p <= HEV_TASK_PRIORITY_MAX.
Proof. unfold clamp, HEV_TASK_PRIORITY_MIN, HEV_TASK_PRIORITY_MAX. lia. Qed.

Lemma priority_base s t p : sched_base s -> is_Some (s_tasks s !! t) -> sched_base (s_priority t p s).
Proof.
  intros Hb [i Hi]. unfold s_priority. rw (info_some s t i Hi). pose proof (clamp_range p).
  pose proof (sw_keys _ Hb t i Hi) as (Hk & Hp & _).
  apply (base_update s Hb t i); simpl; [done|done|by apply (sw_states _ Hb t)|apply Hb|done|].
  by apply (sw_running _ Hb).
Qed.

Lemma priority_wf s t p : sched_wf s -> is_Some (s_tasks s !! t) -> sched_wf (s_priority t p s).
Proof.
  intros [Hb Hs] Ht. split; [by apply priority_base|]. destruct Ht as [i Hi].
  unfold s_priority. rw (info_some s t i Hi). simpl. eapply q_sorted_ext; [|exact Hs].
  intros x _. destruct (decide (x = t)) as [->|]; [|by apply key_in_insert_ne].
  rw key_in_insert /key_in /info Hi //.
Qed.

Lemma wp_set_priority ctx s t p :
  is_Some (s_tasks s !! t) ->
  is_sched ctx s ⊢ wp (hev_task_set_priority t p) (fun _ => is_sched ctx (s_priority t p s)).
Proof.
  iIntros (Ht) "(%Hb & Hq & Hcur & Hts & Hidle)". pose proof (priority_base s t p Hb Ht) as Hb'.
  destruct Ht as [i Hi]. unfold s_priority in *. rw (info_some s t i Hi) in Hb' |- *.
  set (j := TInfo _ _ _ _) in *.
  iDestruct (all_cells_acc _ _ _ Hi with "Hts") as "[(Hk & Hp & Hx & Hst) Hts]".
  iDestruct (idle_nodes_acc _ _ _ Hi with "Hidle") as "[Hnode Hidle]".
  unfold hev_task_set_priority. wp_store.
  assert (w8 (if p <? HEV_TASK_PRIORITY_MIN then HEV_TASK_PRIORITY_MIN
              else if HEV_TASK_PRIORITY_MAX <? p then HEV_TASK_PRIORITY_MAX else p) = clamp p) as ->.
  { unfold clamp, HEV_TASK_PRIORITY_MIN, HEV_TASK_PRIORITY_MAX.
    unfold w8. destruct (Z.ltb_spec p 0); [|destruct (Z.ltb_spec 15 p)]; rw Z.mod_small; lia. }
  iDestruct ("Hts" $! j with "[$Hk $Hp $Hx $Hst]") as "Hts".
  iDestruct ("Hidle" $! j with "Hnode") as "Hidle". unfold is_sched. simpl. by iFrame.
Qed.

Lemma kstep_wf s o s' : kstep s o s' -> sched_wf s -> sched_wf s'.
Proof.
  intros H Hwf. destruct H as [s t (i & Hi & _)|s Hr|s Hr|s Hq|s t p Ht].
  - by eapply wakeup_wf.
  - by apply switch_wf.
  - by apply switch_wf.
  - by apply pick_wf.
  - by apply priority_wf.
Qed.

Lemma cwp_kop Y `{!YieldMono Y} ctx s o s' :
  kstep s o s' -> sched_wf s ->
  is_sched ctx s ⊢ cwp Y (exec_kop ctx o) (fun _ => is_sched ctx s').
Proof.
  intros H Hwf. destruct H as [s t (i & Hi & Hs)|s Hr|s Hr|s Hq|s t p Ht]; cbn [exec_kop].
  - by eapply wp_wakeup.
  - apply (cwp_switch Y ctx HEV_TASK_SCHED_SWITCH s (or_introl eq_refl) Hwf Hr).
  - apply (cwp_switch Y ctx HEV_TASK_SCHED_WAITIO s (or_intror eq_refl) Hwf Hr).
  - apply wp_pick_first.
  - by apply wp_set_priority.
Qed.

(** C3. In any sequence of the scheduler's operations each function does what
    the abstract operation says, and the invariant holds at the end: the queue
    has no duplicates, holds exactly the running tasks, is sorted by key, keys
    fit 64 bits, and priorities stay between the least and the greatest. *)
Theorem scheduler_invariant Y `{!YieldMono Y} ctx s l s' :
  ksteps s l s' -> sched_wf s ->
  {{{ is_sched ctx s }}} exec_kops ctx l @ Y {{{ _, is_sched ctx s' ∗ ⌞sched_wf s'⌟ }}}.
Proof.
  intros H Hwf. unfold ctriple. revert Hwf.
  induction H as [s|s o s1 l s2 Ho _ IH]; intros Hwf; cbn [exec_kops].
  { iIntros "$". done. }
  iIntros "H". iApply cwp_bind. iApply cwp_wand. iSplitL; [by iApply (cwp_kop with "H")|].
  iIntros (_) "H". iApply IH; [by eapply kstep_wf|done].
Qed.

Lemma scheduler_invariant_witness :
  {{{ is_sched 65536 (two_tasks 3 3) }}}
    exec_kops 65536 [KWakeup 8192; KPriority 8192 99; KSwitch HEV_TASK_SCHED_SWITCH; KPick]
    @ no_yield
  {{{ _, ∃ s, is_sched 65536 s ∗ ⌞sched_wf s⌟ }}}.
Proof.
  set (s1 := s_wakeup 8192 (two_tasks 3 3)). set (s2 := s_priority 8192 99 s1).
  set (s3 := s_switch HEV_TASK_SCHED_SWITCH s2).
  assert (ksteps (two_tasks 3 3)
    [KWakeup 8192; KPriority 8192 99; KSwitch HEV_TASK_SCHED_SWITCH; KPick] (s_pick s3)) as Hs.
  { econstructor; [by apply step_wakeup; eexists; split; [by vm_compute|]|].
    econstructor; [by apply step_priority; eexists; vm_compute|].
    econstructor; [apply step_yield; by apply (bool_decide_unpack _); vm_compute|].
    econstructor; [by apply step_pick; vm_compute|]. constructor. }
  pose proof (scheduler_invariant no_yield 65536 _ _ _ Hs two_tasks_wf) as H.
  unfold ctriple in *. iIntros "H". iApply cwp_wand.
  iSplitL; [by iApply H|]. iIntros (_) "H". iExists _. iExact "H".
Defined.

(** ** Choice and fairness *)

(** C6. Among tasks that all run, none that pays for its passes can be passed
    over for ever: while no task waits (the queue holds all the tasks that are
    counted, so that nothing is polled and nobody is woken), with priorities of
    at least 1 and keys that stay below 2^64 until [t]'s is reached, a queued
    task [t] is the current one after at most [lags s t] passes in which the
    chosen task just yields, that is within the sum over the others of their
    distance to its key. *)
Theorem yield_no_starvation ctx s t :
  contended s t -> Z.of_nat (length (s_queue s)) < 2 ^ 32 ->
  exists n, (n <= lags s t)%nat /\
  {{{ is_sched ctx s ∗ ctx_total_task_count ctx ↦ Z.of_nat (length (s_queue s)) }}}
    passes ctx n @ no_yield
  {{{ _, ∃ s', is_sched ctx s' ∗ ⌞sched_wf s' /\ s_current s' = t⌟ ∗
         ctx_total_task_count ctx ↦ Z.of_nat (length (s_queue s)) }}}.
Proof.
  intros Hc Hlen. destruct (no_starvation _ s t Hc (Nat.le_refl _)) as (n & Hn & Hcur & Hall).
  exists n. split; [done|]. unfold ctriple. iIntros "H". iApply cwp_wand. iSplitL.
  - iApply (cwp_passes with "H"); [done|]. intros k Hk.
    assert (contended (Nat.iter k s_round s) t) as Hck by (apply Hall; lia).
    split; [apply Hck|by eapply contended_runs].
  - iIntros (_) "[H $]". iExists _. iFrame. iPureIntro. split; [|done]. by apply Hall.
Qed.

Lemma two_running_contended : contended (two_running 20 3) 8192.
Proof.
  split; [exact two_running_wf|done|by apply (bool_decide_unpack _); vm_compute|by vm_compute|].
  intros u Hu. apply elem_of_cons in Hu as [->|Hu%list_elem_of_singleton]; [by vm_compute|].
  subst. by vm_compute.
Qed.

Lemma yield_no_starvation_witness :
  exists n, (n <= 13)%nat /\
  {{{ is_sched 65536 (two_running 20 3) ∗ ctx_total_task_count 65536 ↦ 2 }}}
    passes 65536 n @ no_yield
  {{{ _, ∃ s', is_sched 65536 s' ∗ ⌞sched_wf s' /\ s_current s' = 8192⌟ ∗
         ctx_total_task_count 65536 ↦ 2 }}}.
Proof. by apply (yield_no_starvation 65536 (two_running 20 3) 8192 two_running_contended). Defined.

(** C33. While no task waits (the queue holds all the tasks that are counted,
    so that nothing is polled and nobody is woken) a task of priority 0, the
    real-time priority, whose key is strictly the least is chosen again after
    each pass: its yields never let one of the other queued tasks run, however
    many passes there are. *)
Theorem realtime_monopoly ctx s n :
  monopoly s -> Z.of_nat (length (s_queue s)) < 2 ^ 32 ->
  {{{ is_sched ctx s ∗ ctx_total_task_count ctx ↦ Z.of_nat (length (s_queue s)) }}}
    passes ctx n @ no_yield
  {{{ _, ∃ s', is_sched ctx s' ∗ ⌞s_current s' = s_current s⌟ ∗
         ctx_total_task_count ctx ↦ Z.of_nat (length (s_queue s)) }}}.
Proof.
  intros Hm Hlen. unfold ctriple. iIntros "H". iApply cwp_wand. iSplitL.
  - iApply (cwp_passes with "H"); [done|]. intros k Hk.
    destruct (iter_monopoly k s Hm) as [_ Hk']. split; apply Hk'.
  - iIntros (_) "[H $]". iExists _. iFrame. iPureIntro. by apply iter_monopoly.
Qed.

Definition realtime_pair : sched :=
  Sched {[ 4096 := TInfo 8 0 0 HEV_TASK_RUNNING; 8192 := TInfo 9 3 3 HEV_TASK_RUNNING ]}
        [4096; 8192] 4096.

Lemma realtime_monopoly_witness :
  {{{ is_sched 65536 realtime_pair ∗ ctx_total_task_count 65536 ↦ 2 }}}
    passes 65536 1000 @ no_yield
  {{{ _, ∃ s', is_sched 65536 s' ∗ ⌞s_current s' = 4096⌟ ∗ ctx_total_task_count 65536 ↦ 2 }}}.
Proof.
  apply (realtime_monopoly 65536 realtime_pair 1000); [|done]. split.
  - apply sched_check_wf. by apply (bool_decide_unpack _); vm_compute.
  - by apply (bool_decide_unpack _); vm_compute.
  - by vm_compute.
  - intros u Hu. apply elem_of_cons in Hu as [->|Hu%list_elem_of_singleton]; [done|].
    subst. by vm_compute.
Defined.

(** ** Events *)

(** C29. The loop over the events of a poll wakes, in order, the task each event
    stands for, whether its data is the task or the tagged address of a slot
    that holds it; slots are only read. *)
Theorem poll_wakes_tasks ctx slots evs ts s :
  Forall2 (event_task slots) evs ts -> Forall (wakeable s) ts -> sched_wf s ->
  {{{ is_sched ctx s ∗ slots_cells slots }}}
    wake_events ctx evs
  {{{ _, is_sched ctx (foldl (fun s t => s_wakeup t s) s ts) ∗ slots_cells slots }}}.
Proof. intros He Hw Hwf. by apply triple_wp, wp_wake_events. Qed.

Lemma poll_wakes_tasks_witness :
  {{{ is_sched 65536 (two_tasks 3 3) ∗ slots_cells [(70000, 8192)] }}}
    wake_events 65536 [WaitEvent 1 4096; WaitEvent 4 70001]
  {{{ _, is_sched 65536 (s_wakeup 8192 (two_tasks 3 3)) ∗ slots_cells [(70000, 8192)] }}}.
Proof.
  apply (poll_wakes_tasks 65536 [(70000, 8192)] [WaitEvent 1 4096; WaitEvent 4 70001] [4096; 8192]).
  - constructor; [left; by split|]. constructor; [|constructor]. right. exists 70000.
    split_and!; [by left|done|done].
  - constructor; [|constructor; [|constructor]]; eexists; (split; [by vm_compute|done]).
  - exact two_tasks_wf.
Defined.
