(* ===== verification/TimerProps.v ===== *)
(** * TimerProps: what sleeping promises *)

From S2P Require Import Prelude.
From S2P Require Import Sep.
From S2P Require Import RBTree.
From S2P Require Import RBTreeSpec.
From S2P Require Import RBTreeApi.
From S2P Require Import Env.
From S2P Require Import EnvLogic.
From S2P Require Import Trace.
From S2P Require Import TaskBase.
From S2P Require Import Queue.
From S2P Require Import QueueSpec.
From S2P Require Import QueueProofs.
From S2P Require Import Timer.
From S2P Require Import TimerProofs.
From S2P Require Import Task.
From S2P Require Import QueueProps.

(** C31. After [hev_task_timer_get_expire] adds [ms] milliseconds to a time,
    the expiry is normalised, and the time left at a later reading is the
    difference rounded up to milliseconds (in 32 bits), 0 exactly when the
    expiry has been reached. *)
Theorem expiry_time_left t0 t1 ms :
  normalised t0 -> normalised t1 -> 0 <= ms < 2 ^ 32 -> ns t0 <= ns t1 ->
  let e := hev_task_timer_get_expire t0 ms in
  normalised e /\ ns e = ns t0 + ms * 1000000 /\
  hev_task_timer_get_time t1 e = Z.max 0 ((ns e - ns t1 + 999999) / 1000000) /\
  hev_task_timer_get_time t1 e <= ms /\
  (hev_task_timer_get_time t1 e = 0 <-> 0 <= hev_task_timer_cmp t1 e).
Proof.
  intros H0 H1 Hms Hle e. destruct (get_expire_ns t0 ms H0) as [He Hns]; [lia|]. fold e in He, Hns.
  pose proof (get_time_ns t1 e H1 He) as Ht. rw w32_small in Ht; [|div_lia].
  split_and!; [done|done|done| |]; rw Ht; [div_lia|]. rw (cmp_ns t1 e H1 He). div_lia.
Qed.

Lemma expiry_time_left_witness :
  hev_task_timer_get_time (12, 400000001) (hev_task_timer_get_expire (10, 900000000) 2500) = 1000 /\
  normalised (hev_task_timer_get_expire (10, 900000000) 2500).
Proof.
  destruct (expiry_time_left (10, 900000000) (12, 400000001) 2500) as (H & _ & -> & _);
    [by split|by split|by split|by vm_compute|]. by split; [vm_compute|].
Defined.

(** A timer with one task asleep: task 8192 until 100 s, its node at 32768. *)
Definition one_sleeper : timers :=
  Timers {[ 32768 := TEntry (100, 0) 8192 ]} [32768].

Lemma one_sleeper_ok : sleepers_ok one_sleeper (two_tasks 3 3).
Proof.
  intros n e. unfold one_sleeper. simpl. intros [<- <-]%lookup_singleton_Some.
  eexists. by split; [vm_compute|].
Qed.

(** C12. [hev_task_timer_wait] reads the clock, enters the node, which lives on
    the caller's stack, in the tree with the expiry computed from that reading,
    and suspends once as a task waiting for I/O, with nothing else changed.
    When it is resumed it takes the node out again, hands it back, and reads
    the clock a second time; when the node was the first at its insertion or is
    the first now, it wakes the next sleeper if that one's time has come, and
    nothing else.  It returns the milliseconds left from the second reading
    to the expiry, rounded up.  The others may do anything meanwhile but remove
    the node or stop a sleeper. *)
Theorem sleep_contract self ctx T s n ms task i Ψ :
  aligned n -> tm_entries T !! n = None -> 0 <= ms < 2 ^ 32 ->
  sched_wf s -> sleepers_ok T s -> s_tasks s !! task = Some i -> ti_state i <> HEV_TASK_STOPPED ->
  {{{ is_timer self ctx T ∗ timer_clock self ∗ is_sched ctx s ∗ stack_tnode n }}}
    logged (hev_task_timer_wait self ms task n) [] @ (sleep_yield self ctx n ms task T s Ψ)
  {{{ rl, ∃ a0 ay a1 T' s', let t0 := clock_reading a0 in let t1 := clock_reading a1 in
      ⌞rl.2 = [(clock_call, a0); (Yield HEV_TASK_WAITIO, ay); (clock_call, a1)] /\
       rl.1 = w32 (Z.max 0 ((ns t0 + ms * 1000000 - ns t1 + 999999) / 1000000))⌟ ∗
      Ψ t0 T' s' ∗ is_timer self ctx (t_remove n T') ∗ timer_clock self ∗ stack_tnode n ∗
      is_sched ctx (if was_first n (sleeper t0 ms task) T T'
                    then s_timer_wake (t_remove n T') t1 s' else s') }}}.
Proof.
  intros Hal Hn Hms Hwf Hok Hi Hst. unfold ctriple. iIntros "H". iApply cwp_wand.
  iSplitL; [iApply (cwp_timer_wait with "H"); try done; lia|].
  iIntros (rl) "(%a0 & %ay & %a1 & %T' & %s' & %Hp & H)".
  iExists a0, ay, a1, T', s'. iFrame "H". iPureIntro. destruct Hp as (H0 & H1 & Hl & Hr).
  destruct (get_expire_ns (clock_reading a0) ms H0) as [He Hns]; [lia|].
  split; [done|]. rw Hr get_time_ns // Hns //.
Qed.

(** The two readings, 250 ms asked for and 100 ms later: 150 ms are left. *)
Lemma sleep_contract_witness :
  {{{ is_timer 66000 65536 one_sleeper ∗ timer_clock 66000 ∗
      is_sched 65536 (two_tasks 3 3) ∗ stack_tnode 16384 }}}
    logged (hev_task_timer_wait 66000 250 4096 16384) []
    @ (sleep_yield 66000 65536 16384 250 4096 one_sleeper (two_tasks 3 3) (fun _ _ _ => emp%I))
  {{{ rl, ∃ a0 ay a1 T' s', let t0 := clock_reading a0 in let t1 := clock_reading a1 in
      ⌞rl.2 = [(clock_call, a0); (Yield HEV_TASK_WAITIO, ay); (clock_call, a1)] /\
       rl.1 = w32 (Z.max 0 ((ns t0 + 250 * 1000000 - ns t1 + 999999) / 1000000))⌟ ∗
      emp ∗ is_timer 66000 65536 (t_remove 16384 T') ∗ timer_clock 66000 ∗ stack_tnode 16384 ∗
      is_sched 65536 (if was_first 16384 (sleeper t0 250 4096) one_sleeper T'
                      then s_timer_wake (t_remove 16384 T') t1 s' else s') }}} /\
  w32 (Z.max 0 ((ns (10, 0) + 250 * 1000000 - ns (10, 100000000) + 999999) / 1000000)) = 150.
Proof.
  split; [|reflexivity].
  apply (sleep_contract 66000 65536 one_sleeper (two_tasks 3 3) 16384 250 4096
           (TInfo 8 8 8 HEV_TASK_RUNNING) (fun _ _ _ => emp%I)); try done.
  - exact two_tasks_wf.
  - exact one_sleeper_ok.
Defined.

(** [hev_task_timer_wake] drops the cached reading of the clock and wakes
    the task of the first sleeper if the clock has reached its expiry, nothing
    else; with no sleeper it does not read the clock. *)
Theorem timer_wake_first self ctx T s :
  sleepers_ok T s -> sched_wf s ->
  {{{ is_timer self ctx T ∗ timer_clock self ∗ is_sched ctx s }}}
    hev_task_timer_wake self @ no_yield
  {{{ _, is_timer self ctx T ∗ timer_clock self ∗
         ∃ curr, ⌞normalised curr⌟ ∗ is_sched ctx (s_timer_wake T curr s) }}}.
Proof. intros Hok Hwf. exact (cwp_timer_wake no_yield self ctx T s Hok Hwf). Qed.

Lemma timer_wake_first_witness :
  {{{ is_timer 66000 65536 one_sleeper ∗ timer_clock 66000 ∗ is_sched 65536 (two_tasks 3 3) }}}
    hev_task_timer_wake 66000 @ no_yield
  {{{ _, is_timer 66000 65536 one_sleeper ∗ timer_clock 66000 ∗
         ∃ curr, ⌞normalised curr⌟ ∗
           is_sched 65536 (s_timer_wake one_sleeper curr (two_tasks 3 3)) }}} /\
  s_queue (s_timer_wake one_sleeper (99, 999999999) (two_tasks 3 3)) = [4096] /\
  s_queue (s_timer_wake one_sleeper (100, 0) (two_tasks 3 3)) = [4096; 8192].
Proof.
  split; [apply (timer_wake_first 66000 65536 one_sleeper);
            [exact one_sleeper_ok|exact two_tasks_wf]|by split; vm_compute].
Defined.

(** A poll is due when its deadline has been reached, or when the first
    sleeper expires no later than the deadline. *)
Theorem poll_due_spec self ctx T d :
  {{{ is_timer self ctx T ∗ timer_deadline self d }}}
    hev_task_timer_poll_due self @ no_yield
  {{{ r, is_timer self ctx T ∗ timer_deadline self d ∗
      ∃ curr, ⌞normalised curr /\
        r = ((0 <=? hev_task_timer_cmp curr d) ||
             match first_expiry T with
             | Some e => hev_task_timer_cmp e d <=? 0
             | None => false
             end)⌟ }}}.
Proof. exact (cwp_poll_due no_yield self ctx T d). Qed.

(** C35. The timeout of a blocking poll is computed as an unsigned number of
    milliseconds and returned as an [int]: when the first sleeper has between
    2^31 and 2^32 milliseconds left the timeout is negative, which the poll
    takes for no timeout at all. *)
Theorem timeout_negative self ctx T s n e :
  first_expiry T = Some e -> normalised (s, n) -> normalised e ->
  2 ^ 31 <= (ns e - ns (s, n) + 999999) / 1000000 < 2 ^ 32 ->
  {{{ is_timer self ctx T ∗ ts_sec (timer_cached_curr self) ↦ s ∗
      ts_nsec (timer_cached_curr self) ↦ n ∗ timer_cached_curr_valid self ↦ 1 }}}
    hev_task_timer_get_timeout self @ no_yield
  {{{ r, ⌞r < 0⌟ ∗ is_timer self ctx T ∗ timer_clock self }}}.
Proof.
  intros He Hc Hne Hr. unfold ctriple. iIntros "H". iApply cwp_wand.
  iSplitL; [by iApply cwp_get_timeout|]. iIntros (r) "($ & $ & H)". rw He.
  iDestruct "H" as (curr) "%Hp". destruct Hp as (Hcv & _ & ->). rw Hcv //.
  iPureIntro. rw get_time_ns // w32_small; [|lia]. unfold s32. rw Z.max_r; [|lia].
  set (d := (_ / _)) in *. div_lia.
Qed.

(** A task that sleeps for 2^31 ms, seen right after it fell asleep. *)
Definition long_sleeper : timers := Timers {[ 32768 := TEntry (2147483, 648000000) 8192 ]} [32768].

Lemma timeout_negative_witness :
  {{{ is_timer 66000 65536 long_sleeper ∗ ts_sec (timer_cached_curr 66000) ↦ 0 ∗
      ts_nsec (timer_cached_curr 66000) ↦ 0 ∗ timer_cached_curr_valid 66000 ↦ 1 }}}
    hev_task_timer_get_timeout 66000 @ no_yield
  {{{ r, ⌞r < 0⌟ ∗ is_timer 66000 65536 long_sleeper ∗ timer_clock 66000 }}} /\
  hev_task_timer_get_expire (0, 0) (2 ^ 31) = (2147483, 648000000).
Proof.
  split; [|done].
  apply (timeout_negative 66000 65536 long_sleeper 0 0 (2147483, 648000000)); by vm_compute.
Defined.
