(* ===== verification/Quiet.v ===== *)
(** * Quiet: functions that leave the task's streams alone

    The allocators and the scheduler, which every function may reach, read and
    write no descriptors of the caller's and shut none down. *)

From S2P Require Import Prelude.
From S2P Require Import Env.
From S2P Require Import Trace.
From S2P Require Import Mem.
From S2P Require Import TaskBase.
From S2P Require Import Queue.
From S2P Require Import Timer.
From S2P Require Import Reactor.
From S2P Require Import Sched.
From S2P Require Import Task.

(** The calls that move the bytes of a stream. *)
Definition stream_call (f : string) : bool :=
  String.eqb f "readv" || String.eqb f "writev" || String.eqb f "shutdown" ||
  (String.eqb f "read" || String.eqb f "write").

Definition quiet (e : ext) : Prop :=
  match e with
  | Sys f _ _ => stream_call f = false
  | Query f _ _ => stream_call f = false
  | _ => True
  end.

Abbreviation quiet_tree := (calls_only quiet).

Lemma quiet_sys f args : stream_call f = false -> quiet_tree (sys f args).
Proof. intros H. by split. Qed.

#[export] Hint Extern 1 (quiet_tree (sys _ _)) => apply quiet_sys; reflexivity : calls.

(** ** Allocators *)

Lemma quiet_malloc n : quiet_tree (malloc n).
Proof. unfold malloc. calls. Qed.

Lemma quiet_free p : quiet_tree (free p).
Proof. unfold free. calls. Qed.
#[export] Hint Resolve quiet_malloc quiet_free : calls.

Lemma quiet_default : quiet_tree hev_memory_allocator_default.
Proof. unfold hev_memory_allocator_default, simple_new. calls. Qed.

Lemma quiet_alloc self n : quiet_tree (hev_memory_allocator_alloc self n).
Proof. unfold hev_memory_allocator_alloc, simple_alloc, slice_alloc, wild_call, act. calls. Qed.

Lemma quiet_release self p : quiet_tree (hev_memory_allocator_free self p).
Proof.
  unfold hev_memory_allocator_free, simple_free, slice_free, slice_evict, wild_call, act. calls.
Qed.
#[export] Hint Resolve quiet_default quiet_alloc quiet_release : calls.

Lemma quiet_hev_malloc n : quiet_tree (hev_malloc n).
Proof. unfold hev_malloc. calls. Qed.

Lemma quiet_hev_free p : quiet_tree (hev_free p).
Proof. unfold hev_free. calls. Qed.
#[export] Hint Resolve quiet_hev_malloc quiet_hev_free : calls.

(** ** The scheduler *)

Lemma quiet_task_unref t : quiet_tree (hev_task_unref t).
Proof. unfold hev_task_unref, hev_task_destroy, hev_task_stack_destroy. calls. Qed.

Lemma quiet_remove ctx state : quiet_tree (hev_task_system_remove_current_task ctx state).
Proof.
  pose proof quiet_task_unref. unfold hev_task_system_remove_current_task, act. calls.
Qed.

Lemma quiet_get_curr : quiet_tree hev_task_timer_get_curr.
Proof. unfold hev_task_timer_get_curr, act. calls. Qed.
#[export] Hint Resolve quiet_task_unref quiet_remove quiet_get_curr : calls.

Lemma quiet_timer_get_timeout self : quiet_tree (hev_task_timer_get_timeout self).
Proof. unfold hev_task_timer_get_timeout, act. calls. Qed.

Lemma quiet_timer_wake self : quiet_tree (hev_task_timer_wake self).
Proof. unfold hev_task_timer_wake, act. calls. Qed.

Lemma quiet_timer_poll_due self : quiet_tree (hev_task_timer_poll_due self).
Proof. unfold hev_task_timer_poll_due, act. calls. Qed.

Lemma quiet_timer_poll_rearm self n : quiet_tree (hev_task_timer_poll_rearm self n).
Proof. unfold hev_task_timer_poll_rearm, act. calls. Qed.

Lemma quiet_reactor_wait self n timeout : quiet_tree (hev_task_io_reactor_wait self n timeout).
Proof. unfold hev_task_io_reactor_wait, act. calls. Qed.
#[export] Hint Resolve quiet_timer_get_timeout quiet_timer_wake quiet_timer_poll_due
  quiet_timer_poll_rearm quiet_reactor_wait : calls.

Lemma quiet_io_poll ctx timeout : quiet_tree (hev_task_system_io_poll ctx timeout).
Proof. unfold hev_task_system_io_poll. calls. Qed.
#[export] Hint Resolve quiet_io_poll : calls.

Lemma quiet_pick ctx : quiet_tree (hev_task_system_pick_current_task ctx).
Proof.
  unfold hev_task_system_pick_current_task, hev_task_system_io_poll_maybe, poll_until_running, act. calls.
Qed.
#[export] Hint Resolve quiet_pick : calls.

Lemma quiet_schedule_round ctx type : quiet_tree (schedule_round ctx type).
Proof. unfold schedule_round, schedule_switch, act. calls. Qed.
#[export] Hint Resolve quiet_schedule_round : calls.

Lemma quiet_yield type : quiet_tree (hev_task_yield type).
Proof. unfold hev_task_yield, hev_task_system_schedule, schedule_kernel, act. calls. Qed.
#[export] Hint Resolve quiet_yield : calls.
