(* ===== verification/Kernel.v ===== *)
(** * Kernel: what the scheduler promises to the synchronisation primitives

    [Kernel] is the interface: the current task, the tasks that can be woken,
    the wakeup, and the suspension.  The run queue of [QueueProofs] is an
    instance, so that the clients are proved against the interface alone. *)

From S2P Require Import Prelude.
From S2P Require Import Sep.
From S2P Require Import Env.
From S2P Require Import EnvLogic.
From S2P Require Import TaskBase.
From S2P Require Import Queue.
From S2P Require Import QueueSpec.
From S2P Require Import QueueProofs.
From S2P Require Import Sched.
From S2P Require Import SchedProofs.
From S2P Require Import Task.

Class Kernel : Type := {
  k_state : Type;
  k_inv : k_state -> heapProp;
  k_current : k_state -> Z;
  (** known to the scheduler and not stopped *)
  k_alive : k_state -> Z -> Prop;
  k_running : k_state -> Z -> Prop;
  k_wake : Z -> k_state -> k_state;
  k_self s : k_inv s ⊢ wp hev_task_self (fun r => ⌞r = k_current s⌟ ∗ k_inv s);
  k_nonnull s : k_inv s -∗ ⌜k_current s <> 0⌝;
  k_alive_nonnull s t : k_alive s t -> k_inv s -∗ ⌜t <> 0⌝;
  k_self_alive s : k_inv s -∗ ⌜k_alive s (k_current s)⌝;
  k_wakeup s t : k_alive s t ->
    k_inv s ⊢ wp (hev_task_wakeup t) (fun _ => k_inv (k_wake t s));
  k_wake_running s t : k_alive s t -> k_running (k_wake t s) t;
  k_wake_current s t : k_current (k_wake t s) = k_current s;
  k_wake_alive s t u : k_alive s t -> k_alive s u -> k_alive (k_wake t s) u;
  k_wake_keeps s t u : k_alive s t -> k_running s u -> k_running (k_wake t s) u;
  k_yield Y `{!YieldMono Y} type s (Q : unit -> heapProp) :
    k_inv s ∗ (k_inv s -∗ Y type (Q tt)) ⊢ cwp Y (hev_task_yield type) Q
}.

(** ** The scheduler is one *)

Section instance.
Context (ctx : Z).

Definition sched_inv (s : sched) : heapProp :=
  (hev_task_system_tls_context ↦ ctx ∗ is_sched ctx s ∗ ⌞sched_wf s /\ runs s⌟)%I.

Definition running (s : sched) (t : Z) : Prop :=
  exists i, s_tasks s !! t = Some i /\ ti_state i = HEV_TASK_RUNNING.

Lemma wakeup_cases s t i :
  s_tasks s !! t = Some i ->
  s_wakeup t s = s \/
  exists k, s_tasks (s_wakeup t s) =
    <[t := TInfo k (ti_next i) (ti_next i) HEV_TASK_RUNNING]> (s_tasks s) /\
    forall x, x ∈ s_queue s -> x ∈ s_queue (s_wakeup t s).
Proof.
  intros Hi. unfold s_wakeup. rw (info_some s t i Hi).
  destruct (ti_state i =? HEV_TASK_RUNNING); [by left|right].
  eexists. unfold s_insert, s_set_key. simpl. rw (info_some s t i Hi) info_insert insert_insert_eq /=.
  split; [done|]. intros x Hx. rw q_ins_elem. by right.
Qed.

Lemma wakeup_current s t : s_current (s_wakeup t s) = s_current s.
Proof. unfold s_wakeup. by destruct (_ =? _). Qed.

Lemma wakeup_runs s t i : s_tasks s !! t = Some i -> runs s -> runs (s_wakeup t s).
Proof.
  intros Hi Hr. unfold runs in *. rw wakeup_current.
  destruct (wakeup_cases s t i Hi) as [->|(k & _ & Hq)]; [done|by apply Hq].
Qed.

Lemma wakeup_running s t : wakeable s t -> running (s_wakeup t s) t.
Proof.
  intros (i & Hi & Hst). unfold s_wakeup. rw (info_some s t i Hi).
  destruct (Z.eqb_spec (ti_state i) HEV_TASK_RUNNING) as [Heq|]; [by exists i|].
  unfold s_insert, s_set_key, running. simpl. rw lookup_insert_eq. by eexists.
Qed.

Lemma wakeup_keeps_running s t u : wakeable s t -> running s u -> running (s_wakeup t s) u.
Proof.
  intros (i & Hi & _) (j & Hj & Hst).
  destruct (wakeup_cases s t i Hi) as [->|(k & Hts & _)]; [by exists j|].
  unfold running. rw Hts. destruct (decide (u = t)) as [->|].
  - rw lookup_insert_eq. by eexists.
  - rw lookup_insert_ne //. by exists j.
Qed.

Lemma runs_address s : sched_base s -> runs s -> 0 < s_current s.
Proof.
  intros Hb Hr. destruct (sw_known _ Hb _ Hr) as [i Hi]. apply (sw_addr _ Hb _ _ Hi).
Qed.

#[export] Program Instance sched_kernel : Kernel := {|
  k_state := sched;
  k_inv := sched_inv;
  k_current := s_current;
  k_alive := wakeable;
  k_running := running;
  k_wake := s_wakeup
|}.
Next Obligation.
  iIntros (s) "(Ht & Hs & %Hp)". unfold hev_task_self, hev_task_system_get_context. wp_load.
  iDestruct (is_sched_current with "Hs") as "[Hc Hs]". wp_load.
  iDestruct ("Hs" with "Hc") as "Hs". by iFrame.
Qed.
Next Obligation.
  iIntros (s) "(_ & _ & %Hp)". iPureIntro. destruct Hp as [[Hb _] Hr].
  pose proof (runs_address s Hb Hr). lia.
Qed.
Next Obligation.
  iIntros (s t (i & Hi & _)) "(_ & _ & %Hp)". iPureIntro. destruct Hp as [[Hb _] _].
  pose proof (sw_addr _ Hb _ _ Hi). lia.
Qed.
Next Obligation.
  iIntros (s) "(_ & _ & %Hp)". iPureIntro. destruct Hp as [[Hb _] Hr].
  destruct (sw_known _ Hb _ Hr) as [i Hi]. exists i. split; [done|].
  by rw (proj2 (sw_running _ Hb _ i Hi) Hr).
Qed.
Next Obligation.
  iIntros (s t (i & Hi & Hst)) "(Ht & Hs & %Hp)". destruct Hp as [Hwf Hr].
  unfold hev_task_wakeup, hev_task_system_wakeup_task, hev_task_system_get_context. wp_load.
  iApply wp_wand. iSplitL "Hs"; [by iApply (wp_wakeup with "Hs")|]. iIntros (_) "$".
  iFrame. iPureIntro. split; [by eapply wakeup_wf|by eapply wakeup_runs].
Qed.
Next Obligation. intros s t. apply wakeup_running. Qed.
Next Obligation. intros s t. apply wakeup_current. Qed.
Next Obligation. intros s t u (i & Hi & _). by eapply wakeup_keeps. Qed.
Next Obligation. intros s t u. apply wakeup_keeps_running. Qed.
Next Obligation.
  iIntros (Y HY type s Q) "[(Ht & Hs & %Hp) HK]". destruct Hp as [Hwf Hr].
  pose proof (runs_address s (proj1 Hwf) Hr) as Hpos.
  unfold hev_task_yield, hev_task_system_schedule, hev_task_system_get_context. cbn [cwp]. wp_load.
  iDestruct (is_sched_current with "Hs") as "[Hc Hs]". wp_load.
  iDestruct ("Hs" with "Hc") as "Hs". rw (proj2 (is_true_spec _)); [|lia].
  cbn [cwp co_bind call]. iApply (yield_mono' type (Q tt)); [iIntros "H" (a); iExact "H"|].
  iApply "HK". by iFrame.
Qed.
End instance.
