(* ===== verification/Mutex.v ===== *)
(** * Mutex: [src/src/kern/sync/hev-task-mutex.c]

    The waiters of a mutex are a linked stack of nodes that live on the stacks
    of the waiting tasks; [node] is the address of the caller's. *)

From S2P Require Export Prelude.
From S2P Require Export Env.
From S2P Require Export TaskBase.
From S2P Require Export Task.

Definition mutex_locker (self : Z) : Z := self.
Definition mutex_waiters (self : Z) : Z := self + 8.
Definition mnode_next (node : Z) : Z := node.
Definition mnode_task (node : Z) : Z := node + 8.

Definition hev_task_mutex_init (self : Z) : M Z :=
  store (mutex_locker self) 0 ;;;
  store (mutex_waiters self) NULL ;;;
  ret 0.

(** One round of the [do ... while]. *)
Definition mutex_wait (self node : Z) (_ : unit) : co (unit + unit) :=
  hev_task_yield HEV_TASK_WAITIO ~;;
  locker <! load (mutex_locker self) ;;
  if is_true locker then Ret (inl tt) else
  waiters <! load (mutex_waiters self) ;;
  Ret (if negb (waiters =? node) then inl tt else inr tt).

Definition hev_task_mutex_lock (self node : Z) : co Z :=
  locker <! load (mutex_locker self) ;;
  co_when (is_true locker)
    (waiters <! load (mutex_waiters self) ;;
     store (mnode_next node) waiters !;;
     task <! hev_task_self ;;
     store (mnode_task node) task !;;
     store (mutex_waiters self) node !;;
     co_while (mutex_wait self node) tt ~;;
     next <! load (mnode_next node) ;;
     act (store (mutex_waiters self) next)) ~;;
  store (mutex_locker self) 1 !;;
  Ret 0.

Definition hev_task_mutex_trylock (self : Z) : M Z :=
  locker <- load (mutex_locker self) ;;
  if is_true locker then ret (-1) else
  store (mutex_locker self) 1 ;;;
  ret 0.

Definition hev_task_mutex_unlock (self : Z) : M Z :=
  store (mutex_locker self) 0 ;;;
  waiters <- load (mutex_waiters self) ;;
  (if is_true waiters then
     task <- load (mnode_task waiters) ;;
     hev_task_wakeup task
   else ret tt) ;;;
  ret 0.
