(* ===== verification/MutexProofs.v ===== *)
(** * MutexProofs: the mutex by rely and guarantee

    The abstract mutex has an owner, which the lock word only says is there,
    and the stack of waiters.  Each task relies on what the others keep, and
    guarantees the same to them: an auxiliary cell, which the program never
    touches, records the state a task was given, and says with every
    suspension how far it has moved from it. *)

From stdpp Require Import countable.
From S2P Require Import Prelude.
From S2P Require Import Sep.
From S2P Require Import Env.
From S2P Require Import EnvLogic.
From S2P Require Import TaskBase.
From S2P Require Import Task.
From S2P Require Import Kernel.
From S2P Require Import Mutex.

(** ** Programs under a richer suspension *)

(** A program proved for the suspensions [Y1] works for [Y2] when [F] is what
    [Y2] asks for, and gives back, besides. *)
Lemma cwp_frame_yield {A} Y1 Y2 `{!YieldMono Y2} F (c : co A) Q :
  (forall t K, Y1 t K ∗ F ⊢ Y2 t (K ∗ F)) ->
  cwp Y1 c Q ∗ F ⊢ cwp Y2 c (fun x => Q x ∗ F).
Proof.
  intros HY. induction c as [a|X c k IH|e k IH|k IH|]; cbn [cwp].
  - done.
  - iIntros "[H HF]". iApply wp_wand. iSplitL "H"; [iExact "H"|]. iIntros (x) "H". iApply IH. iFrame.
  - destruct e; try (iIntros "[H HF]"; iApply ext_wp_wand; iSplitL "H"; [iExact "H"|];
      iIntros (a) "H"; iApply IH; iFrame).
    rw HY. apply yield_mono'. iIntros "[H HF]" (a). iApply IH. iFrame. iApply "H".
  - iIntros "[H HF]" (n). iApply IH. iFrame. iApply "H".
  - by iIntros "_".
Qed.

(** ... in particular for [Y2] that ask for less. *)
Lemma cwp_weaken_yield {A} Y1 Y2 `{!YieldMono Y2} (c : co A) Q :
  (forall t K, Y1 t K ⊢ Y2 t K) -> cwp Y1 c Q ⊢ cwp Y2 c Q.
Proof.
  intros HY. iIntros "H". iApply cwp_wand. iSplitL.
  - iApply (cwp_frame_yield Y1 Y2 emp c Q); [|by iSplitL "H"].
    intros t K. iIntros "[H _]". iApply yield_mono'; [|by iApply HY]. by iIntros "$".
  - iIntros (x) "[H _]". iExact "H".
Qed.

(** ** The abstract mutex *)

(** The owner, and the waiting nodes with their tasks, the last first. *)
Definition mstate : Type := option Z * list (Z * Z).

Definition owner (m : mstate) : option Z := m.1.
Definition waiters (m : mstate) : list (Z * Z) := m.2.

(** What the steps of task [me] keep of the others, and the others of [me]. *)
Definition guarantee (me : Z) (m m' : mstate) : Prop :=
  forall u, u <> me ->
    (owner m = Some u <-> owner m' = Some u) /\
    (forall n, (n, u) ∈ waiters m <-> (n, u) ∈ waiters m').

Definition rely (me : Z) (m m' : mstate) : Prop :=
  (owner m = Some me <-> owner m' = Some me) /\
  (forall n, (n, me) ∈ waiters m <-> (n, me) ∈ waiters m').

(** The steps of one task are among what any other relies on. *)
Lemma guarantee_rely me u m m' : u <> me -> guarantee me m m' -> rely u m m'.
Proof. intros Hne H. by apply H. Qed.

Lemma guarantee_refl me m : guarantee me m m.
Proof. by intros u _. Qed.

Lemma guarantee_trans me m1 m2 m3 :
  guarantee me m1 m2 -> guarantee me m2 m3 -> guarantee me m1 m3.
Proof.
  intros H1 H2 u Hu. destruct (H1 u Hu) as [Ho1 Hw1], (H2 u Hu) as [Ho2 Hw2].
  split; [by rw Ho1|]. intros n. by rw Hw1.
Qed.

(** Changing the owner from nobody to [me] or back. *)
Lemma guarantee_owner me o w :
  o = None \/ o = Some me -> forall o', o' = None \/ o' = Some me -> guarantee me (o, w) (o', w).
Proof. intros Ho o' Ho' u Hu. split; [|done]. simpl. destruct Ho, Ho'; subst; naive_solver. Qed.

Lemma guarantee_push me o n w : guarantee me (o, w) (o, (n, me) :: w).
Proof.
  intros u Hu. split; [done|]. intros x. simpl. rw elem_of_cons. split; [by right|].
  by intros [[= -> ->]|].
Qed.

Lemma guarantee_pop me n w : guarantee me (None, (n, me) :: w) (Some me, w).
Proof.
  intros u Hu. simpl. split; [naive_solver|]. intros x. rw elem_of_cons. split; [|by right].
  by intros [[= -> ->]|].
Qed.

Section mutex.
Context `{!Kernel} (aux self : Z) (R : heapProp).
#[local] Opaque co_while.
Implicit Types (k : k_state) (m : mstate).

(** ** Well-formed states *)

(** No lost wakeup: when the mutex is free its first waiter is running. *)
Definition first_runs k m : Prop :=
  owner m = None -> match waiters m with [] => True | p :: _ => k_running k p.2 end.

Record m_wf k m : Prop := {
  mw_nodes : NoDup (waiters m).*1;
  mw_tasks : NoDup (waiters m).*2;
  mw_alive : Forall (k_alive k) (waiters m).*2;
  mw_first : first_runs k m
}.

(** ... also after [me] has been put to sleep. *)
Definition not_first (me : Z) m : Prop :=
  owner m = None -> match waiters m with [] => True | p :: _ => p.2 <> me end.

(** ** The memory of a mutex *)

Definition wptr (w : list (Z * Z)) : Z := match w with [] => NULL | p :: _ => p.1 end.

Fixpoint wseg (w : list (Z * Z)) : heapProp :=
  match w with
  | [] => emp%I
  | (n, t) :: w => (⌞n <> 0⌟ ∗ mnode_next n ↦ wptr w ∗ mnode_task n ↦ t ∗ wseg w)%I
  end.

(** The resource is in the mutex while nobody owns it. *)
Definition is_mutex m : heapProp :=
  (mutex_locker self ↦ (match owner m with Some _ => 1 | None => 0 end) ∗ mutex_waiters self ↦ wptr (waiters m) ∗
   wseg (waiters m) ∗ (match owner m with Some _ => emp | None => R end))%I.

(** The auxiliary cell. *)
Definition token m : heapProp := (aux ↦ Z.pos (encode m))%I.

Definition minv k m : heapProp := (k_inv k ∗ is_mutex m ∗ ⌞m_wf k m⌟)%I.

(** The suspension of task [me] while it deals with the mutex. *)
Definition mutex_yield (me : Z) (type : Z) (K : heapProp) : heapProp :=
  (∃ k m m0, minv k m ∗ token m0 ∗
    ⌞k_current k = me /\ guarantee me m0 m /\ (type = HEV_TASK_WAITIO -> not_first me m)⌟ ∗
    (∀ k' m', minv k' m' -∗ token m' -∗ ⌞k_current k' = me /\ rely me m m'⌟ -∗ K))%I.

#[export] Instance mutex_yield_mono me : YieldMono (mutex_yield me).
Proof.
  intros t K1 K2. iIntros "[(%k & %m & %m0 & HI & Ht & %Hp & HK) H]". iExists k, m, m0. iFrame.
  iSplitR; [done|]. iIntros (k' m') "HI Ht %Hp'". iApply "H". iApply ("HK" with "HI Ht"). done.
Qed.

(** ... when at every suspension the owner, or [None], is as [P] says. *)
Definition mutex_yield_as (P : option Z -> Prop) (me : Z) (type : Z) (K : heapProp) : heapProp :=
  (∃ k m m0, minv k m ∗ token m0 ∗
    ⌞k_current k = me /\ guarantee me m0 m /\ (type = HEV_TASK_WAITIO -> not_first me m) /\
     P (owner m)⌟ ∗
    (∀ k' m', minv k' m' -∗ token m' -∗ ⌞k_current k' = me /\ rely me m m'⌟ -∗ K))%I.

#[export] Instance mutex_yield_as_mono P me : YieldMono (mutex_yield_as P me).
Proof.
  intros t K1 K2. iIntros "[(%k & %m & %m0 & HI & Ht & %Hp & HK) H]". iExists k, m, m0. iFrame.
  iSplitR; [done|]. iIntros (k' m') "HI Ht %Hp'". iApply "H". iApply ("HK" with "HI Ht"). done.
Qed.

Lemma mutex_yield_any P me t K : mutex_yield_as P me t K ⊢ mutex_yield me t K.
Proof.
  iIntros "(%k & %m & %m0 & HI & Ht & %Hp & HK)". iExists k, m, m0. iFrame. iPureIntro. tauto.
Qed.

(** The cells of a node on a stack. *)
Definition stack_mnode (n : Z) : heapProp :=
  (⌞n <> 0⌟ ∗ ∃ x t, mnode_next n ↦ x ∗ mnode_task n ↦ t)%I.

Lemma wseg_fresh n x w : mnode_next n ↦ x ∗ wseg w -∗ ⌜n ∉ w.*1⌝.
Proof.
  induction w as [|[m t] w IH]; [iIntros "_"; iPureIntro; by apply not_elem_of_nil|].
  simpl. iIntros "(Hx & %Hm & Hn & Ht & Hw)".
  iDestruct (points_to_ne with "Hx Hn") as %Hne.
  iDestruct (IH with "[$Hx $Hw]") as %Hni. iPureIntro. rw not_elem_of_cons. split; [|done].
  intros ->. done.
Qed.

(** ** Unlocking and trying *)

Lemma wp_unlock me k m :
  owner m = Some me -> k_current k = me ->
  minv k m ∗ R ⊢ wp (hev_task_mutex_unlock self) (fun r => ⌞r = 0⌟ ∗ ∃ k',
    minv k' (None, waiters m) ∗ ⌞k_current k' = me⌟).
Proof.
  destruct m as [o w]. simpl. iIntros (-> Hme) "[(Hk & (Hl & Hw & Hs & _) & %Hwf) HR]".
  unfold hev_task_mutex_unlock. wp_store. wp_load. destruct w as [|[n t] w]; simpl.
  { change (is_true NULL) with false. cbv iota. wp_norm. iSplitR; [done|]. iExists k. iFrame.
    iPureIntro. split; [|done]. by destruct Hwf. }
  iDestruct "Hs" as "(%Hn & Hnx & Ht & Hs)". rw (proj2 (is_true_spec n)) //. wp_load.
  destruct Hwf as [Hnd Htd Hal Hfst]. simpl in *.
  assert (k_alive k t) as Hat by by apply Forall_cons in Hal as [? _].
  iApply wp_bind. iApply wp_wand. iSplitL "Hk"; [by iApply k_wakeup|].
  iIntros (_) "Hk". wp_norm. iSplitR; [done|]. iExists (k_wake t k). iFrame. iSplitL.
  - iSplitL; [by iFrame|]. iPureIntro. split; simpl; [done..| |by intros _; apply k_wake_running].
    eapply Forall_impl; [exact Hal|]. intros u Hu. by apply k_wake_alive.
  - iPureIntro. by rw k_wake_current.
Qed.

Lemma wp_trylock me k m :
  minv k m ⊢ wp (hev_task_mutex_trylock self) (fun r =>
    match owner m with
    | None => ⌞r = 0⌟ ∗ minv k (Some me, waiters m) ∗ R
    | Some _ => ⌞r = -1⌟ ∗ minv k m
    end).
Proof.
  destruct m as [o w]. simpl. iIntros "(Hk & (Hl & Hw & Hs & HR) & %Hwf)".
  unfold hev_task_mutex_trylock. wp_load. destruct o as [u|]; simpl.
  - wp_norm. iSplitR; [done|]. by iFrame.
  - wp_store. iSplitR; [done|]. iFrame. iPureIntro. destruct Hwf. by split.
Qed.

(** ** Locking *)

Section locking.
(** What is known of the owner while the caller waits. *)
Context (P : option Z -> Prop) (me : Z).
Hypothesis HP : forall o o', (o = Some me <-> o' = Some me) -> P o -> P o'.

(** What a waiting task knows whenever it goes to sleep or comes back. *)
Definition waiting (node : Z) : heapProp :=
  (∃ k m m0, minv k m ∗ token m0 ∗
    ⌞k_current k = me /\ guarantee me m0 m /\ not_first me m /\ P (owner m) /\
     (node, me) ∈ waiters m⌟)%I.

(** ... and when it has got out of the loop: it is the first of a free mutex. *)
Definition admitted (node : Z) : heapProp :=
  (∃ k w, minv k (None, (node, me) :: w) ∗ token (None, (node, me) :: w) ∗
    ⌞k_current k = me⌟)%I.

Lemma waiter_at (w : list (Z * Z)) n t u :
  NoDup w.*1 -> (n, t) ∈ w -> (n, u) ∈ w -> t = u.
Proof.
  intros Hnd H1 H2. apply list_elem_of_lookup in H1 as [i Hi]. apply list_elem_of_lookup in H2 as [j Hj].
  assert (i = j) as ->; [|congruence].
  eapply (NoDup_lookup _ _ _ n Hnd); by rw list_lookup_fmap ?Hi ?Hj.
Qed.

Lemma task_at (w : list (Z * Z)) n n' t :
  NoDup w.*2 -> (n, t) ∈ w -> (n', t) ∈ w -> n = n'.
Proof.
  intros Hnd H1 H2. apply list_elem_of_lookup in H1 as [i Hi]. apply list_elem_of_lookup in H2 as [j Hj].
  assert (i = j) as ->; [|congruence].
  eapply (NoDup_lookup _ _ _ t Hnd); by rw list_lookup_fmap ?Hi ?Hj.
Qed.

Lemma cwp_mutex_wait node u :
  waiting node ⊢ cwp (mutex_yield_as P me) (mutex_wait self node u) (fun r =>
    match r with inl _ => waiting node | inr _ => admitted node end).
Proof.
  iIntros "(%k & %m & %m0 & (Hk & Hm & %Hwf) & Ht & %Hp)". destruct Hp as (Hme & Hg & Hnf & HPo & Hin).
  unfold mutex_wait. iApply cwp_bind. iApply k_yield. iFrame "Hk". iIntros "Hk".
  iExists k, m, m0. unfold minv at 1. iFrame "Hk Hm Ht". iSplitR; [done|]. iSplitR; [done|].
  iIntros (k' m') "(Hk & (Hl & Hw & Hs & HR) & %Hwf') Ht %Hp'".
  destruct Hp' as (Hme' & Ho' & Hw'). apply (HP _ _ Ho') in HPo. apply Hw' in Hin. destruct m' as [o w]. simpl in *.
  cbn [cwp]. wp_load. destruct o as [v|].
  - change (is_true 1) with true. cbv iota. cbn [cwp]. iExists k', (Some v, w), (Some v, w). iFrame.
    iPureIntro. by split_and!; [|done|apply guarantee_refl|..].
  - change (is_true 0) with false. cbv iota. cbn [cwp]. wp_load.
    destruct w as [|[n t] w]; [by apply not_elem_of_nil in Hin|]. simpl.
    destruct (Z.eqb_spec n node) as [->|Hne]; cbn [negb].
    + assert (t = me) as -> by (eapply (waiter_at _ node); [apply Hwf'|by left|done]).
      iExists k', w. iFrame. by iPureIntro.
    + iExists k', (None, (n, t) :: w), (None, (n, t) :: w). iFrame. iPureIntro.
      split_and!; [done|done|apply guarantee_refl| |done|done]. intros _. simpl. intros ->.
      apply Hne. eapply (task_at _ _ _ me); [apply Hwf'|by left|done].
Qed.

Lemma cwp_lock_as node k m m0 :
  k_current k = me -> me ∉ (waiters m).*2 -> guarantee me m0 m -> P (owner m) ->
  minv k m ∗ token m0 ∗ stack_mnode node
  ⊢ cwp (mutex_yield_as P me) (hev_task_mutex_lock self node) (fun r =>
      ⌞r = 0⌟ ∗ R ∗ stack_mnode node ∗ ∃ k' m' m1, minv k' m' ∗ token m1 ∗
      ⌞owner m' = Some me /\ k_current k' = me /\ guarantee me m1 m' /\ me ∉ (waiters m').*2⌟).
Proof.
  iIntros (Hme Hni Hg HPo) "((Hk & (Hl & Hw & Hs & HR) & %Hwf) & Ht & %Hn & %x & %t & Hnx & Hnt)".
  unfold hev_task_mutex_lock. destruct m as [[v|] w]; simpl in *; cbn [cwp]; wp_load.
  - change (is_true 1) with true. cbn [co_when]. iApply cwp_bind.
    iDestruct (k_self_alive with "Hk") as %Hal. cbn [cwp co_bind].
    wp_load. wp_store. iApply wp_wand. iSplitL "Hk"; [by iApply k_self|]. iIntros (r) "[-> Hk]".
    wp_store. wp_store. iClear "HR". iDestruct (wseg_fresh with "[$Hnx $Hs]") as %Hfr.
    iApply cwp_bind. iApply (cwp_wand _ _ (fun _ => admitted node)).
    iSplitL "Hk Hl Hw Hs Ht Hnx Hnt".
    + iApply (cwp_while (mutex_yield_as P me) _ (fun _ => waiting node) tt
        (fun _ => admitted node)); [by intros u; apply cwp_mutex_wait|].
      iExists k, (Some v, (node, me) :: w), m0. rw Hme in Hal |- *. iFrame. simpl.
      iSplitL.
      * iSplitR; [done|]. iPureIntro. destruct Hwf as [? ? ? ?]. simpl in *.
        split; simpl; [by constructor..|done].
      * iPureIntro. split_and!; [done|eapply guarantee_trans; [exact Hg|apply guarantee_push]|done|done|by left].
    + iIntros (_) "(%k' & %w' & (Hk & (Hl & Hw & (%_ & Hnx & Hnt & Hs) & HR) & %Hwf') & Ht & %Hme')".
      cbn [cwp act]. wp_load. wp_store. wp_store. iSplitR; [done|]. iFrame "HR".
      iSplitL "Hnx Hnt"; [iSplitR; [done|]; iExists _, _; iFrame|].
      destruct Hwf' as [Hnd Htd Hal' Hf]. simpl in *.
      apply NoDup_cons in Hnd as [_ Hnd]. apply NoDup_cons in Htd as [Htn Htd].
      apply Forall_cons in Hal' as [_ Hal'].
      iExists k', (Some me, w'), _. iFrame "Ht". unfold minv, is_mutex. simpl. iFrame.
      iPureIntro. split; [by split|]. split_and!; [done|done|apply guarantee_pop|done].
  - change (is_true 0) with false. cbn [co_when co_bind cwp]. wp_store.
    iSplitR; [done|]. iFrame "HR". iSplitL "Hnx Hnt"; [iSplitR; [done|]; iExists _, _; iFrame|].
    iExists k, (Some me, w), m0. iFrame. iPureIntro. split; [by destruct Hwf|].
    split_and!; [done|done| |done]. eapply guarantee_trans; [exact Hg|].
    apply guarantee_owner; [by left|by right].
Qed.
End locking.

Lemma cwp_lock me node k m m0 :
  k_current k = me -> me ∉ (waiters m).*2 -> guarantee me m0 m ->
  minv k m ∗ token m0 ∗ stack_mnode node
  ⊢ cwp (mutex_yield me) (hev_task_mutex_lock self node) (fun r =>
      ⌞r = 0⌟ ∗ R ∗ stack_mnode node ∗ ∃ k' m' m1, minv k' m' ∗ token m1 ∗
      ⌞owner m' = Some me /\ k_current k' = me /\ guarantee me m1 m' /\ me ∉ (waiters m').*2⌟).
Proof.
  intros Hme Hni Hg. rw (cwp_lock_as (fun _ => True) me (fun _ _ _ _ => I) node k m m0) //.
  apply cwp_weaken_yield; [apply _|]. intros t K. apply mutex_yield_any.
Qed.
End mutex.

(** ** Interleaving *)

(** Whatever the others do, each keeping its guarantee, is what [me] relies
    on; [interleaved me] is any number of their steps. *)
Definition interleaved (me : Z) : mstate -> mstate -> Prop :=
  rtc (fun m m' => exists u, u <> me /\ guarantee u m m').

Lemma rely_refl me m : rely me m m.
Proof. by split. Qed.

Lemma rely_trans me m1 m2 m3 : rely me m1 m2 -> rely me m2 m3 -> rely me m1 m3.
Proof. intros [H1 H2] [H3 H4]. split; [by rw H1|]. intros n. by rw H2. Qed.

Lemma interleaved_rely me m m' : interleaved me m m' -> rely me m m'.
Proof.
  induction 1 as [m|m1 m2 m3 (u & Hu & Hg) _ IH]; [apply rely_refl|].
  eapply rely_trans; [|exact IH]. eapply guarantee_rely; [|exact Hg]. done.
Qed.
