(* ===== verification/MutexProps.v ===== *)
(** * MutexProps: what the mutex promises

    For any kernel that keeps the promises of [Kernel], and any resource [R]
    the mutex protects. *)

From S2P Require Import Prelude.
From S2P Require Import Sep.
From S2P Require Import Env.
From S2P Require Import EnvLogic.
From S2P Require Import TaskBase.
From S2P Require Import QueueSpec.
From S2P Require Import QueueProofs.
From S2P Require Import QueueProps.
From S2P Require Import Kernel.
From S2P Require Import Mutex.
From S2P Require Import MutexProofs.

(** C5. Locking returns 0 with the caller the owner of the mutex, the resource
    in its hands, and its node off the stack of waiters again, however often
    it sleeps and whatever the others do meanwhile, as long as each keeps its
    guarantee: that it does not add or remove waiters for the caller, nor
    change whether the caller is the owner.  The caller keeps the same
    guarantee to the others at every suspension. *)
Theorem mutex_lock_exclusive `{!Kernel} aux self R me node (k : k_state) m m0 :
  k_current k = me -> me ∉ (waiters m).*2 -> guarantee me m0 m ->
  {{{ minv self R k m ∗ token aux m0 ∗ stack_mnode node }}}
    hev_task_mutex_lock self node @ (mutex_yield aux self R me)
  {{{ r, ⌞r = 0⌟ ∗ R ∗ stack_mnode node ∗ ∃ k' m' m1, minv self R k' m' ∗ token aux m1 ∗
         ⌞owner m' = Some me /\ k_current k' = me /\ guarantee me m1 m' /\
          me ∉ (waiters m').*2⌟ }}}.
Proof. apply cwp_lock. Qed.

Lemma mutex_lock_exclusive_witness :
  @ctriple Z (@mutex_yield (sched_kernel 65536) 1 40960 (45056 ↦ 7)%I 4096)
    (@minv (sched_kernel 65536) 40960 (45056 ↦ 7)%I (two_running 20 3) (Some 8192, []) ∗
     token 1 (Some 8192, []) ∗ stack_mnode 16384)%I
    (hev_task_mutex_lock 40960 16384)
    (fun r => ⌞r = 0⌟ ∗ 45056 ↦ 7 ∗ stack_mnode 16384 ∗ ∃ k' m' m1,
      @minv (sched_kernel 65536) 40960 (45056 ↦ 7)%I k' m' ∗ token 1 m1 ∗
      ⌞owner m' = Some 4096 /\ @k_current (sched_kernel 65536) k' = 4096 /\
       guarantee 4096 m1 m' /\ 4096 ∉ (waiters m').*2⌟)%I.
Proof.
  apply (@mutex_lock_exclusive (sched_kernel 65536) 1 40960 (45056 ↦ 7)%I 4096 16384
           (two_running 20 3) (Some 8192, []) (Some 8192, [])).
  - reflexivity.
  - by apply not_elem_of_nil.
  - apply guarantee_refl.
Defined.

(** C13. Unlocking by the owner frees the mutex, gives the resource back and
    wakes the first waiter: no free mutex is left with a first waiter that is
    not running. *)
Theorem mutex_unlock_wakes `{!Kernel} self R me (k : k_state) m :
  owner m = Some me -> k_current k = me ->
  minv self R k m ∗ R ⊢ wp (hev_task_mutex_unlock self) (fun r => ⌞r = 0⌟ ∗ ∃ k',
    minv self R k' (None, waiters m) ∗
    ⌞k_current k' = me /\ guarantee me m (None, waiters m) /\
     match waiters m with [] => True | p :: _ => k_running k' p.2 end⌟).
Proof.
  intros Ho Hc. iIntros "H". iApply wp_wand. iSplitL; [by iApply (wp_unlock with "H")|].
  iIntros (r) "[-> (%k' & (Hk & Hm & %Hwf) & %Hc')]". iSplitR; [done|]. iExists k'.
  iFrame "Hk Hm". iSplitR; [done|]. iPureIntro. split_and!; [done| |by apply Hwf].
  destruct m as [o w]. simpl in *. subst o. apply guarantee_owner; [by right|by left].
Qed.

(** A task that has to wait for 4096. *)
Lemma contended_wf :
  @m_wf (sched_kernel 65536) (two_tasks 3 3) (Some 4096, [(16384, 8192)]).
Proof.
  split.
  - apply NoDup_singleton.
  - apply NoDup_singleton.
  - apply Forall_singleton. by exists (TInfo 3 3 3 HEV_TASK_WAITING).
  - done.
Qed.

Lemma mutex_unlock_wakes_witness :
  @m_wf (sched_kernel 65536) (two_tasks 3 3) (Some 4096, [(16384, 8192)]) /\
  (@minv (sched_kernel 65536) 40960 (45056 ↦ 7)%I (two_tasks 3 3) (Some 4096, [(16384, 8192)]) ∗
   45056 ↦ 7 ⊢ wp (hev_task_mutex_unlock 40960) (fun r => ⌞r = 0⌟ ∗ ∃ k',
    @minv (sched_kernel 65536) 40960 (45056 ↦ 7)%I k' (None, [(16384, 8192)]) ∗
    ⌞@k_current (sched_kernel 65536) k' = 4096 /\
     guarantee 4096 (Some 4096, [(16384, 8192)]) (None, [(16384, 8192)]) /\
     @k_running (sched_kernel 65536) k' 8192⌟)).
Proof.
  split; [exact contended_wf|].
  apply (@mutex_unlock_wakes (sched_kernel 65536) 40960 (45056 ↦ 7)%I 4096 (two_tasks 3 3)
           (Some 4096, [(16384, 8192)])); reflexivity.
Defined.

(** Trying to lock returns -1 and changes nothing when the mutex has an
    owner, and otherwise takes it, waiters or not, without suspending. *)
Theorem mutex_trylock_cases `{!Kernel} self R me (k : k_state) m :
  minv self R k m ⊢ wp (hev_task_mutex_trylock self) (fun r =>
    match owner m with
    | None => ⌞r = 0⌟ ∗ minv self R k (Some me, waiters m) ∗ R ∗
              ⌞guarantee me m (Some me, waiters m)⌟
    | Some _ => ⌞r = -1⌟ ∗ minv self R k m
    end).
Proof.
  iIntros "H". iApply wp_wand. iSplitL; [by iApply (wp_trylock self R me with "H")|].
  iIntros (r) "H". destruct m as [[u|] w]; simpl; [iExact "H"|].
  iDestruct "H" as "($ & $ & $)". iPureIntro. apply guarantee_owner; [by left|by right].
Qed.
