(* ===== verification/Cond.v ===== *)
(** * Cond: [src/src/kern/sync/hev-task-cond.c]

    [node] is the caller's condition node, [mnode] the node its call of
    [hev_task_mutex_lock] may use and [tnode] the timer node of
    [hev_task_sleep], all on the stack of the waiting task. *)

From S2P Require Export Prelude.
From S2P Require Export Env.
From S2P Require Export TaskBase.
From S2P Require Export Task.
From S2P Require Export Mutex.

Definition cond_waiters (self : Z) : Z := self.
Definition cnode_prev (node : Z) : Z := node.
Definition cnode_next (node : Z) : Z := node + 8.
Definition cnode_task (node : Z) : Z := node + 16.

Definition hev_task_cond_init (self : Z) : M Z :=
  store (cond_waiters self) NULL ;;;
  ret 0.

(** The common beginning of both waits: push the node. *)
Definition cond_push (self node : Z) : M unit :=
  store (cnode_prev node) NULL ;;;
  waiters <- load (cond_waiters self) ;;
  store (cnode_next node) waiters ;;;
  task <- hev_task_self ;;
  store (cnode_task node) task ;;;
  waiters <- load (cond_waiters self) ;;
  when (is_true waiters)
    (waiters <- load (cond_waiters self) ;; store (cnode_prev waiters) node) ;;;
  store (cond_waiters self) node.

Definition cond_sleep (node : Z) (_ : unit) : co (unit + unit) :=
  hev_task_yield HEV_TASK_WAITIO ~;;
  task <! load (cnode_task node) ;;
  Ret (if is_true task then inl tt else inr tt).

Definition hev_task_cond_wait (self mutex node mnode : Z) : co Z :=
  cond_push self node !;;
  hev_task_mutex_unlock mutex !;;
  co_while (cond_sleep node) tt ~;;
  hev_task_mutex_lock mutex mnode ~;;
  Ret 0.

Definition cond_timed_sleep (node tnode milliseconds : Z) : co (Z + unit) :=
  if negb (is_true milliseconds) then Ret (inr tt) else
  task <! load (cnode_task node) ;;
  if negb (is_true task) then Ret (inr tt) else
  milliseconds <~ hev_task_sleep milliseconds tnode ;;
  Ret (inl milliseconds).

(** Unlink the node of a wait that timed out. *)
Definition cond_unlink (self node : Z) : M unit :=
  prev <- load (cnode_prev node) ;;
  when (is_true prev)
    (next <- load (cnode_next node) ;; store (cnode_next prev) next) ;;;
  next <- load (cnode_next node) ;;
  when (is_true next)
    (prev <- load (cnode_prev node) ;; store (cnode_prev next) prev) ;;;
  waiters <- load (cond_waiters self) ;;
  when (waiters =? node)
    (next <- load (cnode_next node) ;; store (cond_waiters self) next).

Definition hev_task_cond_timedwait (self mutex milliseconds node mnode tnode : Z) : co Z :=
  cond_push self node !;;
  hev_task_mutex_unlock mutex !;;
  co_while (cond_timed_sleep node tnode) milliseconds ~;;
  hev_task_mutex_lock mutex mnode ~;;
  task <! load (cnode_task node) ;;
  if is_true task then cond_unlink self node !;; Ret (-1) else Ret 0.

Definition hev_task_cond_signal (self : Z) : M Z :=
  waiters <- load (cond_waiters self) ;;
  (if is_true waiters then
     task <- load (cnode_task waiters) ;;
     hev_task_wakeup task ;;;
     waiters <- load (cond_waiters self) ;;
     store (cnode_task waiters) NULL ;;;
     next <- load (cnode_next waiters) ;;
     store (cond_waiters self) next ;;;
     waiters <- load (cond_waiters self) ;;
     when (is_true waiters) (store (cnode_prev waiters) NULL)
   else ret tt) ;;;
  ret 0.

Definition broadcast_body (self : Z) (_ : unit) : M (unit + unit) :=
  waiters <- load (cond_waiters self) ;;
  if negb (is_true waiters) then ret (inr tt) else
  task <- load (cnode_task waiters) ;;
  hev_task_wakeup task ;;;
  waiters <- load (cond_waiters self) ;;
  store (cnode_task waiters) NULL ;;;
  next <- load (cnode_next waiters) ;;
  store (cond_waiters self) next ;;;
  ret (inl tt).

Definition hev_task_cond_broadcast (self : Z) : M Z :=
  while (broadcast_body self) tt ;;;
  ret 0.
