(* ===== verification/CondProps.v ===== *)
(** * CondProps: what the condition promises

    The waiters as a doubly linked stack, waiting by rely and guarantee, and the
    theorems. *)

From stdpp Require Import countable.
From S2P Require Import Prelude.
From S2P Require Import Sep.
From S2P Require Import Env.
From S2P Require Import EnvLogic.
From S2P Require Import TaskBase.
From S2P Require Import QueueSpec.
From S2P Require Import QueueProofs.
From S2P Require Import Task.
From S2P Require Import QueueProps.
From S2P Require Import Kernel.
From S2P Require Import Mutex.
From S2P Require Import MutexProofs.
From S2P Require Import MutexProps.
From S2P Require Import Cond.

(** ** The abstract condition *)

Definition cstate : Type := list (Z * Z) * list (Z * Z).

Definition cwaiting (c : cstate) : list (Z * Z) := c.1.
Definition csignalled (c : cstate) : list (Z * Z) := c.2.

Definition c_signal (c : cstate) : cstate :=
  match c with
  | ([], s) => ([], s)
  | (p :: w, s) => (w, p :: s)
  end.

Definition c_broadcast (c : cstate) : cstate := ([], reverse c.1 ++ c.2).

(** The others may signal the nodes of [me], and leave the rest to it. *)
Definition crely (me : Z) (c c' : cstate) : Prop := forall n,
  ((n, me) ∈ cwaiting c -> (n, me) ∈ cwaiting c' \/ (n, me) ∈ csignalled c') /\
  ((n, me) ∈ csignalled c -> (n, me) ∈ csignalled c').

Definition cguarantee (me : Z) (c c' : cstate) : Prop := forall u, u <> me -> crely u c c'.

Lemma crely_refl me c : crely me c c.
Proof. split; auto. Qed.

Lemma crely_trans me c1 c2 c3 : crely me c1 c2 -> crely me c2 c3 -> crely me c1 c3.
Proof.
  intros H1 H2 n. destruct (H1 n) as [Hw1 Hs1], (H2 n) as [Hw2 Hs2]. split; [|auto].
  intros H. destruct (Hw1 H) as [|]; auto.
Qed.

Lemma crely_push u c n t : crely u c ((n, t) :: cwaiting c, csignalled c).
Proof. intros x. split; [|done]. intros H. left. by right. Qed.

Lemma crely_signal u c : crely u c (c_signal c).
Proof.
  destruct c as [[|p w] s]; [apply crely_refl|]. intros n. simpl. rw !elem_of_cons. tauto.
Qed.

Lemma crely_broadcast u c : crely u c (c_broadcast c).
Proof.
  intros n. unfold c_broadcast, csignalled. simpl. rw !elem_of_app !elem_of_reverse.
  split; [by right; left|by right].
Qed.

(** Taking back what belongs to [me]. *)
Lemma cguarantee_take me w s1 s2 n : cguarantee me (w, s1 ++ (n, me) :: s2) (w, s1 ++ s2).
Proof.
  intros u Hu x. simpl. split; [by left|]. rw !elem_of_app elem_of_cons.
  assert ((x, u) <> (n, me)) by congruence. tauto.
Qed.

Lemma cguarantee_unlink me w1 w2 s n : cguarantee me (w1 ++ (n, me) :: w2, s) (w1 ++ w2, s).
Proof.
  intros u Hu x. simpl. split; [|done]. rw !elem_of_app elem_of_cons.
  assert ((x, u) <> (n, me)) by congruence. tauto.
Qed.

Lemma cguarantee_trans me c1 c2 c3 :
  cguarantee me c1 c2 -> cguarantee me c2 c3 -> cguarantee me c1 c3.
Proof. intros H1 H2 u Hu. eapply crely_trans; [by apply H1|by apply H2]. Qed.

Lemma cguarantee_refl me c : cguarantee me c c.
Proof. intros u _. apply crely_refl. Qed.

(** ** The memory of a condition *)

Definition cfirst (w : list (Z * Z)) (e : Z) : Z := match w with [] => e | p :: _ => p.1 end.
Definition clast (p : Z) (w : list (Z * Z)) : Z := default p (fst <$> last w).

(** The nodes [w] linked from [p], before [e]. *)
Fixpoint cseg (p : Z) (w : list (Z * Z)) (e : Z) : heapProp :=
  match w with
  | [] => emp%I
  | (n, t) :: w => (⌞n <> 0 /\ t <> 0⌟ ∗ cnode_prev n ↦ p ∗ cnode_next n ↦ cfirst w e ∗
                    cnode_task n ↦ t ∗ cseg n w e)%I
  end.

(** A node out of the list, whose task cell is [t]. *)
Definition cnode (n t : Z) : heapProp :=
  (⌞n <> 0⌟ ∗ (∃ x, cnode_prev n ↦ x) ∗ (∃ y, cnode_next n ↦ y) ∗ cnode_task n ↦ t)%I.

Definition is_cond (self : Z) (c : cstate) : heapProp :=
  (cond_waiters self ↦ cfirst (cwaiting c) NULL ∗ cseg NULL (cwaiting c) NULL ∗
   [∗ list] p ∈ csignalled c, cnode p.1 NULL)%I.

Definition stack_cnode (n : Z) : heapProp := (∃ t, cnode n t)%I.

Lemma cseg_heap_ge p w e : cseg p w e ⊢ heap_ge (length w).
Proof.
  revert p. induction w as [|[n t] w IH]; intros p; simpl; [apply heap_ge_0|].
  iIntros "(_ & Hp & _ & _ & Hw)". iDestruct (IH with "Hw") as "Hw".
  iDestruct (points_to_heap_ge with "Hp") as "Hp".
  change (S (length w)) with (1 + length w)%nat. iApply heap_ge_sep. iFrame.
Qed.

(** The first node's [prev]. *)
Lemma cseg_prev p q n t w e :
  cseg p ((n, t) :: w) e ⊢ cnode_prev n ↦ p ∗ (cnode_prev n ↦ q -∗ cseg q ((n, t) :: w) e).
Proof. simpl. iIntros "(%H & $ & $)". iIntros "$". done. Qed.

Lemma cseg_app p w1 w2 e :
  cseg p (w1 ++ w2) e ⊣⊢ cseg p w1 (cfirst w2 e) ∗ cseg (clast p w1) w2 e.
Proof.
  revert p. induction w1 as [|[n t] w IH]; intros p; simpl.
  - by rw left_id.
  - rw IH -!assoc. assert (clast p ((n, t) :: w) = clast n w) as ->.
    { unfold clast. destruct w as [|? ? _] using rev_ind; [done|].
      by rw app_comm_cons !last_snoc. }
    by destruct w as [|[? ?] ?].
Qed.

(** The last node's [next]. *)
Lemma cseg_next p w n t e e' :
  cseg p (w ++ [(n, t)]) e ⊢ cnode_next n ↦ e ∗ (cnode_next n ↦ e' -∗ cseg p (w ++ [(n, t)]) e').
Proof. rw !cseg_app /=. iIntros "($ & %H & $ & $ & $ & _)". iIntros "$". done. Qed.

(** A waiting node's task cell. *)
Lemma is_cond_task self c n t :
  (n, t) ∈ cwaiting c ->
  is_cond self c ⊢ ⌞t <> 0⌟ ∗ cnode_task n ↦ t ∗ (cnode_task n ↦ t -∗ is_cond self c).
Proof.
  destruct c as [w s]. intros Hin. cbn in Hin. apply list_elem_of_split in Hin as (w1 & w2 & ->).
  unfold is_cond. simpl. rw cseg_app /=. iIntros "(Hw & (H1 & %H & Hp & Hn & Ht & H2) & Hs)". iSplitR; [by destruct H|].
  iFrame. iIntros "$". done.
Qed.

(** Taking back a node that was signalled. *)
Lemma is_cond_take self w s1 n t s2 :
  is_cond self (w, s1 ++ (n, t) :: s2) ⊢ cnode n NULL ∗ is_cond self (w, s1 ++ s2).
Proof.
  unfold is_cond. simpl. rw !big_sepL_app /=. iIntros "(Hw & Hc & H1 & H & H2)". iFrame.
Qed.

Lemma is_cond_signalled self c n t :
  (n, t) ∈ csignalled c -> is_cond self c ⊢ cnode n NULL ∗
    ∃ c', is_cond self c' ∗ ⌞cguarantee t c c' /\ cwaiting c' = cwaiting c⌟.
Proof.
  destruct c as [w s]. intros Hin. cbn in Hin. apply list_elem_of_split in Hin as (s1 & s2 & ->).
  rw is_cond_take.
  iIntros "[$ H]". iExists _. iFrame. iPureIntro. split; [apply cguarantee_take|done].
Qed.

(** ** Unlinking *)

Lemma clast_snoc p w n t : clast p (w ++ [(n, t)]) = n.
Proof. unfold clast. by rw last_snoc. Qed.

Lemma cfirst_snoc w n t e e' : cfirst (w ++ [(n, t)]) e = cfirst (w ++ [(n, t)]) e'.
Proof. by destruct w as [|[? ?] ?]. Qed.

(** What follows the node is linked to what precedes it. *)
Lemma wp_relink n p w (Q : unit -> heapProp) :
  cnode_prev n ↦ p ∗ cseg n w NULL ∗ (cnode_prev n ↦ p -∗ cseg p w NULL -∗ Q tt)
  ⊢ wp (when (is_true (cfirst w NULL))
          (prev <- load (cnode_prev n) ;; store (cnode_prev (cfirst w NULL)) prev)) Q.
Proof.
  iIntros "(Hp & H & HQ)". destruct w as [|[x u] w]; simpl.
  - change (is_true NULL) with false. cbn [when]. wp_norm. by iApply ("HQ" with "Hp").
  - iDestruct "H" as "(%Hx & Hx & H)". rw (proj2 (is_true_spec x)); [|by destruct Hx].
    cbn [when]. wp_load. wp_store. iApply ("HQ" with "Hp"). by iFrame.
Qed.

(** A node is not the first of nodes it is not one of. *)
Lemma cseg_first_ne p w m u e n x :
  cseg p (w ++ [(m, u)]) e ∗ cnode_prev n ↦ x ⊢ ⌜cfirst (w ++ [(m, u)]) NULL <> n⌝.
Proof.
  destruct w as [|[k v] w]; simpl; iIntros "[(_ & Hp & _) Hx]";
    iApply (points_to_ne with "Hp Hx").
Qed.

Lemma cseg_last_nonnull p w m u e : cseg p (w ++ [(m, u)]) e ⊢ ⌜m <> 0⌝.
Proof. rw cseg_app /=. iIntros "(_ & %H & _)". iPureIntro. by destruct H. Qed.

Lemma cfirst_app w w' e : cfirst (w ++ w') e = cfirst w (cfirst w' e).
Proof. by destruct w as [|[? ?] ?]. Qed.

Lemma wp_cond_unlink self w1 n t w2 s :
  is_cond self (w1 ++ (n, t) :: w2, s)
  ⊢ wp (cond_unlink self n) (fun _ => is_cond self (w1 ++ w2, s) ∗ cnode n t).
Proof.
  unfold is_cond. simpl. rw cseg_app /=. iIntros "(Hw & (H1 & %H & Hp & Hn & Ht & H2) & Hs)".
  destruct H as [Hn0 Ht0]. unfold cond_unlink. wp_load.
  destruct w1 as [|[m u] w1 _] using rev_ind.
  - change (is_true (clast NULL [])) with false. cbn [when]. wp_load. iApply wp_bind.
    iApply wp_relink. iFrame "Hp H2". iIntros "Hp H2". simpl. wp_load. rw Z.eqb_refl.
    cbn [when]. wp_load. wp_store. iFrame. done.
  - iDestruct (cseg_first_ne _ _ _ _ _ n with "[$H1 $Hp]") as %Hne.
    iDestruct (cseg_last_nonnull with "H1") as %Hm. rw clast_snoc.
    iDestruct (cseg_next _ _ _ _ _ (cfirst w2 NULL) with "H1") as "[Hm H1]".
    rw (proj2 (is_true_spec m) Hm). cbn [when]. wp_load. wp_store.
    iDestruct ("H1" with "Hm") as "H1". wp_load. iApply wp_bind. iApply wp_relink.
    iFrame "Hp H2". iIntros "Hp H2". wp_load.
    rw !cfirst_app /= in Hne |- *.
    rw (proj2 (Z.eqb_neq _ n) Hne). cbn [when]. wp_norm. iFrame "Hw Hs Ht". rw (cseg_app _ (w1 ++ _)) clast_snoc.
    iFrame "H1 H2". iSplitR; [done|]. iSplitL "Hp"; by iExists _.
Qed.

Section cond.
Context `{!Kernel} (aux mutex : Z) (R : heapProp) (caux self : Z).
Implicit Types (k : k_state) (m : mstate) (c : cstate).

(** ** Signalling *)

Definition k_signal (c : cstate) k : k_state :=
  match cwaiting c with [] => k | p :: _ => k_wake p.2 k end.

Lemma wp_signal k c :
  Forall (k_alive k) (take 1 (cwaiting c)).*2 ->
  k_inv k ∗ is_cond self c ⊢ wp (hev_task_cond_signal self) (fun r =>
    ⌞r = 0⌟ ∗ k_inv (k_signal c k) ∗ is_cond self (c_signal c)).
Proof.
  destruct c as [[|[n t] w] s]; cbn; intros Hal; unfold is_cond; simpl;
    unfold hev_task_cond_signal; iIntros "(Hk & Hw & Hc & Hs)"; wp_load.
  { change (is_true NULL) with false. cbv iota. wp_norm. iSplitR; [done|]. iFrame. }
  iDestruct "Hc" as "(%Hnt & Hp & Hn & Ht & Hc)". destruct Hnt as [Hn Ht].
  rw (proj2 (is_true_spec n) Hn). wp_load. apply Forall_cons in Hal as [Hal _].
  iApply wp_bind. iApply wp_wand. iSplitL "Hk"; [by iApply k_wakeup|]. iIntros (_) "Hk".
  wp_load. wp_store. wp_load. wp_store. wp_load.
  iApply wp_bind. iApply (wp_wand _ (fun _ => cseg NULL w NULL)). iSplitL "Hc".
  - destruct w as [|[x u] w]; simpl.
    + change (is_true NULL) with false. cbn [when]. wp_norm. done.
    + iDestruct "Hc" as "(%Hx & Hx & Hc)". rw (proj2 (is_true_spec x)); [|by destruct Hx].
      cbn [when]. wp_store. by iFrame.
  - iIntros (_) "Hc". wp_norm. iSplitR; [done|]. iFrame "Hk Hw Hc Hs". iSplitR; [done|]. iFrame.
Qed.

(** Waking all, the first of the list first. *)
Definition k_broadcast (w : list (Z * Z)) k : k_state := foldl (fun k p => k_wake p.2 k) k w.

Lemma k_broadcast_alive w k t :
  Forall (k_alive k) w.*2 -> k_alive k t -> k_alive (k_broadcast w k) t.
Proof.
  revert k. induction w as [|[n u] w IH]; intros k Hal Ht; [done|]. simpl in *.
  apply Forall_cons in Hal as [Hu Hal]. apply IH; [|by apply k_wake_alive].
  eapply Forall_impl; [exact Hal|]. intros v Hv. by apply k_wake_alive.
Qed.

Lemma k_broadcast_running w k :
  Forall (k_alive k) w.*2 ->
  Forall (k_running (k_broadcast w k)) w.*2 /\
  (forall t, k_running k t -> k_running (k_broadcast w k) t).
Proof.
  revert k. induction w as [|[n u] w IH]; intros k Hal; [done|]. simpl in *.
  apply Forall_cons in Hal as [Hu Hal]. destruct (IH (k_wake u k)) as [Hr Hk].
  { eapply Forall_impl; [exact Hal|]. intros v Hv. by apply k_wake_alive. }
  split; [constructor; [by apply Hk, k_wake_running|exact Hr]|].
  intros t Ht. by apply Hk, k_wake_keeps.
Qed.

Lemma wp_broadcast_loop j p w s k :
  (length w < j)%nat -> Forall (k_alive k) w.*2 ->
  k_inv k ∗ cond_waiters self ↦ cfirst w NULL ∗ cseg p w NULL ∗ ([∗ list] q ∈ s, cnode q.1 NULL)
  ⊢ wp (loop j (broadcast_body self) tt) (fun _ =>
      k_inv (k_broadcast w k) ∗ is_cond self ([], reverse w ++ s)).
Proof.
  revert p w s k. induction j as [|j IH]; intros p w s k Hj Hal; [lia|].
  iIntros "(Hk & Hw & Hc & Hs)". iApply wp_loop_S. unfold broadcast_body. wp_load.
  destruct w as [|[n t] w]; simpl.
  { change (is_true NULL) with false. cbn [negb]. wp_norm. by iFrame. }
  iDestruct "Hc" as "(%Hnt & Hp & Hn & Ht & Hc)". destruct Hnt as [Hn Ht].
  rw (proj2 (is_true_spec n) Hn). cbn [negb]. wp_load. simpl in Hal.
  apply Forall_cons in Hal as [Hal Hals].
  iApply wp_bind. iApply wp_wand. iSplitL "Hk"; [by iApply k_wakeup|]. iIntros (_) "Hk".
  wp_load. wp_store. wp_load. wp_store. rw reverse_cons -app_assoc /=.
  iApply (IH n w ((n, t) :: s)); [simpl in Hj; lia| |].
  - eapply Forall_impl; [exact Hals|]. intros u Hu. by apply k_wake_alive.
  - iFrame "Hk Hw Hc Hs". iSplitR; [done|]. iFrame.
Qed.

Lemma wp_broadcast k c :
  Forall (k_alive k) (cwaiting c).*2 ->
  k_inv k ∗ is_cond self c ⊢ wp (hev_task_cond_broadcast self) (fun r =>
    ⌞r = 0⌟ ∗ k_inv (k_broadcast (cwaiting c) k) ∗ is_cond self (c_broadcast c)).
Proof.
  destruct c as [w s]. intros Hal. iIntros "(Hk & Hw & Hc & Hs)".
  unfold hev_task_cond_broadcast. iApply wp_bind. iApply (wp_while (length w)). iSplit.
  { iDestruct (cseg_heap_ge with "Hc") as "Hc". iExact "Hc". }
  iIntros (j Hj). iApply wp_wand. iSplitL.
  { iApply (wp_broadcast_loop j NULL w s k Hj Hal). iFrame. }
  iIntros (r) "[Hk Hc]". wp_norm. iSplitR; [done|]. iFrame.
Qed.

(** ** Waiting *)

Definition ctoken c : heapProp := (caux ↦ Z.pos (encode c))%I.

(** The mutex has another owner or none. *)
Definition disowned (me : Z) (o : option Z) : Prop := o <> Some me.

Lemma disowned_rely me o o' : (o = Some me <-> o' = Some me) -> disowned me o -> disowned me o'.
Proof. unfold disowned. tauto. Qed.

(** Suspending with a condition besides the mutex, which must not be the
    caller's.  [signalled] stands for the news that a signal has taken [node]
    off: it is given when the node was on the waiters when the caller was
    suspended, and is among the signalled ones when it comes back. *)
Definition cond_yield (me node : Z) (signalled : Prop) (type : Z) (K : heapProp) : heapProp :=
  (∃ c c0, is_cond self c ∗ ctoken c0 ∗ ⌞cguarantee me c0 c⌟ ∗
    mutex_yield_as aux mutex R (disowned me) me type
      (∀ c', is_cond self c' -∗ ctoken c' -∗
       ⌞crely me c c' /\ ((node, me) ∈ cwaiting c -> (node, me) ∈ csignalled c' -> signalled)⌟ -∗ K))%I.

#[export] Instance cond_yield_mono me node signalled : YieldMono (cond_yield me node signalled).
Proof.
  intros t K1 K2. iIntros "[(%c & %c0 & Hc & Ht & %Hg & H) HK]". iExists c, c0. iFrame "Hc Ht".
  iSplitR; [done|]. iApply yield_mono. iSplitL "H"; [iExact "H"|].
  iIntros "H" (c') "Hc Ht %Hr". iApply "HK". by iApply ("H" with "Hc Ht").
Qed.

(** What the mutex does with a condition around. *)
Definition cond_frame (me : Z) : heapProp :=
  (∃ c c0, is_cond self c ∗ ctoken c0 ∗ ⌞cguarantee me c0 c⌟)%I.

Lemma cond_yield_frame me node signalled t K :
  mutex_yield_as aux mutex R (disowned me) me t K ∗ cond_frame me
  ⊢ cond_yield me node signalled t (K ∗ cond_frame me).
Proof.
  iIntros "[H (%c & %c0 & Hc & Ht & %Hg)]". iExists c, c0. iFrame "Hc Ht". iSplitR; [done|].
  iApply yield_mono. iSplitL "H"; [iExact "H"|]. iIntros "$" (c') "Hc Ht %Hr".
  iExists c', c'. iFrame. iPureIntro. apply cguarantee_refl.
Qed.

Lemma wp_cond_push node k w s :
  k_inv k ∗ is_cond self (w, s) ∗ stack_cnode node ⊢ wp (cond_push self node) (fun _ =>
    k_inv k ∗ is_cond self ((node, k_current k) :: w, s)).
Proof.
  iIntros "(Hk & (Hw & Hc & Hs) & %t & %Hn & (%x & Hp) & (%y & Hx) & Ht)". simpl.
  iDestruct (k_nonnull with "Hk") as %Hne.
  unfold cond_push. wp_store. wp_load. wp_store. iApply wp_bind. iApply wp_wand.
  iSplitL "Hk"; [by iApply k_self|]. iIntros (r) "[-> Hk]". wp_store. wp_load.
  iApply wp_bind. iApply (wp_wand _ (fun _ => cond_waiters self ↦ cfirst w NULL ∗ cseg node w NULL)%I).
  iSplitL "Hw Hc".
  - destruct w as [|[n u] w]; simpl.
    + change (is_true NULL) with false. cbn [when]. wp_norm. iFrame.
    + iDestruct "Hc" as "(%Hnu & Hc)". rw (proj2 (is_true_spec n)); [|by destruct Hnu].
      cbn [when]. iDestruct "Hc" as "(Hcp & Hc)". wp_load. wp_store. by iFrame.
  - iIntros (_) "[Hw Hc]". wp_store. iFrame. done.
Qed.

(** The states of the sleeping loop: [P] tells what the condition knows of the
    caller's node. *)
Definition cond_state (me : Z) (P : cstate -> Prop) : heapProp :=
  (∃ k m m0 c c0, minv mutex R k m ∗ token aux m0 ∗ is_cond self c ∗ ctoken c0 ∗
    ⌞k_current k = me /\ (me ∉ (waiters m).*2) /\ disowned me (owner m) /\
     guarantee me m0 m /\ cguarantee me c0 c /\ P c⌟)%I.

Definition enlisted (node me : Z) (signalled : Prop) c : Prop :=
  (node, me) ∈ cwaiting c \/ (node, me) ∈ csignalled c /\ signalled.

Lemma enlisted_rely node me (signalled : Prop) c c' :
  crely me c c' -> ((node, me) ∈ cwaiting c -> (node, me) ∈ csignalled c' -> signalled) ->
  enlisted node me signalled c -> enlisted node me signalled c'.
Proof.
  intros Hr Hs [Hin|[Hin Hsig]]; [|right; by split; [apply Hr|]].
  destruct (Hr node) as [Hw _]. destruct (Hw Hin) as [|Hin']; [by left|]. right. auto.
Qed.

Lemma rely_not_waiting me m m' : rely me m m' -> me ∉ (waiters m).*2 -> me ∉ (waiters m').*2.
Proof.
  intros [_ Hw] Hni. contradict Hni. apply list_elem_of_fmap in Hni as ([n u] & -> & Hin).
  apply list_elem_of_fmap. exists (n, u). split; [done|]. by apply Hw.
Qed.

Lemma not_waiting_not_first me m : me ∉ (waiters m).*2 -> not_first me m.
Proof.
  intros Hni _. destruct (waiters m) as [|[n u] w]; [done|]. cbn in *. intros ->.
  apply Hni. by left.
Qed.

(** Suspending: all is kept, up to what the others may do. *)
Lemma cond_state_yield me node signalled (Q : unit -> heapProp) :
  let P := enlisted node me signalled in
  cond_state me P ∗ (cond_state me P -∗ Q tt) ⊢
  cwp (cond_yield me node signalled) (hev_task_yield HEV_TASK_WAITIO) Q.
Proof.
  intros P. iIntros "[(%k & %m & %m0 & %c & %c0 & (Hk & Hm & %Hwf) & Ht & Hc & Hct & %H0) HQ]".
  destruct H0 as (Hme & Hni & Hdo & Hg & Hcg & HPc). iApply k_yield. iFrame "Hk". iIntros "Hk".
  iExists c, c0. iFrame "Hc Hct". iSplitR; [done|]. iExists k, m, m0. iFrame "Ht Hk Hm".
  iSplitR; [done|]. iSplitR; [iPureIntro; split_and!; [done|done|intros _; by apply not_waiting_not_first|done]|].
  iIntros (k' m') "Hmi Ht %Hr". iIntros (c') "Hc Hct %Hcr". iApply "HQ".
  iExists k', m', m', c', c'. iFrame. iPureIntro. destruct Hr as [Hme' Hr], Hcr as [Hcr Hsig].
  split_and!; [done|by eapply rely_not_waiting|by eapply disowned_rely; [apply Hr|]|
               apply guarantee_refl|apply cguarantee_refl|by eapply enlisted_rely].
Qed.

Lemma cwp_cond_sleep me node (signalled : Prop) u :
  cond_state me (enlisted node me signalled)
  ⊢ cwp (cond_yield me node signalled) (cond_sleep node u) (fun r =>
    match r with
    | inl _ => cond_state me (enlisted node me signalled)
    | inr _ => cond_state me (fun _ => signalled) ∗ stack_cnode node
    end).
Proof.
  iIntros "H". unfold cond_sleep. iApply cwp_bind.
  iApply (cond_state_yield me node signalled). iFrame "H". iIntros "(%k & %m & %m0 & %c & %c0 & Hmi & Ht & Hc & Hct & %H0)".
  destruct H0 as (Hme & Hni & Hdo & Hg & Hcg & [Hin|[Hin Hsig]]); cbn [cwp].
  - iDestruct (is_cond_task _ _ _ _ Hin with "Hc") as "(%Hme0 & Hn & Hc)". wp_load.
    rw (proj2 (is_true_spec me) Hme0). iExists k, m, m0, c, c0. iFrame "Hmi Ht Hct".
    iSplitL; [by iApply "Hc"|]. iPureIntro. split_and!; [done..|by left].
  - rw is_cond_signalled //. iDestruct "Hc" as "[(%Hn & Hp & Hx & Hnt) (%c' & Hc & %Hg')]".
    wp_load. change (is_true NULL) with false. cbv iota. cbn [cwp]. iSplitR "Hp Hx Hnt".
    + iExists k, m, m0, c', c0. iFrame. iPureIntro. destruct Hg' as [Hg' _].
      split_and!; [done..| |done]. by eapply cguarantee_trans.
    + iExists NULL. iFrame. done.
Qed.

#[local] Opaque co_while hev_task_mutex_lock.

Lemma cwp_cond_wait me node mnode (signalled : Prop) k m m0 c c0 :
  k_current k = me -> owner m = Some me -> me ∉ (waiters m).*2 ->
  guarantee me m0 m -> cguarantee me c0 c ->
  minv mutex R k m ∗ token aux m0 ∗ R ∗ is_cond self c ∗ ctoken c0 ∗
  stack_cnode node ∗ stack_mnode mnode
  ⊢ cwp (cond_yield me node signalled) (hev_task_cond_wait self mutex node mnode) (fun r =>
      ⌞r = 0 /\ signalled⌟ ∗ R ∗ stack_cnode node ∗ stack_mnode mnode ∗
      ∃ k' m' m1 c' c1, minv mutex R k' m' ∗ token aux m1 ∗ is_cond self c' ∗ ctoken c1 ∗
      ⌞owner m' = Some me /\ k_current k' = me /\ (me ∉ (waiters m').*2) /\
       guarantee me m1 m' /\ cguarantee me c1 c'⌟).
Proof.
  destruct m as [o w]. simpl. intros Hme Ho Hni Hg Hcg. subst o.
  iIntros "((Hk & Hm & %Hwf) & Ht & HR & Hc & Hct & Hn & Hmn)".
  unfold hev_task_cond_wait. cbn [cwp]. destruct c as [cw s]. iApply wp_wand.
  iSplitL "Hk Hc Hn"; [iApply wp_cond_push; iFrame|]. iIntros (_) "[Hk Hc]". rw Hme.
  iApply wp_wand. iSplitL "Hk Hm HR".
  { iApply (wp_unlock mutex R me k (Some me, w)); [done|done|]. by iFrame. }
  iIntros (r) "[_ (%k' & Hmi & %Hme')]".
  iApply cwp_bind. iApply (cwp_wand _ _ (fun _ => cond_state me (fun _ => signalled) ∗ stack_cnode node)%I).
  iSplitR "Hmn".
  - iApply (cwp_while _ _ (fun _ => cond_state me (enlisted node me signalled)) tt);
      [intros u; apply cwp_cond_sleep|].
    iExists k', _, m0, _, c0. iFrame. iPureIntro. split_and!; [done|done|done| | |by left; left].
    + eapply guarantee_trans; [exact Hg|]. apply guarantee_owner; [by right|by left].
    + eapply cguarantee_trans; [exact Hcg|]. intros u _. apply (crely_push u (cw, s)).
  - iIntros (_) "[(%k1 & %m1 & %m2 & %c1 & %c2 & Hmi & Ht & Hc & Hct & %H0) Hn]".
    destruct H0 as (Hme1 & Hni1 & Hdo1 & Hg1 & Hcg1 & Hsig). iApply cwp_bind.
    iApply (cwp_wand _ _ (fun r => _ ∗ cond_frame me)%I). iSplitR "Hn".
    + iApply cwp_frame_yield; [intros t K; apply cond_yield_frame|]. iSplitR "Hc Hct".
      * iApply (cwp_lock_as aux mutex R (disowned me) me (disowned_rely me) mnode k1 m1 m2);
          [done..|]. iFrame.
      * iExists c1, c2. by iFrame.
    + iIntros (r') "[(_ & HR & Hmn & %k3 & %m3 & %m4 & Hmi & Ht & %H3) (%c3 & %c4 & Hc & Hct & %Hcg3)]".
      cbn [cwp]. iSplitR; [done|]. iFrame "HR Hn Hmn". iExists k3, m3, m4, c3, c4. iFrame.
      iPureIntro. destruct H3 as (? & ? & ? & ?). done.
Qed.
End cond.

(** C11. A task that waits for a condition with the mutex in its hands is never
    suspended while it owns the mutex: it has given the mutex and its resource
    up.  It returns 0 with both back, and only after its node, which was on
    the waiters when the task slept, has been taken off by a signal (the
    proposition [signalled] can be had in no other way): a wakeup for any
    other reason makes it sleep again.  The others may do anything with the
    mutex and the condition meanwhile that keeps their guarantees, the caller
    keeps its own at every suspension, and both nodes are its own again at the
    end. *)
Theorem cond_wait_contract `{!Kernel} aux mutex R caux self me node mnode (signalled : Prop)
    (k : k_state) m m0 c c0 :
  k_current k = me -> owner m = Some me -> me ∉ (waiters m).*2 ->
  guarantee me m0 m -> cguarantee me c0 c ->
  {{{ minv mutex R k m ∗ token aux m0 ∗ R ∗ is_cond self c ∗ ctoken caux c0 ∗
      stack_cnode node ∗ stack_mnode mnode }}}
    hev_task_cond_wait self mutex node mnode @ (cond_yield aux mutex R caux self me node signalled)
  {{{ r, ⌞r = 0 /\ signalled⌟ ∗ R ∗ stack_cnode node ∗ stack_mnode mnode ∗
      ∃ k' m' m1 c' c1, minv mutex R k' m' ∗ token aux m1 ∗ is_cond self c' ∗ ctoken caux c1 ∗
      ⌞owner m' = Some me /\ k_current k' = me /\ (me ∉ (waiters m').*2) /\
       guarantee me m1 m' /\ cguarantee me c1 c'⌟ }}}.
Proof. apply cwp_cond_wait. Qed.

Lemma cond_wait_contract_witness :
  @ctriple Z (@cond_yield (sched_kernel 65536) 1 40960 (45056 ↦ 7)%I 2 49152 4096 53248 True)
    (@minv (sched_kernel 65536) 40960 (45056 ↦ 7)%I (two_tasks 3 3) (Some 4096, [(16384, 8192)]) ∗
     token 1 (Some 4096, [(16384, 8192)]) ∗ 45056 ↦ 7 ∗ is_cond 49152 ([], []) ∗
     ctoken 2 ([], []) ∗ stack_cnode 53248 ∗ stack_mnode 57344)%I
    (hev_task_cond_wait 49152 40960 53248 57344)
    (fun r => ⌞r = 0 /\ True⌟ ∗ 45056 ↦ 7 ∗ stack_cnode 53248 ∗ stack_mnode 57344 ∗
      ∃ k' m' m1 c' c1, @minv (sched_kernel 65536) 40960 (45056 ↦ 7)%I k' m' ∗ token 1 m1 ∗
      is_cond 49152 c' ∗ ctoken 2 c1 ∗
      ⌞owner m' = Some 4096 /\ @k_current (sched_kernel 65536) k' = 4096 /\
       (4096 ∉ (waiters m').*2) /\ guarantee 4096 m1 m' /\ cguarantee 4096 c1 c'⌟)%I.
Proof.
  apply (@cond_wait_contract (sched_kernel 65536) 1 40960 (45056 ↦ 7)%I 2 49152 4096 53248 57344 True
           (two_tasks 3 3) (Some 4096, [(16384, 8192)]) (Some 4096, [(16384, 8192)]) ([], []) ([], [])).
  - reflexivity.
  - reflexivity.
  - apply (bool_decide_unpack _). by vm_compute.
  - apply guarantee_refl.
  - apply cguarantee_refl.
Defined.

(** C27. Signalling takes the newest waiter off the condition, clears the task
    of its node, and leaves that task running; with no waiter it does nothing. *)
Theorem cond_signal_newest `{!Kernel} self (k : k_state) c :
  Forall (k_alive k) (take 1 (cwaiting c)).*2 ->
  k_inv k ∗ is_cond self c ⊢ wp (hev_task_cond_signal self) (fun r => ⌞r = 0⌟ ∗
    ∃ k', k_inv k' ∗ is_cond self (c_signal c) ∗
    ⌞match cwaiting c with [] => k' = k | p :: _ => k_running k' p.2 end /\
     k_current k' = k_current k /\ forall u, crely u c (c_signal c)⌟).
Proof.
  intros Hal. iIntros "H". iApply wp_wand. iSplitL; [by iApply (wp_signal with "H")|].
  iIntros (r) "($ & Hk & $)". iExists _. iFrame. iPureIntro.
  destruct c as [[|[n t] w] s]; cbn in *; split_and!; try done; try (intros u; apply crely_signal).
  - apply Forall_cons in Hal as [Hal _]. by apply k_wake_running.
  - apply k_wake_current.
Qed.

Lemma cond_signal_newest_witness :
  @k_inv (sched_kernel 65536) (two_tasks 3 3) ∗ is_cond 49152 ([(53248, 8192)], []) ⊢
    wp (hev_task_cond_signal 49152) (fun r => ⌞r = 0⌟ ∗
    ∃ k', @k_inv (sched_kernel 65536) k' ∗ is_cond 49152 ([], [(53248, 8192)]) ∗
    ⌞@k_running (sched_kernel 65536) k' 8192 /\ @k_current (sched_kernel 65536) k' = 4096 /\
     forall u, crely u ([(53248, 8192)], []) ([], [(53248, 8192)])⌟).
Proof.
  apply (@cond_signal_newest (sched_kernel 65536) 49152 (two_tasks 3 3) ([(53248, 8192)], [])).
  apply Forall_singleton. by exists (TInfo 3 3 3 HEV_TASK_WAITING).
Defined.

(** C28. A broadcast leaves no waiter on the condition, clears the task of every
    node, and leaves every task that waited running. *)
Theorem cond_broadcast_all `{!Kernel} self (k : k_state) c :
  Forall (k_alive k) (cwaiting c).*2 ->
  k_inv k ∗ is_cond self c ⊢ wp (hev_task_cond_broadcast self) (fun r => ⌞r = 0⌟ ∗
    ∃ k', k_inv k' ∗ is_cond self ([], reverse (cwaiting c) ++ csignalled c) ∗
    ⌞Forall (k_running k') (cwaiting c).*2 /\ (forall t, k_running k t -> k_running k' t) /\
     forall u, crely u c (c_broadcast c)⌟).
Proof.
  intros Hal. iIntros "H". iApply wp_wand. iSplitL; [by iApply (wp_broadcast with "H")|].
  iIntros (r) "($ & Hk & $)". iExists _. iFrame. iPureIntro.
  destruct (k_broadcast_running _ _ Hal) as [Hr Hk]. split_and!; [done|done|].
  intros u. apply crely_broadcast.
Qed.

Lemma cond_broadcast_all_witness :
  @k_inv (sched_kernel 65536) (two_running 20 3) ∗
  is_cond 49152 ([(53248, 8192); (57344, 4096)], []) ⊢
    wp (hev_task_cond_broadcast 49152) (fun r => ⌞r = 0⌟ ∗
    ∃ k', @k_inv (sched_kernel 65536) k' ∗ is_cond 49152 ([], [(57344, 4096); (53248, 8192)]) ∗
    ⌞Forall (@k_running (sched_kernel 65536) k') [8192; 4096] /\
     (forall t, @k_running (sched_kernel 65536) (two_running 20 3) t ->
        @k_running (sched_kernel 65536) k' t) /\
     forall u, crely u ([(53248, 8192); (57344, 4096)], []) ([], [(57344, 4096); (53248, 8192)])⌟).
Proof.
  apply (@cond_broadcast_all (sched_kernel 65536) 49152 (two_running 20 3)
           ([(53248, 8192); (57344, 4096)], [])).
  repeat constructor; by eexists.
Defined.

(** A wait that timed out unlinks its own node, wherever in the list it is,
    keeps the order of the others, and has its node back. *)
Theorem cond_unlink_removes self w1 n t w2 s :
  {{{ is_cond self (w1 ++ (n, t) :: w2, s) }}}
    cond_unlink self n
  {{{ _, is_cond self (w1 ++ w2, s) ∗ cnode n t }}}.
Proof. apply triple_wp. apply wp_cond_unlink. Qed.
