(* ===== verification/Channel.v ===== *)
(** * Channel: [src/src/kern/itc], channels and their selector

    A channel is one of two connected end points; each has a ring of
    [max_count] buffers that its peer writes to.  A channel made without
    buffers has a ring of one slot that holds the writer's pointer. *)

From S2P Require Export Prelude.
From S2P Require Export Env.
From S2P Require Export Dll.
From S2P Require Export Mem.
From S2P Require Export TaskBase.
From S2P Require Export Task.

(** ** [struct _HevTaskChannel] *)

Definition chan_peer (c : Z) : Z := c.
Definition chan_read_node (c : Z) : Z := c + 8.
Definition chan_read_used (c : Z) : Z := c + 24.
Definition chan_write_node (c : Z) : Z := c + 32.
Definition chan_write_used (c : Z) : Z := c + 48.
Definition chan_chan_node (c : Z) : Z := c + 56.
Definition chan_task (c : Z) : Z := c + 72.
Definition chan_select (c : Z) : Z := c + 80.
Definition chan_rd_idx (c : Z) : Z := c + 88.
Definition chan_wr_idx (c : Z) : Z := c + 92.
Definition chan_max_size (c : Z) : Z := c + 96.
Definition chan_use_count (c : Z) : Z := c + 100.
Definition chan_max_count (c : Z) : Z := c + 104.
Definition chan_ref_count (c : Z) : Z := c + 108.
Definition chan_buffers (c : Z) : Z := c + 112.
Definition SIZEOF_CHANNEL : Z := 112.

(** [struct _HevTaskChannelBuffer] *)
Definition SIZEOF_CHANNEL_BUFFER : Z := 16.
Definition cbuf_at (c i : Z) : Z := chan_buffers c + SIZEOF_CHANNEL_BUFFER * i.
Definition cbuf_size (b : Z) : Z := b.
Definition cbuf_data (b : Z) : Z := b + 8.

(** [struct _HevTaskChannelSelect] *)
Definition sel_task (s : Z) : Z := s.
Definition sel_chan_list (s : Z) : Z := s + 8.
Definition sel_read_list (s : Z) : Z := s + 24.
Definition sel_write_list (s : Z) : Z := s + 40.
Definition SIZEOF_SELECT : Z := 56.

Definition hev_task_channel_is_active (self : Z) : M bool :=
  peer <- load (chan_peer self) ;; ret (negb (peer =? NULL)).

Definition hev_task_channel_is_readable (self : Z) : M bool :=
  use_count <- load (chan_use_count self) ;; ret (negb (use_count =? 0)).

Definition hev_task_channel_is_writable (peer : Z) : M bool :=
  use_count <- load (chan_use_count peer) ;;
  max_count <- load (chan_max_count peer) ;;
  ret (use_count <? max_count).

Definition hev_task_channel_is_select_writable (peer : Z) : M bool :=
  use_count <- load (chan_use_count peer) ;;
  max_count <- load (chan_max_count peer) ;;
  ret (use_count <? w32 (max_count - 1)).

(** ** The lists of ready channels *)

Definition hev_task_channel_select_add_read (self chan : Z) : M unit :=
  used <- load (chan_read_used chan) ;;
  if is_true used then ret tt else
  store (chan_read_used chan) 1 ;;;
  hev_list_add_tail (sel_read_list self) (chan_read_node chan).

Definition hev_task_channel_select_del_read (self chan : Z) : M unit :=
  used <- load (chan_read_used chan) ;;
  if negb (is_true used) then ret tt else
  store (chan_read_used chan) 0 ;;;
  hev_list_del (sel_read_list self) (chan_read_node chan).

Definition hev_task_channel_select_add_write (self chan : Z) : M unit :=
  used <- load (chan_write_used chan) ;;
  if is_true used then ret tt else
  store (chan_write_used chan) 1 ;;;
  hev_list_add_tail (sel_write_list self) (chan_write_node chan).

Definition hev_task_channel_select_del_write (self chan : Z) : M unit :=
  used <- load (chan_write_used chan) ;;
  if negb (is_true used) then ret tt else
  store (chan_write_used chan) 0 ;;;
  hev_list_del (sel_write_list self) (chan_write_node chan).

(** ** Life cycle *)

Fixpoint init_buffers (c1 c2 buffers_size size : Z) (l : list Z) : M unit :=
  match l with
  | [] => ret tt
  | i :: l =>
      store (cbuf_data (cbuf_at c1 i)) (chan_buffers c1 + buffers_size + w32 (size * i)) ;;;
      store (cbuf_data (cbuf_at c2 i)) (chan_buffers c2 + buffers_size + w32 (size * i)) ;;;
      init_buffers c1 c2 buffers_size size l
  end.

(** The fields of a [HevTaskChannel], as [__builtin_bzero] clears them. *)
Definition channel_fields (c : Z) : list Z :=
  [chan_peer c; list_next (chan_read_node c); list_prev (chan_read_node c); chan_read_used c;
   list_next (chan_write_node c); list_prev (chan_write_node c); chan_write_used c;
   list_next (chan_chan_node c); list_prev (chan_chan_node c); chan_task c; chan_select c;
   chan_rd_idx c; chan_wr_idx c; chan_max_size c; chan_use_count c; chan_max_count c;
   chan_ref_count c].

Definition channel_init (c peer size buffers : Z) : M unit :=
  memset0 c SIZEOF_CHANNEL ;;;
  store (chan_peer c) peer ;;;
  store (chan_max_size c) size ;;;
  store (chan_max_count c) buffers ;;;
  store (chan_ref_count c) 1.

Definition hev_task_channel_new_with_buffers (chan1 chan2 size buffers : Z) : co Z :=
  let buffers := w32 (buffers + 1) in
  let data_size := if 1 <? buffers then w32 (size * buffers) else 0 in
  let buffers_size := w32 (SIZEOF_CHANNEL_BUFFER * buffers) in
  c1 <~ hev_malloc (SIZEOF_CHANNEL + buffers_size + data_size) ;;
  if negb (is_true c1) then Ret (-1) else
  c2 <~ hev_malloc (SIZEOF_CHANNEL + buffers_size + data_size) ;;
  if negb (is_true c2) then hev_free c1 ~;; Ret (-1) else
  channel_init c1 c2 size buffers !;;
  channel_init c2 c1 size buffers !;;
  (if 1 <? buffers then init_buffers c1 c2 buffers_size size (zrange 0 buffers) else ret tt) !;;
  store chan1 c1 !;;
  store chan2 c2 !;;
  Ret 0.

Definition hev_task_channel_new (chan1 chan2 : Z) : co Z :=
  hev_task_channel_new_with_buffers chan1 chan2 0 0.

Definition hev_task_channel_ref (self : Z) : M unit :=
  rc <- load (chan_ref_count self) ;;
  store (chan_ref_count self) (w32 (rc + 1)).

Definition hev_task_channel_unref (self : Z) : co unit :=
  rc <! load (chan_ref_count self) ;;
  store (chan_ref_count self) (w32 (rc - 1)) !;;
  rc <! load (chan_ref_count self) ;;
  if is_true rc then Ret tt else hev_free self.

(** Wake the task recorded in a channel, if any. *)
Definition chan_wakeup (chan : Z) : M unit :=
  task <- load (chan_task chan) ;;
  when (is_true task) (task <- load (chan_task chan) ;; hev_task_wakeup task).

Definition hev_task_channel_destroy (self : Z) : co unit :=
  peer <! load (chan_peer self) ;;
  when (is_true peer)
    (peer <- load (chan_peer self) ;;
     store (chan_peer peer) NULL ;;;
     peer <- load (chan_peer self) ;;
     chan_wakeup peer) !;;
  chan_wakeup self !;;
  hev_task_channel_unref self.

(** ** Reading and writing *)

Fixpoint copy_cells (dst src : Z) (l : list Z) : M unit :=
  match l with
  | [] => ret tt
  | i :: l => v <- load (src + i) ;; store (dst + i) v ;;; copy_cells dst src l
  end.

(** The word-sized cases of the [switch] copy the same bytes. *)
Definition hev_task_channel_data_copy (dst src size : Z) : M Z :=
  copy_cells dst src (zrange 0 size) ;;;
  ret (s64 size).

(** Wait until [ready], giving up with [inr false] when the peer is gone. *)
Definition channel_wait (self : Z) (ready : M bool) (_ : unit) : co (unit + bool) :=
  b <! ready ;;
  if b : bool then Ret (inr true) else
  active <! hev_task_channel_is_active self ;;
  if negb active then Ret (inr false) else
  task <! hev_task_self ;;
  store (chan_task self) task !;;
  hev_task_yield HEV_TASK_WAITIO ~;;
  store (chan_task self) NULL !;;
  Ret (inl tt).

(** Take the next buffer: what [hev_task_channel_read] does when it is
    readable, up to the end. *)
Definition channel_take (self buffer count : Z) : M Z :=
  rd_idx <- load (chan_rd_idx self) ;;
  let cbuf := cbuf_at self rd_idx in
  max_count <- load (chan_max_count self) ;;
  store (chan_rd_idx self) (w32 (rd_idx + 1) mod max_count) ;;;
  cbuf_sz <- load (cbuf_size cbuf) ;;
  let size := if cbuf_sz <? count then cbuf_sz else count in
  data <- load (cbuf_data cbuf) ;;
  size <- hev_task_channel_data_copy buffer data size ;;
  use_count <- load (chan_use_count self) ;;
  max_count <- load (chan_max_count self) ;;
  when (use_count =? max_count)
    (peer <- load (chan_peer self) ;;
     when (is_true peer)
       (select <- load (chan_select peer) ;;
        when (is_true select) (hev_task_channel_select_add_write select peer) ;;;
        chan_wakeup peer)) ;;;
  use_count <- load (chan_use_count self) ;;
  store (chan_use_count self) (w32 (use_count - 1)) ;;;
  select <- load (chan_select self) ;;
  (if is_true select then
     readable <- hev_task_channel_is_readable self ;;
     when (negb readable) (hev_task_channel_select_del_read select self)
   else ret tt) ;;;
  ret size.

Definition hev_task_channel_read (self buffer count : Z) : co Z :=
  ok <~ co_while (channel_wait self (hev_task_channel_is_readable self)) tt ;;
  if ok : bool then act (channel_take self buffer count) else Ret (-1).

(** Fill the next buffer of the peer. *)
Definition channel_put (self peer buffer count : Z) : M Z :=
  wr_idx <- load (chan_wr_idx peer) ;;
  let cbuf := cbuf_at peer wr_idx in
  max_count <- load (chan_max_count peer) ;;
  store (chan_wr_idx peer) (w32 (wr_idx + 1) mod max_count) ;;;
  let size := s64 count in
  max_count <- load (chan_max_count peer) ;;
  size <-
    (if max_count =? 1 then store (cbuf_data cbuf) buffer ;;; ret size
     else
       max_size <- load (chan_max_size self) ;;
       let size := if max_size <? size then max_size else size in
       data <- load (cbuf_data cbuf) ;;
       hev_task_channel_data_copy data buffer (w64 size)) ;;
  store (cbuf_size cbuf) (w64 size) ;;;
  use_count <- load (chan_use_count peer) ;;
  when (use_count =? 0)
    (select <- load (chan_select peer) ;;
     when (is_true select) (hev_task_channel_select_add_read select peer) ;;;
     chan_wakeup peer) ;;;
  use_count <- load (chan_use_count peer) ;;
  store (chan_use_count peer) (w32 (use_count + 1)) ;;;
  select <- load (chan_select self) ;;
  (if is_true select then
     writable <- hev_task_channel_is_select_writable peer ;;
     when (negb writable) (hev_task_channel_select_del_write select self)
   else ret tt) ;;;
  ret size.

Definition hev_task_channel_write (self buffer count : Z) : co Z :=
  peer <! load (chan_peer self) ;;
  if negb (is_true peer) then Ret (-1) else
  hev_task_channel_ref peer !;;
  ok <~ co_while (channel_wait self (hev_task_channel_is_writable peer)) tt ;;
  size <~ (if ok : bool then
             size <! channel_put self peer buffer count ;;
             ok <~ co_while (channel_wait self (hev_task_channel_is_writable peer)) tt ;;
             Ret (if ok : bool then size else -1)
           else Ret (-1)) ;;
  hev_task_channel_unref peer ~;;
  Ret size.

(** ** [hev-task-channel-select.c] *)

Definition hev_task_channel_select_new : co Z := hev_malloc0 SIZEOF_SELECT.

Definition hev_task_channel_select_destroy (self : Z) : co unit := hev_free self.

Definition hev_task_channel_select_add (self chan : Z) : M unit :=
  store (chan_select chan) self ;;;
  task <- hev_task_self ;;
  store (chan_task chan) task ;;;
  hev_list_add_tail (sel_chan_list self) (chan_chan_node chan) ;;;
  readable <- hev_task_channel_is_readable chan ;;
  when readable (hev_task_channel_select_add_read self chan) ;;;
  peer <- load (chan_peer chan) ;;
  (if is_true peer then
     writable <- hev_task_channel_is_select_writable peer ;;
     when writable (hev_task_channel_select_add_write self chan)
   else ret tt).

Definition hev_task_channel_select_del (self chan : Z) : M unit :=
  hev_task_channel_select_del_read self chan ;;;
  hev_task_channel_select_del_write self chan ;;;
  hev_list_del (sel_chan_list self) (chan_chan_node chan) ;;;
  store (chan_task chan) NULL ;;;
  store (chan_select chan) NULL.

Definition select_body (list timeout tnode milliseconds : Z) : co (Z + Z) :=
  node <! hev_list_first list ;;
  if is_true node then Ret (inr node) else
  if negb (is_true milliseconds) then Ret (inr node) else
  milliseconds <~ (if timeout <? 0 then hev_task_yield HEV_TASK_WAITIO ~;; Ret milliseconds
                   else hev_task_sleep milliseconds tnode) ;;
  Ret (inl milliseconds).

Definition hev_task_channel_select (self list timeout tnode : Z) : co Z :=
  let milliseconds := w32 timeout in
  first <! hev_list_first (sel_chan_list self) ;;
  if negb (is_true first) then Ret NULL else
  co_while (select_body list timeout tnode) milliseconds.

Definition hev_task_channel_select_read (self timeout tnode : Z) : co Z :=
  node <~ hev_task_channel_select self (sel_read_list self) timeout tnode ;;
  if negb (is_true node) then Ret NULL else Ret (node - 8).

Definition hev_task_channel_select_write (self timeout tnode : Z) : co Z :=
  node <~ hev_task_channel_select self (sel_write_list self) timeout tnode ;;
  if negb (is_true node) then Ret NULL else Ret (node - 32).
