(* ===== verification/ChannelProofs.v ===== *)
(** * ChannelProofs: the ring of a channel as a queue of messages

    The channels are those with buffers, two slots or more, that no selector
    watches. *)

From S2P Require Import Prelude.
From S2P Require Import Sep.
From S2P Require Import Env.
From S2P Require Import EnvLogic.
From S2P Require Import Bytes.
From S2P Require Import TaskBase.
From S2P Require Import Task.
From S2P Require Import Kernel.
From S2P Require Import Channel.

(** ** Copying *)

Lemma wp_copy_cells dst src o vs ws (Q : unit -> heapProp) :
  length ws = length vs ->
  bytes (dst + o) ws ∗ bytes (src + o) vs ∗ (bytes (dst + o) vs -∗ bytes (src + o) vs -∗ Q tt)
  ⊢ wp (copy_cells dst src (zrange o (Z.of_nat (length vs)))) Q.
Proof.
  revert o ws Q. induction vs as [|v vs IH]; intros o [|w ws] Q Hlen; try done; cbn [bytes length].
  - unfold zrange. rw seqZ_nil; [|lia]. iIntros "(Hd & Hs & HQ)". cbn [copy_cells]. wp_norm.
    by iApply ("HQ" with "Hd Hs").
  - unfold zrange. rw seqZ_cons; [|lia]. cbn [copy_cells]. iIntros "((Hd & Hds) & (Hs & Hss) & HQ)".
    wp_load. wp_store. replace (Z.pred _) with (Z.of_nat (length vs)) by lia.
    rw -!Z.add_assoc. iApply (IH (o + 1) ws); [by injection Hlen|]. iFrame "Hds Hss".
    change (Z.succ o) with (o + 1). iIntros "Hds Hss". iApply ("HQ" with "[$Hd $Hds] [$Hs $Hss]").
Qed.

(** Copying [n] bytes over the first of a buffer. *)
Lemma wp_data_copy dst src n vs old (Q : Z -> heapProp) :
  (n <= length vs)%nat -> (n <= length old)%nat -> Z.of_nat n < 2 ^ 63 ->
  bytes dst old ∗ bytes src vs ∗
  (bytes dst (take n vs ++ drop n old) -∗ bytes src vs -∗ Q (Z.of_nat n))
  ⊢ wp (hev_task_channel_data_copy dst src (Z.of_nat n)) Q.
Proof.
  intros Hv Ho Hn. unfold hev_task_channel_data_copy. rw (bytes_split n dst old) // (bytes_split n src vs) //.
  iIntros "([Hd Hd'] & [Hs Hs'] & HQ)". iApply wp_bind.
  assert (zrange 0 (Z.of_nat n) = zrange 0 (Z.of_nat (length (take n vs)))) as ->.
  { by rw length_take_le. }
  iApply (wp_copy_cells dst src 0 (take n vs) (take n old)); [by rw !length_take_le|].
  rw !Z.add_0_r. iFrame "Hd Hs". iIntros "Hd Hs". wp_norm. rw s64_small; [|lia].
  iApply ("HQ" with "[Hd Hd'] [Hs Hs']").
  - rw bytes_app length_take_le //. iFrame.
  - iFrame.
Qed.

(** ** Rings of messages *)

(** [rg_max] slots of [rg_size] bytes; the messages, the oldest first, start in
    the slot [rg_rd]. *)
Record ring : Type := Ring { rg_max : Z; rg_size : Z; rg_rd : Z; rg_q : list (list Z) }.

Definition rg_count (r : ring) : Z := Z.of_nat (length (rg_q r)).
Definition rg_wr (r : ring) : Z := (rg_rd r + rg_count r) mod rg_max r.

(** The message in slot [i]. *)
Definition content (r : ring) (i : Z) : option (list Z) :=
  rg_q r !! Z.to_nat ((i - rg_rd r) mod rg_max r).

Definition r_put (msg : list Z) (r : ring) : ring :=
  Ring (rg_max r) (rg_size r) (rg_rd r) (rg_q r ++ [msg]).

Definition r_take (r : ring) : ring :=
  Ring (rg_max r) (rg_size r) ((rg_rd r + 1) mod rg_max r) (tail (rg_q r)).

(** A message is cut to what a slot holds. *)
Definition r_cut (r : ring) (data : list Z) : list Z := take (Z.to_nat (rg_size r)) data.

Record ring_wf (r : ring) : Prop := {
  rw_max : 2 <= rg_max r < 2 ^ 32;
  rw_size : 0 <= rg_size r < 2 ^ 32;
  rw_rd : 0 <= rg_rd r < rg_max r;
  rw_count : rg_count r <= rg_max r;
  rw_msgs : Forall (fun msg => Z.of_nat (length msg) <= rg_size r) (rg_q r)
}.

Lemma count_nonneg r : 0 <= rg_count r.
Proof. unfold rg_count. lia. Qed.

Lemma put_wf msg r :
  ring_wf r -> rg_count r < rg_max r -> Z.of_nat (length msg) <= rg_size r -> ring_wf (r_put msg r).
Proof.
  intros [] Hc Hm. split; simpl; try done.
  - unfold rg_count in *. simpl. rw length_app /=. lia.
  - apply Forall_app. split; [done|by constructor].
Qed.

Lemma take_wf r : ring_wf r -> ring_wf (r_take r).
Proof.
  intros []. split; simpl; try done.
  - apply Z.mod_pos_bound. lia.
  - unfold rg_count, r_take in *. cbn [rg_q rg_max] in *. destruct (rg_q r); cbn [length tail] in *; lia.
  - destruct (rg_q r); simpl; [done|]. by eapply Forall_inv_tail.
Qed.

Lemma wr_range r : ring_wf r -> 0 <= rg_wr r < rg_max r.
Proof. intros []. apply Z.mod_pos_bound. lia. Qed.

Lemma mod_shift x m : - m <= x < 0 -> x mod m = x + m.
Proof. intros H. rw -(Z.mod_add x 1 m); [|lia]. rw Z.mul_1_l. apply Z.mod_small. lia. Qed.

(** The distance of slot [i] from a position. *)
Lemma slot_distance i p m : 0 <= i < m -> 0 <= p < m ->
  (i - p) mod m = if decide (p <= i) then i - p else i - p + m.
Proof. intros Hi Hp. case_decide; [apply Z.mod_small|apply mod_shift]; lia. Qed.

Lemma content_put_same msg r :
  ring_wf r -> rg_count r < rg_max r -> content (r_put msg r) (rg_wr r) = Some msg.
Proof.
  intros [] Hc. unfold content, r_put. simpl.
  assert ((rg_wr r - rg_rd r) mod rg_max r = rg_count r) as ->.
  { unfold rg_wr, rg_count in *. rw Zminus_mod_idemp_l.
    replace (_ + _ - _) with (Z.of_nat (length (rg_q r))) by lia. apply Z.mod_small. lia. }
  unfold rg_count. rw Nat2Z.id. by apply list_lookup_middle.
Qed.

Lemma content_put_other msg r i :
  ring_wf r -> 0 <= i < rg_max r -> i <> rg_wr r -> content (r_put msg r) i = content r i.
Proof.
  intros [] Hi Hne. unfold content, r_put. simpl.
  assert (0 <= (i - rg_rd r) mod rg_max r < rg_max r) as Hr by (apply Z.mod_pos_bound; lia).
  set (j := (i - rg_rd r) mod rg_max r) in *.
  destruct (decide (j < rg_count r)) as [Hj|Hj]; unfold rg_count in *.
  - apply lookup_app_l. lia.
  - rw (lookup_ge_None_2 (rg_q r)); [|lia]. apply lookup_ge_None. rw length_app /=.
    destruct (decide (j = rg_count r)) as [Heq|]; unfold rg_count in *; [|lia]. exfalso. apply Hne.
    unfold rg_wr, rg_count. rw -Heq. unfold j. rw Zplus_mod_idemp_r.
    replace (_ + _) with i by lia. symmetry. by apply Z.mod_small.
Qed.

Lemma content_take_other msg q r i :
  ring_wf r -> rg_q r = msg :: q -> 0 <= i < rg_max r -> i <> rg_rd r ->
  content (r_take r) i = content r i.
Proof.
  intros [] Hq Hi Hne. unfold content, r_take. simpl. rw Hq. simpl.
  rw Zminus_mod_idemp_r. rw (slot_distance i (rg_rd r)) //.
  assert ((i - (rg_rd r + 1)) mod rg_max r =
          (if decide (rg_rd r <= i) then i - rg_rd r else i - rg_rd r + rg_max r) - 1) as ->.
  { case_decide; [rw Z.mod_small|rw mod_shift]; lia. }
  set (j := if decide _ then _ else _). assert (0 < j) by (unfold j; case_decide; lia).
  replace (Z.to_nat j) with (S (Z.to_nat (j - 1))) by lia. done.
Qed.

Lemma content_take_same msg q r :
  ring_wf r -> rg_q r = msg :: q -> content r (rg_rd r) = Some msg /\ content (r_take r) (rg_rd r) = None.
Proof.
  intros [] Hq. unfold content, r_take. simpl. rw Hq Z.sub_diag Zminus_mod_idemp_r. simpl. split; [done|].
  replace (rg_rd r - (rg_rd r + 1)) with (-1) by lia.
  assert ((-1) mod rg_max r = rg_max r - 1) as -> by (rw mod_shift; lia).
  apply lookup_ge_None. unfold rg_count in *. rw Hq in rw_count0. simpl in *. lia.
Qed.

(** ** The memory of a ring *)

Definition slot_data (c : Z) (r : ring) (i : Z) : Z :=
  chan_buffers c + SIZEOF_CHANNEL_BUFFER * rg_max r + rg_size r * i.

Definition slot (b d size : Z) (o : option (list Z)) : heapProp :=
  (∃ sz data, cbuf_size b ↦ sz ∗ cbuf_data b ↦ d ∗ bytes d data ∗
    ⌞Z.of_nat (length data) = size /\
     match o with
     | Some msg => sz = Z.of_nat (length msg) /\ take (length msg) data = msg
     | None => True
     end⌟)%I.

Definition slots (c : Z) (r : ring) (f : Z -> option (list Z)) : heapProp :=
  ([∗ list] i ∈ zrange 0 (rg_max r), slot (cbuf_at c i) (slot_data c r i) (rg_size r) (f i))%I.

Definition is_ring (c : Z) (r : ring) : heapProp :=
  (chan_rd_idx c ↦ rg_rd r ∗ chan_wr_idx c ↦ rg_wr r ∗ chan_max_count c ↦ rg_max r ∗
   chan_use_count c ↦ rg_count r ∗ slots c r (content r) ∗ ⌞ring_wf r⌟)%I.

(** One slot, and the others. *)
Lemma slots_acc c r f g i :
  0 <= i < rg_max r -> (forall j, 0 <= j < rg_max r -> j <> i -> g j = f j) ->
  slots c r f ⊢ slot (cbuf_at c i) (slot_data c r i) (rg_size r) (f i) ∗
    (slot (cbuf_at c i) (slot_data c r i) (rg_size r) (g i) -∗ slots c r g).
Proof.
  intros Hi Hfg. unfold slots.
  assert (i ∈ zrange 0 (rg_max r)) as (l1 & l2 & Hl)%list_elem_of_split by (apply elem_of_seqZ; lia).
  assert (NoDup (zrange 0 (rg_max r))) as Hnd by apply NoDup_seqZ.
  assert (forall j, j ∈ l1 \/ j ∈ l2 -> 0 <= j < rg_max r /\ j <> i) as Hj.
  { intros j Hj. split.
    - assert (j ∈ zrange 0 (rg_max r)) as Hz%elem_of_seqZ; [|lia]. rw Hl elem_of_app elem_of_cons. tauto.
    - intros ->. rw Hl in Hnd. apply NoDup_app in Hnd as (_ & Hn1 & Hn2).
      apply NoDup_cons in Hn2 as [Hn2 _]. destruct Hj as [Hj|Hj]; [|done].
      by apply (Hn1 i Hj), elem_of_cons; left. }
  rw Hl !big_sepL_app /=. iIntros "(H1 & $ & H2)". iIntros "$".
  iSplitL "H1"; (iApply (big_sepL_mono with "[$]"); intros k j Hk%list_elem_of_lookup_2;
    destruct (Hj j) as [? ?]; [tauto|by rw Hfg]).
Qed.

Section channel.
Context `{!Kernel}.
Implicit Types (k : k_state) (r : ring).

(** ** Waking the task of an end point *)

(** The task recorded in a channel: none, or one that can be woken. *)
Definition notable k (t : Z) : Prop := t = NULL \/ k_alive k t.

Definition k_note (t : Z) k : k_state := if decide (t = NULL) then k else k_wake t k.

Definition unwatched (c t : Z) : heapProp := (chan_select c ↦ NULL ∗ chan_task c ↦ t)%I.

Lemma k_note_current t k : k_current (k_note t k) = k_current k.
Proof. unfold k_note. case_decide; [done|apply k_wake_current]. Qed.

Lemma k_note_running t k : k_alive k t -> t <> NULL -> k_running (k_note t k) t.
Proof. intros Ha Hn. unfold k_note. rw decide_False //. by apply k_wake_running. Qed.

Lemma wp_chan_wakeup k c t (Q : unit -> heapProp) :
  notable k t ->
  k_inv k ∗ chan_task c ↦ t ∗ (k_inv (k_note t k) -∗ chan_task c ↦ t -∗ Q tt)
  ⊢ wp (chan_wakeup c) Q.
Proof.
  iIntros (Hn) "(Hk & Ht & HQ)". unfold chan_wakeup, k_note. wp_load. destruct Hn as [->|Ha].
  - change (is_true NULL) with false. cbn [when]. wp_norm. iApply ("HQ" with "Hk Ht").
  - iDestruct (k_alive_nonnull _ _ Ha with "Hk") as %Hne.
    rw (proj2 (is_true_spec t) Hne) decide_False //. cbn [when]. wp_load.
    iApply wp_wand. iSplitL "Hk"; [by iApply k_wakeup|]. iIntros ([]) "Hk". iApply ("HQ" with "Hk Ht").
Qed.

(** ** Putting and taking a message *)

Definition put_wake (t : Z) r k : k_state := if rg_count r =? 0 then k_note t k else k.

Lemma cut_length r data :
  ring_wf r -> Z.of_nat (length (r_cut r data)) = Z.min (Z.of_nat (length data)) (rg_size r).
Proof. intros []. unfold r_cut. rw length_take. lia. Qed.

(** The copy into the slot, cut to its size. *)
Lemma wp_put_copy r d buffer data area (Q : Z -> heapProp) :
  ring_wf r -> Z.of_nat (length data) < 2 ^ 63 -> Z.of_nat (length area) = rg_size r ->
  bytes d area ∗ bytes buffer data ∗
  (∀ area', bytes d area' -∗ bytes buffer data -∗
     ⌞Z.of_nat (length area') = rg_size r /\ take (length (r_cut r data)) area' = r_cut r data⌟ -∗
     Q (Z.of_nat (length (r_cut r data)))) ⊢
  wp (hev_task_channel_data_copy d buffer
        (w64 (if rg_size r <? Z.of_nat (length data) then rg_size r else Z.of_nat (length data)))) Q.
Proof.
  intros Hwf Hd Ha. iIntros "(Ha & Hb & HQ)".
  assert ((if rg_size r <? Z.of_nat (length data) then rg_size r else Z.of_nat (length data)) =
          Z.of_nat (length (r_cut r data))) as ->.
  { rw cut_length //. destruct (Z.ltb_spec (rg_size r) (Z.of_nat (length data))); lia. }
  pose proof (cut_length r data Hwf) as Hl. set (n := length (r_cut r data)) in *.
  pose proof (rw_size _ Hwf). rw w64_small; [|lia].
  iApply (wp_data_copy d buffer n data area); [lia|lia|lia|]. iFrame "Ha Hb". iIntros "Ha Hb".
  assert (take n data = r_cut r data) as ->.
  { unfold n. rw -{2}(take_drop (Z.to_nat (rg_size r)) data). apply take_app_length. }
  iApply ("HQ" with "Ha Hb"). iPureIntro. split.
  - rw length_app length_drop. fold n. lia.
  - apply take_app_length.
Qed.

Lemma wp_put k self peer r t buffer data :
  rg_count r < rg_max r -> notable k t -> Z.of_nat (length data) < 2 ^ 63 ->
  k_inv k ∗ is_ring peer r ∗ unwatched peer t ∗ chan_select self ↦ NULL ∗
  chan_max_size self ↦ rg_size r ∗ bytes buffer data
  ⊢ wp (channel_put self peer buffer (Z.of_nat (length data))) (fun n =>
      ⌞n = Z.of_nat (length (r_cut r data))⌟ ∗ k_inv (put_wake t r k) ∗
      is_ring peer (r_put (r_cut r data) r) ∗ unwatched peer t ∗ chan_select self ↦ NULL ∗
      chan_max_size self ↦ rg_size r ∗ bytes buffer data).
Proof.
  intros Hc Hn Hd.
  iIntros "(Hk & (Hrd & Hwr & Hm & Hu & Hs & %Hwf) & [Hps Hpt] & Hss & Hms & Hb)".
  pose proof (count_nonneg r). pose proof (wr_range r Hwf) as Hw. pose proof (cut_length r data Hwf) as Hcl.
  pose proof Hwf as []. iDestruct (slots_acc peer r _ (content (r_put (r_cut r data) r)) (rg_wr r) Hw
    with "Hs") as "[(%sz & %area & Hsz & Hda & Ha & %Hp) Hs]".
  { intros j Hj Hne. by apply content_put_other. }
  unfold channel_put. wp_load. wp_load. wp_store. wp_load.
  rw (proj2 (Z.eqb_neq (rg_max r) 1)); [|lia]. wp_load. rw s64_small; [|lia]. wp_load.
  iApply wp_bind. iApply (wp_put_copy r); [done|done|by destruct Hp|]. iFrame "Ha Hb".
  iIntros (area') "Ha Hb %Ha'". wp_store. rw w64_small; [|lia]. wp_load.
  iAssert (wp (when (rg_count r =? 0)
    (select <- load (chan_select peer) ;;
     when (is_true select) (hev_task_channel_select_add_read select peer) ;;;
     chan_wakeup peer)) (fun _ => k_inv (put_wake t r k) ∗ unwatched peer t)%I)
    with "[Hk Hps Hpt]" as "Hwake".
  { unfold put_wake. destruct (rg_count r =? 0); cbn [when].
    - wp_load. change (is_true NULL) with false. cbn [when]. wp_norm.
      iApply (wp_chan_wakeup k _ _ _ Hn). iFrame "Hk Hpt". iIntros "$ $". done.
    - wp_norm. iFrame. }
  iApply wp_bind. iApply wp_wand. iSplitL "Hwake"; [iExact "Hwake"|]. iIntros (_) "[Hk [Hps Hpt]]".
  wp_load. wp_store. wp_load. change (is_true NULL) with false. cbv iota. wp_norm.
  iSplitR; [done|]. iFrame "Hk Hps Hpt Hss Hms Hb". unfold is_ring. simpl.
  assert (rg_count (r_put (r_cut r data) r) = rg_count r + 1) as Hc'.
  { unfold rg_count. simpl. rw length_app /=. lia. }
  assert (w32 (rg_wr r + 1) mod rg_max r = rg_wr (r_put (r_cut r data) r)) as ->.
  { unfold rg_wr at 2. simpl. rw Hc' w32_small; [|lia]. unfold rg_wr. rw Zplus_mod_idemp_l.
    f_equal. lia. }
  rw Hc' w32_small; [|lia]. iFrame "Hrd Hwr Hm Hu". iSplitL.
  - iApply "Hs". iExists _, area'. iFrame. iPureIntro. rw content_put_same //. tauto.
  - iPureIntro. apply put_wf; [done|done|lia].
Qed.

Definition take_wake (p t : Z) r k : k_state :=
  if (rg_count r =? rg_max r) && is_true p then k_note t k else k.

Definition peer_cells (p t : Z) : heapProp := if is_true p then unwatched p t else emp%I.

Lemma wp_take_wake k self p t r (Q : unit -> heapProp) :
  notable k t ->
  k_inv k ∗ chan_peer self ↦ p ∗ peer_cells p t ∗
  (k_inv (take_wake p t r k) -∗ chan_peer self ↦ p -∗ peer_cells p t -∗ Q tt)
  ⊢ wp (when (rg_count r =? rg_max r)
          (peer <- load (chan_peer self) ;;
           when (is_true peer)
             (select <- load (chan_select peer) ;;
              when (is_true select) (hev_task_channel_select_add_write select peer) ;;;
              chan_wakeup peer))) Q.
Proof.
  iIntros (Hn) "(Hk & Hp & Hc & HQ)". unfold take_wake, peer_cells.
  destruct (rg_count r =? rg_max r); cbn [when andb]; [|wp_norm; by iApply ("HQ" with "Hk Hp")].
  wp_load. destruct (is_true p); cbn [when]; [|wp_norm; by iApply ("HQ" with "Hk Hp")].
  iDestruct "Hc" as "[Hs Ht]". wp_load. change (is_true NULL) with false. cbn [when]. wp_norm.
  iApply (wp_chan_wakeup k _ _ _ Hn). iFrame "Hk Ht". iIntros "Hk Ht".
  iApply ("HQ" with "Hk Hp"). iFrame.
Qed.

(** What a read leaves in the buffer. *)
Definition received (msg old : list Z) : list Z :=
  take (length old) msg ++ drop (length msg) old.

Lemma wp_take_copy d buffer msg area old (Q : Z -> heapProp) :
  take (length msg) area = msg -> Z.of_nat (length msg) < 2 ^ 63 ->
  bytes d area ∗ bytes buffer old ∗
  (bytes d area -∗ bytes buffer (received msg old) -∗
   Q (Z.min (Z.of_nat (length msg)) (Z.of_nat (length old)))) ⊢
  wp (hev_task_channel_data_copy buffer d
        (if Z.of_nat (length msg) <? Z.of_nat (length old) then Z.of_nat (length msg)
         else Z.of_nat (length old))) Q.
Proof.
  intros Ht Hm. iIntros "(Ha & Hb & HQ)".
  assert (length msg <= length area)%nat as Hla.
  { apply (f_equal length) in Ht. rw length_take in Ht. lia. }
  set (n := (length msg `min` length old)%nat).
  assert ((if Z.of_nat (length msg) <? Z.of_nat (length old) then Z.of_nat (length msg)
           else Z.of_nat (length old)) = Z.of_nat n) as ->.
  { destruct (Z.ltb_spec (Z.of_nat (length msg)) (Z.of_nat (length old))); unfold n; lia. }
  iApply (wp_data_copy buffer d n area old); [unfold n; lia..|]. iFrame "Ha Hb". iIntros "Hb Ha".
  assert (Z.min (Z.of_nat (length msg)) (Z.of_nat (length old)) = Z.of_nat n) as -> by (unfold n; lia).
  iApply ("HQ" with "Ha"). unfold received.
  assert (take n area = take (length old) msg) as ->.
  { rw -{1}Ht take_take. f_equal. unfold n. lia. }
  destruct (decide (length msg <= length old)%nat).
  - by replace n with (length msg) by (unfold n; lia).
  - rw !drop_ge; [iExact "Hb"|lia|unfold n; lia].
Qed.

(** [F] and [F'] are what the wakeup of the peer takes and gives. *)
Lemma wp_take_with F F' self r msg q buffer old :
  rg_q r = msg :: q ->
  (F ⊢ wp (when (rg_count r =? rg_max r)
             (peer <- load (chan_peer self) ;;
              when (is_true peer)
                (select <- load (chan_select peer) ;;
                 when (is_true select) (hev_task_channel_select_add_write select peer) ;;;
                 chan_wakeup peer))) (fun _ => F')) ->
  F ∗ is_ring self r ∗ chan_select self ↦ NULL ∗ bytes buffer old
  ⊢ wp (channel_take self buffer (Z.of_nat (length old))) (fun n =>
      ⌞n = Z.min (Z.of_nat (length msg)) (Z.of_nat (length old))⌟ ∗ F' ∗
      is_ring self (r_take r) ∗ chan_select self ↦ NULL ∗ bytes buffer (received msg old)).
Proof.
  intros Hq HF. iIntros "(HF & (Hrd & Hwr & Hm & Hu & Hs & %Hwf) & Hss & Hb)".
  pose proof (take_wf r Hwf) as Hwf'. pose proof Hwf as [].
  destruct (content_take_same msg q r Hwf Hq) as [Hc1 Hc2].
  iDestruct (slots_acc self r _ (content (r_take r)) (rg_rd r) rw_rd0 with "Hs")
    as "[(%sz & %area & Hsz & Hda & Ha & %Hsl) Hs]".
  { intros j Hj Hne. by apply (content_take_other msg q). }
  rw Hc1 in Hsl. destruct Hsl as (Harea & -> & Hmsg).
  assert (Z.of_nat (length msg) <= rg_size r) as Hlen.
  { rw Hq in rw_msgs0. by apply Forall_cons in rw_msgs0 as [? _]. }
  assert (rg_count r = Z.of_nat (length q) + 1) as Hcnt.
  { unfold rg_count. rw Hq. cbn [length]. lia. }
  unfold channel_take. wp_load. wp_load. wp_store. wp_load. wp_load.
  iApply wp_bind. iApply (wp_take_copy _ buffer msg area old); [done|lia|]. iFrame "Ha Hb".
  iIntros "Ha Hb". wp_load. wp_load. iApply wp_bind. iApply wp_wand.
  iSplitL "HF"; [by iApply HF|]. iIntros (_) "HF". wp_load. wp_store. wp_load.
  change (is_true NULL) with false. cbv iota. wp_norm. iSplitR; [done|].
  iFrame "HF Hss Hb". unfold is_ring.
  assert (rg_count (r_take r) = rg_count r - 1) as ->.
  { unfold rg_count, r_take. cbn [rg_q]. rw Hq. cbn [tail length]. lia. }
  assert (rg_wr (r_take r) = rg_wr r) as ->.
  { unfold rg_wr, rg_count, r_take. cbn [rg_q rg_rd rg_max]. rw Hq. cbn [tail length].
    rw Zplus_mod_idemp_l. f_equal. lia. }
  rw !w32_small; [|lia|lia]. iFrame "Hrd Hwr Hm Hu". iSplitL; [|done].
  iApply "Hs". iExists _, area. iFrame. rw Hc2. done.
Qed.

Lemma wp_take k self p t r msg q buffer old :
  rg_q r = msg :: q -> notable k t ->
  k_inv k ∗ is_ring self r ∗ chan_select self ↦ NULL ∗ chan_peer self ↦ p ∗ peer_cells p t ∗
  bytes buffer old
  ⊢ wp (channel_take self buffer (Z.of_nat (length old))) (fun n =>
      ⌞n = Z.min (Z.of_nat (length msg)) (Z.of_nat (length old))⌟ ∗ k_inv (take_wake p t r k) ∗
      is_ring self (r_take r) ∗ chan_select self ↦ NULL ∗ chan_peer self ↦ p ∗ peer_cells p t ∗
      bytes buffer (received msg old)).
Proof.
  intros Hq Hn. iIntros "(Hk & Hr & Hss & Hp & Hpc & Hb)". iApply wp_wand.
  iSplitL.
  - iApply (wp_take_with (k_inv k ∗ chan_peer self ↦ p ∗ peer_cells p t)%I
      (k_inv (take_wake p t r k) ∗ chan_peer self ↦ p ∗ peer_cells p t)%I self r msg q buffer old Hq).
    + iIntros "(Hk & Hp & Hpc)". iApply (wp_take_wake k self p t r _ Hn). iFrame "Hk Hp Hpc".
      by iIntros "$ $ $".
    + iFrame.
  - iIntros (n) "($ & ($ & $ & $) & $ & $ & $)".
Qed.

(** A ring that is not full: no cell of the peer is needed. *)
Lemma wp_take_quiet self r msg q buffer old :
  rg_q r = msg :: q -> rg_count r <> rg_max r ->
  is_ring self r ∗ chan_select self ↦ NULL ∗ bytes buffer old
  ⊢ wp (channel_take self buffer (Z.of_nat (length old))) (fun n =>
      ⌞n = Z.min (Z.of_nat (length msg)) (Z.of_nat (length old))⌟ ∗
      is_ring self (r_take r) ∗ chan_select self ↦ NULL ∗ bytes buffer (received msg old)).
Proof.
  intros Hq Hc. iIntros "H". iApply wp_wand. iSplitL.
  - iApply (wp_take_with emp%I emp%I self r msg q buffer old Hq).
    + rw (proj2 (Z.eqb_neq _ _) Hc). iIntros "_". cbn [when]. wp_norm. done.
    + iFrame.
  - iIntros (n) "($ & _ & $)".
Qed.

Lemma wp_select_writable peer r :
  is_ring peer r ⊢ wp (hev_task_channel_is_select_writable peer) (fun b =>
    ⌞b = (rg_count r <? rg_max r - 1)⌟ ∗ is_ring peer r).
Proof.
  iIntros "(Hrd & Hwr & Hm & Hu & Hs & %Hwf)". unfold hev_task_channel_is_select_writable.
  wp_load. wp_load. pose proof (rw_max _ Hwf). rw w32_small; [|lia]. iSplitR; [done|]. by iFrame.
Qed.

(** ** Blocking reads *)

(** What the reader of [self] shares with the others: its ring, its peer [p]
    and the cells a wakeup of the peer needs. *)
Definition chan_in (self : Z) r (t p pt : Z) : heapProp :=
  (is_ring self r ∗ unwatched self t ∗ chan_peer self ↦ p ∗ peer_cells p pt)%I.

(** The others may only put messages. *)
Definition grows r r' : Prop :=
  rg_max r' = rg_max r /\ rg_size r' = rg_size r /\ rg_rd r' = rg_rd r /\
  exists l, rg_q r' = rg_q r ++ l.

Lemma grows_refl r : grows r r.
Proof. split_and!; [done..|]. exists []. by rw app_nil_r. Qed.

Lemma grows_trans r1 r2 r3 : grows r1 r2 -> grows r2 r3 -> grows r1 r3.
Proof.
  intros (? & ? & ? & l1 & Hl1) (? & ? & ? & l2 & Hl2). split_and!; [congruence..|].
  exists (l1 ++ l2). by rw Hl2 Hl1 assoc_L.
Qed.

Lemma grows_put msg r : grows r (r_put msg r).
Proof. split_and!; [done..|]. by exists [msg]. Qed.

(** The reader only sleeps on an empty ring with its peer there, and with
    itself recorded as the task to wake. *)
Definition read_yield (me self : Z) (type : Z) (K : heapProp) : heapProp :=
  (∃ k r p pt, k_inv k ∗ chan_in self r me p pt ∗
    ⌞k_current k = me /\ rg_q r = [] /\ p <> NULL⌟ ∗
    (∀ k' r' p' pt', k_inv k' -∗ chan_in self r' me p' pt' -∗
      ⌞k_current k' = me /\ notable k' pt' /\ grows r r' /\ (p' = p \/ p' = NULL)⌟ -∗ K))%I.

#[export] Instance read_yield_mono me self : YieldMono (read_yield me self).
Proof.
  intros t K1 K2. iIntros "[(%k & %r & %p & %pt & Hk & Hc & %Hp & H) HK]".
  iExists k, r, p, pt. iFrame "Hk Hc". iSplitR; [done|].
  iIntros (k' r' p' pt') "Hk Hc %Hp'". iApply "HK". by iApply ("H" with "Hk Hc").
Qed.

(** The reader's state, [t0] and [r0] being those it started with. *)
Definition reading (me self t0 : Z) r0 (P : ring -> Z -> Prop) : heapProp :=
  (∃ k r t p pt, k_inv k ∗ chan_in self r t p pt ∗
    ⌞k_current k = me /\ notable k pt /\ grows r0 r /\ (t = t0 \/ t = NULL) /\ P r p⌟)%I.

Definition any_ring r (p : Z) : Prop := True.
Definition ready_ring (b : bool) r (p : Z) : Prop :=
  if b then rg_q r <> [] else rg_q r = [] /\ p = NULL.

Lemma count_zero r : (rg_count r =? 0) = bool_decide (rg_q r = []).
Proof.
  unfold rg_count. destruct (rg_q r); [done|]. rw bool_decide_false //.
Qed.

Lemma cwp_read_wait me self t0 r0 u :
  reading me self t0 r0 any_ring ⊢
  cwp (read_yield me self) (channel_wait self (hev_task_channel_is_readable self) u) (fun x =>
    match x with
    | inl _ => reading me self t0 r0 any_ring
    | inr b => reading me self t0 r0 (ready_ring b)
    end).
Proof.
  iIntros "(%k & %r & %t & %p & %pt & Hk & ((Hrd & Hwr & Hm & Hu & Hs & %Hwf) & [Hss Ht] & Hp & Hc) & %H0)".
  destruct H0 as (Hme & Hn & Hg & Ht & _). unfold channel_wait. cbn [cwp].
  unfold hev_task_channel_is_readable. wp_load. rw count_zero.
  case_bool_decide as Hq; cbn [negb cwp].
  - unfold hev_task_channel_is_active. wp_load. destruct (Z.eqb_spec p NULL) as [->|Hpn]; cbn [negb cwp].
    + iExists k, r, t, NULL, pt. iFrame. by iPureIntro.
    + iApply wp_wand. iSplitL "Hk"; [by iApply k_self|]. iIntros (x) "[-> Hk]". wp_store.
      iApply cwp_bind. iApply k_yield. iFrame "Hk". iIntros "Hk". rw Hme.
      iExists k, r, p, pt. iFrame "Hk". iSplitR "".
      { unfold chan_in, unwatched, is_ring. iFrame. done. }
      iSplitR; [done|]. iIntros (k' r' p' pt') "Hk (Hr & [Hss Ht] & Hp & Hc) %Hp'".
      destruct Hp' as (Hme' & Hn' & Hg' & Hp'). cbn [cwp]. wp_store.
      iExists k', r', NULL, p', pt'. iFrame. iPureIntro.
      split_and!; [done|done|by eapply grows_trans|by right|done].
  - iExists k, r, t, p, pt. iFrame. by iPureIntro.
Qed.

#[local] Opaque co_while.

Lemma cwp_read me self k r t p pt buffer old :
  k_current k = me -> notable k pt ->
  k_inv k ∗ chan_in self r t p pt ∗ bytes buffer old
  ⊢ cwp (read_yield me self) (hev_task_channel_read self buffer (Z.of_nat (length old))) (fun n =>
      ∃ k' r' t' p' pt', ⌞k_current k' = me /\ grows r r' /\ (t' = t \/ t' = NULL)⌟ ∗
      match rg_q r' with
      | [] => ⌞n = -1 /\ p' = NULL⌟ ∗ k_inv k' ∗ chan_in self r' t' p' pt' ∗ bytes buffer old
      | msg :: _ =>
          ⌞n = Z.min (Z.of_nat (length msg)) (Z.of_nat (length old))⌟ ∗
          k_inv (take_wake p' pt' r' k') ∗ chan_in self (r_take r') t' p' pt' ∗
          bytes buffer (received msg old)
      end).
Proof.
  iIntros (Hme Hn) "(Hk & Hc & Hb)". unfold hev_task_channel_read. iApply cwp_bind.
  iApply (cwp_wand _ _ (fun b => reading me self t r (ready_ring b))). iSplitR "Hb".
  - iApply (cwp_while _ _ (fun _ => reading me self t r any_ring) tt);
      [intros u; apply cwp_read_wait|].
    iExists k, r, t, p, pt. iFrame. iPureIntro. split_and!; [done|done|apply grows_refl|by left|done].
  - iIntros (b) "(%k' & %r' & %t' & %p' & %pt' & Hk & (Hr & [Hss Ht] & Hp & Hpc) & %H0)".
    destruct H0 as (Hme' & Hn' & Hg & Ht' & Hb). destruct b; simpl in Hb.
    + destruct (rg_q r') as [|msg q] eqn:Hq; [done|]. cbn [act cwp]. iApply wp_wand.
      iSplitR "Ht".
      { iApply (wp_take k' self p' pt' r' msg q); [done|done|]. iFrame. }
      iIntros (n) "(-> & Hk & Hr & Hss & Hp & Hpc & Hb)". iExists k', r', t', p', pt'.
      iSplitR; [done|]. rw Hq. iSplitR; [done|]. unfold chan_in, unwatched. iFrame.
    + destruct Hb as [Hq ->]. cbn [cwp]. iExists k', r', t', NULL, pt'. iSplitR; [done|].
      rw Hq. iSplitR; [done|]. unfold chan_in, unwatched. iFrame.
Qed.
End channel.
