(* ===== verification/ChannelWrite.v ===== *)
(** * ChannelWrite: blocking writes

    A writer holds a reference to its peer while it waits, so the peer's ring
    outlives the peer: the last reference gives the memory back. *)

From S2P Require Import Prelude.
From S2P Require Import Sep.
From S2P Require Import Env.
From S2P Require Import EnvLogic.
From S2P Require Import Bytes.
From S2P Require Import Mem.
From S2P Require Import Alloc.
From S2P Require Import TaskBase.
From S2P Require Import Task.
From S2P Require Import Kernel.
From S2P Require Import Channel.
From S2P Require Import ChannelProofs.

(** The others may only take messages. *)
Definition shrinks (r r' : ring) : Prop :=
  rg_max r' = rg_max r /\ rg_size r' = rg_size r /\ exists l, rg_q r = l ++ rg_q r'.

Lemma shrinks_refl r : shrinks r r.
Proof. split_and!; [done..|]. by exists []. Qed.

Lemma shrinks_trans r1 r2 r3 : shrinks r1 r2 -> shrinks r2 r3 -> shrinks r1 r3.
Proof.
  intros (? & ? & l1 & Hl1) (? & ? & l2 & Hl2). split_and!; [congruence..|].
  exists (l1 ++ l2). by rw Hl1 Hl2 assoc_L.
Qed.

(** A message put between takes. *)
Lemma shrinks_put msg r0 r r' :
  shrinks r0 r -> shrinks (r_put msg r) r' ->
  rg_size r' = rg_size r0 /\ exists l, rg_q r0 ++ [msg] = l ++ rg_q r'.
Proof.
  intros (_ & Hs & l1 & Hl1) (_ & Hs' & l2 & Hl2). simpl in *. split; [congruence|].
  exists (l1 ++ l2). by rw Hl1 -!assoc_L -Hl2.
Qed.

Section write.
Context `{HA : !Allocator} `{HK : !Kernel}.
Implicit Types (k : k_state) (r : ring).

(** What gives the memory of a dead channel back. *)
Definition chan_remains (c : Z) : heapProp :=
  (∀ r t, is_ring c r -∗ unwatched c t -∗ chan_ref_count c ↦ 0 -∗ ∃ n, al_block c n)%I.

(** The references of [peer] besides the writer's: its own while it is there,
    [p] being what the writer's end has for it. *)
Definition peer_refs (peer p held : Z) : heapProp :=
  ((⌞p = peer⌟ ∗ chan_ref_count peer ↦ (held + 1)) ∨
   (⌞p = NULL⌟ ∗ chan_ref_count peer ↦ held ∗ chan_remains peer))%I.

(** What the writer at [self] shares with the others. *)
Definition chan_out (self peer : Z) r (t p pt : Z) : heapProp :=
  (is_ring peer r ∗ unwatched peer pt ∗ unwatched self t ∗ chan_peer self ↦ p ∗
   chan_max_size self ↦ rg_size r ∗ peer_refs peer p 1)%I.

(** The writer only sleeps on a full ring with its peer there, and with itself
    recorded as the task to wake. *)
Definition write_yield (me self peer : Z) (type : Z) (K : heapProp) : heapProp :=
  (∃ k r pt, k_inv k ∗ al_heap ∗ chan_out self peer r me peer pt ∗
    ⌞k_current k = me /\ rg_count r = rg_max r⌟ ∗
    (∀ k' r' p' pt', k_inv k' -∗ al_heap -∗ chan_out self peer r' me p' pt' -∗
      ⌞k_current k' = me /\ notable k' pt' /\ shrinks r r'⌟ -∗ K))%I.

#[export] Instance write_yield_mono me self peer : YieldMono (write_yield me self peer).
Proof.
  intros t K1 K2. iIntros "[(%k & %r & %pt & Hk & Hh & Hc & %Hp & H) HK]".
  iExists k, r, pt. iFrame "Hk Hh Hc". iSplitR; [done|].
  iIntros (k' r' p' pt') "Hk Hh Hc %Hp'". iApply "HK". by iApply ("H" with "Hk Hh Hc").
Qed.

Lemma wp_is_writable c r (Q : bool -> heapProp) :
  is_ring c r ∗ (is_ring c r -∗ Q (rg_count r <? rg_max r)) ⊢ wp (hev_task_channel_is_writable c) Q.
Proof.
  iIntros "[(Hrd & Hwr & Hm & Hu & Hs & Hwf) HQ]". unfold hev_task_channel_is_writable.
  wp_load. wp_load. iApply "HQ". iFrame.
Qed.

(** The writer's state, [t0] and [r0] being those it started with. *)
Definition writing (me self peer t0 : Z) r0 (P : ring -> Z -> Prop) : heapProp :=
  (∃ k r t p pt, k_inv k ∗ al_heap ∗ chan_out self peer r t p pt ∗
    ⌞k_current k = me /\ notable k pt /\ shrinks r0 r /\ (t = t0 \/ t = NULL) /\ P r p⌟)%I.

Definition room (b : bool) r (p : Z) : Prop := if b then rg_count r < rg_max r else p = NULL.

Lemma ring_count_le c r : is_ring c r ⊢ ⌜rg_count r <= rg_max r⌝.
Proof. iIntros "(_ & _ & _ & _ & _ & %Hwf)". iPureIntro. apply Hwf. Qed.

Lemma cwp_write_wait me self peer t0 r0 u :
  peer <> NULL ->
  writing me self peer t0 r0 any_ring ⊢
  cwp (write_yield me self peer) (channel_wait self (hev_task_channel_is_writable peer) u) (fun x =>
    match x with
    | inl _ => writing me self peer t0 r0 any_ring
    | inr b => writing me self peer t0 r0 (room b)
    end).
Proof.
  intros Hpeer. iIntros "(%k & %r & %t & %p & %pt & Hk & Hh & (Hr & Hpu & [Hss Ht] & Hp & Hms & Hrefs) & %H0)".
  destruct H0 as (Hme & Hn & Hg & Ht & _). unfold channel_wait. cbn [cwp].
  iDestruct (ring_count_le with "Hr") as %Hle.
  iApply wp_is_writable. iFrame "Hr". iIntros "Hr".
  destruct (Z.ltb_spec (rg_count r) (rg_max r)) as [Hroom|Hfull]; cbn [cwp].
  { iExists k, r, t, p, pt. iFrame. by iPureIntro. }
  unfold hev_task_channel_is_active. wp_load. destruct (Z.eqb_spec p NULL) as [->|Hpn]; cbn [negb cwp].
  { iExists k, r, t, NULL, pt. iFrame. by iPureIntro. }
  iApply wp_wand. iSplitL "Hk"; [by iApply k_self|]. iIntros (x) "[-> Hk]". wp_store.
  iApply cwp_bind. iApply k_yield. iFrame "Hk". iIntros "Hk". rw Hme.
  iDestruct "Hrefs" as "[[-> Hrc]|(%Hz & Hrc)]"; [|done].
  iExists k, r, pt. iFrame "Hk Hh". iSplitR "".
  { unfold chan_out, unwatched. iFrame. iLeft. by iFrame. }
  iSplitR; [iPureIntro; split; [done|lia]|].
  iIntros (k' r' p' pt') "Hk Hh (Hr & Hpu & [Hss Ht] & Hp & Hms & Hrefs) %Hp'".
  destruct Hp' as (Hme' & Hn' & Hg'). cbn [cwp]. wp_store.
  iExists k', r', NULL, p', pt'. iFrame. iPureIntro.
  split_and!; [done|done|by eapply shrinks_trans|by right|done].
Qed.
#[local] Opaque co_while.

(** What is left of the peer when the writer has given its reference back. *)
Definition peer_left (peer : Z) r (p pt : Z) : heapProp :=
  (if decide (p = NULL) then emp
   else ⌞p = peer⌟ ∗ is_ring peer r ∗ unwatched peer pt ∗ chan_ref_count peer ↦ 1)%I.

Lemma cwp_write_unref Y `{!YieldMono Y} peer r p pt :
  peer <> NULL ->
  al_heap ∗ is_ring peer r ∗ unwatched peer pt ∗ peer_refs peer p 1
  ⊢ cwp Y (hev_task_channel_unref peer) (fun _ => al_heap ∗ peer_left peer r p pt).
Proof.
  intros Hpeer. iIntros "(Hh & Hr & Hpu & [[-> Hrc]|(-> & Hrc & Hrem)])"; unfold hev_task_channel_unref, peer_left.
  - cbn [cwp]. wp_load. cbn [cwp]. wp_store. cbn [cwp]. wp_load.
    change (w32 (1 + 1 - 1)) with 1. cbn [is_true Z.eqb negb cwp]. rw decide_False //. by iFrame.
  - cbn [cwp]. wp_load. cbn [cwp]. wp_store. cbn [cwp]. wp_load.
    change (w32 (1 - 1)) with 0. change (is_true 0) with false. cbv iota.
    iDestruct ("Hrem" with "Hr Hpu Hrc") as "[%n Hb]". iApply cwp_wand.
    iSplitL; [iApply wp_hev_free; iFrame|]. iIntros (u) "$".
Qed.

(** The result [n] of writing [msg] to a ring that was [r] and ends as [r']. *)
Definition written (msg : list Z) r r' (p n : Z) : Prop :=
  rg_size r' = rg_size r /\
  ((n = -1 /\ p = NULL) \/
   (n = Z.of_nat (length msg) /\ rg_count r' < rg_max r' /\ exists l, rg_q r ++ [msg] = l ++ rg_q r')).

Lemma writing_wait me self peer t0 r0 P :
  peer <> NULL ->
  writing me self peer t0 r0 any_ring ∗ (∀ b, writing me self peer t0 r0 (room b) -∗ P b)
  ⊢ cwp (write_yield me self peer)
      (co_while (channel_wait self (hev_task_channel_is_writable peer)) tt) P.
Proof.
  intros Hpeer. iIntros "[H HP]". iApply cwp_wand. iSplitR "HP".
  - iApply (cwp_while _ _ (fun _ => writing me self peer t0 r0 any_ring) tt with "H").
    intros u. by apply (cwp_write_wait me self peer t0 r0 u).
  - iIntros (b) "H". by iApply "HP".
Qed.

Lemma cut_same r r1 data : rg_size r1 = rg_size r -> r_cut r data = r_cut r1 data.
Proof. unfold r_cut. by intros ->. Qed.

Lemma put_wake_current t r k : k_current (put_wake t r k) = k_current k.
Proof. unfold put_wake. destruct (_ =? _); [apply k_note_current|done]. Qed.

Lemma put_wake_notable t r k u : notable k t -> notable k u -> notable (put_wake t r k) u.
Proof.
  unfold put_wake, k_note. intros Ht [->|Hu]; [by left|]. right. destruct (_ =? _); [|done].
  case_decide; [done|]. destruct Ht as [|Ht]; [done|]. by apply k_wake_alive.
Qed.

Lemma cwp_write me self peer k r t pt buffer data :
  k_current k = me -> notable k pt -> peer <> NULL -> Z.of_nat (length data) < 2 ^ 63 ->
  k_inv k ∗ al_heap ∗ is_ring peer r ∗ unwatched peer pt ∗ unwatched self t ∗
  chan_peer self ↦ peer ∗ chan_max_size self ↦ rg_size r ∗ chan_ref_count peer ↦ 1 ∗ bytes buffer data
  ⊢ cwp (write_yield me self peer) (hev_task_channel_write self buffer (Z.of_nat (length data))) (fun n =>
      ∃ k' r' t' p' pt', ⌞k_current k' = me /\ (t' = t \/ t' = NULL) /\
        written (r_cut r data) r r' p' n⌟ ∗
      k_inv k' ∗ al_heap ∗ peer_left peer r' p' pt' ∗ unwatched self t' ∗ chan_peer self ↦ p' ∗
      chan_max_size self ↦ rg_size r ∗ bytes buffer data).
Proof.
  intros Hme Hn Hpeer Hd. iIntros "(Hk & Hh & Hr & Hpu & Hsu & Hp & Hms & Hrc & Hb)".
  unfold hev_task_channel_write. cbn [cwp]. wp_load. rw (is_true_nonnull peer Hpeer). cbn [negb cwp].
  unfold hev_task_channel_ref. wp_load. wp_store. change (w32 (1 + 1)) with (1 + 1).
  iApply cwp_bind. iApply (writing_wait me self peer t r); [done|]. iSplitR "Hb".
  { iExists k, r, t, peer, pt. iFrame. iSplitL "Hrc"; [iLeft; by iFrame|]. iPureIntro.
    split_and!; [done|done|apply shrinks_refl|by left|done]. }
  iIntros (b) "(%k1 & %r1 & %t1 & %p1 & %pt1 & Hk & Hh & (Hr & Hpu & Hsu & Hp & Hms & Hrefs) & %H1)".
  destruct H1 as (Hme1 & Hn1 & Hs1 & Ht1 & Hroom1). pose proof (proj1 (proj2 Hs1)) as Hsize1.
  iApply (cwp_call _ _ _ (fun n => ∃ k' r' t' p' pt', ⌞k_current k' = me /\
    (t' = t \/ t' = NULL) /\ written (r_cut r data) r r' p' n⌟ ∗ k_inv k' ∗ al_heap ∗
    chan_out self peer r' t' p' pt' ∗ bytes buffer data)%I). iSplitL.
  - destruct b; cbn [room] in Hroom1; cbn [cwp].
    + iDestruct "Hsu" as "[Hss Hst]". iApply wp_wand. iSplitL "Hk Hr Hpu Hss Hms Hb".
      { iApply (wp_put k1 self peer r1 pt1 buffer data Hroom1 Hn1 Hd). iFrame. }
      iIntros (n) "(-> & Hk & Hr & Hpu & Hss & Hms & Hb)". rw -(cut_same r r1 data Hsize1).
      set (msg := r_cut r data). iApply cwp_bind. iApply (writing_wait me self peer t1 (r_put msg r1) _ Hpeer).
      iSplitR "Hb".
      { iExists _, (r_put msg r1), t1, p1, pt1. iFrame. iPureIntro.
        split_and!; [by rw put_wake_current|by apply put_wake_notable|apply shrinks_refl|by left|done]. }
      iIntros (b) "(%k2 & %r2 & %t2 & %p2 & %pt2 & Hk & Hh & Hc & %H2)".
      destruct H2 as (Hme2 & Hn2 & Hs2 & Ht2 & Hroom2). cbn [cwp]. iExists k2, r2, t2, p2, pt2. iFrame.
      iPureIntro. destruct (shrinks_put msg r r1 r2 Hs1 Hs2) as [Hsz Hl].
      split_and!; [done|destruct Ht2; subst; tauto|]. split; [done|].
      destruct b; cbn [room] in Hroom2; [by right|by left].
    + iExists k1, r1, t1, p1, pt1. iFrame. iPureIntro. split_and!; [done|done|]. split; [done|by left].
  - iIntros (n) "(%k' & %r' & %t' & %p' & %pt' & %H & Hk & Hh & (Hr & Hpu & Hsu & Hp & Hms & Hrefs) & Hb)".
    destruct H as (Hme' & Ht' & Hw). iApply cwp_call. iSplitL "Hh Hr Hpu Hrefs".
    { iApply (cwp_write_unref _ peer r' p' pt' Hpeer). iFrame. }
    iIntros (u) "[Hh Hl]". cbn [cwp]. iExists k', r', t', p', pt'. rw -(proj1 Hw). iFrame. done.
Qed.
End write.
