(* ===== verification/ChannelProps.v ===== *)
(** * ChannelProps: what a channel promises

    For channels with at least two slots whose end points no selector watches,
    except where a selector is named. *)

From S2P Require Import Prelude.
From S2P Require Import Sep.
From S2P Require Import Env.
From S2P Require Import EnvLogic.
From S2P Require Import Bytes.
From S2P Require Import Alloc.
From S2P Require Import TaskBase.
From S2P Require Import QueueSpec.
From S2P Require Import QueueProofs.
From S2P Require Import QueueProps.
From S2P Require Import Kernel.
From S2P Require Import Channel.
From S2P Require Import ChannelProofs.
From S2P Require Import ChannelWrite.

(** Writing into a ring with a free slot puts the data, cut to the size of
    a slot, behind the messages in the ring, returns the length of the message,
    leaves the data alone, and wakes the reader recorded in the peer exactly
    when the ring was empty. *)
Theorem channel_put_enqueues `{!Kernel} (k : k_state) self peer r t buffer data :
  rg_count r < rg_max r -> notable k t -> Z.of_nat (length data) < 2 ^ 63 ->
  {{{ k_inv k ∗ is_ring peer r ∗ unwatched peer t ∗ chan_select self ↦ NULL ∗
      chan_max_size self ↦ rg_size r ∗ bytes buffer data }}}
    channel_put self peer buffer (Z.of_nat (length data))
  {{{ n, ⌞n = Z.of_nat (length (r_cut r data))⌟ ∗ is_ring peer (r_put (r_cut r data) r) ∗
      unwatched peer t ∗ chan_select self ↦ NULL ∗ chan_max_size self ↦ rg_size r ∗
      bytes buffer data ∗ ∃ k', k_inv k' ∗
      ⌞k_current k' = k_current k /\
       (if rg_count r =? 0 then t <> NULL -> k_running k' t else k' = k)⌟ }}}.
Proof.
  intros Hc Hn Hd. apply triple_wp. iIntros "H". iApply wp_wand.
  iSplitL; [by iApply (wp_put with "H")|]. iIntros (n) "($ & Hk & $ & $ & $ & $ & $)".
  iExists _. iFrame. iPureIntro. unfold put_wake.
  destruct (rg_count r =? 0); [|done]. split; [apply k_note_current|]. intros Ht.
  destruct Hn as [|Ha]; [done|]. by apply k_note_running.
Qed.

(** An empty ring of four slots of eight bytes, its next slot the last one. *)
Definition empty_ring : ring := Ring 4 8 3 [].

Lemma channel_put_enqueues_witness :
  {{{ @k_inv (sched_kernel 65536) (two_tasks 3 3) ∗ is_ring 40960 empty_ring ∗
      unwatched 40960 8192 ∗ chan_select 45056 ↦ NULL ∗ chan_max_size 45056 ↦ 8 ∗
      bytes 49152 [1; 2; 3; 4; 5; 6; 7; 8; 9] }}}
    channel_put 45056 40960 49152 9
  {{{ n, ⌞n = 8⌟ ∗ is_ring 40960 (Ring 4 8 3 [[1; 2; 3; 4; 5; 6; 7; 8]]) ∗
      unwatched 40960 8192 ∗ chan_select 45056 ↦ NULL ∗ chan_max_size 45056 ↦ 8 ∗
      bytes 49152 [1; 2; 3; 4; 5; 6; 7; 8; 9] ∗ ∃ k', @k_inv (sched_kernel 65536) k' ∗
      ⌞@k_current (sched_kernel 65536) k' = 4096 /\
       (8192 <> NULL -> @k_running (sched_kernel 65536) k' 8192)⌟ }}}.
Proof.
  apply (@channel_put_enqueues (sched_kernel 65536) (two_tasks 3 3) 45056 40960 empty_ring 8192 49152
           [1; 2; 3; 4; 5; 6; 7; 8; 9]); [by vm_compute| |by vm_compute].
  right. by exists (TInfo 3 3 3 HEV_TASK_WAITING).
Defined.

(** C14. Channels with buffers (a ring of at least two slots, as
    [hev_task_channel_new_with_buffers] makes for one buffer or more) of which
    neither end is in a selector: a read from an empty channel sleeps until
    there is a message or the peer is gone, whatever wakes it, recording itself
    as the task to wake.  It
    returns the oldest message, cut to the buffer's size, the rest of the
    buffer being left alone, takes that message off the ring and keeps the
    others in order, and wakes the writer when the ring was full; or it returns
    -1 with the buffer untouched, only when the ring is empty and the peer
    gone.  The channels of [hev_task_channel_new], whose only slot holds the
    writer's pointer, and the calls that keep the lists of a selector are not
    part of the claim. *)
Theorem channel_read_contract `{!Kernel} me self (k : k_state) r t p pt buffer old :
  k_current k = me -> notable k pt ->
  {{{ k_inv k ∗ chan_in self r t p pt ∗ bytes buffer old }}}
    hev_task_channel_read self buffer (Z.of_nat (length old)) @ (read_yield me self)
  {{{ n, ∃ k' r' t' p' pt', ⌞k_current k' = me /\ grows r r' /\ (t' = t \/ t' = NULL)⌟ ∗
      match rg_q r' with
      | [] => ⌞n = -1 /\ p' = NULL⌟ ∗ k_inv k' ∗ chan_in self r' t' p' pt' ∗ bytes buffer old
      | msg :: _ =>
          ⌞n = Z.min (Z.of_nat (length msg)) (Z.of_nat (length old))⌟ ∗
          k_inv (take_wake p' pt' r' k') ∗ chan_in self (r_take r') t' p' pt' ∗
          bytes buffer (received msg old)
      end }}}.
Proof. intros Hme Hn. exact (cwp_read me self k r t p pt buffer old Hme Hn). Qed.

Lemma channel_read_contract_witness :
  {{{ @k_inv (sched_kernel 65536) (two_tasks 3 3) ∗
      @chan_in 45056 empty_ring NULL 40960 8192 ∗ bytes 49152 [0; 0] }}}
    hev_task_channel_read 45056 49152 2 @ (@read_yield (sched_kernel 65536) 4096 45056)
  {{{ n, ∃ k' r' t' p' pt',
      ⌞@k_current (sched_kernel 65536) k' = 4096 /\ grows empty_ring r' /\ (t' = NULL \/ t' = NULL)⌟ ∗
      match rg_q r' with
      | [] => ⌞n = -1 /\ p' = NULL⌟ ∗ @k_inv (sched_kernel 65536) k' ∗
              chan_in 45056 r' t' p' pt' ∗ bytes 49152 [0; 0]
      | msg :: _ =>
          ⌞n = Z.min (Z.of_nat (length msg)) 2⌟ ∗
          @k_inv (sched_kernel 65536) (@take_wake (sched_kernel 65536) p' pt' r' k') ∗
          chan_in 45056 (r_take r') t' p' pt' ∗ bytes 49152 (received msg [0; 0])
      end }}}.
Proof.
  apply (@channel_read_contract (sched_kernel 65536) 4096 45056 (two_tasks 3 3) empty_ring NULL 40960
           8192 49152 [0; 0]); [done|].
  right. by exists (TInfo 3 3 3 HEV_TASK_WAITING).
Defined.

(** C15. For channels with buffers (a ring of at least two slots) of which
    neither end is in a selector: a write sleeps while the ring is full and its
    peer there, whatever wakes it, then puts the data, cut to the size of a slot, behind the messages
    in the ring, and sleeps again until there is a free slot.  It returns the
    length of the message, the others having taken only messages from the front
    meanwhile, or -1, only when the peer is gone.  The peer's ring stays
    allocated while the write uses it, even when its owner has destroyed it: the
    write then gives its memory back, with the last reference.  The hand-over
    of the writer's pointer in a channel of [hev_task_channel_new] and the calls
    that keep the lists of a selector are not part of the claim. *)
Theorem channel_write_contract `{!Allocator} `{!Kernel} me self peer (k : k_state) r t pt buffer data :
  k_current k = me -> notable k pt -> peer <> NULL -> Z.of_nat (length data) < 2 ^ 63 ->
  {{{ k_inv k ∗ al_heap ∗ is_ring peer r ∗ unwatched peer pt ∗ unwatched self t ∗
      chan_peer self ↦ peer ∗ chan_max_size self ↦ rg_size r ∗ chan_ref_count peer ↦ 1 ∗
      bytes buffer data }}}
    hev_task_channel_write self buffer (Z.of_nat (length data)) @ (write_yield me self peer)
  {{{ n, ∃ k' r' t' p' pt', ⌞k_current k' = me /\ (t' = t \/ t' = NULL) /\
        written (r_cut r data) r r' p' n⌟ ∗
      k_inv k' ∗ al_heap ∗ peer_left peer r' p' pt' ∗ unwatched self t' ∗ chan_peer self ↦ p' ∗
      chan_max_size self ↦ rg_size r ∗ bytes buffer data }}}.
Proof. intros Hme Hn Hp Hd. exact (cwp_write me self peer k r t pt buffer data Hme Hn Hp Hd). Qed.

Lemma channel_write_contract_witness :
  @ctriple Z (@write_yield (slice_allocator 6400) (sched_kernel 65536) 4096 45056 40960)
    (@k_inv (sched_kernel 65536) (two_tasks 3 3) ∗ slice_heap 6400 ∗
     is_ring 40960 (Ring 2 8 1 [[1; 2]; [3]]) ∗ unwatched 40960 8192 ∗ unwatched 45056 NULL ∗
     chan_peer 45056 ↦ 40960 ∗ chan_max_size 45056 ↦ 8 ∗ chan_ref_count 40960 ↦ 1 ∗
     bytes 49152 [4; 5; 6])%I
    (hev_task_channel_write 45056 49152 3)
    (fun n => ∃ k' r' t' p' pt', ⌞@k_current (sched_kernel 65536) k' = 4096 /\
        (t' = NULL \/ t' = NULL) /\ written [4; 5; 6] (Ring 2 8 1 [[1; 2]; [3]]) r' p' n⌟ ∗
      @k_inv (sched_kernel 65536) k' ∗ slice_heap 6400 ∗ peer_left 40960 r' p' pt' ∗
      unwatched 45056 t' ∗ chan_peer 45056 ↦ p' ∗ chan_max_size 45056 ↦ 8 ∗
      bytes 49152 [4; 5; 6])%I.
Proof.
  apply (@channel_write_contract (slice_allocator 6400) (sched_kernel 65536) 4096 45056 40960
           (two_tasks 3 3) (Ring 2 8 1 [[1; 2]; [3]]) NULL 8192 49152 [4; 5; 6]); [done| |done|done].
  right. by exists (TInfo 3 3 3 HEV_TASK_WAITING).
Defined.

(** C40. The end of a channel that a selector found no longer writable, with one
    free slot left, becomes writable again when a message is read, but the read
    touches neither its entry in the selector's list nor its task: only a ring
    that was full makes the reader put its peer back. *)
Theorem select_writer_forgotten self r buffer old :
  rg_q r <> [] -> rg_count r = rg_max r - 1 ->
  (is_ring self r ⊢ wp (hev_task_channel_is_select_writable self)
     (fun b => ⌞b = false⌟ ∗ is_ring self r)) /\
  (is_ring self (r_take r) ⊢ wp (hev_task_channel_is_select_writable self)
     (fun b => ⌞b = true⌟ ∗ is_ring self (r_take r))) /\
  {{{ is_ring self r ∗ chan_select self ↦ NULL ∗ bytes buffer old }}}
    channel_take self buffer (Z.of_nat (length old))
  {{{ _, is_ring self (r_take r) ∗ chan_select self ↦ NULL ∗ ∃ new, bytes buffer new }}}.
Proof.
  intros Hq Hc. destruct (rg_q r) as [|msg q] eqn:Heq; [done|].
  assert (rg_count (r_take r) = rg_count r - 1) as Hct.
  { unfold rg_count, r_take. cbn [rg_q]. rw Heq. cbn [tail length]. lia. }
  split_and!.
  - iIntros "H". iApply wp_wand. iSplitL; [by iApply wp_select_writable|].
    iIntros (b) "[-> $]". iPureIntro. lia.
  - iIntros "H". iApply wp_wand. iSplitL; [by iApply wp_select_writable|].
    iIntros (b) "[-> $]". iPureIntro. rw Hct. unfold r_take. cbn [rg_max]. lia.
  - apply triple_wp. iIntros "H". iApply wp_wand.
    iSplitL; [iApply (wp_take_quiet self r msg q buffer old Heq with "H"); lia|].
    iIntros (n) "(_ & $ & $ & H)". by iExists _.
Qed.

Definition nearly_full : ring := Ring 2 8 0 [[7]].

Lemma select_writer_forgotten_witness :
  (is_ring 40960 nearly_full ⊢ wp (hev_task_channel_is_select_writable 40960)
     (fun b => ⌞b = false⌟ ∗ is_ring 40960 nearly_full)) /\
  (is_ring 40960 (r_take nearly_full) ⊢ wp (hev_task_channel_is_select_writable 40960)
     (fun b => ⌞b = true⌟ ∗ is_ring 40960 (r_take nearly_full))) /\
  {{{ is_ring 40960 nearly_full ∗ chan_select 40960 ↦ NULL ∗ bytes 49152 [0] }}}
    channel_take 40960 49152 1
  {{{ _, is_ring 40960 (r_take nearly_full) ∗ chan_select 40960 ↦ NULL ∗ ∃ new, bytes 49152 new }}}.
Proof. by apply (select_writer_forgotten 40960 nearly_full 49152 [0]). Defined.
