(* ===== verification/Buffer.v ===== *)
(** * Buffer: [src/src/lib/io/buffer/hev-circular-buffer.c] *)

From S2P Require Export Prelude.
From S2P Require Export Env.
From S2P Require Export Mem.

(** ** [struct _HevCircularBuffer] *)

Definition cb_rp (self : Z) : Z := self.
Definition cb_use_size (self : Z) : Z := self + 8.
Definition cb_max_size (self : Z) : Z := self + 16.
Definition cb_ref_count (self : Z) : Z := self + 24.
Definition cb_data (self : Z) : Z := self + 28.
Definition SIZEOF_CIRCULAR_BUFFER : Z := 32.

(** [struct iovec], and element [i] of an array of them. *)
Definition iov_base (iov i : Z) : Z := iov + 16 * i.
Definition iov_len (iov i : Z) : Z := iov + 16 * i + 8.

(** Division by zero is undefined. *)
Definition umod (x y : Z) : M Z := if y =? 0 then fail Undefined else ret (x mod y).

Definition hev_circular_buffer_new (max_size : Z) : co Z :=
  self <~ hev_malloc (w64 (SIZEOF_CIRCULAR_BUFFER + max_size)) ;;
  if negb (is_true self) then Ret NULL else
  store (cb_rp self) 0 !;;
  store (cb_use_size self) 0 !;;
  store (cb_max_size self) max_size !;;
  store (cb_ref_count self) 1 !;;
  Ret self.

Definition hev_circular_buffer_ref (self : Z) : M Z :=
  rc <- load (cb_ref_count self) ;;
  store (cb_ref_count self) (w32 (rc + 1)) ;;;
  ret self.

Definition hev_circular_buffer_unref (self : Z) : co unit :=
  rc <! load (cb_ref_count self) ;;
  store (cb_ref_count self) (w32 (rc - 1)) !;;
  rc <! load (cb_ref_count self) ;;
  if is_true rc then Ret tt else hev_free self.

Definition hev_circular_buffer_get_max_size (self : Z) : M Z := load (cb_max_size self).
Definition hev_circular_buffer_get_use_size (self : Z) : M Z := load (cb_use_size self).

Definition hev_circular_buffer_reading (self iov : Z) : M Z :=
  max_size <- load (cb_max_size self) ;;
  rp <- load (cb_rp self) ;;
  let upper_size := w64 (max_size - rp) in
  use_size <- load (cb_use_size self) ;;
  if 0 =? use_size then ret 0 else
  store (iov_base iov 0) (cb_data self + rp) ;;;
  use_size <- load (cb_use_size self) ;;
  if use_size <=? upper_size then
    store (iov_len iov 0) use_size ;;; ret 1
  else
    store (iov_len iov 0) upper_size ;;;
    store (iov_base iov 1) (cb_data self) ;;;
    store (iov_len iov 1) (w64 (use_size - upper_size)) ;;;
    ret 2.

Definition hev_circular_buffer_read_finish (self size : Z) : M unit :=
  rp <- load (cb_rp self) ;;
  max_size <- load (cb_max_size self) ;;
  rp <- umod (w64 (rp + size)) max_size ;;
  store (cb_rp self) rp ;;;
  use_size <- load (cb_use_size self) ;;
  store (cb_use_size self) (w64 (use_size - size)).

Definition hev_circular_buffer_writing (self iov : Z) : M Z :=
  rp <- load (cb_rp self) ;;
  use_size <- load (cb_use_size self) ;;
  max_size <- load (cb_max_size self) ;;
  wp <- umod (w64 (rp + use_size)) max_size ;;
  let upper_size := w64 (max_size - wp) in
  let spc_size := w64 (max_size - use_size) in
  if use_size =? max_size then ret 0 else
  store (iov_base iov 0) (cb_data self + wp) ;;;
  if spc_size <=? upper_size then
    store (iov_len iov 0) spc_size ;;; ret 1
  else
    store (iov_len iov 0) upper_size ;;;
    store (iov_base iov 1) (cb_data self) ;;;
    store (iov_len iov 1) (w64 (spc_size - upper_size)) ;;;
    ret 2.

Definition hev_circular_buffer_write_finish (self size : Z) : M unit :=
  use_size <- load (cb_use_size self) ;;
  store (cb_use_size self) (w64 (use_size + size)).
