(* ===== verification/BufferProps.v ===== *)
(** * BufferProps: the circular buffer as a queue of bytes

    Areas of memory in several pieces are lists of segments; the bytes of the
    buffer in ring order lie in one segment or two, of which the filled part is
    for reading and the rest for writing. *)

From S2P Require Import Prelude.
From S2P Require Import Sep.
From S2P Require Import Env.
From S2P Require Import EnvLogic.
From S2P Require Import Bytes.
From S2P Require Import Buffer.

(** ** Segments *)

(** Addresses and lengths, none of them empty. *)
Abbreviation segs := (list (Z * Z)).

Fixpoint stake (n : Z) (s : segs) : segs :=
  match s with
  | [] => []
  | (a, len) :: s =>
      if n <=? 0 then [] else if n <=? len then [(a, n)] else (a, len) :: stake (n - len) s
  end.

Fixpoint sdrop (n : Z) (s : segs) : segs :=
  match s with
  | [] => []
  | (a, len) :: s => if n <? len then (a + n, len - n) :: s else sdrop (n - len) s
  end.

Definition segs_ok (s : segs) : Prop := Forall (fun p => 0 < p.2) s.

Definition slen (s : segs) : Z := foldr (fun p n => p.2 + n) 0 s.

(** The bytes [vs] laid out over segments. *)
Fixpoint seg_bytes (s : segs) (vs : list Z) : heapProp :=
  match s with
  | [] => ⌞vs = []⌟%I
  | (a, len) :: s =>
      (⌞len <= Z.of_nat (length vs)⌟ ∗ bytes a (take (Z.to_nat len) vs) ∗
       seg_bytes s (drop (Z.to_nat len) vs))%I
  end.

Lemma slen_nonneg s : segs_ok s -> 0 <= slen s.
Proof. induction 1 as [|[a n] s Hn _ IH]; simpl in *; lia. Qed.

Lemma stake_ok n s : segs_ok s -> segs_ok (stake n s).
Proof.
  intros Hs. revert n. induction Hs as [|[a len] s Hl _ IH]; intros n; simpl in *; [constructor|].
  destruct (Z.leb_spec n 0); [constructor|]. destruct (Z.leb_spec n len).
  - constructor; [simpl; lia|constructor].
  - constructor; [done|apply IH].
Qed.

Lemma sdrop_ok n s : segs_ok s -> segs_ok (sdrop n s).
Proof.
  intros Hs. revert n. induction Hs as [|[a len] s Hl Hs IH]; intros n; simpl in *; [constructor|].
  destruct (Z.ltb_spec n len); [|apply IH]. constructor; [simpl; lia|done].
Qed.

Lemma stake_0 s : stake 0 s = [].
Proof. by destruct s as [|[a n] s]. Qed.

Lemma sdrop_0 s : segs_ok s -> sdrop 0 s = s.
Proof.
  intros Hs. destruct Hs as [|[a n] s Hn Hs]; [done|]. simpl in *.
  rw (proj2 (Z.ltb_lt 0 n)) // Z.add_0_r Z.sub_0_r //.
Qed.

(** The three cases of a split: within the first segment, at its end, after. *)
Lemma seg_split_within a len s vs ws :
  Z.of_nat (length vs) < len ->
  seg_bytes ((a, len) :: s) (vs ++ ws) ⊣⊢
  bytes a vs ∗ seg_bytes ((a + Z.of_nat (length vs), len - Z.of_nat (length vs)) :: s) ws.
Proof.
  intros Hn. cbn [seg_bytes]. rw take_app_ge; [|lia]. rw drop_app_ge; [|lia]. rw bytes_app length_app.
  replace (Z.to_nat (len - Z.of_nat (length vs))) with (Z.to_nat len - length vs)%nat by lia.
  iSplit.
  - iIntros "(%H & [$ $] & $)". iPureIntro. lia.
  - iIntros "($ & %H & $ & $)". iPureIntro. lia.
Qed.

Lemma seg_split_end a len s vs ws :
  Z.of_nat (length vs) = len ->
  seg_bytes ((a, len) :: s) (vs ++ ws) ⊣⊢ bytes a vs ∗ seg_bytes s ws.
Proof.
  intros <-. cbn [seg_bytes]. rw Nat2Z.id take_app_length drop_app_length length_app.
  iSplit; [iIntros "(_ & $ & $)"|]. iIntros "[$ $]". iPureIntro. lia.
Qed.

Lemma seg_split_after a len s vs ws :
  0 <= len <= Z.of_nat (length vs) ->
  seg_bytes ((a, len) :: s) (vs ++ ws) ⊣⊢
  bytes a (take (Z.to_nat len) vs) ∗ seg_bytes s (drop (Z.to_nat len) vs ++ ws).
Proof.
  intros Hn. cbn [seg_bytes]. rw take_app_le; [|lia]. rw drop_app_le; [|lia]. rw length_app.
  iSplit; [iIntros "(_ & $ & $)"|]. iIntros "[$ $]". iPureIntro. lia.
Qed.

Lemma seg_bytes_one a vs :
  seg_bytes [(a, Z.of_nat (length vs))] vs ⊣⊢ bytes a vs.
Proof.
  cbn [seg_bytes]. rw Nat2Z.id firstn_all skipn_all. iSplit; [by iIntros "(_ & $ & _)"|].
  iIntros "$". iPureIntro. done.
Qed.

(** Bytes over segments are those over a first part and over the rest. *)
Lemma seg_bytes_split s vs ws :
  segs_ok s ->
  seg_bytes s (vs ++ ws) ⊣⊢
  seg_bytes (stake (Z.of_nat (length vs)) s) vs ∗ seg_bytes (sdrop (Z.of_nat (length vs)) s) ws.
Proof.
  intros Hs. revert vs. induction Hs as [|[a len] s Hl Hs IH]; intros vs.
  { simpl. iSplit; [iIntros "%H"; by apply app_eq_nil in H as [-> ->]; iSplit|].
    by iIntros "[-> ->]". }
  simpl in Hl. cbn [stake sdrop]. set (n := Z.of_nat (length vs)).
  destruct (Z.leb_spec n 0) as [Hn|Hn]; [|destruct (Z.leb_spec n len) as [Hnl|Hnl]].
  - destruct vs as [|v vs]; [|simpl in n; lia]. subst n.
    rw (proj2 (Z.ltb_lt (Z.of_nat (length [])) len)) //. rw (seg_split_within a len s [] ws) //.
    cbn [seg_bytes bytes]. iSplit; iIntros "[_ $]"; done.
  - destruct (Z.ltb_spec n len); [by rw seg_split_within // -seg_bytes_one|].
    assert (len = n) as -> by lia. rw Z.sub_diag sdrop_0 // seg_split_end // -seg_bytes_one //.
  - rw (proj2 (Z.ltb_ge n len)); [|lia]. rw seg_split_after; [|lia]. rw IH. rw assoc.
    assert (Z.of_nat (length (drop (Z.to_nat len) vs)) = n - len) as ->.
    { rw length_drop. lia. }
    cbn [seg_bytes]. f_equiv. iSplit; [iIntros "[$ $]"; iPureIntro; lia|]. iIntros "(_ & $ & $)".
Qed.

(** Segments laid over exactly their length. *)
Lemma seg_bytes_length s vs : segs_ok s -> seg_bytes s vs ⊢ ⌜Z.of_nat (length vs) = slen s⌝.
Proof.
  intros Hs. revert vs. induction Hs as [|[a len] s Hl Hs IH]; intros vs; simpl in *.
  - iIntros "->". done.
  - iIntros "(%H & _ & Hb)". iDestruct (IH with "Hb") as %Hl'. iPureIntro.
    rw length_drop in Hl'. lia.
Qed.

(** ** Descriptions of segments in an array of [struct iovec] *)

Fixpoint iovs (iov i : Z) (s : segs) : heapProp :=
  match s with
  | [] => emp%I
  | (a, len) :: s => (iov_base iov i ↦ a ∗ iov_len iov i ↦ len ∗ iovs iov (i + 1) s)%I
  end.

(** The caller's array of two. *)
Definition iov_two (iov : Z) : heapProp :=
  (∃ a b c d, iov_base iov 0 ↦ a ∗ iov_len iov 0 ↦ b ∗ iov_base iov 1 ↦ c ∗ iov_len iov 1 ↦ d)%I.

(** ** The abstract buffer *)

(** [cb_ring] are the bytes in ring order from the read position on, the first
    [cb_fill] of them the contents. *)
Record cbuf : Type := CBuf { cb_max : Z; cb_pos : Z; cb_fill : Z; cb_ring : list Z }.

Definition cb_contents (b : cbuf) : list Z := take (Z.to_nat (cb_fill b)) (cb_ring b).
Definition cb_space (b : cbuf) : list Z := drop (Z.to_nat (cb_fill b)) (cb_ring b).

Record cbuf_wf (b : cbuf) : Prop := {
  bw_max : 0 < cb_max b < 2 ^ 63;
  bw_pos : 0 <= cb_pos b < cb_max b;
  bw_fill : 0 <= cb_fill b <= cb_max b;
  bw_ring : Z.of_nat (length (cb_ring b)) = cb_max b
}.

(** The space gets new bytes. *)
Definition b_fill (new : list Z) (b : cbuf) : cbuf :=
  CBuf (cb_max b) (cb_pos b) (cb_fill b) (cb_contents b ++ new).

Definition b_written (n : Z) (b : cbuf) : cbuf :=
  CBuf (cb_max b) (cb_pos b) (cb_fill b + n) (cb_ring b).

Definition b_read (n : Z) (b : cbuf) : cbuf :=
  CBuf (cb_max b) ((cb_pos b + n) mod cb_max b) (cb_fill b - n)
       (drop (Z.to_nat n) (cb_ring b) ++ take (Z.to_nat n) (cb_ring b)).

(** All the buffer's bytes, in ring order. *)
Definition cb_segs (self : Z) (b : cbuf) : segs :=
  (cb_data self + cb_pos b, cb_max b - cb_pos b) ::
  (if cb_pos b =? 0 then [] else [(cb_data self, cb_pos b)]).

Definition cb_readable (self : Z) (b : cbuf) : segs := stake (cb_fill b) (cb_segs self b).
Definition cb_writable (self : Z) (b : cbuf) : segs := sdrop (cb_fill b) (cb_segs self b).

Definition cb_fields (self : Z) (b : cbuf) : heapProp :=
  (cb_rp self ↦ cb_pos b ∗ cb_use_size self ↦ cb_fill b ∗ cb_max_size self ↦ cb_max b ∗
   ⌞cbuf_wf b⌟)%I.

Definition is_cbuf (self : Z) (b : cbuf) : heapProp :=
  (cb_fields self b ∗ seg_bytes (cb_segs self b) (cb_ring b))%I.

Lemma cb_segs_ok self b : cbuf_wf b -> segs_ok (cb_segs self b).
Proof.
  intros []. unfold cb_segs. constructor; [simpl; lia|].
  destruct (Z.eqb_spec (cb_pos b) 0); [constructor|]. repeat constructor. simpl. lia.
Qed.

Lemma fill_length b : cbuf_wf b -> Z.of_nat (length (cb_contents b)) = cb_fill b.
Proof. intros []. unfold cb_contents. rw length_take. lia. Qed.

Lemma is_cbuf_wf self b : is_cbuf self b ⊢ ⌜cbuf_wf b⌝.
Proof. by iIntros "[(_ & _ & _ & %Hwf) _]". Qed.

(** The readable and the writable segments share the buffer between them: the
    first hold the contents. *)
Lemma is_cbuf_split self b :
  cbuf_wf b -> is_cbuf self b ⊣⊢ cb_fields self b ∗
    seg_bytes (cb_readable self b) (cb_contents b) ∗ seg_bytes (cb_writable self b) (cb_space b).
Proof.
  intros Hwf. unfold is_cbuf, cb_readable, cb_writable. f_equiv.
  rw -{1}(take_drop (Z.to_nat (cb_fill b)) (cb_ring b)) seg_bytes_split; [|by apply cb_segs_ok].
  fold (cb_contents b). rw fill_length //.
Qed.

(** ** The segments the code computes *)

Lemma readable_cases self b :
  cbuf_wf b ->
  let upper := cb_max b - cb_pos b in
  cb_readable self b =
    if 0 =? cb_fill b then []
    else if cb_fill b <=? upper then [(cb_data self + cb_pos b, cb_fill b)]
    else [(cb_data self + cb_pos b, upper); (cb_data self, cb_fill b - upper)].
Proof.
  intros [] upper. unfold cb_readable, cb_segs. cbn [stake]. fold upper.
  destruct (Z.eqb_spec 0 (cb_fill b)); [by rw (proj2 (Z.leb_le _ _)); [|lia]|].
  rw (proj2 (Z.leb_gt (cb_fill b) 0)); [|lia]. destruct (Z.leb_spec (cb_fill b) upper); [done|].
  destruct (Z.eqb_spec (cb_pos b) 0); [lia|]. cbn [stake].
  rw (proj2 (Z.leb_gt (cb_fill b - upper) 0)); [|lia].
  rw (proj2 (Z.leb_le (cb_fill b - upper) (cb_pos b))); [done|lia].
Qed.

Lemma writable_cases self b :
  cbuf_wf b ->
  let wp := (cb_pos b + cb_fill b) mod cb_max b in
  let upper := cb_max b - wp in
  let space := cb_max b - cb_fill b in
  cb_writable self b =
    if cb_fill b =? cb_max b then []
    else if space <=? upper then [(cb_data self + wp, space)]
    else [(cb_data self + wp, upper); (cb_data self, space - upper)].
Proof.
  intros [] wp upper space. unfold cb_writable, cb_segs. cbn [sdrop].
  destruct (Z.ltb_spec (cb_fill b) (cb_max b - cb_pos b)) as [Hf|Hf].
  - assert (wp = cb_pos b + cb_fill b) as Hwp by (apply Z.mod_small; lia).
    rw (proj2 (Z.eqb_neq (cb_fill b) (cb_max b))); [|lia].
    subst upper space. clearbody wp. subst wp.
    destruct (Z.eqb_spec (cb_pos b) 0); destruct (Z.leb_spec (cb_max b - cb_fill b)
      (cb_max b - (cb_pos b + cb_fill b))); try lia; [by repeat f_equal; lia|].
    f_equal; [f_equal; lia|]. f_equal. f_equal. lia.
  - destruct (Z.eqb_spec (cb_pos b) 0) as [Hp|Hp].
    { rw (proj2 (Z.eqb_eq (cb_fill b) (cb_max b))); [done|lia]. }
    assert (wp = cb_pos b + cb_fill b - cb_max b) as Hwp.
    { unfold wp. rw -(Z.mod_add _ (-1) (cb_max b)); [|lia]. rw Z.mod_small; lia. }
    cbn [sdrop]. destruct (Z.eqb_spec (cb_fill b) (cb_max b)) as [Hfm|Hfm].
    + rw (proj2 (Z.ltb_ge _ (cb_pos b))); [done|lia].
    + rw (proj2 (Z.ltb_lt (cb_fill b - (cb_max b - cb_pos b)) (cb_pos b))); [|lia].
      subst upper space. clearbody wp. subst wp.
      rw (proj2 (Z.leb_le _ (cb_max b - (cb_pos b + cb_fill b - cb_max b)))); [|lia].
      f_equal. f_equal; lia.
Qed.

(** The elements of the array that a call left alone. *)
Definition iov_rest (iov : Z) (n : nat) : heapProp :=
  match n with
  | O => iov_two iov
  | S O => (∃ c d, iov_base iov 1 ↦ c ∗ iov_len iov 1 ↦ d)%I
  | _ => emp%I
  end.

Lemma wp_reading self b iov :
  cb_fields self b ∗ iov_two iov ⊢ wp (hev_circular_buffer_reading self iov) (fun n =>
    ⌞n = Z.of_nat (length (cb_readable self b))⌟ ∗ cb_fields self b ∗
    iovs iov 0 (cb_readable self b) ∗ iov_rest iov (length (cb_readable self b))).
Proof.
  iIntros "[(Hr & Hu & Hm & %Hwf) (%x & %y & %z & %w & H0 & H1 & H2 & H3)]".
  rw (readable_cases self b Hwf). destruct Hwf as [] eqn:Hw. clear Hw.
  unfold hev_circular_buffer_reading. wp_load. wp_load. rw w64_small; [|lia]. wp_load.
  destruct (Z.eqb_spec 0 (cb_fill b)).
  { wp_norm. iSplitR; [done|]. iFrame. done. }
  wp_store. wp_load. destruct (Z.leb_spec (cb_fill b) (cb_max b - cb_pos b)).
  - wp_store. iSplitR; [done|]. iFrame. done.
  - wp_store. wp_store. rw w64_small; [|lia]. wp_store. iSplitR; [done|]. iFrame. done.
Qed.

Lemma wp_writing self b iov :
  cb_fields self b ∗ iov_two iov ⊢ wp (hev_circular_buffer_writing self iov) (fun n =>
    ⌞n = Z.of_nat (length (cb_writable self b))⌟ ∗ cb_fields self b ∗
    iovs iov 0 (cb_writable self b) ∗ iov_rest iov (length (cb_writable self b))).
Proof.
  iIntros "[(Hr & Hu & Hm & %Hwf) (%x & %y & %z & %w & H0 & H1 & H2 & H3)]".
  rw (writable_cases self b Hwf). destruct Hwf as [] eqn:Hw. clear Hw.
  assert (0 <= (cb_pos b + cb_fill b) mod cb_max b < cb_max b) as Hwp by (apply Z.mod_pos_bound; lia).
  unfold hev_circular_buffer_writing. wp_load. wp_load. wp_load. unfold umod.
  rw (proj2 (Z.eqb_neq (cb_max b) 0)); [|lia]. wp_norm.
  rw (w64_small (cb_pos b + cb_fill b)); [|lia].
  set (p := (cb_pos b + cb_fill b) mod cb_max b) in *. clearbody p.
  rw (w64_small (cb_max b - cb_fill b)); [|lia]. rw (w64_small (cb_max b - p)); [|lia].
  destruct (Z.eqb_spec (cb_fill b) (cb_max b)).
  { wp_norm. iSplitR; [done|]. iFrame. done. }
  wp_store. destruct (Z.leb_spec (cb_max b - cb_fill b) (cb_max b - p)).
  - wp_store. iSplitR; [done|]. iFrame. done.
  - wp_store. wp_store. rw w64_small; [|lia]. wp_store. iSplitR; [done|]. iFrame. done.
Qed.

(** ** Committing *)

Lemma written_wf n b :
  cbuf_wf b -> 0 <= n <= cb_max b - cb_fill b -> cbuf_wf (b_written n b).
Proof. intros [] Hn. split; simpl; lia || done. Qed.

Lemma read_wf n b : cbuf_wf b -> 0 <= n <= cb_fill b -> cbuf_wf (b_read n b).
Proof.
  intros [] Hn. split; simpl; try lia.
  - apply Z.mod_pos_bound. lia.
  - rw length_app length_drop length_take. lia.
Qed.

Lemma contents_written n b :
  cbuf_wf b -> 0 <= n <= cb_max b - cb_fill b ->
  cb_contents (b_written n b) = cb_contents b ++ take (Z.to_nat n) (cb_space b).
Proof.
  intros [] Hn. unfold cb_contents, cb_space, b_written. simpl.
  rw Z2Nat.inj_add; [|lia|lia]. by rw -take_take_drop.
Qed.

Lemma contents_read n b :
  cbuf_wf b -> 0 <= n <= cb_fill b ->
  cb_contents (b_read n b) = drop (Z.to_nat n) (cb_contents b).
Proof.
  intros [] Hn. unfold cb_contents, b_read. simpl. rw take_app_le; [|rw length_drop; lia].
  rw skipn_firstn_comm. f_equal. lia.
Qed.

(** In memory order the bytes do not move when the read position does. *)
Definition cb_area (b : cbuf) : list Z :=
  drop (Z.to_nat (cb_max b - cb_pos b)) (cb_ring b) ++ take (Z.to_nat (cb_max b - cb_pos b)) (cb_ring b).

Lemma segs_area self b :
  cbuf_wf b -> seg_bytes (cb_segs self b) (cb_ring b) ⊣⊢ bytes (cb_data self) (cb_area b).
Proof.
  intros []. unfold cb_segs, cb_area. set (n := Z.to_nat (cb_max b - cb_pos b)).
  rw -{1}(take_drop n (cb_ring b)).
  assert (Z.of_nat (length (take n (cb_ring b))) = cb_max b - cb_pos b) as Hn.
  { rw length_take. unfold n. lia. }
  rw seg_split_end // bytes_app. rw (comm bi_sep). f_equiv.
  - assert (Z.of_nat (length (drop n (cb_ring b))) = cb_pos b) as Hd.
    { rw length_drop. unfold n. lia. }
    destruct (Z.eqb_spec (cb_pos b) 0) as [Hp|Hp].
    + destruct (drop n (cb_ring b)); [by iSplit; iIntros "_"|simpl in Hd; lia].
    + rw -{1}Hd. apply seg_bytes_one.
  - rw length_drop. f_equiv. unfold n. lia.
Qed.

Lemma drop_take_drop {A} k n (l : list A) : (k <= n)%nat -> drop k (take n l) ++ drop n l = drop k l.
Proof.
  intros H. destruct (decide (n <= length l)%nat).
  - rw -{3}(take_drop n l) drop_app_le //. rw length_take. lia.
  - rw (drop_ge l n); [|lia]. rw (take_ge l n); [|lia]. apply app_nil_r.
Qed.

Lemma take_drop_take {A} k n (l : list A) : (n <= k)%nat -> take n l ++ take (k - n) (drop n l) = take k l.
Proof. intros H. rw take_take_drop. f_equal. lia. Qed.

Lemma area_read n b : cbuf_wf b -> 0 <= n <= cb_fill b -> cb_area (b_read n b) = cb_area b.
Proof.
  intros [] Hn. unfold cb_area, b_read. cbn [cb_max cb_pos cb_ring]. set (l := cb_ring b) in *.
  destruct (decide (cb_pos b + n < cb_max b)) as [Hlt|Hge].
  - rw Z.mod_small; [|lia]. rw take_app_le; [|rw length_drop; lia].
    rw drop_app_le; [|rw length_drop; lia]. rw drop_drop -app_assoc.
    replace (Z.to_nat n + Z.to_nat (cb_max b - (cb_pos b + n)))%nat with (Z.to_nat (cb_max b - cb_pos b)) by lia.
    f_equal. replace (Z.to_nat (cb_max b - (cb_pos b + n)))
      with (Z.to_nat (cb_max b - cb_pos b) - Z.to_nat n)%nat by lia. apply take_drop_take. lia.
  - assert ((cb_pos b + n) mod cb_max b = cb_pos b + n - cb_max b) as ->.
    { rw -(Z.mod_add _ (-1) (cb_max b)); [|lia]. rw Z.mod_small; lia. }
    set (m := Z.to_nat (cb_max b - cb_pos b)).
    assert (Z.to_nat (cb_max b - (cb_pos b + n - cb_max b)) = length (drop (Z.to_nat n) l) + m)%nat as ->.
    { rw length_drop. unfold m. lia. }
    rw take_app_add drop_app_add. rw take_take Nat.min_l; [|unfold m; lia].
    rw assoc_L drop_take_drop //. unfold m. lia.
Qed.

Lemma is_cbuf_area self b :
  is_cbuf self b ⊣⊢ cb_fields self b ∗ bytes (cb_data self) (cb_area b).
Proof.
  unfold is_cbuf. iSplit; iIntros "[Hf H]"; iDestruct "Hf" as "(H1 & H2 & H3 & %Hwf)"; iFrame;
    rw segs_area //; by iFrame.
Qed.

Lemma wp_read_finish self b n :
  0 <= n <= cb_fill b ->
  is_cbuf self b ⊢ wp (hev_circular_buffer_read_finish self n) (fun _ => is_cbuf self (b_read n b)).
Proof.
  intros Hn. rw is_cbuf_area. iIntros "[(Hr & Hu & Hm & %Hwf) Ha]". pose proof Hwf as [].
  unfold hev_circular_buffer_read_finish. wp_load. wp_load. unfold umod.
  rw (proj2 (Z.eqb_neq (cb_max b) 0)); [|lia]. wp_norm. wp_store. wp_load. wp_store.
  rw !w64_small; [|lia..]. rw is_cbuf_area area_read //. iFrame. iPureIntro. by apply read_wf.
Qed.

Lemma wp_write_finish self b n :
  0 <= n <= cb_max b - cb_fill b ->
  is_cbuf self b ⊢ wp (hev_circular_buffer_write_finish self n) (fun _ => is_cbuf self (b_written n b)).
Proof.
  intros Hn. iIntros "[(Hr & Hu & Hm & %Hwf) Hs]". pose proof Hwf as [].
  unfold hev_circular_buffer_write_finish. wp_load. wp_store. rw w64_small; [|lia]. iFrame.
  iPureIntro. by apply written_wf.
Qed.

(** New bytes for the space. *)
Lemma is_cbuf_fill self b new :
  cbuf_wf b ->
  cb_fields self b ∗ seg_bytes (cb_readable self b) (cb_contents b) ∗
  seg_bytes (cb_writable self b) new ⊢ is_cbuf self (b_fill new b).
Proof.
  intros Hwf. pose proof (fill_length b Hwf) as Hl. pose proof (cb_segs_ok self b Hwf) as Hok.
  iIntros "((Hr & Hu & Hm & _) & Hs1 & Hs2)".
  iAssert (seg_bytes (cb_segs self b) (cb_contents b ++ new)) with "[Hs1 Hs2]" as "Hs".
  { rw seg_bytes_split // Hl. iFrame. }
  iDestruct (seg_bytes_length _ _ Hok with "Hs") as %Hlen. iFrame. iPureIntro.
  destruct Hwf as []. split; simpl; [done..|]. rw Hlen. unfold cb_segs.
  destruct (Z.eqb_spec (cb_pos b) 0); simpl; lia.
Qed.

Lemma contents_fill new b : cbuf_wf b ->
  cb_contents (b_fill new b) = cb_contents b /\ cb_space (b_fill new b) = new.
Proof.
  intros Hwf. pose proof (fill_length b Hwf) as Hl. unfold cb_contents at 1, cb_space, b_fill. simpl.
  assert (Z.to_nat (cb_fill b) = length (cb_contents b)) as -> by lia.
  split; [apply take_app_length|apply drop_app_length].
Qed.

Lemma readable_slen self b : cbuf_wf b -> slen (cb_readable self b) = cb_fill b.
Proof.
  intros Hwf. rw (readable_cases self b Hwf). destruct Hwf as [].
  destruct (Z.eqb_spec 0 (cb_fill b)); [simpl; lia|].
  destruct (Z.leb_spec (cb_fill b) (cb_max b - cb_pos b)); simpl; lia.
Qed.

Lemma writable_slen self b : cbuf_wf b -> slen (cb_writable self b) = cb_max b - cb_fill b.
Proof.
  intros Hwf. rw (writable_cases self b Hwf). destruct Hwf as [].
  destruct (Z.eqb_spec (cb_fill b) (cb_max b)); [simpl; lia|].
  set (p := (cb_pos b + cb_fill b) mod cb_max b).
  destruct (Z.leb_spec (cb_max b - cb_fill b) (cb_max b - p)); simpl; lia.
Qed.

(** C21. [hev_circular_buffer_reading] describes the contents: it fills the first
    elements of the array, as many as it returns, with non-empty segments that
    hold the contents in order, and leaves the buffer alone. *)
Theorem cbuf_reading_contents self b iov :
  {{{ is_cbuf self b ∗ iov_two iov }}}
    hev_circular_buffer_reading self iov
  {{{ n, ∃ s, ⌞n = Z.of_nat (length s) /\ segs_ok s /\
                slen s = Z.of_nat (length (cb_contents b))⌟ ∗
         iovs iov 0 s ∗ iov_rest iov (length s) ∗ seg_bytes s (cb_contents b) ∗
         (seg_bytes s (cb_contents b) -∗ is_cbuf self b) }}}.
Proof.
  apply triple_wp. iIntros "[Hb Hi]". iDestruct (is_cbuf_wf with "Hb") as %Hwf.
  iDestruct (is_cbuf_split self b Hwf with "Hb") as "(Hf & Hr & Hw)". iApply wp_wand.
  iSplitL "Hf Hi"; [iApply wp_reading; iFrame|]. iIntros (n) "(-> & Hf & Hs & Hi)".
  iExists (cb_readable self b). iSplitR.
  { iPureIntro. split_and!; [done|by apply stake_ok, cb_segs_ok|].
    rw readable_slen // fill_length //. }
  iFrame "Hs Hi Hr". iIntros "Hr". rw is_cbuf_split //. iFrame.
Qed.

(** C20. [hev_circular_buffer_writing] describes the free space: whatever is
    stored in the segments it returns leaves the contents alone, and
    [write_finish] appends the first of it to the contents. *)
Theorem cbuf_writing_appends self b iov :
  {{{ is_cbuf self b ∗ iov_two iov }}}
    hev_circular_buffer_writing self iov
  {{{ n, ∃ s, ⌞n = Z.of_nat (length s) /\ segs_ok s /\ slen s = cb_max b - cb_fill b⌟ ∗
         iovs iov 0 s ∗ iov_rest iov (length s) ∗ seg_bytes s (cb_space b) ∗
         ∀ new size, seg_bytes s new -∗ ⌞0 <= size <= slen s⌟ -∗
           wp (hev_circular_buffer_write_finish self size) (fun _ => ∃ b', is_cbuf self b' ∗
             ⌞cb_contents b' = cb_contents b ++ take (Z.to_nat size) new /\ cb_max b' = cb_max b⌟) }}}.
Proof.
  apply triple_wp. iIntros "[Hb Hi]". iDestruct (is_cbuf_wf with "Hb") as %Hwf.
  iDestruct (is_cbuf_split self b Hwf with "Hb") as "(Hf & Hr & Hw)". iApply wp_wand.
  iSplitL "Hf Hi"; [iApply wp_writing; iFrame|]. iIntros (n) "(-> & Hf & Hs & Hi)".
  iExists (cb_writable self b). iSplitR.
  { iPureIntro. split_and!; [done|by apply sdrop_ok, cb_segs_ok|by apply writable_slen]. }
  iFrame "Hs Hi Hw". iIntros (new size) "Hw %Hsize". rw writable_slen // in Hsize.
  iDestruct (is_cbuf_fill self b new Hwf with "[$Hf $Hr $Hw]") as "Hb".
  iDestruct (is_cbuf_wf with "Hb") as %Hwf'.
  iApply wp_wand. iSplitL; [iApply (wp_write_finish self (b_fill new b) with "Hb"); done|].
  iIntros (_) "H". iExists _. iFrame. iPureIntro. split; [|done].
  rw contents_written //. destruct (contents_fill new b Hwf) as [-> ->]. done.
Qed.

(** C22. [hev_circular_buffer_read_finish] drops the oldest bytes and frees their
    space. *)
Theorem cbuf_read_finish_drops self b n :
  0 <= n <= cb_fill b ->
  {{{ is_cbuf self b }}}
    hev_circular_buffer_read_finish self n
  {{{ _, ∃ b', is_cbuf self b' ∗
      ⌞cb_contents b' = drop (Z.to_nat n) (cb_contents b) /\ cb_max b' = cb_max b /\
       slen (cb_writable self b') = (cb_max b - cb_fill b + n)%Z⌟ }}}.
Proof.
  intros Hn. apply triple_wp. iIntros "Hb". iDestruct (is_cbuf_wf with "Hb") as %Hwf.
  iApply wp_wand. iSplitL; [by iApply (wp_read_finish with "Hb")|].
  iIntros (_) "H". iExists _. iFrame. iPureIntro. rw contents_read //.
  split_and!; [done|done|]. rw writable_slen; [|by apply read_wf]. simpl. lia.
Qed.

Lemma cbuf_read_finish_drops_witness :
  {{{ is_cbuf 4096 (CBuf 4 3 2 [10; 11; 12; 13]) }}}
    hev_circular_buffer_read_finish 4096 2
  {{{ _, ∃ b', is_cbuf 4096 b' ∗
      ⌞cb_contents b' = [] /\ cb_max b' = 4 /\ slen (cb_writable 4096 b') = 4⌟ }}}.
Proof. by apply (cbuf_read_finish_drops 4096 (CBuf 4 3 2 [10; 11; 12; 13]) 2). Defined.
