(* ===== verification/Object.v ===== *)
(** * Object: [src/src/lib/object], reference counted objects with classes

    The methods of a class are function pointers.  The library's own have the
    constants [FN_*]; those of a client's subclasses are the parameter
    [methods f self]. *)

From S2P Require Export Prelude.
From S2P Require Export Env.

Definition obj_klass (o : Z) : Z := o.
Definition obj_ref_count (o : Z) : Z := o + 8.
Definition SIZEOF_OBJECT : Z := 16.

Definition class_name (k : Z) : Z := k.
Definition class_ref (k : Z) : Z := k + 8.
Definition class_destruct (k : Z) : Z := k + 16.
Definition class_iface (k : Z) : Z := k + 24.

(** The two [static ... klass], and the strings that name them. *)
Definition object_klass : Z := 1024.
Definition object_atomic_klass : Z := 1088.
Definition STR_HevObject : Z := 3001.
Definition STR_HevObjectAtomic : Z := 3002.

Definition FN_object_destruct : Z := 201.
Definition FN_object_ref : Z := 202.
Definition FN_object_atomic_destruct : Z := 203.
Definition FN_object_atomic_ref : Z := 204.

(** [memcpy] of the first [sizeof (HevObjectClass)] bytes. *)
Definition copy_class (dst src : Z) : M unit :=
  v <- load (class_name src) ;; store (class_name dst) v ;;;
  v <- load (class_ref src) ;; store (class_ref dst) v ;;;
  v <- load (class_destruct src) ;; store (class_destruct dst) v ;;;
  v <- load (class_iface src) ;; store (class_iface dst) v.

Definition hev_object_class : M Z :=
  let kptr := object_klass in
  name <- load (class_name kptr) ;;
  when (negb (is_true name))
    (store (class_name kptr) STR_HevObject ;;;
     store (class_destruct kptr) FN_object_destruct ;;;
     store (class_ref kptr) FN_object_ref) ;;;
  ret kptr.

Definition hev_object_atomic_class : M Z :=
  let okptr := object_atomic_klass in
  name <- load (class_name okptr) ;;
  when (negb (is_true name))
    (base <- hev_object_class ;;
     copy_class okptr base ;;;
     store (class_name okptr) STR_HevObjectAtomic ;;;
     store (class_destruct okptr) FN_object_atomic_destruct ;;;
     store (class_ref okptr) FN_object_atomic_ref) ;;;
  ret okptr.

Definition hev_object_construct (self : Z) : M Z :=
  klass <- hev_object_class ;;
  store (obj_klass self) klass ;;;
  store (obj_ref_count self) 1 ;;;
  ret 0.

Definition hev_object_atomic_construct (self : Z) : M Z :=
  res <- hev_object_construct self ;;
  if res <? 0 then ret res else
  klass <- hev_object_atomic_class ;;
  store (obj_klass self) klass ;;;
  ret 0.

Section methods.
Context (methods : Z -> Z -> co unit).

Definition _hev_object_destruct (self : Z) : co unit := Ret tt.

(** [HEV_OBJECT_TYPE->destruct (base)], whose class is never a client's. *)
Definition _hev_object_atomic_destruct (base : Z) : co unit :=
  klass <! hev_object_class ;;
  f <! load (class_destruct klass) ;;
  if f =? FN_object_destruct then _hev_object_destruct base else methods f base.

Definition call_destruct (kptr self : Z) : co unit :=
  f <! load (class_destruct kptr) ;;
  if f =? FN_object_destruct then _hev_object_destruct self
  else if f =? FN_object_atomic_destruct then _hev_object_atomic_destruct self
  else methods f self.

Definition _hev_object_ref (self ref : Z) : co unit :=
  kptr <! load (obj_klass self) ;;
  if is_true ref then
    rc <! load (obj_ref_count self) ;;
    act (store (obj_ref_count self) (w32 (rc + 1)))
  else
    rc <! load (obj_ref_count self) ;;
    store (obj_ref_count self) (w32 (rc - 1)) !;;
    rc <! load (obj_ref_count self) ;;
    if is_true rc then Ret tt else call_destruct kptr self.

(** The old value, in one step. *)
Definition atomic_fetch_add (a n : Z) : M Z :=
  v <- load a ;; store a (w32 (v + n)) ;;; ret v.

Definition _hev_object_atomic_ref (base ref : Z) : co unit :=
  kptr <! load (obj_klass base) ;;
  if is_true ref then
    atomic_fetch_add (obj_ref_count base) 1 !;; Ret tt
  else
    rc <! atomic_fetch_add (obj_ref_count base) (-1) ;;
    if 1 <? rc then Ret tt else call_destruct kptr base.

Definition call_ref (self ref : Z) : co unit :=
  kptr <! load (obj_klass self) ;;
  f <! load (class_ref kptr) ;;
  if f =? FN_object_ref then _hev_object_ref self ref
  else if f =? FN_object_atomic_ref then _hev_object_atomic_ref self ref
  else act (fail Segv).

Definition hev_object_ref (self : Z) : co unit := call_ref self 1.
Definition hev_object_unref (self : Z) : co unit := call_ref self 0.
End methods.
