(* ===== verification/IO.v ===== *)
(** * IO: [src/src/lib/io/basic], [pipe] and [poll]

    System calls answer with a result and an [errno]; a call that would block
    suspends the task and is retried.  A yielder is a function pointer of the
    client: [yielders f type data] is what calling it does. *)

From S2P Require Export Prelude.
From S2P Require Export Env.
From S2P Require Export TaskBase.
From S2P Require Export Task.
From S2P Require Export Reactor.
From S2P Require Export Buffer.

Definition EINTR : Z := 4.
Definition EIO : Z := 5.
Definition EAGAIN : Z := 11.
Definition EINVAL : Z := 22.

Definition O_WRONLY : Z := 1.
Definition O_CREAT : Z := 64.
Definition O_TRUNC : Z := 512.
Definition O_NONBLOCK : Z := 2048.
Definition F_GETFL : Z := 3.
Definition F_SETFL : Z := 4.
Definition FIONBIO : Z := 21537.
Definition F_GETPIPE_SZ : Z := 1032.
Definition SHUT_WR : Z := 1.
Definition SPLICE_F_MOVE : Z := 1.
Definition SPLICE_F_NONBLOCK : Z := 2.

(** Assignment to the C library's [errno]. *)
Definition set_errno (v : Z) : co unit := sys "errno" [v] ~;; Ret tt.

(** ** Opening and closing; [mode] is the optional argument *)

Definition hev_task_io_open (pathname flags mode : Z) : co Z :=
  let flags := Z.lor flags O_NONBLOCK in
  if is_true (Z.land O_CREAT flags) then sys "open" [pathname; flags; mode]
  else sys "open" [pathname; flags].

Definition hev_task_io_creat (pathname mode : Z) : co Z :=
  hev_task_io_open pathname (Z.lor (Z.lor O_CREAT O_WRONLY) O_TRUNC) mode.

Definition hev_task_io_openat (dirfd pathname flags mode : Z) : co Z :=
  let flags := Z.lor flags O_NONBLOCK in
  if is_true (Z.land O_CREAT flags) then sys "openat" [dirfd; pathname; flags; mode]
  else sys "openat" [dirfd; pathname; flags].

Definition hev_task_io_close (fd : Z) : co Z := sys "close" [fd].

Definition hev_task_io_dup (oldfd : Z) : co Z :=
  newfd <~ sys "dup" [oldfd] ;;
  if newfd <? 0 then Ret (-1) else
  r <~ sys "ioctl" [newfd; FIONBIO; 1] ;;
  if r <? 0 then hev_task_io_close newfd ~;; Ret (-2) else
  Ret newfd.

Definition hev_task_io_dup2 (oldfd newfd : Z) : co Z :=
  newfd <~ sys "dup2" [oldfd; newfd] ;;
  if newfd <? 0 then Ret (-1) else
  r <~ sys "ioctl" [newfd; FIONBIO; 1] ;;
  if r <? 0 then hev_task_io_close newfd ~;; Ret (-2) else
  Ret newfd.

Definition hev_task_io_fcntl (fd cmd arg : Z) : co Z :=
  if (cmd =? F_GETFD) || (cmd =? F_GETFL) then sys "fcntl" [fd; cmd]
  else if (cmd =? F_SETFD) || (cmd =? F_SETFL) then sys "fcntl" [fd; cmd; arg]
  else set_errno EINVAL ~;; Ret (-1).

(** The cells the buffers of an [iovec] array cover. *)
Fixpoint iov_cells (iov : Z) (l : list Z) : M (list Z) :=
  match l with
  | [] => ret []
  | i :: l =>
      base <- load (iov_base iov i) ;;
      len <- load (iov_len iov i) ;;
      rest <- iov_cells iov l ;;
      ret (zrange base len ++ rest)
  end.

(** The bytes at some cells: a call that writes them out reads them, and has
    them as further arguments. *)
Fixpoint load_all (l : list Z) : M (list Z) :=
  match l with
  | [] => ret []
  | a :: l => v <- load a ;; vs <- load_all l ;; ret (v :: vs)
  end.

Section yielders.
Context (yielders : Z -> Z -> Z -> co Z).

(** Suspend the task for [type]: true when the yielder asks to stop. *)
Definition io_yield (type yielder yielder_data : Z) : co bool :=
  if is_true yielder then
    r <~ yielders yielder type yielder_data ;; Ret (is_true r)
  else hev_task_yield type ~;; Ret false.

(** The [retry] loop of the reads and writes below. *)
Definition io_retry (c : co answer) (yielder yielder_data : Z) : co Z :=
  co_while (fun _ : unit =>
    a <~ c ;;
    let s := a_ret a in
    if (s <? 0) && (a_errno a =? EAGAIN) then
      stop <~ io_yield HEV_TASK_WAITIO yielder yielder_data ;;
      Ret (if stop : bool then inr (-2) else inl tt)
    else Ret (inr s)) tt.

Definition hev_task_io_read (fd buf count yielder yielder_data : Z) : co Z :=
  io_retry (call (Sys "read" [fd; buf; count] (zrange buf count))) yielder yielder_data.

Definition hev_task_io_readv (fd iov iovcnt yielder yielder_data : Z) : co Z :=
  io_retry (outs <! iov_cells iov (zrange 0 iovcnt) ;;
            call (Sys "readv" [fd; iov; iovcnt] outs)) yielder yielder_data.

Definition hev_task_io_write (fd buf count yielder yielder_data : Z) : co Z :=
  io_retry (bytes <! load_all (zrange buf count) ;;
            call (Query "write" ([fd; buf; count] ++ bytes) 0)) yielder yielder_data.

Definition hev_task_io_writev (fd iov iovcnt yielder yielder_data : Z) : co Z :=
  io_retry (ins <! iov_cells iov (zrange 0 iovcnt) ;;
            bytes <! load_all ins ;;
            call (Query "writev" ([fd; iov; iovcnt] ++ bytes) 0)) yielder yielder_data.

(** ** Splicing, with the [splice] system call

    A splicer is a local struct: its pipe, the bytes in the pipe and the
    pipe's size. *)

Record splicer : Type := Splicer { sp_rfd : Z; sp_wfd : Z; sp_wlen : Z; sp_blen : Z }.

(** [None] when the function fails with [res < 0]. *)
Definition task_io_splicer_init (buf_size : Z) : co (option splicer) :=
  task <! hev_task_self ;;
  a <~ call (Query "pipe2" [O_NONBLOCK] 2) ;;
  if a_ret a <? 0 then Ret None else
  match a_data a with
  | [rfd; wfd] =>
      let exit_close := hev_task_io_close rfd ~;; hev_task_io_close wfd ~;; Ret None in
      res <~ hev_task_add_fd task rfd POLLIN ;;
      if res <? 0 then exit_close else
      res <~ hev_task_add_fd task wfd POLLOUT ;;
      if res <? 0 then exit_close else
      buf_size <~ sys "fcntl" [rfd; F_GETPIPE_SZ] ;;
      Ret (Some (Splicer rfd wfd 0 (w64 buf_size)))
  | _ => act (fail Undefined)
  end.

Definition task_io_splicer_fini (self : splicer) : co unit :=
  hev_task_io_close (sp_rfd self) ~;;
  hev_task_io_close (sp_wfd self) ~;; Ret tt.

(** What a failed transfer means: 0 to wait, -1 for an end. *)
Definition splice_res (a : answer) : Z :=
  if (a_ret a <? 0) && (EAGAIN =? a_errno a) then 0 else -1.

Definition splice (from to len : Z) : co answer :=
  call (Query "splice" [from; NULL; to; NULL; len; Z.lor SPLICE_F_MOVE SPLICE_F_NONBLOCK] 0).

Definition task_io_splice (self : splicer) (fd_in fd_out : Z) : co (Z * splicer) :=
  a <~ splice fd_in (sp_wfd self) (sp_blen self) ;;
  let '(res, wlen) :=
    if a_ret a <=? 0 then (splice_res a, sp_wlen self)
    else (1, w64 (sp_wlen self + a_ret a)) in
  if is_true wlen then
    a <~ splice (sp_rfd self) fd_out (sp_blen self) ;;
    let '(res, wlen) :=
      if a_ret a <=? 0 then (splice_res a, wlen) else (1, w64 (wlen - a_ret a)) in
    Ret (res, Splicer (sp_rfd self) (sp_wfd self) wlen (sp_blen self))
  else
    (if res <? 0 then sys "shutdown" [fd_out; SHUT_WR] ~;; Ret tt else Ret tt) ~;;
    Ret (res, Splicer (sp_rfd self) (sp_wfd self) wlen (sp_blen self)).

(** ** Splicing through a circular buffer; [iov] is the local array *)

Definition buf_splicer_init (buf_size : Z) : co Z := hev_circular_buffer_new buf_size.

Definition buf_splicer_fini (buf : Z) : co unit :=
  if is_true buf then hev_circular_buffer_unref buf else Ret tt.

(** The first half: fill the free space. *)
Definition buf_splice_in (buf iov fd_in : Z) : co Z :=
  iovc <! hev_circular_buffer_writing buf iov ;;
  if is_true iovc then
    outs <! iov_cells iov (zrange 0 iovc) ;;
    a <~ call (Sys "readv" [fd_in; iov; iovc] outs) ;;
    if a_ret a <=? 0 then Ret (splice_res a)
    else hev_circular_buffer_write_finish buf (a_ret a) !;; Ret 1
  else Ret 1.

(** The second half: send the contents, or pass the end on. *)
Definition buf_splice_out (buf iov fd_out res : Z) : co Z :=
  iovc <! hev_circular_buffer_reading buf iov ;;
  if is_true iovc then
    ins <! iov_cells iov (zrange 0 iovc) ;;
    bytes <! load_all ins ;;
    a <~ call (Query "writev" ([fd_out; iov; iovc] ++ bytes) 0) ;;
    if a_ret a <=? 0 then Ret (splice_res a)
    else hev_circular_buffer_read_finish buf (a_ret a) !;; Ret 1
  else
    (if res <? 0 then sys "shutdown" [fd_out; SHUT_WR] ~;; Ret tt else Ret tt) ~;;
    Ret res.

Definition buf_splice (buf iov fd_in fd_out : Z) : co Z :=
  res <~ buf_splice_in buf iov fd_in ;;
  buf_splice_out buf iov fd_out res.

(** ** [hev_task_io_splice], over either kind of splicer *)

Section splicer.
Context {S : Type} (init : co (option S)) (fini : S -> co unit)
  (step : S -> Z -> Z -> co (Z * S)).
Context (fd_a_i fd_a_o fd_b_i fd_b_o yielder yielder_data : Z).

(** State of the loop: [res_f], [res_b] and the two splicers. *)
Definition splice_body (st : Z * Z * S * S) : co ((Z * Z * S * S) + (S * S)) :=
  let '(res_f, res_b, f, b) := st in
  f' <~ (if 0 <=? res_f then step f fd_a_i fd_b_o else Ret (res_f, f)) ;;
  b' <~ (if 0 <=? res_b then step b fd_b_i fd_a_o else Ret (res_b, b)) ;;
  let '(res_f, f) := f' in
  let '(res_b, b) := b' in
  if (0 <? res_f) || (0 <? res_b) || (Z.land res_f res_b =? 0) then
    let type :=
      if (0 <? res_f) || (0 <? res_b) then HEV_TASK_YIELD else HEV_TASK_WAITIO in
    stop <~ io_yield type yielder yielder_data ;;
    Ret (if stop : bool then inr (f, b) else inl (res_f, res_b, f, b))
  else Ret (inr (f, b)).

Definition hev_task_io_splice : co unit :=
  f <~ init ;;
  match f with
  | None => Ret tt
  | Some f =>
      b <~ init ;;
      match b with
      | None => fini f
      | Some b =>
          fb <~ co_while splice_body (1, 1, f, b) ;;
          fini fb.2 ~;;
          fini fb.1
      end
  end.
End splicer.

(** The program built without the [splice] system call. *)
Definition hev_task_io_splice_buf (iov fd_a_i fd_a_o fd_b_i fd_b_o buf_size : Z) : Z -> Z -> co unit :=
  hev_task_io_splice
    (buf <~ buf_splicer_init buf_size ;; Ret (if is_true buf then Some buf else None))
    buf_splicer_fini
    (fun buf fd_in fd_out => res <~ buf_splice buf iov fd_in fd_out ;; Ret (res, buf))
    fd_a_i fd_a_o fd_b_i fd_b_o.
End yielders.

(** ** [hev_task_io_pipe_pipe] *)

Definition pipe_fd (pipefd i : Z) : Z := pipefd + 4 * i.

Definition hev_task_io_pipe_pipe (pipefd : Z) : co Z :=
  a <~ call (Sys "pipe" [pipefd] [pipe_fd pipefd 0; pipe_fd pipefd 1]) ;;
  if a_ret a <? 0 then Ret (-1) else
  fd0 <! load (pipe_fd pipefd 0) ;;
  fd1 <! load (pipe_fd pipefd 1) ;;
  r <~ sys "ioctl" [fd0; FIONBIO; 1] ;;
  if r <? 0 then hev_task_io_close fd0 ~;; hev_task_io_close fd1 ~;; Ret (-2) else
  r <~ sys "ioctl" [fd1; FIONBIO; 1] ;;
  if r <? 0 then hev_task_io_close fd0 ~;; hev_task_io_close fd1 ~;; Ret (-3) else
  Ret 0.

(** ** [hev_task_io_poll] *)

(** [struct pollfd] *)
Definition pfd_fd (fds i : Z) : Z := fds + 8 * i.
Definition pfd_events (fds i : Z) : Z := fds + 8 * i + 4.
Definition pfd_revents (fds i : Z) : Z := fds + 8 * i + 6.

Definition poll (fds nfds timeout : Z) : co Z :=
  a <~ call (Sys "poll" [fds; nfds; timeout] (pfd_revents fds <$> zrange 0 nfds)) ;;
  Ret (a_ret a).

Definition poll_register (task fds i : Z) : co unit :=
  fd <! load (pfd_fd fds i) ;;
  events <! load (pfd_events fds i) ;;
  r <~ hev_task_mod_fd task fd events ;;
  if r <? 0 then hev_task_add_fd task fd events ~;; Ret tt else Ret tt.

(** [tnode] is the timer node on the caller's stack. *)
Definition hev_task_io_poll (fds nfds timeout tnode : Z) : co Z :=
  if timeout =? 0 then poll fds nfds 0 else
  task <! hev_task_self ;;
  co_for (zrange 0 nfds) (poll_register task fds) ~;;
  if 0 <? timeout then
    co_while (fun timeout =>
      timeout <~ hev_task_sleep (w32 timeout) tnode ;;
      let timeout := s32 timeout in
      res <~ poll fds nfds 0 ;;
      Ret (if (0 <? timeout) && (res =? 0) then inl timeout else inr res)) timeout
  else
    co_while (fun _ : unit =>
      hev_task_yield HEV_TASK_WAITIO ~;;
      res <~ poll fds nfds 0 ;;
      Ret (if res =? 0 then inl tt else inr res)) tt.
