(* ===== verification/SpliceProofs.v ===== *)
(** * SpliceProofs: forwarding between streams through circular buffers

    The bytes a program got from a descriptor and passed to another are read
    off its log ([Trace]); what it got and has not passed on yet is the
    contents of the buffer. *)

From S2P Require Import Prelude.
From S2P Require Import Sep.
From S2P Require Import Env.
From S2P Require Import EnvLogic.
From S2P Require Import Trace.
From S2P Require Import Bytes.
From S2P Require Import Mem.
From S2P Require Import Quiet.
From S2P Require Import Buffer.
From S2P Require Import BufferProps.
From S2P Require Import IO.

(** ** Streams in a log *)

(** The bytes that one call got from [fd], and those it passed to [fd]. *)
Definition got (fd : Z) (x : entry) : list Z :=
  match x with
  | (Sys f (d :: _) _, a) => if String.eqb f "readv" && (d =? fd) then a_data a else []
  | _ => []
  end.

Definition passed (fd : Z) (x : entry) : list Z :=
  match x with
  | (Query f (d :: _ :: _ :: bytes) _, a) =>
      if String.eqb f "writev" && (d =? fd) then take (Z.to_nat (a_ret a)) bytes else []
  | _ => []
  end.

Definition shuts (fd : Z) (x : entry) : Prop :=
  match x.1 with
  | Query f [d; how] _ => f = "shutdown" /\ d = fd /\ how = SHUT_WR
  | _ => False
  end.

Definition received (fd : Z) (log : list entry) : list Z := concat (map (got fd) log).
Definition delivered (fd : Z) (log : list entry) : list Z := concat (map (passed fd) log).
Definition shut (fd : Z) (log : list entry) : Prop := Exists (shuts fd) log.

Lemma received_app fd l1 l2 : received fd (l1 ++ l2) = received fd l1 ++ received fd l2.
Proof. unfold received. by rw map_app concat_app. Qed.

Lemma delivered_app fd l1 l2 : delivered fd (l1 ++ l2) = delivered fd l1 ++ delivered fd l2.
Proof. unfold delivered. by rw map_app concat_app. Qed.

Lemma shut_nil fd : ~ shut fd [].
Proof. intros H. inversion H. Qed.

(** Calls that leave streams alone. *)
Lemma quiet_streams fd l :
  Forall (fun x => quiet x.1) l -> received fd l = [] /\ delivered fd l = [] /\ ~ shut fd l.
Proof.
  induction 1 as [|[e a] l Hx _ (IHr & IHd & IHs)].
  { split_and!; [done|done|apply shut_nil]. }
  assert (got fd (e, a) = [] /\ passed fd (e, a) = [] /\ ~ shuts fd (e, a)) as (Hg & Hp & Hs).
  { cbn [fst] in Hx. destruct e as [| | |f args outs|f args n|]; cbn; try tauto;
      unfold quiet, stream_call in Hx; apply orb_false_iff in Hx as [Hx _];
      apply orb_false_iff in Hx as [Hx Hx3];
      apply orb_false_iff in Hx as [Hx1 Hx2].
    - rw Hx1. destruct args; tauto.
    - rw Hx2. apply String.eqb_neq in Hx3. repeat case_match; (split_and!; [done|done|intros Hsh; by destruct Hsh]). }
  unfold received, delivered, shut in *. cbn [map concat]. rw Hg Hp IHr IHd Exists_cons. tauto.
Qed.

(** The calls of [ev] get bytes from [fd_in] only, pass bytes to and shut down
    [fd_out] only. *)
Definition only_between (fd_in fd_out : Z) (ev : list entry) : Prop :=
  forall fd, (fd <> fd_in -> received fd ev = []) /\
             (fd <> fd_out -> delivered fd ev = [] /\ ~ shut fd ev).

Lemma only_between_nil fd_in fd_out : only_between fd_in fd_out [].
Proof. intros fd. split; [done|]. split; [done|apply shut_nil]. Qed.

Lemma only_between_app fd_in fd_out l1 l2 :
  only_between fd_in fd_out l1 -> only_between fd_in fd_out l2 ->
  only_between fd_in fd_out (l1 ++ l2).
Proof.
  intros H1 H2 fd. destruct (H1 fd) as [Hr1 Hd1], (H2 fd) as [Hr2 Hd2]. split.
  - intros Hne. by rw received_app Hr1 // Hr2.
  - intros Hne. destruct (Hd1 Hne) as [Hd1' Hs1], (Hd2 Hne) as [Hd2' Hs2]. split.
    + by rw delivered_app Hd1' Hd2'.
    + rw /shut Exists_app. tauto.
Qed.

(** ** Segments as cells *)

Definition seg_cells (s : segs) : list Z := concat (map (fun p => zrange p.1 p.2) s).

Lemma cells_with_app l1 l2 v1 v2 :
  length l1 = length v1 -> cells_with (l1 ++ l2) (v1 ++ v2) ⊣⊢ cells_with l1 v1 ∗ cells_with l2 v2.
Proof. intros H. unfold cells_with. apply big_sepL2_app_same_length. by left. Qed.

Lemma seg_bytes_cells s vs :
  segs_ok s -> Z.of_nat (length vs) = slen s -> seg_bytes s vs ⊣⊢ cells_with (seg_cells s) vs.
Proof.
  intros Hs. revert vs. induction Hs as [|[a len] s Hl Hs IH]; intros vs Hv; simpl in *.
  - destruct vs; [|simpl in Hv; lia]. unfold cells_with. rw big_sepL2_nil. by iSplit; iIntros "_".
  - unfold seg_cells. cbn [map concat fst snd]. set (n := Z.to_nat len).
    pose proof (slen_nonneg s Hs). rw -{4}(take_drop n vs).
    assert (length (take n vs) = n) as Hn by (rw length_take; unfold n; lia).
    assert (length (zrange a len) = n) as Hz by (unfold zrange; rw length_seqZ; done).
    rw cells_with_app; [|by rw Hz]. rw bytes_cells_with Hn. rw IH; [|rw length_drop; unfold n; lia].
    assert (Z.of_nat n = len) as -> by (unfold n; lia).
    iSplit; [iIntros "(_ & $ & $)"|]. iIntros "[$ $]". iPureIntro. lia.
Qed.

Lemma seg_cells_length s : segs_ok s -> Z.of_nat (length (seg_cells s)) = slen s.
Proof.
  unfold seg_cells. induction 1 as [|[a len] s Hl _ IH]; simpl in *; [done|].
  unfold zrange in *. rw length_app length_seqZ. lia.
Qed.

(** Segments whose first bytes a call has stored. *)
Lemma seg_bytes_stored s data :
  segs_ok s -> (length data <= length (seg_cells s))%nat ->
  cells_with (take (length data) (seg_cells s)) data ∗ cells (drop (length data) (seg_cells s))
  ⊢ ∃ ws, seg_bytes s (data ++ ws).
Proof.
  intros Hs Hd. iIntros "[H1 H2]". iDestruct (cells_values with "H2") as "(%ws & H2 & %Hws)".
  iExists ws. pose proof (seg_cells_length s Hs). rw length_drop in Hws.
  rw seg_bytes_cells; [|done|rw length_app; lia].
  rw -{3}(take_drop (length data) (seg_cells s)) cells_with_app; [|rw length_take; lia].
  iFrame.
Qed.

Lemma wp_load_all l vs (Q : list Z -> heapProp) :
  cells_with l vs ∗ (cells_with l vs -∗ Q vs) ⊢ wp (load_all l) Q.
Proof.
  revert vs Q. induction l as [|a l IH]; intros vs Q; cbn [load_all].
  - iIntros "[H HQ]". iDestruct (big_sepL2_nil_inv_l with "H") as %->. wp_norm. by iApply "HQ".
  - iIntros "[H HQ]". destruct vs as [|v vs]; [by iDestruct "H" as "[]"|].
    iDestruct "H" as "[Ha H]". wp_load. iApply wp_bind. iApply IH. iFrame "H". iIntros "H". wp_norm.
    iApply "HQ". iFrame.
Qed.

Lemma wp_iov_cells iov i s (Q : list Z -> heapProp) :
  iovs iov i s ∗ (iovs iov i s -∗ Q (seg_cells s))
  ⊢ wp (iov_cells iov (zrange i (Z.of_nat (length s)))) Q.
Proof.
  revert i Q. induction s as [|[a len] s IH]; intros i Q.
  - iIntros "[H HQ] /=". wp_norm. by iApply "HQ".
  - unfold zrange. rw seqZ_cons; [|simpl; lia]. cbn [length iov_cells iovs].
    replace (Z.pred (Z.of_nat (S (length s)))) with (Z.of_nat (length s)) by lia.
    iIntros "[(Ha & Hl & Hi) HQ]". wp_load. wp_load. iApply wp_bind. iApply IH. iFrame "Hi".
    iIntros "Hi". wp_norm. iApply "HQ". iFrame.
Qed.

Lemma iov_back iov s : (length s <= 2)%nat -> iovs iov 0 s ∗ iov_rest iov (length s) ⊢ iov_two iov.
Proof.
  intros Hs. destruct s as [|[a n] [|[a' n'] [|? ?]]]; cbn [iovs iov_rest length]; [| | |simpl in Hs; lia].
  - iIntros "[_ $]".
  - iIntros "[(H1 & H2 & _) (%c & %d & H3 & H4)]". iExists a, n, c, d. iFrame.
  - iIntros "[(H1 & H2 & H3 & H4 & _) _]". iExists a, n, a', n'. iFrame.
Qed.

(** ** One direction *)

Lemma readable_two self b : cbuf_wf b -> (length (cb_readable self b) <= 2)%nat.
Proof. intros Hwf. rw (readable_cases self b Hwf). repeat case_match; simpl; lia. Qed.

Lemma writable_two self b : cbuf_wf b -> (length (cb_writable self b) <= 2)%nat.
Proof. intros Hwf. rw (writable_cases self b Hwf). repeat case_match; simpl; lia. Qed.

(** Bytes stored in the free space become contents. *)
Lemma wp_store_finish self b data ws :
  cbuf_wf b ->
  cb_fields self b ∗ seg_bytes (cb_readable self b) (cb_contents b) ∗
  seg_bytes (cb_writable self b) (data ++ ws)
  ⊢ wp (hev_circular_buffer_write_finish self (Z.of_nat (length data))) (fun _ =>
      ∃ b', is_cbuf self b' ∗ ⌞cb_contents b' = cb_contents b ++ data /\ cb_max b' = cb_max b⌟).
Proof.
  intros Hwf. iIntros "H". iDestruct (is_cbuf_fill self b (data ++ ws) Hwf with "H") as "Hb".
  iDestruct (is_cbuf_wf with "Hb") as %Hwf'.
  destruct (contents_fill (data ++ ws) b Hwf) as [Hc Hs].
  assert (Z.of_nat (length data) <= cb_max b - cb_fill b) as Hlen.
  { pose proof (bw_ring _ Hwf') as Hr. pose proof (fill_length b Hwf) as Hf. simpl in Hr.
    rw !length_app in Hr. lia. }
  iApply wp_wand. iSplitL; [iApply (wp_write_finish with "Hb"); simpl; lia|].
  iIntros (_) "Hb". iExists _. iFrame. iPureIntro. split; [|done].
  rw contents_written //; [|simpl; lia]. rw Hc Hs Nat2Z.id take_app_length //.
Qed.

(** What a half of a step does to the buffer, with the calls [ev]. *)
Definition filled (fd_in : Z) (ev : list entry) (b b' : cbuf) : Prop :=
  cb_contents b' = cb_contents b ++ received fd_in ev /\ cb_max b' = cb_max b /\
  (forall fd, fd <> fd_in -> received fd ev = []) /\ forall fd, delivered fd ev = [] /\ ~ shut fd ev.

Definition drained (fd_out res : Z) (ev : list entry) (b b' : cbuf) : Prop :=
  cb_contents b = delivered fd_out ev ++ cb_contents b' /\ cb_max b' = cb_max b /\
  (forall fd, received fd ev = []) /\
  (forall fd, fd <> fd_out -> delivered fd ev = [] /\ ~ shut fd ev) /\
  (shut fd_out ev -> res < 0 /\ cb_contents b' = []).

Section halves.
Context (Y : Z -> heapProp -> heapProp) `{!YieldMono Y}.

Lemma filled_read fd_in iov n outs a b b' :
  cb_contents b' = cb_contents b ++ a_data a -> cb_max b' = cb_max b ->
  filled fd_in [(Sys "readv" [fd_in; iov; n] outs, a)] b b'.
Proof.
  intros Hc Hm. unfold filled, received, delivered. cbn. rw Z.eqb_refl app_nil_r.
  split_and!; [done|done| |].
  - intros fd Hne. by rw (proj2 (Z.eqb_neq fd_in fd)).
  - intros fd. split; [done|]. intros H. inversion H as [? ? H0|? ? H0]; [done|inversion H0].
Qed.

Lemma cwp_splice_in buf iov fd_in b log :
  is_cbuf buf b ∗ iov_two iov ⊢ cwp Y (logged (buf_splice_in buf iov fd_in) log) (fun rl =>
    ∃ b' ev, ⌞rl.2 = log ++ ev /\ filled fd_in ev b b'⌟ ∗ is_cbuf buf b' ∗ iov_two iov).
Proof.
  iIntros "[Hb Hi]". iDestruct (is_cbuf_wf with "Hb") as %Hwf.
  iDestruct (is_cbuf_split buf b Hwf with "Hb") as "(Hf & Hr & Hw)".
  unfold buf_splice_in. cbn [logged cwp]. iApply wp_wand. iSplitL "Hf Hi"; [iApply wp_writing; iFrame|].
  iIntros (n) "(-> & Hf & Hs & Hi)". pose proof (writable_two buf b Hwf) as Htwo.
  assert (segs_ok (cb_writable buf b)) as Hok by apply sdrop_ok, cb_segs_ok, Hwf.
  set (s := cb_writable buf b) in *. unfold is_true.
  destruct (Z.eqb_spec (Z.of_nat (length s)) 0) as [Hz|Hz]; cbn [negb logged cwp].
  { iExists b, []. iSplitR.
    { iPureIntro. split; [by rw app_nil_r|]. split_and!; [by rw app_nil_r|done|done|].
      intros fd. split; [done|apply shut_nil]. }
    iSplitR "Hs Hi"; [rw is_cbuf_split //; iFrame|]. iApply (iov_back with "[$Hs $Hi]"). lia. }
  iApply wp_iov_cells. iFrame "Hs". iIntros "Hs". cbn [logged cwp co_bind call].
  iDestruct (seg_bytes_length _ _ Hok with "Hw") as %Hlen.
  iApply ext_wp_sys. iSplitL "Hw".
  { rw seg_bytes_cells //. iApply (cells_with_cells with "Hw"). }
  iIntros (a) "%Ha Hw Hc". destruct Ha as [Hle Hdoc]. cbn in Hdoc.
  apply andb_true_iff in Hdoc as [Hlo%Z.leb_le Hd%Z.eqb_eq].
  iDestruct (seg_bytes_stored s (a_data a) Hok Hle with "[$Hw $Hc]") as "[%ws Hw]".
  iDestruct (iov_back with "[$Hs $Hi]") as "Hi"; [done|].
  destruct (Z.leb_spec (a_ret a) 0) as [Hneg|Hpos]; cbn [logged cwp].
  - assert (a_data a = []) as Hnil by (destruct (a_data a); [done|simpl in Hd; lia]).
    iDestruct (is_cbuf_fill buf b _ Hwf with "[$Hf $Hr $Hw]") as "Hb".
    iExists _, _. iFrame. iPureIntro. split; [done|]. apply filled_read; [|done].
    rw Hnil app_nil_r. by apply contents_fill.
  - assert (a_ret a = Z.of_nat (length (a_data a))) as -> by lia.
    iApply wp_wand. iSplitR "Hi"; [by iApply (wp_store_finish with "[$Hf $Hr $Hw]")|].
    iIntros (_) "(%b' & Hb & %Hb')". destruct Hb' as [Hc Hm]. iExists b', _. iFrame.
    iPureIntro. split; [done|]. by apply filled_read.
Qed.

Lemma drained_write fd_out iov n bytes a b b' res :
  cb_contents b = take (Z.to_nat (a_ret a)) bytes ++ cb_contents b' -> cb_max b' = cb_max b ->
  drained fd_out res [(Query "writev" (fd_out :: iov :: n :: bytes) 0, a)] b b'.
Proof.
  intros Hc Hm. unfold drained, received, delivered. cbn. rw Z.eqb_refl app_nil_r.
  assert (forall fd, ~ shut fd [(Query "writev" (fd_out :: iov :: n :: bytes) 0, a)]) as Hns.
  { intros fd H. inversion H as [? ? H0|? ? H0]; [|inversion H0]. cbn in H0.
    destruct bytes; [done|done]. }
  split_and!; [done|done|done| |].
  - intros fd Hne. by rw (proj2 (Z.eqb_neq fd_out fd)).
  - intros H. by apply Hns in H.
Qed.

Lemma drained_shutdown fd_out a b res :
  res < 0 -> cb_contents b = [] ->
  drained fd_out res [(Query "shutdown" [fd_out; SHUT_WR] 0, a)] b b.
Proof.
  intros Hr Hc. unfold drained, received, delivered. cbn. split_and!; [done|done|done| |done].
  intros fd Hne. split; [done|]. intros H. inversion H as [? ? H0|? ? H0]; [|inversion H0].
  by destruct H0 as (_ & ? & _).
Qed.

Lemma cwp_splice_out buf iov fd_out res b log :
  is_cbuf buf b ∗ iov_two iov ⊢ cwp Y (logged (buf_splice_out buf iov fd_out res) log) (fun rl =>
    ∃ b' ev, ⌞rl.2 = log ++ ev /\ drained fd_out rl.1 ev b b'⌟ ∗ is_cbuf buf b' ∗ iov_two iov).
Proof.
  iIntros "[Hb Hi]". iDestruct (is_cbuf_wf with "Hb") as %Hwf.
  iDestruct (is_cbuf_split buf b Hwf with "Hb") as "(Hf & Hr & Hw)".
  unfold buf_splice_out. cbn [logged cwp]. iApply wp_wand. iSplitL "Hf Hi"; [iApply wp_reading; iFrame|].
  iIntros (n) "(-> & Hf & Hs & Hi)". pose proof (readable_two buf b Hwf) as Htwo.
  assert (segs_ok (cb_readable buf b)) as Hok by apply stake_ok, cb_segs_ok, Hwf.
  iDestruct (seg_bytes_length _ _ Hok with "Hr") as %Hlen.
  iAssert (seg_bytes (cb_readable buf b) (cb_contents b) -∗ is_cbuf buf b)%I with "[Hf Hw]" as "Hb".
  { iIntros "Hr". rw is_cbuf_split //. iFrame. }
  set (s := cb_readable buf b) in *. unfold is_true.
  destruct (Z.eqb_spec (Z.of_nat (length s)) 0) as [Hz|Hz]; cbn [negb].
  - iDestruct ("Hb" with "Hr") as "Hb". iDestruct (iov_back with "[$Hs $Hi]") as "Hi"; [done|].
    assert (cb_contents b = []) as Hnil.
    { destruct s; [|simpl in Hz; lia]. simpl in Hlen. destruct (cb_contents b); [done|simpl in Hlen; lia]. }
    destruct (Z.ltb_spec res 0) as [Hres|Hres]; cbn [logged cwp co_bind].
    + unfold sys, call. cbn [logged cwp co_bind]. iApply ext_wp_query. iIntros (a _).
      iExists b, _. iFrame. iPureIntro. split; [done|]. by apply drained_shutdown.
    + iExists b, []. iFrame. iPureIntro. split; [by rw app_nil_r|].
      split_and!; [by rw Hnil|done|done|intros fd _; split; [done|apply shut_nil]|].
      intros H. by apply shut_nil in H.
  - cbn [logged cwp]. iApply wp_iov_cells. iFrame "Hs". iIntros "Hs". cbn [logged cwp].
    iApply (wp_load_all _ (cb_contents b)). iEval (rw seg_bytes_cells //) in "Hr". iFrame "Hr".
    iIntros "Hr". iEval (rw -seg_bytes_cells //) in "Hr". iDestruct ("Hb" with "Hr") as "Hb".
    iDestruct (iov_back with "[$Hs $Hi]") as "Hi"; [done|]. unfold call. cbn [logged cwp co_bind app].
    iApply ext_wp_query. iIntros (a) "%Ha". destruct Ha as [_ Hdoc]. cbn in Hdoc.
    apply andb_true_iff in Hdoc as [Hlo%Z.leb_le Hhi%Z.leb_le].
    pose proof (fill_length b Hwf) as Hfill.
    destruct (Z.leb_spec (a_ret a) 0) as [Hneg|Hpos]; cbn [logged cwp].
    + iExists b, _. iFrame. iPureIntro. split; [done|]. apply drained_write; [|done].
      by assert (Z.to_nat (a_ret a) = 0%nat) as -> by lia.
    + iApply wp_wand. iSplitL "Hb"; [iApply (wp_read_finish buf b (a_ret a) with "Hb"); lia|].
      iIntros (_) "Hb". iExists _, _. iFrame. iPureIntro. split; [done|]. apply drained_write; [|done].
      rw contents_read //; [|lia]. by rw take_drop.
Qed.

(** *** The whole step *)

(** What a direction has got and not passed on is in its buffer; once it has
    shut its output down it is finished. *)
Definition forwarding (fd_in fd_out : Z) (res : Z) (b : cbuf) (log : list entry) : Prop :=
  received fd_in log = delivered fd_out log ++ cb_contents b /\
  (shut fd_out log -> res < 0 /\ cb_contents b = []).

Lemma forwarding_other fd_in fd_out res b log fd_in' fd_out' ev :
  only_between fd_in' fd_out' ev -> fd_in <> fd_in' -> fd_out <> fd_out' ->
  forwarding fd_in fd_out res b log -> forwarding fd_in fd_out res b (log ++ ev).
Proof.
  intros Hev Hin Hout [Hr Hs]. destruct (Hev fd_in) as [Hr' _]. destruct (Hev fd_out) as [_ Hd'].
  destruct (Hd' Hout) as [Hd Hns]. split.
  - by rw received_app delivered_app Hr' // Hd !app_nil_r.
  - intros Hsh. apply Hs. unfold shut in *. rw Exists_app in Hsh. tauto.
Qed.

Lemma forwarding_step fd_in fd_out res res' b b1 b2 log ev1 ev2 :
  filled fd_in ev1 b b1 -> drained fd_out res' ev2 b1 b2 -> 0 <= res ->
  forwarding fd_in fd_out res b log -> forwarding fd_in fd_out res' b2 (log ++ ev1 ++ ev2).
Proof.
  intros (Hc1 & _ & _ & Hd1) (Hc2 & _ & Hr2 & _ & Hs2) Hres [Hr Hs]. split.
  - destruct (Hd1 fd_out) as [Hd1' _].
    rw !received_app !delivered_app Hr Hr2 Hd1' app_nil_r /= -!assoc_L. f_equal. by rw -Hc2 Hc1.
  - intros Hsh. unfold shut in Hsh. rw !Exists_app in Hsh. destruct Hsh as [H|[H|H]].
    + apply Hs in H. lia.
    + by apply (Hd1 fd_out) in H.
    + by apply Hs2.
Qed.

Lemma step_only fd_in fd_out res b b1 b2 ev1 ev2 :
  filled fd_in ev1 b b1 -> drained fd_out res ev2 b1 b2 -> only_between fd_in fd_out (ev1 ++ ev2).
Proof.
  intros (_ & _ & Hr1 & Hd1) (_ & _ & Hr2 & Hd2 & _). apply only_between_app; intros fd; split.
  - apply Hr1.
  - intros _. apply Hd1.
  - intros _. apply Hr2.
  - apply Hd2.
Qed.

Lemma cwp_buf_splice buf iov fd_in fd_out res b log :
  0 <= res -> forwarding fd_in fd_out res b log ->
  is_cbuf buf b ∗ iov_two iov ⊢ cwp Y (logged (buf_splice buf iov fd_in fd_out) log) (fun rl =>
    ∃ b' ev, ⌞rl.2 = log ++ ev /\ only_between fd_in fd_out ev /\ cb_max b' = cb_max b /\
              forwarding fd_in fd_out rl.1 b' rl.2⌟ ∗ is_cbuf buf b' ∗ iov_two iov).
Proof.
  iIntros (Hres Hfw) "H". unfold buf_splice. iApply cwp_logged_call. iSplitL; [by iApply cwp_splice_in|].
  iIntros (r l) "(%b1 & %ev1 & %H1 & H)". cbn [fst snd] in *. destruct H1 as [-> H1].
  iApply cwp_wand. iSplitL "H"; [by iApply (cwp_splice_out with "H")|].
  iIntros ([r2 l2]) "(%b2 & %ev2 & %H2 & H)". cbn [fst snd] in *. destruct H2 as [-> H2].
  iExists b2, (ev1 ++ ev2). iFrame "H". iPureIntro. rw -assoc_L. split_and!; [done| | |].
  - by eapply step_only.
  - destruct H1 as (_ & Hm1 & _), H2 as (_ & Hm2 & _). congruence.
  - by eapply forwarding_step.
Qed.
End halves.
