(* ===== verification/Socket.v ===== *)
(** * Socket: [src/src/lib/io/socket/hev-task-io-socket.c]

    For a system with [SOCK_NONBLOCK] and [MSG_WAITFORONE]. *)

From S2P Require Export Prelude.
From S2P Require Export Env.
From S2P Require Export Reactor.
From S2P Require Export Buffer.
From S2P Require Export Task.
From S2P Require Export IO.

Definition SOCK_NONBLOCK : Z := 2048.
Definition SOCK_STREAM : Z := 1.
Definition PF_LOCAL : Z := 1.
Definition EISCONN : Z := 106.
Definition EALREADY : Z := 114.
Definition EINPROGRESS : Z := 115.
Definition MSG_DONTWAIT : Z := 64.
Definition MSG_WAITALL : Z := 256.

Definition hev_task_io_socket_socket (domain type protocol : Z) : co Z :=
  sys "socket" [domain; Z.lor type SOCK_NONBLOCK; protocol].

(** [int socket_vector[2]] *)
Definition sv_fd (socket_vector i : Z) : Z := socket_vector + 4 * i.

Definition hev_task_io_socket_socketpair (domain type protocol socket_vector : Z) : co Z :=
  a <~ call (Sys "socketpair" [domain; Z.lor type SOCK_NONBLOCK; protocol; socket_vector]
               [sv_fd socket_vector 0; sv_fd socket_vector 1]) ;;
  Ret (a_ret a).

Definition hev_task_io_socket_bind (fd addr addr_len : Z) : co Z := sys "bind" [fd; addr; addr_len].
Definition hev_task_io_socket_listen (fd backlog : Z) : co Z := sys "listen" [fd; backlog].
Definition hev_task_io_socket_setsockopt (fd level optname optval optlen : Z) : co Z :=
  sys "setsockopt" [fd; level; optname; optval; optlen].

(** The length and then the bytes of the address are written. *)
Definition addr_outs (addr addr_len : Z) : M (list Z) :=
  if is_true addr_len then
    len <- load addr_len ;; ret (addr_len :: zrange addr len)
  else ret [].

Definition hev_task_io_socket_getsockname (fd addr addr_len : Z) : co Z :=
  outs <! addr_outs addr addr_len ;;
  a <~ call (Sys "getsockname" [fd; addr; addr_len] outs) ;; Ret (a_ret a).
Definition hev_task_io_socket_getpeername (fd addr addr_len : Z) : co Z :=
  outs <! addr_outs addr addr_len ;;
  a <~ call (Sys "getpeername" [fd; addr; addr_len] outs) ;; Ret (a_ret a).
Definition hev_task_io_socket_shutdown (fd how : Z) : co Z := sys "shutdown" [fd; how].
Definition hev_task_io_socket_get_handle (fd : Z) : Z :=
  if 0 <=? fd then fd else 2 ^ 64 - 1.

(** ** [struct msghdr] *)

Definition msg_name (m : Z) : Z := m.
Definition msg_namelen (m : Z) : Z := m + 8.
Definition msg_iov (m : Z) : Z := m + 16.
Definition msg_iovlen (m : Z) : Z := m + 24.
Definition msg_control (m : Z) : Z := m + 32.
Definition msg_controllen (m : Z) : Z := m + 40.
Definition msg_flags (m : Z) : Z := m + 48.

(** Copy the array of buffers and add up their lengths. *)
Fixpoint copy_iov (iov msg_iov : Z) (l : list Z) (len : Z) : M Z :=
  match l with
  | [] => ret len
  | i :: l =>
      base <- load (iov_base msg_iov i) ;;
      store (iov_base iov i) base ;;;
      n <- load (iov_len msg_iov i) ;;
      store (iov_len iov i) n ;;;
      copy_iov iov msg_iov l (w64 (len + n))
  end.

(** Set up the local header [mh] with the array [iov]; the total length. *)
Definition msg_local (mh iov msg : Z) : M Z :=
  v <- load (msg_name msg) ;; store (msg_name mh) v ;;;
  v <- load (msg_namelen msg) ;; store (msg_namelen mh) v ;;;
  v <- load (msg_control msg) ;; store (msg_control mh) v ;;;
  v <- load (msg_controllen msg) ;; store (msg_controllen mh) v ;;;
  v <- load (msg_flags msg) ;; store (msg_flags mh) v ;;;
  store (msg_iov mh) iov ;;;
  iovlen <- load (msg_iovlen msg) ;;
  store (msg_iovlen mh) iovlen ;;;
  src <- load (msg_iov msg) ;;
  copy_iov iov src (zrange 0 iovlen) 0.

(** Skip [s] bytes of the array: whole elements, then part of one. *)
Fixpoint skip_iov (iov : Z) (l : list Z) (s : Z) : M Z :=
  match l with
  | [] => ret 0
  | i :: l =>
      len <- load (iov_len iov i) ;;
      if s <? len then
        base <- load (iov_base iov i) ;;
        store (iov_base iov i) (base + s) ;;;
        store (iov_len iov i) (w64 (len - s)) ;;;
        ret 0
      else
        n <- skip_iov iov l (w64 (s - len)) ;; ret (n + 1)
  end.

Definition msg_advance (mh s : Z) : M unit :=
  iov <- load (msg_iov mh) ;;
  iovlen <- load (msg_iovlen mh) ;;
  i <- skip_iov iov (zrange 0 iovlen) s ;;
  store (msg_iov mh) (iov + 16 * i) ;;;
  store (msg_iovlen mh) (w64 (iovlen - i)).

(** What [recvmsg] may write: the header's lengths and flags, the name, the
    control data and the buffers. *)
Definition recvmsg_outs (mh : Z) : M (list Z) :=
  name <- load (msg_name mh) ;;
  namelen <- load (msg_namelen mh) ;;
  control <- load (msg_control mh) ;;
  controllen <- load (msg_controllen mh) ;;
  iov <- load (msg_iov mh) ;;
  iovlen <- load (msg_iovlen mh) ;;
  bufs <- iov_cells iov (zrange 0 iovlen) ;;
  ret (msg_flags mh :: msg_namelen mh :: msg_controllen mh ::
       zrange name namelen ++ zrange control controllen ++ bufs).

Section yielders.
Context (yielders : Z -> Z -> Z -> co Z).

Definition hev_task_io_socket_connect (fd addr addr_len yielder yielder_data : Z) : co Z :=
  co_while (fun _ : unit =>
    a <~ call (Query "connect" [fd; addr; addr_len] 0) ;;
    let res := a_ret a in
    if res <? 0 then
      if (a_errno a =? EINPROGRESS) || (a_errno a =? EALREADY) then
        stop <~ io_yield yielders HEV_TASK_WAITIO yielder yielder_data ;;
        Ret (if stop : bool then inr (-2) else inl tt)
      else if a_errno a =? EISCONN then Ret (inr 0)
      else Ret (inr res)
    else Ret (inr res)) tt.

Definition hev_task_io_socket_accept (fd addr addr_len yielder yielder_data : Z) : co Z :=
  io_retry yielders
    (outs <! addr_outs addr addr_len ;;
     call (Sys "accept4" [fd; addr; addr_len; SOCK_NONBLOCK] outs)) yielder yielder_data.

(** The loop of the transfers: [c size] is the system call after [size] bytes
    (or messages), [next s] prepares the one after a partial transfer. *)
Definition transfer (c : Z -> co answer) (next : Z -> M unit) (len : Z)
    (flags yielder yielder_data : Z) : co Z :=
  let waitall := is_true (Z.land flags MSG_WAITALL) in
  let dontwait := is_true (Z.land flags MSG_DONTWAIT) in
  co_while (fun size =>
    a <~ c size ;;
    let s := a_ret a in
    if (s <? 0) && (a_errno a =? EAGAIN) && negb dontwait then
      stop <~ io_yield yielders HEV_TASK_WAITIO yielder yielder_data ;;
      Ret (if stop : bool then inr (if is_true size then size else -2) else inl size)
    else if negb waitall then Ret (inr s)
    else if s <=? 0 then Ret (inr (if is_true size then size else s))
    else
      let size := size + s in
      if size <? len then next s !;; Ret (inl size) else Ret (inr size)) 0.

Definition no_next (_ : Z) : M unit := ret tt.

Definition hev_task_io_socket_recv (fd buf len flags yielder yielder_data : Z) : co Z :=
  transfer (fun size =>
      call (Sys "recv" [fd; buf + size; len - size; Z.land flags (Z.lnot MSG_WAITALL)]
              (zrange (buf + size) (len - size))))
    no_next len flags yielder yielder_data.

Definition hev_task_io_socket_send (fd buf len flags yielder yielder_data : Z) : co Z :=
  transfer (fun size =>
      call (Query "send" [fd; buf + size; len - size; Z.land flags (Z.lnot MSG_WAITALL)] 0))
    no_next len flags yielder yielder_data.

Definition hev_task_io_socket_recvfrom (fd buf len flags addr addr_len yielder yielder_data : Z) :
    co Z :=
  transfer (fun size =>
      outs <! addr_outs addr addr_len ;;
      call (Sys "recvfrom"
              [fd; buf + size; len - size; Z.land flags (Z.lnot MSG_WAITALL); addr; addr_len]
              (outs ++ zrange (buf + size) (len - size))))
    no_next len flags yielder yielder_data.

Definition hev_task_io_socket_sendto (fd buf len flags addr addr_len yielder yielder_data : Z) :
    co Z :=
  transfer (fun size =>
      call (Query "sendto"
              [fd; buf + size; len - size; Z.land flags (Z.lnot MSG_WAITALL); addr; addr_len] 0))
    no_next len flags yielder yielder_data.

(** Propagate what the kernel stored in the local header. *)
Definition msg_back (msg mh : Z) : M unit :=
  v <- load (msg_flags mh) ;; store (msg_flags msg) v ;;;
  v <- load (msg_namelen mh) ;; store (msg_namelen msg) v ;;;
  v <- load (msg_controllen mh) ;; store (msg_controllen msg) v.

(** [mh] and [iov] are the local variables.  The copy back happens when the
    call is not to be retried. *)
Definition hev_task_io_socket_recvmsg (fd msg flags yielder yielder_data mh iov : Z) : co Z :=
  len <! msg_local mh iov msg ;;
  let dontwait := is_true (Z.land flags MSG_DONTWAIT) in
  transfer (fun _ =>
      outs <! recvmsg_outs mh ;;
      a <~ call (Sys "recvmsg" [fd; mh; Z.land flags (Z.lnot MSG_WAITALL)] outs) ;;
      when (negb ((a_ret a <? 0) && (a_errno a =? EAGAIN) && negb dontwait)) (msg_back msg mh) !;;
      Ret a)
    (msg_advance mh) len flags yielder yielder_data.

Definition hev_task_io_socket_sendmsg (fd msg flags yielder yielder_data mh iov : Z) : co Z :=
  len <! msg_local mh iov msg ;;
  transfer (fun _ => call (Query "sendmsg" [fd; mh; Z.land flags (Z.lnot MSG_WAITALL)] 0))
    (msg_advance mh) len flags yielder yielder_data.

(** [struct mmsghdr]: a header and its [msg_len].  What the kernel writes
    through the headers is the caller's ([outs]). *)
Definition mmsg_at (msgv i : Z) : Z := msgv + 64 * i.

Definition hev_task_io_socket_recvmmsg (fd msgv n flags yielder yielder_data : Z)
    (outs : Z -> list Z) : co Z :=
  transfer (fun c =>
      call (Sys "recvmmsg"
              [fd; mmsg_at msgv c; n - c; Z.land flags (Z.lnot MSG_WAITALL); NULL] (outs c)))
    no_next n flags yielder yielder_data.

Definition hev_task_io_socket_sendmmsg (fd msgv n flags yielder yielder_data : Z)
    (outs : Z -> list Z) : co Z :=
  transfer (fun c =>
      call (Sys "sendmmsg"
              [fd; mmsg_at msgv c; n - c; Z.land flags (Z.lnot MSG_WAITALL)] (outs c)))
    no_next n flags yielder yielder_data.
End yielders.
