(* ===== verification/SocketProps.v ===== *)
(** * SocketProps: the transfer loops of [hev-task-io-socket.c] *)

From S2P Require Import Prelude.
From S2P Require Import Sep.
From S2P Require Import Env.
From S2P Require Import EnvLogic.
From S2P Require Import Bytes.
From S2P Require Import TaskBase.
From S2P Require Import Task.
From S2P Require Import QueueProps.
From S2P Require Import Kernel.
From S2P Require Import IO.
From S2P Require Import Socket.

Section transfer.
Context `{!Kernel} (me : Z).

(** What a task hands over when it waits: the scheduler's state. *)
Definition kernel_of : heapProp := (∃ k, k_inv k ∗ ⌞k_current k = me⌟)%I.

Definition io_wait : Z -> heapProp -> heapProp := yield_inv kernel_of.

Context (yielders : Z -> Z -> Z -> co Z).

(** A client's yielder suspends, or not, and returns. *)
Definition yielder_ok : Prop :=
  forall f t d, kernel_of ⊢ cwp io_wait (yielders f t d) (fun _ => kernel_of).

Lemma cwp_io_yield type y yd :
  yielder_ok -> kernel_of ⊢ cwp io_wait (io_yield yielders type y yd) (fun _ => kernel_of).
Proof.
  intros Hy. unfold io_yield. destruct (is_true y).
  - iIntros "H". iApply cwp_bind. iApply cwp_wand. iSplitL; [by iApply Hy|].
    iIntros (r) "H". iExact "H".
  - iIntros "(%k & Hk & %Hk)". iApply cwp_bind. iApply k_yield. iFrame "Hk". iIntros "Hk".
    unfold io_wait, yield_inv. iSplitL; [by iExists k; iFrame|]. iIntros "H". iExact "H".
Qed.

(** The loop, for a call [c size] with [P size] the caller's memory after
    [size].  If [exact], a call returns at most [len - size]. *)
Section loop.
Context (P : Z -> heapProp) (c : Z -> co answer) (next : Z -> M unit) (len : Z) (exact : Prop).

Definition transfer_call : Prop := forall size, 0 <= size <= len ->
  P size ⊢ cwp io_wait (c size) (fun a =>
    ⌞-1 <= a_ret a /\ (exact -> a_ret a <= len - size)⌟ ∗ P (size + Z.max 0 (a_ret a))).

(** [next s] prepares the call after [s] more bytes. *)
Definition transfer_next : Prop := forall size s, 0 < s -> s <= size -> P size ⊢ wp (next s) (fun _ => P size).

(** The result: what was transferred, unless that is nothing and the last call
    failed (-1) or the yielder asked to stop (-2). *)
Definition transfer_result (r : Z) : heapProp :=
  (⌞-2 <= r /\ (exact -> r <= len)⌟ ∗ P (Z.max 0 r))%I.

Lemma result_size size : 0 <= size -> (exact -> size <= len) -> P size ⊢ transfer_result size.
Proof.
  intros Hs Hle. unfold transfer_result. rw Z.max_r; [|lia]. iIntros "$". iPureIntro.
  split; [lia|done].
Qed.

Lemma result_none r : -2 <= r < 0 -> 0 <= len -> P 0 ⊢ transfer_result r.
Proof.
  intros Hr Hl. unfold transfer_result. rw Z.max_l; [|lia]. iIntros "$". iPureIntro.
  split; lia.
Qed.

(** [size ? size : r] for a failure [r]. *)
Lemma result_choice size r :
  0 <= size <= len -> -2 <= r <= 0 -> P size ⊢ transfer_result (if is_true size then size else r).
Proof.
  intros Hs Hr. unfold is_true. destruct (Z.eqb_spec size 0) as [->|]; cbn [negb].
  - destruct (decide (r = 0)) as [->|]; [apply result_size; lia|apply result_none; lia].
  - apply result_size; lia.
Qed.

(** Without [MSG_WAITALL] nothing has been transferred when a call is made. *)
Definition transfer_inv (flags size : Z) : heapProp :=
  (⌞0 <= size <= len /\ (is_true (Z.land flags MSG_WAITALL) = false -> size = 0)⌟ ∗
   P size ∗ kernel_of)%I.

Lemma cwp_transfer flags y yd :
  yielder_ok -> 0 <= len -> transfer_call -> transfer_next ->
  P 0 ∗ kernel_of ⊢ cwp io_wait (transfer yielders c next len flags y yd) (fun r =>
    transfer_result r ∗ kernel_of).
Proof.
  intros Hy Hlen Hc Hnext. unfold transfer. iIntros "[HP Hk]".
  iApply (cwp_while io_wait _ (transfer_inv flags) 0);
    [|iFrame "HP Hk"; iPureIntro; split; [lia|done]].
  intros size. iIntros "(%Hs & HP & Hk)". destruct Hs as [Hs Hw]. iApply cwp_bind. iApply cwp_wand.
  iSplitL "HP"; [by iApply Hc|]. iIntros (a) "[%Ha HP]". destruct Ha as [Ha Hex].
  destruct ((_ && _) && _) eqn:Hagain.
  { apply andb_true_iff in Hagain as [Hneg _]. apply andb_true_iff in Hneg as [Hneg%Z.ltb_lt _].
    rw Z.max_l; [|lia]. rw Z.add_0_r. iApply cwp_bind. iApply cwp_wand.
    iSplitL "Hk"; [by iApply cwp_io_yield|]. iIntros (stop) "Hk". cbn [cwp]. destruct stop.
    - iFrame "Hk". by iApply result_choice.
    - iFrame "HP Hk". done. }
  destruct (is_true (Z.land flags MSG_WAITALL)) eqn:Hall; cbn [negb].
  - destruct (Z.leb_spec (a_ret a) 0) as [Hle|Hpos].
    + cbn [cwp]. rw Z.max_l; [|lia]. rw Z.add_0_r. iFrame "Hk". iApply (result_choice with "HP"); lia.
    + rw Z.max_r; [|lia]. destruct (Z.ltb_spec (size + a_ret a) len); cbn [cwp].
      * iApply wp_wand. iSplitL "HP"; [iApply (Hnext with "HP"); lia|]. iIntros (_) "HP".
        iFrame "HP Hk". iPureIntro. split; [lia|congruence].
      * iFrame "Hk". iApply (result_size with "HP"); [lia|]. intros He. specialize (Hex He). lia.
  - rw Hw // Z.add_0_l. rw Hw // Z.sub_0_r in Hex. cbn [cwp]. iFrame "Hk".
    destruct (decide (0 <= a_ret a)).
    + rw Z.max_r; [|done]. iApply (result_size with "HP"); [lia|done].
    + rw Z.max_l; [|lia]. iApply (result_none with "HP"); lia.
Qed.
End loop.

(** ** Receiving and sending *)

(** The bytes of the caller's buffer, as long as it was. *)
Definition recv_cells (buf len : Z) (_ : Z) : heapProp := cells (zrange buf len).

(** The kernel sees [MSG_TRUNC] as the caller gave it. *)
Lemma trunc_kept flags : Z.land (Z.land flags (Z.lnot MSG_WAITALL)) MSG_TRUNC = Z.land flags MSG_TRUNC.
Proof. by rewrite -Z.land_assoc. Qed.

Lemma recv_answer fd p n flags a :
  sys_doc "recv" [fd; p; n; Z.land flags (Z.lnot MSG_WAITALL)] a = true ->
  -1 <= a_ret a /\ (Z.land flags MSG_TRUNC = 0 -> a_ret a <= n).
Proof.
  intros Hdoc. cbn in Hdoc. rewrite trunc_kept in Hdoc.
  apply andb_true_iff in Hdoc as [Hlo%Z.leb_le Hhi]. split; [done|]. intros Hf.
  rewrite Hf in Hhi. cbn in Hhi. by apply andb_true_iff in Hhi as [Hhi%Z.leb_le _].
Qed.

Lemma recv_call fd buf len flags :
  0 <= len -> transfer_call (recv_cells buf len) (fun size =>
    call (Sys "recv" [fd; buf + size; len - size; Z.land flags (Z.lnot MSG_WAITALL)]
            (zrange (buf + size) (len - size)))) len (Z.land flags MSG_TRUNC = 0).
Proof.
  intros Hlen size Hs. unfold recv_cells, call. cbn [cwp].
  assert (zrange buf len = zrange buf size ++ zrange (buf + size) (len - size)) as Hz.
  { rw -zrange_split; [|lia|lia]. f_equal. lia. }
  iIntros "H". iEval (rw Hz cells_app) in "H". iDestruct "H" as "[H1 H2]". iApply ext_wp_sys. iFrame "H2". iIntros (a) "%Ha Hw Hc".
  destruct Ha as [_ Hdoc]. iSplitR; [iPureIntro; by eapply recv_answer|]. rw Hz cells_app. iFrame "H1".
  iApply cells_join. iFrame "Hc". by iApply cells_with_cells.
Qed.

Lemma send_call fd buf len flags :
  0 <= len -> transfer_call (fun _ => emp%I) (fun size =>
    call (Query "send" [fd; buf + size; len - size; flags] 0)) len True.
Proof.
  intros Hlen size Hs. unfold call. cbn [cwp]. iIntros "_". iApply ext_wp_query.
  iIntros (a) "%Ha". destruct Ha as [_ Hdoc]. cbn in Hdoc. rw !andb_true_iff !Z.leb_le in Hdoc.
  iSplitR; [iPureIntro; split; [lia|intros _; lia]|done].
Qed.

Lemma no_next_ok P : transfer_next P no_next.
Proof. intros size s _ _. iIntros "H". unfold no_next. wp_norm. done. Qed.

Lemma cwp_recv fd buf len flags y yd :
  yielder_ok -> 0 <= len ->
  cells (zrange buf len) ∗ kernel_of
  ⊢ cwp io_wait (hev_task_io_socket_recv yielders fd buf len flags y yd) (fun r =>
      ⌞-2 <= r /\ (Z.land flags MSG_TRUNC = 0 -> r <= len)⌟ ∗ cells (zrange buf len) ∗ kernel_of).
Proof.
  intros Hy Hlen. iIntros "H". iApply cwp_wand. iSplitL.
  - iApply (cwp_transfer (recv_cells buf len)); [done|done|by apply recv_call|apply no_next_ok|].
    iExact "H".
  - iIntros (r) "[[$ $] $]".
Qed.

Lemma cwp_send fd buf len flags y yd :
  yielder_ok -> 0 <= len ->
  kernel_of ⊢ cwp io_wait (hev_task_io_socket_send yielders fd buf len flags y yd) (fun r =>
    ⌞-2 <= r <= len⌟ ∗ kernel_of).
Proof.
  intros Hy Hlen. iIntros "H". iApply cwp_wand. iSplitL.
  - iApply (cwp_transfer (fun _ => emp%I)); [done|done|by apply send_call|apply no_next_ok|].
    by iFrame.
  - iIntros (r) "[[%Hr _] $]". iPureIntro. split; [lia|by apply Hr].
Qed.
End transfer.

(** C24. Receiving into a buffer of [len] bytes writes nothing outside it,
    whatever the flags and however often it is retried or continued for
    [MSG_WAITALL].  It returns a number of bytes, -1 for a failure or -2 when
    the yielder stops it; the number is at most [len], but with [MSG_TRUNC],
    where the system reports the length that the message had. *)
Theorem socket_recv_bounds `{!Kernel} me yielders fd buf len flags y yd :
  yielder_ok me yielders -> 0 <= len ->
  {{{ cells (zrange buf len) ∗ kernel_of me }}}
    hev_task_io_socket_recv yielders fd buf len flags y yd @ (io_wait me)
  {{{ r, ⌞-2 <= r /\ (Z.land flags MSG_TRUNC = 0 -> r <= len)⌟ ∗ cells (zrange buf len) ∗
         kernel_of me }}}.
Proof. intros Hy Hlen. exact (cwp_recv me yielders fd buf len flags y yd Hy Hlen). Qed.

(** A yielder that stops at once. *)
Definition stop_yielder (f type data : Z) : co Z := Ret 1.

Lemma socket_recv_bounds_witness :
  @ctriple Z (@io_wait (sched_kernel 65536) 4096)
    (cells (zrange 49152 16) ∗ @kernel_of (sched_kernel 65536) 4096)%I
    (hev_task_io_socket_recv stop_yielder 5 49152 16 MSG_WAITALL 77 0)
    (fun r => ⌞-2 <= r /\ (Z.land MSG_WAITALL MSG_TRUNC = 0 -> r <= 16)⌟ ∗
       cells (zrange 49152 16) ∗ @kernel_of (sched_kernel 65536) 4096)%I.
Proof.
  apply (@socket_recv_bounds (sched_kernel 65536) 4096 stop_yielder 5 49152 16 MSG_WAITALL 77 0);
    [|done].
  intros f t d. unfold stop_yielder. cbn [cwp]. done.
Defined.
