(* ===== verification/SpliceProps.v ===== *)
(** * SpliceProps: [hev_task_io_splice] over two circular buffers

    Both directions of the loop, from the making of the buffers to their
    release, over any allocator and any scheduler, and what is passed on. *)

From S2P Require Import Prelude.
From S2P Require Import Sep.
From S2P Require Import Env.
From S2P Require Import EnvLogic.
From S2P Require Import Trace.
From S2P Require Import Bytes.
From S2P Require Import Mem.
From S2P Require Import SliceProofs.
From S2P Require Import Alloc.
From S2P Require Import TaskBase.
From S2P Require Import Quiet.
From S2P Require Import Kernel.
From S2P Require Import Buffer.
From S2P Require Import BufferProps.
From S2P Require Import IO.
From S2P Require Import SpliceProofs.
From S2P Require Import SocketProps.

(** ** The life of a buffer *)

Section life.
Context `{HA : !Allocator} (Y : Z -> heapProp -> heapProp) `{!YieldMono Y}.

(** What gives a buffer of [n] bytes back its block. *)
Definition buffer_block (p n : Z) : heapProp :=
  (∀ b rc, ⌞cb_max b = n⌟ -∗ is_cbuf p b -∗ cb_ref_count p ↦ rc -∗
     al_block p (SIZEOF_CIRCULAR_BUFFER + n))%I.

(** A buffer with one reference. *)
Definition owned_buffer (p n : Z) (b : cbuf) : heapProp :=
  (⌞cb_max b = n⌟ ∗ is_cbuf p b ∗ cb_ref_count p ↦ 1 ∗ buffer_block p n)%I.

Definition buffer_offs : list Z := [0; 8; 16; 24].

Lemma buffer_cells p n :
  0 <= n -> cells (zrange p (SIZEOF_CIRCULAR_BUFFER + n)) ⊣⊢
    field_cells p buffer_offs ∗ struct_rest p buffer_offs 28 ∗ cells (zrange (cb_data p) n) ∗
    cells (zrange (cb_data p + n) 4).
Proof.
  intros Hn. assert (SIZEOF_CIRCULAR_BUFFER + n = 28 + (n + 4)) as -> by (unfold SIZEOF_CIRCULAR_BUFFER; lia).
  rw zrange_split; [|lia|lia]. rw zrange_split; [|lia|lia]. rw !cells_app.
  rw (cells_struct p buffer_offs 28) //. by rw -!assoc.
Qed.

Lemma area_length b : cbuf_wf b -> Z.of_nat (length (cb_area b)) = cb_max b.
Proof.
  intros []. unfold cb_area. rw length_app length_drop length_take. lia.
Qed.

Lemma cwp_buffer_new n :
  0 < n -> SIZEOF_CIRCULAR_BUFFER + n <= MAX_REQUEST ->
  al_heap ⊢ cwp Y (hev_circular_buffer_new n) (fun p => al_heap ∗
    (⌞p = NULL⌟ ∨ ∃ b, ⌞p <> NULL /\ cb_contents b = []⌟ ∗ owned_buffer p n b)).
Proof.
  intros Hn Hmax. iIntros "H". unfold hev_circular_buffer_new, MAX_REQUEST in *.
  assert (SIZEOF_CIRCULAR_BUFFER = 32) as Hsize by done.
  rw w64_small; [|lia]. iApply cwp_call. iSplitL; [iApply (wp_hev_malloc with "H"); unfold MAX_REQUEST; lia|].
  iIntros (p) "[Hh [->|Hb]]".
  { cbn [is_true Z.eqb NULL negb cwp]. iFrame. by iLeft. }
  iDestruct (al_pos with "Hb") as %[Hp _].
  rw is_true_nonnull; [|unfold NULL; lia]. cbn [negb].
  iDestruct (al_cells with "Hb") as "[Hc Hback]"; [lia|]. iEval (rw buffer_cells; [|lia]) in "Hc".
  iDestruct "Hc" as "(Hf & Hrest & Hd & Hpad)". unfold field_cells, buffer_offs.
  iDestruct "Hf" as "([%v0 H0] & [%v1 H1] & [%v2 H2] & [%v3 H3] & _)".
  iEval (rw Z.add_0_r) in "H0". cbn [cwp]. wp_store. cbn [cwp]. wp_store. cbn [cwp]. wp_store. cbn [cwp].
  wp_store. cbn [cwp]. iFrame "Hh". iRight.
  pose proof (cells_bytes (cb_data p) (Z.to_nat n)) as Hcb. rw Z2Nat.id in Hcb; [|lia].
  iDestruct (Hcb with "Hd") as "(%vs & Hd & %Hvs)". iExists (CBuf n 0 0 vs).
  iSplitR; [iPureIntro; split; [unfold NULL; lia|done]|]. unfold owned_buffer. iSplitR; [done|].
  assert (cbuf_wf (CBuf n 0 0 vs)) as Hwf by (split; simpl; lia).
  iSplitL "H0 H1 H2 Hd".
  { rw is_cbuf_area. unfold cb_fields. cbn [cb_pos cb_fill cb_max]. iFrame. iSplitR; [done|].
    unfold cb_area. cbn [cb_max cb_pos cb_ring]. rw Z.sub_0_r drop_ge; [|lia]. rw take_ge; [|lia]. iFrame. }
  iSplitL "H3"; [done|]. iIntros (b rc) "%Hm Hb Hrc". iApply "Hback". rw buffer_cells; [|lia]. iFrame.
  rw is_cbuf_area. iDestruct "Hb" as "[(Hr & Hu & Hmx & %Hwb) Ha]".
  iSplitR "Ha".
  - unfold field_cells, buffer_offs. iSplitL "Hr"; [iExists _; rw Z.add_0_r; iFrame|].
    iSplitL "Hu"; [by iExists _|]. iSplitL "Hmx"; [by iExists _|]. done.
  - rw bytes_cells area_length // Hm. done.
Qed.

Lemma cwp_buffer_unref p n b :
  p <> NULL -> al_heap ∗ owned_buffer p n b ⊢ cwp Y (buf_splicer_fini p) (fun _ => al_heap).
Proof.
  iIntros (Hp) "(Hh & %Hm & Hb & Hrc & Hback)". unfold buf_splicer_fini.
  rw is_true_nonnull //. unfold hev_circular_buffer_unref. cbn [cwp]. wp_load. cbn [cwp]. wp_store.
  cbn [cwp]. wp_load. change (is_true (w32 (1 - 1))) with false. cbn iota.
  iApply wp_hev_free. iFrame "Hh". iApply ("Hback" with "[] Hb Hrc"). done.
Qed.
End life.

Lemma quiet_buffer_init n : quiet_tree (buf_splicer_init n).
Proof. unfold buf_splicer_init, hev_circular_buffer_new. calls. Qed.

Lemma quiet_buffer_fini p : quiet_tree (buf_splicer_fini p).
Proof. unfold buf_splicer_fini, hev_circular_buffer_unref. calls. Qed.

(** ** The loop *)

Section loop.
Context `{HA : !Allocator} `{HK : !Kernel} (me : Z) (yielders : Z -> Z -> Z -> co Z).
Context (fd_a_i fd_a_o fd_b_i fd_b_o iov n : Z).
Hypothesis Hin : fd_a_i <> fd_b_i.
Hypothesis Hout : fd_a_o <> fd_b_o.

(** What the others work on while the task waits. *)
Definition shared : heapProp := (kernel_of me ∗ al_heap)%I.
Definition splice_wait : Z -> heapProp -> heapProp := yield_inv shared.

(** A client's yielder suspends, or not, and returns; the streams it leaves alone. *)
Definition yielder_quiet : Prop := forall f t d,
  quiet_tree (yielders f t d) /\ (shared ⊢ cwp splice_wait (yielders f t d) (fun _ => shared)).

Lemma cwp_splice_yield type y yd log :
  yielder_quiet ->
  shared ⊢ cwp splice_wait (logged (io_yield yielders type y yd) log) (fun rl =>
    ⌞extends quiet log rl.2⌟ ∗ shared).
Proof.
  intros Hy. rw -(cwp_logged_quiet splice_wait quiet _ log (fun _ => shared)).
  - unfold io_yield. destruct (is_true y).
    + iIntros "H". iApply cwp_bind. iApply cwp_wand. iSplitL; [by iApply (proj2 (Hy _ _ _))|]. by iIntros (r) "H".
    + iIntros "[(%k & Hk & %Hk) Hh]". iApply cwp_bind. iApply k_yield. iFrame "Hk". iIntros "Hk".
      unfold splice_wait, yield_inv. iSplitL; [by iFrame|]. by iIntros "H".
  - unfold io_yield. destruct (is_true y); apply calls_bind; [apply Hy|done|apply quiet_yield|done].
Qed.

Lemma forwarding_quiet fd_in fd_out res b log log' :
  extends quiet log log' -> forwarding fd_in fd_out res b log -> forwarding fd_in fd_out res b log'.
Proof.
  intros (l & -> & Hl) [Hr Hs]. destruct (quiet_streams fd_in l Hl) as (Hr' & _ & _).
  destruct (quiet_streams fd_out l Hl) as (_ & Hd' & Hs'). split.
  - by rw received_app delivered_app Hr' Hd' !app_nil_r.
  - intros H. apply Hs. unfold shut in *. rw Exists_app in H. tauto.
Qed.

(** One direction's turn, skipped once it has ended. *)
Definition turn (res buf fd_in fd_out : Z) : co (Z * Z) :=
  if 0 <=? res then r <~ buf_splice buf iov fd_in fd_out ;; Ret (r, buf) else Ret (res, buf).

Lemma cwp_turn Y `{!YieldMono Y} res buf fd_in fd_out b log :
  forwarding fd_in fd_out res b log ->
  is_cbuf buf b ∗ iov_two iov ⊢ cwp Y (logged (turn res buf fd_in fd_out) log) (fun rl =>
    ∃ b' ev, ⌞rl.1.2 = buf /\ rl.2 = log ++ ev /\ only_between fd_in fd_out ev /\
              cb_max b' = cb_max b /\ forwarding fd_in fd_out rl.1.1 b' rl.2⌟ ∗
    is_cbuf buf b' ∗ iov_two iov).
Proof.
  iIntros (Hfw) "H". unfold turn. destruct (Z.leb_spec 0 res) as [Hres|Hres].
  - iApply cwp_logged_call. iSplitL; [by iApply (cwp_buf_splice with "H")|].
    iIntros (r l) "(%b' & %ev & %Hev & H)". cbn [fst snd logged cwp] in *. iExists b', ev. iFrame. done.
  - cbn [logged cwp]. iExists b, []. iFrame. iPureIntro. rw app_nil_r. cbn.
    split_and!; [done|done|apply only_between_nil|done|done].
Qed.

(** Both directions, with their buffers at [f] and [b]. *)
Definition both (f b res_f res_b : Z) (log : list entry) : heapProp :=
  (∃ Bf Bb, ⌞cb_max Bf = n /\ cb_max Bb = n /\ forwarding fd_a_i fd_b_o res_f Bf log /\
             forwarding fd_b_i fd_a_o res_b Bb log⌟ ∗
     is_cbuf f Bf ∗ is_cbuf b Bb ∗ iov_two iov ∗ shared)%I.

Definition loop_inv (f b : Z) (st : Z * Z * Z * Z) (log : list entry) : heapProp :=
  let '(res_f, res_b, f', b') := st in (⌞f' = f /\ b' = b⌟ ∗ both f b res_f res_b log)%I.

Definition loop_end (f b : Z) (rl : (Z * Z) * list entry) : heapProp :=
  (⌞rl.1 = (f, b)⌟ ∗ ∃ res_f res_b, both f b res_f res_b rl.2)%I.

Definition splice_step (buf fd_in fd_out : Z) : co (Z * Z) :=
  r <~ buf_splice buf iov fd_in fd_out ;; Ret (r, buf).

Lemma cwp_splice_body f b y yd st log :
  yielder_quiet ->
  loop_inv f b st log ⊢ cwp splice_wait
    (logged (splice_body yielders splice_step fd_a_i fd_a_o fd_b_i fd_b_o y yd st) log) (fun rl =>
      match rl.1 with inl st' => loop_inv f b st' rl.2 | inr v => loop_end f b (v, rl.2) end).
Proof.
  intros Hy. destruct st as [[[res_f res_b] f'] b']. unfold loop_inv, splice_body.
  iIntros "(%Hfb & %Bf & %Bb & %H & Hf & Hb & Hi & Hsh)". destruct Hfb as [-> ->].
  destruct H as (Hmf & Hmb & Hff & Hfb).
  iApply cwp_logged_call. iSplitL "Hf Hi"; [by iApply (cwp_turn with "[$Hf $Hi]")|].
  iIntros ([r1 p1] l1) "(%Bf1 & %ev1 & %H1 & Hf & Hi)". cbn [fst snd] in H1.
  destruct H1 as (-> & -> & Ho1 & Hm1 & Hff1).
  assert (forwarding fd_b_i fd_a_o res_b Bb (log ++ ev1)) as Hfb1.
  { apply (forwarding_other _ _ _ _ _ fd_a_i fd_b_o); (done || congruence). }
  iApply cwp_logged_call. iSplitL "Hb Hi"; [by iApply (cwp_turn with "[$Hb $Hi]")|].
  iIntros ([r2 p2] l2) "(%Bb2 & %ev2 & %H2 & Hb & Hi)". cbn [fst snd] in H2.
  destruct H2 as (-> & -> & Ho2 & Hm2 & Hfb2).
  assert (forwarding fd_a_i fd_b_o r1 Bf1 ((log ++ ev1) ++ ev2)) as Hff2.
  { apply (forwarding_other _ _ _ _ _ fd_b_i fd_a_o); (done || congruence). }
  set (l := (log ++ ev1) ++ ev2) in *. clearbody l.
  destruct ((_ || _) || _).
  - iApply cwp_logged_call. iSplitL "Hsh"; [by iApply cwp_splice_yield|].
    iIntros (stop l') "[%Hq Hsh]". cbn [fst snd] in Hq. pose proof (forwarding_quiet _ _ _ _ _ _ Hq Hff2).
    pose proof (forwarding_quiet _ _ _ _ _ _ Hq Hfb2). destruct stop; cbn [logged cwp fst snd].
    + iSplitR; [done|]. iExists r1, r2, Bf1, Bb2. iFrame. iPureIntro. split_and!; (done || congruence).
    + iSplitR; [done|]. iExists Bf1, Bb2. iFrame. iPureIntro. split_and!; (done || congruence).
  - cbn [logged cwp fst snd]. iSplitR; [done|]. iExists r1, r2, Bf1, Bb2. iFrame. iPureIntro.
    split_and!; (done || congruence).
Qed.
(** ** The whole function *)

Definition buffer_init : co (option Z) :=
  buf <~ buf_splicer_init n ;; Ret (if is_true buf then Some buf else None).

Definition new_buffer (o : option Z) : heapProp :=
  match o with
  | None => emp%I
  | Some p => (∃ b, ⌞p <> NULL /\ cb_contents b = []⌟ ∗ owned_buffer p n b)%I
  end.

Hypothesis Hn : 0 < n.
Hypothesis Hmax : SIZEOF_CIRCULAR_BUFFER + n <= MAX_REQUEST.

Lemma cwp_init Y `{!YieldMono Y} log :
  al_heap ⊢ cwp Y (logged buffer_init log) (fun rl =>
    ⌞extends quiet log rl.2⌟ ∗ al_heap ∗ new_buffer rl.1).
Proof.
  rw -(cwp_logged_quiet Y quiet _ log (fun o => al_heap ∗ new_buffer o)%I).
  - iIntros "H". unfold buffer_init. iApply cwp_call. iSplitL; [by iApply cwp_buffer_new|].
    iIntros (p) "[$ [->|(%b & %Hb & Hb)]]"; cbn [cwp]; [done|]. rw is_true_nonnull; [|apply Hb].
    iExists b. by iFrame.
  - apply calls_bind; [apply quiet_buffer_init|done].
Qed.

Lemma cwp_fini Y `{!YieldMono Y} p b log :
  p <> NULL -> al_heap ∗ owned_buffer p n b ⊢ cwp Y (logged (buf_splicer_fini p) log) (fun rl =>
    ⌞extends quiet log rl.2⌟ ∗ al_heap).
Proof.
  intros Hp. rw -(cwp_logged_quiet Y quiet _ log (fun _ => al_heap)).
  - by apply cwp_buffer_unref.
  - apply quiet_buffer_fini.
Qed.

(** Everything that was got has been passed on in order, but for what is held
    back: at most a buffer, and nothing once the output has been shut down. *)
Definition forwarded (fd_in fd_out : Z) (log : list entry) : Prop :=
  exists held, received fd_in log = delivered fd_out log ++ held /\
    Z.of_nat (length held) <= n /\ (shut fd_out log -> held = []).

Lemma forwarding_start fd_in fd_out b log :
  cb_contents b = [] -> extends quiet [] log -> forwarding fd_in fd_out 1 b log.
Proof.
  intros Hb (l & -> & Hl). cbn. destruct (quiet_streams fd_in l Hl) as (Hr & _ & _).
  destruct (quiet_streams fd_out l Hl) as (_ & Hd & Hs). split; [by rw Hr Hd Hb|tauto].
Qed.

Lemma forwarding_forwarded fd_in fd_out res b log :
  cbuf_wf b -> cb_max b = n -> forwarding fd_in fd_out res b log -> forwarded fd_in fd_out log.
Proof.
  intros Hwf Hm [Hr Hs]. exists (cb_contents b). split_and!; [done| |apply Hs].
  pose proof (fill_length b Hwf). destruct Hwf. lia.
Qed.

Lemma extends_trans P log1 log2 log3 : extends P log1 log2 -> extends P log2 log3 -> extends P log1 log3.
Proof.
  intros (l1 & -> & H1) (l2 & -> & H2). exists (l1 ++ l2). rw assoc_L. split; [done|by apply Forall_app].
Qed.

Lemma nothing_forwarded fd_in fd_out log : extends quiet [] log -> forwarded fd_in fd_out log.
Proof.
  intros (l & -> & Hl). cbn. destruct (quiet_streams fd_in l Hl) as (Hr & _ & _).
  destruct (quiet_streams fd_out l Hl) as (_ & Hd & _). exists []. rw Hr Hd. simpl.
  split_and!; [done|lia|done].
Qed.

(** The loop and the release of the buffers. *)
Lemma cwp_splice_run y yd f b Bf Bb log :
  yielder_quiet -> f <> NULL -> b <> NULL -> cb_contents Bf = [] -> cb_contents Bb = [] ->
  extends quiet [] log ->
  owned_buffer f n Bf ∗ owned_buffer b n Bb ∗ iov_two iov ∗ shared ⊢ cwp splice_wait
    (logged (fb <~ co_while (splice_body yielders splice_step fd_a_i fd_a_o fd_b_i fd_b_o y yd) (1, 1, f, b) ;;
             buf_splicer_fini fb.2 ~;; buf_splicer_fini fb.1) log) (fun rl =>
      ⌞forwarded fd_a_i fd_b_o rl.2 /\ forwarded fd_b_i fd_a_o rl.2⌟ ∗ iov_two iov ∗ shared).
Proof.
  intros Hy Hf Hb Hcf Hcb Hlog. iIntros "((%Hmf & Hf & Hrf & Hkf) & (%Hmb & Hb & Hrb & Hkb) & Hi & Hsh)".
  iApply cwp_logged_call. iSplitL "Hf Hb Hi Hsh".
  { iApply (cwp_logged_while splice_wait _ (loop_inv f b) _ _ (loop_end f b)).
    - intros st l. by apply cwp_splice_body.
    - iSplitR; [done|]. iExists Bf, Bb. iFrame. iPureIntro.
      split_and!; [done|done|by apply forwarding_start|by apply forwarding_start]. }
  iIntros (fb l) "(%Hfb & %r1 & %r2 & %Bf' & %Bb' & %H & Hf & Hb & Hi & Hk & Hh)".
  cbn [fst snd] in *. subst fb. destruct H as (Hmf' & Hmb' & Hff & Hfb). cbn [fst snd].
  iDestruct (is_cbuf_wf with "Hf") as %Hwf.
  iDestruct (is_cbuf_wf with "Hb") as %Hwb.
  iApply cwp_logged_call. iSplitL "Hh Hb Hrb Hkb".
  { iApply (cwp_fini splice_wait b Bb' l Hb). by iFrame. }
  iIntros (u l1) "[%H1 Hh]". iApply cwp_wand. iSplitL "Hh Hf Hrf Hkf".
  { iApply (cwp_fini splice_wait f Bf' l1 Hf). by iFrame. }
  iIntros ([u2 l2]) "[%H2 Hh]". cbn [fst snd] in *. iFrame. iPureIntro.
  pose proof (extends_trans _ _ _ _ H1 H2) as Hx.
  split; [apply (forwarding_forwarded _ _ r1 Bf')|apply (forwarding_forwarded _ _ r2 Bb')];
    (done || by eapply forwarding_quiet).
Qed.

Lemma cwp_splice_all y yd :
  yielder_quiet ->
  iov_two iov ∗ shared ⊢ cwp splice_wait
    (logged (hev_task_io_splice_buf yielders iov fd_a_i fd_a_o fd_b_i fd_b_o n y yd) []) (fun rl =>
      ⌞forwarded fd_a_i fd_b_o rl.2 /\ forwarded fd_b_i fd_a_o rl.2⌟ ∗ iov_two iov ∗ shared).
Proof.
  intros Hy. iIntros "(Hi & Hk & Hh)".
  change (hev_task_io_splice_buf yielders iov fd_a_i fd_a_o fd_b_i fd_b_o n y yd)
    with (hev_task_io_splice yielders buffer_init buf_splicer_fini splice_step
            fd_a_i fd_a_o fd_b_i fd_b_o y yd).
  unfold hev_task_io_splice. iApply cwp_logged_call. iSplitL "Hh"; [by iApply cwp_init|].
  iIntros ([f|] l1) "(%H1 & Hh & Hf)"; cbn [fst snd new_buffer] in *.
  - iDestruct "Hf" as "(%Bf & %Hf & Hf)". destruct Hf as [Hf Hcf].
    iApply cwp_logged_call. iSplitL "Hh"; [by iApply cwp_init|].
    iIntros ([b|] l2) "(%H2 & Hh & Hb)"; cbn [fst snd new_buffer] in *;
      pose proof (extends_trans _ _ _ _ H1 H2) as H12.
    + iDestruct "Hb" as "(%Bb & %Hb & Hb)". destruct Hb as [Hb Hcb].
      iApply (cwp_splice_run y yd f b Bf Bb l2); [done..|]. iFrame.
    + iApply cwp_wand. iSplitL "Hh Hf"; [iApply (cwp_fini splice_wait f Bf l2 Hf); iFrame|].
      iIntros ([u l3]) "[%H3 Hh]". cbn [fst snd] in *. pose proof (extends_trans _ _ _ _ H12 H3).
      iFrame. iPureIntro. split; by apply nothing_forwarded.
  - cbn [logged cwp fst snd]. iFrame. iPureIntro. split; by apply nothing_forwarded.
Qed.
End loop.

(** C23. [hev_task_io_splice] as built without the [splice] system call, over
    circular buffers, when it returns: in each direction the bytes passed to the
    output are, in order and each once, those got from the input but for at most
    a buffer's last ones, and an output that was shut down had been passed all
    of them.  The buffers have gone back to the allocator, and nothing has
    faulted whatever the calls answered. *)
Theorem splice_forwards `{!Allocator} `{!Kernel} me yielders fd_a_i fd_a_o fd_b_i fd_b_o iov n y yd :
  fd_a_i <> fd_b_i -> fd_a_o <> fd_b_o ->
  0 < n -> SIZEOF_CIRCULAR_BUFFER + n <= MAX_REQUEST -> yielder_quiet me yielders ->
  {{{ iov_two iov ∗ shared me }}}
    logged (hev_task_io_splice_buf yielders iov fd_a_i fd_a_o fd_b_i fd_b_o n y yd) [] @ (splice_wait me)
  {{{ r, ⌞forwarded n fd_a_i fd_b_o r.2 /\ forwarded n fd_b_i fd_a_o r.2⌟ ∗ iov_two iov ∗ shared me }}}.
Proof. intros Hin Hout Hn Hmax Hy. by apply cwp_splice_all. Qed.

(** A yielder that never stops. *)
Definition go_on (f type data : Z) : co Z := Ret 0.

Lemma splice_forwards_witness :
  @ctriple (unit * list entry)
    (@splice_wait (slice_allocator 6400) (sched_kernel 65536) 4096)
    (iov_two 49152 ∗ @shared (slice_allocator 6400) (sched_kernel 65536) 4096)%I
    (logged (hev_task_io_splice_buf go_on 49152 5 5 6 6 8192 77 0) [])
    (fun r => ⌞forwarded 8192 5 6 r.2 /\ forwarded 8192 6 5 r.2⌟ ∗ iov_two 49152 ∗
              @shared (slice_allocator 6400) (sched_kernel 65536) 4096)%I.
Proof.
  apply (@splice_forwards (slice_allocator 6400) (sched_kernel 65536) 4096 go_on 5 5 6 6 49152 8192 77 0).
  - lia.
  - lia.
  - lia.
  - unfold SIZEOF_CIRCULAR_BUFFER, MAX_REQUEST. lia.
  - intros f t d. split; [exact I|]. unfold go_on. cbn [cwp]. done.
Defined.
