(* ===== verification/Aide.v ===== *)
(** * Aide: [src/src/kern/aide], the helper thread of blocking work

    The functions of the users and of the thread itself, each as the program
    of one thread: what other threads do between two calls is not part of
    these definitions. *)

From S2P Require Export Prelude.
From S2P Require Export Env.
From S2P Require Export Mem.
From S2P Require Export Reactor.
From S2P Require Export IO.
From S2P Require Export Socket.

(** ** [struct _HevTaskAideWork] and [struct _HevTaskAide] *)

Definition work_fd (w : Z) : Z := w.
Definition work_events (w : Z) : Z := w + 4.
Definition work_handler (w : Z) : Z := w + 8.
Definition work_data (w : Z) : Z := w + 16.

Definition aide_thread (a : Z) : Z := a.
Definition aide_reactor (a : Z) : Z := a + 8.
Definition aide_allocator (a : Z) : Z := a + 16.
Definition aide_ctrl_work (a : Z) : Z := a + 24.
Definition aide_ctrl_fd (a : Z) : Z := a + 48.
Definition aide_quit (a : Z) : Z := a + 52.
Definition aide_orphan (a : Z) : Z := a + 56.
Definition aide_ref_count (a : Z) : Z := a + 60.
Definition SIZEOF_AIDE : Z := 64.

(** [static HevTaskAide *aide], [once] and [mutex]. *)
Definition aide_static : Z := 48.
Definition aide_once : Z := 56.
Definition aide_mutex : Z := 64.

Definition FN_aide_quit_handler : Z := 301.
Definition FN_aide_entry : Z := 302.
Definition FN_aide_fork_prepare : Z := 303.
Definition FN_aide_fork_parent : Z := 304.
Definition FN_aide_fork_child : Z := 305.

(** The address of a local buffer whose contents do not matter. *)
Definition LOCAL : Z := NULL.

Definition hev_sys_mutex_lock (m : Z) : co unit := sys "pthread_mutex_lock" [m] ~;; Ret tt.
Definition hev_sys_mutex_unlock (m : Z) : co unit := sys "pthread_mutex_unlock" [m] ~;; Ret tt.

(** ** The thread *)

Definition hev_task_aide_quit_handler (revents data : Z) : co unit :=
  let self := data in
  co_while (fun _ : unit =>
    fd <! load (work_fd (aide_ctrl_work self)) ;;
    a <~ call (Query "read" [fd; LOCAL; 64] 64) ;;
    let res := a_ret a in
    if res <? 0 then Ret (if a_errno a =? EINTR then inl tt else inr tt)
    else if res =? 0 then Ret (inr tt)
    else store (aide_quit self) 1 !;; Ret (inl tt)) tt.

Section handlers.
(** The handlers of the registered works, by function pointer. *)
Context (handlers : Z -> Z -> Z -> co unit).

Definition run_handler (f revents data : Z) : co unit :=
  if f =? FN_aide_quit_handler then hev_task_aide_quit_handler revents data
  else handlers f revents data.

Definition run_work (ev : HevTaskIOReactorWaitEvent) : co unit :=
  let work := hev_task_io_reactor_wait_event_get_data ev in
  let revents := hev_task_io_reactor_wait_event_get_events ev in
  handler <! load (work_handler work) ;;
  data <! load (work_data work) ;;
  run_handler handler revents data.

Definition hev_task_aide_entry (data : Z) : co Z :=
  let self := data in
  co_while (fun _ : unit =>
    quit <! load (aide_quit self) ;;
    if is_true quit then Ret (inr NULL) else
    reactor <! load (aide_reactor self) ;;
    r <~ hev_task_io_reactor_wait reactor 256 (-1) ;;
    co_for (take (Z.to_nat r.1) r.2) run_work ~;;
    Ret (inl tt)) tt.
End handlers.

(** ** Creation and destruction *)

Definition hev_task_aide_reactor_new (self : Z) : co Z :=
  allocator <! load (aide_allocator self) ;;
  allocator <! hev_memory_allocator_set_default allocator ;;
  reactor <~ hev_task_io_reactor_new ;;
  hev_memory_allocator_set_default allocator !;;
  Ret reactor.

Definition hev_task_aide_reactor_destroy (self : Z) : co unit :=
  allocator <! load (aide_allocator self) ;;
  allocator <! hev_memory_allocator_set_default allocator ;;
  reactor <! load (aide_reactor self) ;;
  hev_task_io_reactor_destroy reactor ~;;
  hev_memory_allocator_set_default allocator !;;
  Ret tt.

(** [fds] is the local array of two descriptors.  The labels of the error
    path, from the last to the first. *)
Definition aide_new_close (fds : Z) : co Z :=
  fd0 <! load (sv_fd fds 0) ;; hev_task_io_close fd0 ~;;
  fd1 <! load (sv_fd fds 1) ;; hev_task_io_close fd1 ~;;
  Ret NULL.
Definition aide_new_free (self fds : Z) : co Z := free self ~;; aide_new_close fds.
Definition aide_new_free_allocator (self fds : Z) : co Z :=
  allocator <! load (aide_allocator self) ;;
  hev_memory_allocator_unref allocator ~;;
  aide_new_free self fds.
Definition aide_new_free_reactor (self fds : Z) : co Z :=
  hev_task_aide_reactor_destroy self ~;;
  aide_new_free_allocator self fds.

Definition hev_task_aide_new (fds : Z) : co Z :=
  res <~ hev_task_io_socket_socketpair PF_LOCAL SOCK_STREAM 0 fds ;;
  if res <? 0 then Ret NULL else
  fd0 <! load (sv_fd fds 0) ;;
  fd1 <! load (sv_fd fds 1) ;;
  r <~ sys "fcntl" [fd0; F_SETFD; FD_CLOEXEC] ;;
  r <~ (if r <? 0 then Ret (-1) else sys "fcntl" [fd1; F_SETFD; FD_CLOEXEC]) ;;
  if r <? 0 then aide_new_close fds else
  self <~ calloc 1 SIZEOF_AIDE ;;
  if negb (is_true self) then aide_new_close fds else
  allocator <~ simple_new ;;
  store (aide_allocator self) allocator !;;
  if negb (is_true allocator) then aide_new_free self fds else
  reactor <~ hev_task_aide_reactor_new self ;;
  store (aide_reactor self) reactor !;;
  if negb (is_true reactor) then aide_new_free_allocator self fds else
  store (work_fd (aide_ctrl_work self)) fd0 !;;
  store (work_events (aide_ctrl_work self)) POLLIN !;;
  store (work_handler (aide_ctrl_work self)) FN_aide_quit_handler !;;
  store (work_data (aide_ctrl_work self)) self !;;
  store (aide_ctrl_fd self) fd1 !;;
  let '(revents, count) :=
    hev_task_io_reactor_setup_event_fd_gen fd0 HEV_TASK_IO_REACTOR_OP_ADD POLLIN
      (aide_ctrl_work self) in
  res <~ hev_task_io_reactor_setup reactor revents count ;;
  if res <? 0 then aide_new_free_reactor self fds else
  a <~ call (Sys "pthread_create" [aide_thread self; NULL; FN_aide_entry; self]
               [aide_thread self]) ;;
  if negb (a_ret a =? 0) then aide_new_free_reactor self fds else
  Ret self.

(** Write the control byte, waiting on a full socket. *)
Definition write_sync (fd_cell byte : Z) : co unit :=
  co_while (fun _ : unit =>
    fd <! load fd_cell ;;
    a <~ call (Query "write" [fd; byte; 1] 0) ;;
    if 0 <=? a_ret a then Ret (inr tt)
    else if a_errno a =? EINTR then Ret (inl tt)
    else if negb (a_errno a =? EAGAIN) then Ret (inr tt)
    else
      fd <! load fd_cell ;;
      sys "poll" [fd; POLLOUT; -1] ~;; Ret (inl tt)) tt.

Definition CHAR_q : Z := 113.

Definition hev_task_aide_destroy (self : Z) : co unit :=
  orphan <! load (aide_orphan self) ;;
  co_when (negb (is_true orphan)) (write_sync (aide_ctrl_fd self) CHAR_q) ~;;
  orphan <! load (aide_orphan self) ;;
  co_when (negb (is_true orphan))
    (thread <! load (aide_thread self) ;; sys "pthread_join" [thread; NULL] ~;; Ret tt) ~;;
  ctrl_fd <! load (aide_ctrl_fd self) ;; hev_task_io_close ctrl_fd ~;;
  fd <! load (work_fd (aide_ctrl_work self)) ;; hev_task_io_close fd ~;;
  hev_task_aide_reactor_destroy self ~;;
  allocator <! load (aide_allocator self) ;;
  hev_memory_allocator_unref allocator ~;;
  free self.

(** ** Fork *)

Definition hev_task_aide_fork_prepare : co unit := hev_sys_mutex_lock aide_mutex.
Definition hev_task_aide_fork_parent : co unit := hev_sys_mutex_unlock aide_mutex.
Definition hev_task_aide_fork_child : co unit :=
  aide <! load aide_static ;;
  when (is_true aide) (store (aide_orphan aide) 1 ;;; store aide_static NULL) !;;
  hev_sys_mutex_unlock aide_mutex.

Definition hev_task_aide_once : co unit :=
  sys "pthread_atfork" [FN_aide_fork_prepare; FN_aide_fork_parent; FN_aide_fork_child] ~;; Ret tt.

(** [pthread_once] *)
Definition hev_sys_once (once : Z) (f : co unit) : co unit :=
  done <! load once ;;
  if is_true done then Ret tt else store once 1 !;; f.

(** ** Users *)

Definition hev_task_aide_get (fds : Z) : co Z :=
  hev_sys_once aide_once hev_task_aide_once ~;;
  hev_sys_mutex_lock aide_mutex ~;;
  aide <! load aide_static ;;
  co_when (negb (is_true aide))
    (aide <~ hev_task_aide_new fds ;; act (store aide_static aide)) ~;;
  self <! load aide_static ;;
  when (is_true self)
    (rc <- load (aide_ref_count self) ;; store (aide_ref_count self) (w32 (rc + 1))) !;;
  hev_sys_mutex_unlock aide_mutex ~;;
  Ret self.

Definition hev_task_aide_put (self : Z) : co unit :=
  hev_sys_mutex_lock aide_mutex ~;;
  rc <! load (aide_ref_count self) ;;
  let ref_count := w32 (rc - 1) in
  store (aide_ref_count self) ref_count !;;
  aide <! load aide_static ;;
  when ((0 =? ref_count) && (aide =? self)) (store aide_static NULL) !;;
  hev_sys_mutex_unlock aide_mutex ~;;
  co_when (0 =? ref_count) (hev_task_aide_destroy self).

Definition hev_task_aide_is_orphan (self : Z) : M Z := load (aide_orphan self).

Definition hev_task_aide_add (self work : Z) : co Z :=
  fd <! load (work_fd work) ;;
  events <! load (work_events work) ;;
  let '(revents, count) :=
    hev_task_io_reactor_setup_event_fd_gen fd HEV_TASK_IO_REACTOR_OP_ADD events work in
  reactor <! load (aide_reactor self) ;;
  hev_task_io_reactor_setup reactor revents count.

Definition hev_task_aide_del (self work : Z) : co Z :=
  orphan <! load (aide_orphan self) ;;
  if is_true orphan then Ret 0 else
  fd <! load (work_fd work) ;;
  let '(revents, count) :=
    hev_task_io_reactor_setup_event_fd_gen fd HEV_TASK_IO_REACTOR_OP_DEL 0 NULL in
  reactor <! load (aide_reactor self) ;;
  hev_task_io_reactor_setup reactor revents count.
