(* ===== verification/Dns.v ===== *)
(** * Dns: [src/src/lib/dns], name resolution on the aide thread

    A proxy hands a call description to its handler on the aide thread over a
    socket pair and waits for the echo of the byte it sent. *)

From S2P Require Export Prelude.
From S2P Require Export Env.
From S2P Require Export Mem.
From S2P Require Export TaskBase.
From S2P Require Export Task.
From S2P Require Export Mutex.
From S2P Require Export Reactor.
From S2P Require Export IO.
From S2P Require Export Socket.
From S2P Require Export Aide.

Definition HEV_TASK_DNS_CALL_GETADDRINFO : Z := 0.
Definition HEV_TASK_DNS_CALL_GETNAMEINFO : Z := 1.
Definition EAI_SYSTEM : Z := -11.

(** ** [struct _HevTaskDNSProxy] and the call descriptions *)

Definition dns_fd (p : Z) : Z := p.
Definition dns_mutex (p : Z) : Z := p + 8.
Definition dns_aide (p : Z) : Z := p + 24.
Definition dns_work (p : Z) : Z := p + 32.
Definition dns_call (p : Z) : Z := p + 56.
Definition dns_sched_task (p : Z) : Z := p + 64.
Definition SIZEOF_DNS_PROXY : Z := 72.

Definition call_type (c : Z) : Z := c.

Definition gai_node (c : Z) : Z := c + 8.
Definition gai_service (c : Z) : Z := c + 16.
Definition gai_hints (c : Z) : Z := c + 24.
Definition gai_res (c : Z) : Z := c + 32.
Definition gai_err (c : Z) : Z := c + 40.
Definition gai_ret (c : Z) : Z := c + 44.

Definition gni_addr (c : Z) : Z := c + 8.
Definition gni_node (c : Z) : Z := c + 16.
Definition gni_service (c : Z) : Z := c + 24.
Definition gni_addrlen (c : Z) : Z := c + 32.
Definition gni_nodelen (c : Z) : Z := c + 36.
Definition gni_servicelen (c : Z) : Z := c + 40.
Definition gni_flags (c : Z) : Z := c + 44.
Definition gni_err (c : Z) : Z := c + 48.
Definition gni_ret (c : Z) : Z := c + 52.

(** [static HevTask dummy_task], a task that always runs. *)
Definition dummy_task : Z := 2048.

Definition FN_dns_server_handler : Z := 401.

Definition CHAR_s : Z := 115.
Definition CHAR_d : Z := 100.

(** ** The handler, on the aide thread *)

Definition hev_task_dns_server_getaddrinfo (gai : Z) : co unit :=
  node <! load (gai_node gai) ;;
  service <! load (gai_service gai) ;;
  hints <! load (gai_hints gai) ;;
  res <! load (gai_res gai) ;;
  a <~ call (Sys "getaddrinfo" [node; service; hints; res] [res]) ;;
  store (gai_ret gai) (a_ret a) !;;
  act (store (gai_err gai) (a_errno a)).

Definition hev_task_dns_server_getnameinfo (gni : Z) : co unit :=
  addr <! load (gni_addr gni) ;;
  addrlen <! load (gni_addrlen gni) ;;
  node <! load (gni_node gni) ;;
  nodelen <! load (gni_nodelen gni) ;;
  service <! load (gni_service gni) ;;
  servicelen <! load (gni_servicelen gni) ;;
  flags <! load (gni_flags gni) ;;
  a <~ call (Sys "getnameinfo" [addr; addrlen; node; nodelen; service; servicelen; flags]
               (zrange node nodelen ++ zrange service servicelen)) ;;
  store (gni_ret gni) (a_ret a) !;;
  act (store (gni_err gni) (a_errno a)).

(** One byte read into the local variable [sync]. *)
Definition read_sync (fd sync : Z) : co (answer * Z) :=
  a <~ call (Query "read" [fd; LOCAL; 1] 1) ;;
  Ret (a, default sync (head (a_data a))).

Definition server_run (proxy : Z) : co unit :=
  call <! load (dns_call proxy) ;;
  if is_true call then
    type <! load (call_type call) ;;
    if type =? HEV_TASK_DNS_CALL_GETADDRINFO then hev_task_dns_server_getaddrinfo call
    else if type =? HEV_TASK_DNS_CALL_GETNAMEINFO then hev_task_dns_server_getnameinfo call
    else Ret tt
  else Ret tt.

Definition hev_task_dns_server_handler (revents data : Z) : co unit :=
  let proxy := data in
  co_while (fun _ : unit =>
    fd <! load (work_fd (dns_work proxy)) ;;
    r <~ read_sync fd CHAR_s ;;
    let '(a, sync) := r in
    if a_ret a <? 0 then Ret (if a_errno a =? EINTR then inl tt else inr tt)
    else if a_ret a =? 0 then Ret (inr tt)
    else
      server_run proxy ~;;
      write_sync (work_fd (dns_work proxy)) sync ~;;
      Ret (if sync =? CHAR_d then inr tt else inl tt)) tt.

(** ** Creation and destruction; [fds] are the local descriptor arrays *)

Definition dns_new_free (self : Z) : co Z := hev_free self ~;; Ret NULL.
Definition dns_new_put (self : Z) : co Z :=
  aide <! load (dns_aide self) ;; hev_task_aide_put aide ~;; dns_new_free self.
Definition dns_new_close (self fds : Z) : co Z :=
  fd0 <! load (sv_fd fds 0) ;; hev_task_io_close fd0 ~;;
  fd1 <! load (sv_fd fds 1) ;; hev_task_io_close fd1 ~;;
  dns_new_put self.

Definition hev_task_dns_proxy_new (fds aide_fds : Z) : co Z :=
  context <! hev_task_system_get_context ;;
  self <~ hev_malloc0 SIZEOF_DNS_PROXY ;;
  if negb (is_true self) then Ret NULL else
  aide <~ hev_task_aide_get aide_fds ;;
  store (dns_aide self) aide !;;
  if negb (is_true aide) then dns_new_free self else
  res <~ hev_task_io_socket_socketpair PF_LOCAL SOCK_STREAM 0 fds ;;
  if res <? 0 then dns_new_put self else
  fd0 <! load (sv_fd fds 0) ;;
  fd1 <! load (sv_fd fds 1) ;;
  r <~ sys "fcntl" [fd0; F_SETFD; FD_CLOEXEC] ;;
  r <~ (if r <? 0 then Ret (-1) else sys "fcntl" [fd1; F_SETFD; FD_CLOEXEC]) ;;
  if r <? 0 then dns_new_close self fds else
  store (dns_sched_task self) dummy_task !;;
  let '(revents, count) :=
    hev_task_io_reactor_setup_event_fd_gen fd0 HEV_TASK_IO_REACTOR_OP_ADD (Z.lor POLLIN POLLOUT)
      (hev_task_slot_to_data (dns_sched_task self)) in
  reactor <! load (ctx_reactor context) ;;
  res <~ hev_task_io_reactor_setup reactor revents count ;;
  if res <? 0 then dns_new_close self fds else
  store (dns_fd self) fd0 !;;
  store (work_fd (dns_work self)) fd1 !;;
  store (work_events (dns_work self)) POLLIN !;;
  store (work_handler (dns_work self)) FN_dns_server_handler !;;
  store (work_data (dns_work self)) self !;;
  res <~ hev_task_aide_add aide (dns_work self) ;;
  if res <? 0 then dns_new_close self fds else
  Ret self.

(** The second loop: wait for the echo of ['d']. *)
Definition drain_read (self : Z) : co unit :=
  co_while (fun sync =>
    fd <! load (dns_fd self) ;;
    r <~ read_sync fd sync ;;
    let '(a, sync) := r in
    let res := a_ret a in
    if (res =? 1) && (sync =? CHAR_d) then Ret (inr tt)
    else if res =? 0 then Ret (inr tt)
    else if (res <? 0) && (a_errno a =? EINTR) then Ret (inl sync)
    else if (res <? 0) && negb (a_errno a =? EAGAIN) then Ret (inr tt)
    else
      fd <! load (dns_fd self) ;;
      sys "poll" [fd; POLLIN; -1] ~;; Ret (inl sync)) CHAR_d.

Definition hev_task_dns_proxy_drain (self : Z) : co unit :=
  store (dns_call self) NULL !;;
  write_sync (dns_fd self) CHAR_d ~;;
  drain_read self.

Definition hev_task_dns_proxy_destroy (self : Z) : co unit :=
  aide <! load (dns_aide self) ;;
  orphan <! hev_task_aide_is_orphan aide ;;
  co_when (negb (is_true orphan)) (hev_task_dns_proxy_drain self) ~;;
  aide <! load (dns_aide self) ;;
  hev_task_aide_del aide (dns_work self) ~;;
  hev_task_aide_put aide ~;;
  fd <! load (work_fd (dns_work self)) ;; hev_task_io_close fd ~;;
  fd <! load (dns_fd self) ;; hev_task_io_close fd ~;;
  hev_free self.

(** ** Calls *)

(** The two loops of a call; a call that would block suspends the task. *)
Definition sync_loop (c : co answer) : co unit :=
  co_while (fun _ : unit =>
    a <~ c ;;
    if 0 <=? a_ret a then Ret (inr tt)
    else if a_errno a =? EINTR then Ret (inl tt)
    else if negb (a_errno a =? EAGAIN) then Ret (inr tt)
    else hev_task_yield HEV_TASK_WAITIO ~;; Ret (inl tt)) tt.

Definition hev_task_dns_proxy_call (self call mnode : Z) : co unit :=
  hev_task_mutex_lock (dns_mutex self) mnode ~;;
  store (dns_call self) call !;;
  task <! hev_task_self ;;
  store (dns_sched_task self) task !;;
  sync_loop (fd <! load (dns_fd self) ;; Env.call (Query "write" [fd; CHAR_s; 1] 0)) ~;;
  sync_loop (fd <! load (dns_fd self) ;; Env.call (Query "read" [fd; LOCAL; 1] 1)) ~;;
  store (dns_sched_task self) dummy_task !;;
  hev_task_mutex_unlock (dns_mutex self) !;;
  Ret tt.

(** [gai] and [gni] are the local call descriptions. *)
Definition hev_task_dns_proxy_getaddrinfo (self node service hints res gai mnode : Z) : co Z :=
  store (call_type gai) HEV_TASK_DNS_CALL_GETADDRINFO !;;
  store (gai_node gai) node !;;
  store (gai_service gai) service !;;
  store (gai_hints gai) hints !;;
  store (gai_res gai) res !;;
  store (gai_ret gai) (-1) !;;
  hev_task_dns_proxy_call self gai mnode ~;;
  err <! load (gai_err gai) ;;
  set_errno err ~;;
  r <! load (gai_ret gai) ;;
  Ret r.

Definition hev_task_dns_proxy_getnameinfo
    (self addr addrlen node nodelen service servicelen flags gni mnode : Z) : co Z :=
  store (call_type gni) HEV_TASK_DNS_CALL_GETNAMEINFO !;;
  store (gni_addr gni) addr !;;
  store (gni_addrlen gni) addrlen !;;
  store (gni_node gni) node !;;
  store (gni_nodelen gni) nodelen !;;
  store (gni_service gni) service !;;
  store (gni_servicelen gni) servicelen !;;
  store (gni_flags gni) flags !;;
  store (gni_ret gni) (-1) !;;
  hev_task_dns_proxy_call self gni mnode ~;;
  err <! load (gni_err gni) ;;
  set_errno err ~;;
  r <! load (gni_ret gni) ;;
  Ret r.

(** ** [hev-task-dns.c] *)

Definition hev_task_dns_proxy_get (fds aide_fds : Z) : co Z :=
  context <! hev_task_system_get_context ;;
  proxy <! load (ctx_dns_proxy context) ;;
  co_when (negb (is_true proxy))
    (proxy <~ hev_task_dns_proxy_new fds aide_fds ;;
     act (store (ctx_dns_proxy context) proxy)) ~;;
  proxy <! load (ctx_dns_proxy context) ;;
  Ret proxy.

Definition hev_task_dns_getaddrinfo (node service hints res fds aide_fds gai mnode : Z) : co Z :=
  proxy <~ hev_task_dns_proxy_get fds aide_fds ;;
  if negb (is_true proxy) then set_errno EIO ~;; Ret EAI_SYSTEM else
  hev_task_dns_proxy_getaddrinfo proxy node service hints res gai mnode.

Definition hev_task_dns_getnameinfo
    (addr addrlen node nodelen service servicelen flags fds aide_fds gni mnode : Z) : co Z :=
  proxy <~ hev_task_dns_proxy_get fds aide_fds ;;
  if negb (is_true proxy) then set_errno EIO ~;; Ret EAI_SYSTEM else
  hev_task_dns_proxy_getnameinfo proxy addr addrlen node nodelen service servicelen flags gni mnode.
