(* ===== verification/DnsProofs.v ===== *)
(** * DnsProofs: a task and the aide thread over the socket pair of a proxy

    The world of the two threads holds the bytes in flight on the socket pair.
    Its invariant owns what travels with a byte: the call description with a
    request and its reply, the aide thread's part of the proxy with the echo
    that ends it. *)

From S2P Require Import Prelude.
From S2P Require Import Sep.
From S2P Require Import Env.
From S2P Require Import EnvLogic.
From S2P Require Import Trace.
From S2P Require Import Threads.
From S2P Require Import Mem.
From S2P Require Import Alloc.
From S2P Require Import Reactor.
From S2P Require Import Task.
From S2P Require Import Quiet.
From S2P Require Import Kernel.
From S2P Require Import Mutex.
From S2P Require Import IO.
From S2P Require Import Aide.
From S2P Require Import Dns.

(** ** The socket pair *)

Record wire : Type := Wire { to_server : list Z; to_client : list Z }.

(** The resolver's result and [errno] by function and arguments. *)
Definition resolver : Type := string -> list Z -> Z * Z.

(** The call would block or was interrupted. *)
Definition again (x : answer) : Prop :=
  a_ret x < 0 /\ (a_errno x = EINTR \/ a_errno x = EAGAIN).

Definition read_ok (q : list Z) (x : answer) : Prop :=
  again x \/ exists b, head q = Some b /\ a_ret x = 1 /\ a_data x = [b].

Section world.
(** The proxy [p] of the aide [a], with the ends [cfd] of the users and [sfd]
    of the aide thread. *)
Context (cfd sfd p a : Z) (resolve : resolver).

(** [epoll_wait] reports each descriptor once, and one that is registered for
    reading only when there is something to read. *)
Definition events_ok (w : wire) (x : answer) : Prop :=
  let evs := we_data <$> take (Z.to_nat (a_ret x)) (wait_events (a_data x)) in
  NoDup evs /\ (forall d, d ∈ evs -> d = dns_work p \/ d = aide_ctrl_work a) /\
  (dns_work p ∈ evs -> to_server w <> []).

Definition dns_valid (w : wire) (e : ext) (x : answer) : Prop :=
  match e with
  | Query f (fd :: _) _ =>
      if String.eqb f "write" then fd = cfd \/ fd = sfd -> again x \/ a_ret x = 1
      else if String.eqb f "read" then
        (fd = cfd -> read_ok (to_client w) x) /\ (fd = sfd -> read_ok (to_server w) x)
      else if String.eqb f "epoll_wait" then events_ok w x
      else True
  | Sys f args _ =>
      if String.eqb f "getaddrinfo" || String.eqb f "getnameinfo"
      then (a_ret x, a_errno x) = resolve f args else True
  | _ => True
  end.

Definition dns_step (w : wire) (e : ext) (x : answer) : wire :=
  match e with
  | Query f (fd :: b :: _) _ =>
      if String.eqb f "write" then
        if 0 <? a_ret x then
          if fd =? cfd then Wire (to_server w ++ [b]) (to_client w)
          else if fd =? sfd then Wire (to_server w) (to_client w ++ [b])
          else w
        else w
      else if String.eqb f "read" then
        let n := Z.to_nat (a_ret x) in
        if fd =? cfd then Wire (to_server w) (drop n (to_client w))
        else if fd =? sfd then Wire (drop n (to_server w)) (to_client w)
        else w
      else w
  | _ => w
  end.

Lemma quiet_neutral e : quiet e -> neutral dns_step e.
Proof.
  intros He w x. destruct e as [| | | |f [|fd [|b args]] n|]; cbn; try done.
  unfold quiet, stream_call in He. apply orb_false_iff in He as [_ He].
  apply orb_false_iff in He as [-> ->]. done.
Qed.

(** ** What travels with the bytes *)

(** The call of a task, as its arguments say. *)
Inductive request : Type :=
| GetAddrInfo (node service hints res : Z)
| GetNameInfo (addr addrlen node nodelen service servicelen flags : Z).

Definition req_result (rq : request) : Z * Z :=
  match rq with
  | GetAddrInfo node service hints res => resolve "getaddrinfo" [node; service; hints; res]
  | GetNameInfo addr addrlen node nodelen service servicelen flags =>
      resolve "getnameinfo" [addr; addrlen; node; nodelen; service; servicelen; flags]
  end.

(** Where the resolver puts what it finds. *)
Definition req_outputs (rq : request) : list Z :=
  match rq with
  | GetAddrInfo _ _ _ res => [res]
  | GetNameInfo _ _ node nodelen service servicelen _ =>
      zrange node nodelen ++ zrange service servicelen
  end.

(** The arguments in the description [c], and its result fields. *)
Definition req_arguments (c : Z) (rq : request) : heapProp :=
  match rq with
  | GetAddrInfo node service hints res =>
      call_type c ↦ HEV_TASK_DNS_CALL_GETADDRINFO ∗ gai_node c ↦ node ∗
      gai_service c ↦ service ∗ gai_hints c ↦ hints ∗ gai_res c ↦ res
  | GetNameInfo addr addrlen node nodelen service servicelen flags =>
      call_type c ↦ HEV_TASK_DNS_CALL_GETNAMEINFO ∗ gni_addr c ↦ addr ∗
      gni_addrlen c ↦ addrlen ∗ gni_node c ↦ node ∗ gni_nodelen c ↦ nodelen ∗
      gni_service c ↦ service ∗ gni_servicelen c ↦ servicelen ∗ gni_flags c ↦ flags
  end%I.

Definition req_ret (c : Z) (rq : request) : Z :=
  match rq with GetAddrInfo _ _ _ _ => gai_ret c | GetNameInfo _ _ _ _ _ _ _ => gni_ret c end.
Definition req_err (c : Z) (rq : request) : Z :=
  match rq with GetAddrInfo _ _ _ _ => gai_err c | GetNameInfo _ _ _ _ _ _ _ => gni_err c end.

Definition described (c : Z) (rq : request) (ret err : Z) : heapProp :=
  (req_arguments c rq ∗ req_ret c rq ↦ ret ∗ req_err c rq ↦ err ∗ cells (req_outputs rq))%I.

(** The description [c] of the request in progress; [aux] is an auxiliary cell,
    which no program touches: who has it may still use the proxy. *)
Context (aux c : Z) (rq : request).

Definition asked : heapProp := (aux ↦ 0 ∗ dns_call p ↦ c ∗ ∃ err, described c rq (-1) err)%I.

Definition answered : heapProp :=
  (aux ↦ 0 ∗ dns_call p ↦ c ∗ described c rq (req_result rq).1 (req_result rq).2)%I.

Definition ending : heapProp :=
  (aux ↦ 0 ∗ dns_call p ↦ NULL ∗ dns_sched_task p ↦ dummy_task)%I.

(** The aide thread's part of the proxy. *)
Definition server_part : heapProp :=
  (work_fd (dns_work p) ↦ sfd ∗ work_handler (dns_work p) ↦ FN_dns_server_handler ∗
   work_data (dns_work p) ↦ p)%I.

Definition ended : heapProp :=
  (dns_call p ↦ NULL ∗ dns_sched_task p ↦ dummy_task ∗ server_part)%I.

(** The aide's reactor, which nobody changes. *)
Context (reactor rfd : Z).

Definition aide_shared : heapProp := (aide_reactor a ↦ reactor ∗ reactor_fd reactor ↦ rfd)%I.

Definition in_flight (w : wire) : heapProp :=
  match to_server w, to_client w with
  | [], [] => emp
  | [b], [] => ⌞b = CHAR_s⌟ ∗ asked ∨ ⌞b = CHAR_d⌟ ∗ ending
  | [], [b] => ⌞b = CHAR_s⌟ ∗ answered ∨ ⌞b = CHAR_d⌟ ∗ ended
  | _, _ => False
  end%I.

Definition wire_inv (w : wire) : heapProp := (aide_shared ∗ in_flight w)%I.

(** ** One call on the socket pair *)

Abbreviation ttwp := (twp dns_valid dns_step wire_inv).
Abbreviation ttext := (text_wp dns_valid dns_step wire_inv).

(** The byte [b] written to [fd] takes [P] along and leaves [Q]. *)
Definition gives (fd b : Z) (P Q : heapProp) : Prop := forall w x,
  a_ret x = 1 -> P ∗ wire_inv w ⊢ wire_inv (dns_step w (Query "write" [fd; b; 1] 0) x) ∗ Q.

Lemma ttext_write fd b P Q Φ :
  fd = cfd \/ fd = sfd -> gives fd b P Q ->
  P ∗ (∀ x, (⌞again x⌟ ∗ P ∨ ⌞a_ret x = 1⌟ ∗ Q) -∗ Φ x) ⊢ ttext (Query "write" [fd; b; 1] 0) Φ.
Proof.
  intros Hfd HG. iIntros "[HP HΦ]". iApply text_wp_query. iIntros (w x Hv) "Hw".
  destruct (Hv Hfd) as [Ha|Hr].
  - assert (dns_step w (Query "write" [fd; b; 1] 0) x = w) as ->.
    { cbn. destruct Ha as [Ha _]. by rw (proj2 (Z.ltb_ge 0 (a_ret x))); [|lia]. }
    iFrame "Hw". iApply "HΦ". iLeft. by iFrame.
  - iDestruct (HG w x Hr with "[$HP $Hw]") as "[$ HQ]". iApply "HΦ". iRight. by iFrame.
Qed.

Definition queue (fd : Z) (w : wire) : list Z := if fd =? cfd then to_client w else to_server w.

(** The byte read from [fd] brings [Q], in exchange for [P]. *)
Definition takes (fd : Z) (P : heapProp) (Q : Z -> heapProp) : Prop := forall w x b,
  head (queue fd w) = Some b -> a_ret x = 1 ->
  P ∗ wire_inv w ⊢ wire_inv (dns_step w (Query "read" [fd; LOCAL; 1] 1) x) ∗ Q b.

Lemma ttext_read fd P Q Φ :
  fd = cfd \/ fd = sfd -> takes fd P Q ->
  P ∗ (∀ x, (⌞again x⌟ ∗ P ∨ ∃ b, ⌞a_ret x = 1 /\ a_data x = [b]⌟ ∗ Q b) -∗ Φ x)
  ⊢ ttext (Query "read" [fd; LOCAL; 1] 1) Φ.
Proof.
  intros Hfd HT. iIntros "[HP HΦ]". iApply text_wp_query. iIntros (w x [Hvc Hvs]) "Hw".
  assert (read_ok (queue fd w) x) as Hv.
  { unfold queue. destruct (Z.eqb_spec fd cfd) as [|Hn]; [by apply Hvc|]. apply Hvs. by destruct Hfd. }
  destruct Hv as [Ha|(b & Hb & Hr & Hd)].
  - assert (dns_step w (Query "read" [fd; LOCAL; 1] 1) x = w) as ->.
    { cbn. destruct Ha as [Ha _]. replace (Z.to_nat (a_ret x)) with 0%nat by lia. destruct w.
      by repeat case_match. }
    iFrame "Hw". iApply "HΦ". iLeft. by iFrame.
  - iDestruct (HT w x b Hb Hr with "[$HP $Hw]") as "[$ HQ]". iApply "HΦ". iRight. iExists b. by iFrame.
Qed.

(** Who owns [dns_call] knows that nothing is in flight. *)
Lemma idle_wire v w : dns_call p ↦ v ∗ in_flight w ⊢ ⌜w = Wire [] []⌝.
Proof.
  iIntros "[Hc H]". destruct w as [[|b [|b2 l]] [|d [|d2 l']]]; cbn; try done;
    iDestruct "H" as "[[_ H]|[_ H]]"; unfold asked, answered, ending, ended;
    first [iDestruct "H" as "(_ & H & _)"; by iDestruct (points_to_ne with "Hc H") as %[]
          |iDestruct "H" as "(H & _)"; by iDestruct (points_to_ne with "Hc H") as %[]].
Qed.

(** Who owns the auxiliary cell knows that the aide thread has nothing to read. *)
Lemma quiet_wire v w : aux ↦ v ∗ in_flight w ⊢ ⌜to_server w = []⌝.
Proof.
  iIntros "[Hc H]". destruct w as [[|b [|b2 l]] [|d [|d2 l']]]; cbn; try done.
  iDestruct "H" as "[[_ (H & _)]|[_ (H & _)]]"; by iDestruct (points_to_ne with "Hc H") as %[].
Qed.

(** ** The transfers *)

Context (Hends : cfd <> sfd).

Ltac wire_cases w := destruct w as [[|? [|? ?]] [|? [|? ?]]]; cbn; try done.

Lemma gives_idle fd b P Q (w' : wire) :
  (fd = cfd /\ w' = Wire [b] [] \/ fd = sfd /\ w' = Wire [] [b]) ->
  (P ⊢ ∃ v, dns_call p ↦ v ∗ (dns_call p ↦ v -∗ in_flight w' ∗ Q)) -> gives fd b P Q.
Proof.
  intros Hfd HP w x Hr. rw HP. iIntros "[(%v & Hc & HK) [Hs Hf]]".
  iDestruct (idle_wire with "[$Hc $Hf]") as %->. cbn. rw Hr /=.
  destruct Hfd as [[-> ->]|[-> ->]].
  - rw Z.eqb_refl. iFrame "Hs". by iDestruct ("HK" with "Hc") as "[$ $]".
  - rw (proj2 (Z.eqb_neq sfd cfd)); [|done]. rw Z.eqb_refl. iFrame "Hs".
    by iDestruct ("HK" with "Hc") as "[$ $]".
Qed.

(** A request, its reply, the last request and its echo. *)
Lemma gives_request R : gives cfd CHAR_s (R ∗ asked)%I R.
Proof.
  apply (gives_idle _ _ _ _ (Wire [CHAR_s] [])); [by left|].
  iIntros "(HR & Ha & Hc & He)". iExists c. iFrame "Hc". iIntros "Hc". iFrame "HR". cbn. iLeft. by iFrame.
Qed.

Lemma gives_reply R : gives sfd CHAR_s (R ∗ answered)%I R.
Proof.
  apply (gives_idle _ _ _ _ (Wire [] [CHAR_s])); [by right|].
  iIntros "(HR & Ha & Hc & He)". iExists c. iFrame "Hc". iIntros "Hc". iFrame "HR". cbn. iLeft. by iFrame.
Qed.

Lemma gives_end R : gives cfd CHAR_d (R ∗ ending)%I R.
Proof.
  apply (gives_idle _ _ _ _ (Wire [CHAR_d] [])); [by left|].
  iIntros "(HR & Ha & Hc & Ht)". iExists NULL. iFrame "Hc". iIntros "Hc". iFrame "HR". cbn. iRight. by iFrame.
Qed.

Lemma gives_echo : gives sfd CHAR_d (server_part ∗ ending)%I (aux ↦ 0)%I.
Proof.
  apply (gives_idle _ _ _ _ (Wire [] [CHAR_d])); [by right|].
  iIntros "(HR & Ha & Hc & Ht)". iExists NULL. iFrame "Hc". iIntros "Hc". iFrame "Ha". cbn. iRight. by iFrame.
Qed.

(** The aide thread reads a request or the end, a task the reply to what it sent. *)
Definition received (b : Z) : heapProp := (⌞b = CHAR_s⌟ ∗ asked ∨ ⌞b = CHAR_d⌟ ∗ ending)%I.

Lemma takes_request R : takes sfd R (fun b => R ∗ received b)%I.
Proof.
  intros w x b Hb Hr. unfold queue in Hb. cbn.
  rw (proj2 (Z.eqb_neq sfd cfd)) in Hb; [|done]. rw (proj2 (Z.eqb_neq sfd cfd)); [|done].
  rw Z.eqb_refl Hr. change (Z.to_nat 1) with 1%nat. iIntros "($ & $ & H)".
  wire_cases w. injection Hb as ->. iSplitR; [done|iExact "H"].
Qed.

Lemma takes_reply t R :
  takes cfd (dns_sched_task p ↦ t ∗ R)%I (fun b => dns_sched_task p ↦ t ∗ R ∗ answered)%I.
Proof.
  intros w x b Hb Hr. unfold queue in Hb. cbn. rw Z.eqb_refl in Hb. rw Z.eqb_refl Hr.
  change (Z.to_nat 1) with 1%nat. iIntros "((Ht & $) & $ & H)". wire_cases w.
  iDestruct "H" as "[[_ H]|[_ (Hc & Ht2 & Hp)]]"; [by iFrame|].
  by iDestruct (points_to_ne with "Ht Ht2") as %[].
Qed.

Lemma takes_echo r R :
  takes cfd (req_ret c rq ↦ r ∗ R)%I (fun b => ⌞b = CHAR_d⌟ ∗ req_ret c rq ↦ r ∗ R ∗ ended)%I.
Proof.
  intros w x b Hb Hr. unfold queue in Hb. cbn. rw Z.eqb_refl in Hb. rw Z.eqb_refl Hr.
  change (Z.to_nat 1) with 1%nat. iIntros "((Ht & $) & $ & H)". wire_cases w. injection Hb as ->.
  iDestruct "H" as "[[_ (Ha & Hc & Hg & Ht2 & Hp)]|[-> H]]"; [|by iFrame].
  by iDestruct (points_to_ne with "Ht Ht2") as %[].
Qed.
End world.
