(* ===== verification/DnsServer.v ===== *)
(** * DnsServer: the aide thread serving a proxy

    The thread owns its part of the proxy until it has echoed the end, and the
    call description between reading a request and writing its reply. *)

From S2P Require Import Prelude.
From S2P Require Import Sep.
From S2P Require Import Env.
From S2P Require Import EnvLogic.
From S2P Require Import Trace.
From S2P Require Import Threads.
From S2P Require Import Reactor.
From S2P Require Import IO.
From S2P Require Import Aide.
From S2P Require Import Dns.
From S2P Require Import DnsProofs.

(** ** The resolver, whatever is shared *)

Section resolve.
Context (cfd sfd p a : Z) (resolve : resolver) (J : wire -> heapProp).

Abbreviation jtwp := (twp (dns_valid cfd sfd p a resolve) (dns_step cfd sfd) J).
Abbreviation jtext := (text_wp (dns_valid cfd sfd p a resolve) (dns_step cfd sfd) J).

Lemma wp_resolver f args outs Φ :
  f = "getaddrinfo" \/ f = "getnameinfo" ->
  cells outs ∗ (∀ x, ⌜(a_ret x, a_errno x) = resolve f args⌝ → cells outs -∗ Φ x)
  ⊢ jtext (Sys f args outs) Φ.
Proof.
  intros Hf. iIntros "[Ho HΦ]" (w) "Hw". iApply ext_wp_sys. iFrame "Ho". iIntros (x Hl) "H1 H2 %Hv".
  cbn [dns_step]. iFrame "Hw". iApply "HΦ".
  - iPureIntro. by destruct Hf as [-> | ->].
  - iApply cells_join. iFrame "H2". by iApply cells_with_cells.
Qed.

(** Whatever the description says is asked of the resolver. *)
Definition serves (c : Z) (rq : request) (body : co unit) : Prop := forall ret err,
  described c rq ret err ⊢ jtwp body (fun _ =>
    described c rq (req_result resolve rq).1 (req_result resolve rq).2).

Lemma serves_getaddrinfo c node service hints res :
  serves c (GetAddrInfo node service hints res) (hev_task_dns_server_getaddrinfo c).
Proof.
  intros ret err. unfold described, hev_task_dns_server_getaddrinfo.
  cbn [req_arguments req_ret req_err req_outputs].
  iIntros "((Hty & H1 & H2 & H3 & H4) & Hr & He & Ho)". t_run. iApply twp_ext.
  iApply wp_resolver; [by left|]. iFrame "Ho". iIntros (x Hx) "Ho". cbn [req_result]. rw -Hx.
  t_run. iApply twp_ret. iFrame.
Qed.

Lemma serves_getnameinfo c addr addrlen node nodelen service servicelen flags :
  serves c (GetNameInfo addr addrlen node nodelen service servicelen flags)
    (hev_task_dns_server_getnameinfo c).
Proof.
  intros ret err. unfold described, hev_task_dns_server_getnameinfo.
  cbn [req_arguments req_ret req_err req_outputs].
  iIntros "((Hty & H1 & H2 & H3 & H4 & H5 & H6 & H7) & Hr & He & Ho)". t_run. iApply twp_ext.
  iApply wp_resolver; [by right|]. iFrame "Ho". iIntros (x Hx) "Ho". cbn [req_result]. rw -Hx.
  t_run. iApply twp_ret. iFrame.
Qed.

(** A request is answered, the end leaves the proxy as it is. *)
Lemma twp_server_request aux c rq :
  c <> NULL -> asked p aux c rq ⊢ jtwp (server_run p) (fun _ => answered p resolve aux c rq).
Proof.
  intros Hc. iIntros "(Ha & Hp & %err & Hd)". unfold server_run. t_run. rw is_true_nonnull //.
  iApply twp_wand. iSplitL "Hd"; [|iIntros (u) "H"; unfold answered; iFrame "Ha Hp"; iExact "H"].
  destruct rq as [node service hints res|addr addrlen node nodelen service servicelen flags].
  - iDestruct "Hd" as "((Hty & H1) & H2)". t_run. rw Z.eqb_refl.
    iApply serves_getaddrinfo. iFrame.
  - iDestruct "Hd" as "((Hty & H1) & H2)". t_run.
    change (HEV_TASK_DNS_CALL_GETNAMEINFO =? HEV_TASK_DNS_CALL_GETADDRINFO) with false.
    rw Z.eqb_refl.
    iApply serves_getnameinfo. iFrame.
Qed.

Lemma twp_server_end aux : ending p aux ⊢ jtwp (server_run p) (fun _ => ending p aux).
Proof.
  iIntros "(Ha & Hp & Ht)". unfold server_run. t_run. change (is_true NULL) with false.
  iApply twp_ret. iFrame.
Qed.
End resolve.

Section server.
Context (cfd sfd p a : Z) (resolve : resolver) (aux c : Z) (rq : request) (reactor rfd : Z).
Context (Hends : cfd <> sfd).

Abbreviation dtwp :=
  (twp (dns_valid cfd sfd p a resolve) (dns_step cfd sfd)
    (wire_inv sfd p a resolve aux c rq reactor rfd)).
Abbreviation dtext :=
  (text_wp (dns_valid cfd sfd p a resolve) (dns_step cfd sfd)
    (wire_inv sfd p a resolve aux c rq reactor rfd)).

(** ** Writing a byte, from either side *)

Lemma twp_write_sync cell fd b P Q :
  fd = cfd \/ fd = sfd ->
  gives cfd sfd p a resolve aux c rq reactor rfd fd b (cell ↦ fd ∗ P)%I Q ->
  cell ↦ fd ∗ P ⊢ dtwp (write_sync cell b) (fun _ => Q).
Proof.
  intros Hfd HG. unfold write_sync. apply (twp_while _ _ _ _ (fun _ => cell ↦ fd ∗ P)%I). intros _.
  iIntros "[Hc HP]". t_run. iApply twp_ext.
  iApply (ttext_write _ _ _ _ _ _ _ _ _ _ _ _ _ _ _ Hfd HG). iFrame "Hc HP".
  iIntros (x) "[[%Hx [Hc HP]]|[%Hx HQ]]".
  - destruct Hx as [Hx [He|He]]; rw (proj2 (Z.leb_gt 0 (a_ret x))) // He.
    + iApply twp_ret. iFrame.
    + t_run. iApply twp_query_any; [done|]. iIntros (y). iApply twp_ret. iFrame.
  - rw Hx. iApply twp_ret. iExact "HQ".
Qed.

(** ** The handler *)

(** The thread's part of the proxy, until it has echoed the end. *)
Definition serving : heapProp := (server_part sfd p ∨ aux ↦ 0)%I.

Lemma twp_dns_handler revents :
  c <> NULL -> server_part sfd p ⊢ dtwp (hev_task_dns_server_handler revents p) (fun _ => serving).
Proof.
  intros Hc. unfold hev_task_dns_server_handler. cbv zeta.
  apply (twp_while _ _ _ _ (fun _ => server_part sfd p)). intros _.
  iIntros "(Hfd & Hh & Hd)". t_run. unfold read_sync. t_run. iApply twp_ext.
  iApply (ttext_read _ _ _ _ _ _ _ _ _ _ sfd (server_part sfd p)
            (fun b => server_part sfd p ∗ received p aux c rq b)%I);
    [by right|intros w x b; by apply takes_request|].
  iSplitL; [iFrame|]. iIntros (x) "[[%Hx Hsp]|(%b & %Hx & Hsp & Hb)]".
  { destruct Hx as [Hx [He|He]]; cbn [twp co_bind]; rw (proj2 (Z.ltb_lt (a_ret x) 0)) // He.
    - iExact "Hsp".
    - by iLeft. }
  destruct Hx as [Hr Hda]. t_norm. rw Hr Hda. cbn [Z.ltb Z.compare Z.eqb head default].
  iDestruct "Hb" as "[[-> Hb]|[-> Hb]]".
  - iApply twp_call. iSplitL "Hb"; [by iApply twp_server_request|]. iIntros (_) "Hb".
    iDestruct "Hsp" as "(Hfd & Hh & Hd)". iApply twp_call. iSplitL "Hfd Hb".
    + iApply (twp_write_sync _ sfd CHAR_s (answered p resolve aux c rq) (work_fd (dns_work p) ↦ sfd)%I);
        [by right|by apply gives_reply|iFrame].
    + iIntros (_) "Hfd". iApply twp_ret. iFrame.
  - iApply twp_call. iSplitL "Hb"; [by iApply twp_server_end|]. iIntros (_) "Hb".
    iApply twp_call. iSplitL "Hsp Hb".
    + iDestruct "Hsp" as "(Hfd & Hh & Hd)".
      iApply (twp_write_sync _ sfd CHAR_d (work_handler (dns_work p) ↦ FN_dns_server_handler ∗
        work_data (dns_work p) ↦ p ∗ ending p aux)%I (aux ↦ 0)%I); [by right| |iFrame].
      intros w y Hy. iIntros "[(H1 & H2 & H3 & H4) Hw]".
      iApply (gives_echo cfd sfd p a resolve aux c rq reactor rfd Hends w y Hy). iFrame.
    + iIntros (_) "Ha". iApply twp_ret. by iRight.
Qed.

(** ** The thread *)

(** The works of the aide: its own, and the proxy's. *)
Context (kfd : Z) (Hkfd : kfd <> cfd /\ kfd <> sfd) (Hc : c <> NULL).

Definition dns_handlers (f revents data : Z) : co unit :=
  if f =? FN_dns_server_handler then hev_task_dns_server_handler revents data else Ret tt.

Definition ctrl_part : heapProp :=
  (work_fd (aide_ctrl_work a) ↦ kfd ∗ work_handler (aide_ctrl_work a) ↦ FN_aide_quit_handler ∗
   work_data (aide_ctrl_work a) ↦ a ∗ ∃ q, aide_quit a ↦ q)%I.

Lemma neutral_ctrl_read n : neutral (dns_step cfd sfd) (Query "read" [kfd; LOCAL; 64] n).
Proof.
  intros w x. destruct Hkfd as [H1 H2]. cbn. by rw (proj2 (Z.eqb_neq kfd cfd)) // (proj2 (Z.eqb_neq kfd sfd)).
Qed.

Lemma twp_quit_handler revents :
  ctrl_part ⊢ dtwp (hev_task_aide_quit_handler revents a) (fun _ => ctrl_part).
Proof.
  unfold hev_task_aide_quit_handler. cbv zeta. apply (twp_while _ _ _ _ (fun _ => ctrl_part)). intros _.
  iIntros "(Hf & Hh & Hd & %q & Hq)". t_run.
  iApply twp_query_any; [apply neutral_ctrl_read|]. iIntros (x).
  destruct (a_ret x <? 0); [destruct (a_errno x =? EINTR); iApply twp_ret; iFrame|].
  destruct (a_ret x =? 0); [iApply twp_ret; iFrame|]. t_run. iApply twp_ret. iFrame.
Qed.

(** The thread's part while the events [evs] are to be handled. *)
Definition serving_for (evs : list Z) : heapProp :=
  (server_part sfd p ∨ aux ↦ 0 ∗ ⌞dns_work p ∉ evs⌟)%I.

Lemma serving_for_serving evs : serving_for evs ⊢ serving.
Proof. iIntros "[H|[H _]]"; [by iLeft|by iRight]. Qed.

Lemma twp_run_work ev evs :
  NoDup (we_data ev :: evs) -> we_data ev = dns_work p \/ we_data ev = aide_ctrl_work a ->
  ctrl_part ∗ serving_for (we_data ev :: evs)
  ⊢ dtwp (run_work dns_handlers ev) (fun _ => ctrl_part ∗ serving_for evs).
Proof.
  intros [Hni _]%NoDup_cons Hev. unfold run_work, hev_task_io_reactor_wait_event_get_data. cbv zeta.
  destruct Hev as [Hd|Hd]; rw Hd in Hni |- *.
  - iIntros "[Hk [(Hf & Hh & Hd)|[Ha %Hn]]]"; [|by rw not_elem_of_cons in Hn; destruct Hn].
    t_run. iApply twp_wand. iSplitR "Hk"; [iApply (twp_dns_handler _ Hc); iFrame|].
    iIntros (u) "[H|H]"; iFrame "Hk"; [by iLeft|]. iRight. by iFrame.
  - iIntros "[(Hf & Hh & Hd & Hq) Hs]". t_run. iApply twp_wand.
    iSplitR "Hs"; [iApply twp_quit_handler; iFrame|]. iIntros (u) "$". iDestruct "Hs" as "[H|[H %Hn]]".
    + by iLeft.
    + iRight. iFrame. iPureIntro. by rw not_elem_of_cons in Hn; destruct Hn.
Qed.

Lemma twp_run_works evs :
  NoDup (we_data <$> evs) ->
  (forall d, d ∈ we_data <$> evs -> d = dns_work p \/ d = aide_ctrl_work a) ->
  ctrl_part ∗ serving_for (we_data <$> evs)
  ⊢ dtwp (co_for evs (run_work dns_handlers)) (fun _ => ctrl_part ∗ serving).
Proof.
  induction evs as [|ev evs IH]; intros Hnd Hin; cbn [co_for fmap list_fmap].
  - iIntros "[Hk Hs]". iApply twp_ret. iFrame "Hk". by iApply serving_for_serving.
  - iIntros "H". iApply twp_call. iSplitL.
    + iApply (twp_run_work _ _ Hnd with "H"). apply Hin. by left.
    + iIntros (u) "H". iApply (IH with "H").
      * by apply NoDup_cons in Hnd as [_ Hnd].
      * intros d Hd. apply Hin. by right.
Qed.

(** What [epoll_wait] reports agrees with what the thread still has. *)
Lemma text_epoll_wait n timeout Φ :
  serving ∗ (∀ x, (∃ w, ⌞events_ok p a w x⌟ ∗
      serving_for (we_data <$> take (Z.to_nat (a_ret x)) (wait_events (a_data x)))) -∗ Φ x)
  ⊢ dtext (Query "epoll_wait" [rfd; n; timeout] (Z.to_nat (2 * n))) Φ.
Proof.
  iIntros "[Hs HΦ]". iApply text_wp_query. iIntros (w x Hv) "[Hsh Hf]". cbn in Hv.
  pose proof Hv as (Hnd & Hin & Hne). iAssert (in_flight sfd p resolve aux c rq w ∗
    serving_for (we_data <$> take (Z.to_nat (a_ret x)) (wait_events (a_data x))))%I
    with "[Hs Hf]" as "[Hf Hs]".
  { iDestruct "Hs" as "[Hs|Ha]"; [iFrame "Hf"; by iLeft|].
    iDestruct (quiet_wire with "[$Ha $Hf]") as %Hw. iFrame "Hf". iRight. iFrame. iPureIntro.
    intros Hd. by apply Hne. }
  cbn. iFrame "Hsh Hf". iApply "HΦ". iExists w. by iFrame.
Qed.

Lemma wire_inv_shared w :
  wire_inv sfd p a resolve aux c rq reactor rfd w
  ⊢ aide_shared a reactor rfd ∗
    (aide_shared a reactor rfd -∗ wire_inv sfd p a resolve aux c rq reactor rfd w).
Proof. iIntros "[$ H] $". iExact "H". Qed.

Lemma twp_load_reactor {A} (k : Z -> co A) Q :
  dtwp (k reactor) Q ⊢ dtwp (Act (load (aide_reactor a)) k) Q.
Proof.
  apply twp_load_shared. intros w. iIntros "Hw".
  iDestruct (wire_inv_shared with "Hw") as "[[$ Hr] H]". iIntros "Hc". iApply "H". iFrame.
Qed.

Lemma twp_load_rfd {A} (k : Z -> co A) Q :
  dtwp (k rfd) Q ⊢ dtwp (Act (load (reactor_fd reactor)) k) Q.
Proof.
  apply twp_load_shared. intros w. iIntros "Hw".
  iDestruct (wire_inv_shared with "Hw") as "[[Hr $] H]". iIntros "Hc". iApply "H". iFrame.
Qed.

Lemma twp_aide_entry :
  ctrl_part ∗ server_part sfd p ⊢ dtwp (hev_task_aide_entry dns_handlers a) (fun _ => True).
Proof.
  iIntros "[Hk Hs]". iAssert (ctrl_part ∗ serving)%I with "[Hk Hs]" as "H"; [iFrame "Hk"; by iLeft|].
  iStopProof. unfold hev_task_aide_entry. cbv zeta.
  apply (twp_while _ _ _ _ (fun _ => ctrl_part ∗ serving)%I). intros _.
  iIntros "[(Hf & Hh & Hd & %q & Hq) Hs]". t_run. destruct (is_true q); [by iApply twp_ret|].
  iApply twp_load_reactor. unfold hev_task_io_reactor_wait. t_norm. iApply twp_load_rfd. t_norm.
  iApply twp_ext. iApply text_epoll_wait. iFrame "Hs". iIntros (x) "(%w & %Hv & Hs)".
  t_norm. cbn [fst snd]. destruct Hv as (Hnd & Hin & _). iApply twp_call. iSplitL.
  - iApply (twp_run_works _ Hnd Hin). iFrame.
  - iIntros (u) "H". by iApply twp_ret.
Qed.
End server.
