(* ===== verification/DnsProps.v ===== *)
(** * DnsProps: a task that asks a proxy and destroys it, and the aide thread
    together *)

From S2P Require Import Prelude.
From S2P Require Import Sep.
From S2P Require Import Env.
From S2P Require Import EnvLogic.
From S2P Require Import Trace.
From S2P Require Import Threads.
From S2P Require Import Mem.
From S2P Require Import Alloc.
From S2P Require Import TaskBase.
From S2P Require Import QueueSpec.
From S2P Require Import QueueProofs.
From S2P Require Import Reactor.
From S2P Require Import Task.
From S2P Require Import QueueProps.
From S2P Require Import Quiet.
From S2P Require Import Kernel.
From S2P Require Import Mutex.
From S2P Require Import IO.
From S2P Require Import Aide.
From S2P Require Import Dns.
From S2P Require Import DnsProofs.
From S2P Require Import DnsServer.

Section client.
Context `{HA : !Allocator} `{HK : !Kernel}.
Context (cfd sfd p a : Z) (resolve : resolver) (aux c : Z) (rq : request) (reactor rfd : Z).
Context (Hends : cfd <> sfd).

Abbreviation dtwp :=
  (twp (dns_valid cfd sfd p a resolve) (dns_step cfd sfd)
    (wire_inv sfd p a resolve aux c rq reactor rfd)).

Implicit Types (k : k_state).

Lemma twp_quiet {A} (f : co A) Q : calls_only quiet f -> cwp yield_id f Q ⊢ dtwp f Q.
Proof.
  intros Hf. apply twp_of_cwp. apply (calls_mono quiet); [|done]. intros e He. by apply quiet_neutral.
Qed.

Lemma twp_yield k type Q : k_inv k ∗ (k_inv k -∗ Q tt) ⊢ dtwp (hev_task_yield type) Q.
Proof. rw -twp_quiet; [|apply quiet_yield]. apply (k_yield yield_id). Qed.

Lemma twp_sys f args Q : stream_call f = false -> (∀ r, Q r) ⊢ dtwp (sys f args) Q.
Proof.
  intros Hf. rw -twp_quiet; [|by apply quiet_sys]. unfold sys, call. cbn [co_bind cwp].
  iIntros "H". iApply ext_wp_query. iIntros (x _). iApply "H".
Qed.

Lemma twp_sys_unit f args Q :
  stream_call f = false -> Q tt ⊢ dtwp (sys f args ~;; Ret tt) Q.
Proof.
  intros Hf. iIntros "H". iApply twp_bind. iApply twp_sys; [done|]. iIntros (r). by iApply twp_ret.
Qed.

(** ** A call *)

Lemma twp_sync_loop k (f : co answer) (I Q : heapProp) :
  (I ⊢ dtwp f (fun x => ⌞again x⌟ ∗ I ∨ ⌞a_ret x = 1⌟ ∗ Q)%I) ->
  k_inv k ∗ I ⊢ dtwp (sync_loop f) (fun _ => k_inv k ∗ Q).
Proof.
  intros Hf. unfold sync_loop. apply (twp_while _ _ _ _ (fun _ => k_inv k ∗ I)%I). intros _.
  iIntros "[Hk HI]". iApply twp_call. iSplitL "HI"; [by iApply Hf|].
  iIntros (x) "[[%Hx HI]|[%Hx HQ]]".
  - destruct Hx as [Hx He]. rw (proj2 (Z.leb_gt 0 (a_ret x))) //.
    destruct (Z.eqb_spec (a_errno x) EINTR); [iApply twp_ret; iFrame|].
    assert (a_errno x = EAGAIN) as -> by tauto. rw Z.eqb_refl. cbn [negb].
    iApply twp_call. iSplitL "Hk"; [iApply (twp_yield k _ (fun _ => k_inv k)); iFrame; iIntros "$"|].
    iIntros (u) "Hk". iApply twp_ret. iFrame.
  - rw Hx. iApply twp_ret. iFrame.
Qed.

Definition the_result : Z * Z := req_result resolve rq.

Lemma twp_proxy_call k v t mnode ret err :
  ret = -1 ->
  k_inv k ∗ dns_fd p ↦ cfd ∗ mutex_locker (dns_mutex p) ↦ 0 ∗ mutex_waiters (dns_mutex p) ↦ NULL ∗
  aux ↦ 0 ∗ dns_call p ↦ v ∗ dns_sched_task p ↦ t ∗ described c rq ret err
  ⊢ dtwp (hev_task_dns_proxy_call p c mnode) (fun _ =>
      k_inv k ∗ dns_fd p ↦ cfd ∗ mutex_locker (dns_mutex p) ↦ 0 ∗ mutex_waiters (dns_mutex p) ↦ NULL ∗
      aux ↦ 0 ∗ dns_call p ↦ c ∗ dns_sched_task p ↦ dummy_task ∗
      described c rq the_result.1 the_result.2).
Proof.
  intros ->. iIntros "(Hk & Hfd & Hl & Hw & Ha & Hc & Ht & Hd)".
  unfold hev_task_dns_proxy_call, hev_task_mutex_lock. t_run. change (is_true 0) with false. t_run.
  iApply twp_act. iApply wp_wand. iSplitL "Hk"; [by iApply k_self|]. iIntros (x) "[-> Hk]". t_run.
  set (R := (dns_fd p ↦ cfd)%I).
  iApply twp_call. iSplitL "Hk Hfd Ha Hc Hd".
  { iApply (twp_sync_loop k _ (R ∗ asked p aux c rq)%I R).
    - iIntros "[Hfd HA]". unfold R. t_run. iApply twp_ext.
      iApply (ttext_write _ _ _ _ _ _ _ _ _ _ cfd CHAR_s (R ∗ asked p aux c rq)%I R);
        [by left|by apply gives_request|].
      iFrame "Hfd HA". iIntros (x) "H". iExact "H".
    - iFrame. }
  iIntros (_) "[Hk Hfd]". iApply twp_call. iSplitL "Hk Hfd Ht".
  { iApply (twp_sync_loop k _ (dns_sched_task p ↦ k_current k ∗ R)%I
              (dns_sched_task p ↦ k_current k ∗ R ∗ answered p resolve aux c rq)%I).
    - iIntros "[Ht Hfd]". unfold R. t_run. iApply twp_ext.
      iApply (ttext_read _ _ _ _ _ _ _ _ _ _ cfd _
                (fun b => dns_sched_task p ↦ k_current k ∗ R ∗ answered p resolve aux c rq)%I);
        [by left|by apply takes_reply|].
      iSplitL; [iFrame|]. iIntros (x) "[H|(%b & %Hx & H)]"; [by iLeft|]. iRight.
      iSplitR; [|iExact "H"]. iPureIntro. by destruct Hx.
    - iFrame. }
  iIntros (_) "(Hk & Ht & Hfd & Ha & Hc & Hd)". unfold R. t_run.
  wp_load.
  change (is_true NULL) with false. cbv iota. wp_norm. iApply twp_ret. iFrame.
Qed.

(** ** A request, from the caller's stack *)

(** The fields of the description, before they are set. *)
Definition req_fields (d : Z) (q : request) : list Z :=
  match q with
  | GetAddrInfo _ _ _ _ =>
      [call_type d; gai_node d; gai_service d; gai_hints d; gai_res d; gai_ret d; gai_err d]
  | GetNameInfo _ _ _ _ _ _ _ =>
      [call_type d; gni_addr d; gni_addrlen d; gni_node d; gni_nodelen d; gni_service d;
       gni_servicelen d; gni_flags d; gni_ret d; gni_err d]
  end.

(** The function of the proxy that makes the request. *)
Definition ask (d mnode : Z) (q : request) : co Z :=
  match q with
  | GetAddrInfo node service hints res =>
      hev_task_dns_proxy_getaddrinfo p node service hints res d mnode
  | GetNameInfo addr addrlen node nodelen service servicelen flags =>
      hev_task_dns_proxy_getnameinfo p addr addrlen node nodelen service servicelen flags d mnode
  end.

(** The user's part of an idle proxy. *)
Definition user_part (t v : Z) : heapProp :=
  (dns_fd p ↦ cfd ∗ mutex_locker (dns_mutex p) ↦ 0 ∗ mutex_waiters (dns_mutex p) ↦ NULL ∗
   aux ↦ 0 ∗ dns_call p ↦ v ∗ dns_sched_task p ↦ t)%I.

(** Setting the fields, the call, and reading the result. *)
Lemma twp_ask_set q mnode Q :
  cells (req_fields c q) ∗ cells (req_outputs q) ∗
  ((∃ err, described c q (-1) err) -∗
     dtwp (hev_task_dns_proxy_call p c mnode) (fun _ => ∃ ret err, described c q ret err ∗
       (described c q ret err -∗ Q ret)))
  ⊢ dtwp (ask c mnode q) Q.
Proof.
  iIntros "(Hf & Ho & HK)".
  destruct q as [node service hints res|addr addrlen node nodelen service servicelen flags];
    cbn [ask req_fields].
  - iDestruct "Hf" as "((%v1 & H1) & (%v2 & H2) & (%v3 & H3) & (%v4 & H4) & (%v5 & H5) & (%v6 & H6) & (%v7 & H7) & _)".
    unfold hev_task_dns_proxy_getaddrinfo. t_run. iApply twp_call. iSplitL.
    { iApply "HK". iExists v7. unfold described. cbn [req_arguments req_ret req_err]. iFrame. }
    iIntros (_) "(%ret & %err & (Hg & Hr & He & Ho) & HK)". cbn [req_ret req_err]. t_run.
    iApply twp_bind. iApply twp_sys_unit; [done|]. t_run. iApply twp_ret. iApply "HK". iFrame.
  - iDestruct "Hf" as "((%v1 & H1) & (%v2 & H2) & (%v3 & H3) & (%v4 & H4) & (%v5 & H5) & (%v6 & H6) & (%v7 & H7) & (%v8 & H8) & (%v9 & H9) & (%v10 & H10) & _)".
    unfold hev_task_dns_proxy_getnameinfo. t_run. iApply twp_call. iSplitL.
    { iApply "HK". iExists v10. unfold described. cbn [req_arguments req_ret req_err]. iFrame. }
    iIntros (_) "(%ret & %err & (Hg & Hr & He & Ho) & HK)". cbn [req_ret req_err]. t_run.
    iApply twp_bind. iApply twp_sys_unit; [done|]. t_run. iApply twp_ret. iApply "HK". iFrame.
Qed.

Lemma twp_ask k t v mnode :
  k_inv k ∗ user_part t v ∗ cells (req_fields c rq) ∗ cells (req_outputs rq)
  ⊢ dtwp (ask c mnode rq) (fun r => ⌞r = the_result.1⌟ ∗
      k_inv k ∗ user_part dummy_task c ∗ described c rq the_result.1 the_result.2).
Proof.
  iIntros "(Hk & Hu & Hf & Ho)". iApply twp_ask_set. iFrame "Hf Ho". iIntros "[%err Hd]".
  iApply twp_wand. iSplitL.
  { iApply (twp_proxy_call k v t mnode (-1) err eq_refl). iDestruct "Hu" as "($ & $ & $ & $ & $ & $)". iFrame. }
  iIntros (_) "(Hk & H1 & H2 & H3 & H4 & H5 & H6 & Hd)". iExists _, _. iFrame "Hd".
  iIntros "Hd". iSplitR; [done|]. iFrame.
Qed.

(** ** The end *)

Lemma twp_drain_read r :
  dns_fd p ↦ cfd ∗ req_ret c rq ↦ r ⊢ dtwp (drain_read p) (fun _ =>
    dns_fd p ↦ cfd ∗ req_ret c rq ↦ r ∗ ended sfd p).
Proof.
  unfold drain_read. apply (twp_while _ _ _ _ (fun _ => dns_fd p ↦ cfd ∗ req_ret c rq ↦ r)%I).
  intros sync. iIntros "[Hf Hr]". t_run. unfold read_sync. t_run. iApply twp_ext.
  iApply (ttext_read _ _ _ _ _ _ _ _ _ _ cfd _ (fun b => ⌞b = CHAR_d⌟ ∗ req_ret c rq ↦ r ∗ dns_fd p ↦ cfd ∗ ended sfd p)%I);
    [by left|by apply takes_echo|].
  iSplitL; [iFrame|]. iIntros (x) "[[%Hx [Hr Hf]]|(%b & %Hx & -> & Hr & Hf & He)]".
  - destruct Hx as [Hx He]. t_norm. rw (proj2 (Z.eqb_neq (a_ret x) 1)); [|lia].
    rw (proj2 (Z.eqb_neq (a_ret x) 0)); [|lia]. rw (proj2 (Z.ltb_lt (a_ret x) 0)) //. cbn [andb].
    destruct (Z.eqb_spec (a_errno x) EINTR); [iApply twp_ret; iFrame|].
    assert (a_errno x = EAGAIN) as -> by tauto. rw Z.eqb_refl. cbn [negb]. t_run.
    iApply twp_query_any; [done|]. iIntros (y). iApply twp_ret. iFrame.
  - destruct Hx as [Hr Hd]. t_norm. rw Hr Hd. cbn [head default]. iApply twp_ret. iFrame.
Qed.

Lemma twp_drain v r :
  dns_fd p ↦ cfd ∗ aux ↦ 0 ∗ dns_call p ↦ v ∗ dns_sched_task p ↦ dummy_task ∗ req_ret c rq ↦ r
  ⊢ dtwp (hev_task_dns_proxy_drain p) (fun _ =>
    dns_fd p ↦ cfd ∗ req_ret c rq ↦ r ∗ ended sfd p).
Proof.
  iIntros "(Hf & Ha & Hc & Ht & Hr)". unfold hev_task_dns_proxy_drain. t_run. iApply twp_call.
  iSplitL "Hf Ha Hc Ht".
  - iApply (twp_write_sync _ _ _ _ _ _ _ _ _ _ _ cfd CHAR_d (ending p aux) (dns_fd p ↦ cfd)%I);
      [by left|by apply gives_end|iFrame].
  - iIntros (_) "Hf". iApply twp_drain_read. iFrame.
Qed.

(** The fields of [struct _HevTaskDNSProxy]. *)
Definition dns_offs : list Z := [0; 8; 16; 24; 32; 36; 40; 48; 56; 64].

(** What only the end of the proxy uses; the aide has other users. *)
Definition last_part (n st : Z) : heapProp :=
  (dns_aide p ↦ a ∗ (∃ ev, work_events (dns_work p) ↦ ev) ∗ block_rest p dns_offs SIZEOF_DNS_PROXY ∗
   aide_orphan a ↦ 0 ∗ aide_ref_count a ↦ n ∗ aide_static ↦ st)%I.

Lemma proxy_fields l w v t ev :
  dns_fd p ↦ cfd ∗ mutex_locker (dns_mutex p) ↦ l ∗ mutex_waiters (dns_mutex p) ↦ w ∗
  dns_aide p ↦ a ∗ work_events (dns_work p) ↦ ev ∗ dns_call p ↦ v ∗ dns_sched_task p ↦ t ∗
  server_part sfd p ∗ block_rest p dns_offs SIZEOF_DNS_PROXY ⊢ al_block p SIZEOF_DNS_PROXY.
Proof.
  iIntros "(Hf & Hl & Hw & Ha & Hev & Hc & Ht & (Hs & Hh & Hd) & Hb)".
  iApply (block_close p dns_offs); [done|]. iFrame "Hb". unfold field_cells, dns_offs.
  cbn [big_opL]. rw (Z.add_0_r p).
  unfold mutex_locker, mutex_waiters, dns_mutex, work_fd, work_handler, work_data, work_events, dns_work.
  rw -!Z.add_assoc. iSplitL "Hf"; [by iExists _|]. iFrame.
Qed.

Lemma twp_mutex_lock {A} m (k : unit -> co A) Q :
  dtwp (k tt) Q ⊢ dtwp (u <~ hev_sys_mutex_lock m ;; k u) Q.
Proof. rw -twp_bind. by apply (twp_sys_unit _ _ (fun u => dtwp (k u) Q)). Qed.

Lemma twp_mutex_unlock {A} m (k : unit -> co A) Q :
  dtwp (k tt) Q ⊢ dtwp (u <~ hev_sys_mutex_unlock m ;; k u) Q.
Proof. rw -twp_bind. by apply (twp_sys_unit _ _ (fun u => dtwp (k u) Q)). Qed.

Lemma twp_aide_put n st :
  2 <= n < 2 ^ 32 ->
  aide_ref_count a ↦ n ∗ aide_static ↦ st
  ⊢ dtwp (hev_task_aide_put a) (fun _ => aide_ref_count a ↦ (n - 1) ∗ aide_static ↦ st).
Proof.
  intros Hn. iIntros "[Hn Hst]". unfold hev_task_aide_put. iApply (twp_mutex_lock aide_mutex).
  t_run. rw w32_small; [|lia]. rw (proj2 (Z.eqb_neq 0 (n - 1))); [|lia]. cbn [andb when].
  iApply twp_act. wp_norm. iApply (twp_mutex_unlock aide_mutex). iApply twp_ret. iFrame.
Qed.

Lemma twp_setup ev Q :
  (∀ x, Q x) ⊢ dtwp (hev_task_io_reactor_setup reactor [ev] 1) Q.
Proof.
  iIntros "H". unfold hev_task_io_reactor_setup.
  iApply (twp_load_rfd cfd sfd p a resolve aux c rq reactor rfd). t_norm.
  change (Z.to_nat 1) with 1%nat. cbn [take setup_loop]. t_norm.
  iApply twp_query_any; [done|]. iIntros (x). iApply twp_ret. iApply "H".
Qed.

Lemma twp_aide_del :
  aide_orphan a ↦ 0 ∗ work_fd (dns_work p) ↦ sfd
  ⊢ dtwp (hev_task_aide_del a (dns_work p)) (fun _ => aide_orphan a ↦ 0 ∗ work_fd (dns_work p) ↦ sfd).
Proof.
  iIntros "[Ho Hs]". unfold hev_task_aide_del. t_load. change (is_true 0) with false. t_load.
  unfold hev_task_io_reactor_setup_event_fd_gen.
  iApply (twp_load_reactor cfd sfd p a resolve aux c rq reactor rfd).
  iApply twp_setup. iIntros (x). iFrame.
Qed.

Lemma twp_destroy n st v r :
  2 <= n < 2 ^ 32 ->
  al_heap ∗ user_part dummy_task v ∗ req_ret c rq ↦ r ∗ last_part n st
  ⊢ dtwp (hev_task_dns_proxy_destroy p) (fun _ =>
      al_heap ∗ req_ret c rq ↦ r ∗ aide_orphan a ↦ 0 ∗ aide_ref_count a ↦ (n - 1) ∗ aide_static ↦ st).
Proof.
  intros Hn. iIntros "(Hh & (Hf & Hl & Hw & Hx & Hc & Ht) & Hr & (Ha & [%ev Hev] & Hb & Ho & Hn & Hst))".
  unfold hev_task_dns_proxy_destroy, hev_task_aide_is_orphan. t_load. t_load. change (is_true 0) with false. t_norm.
  iApply twp_call. iSplitL "Hf Hx Hc Ht Hr"; [iApply (twp_drain v r); iFrame|].
  iIntros (_) "(Hf & Hr & Hc & Ht & (Hs & Hwh & Hwd))". t_load.
  iApply twp_call. iSplitL "Ho Hs"; [iApply twp_aide_del; iFrame|].
  iIntros (x) "[Ho Hs]". iApply twp_call. iSplitL "Hn Hst"; [iApply (twp_aide_put n st Hn); iFrame|].
  iIntros (_) "[Hn Hst]". t_run. iApply twp_query_any; [done|]. iIntros (y). t_run.
  iApply twp_query_any; [done|]. iIntros (y2). t_norm.
  iApply twp_wand. iSplitL "Hh Hf Hl Hw Ha Hev Hb Hc Ht Hs Hwh Hwd".
  { iApply twp_quiet; [apply quiet_hev_free|]. iApply (wp_hev_free _ p SIZEOF_DNS_PROXY). iFrame "Hh".
    iApply proxy_fields. iFrame. }
  iIntros (u) "$". iFrame.
Qed.

(** ** A session: a request, then the end of the proxy *)

Definition session (mnode : Z) : co Z :=
  r <~ ask c mnode rq ;;
  hev_task_dns_proxy_destroy p ~;;
  Ret r.

Lemma twp_session k t v n st mnode :
  2 <= n < 2 ^ 32 ->
  k_inv k ∗ al_heap ∗ user_part t v ∗ last_part n st ∗ cells (req_fields c rq) ∗ cells (req_outputs rq)
  ⊢ dtwp (session mnode) (fun r => ⌞r = the_result.1⌟ ∗ k_inv k ∗ al_heap ∗
      described c rq the_result.1 the_result.2 ∗
      aide_orphan a ↦ 0 ∗ aide_ref_count a ↦ (n - 1) ∗ aide_static ↦ st).
Proof.
  intros Hn. iIntros "(Hk & Hh & Hu & Hl & Hf & Ho)". unfold session. iApply twp_call.
  iSplitL "Hk Hu Hf Ho"; [iApply twp_ask; iFrame|]. iIntros (r) "(-> & Hk & Hu & (Hg & Hr & He & Ho))".
  iApply twp_call. iSplitL "Hh Hu Hr Hl"; [iApply (twp_destroy n st _ _ Hn); iFrame|].
  iIntros (u) "(Hh & Hr & H1 & H2 & H3)". iApply twp_ret. iSplitR; [done|]. iFrame.
Qed.
End client.

(** C7. While others use the aide too (it has [n], two or more, references, so
    that ending the proxy does not end the aide): a task that makes a request ([getaddrinfo] or [getnameinfo]) through
    the proxy and then destroys the proxy, beside the aide thread, which serves
    it: in every interleaving of their steps, and whatever the socket pair,
    [epoll_wait] and the resolver answer within their documented behaviour,
    neither thread touches memory that is not there (the aide thread is out of
    the proxy when the task frees it), and the task gets the result the
    resolver gave for its arguments.  The destruction of the last proxy of an
    aide, which also asks the aide thread to quit, joins it and frees the aide,
    is not part of the claim. *)
Theorem dns_session_safe `{HA : !Allocator} `{HK : !Kernel} (k : k_state) cfd sfd kfd p a resolve aux c rq
    reactor rfd t v n st mnode :
  cfd <> sfd -> kfd <> cfd /\ kfd <> sfd -> c <> NULL -> 2 <= n < 2 ^ 32 ->
  k_inv k ∗ al_heap ∗ user_part cfd p aux t v ∗ last_part p a n st ∗
    cells (req_fields c rq) ∗ cells (req_outputs rq) ∗
    ctrl_part a kfd ∗ server_part sfd p ∗ aide_shared a reactor rfd
  ⊢ run_ok (dns_valid cfd sfd p a resolve) (dns_step cfd sfd)
      [session p c rq mnode; hev_task_aide_entry dns_handlers a]
      [fun r => r = (req_result resolve rq).1; fun _ => True%type] (Wire [] []).
Proof.
  intros Hends Hkfd Hc Hn.
  iIntros "(Hk & Hh & Hu & Hl & Hf & Ho & Hctl & Hs & Hsh)".
  iApply (threads_sound _ _ (wire_inv sfd p a resolve aux c rq reactor rfd) _
    [fun r => (⌞r = (req_result resolve rq).1⌟ ∗ True)%I; fun _ => True%I]); [done| |].
  - intros [|[|i]] Q post [= <-] [= <-] r; [|by iIntros "_"]. iIntros "[%Hr _]". done.
  - unfold all_threads. iSplitL "Hsh"; [by iFrame|]. cbn [big_sepL2]. iSplitR "Hctl Hs"; [|iSplitL; [|done]].
    + iApply twp_wand. iSplitL; [iApply (twp_session cfd sfd p a resolve aux c rq reactor rfd Hends k t v n st mnode Hn); iFrame|].
      iIntros (r) "[-> _]". by iSplitR.
    + iApply (twp_aide_entry cfd sfd p a resolve aux c rq reactor rfd Hends kfd Hkfd Hc). iFrame.
Qed.

(** A resolver that knows one name, asked by the current one of two tasks. *)
Definition one_name (f : string) (args : list Z) : Z * Z :=
  if String.eqb f "getaddrinfo" && bool_decide (head args = Some 20480) then (0, 0) else (-2, 2).

Lemma dns_session_safe_witness :
  @k_inv (sched_kernel 65536) (two_tasks 3 3) ∗ slice_heap 6400 ∗
    user_part 10 12288 131072 NULL NULL ∗ @last_part (slice_allocator 6400) 12288 16384 2 16384 ∗
    cells (req_fields 24576 (GetAddrInfo 20480 NULL NULL 28672)) ∗ cells [28672] ∗
    ctrl_part 16384 12 ∗ server_part 11 12288 ∗ aide_shared 16384 32768 13
  ⊢ run_ok (dns_valid 10 11 12288 16384 one_name) (dns_step 10 11)
      [session 12288 24576 (GetAddrInfo 20480 NULL NULL 28672) 36864;
       hev_task_aide_entry dns_handlers 16384]
      [fun r => r = 0; fun _ => True%type] (Wire [] []).
Proof.
  apply (@dns_session_safe (slice_allocator 6400) (sched_kernel 65536) (two_tasks 3 3) 10 11 12 12288
           16384 one_name 131072 24576 (GetAddrInfo 20480 NULL NULL 28672) 32768 13 NULL NULL 2 16384 36864);
    [done|done|done|lia].
Defined.
