(* ===== verification/WinSys.v ===== *)
(** * WinSys: the small files of [src/src/sys/windows]

    Error numbers, the clock, threads and the system's start on Win32.  The
    constants are those of the Windows headers. *)

From S2P Require Export Prelude.
From S2P Require Export Env.
From S2P Require Export Mem.

Module Win.
Definition EINTR : Z := 4.
Definition EIO : Z := 5.
Definition EBADF : Z := 9.
Definition EAGAIN : Z := 11.
Definition ENOMEM : Z := 12.
Definition EACCES : Z := 13.
Definition EFAULT : Z := 14.
Definition EINVAL : Z := 22.
Definition EMFILE : Z := 24.
Definition EPIPE : Z := 32.
Definition EADDRINUSE : Z := 100.
Definition EAFNOSUPPORT : Z := 102.
Definition EALREADY : Z := 103.
Definition ECONNABORTED : Z := 106.
Definition ECONNREFUSED : Z := 107.
Definition ECONNRESET : Z := 108.
Definition EHOSTUNREACH : Z := 110.
Definition EINPROGRESS : Z := 112.
Definition EISCONN : Z := 113.
Definition EMSGSIZE : Z := 115.
Definition ENETDOWN : Z := 116.
Definition ENETUNREACH : Z := 118.
Definition ENOBUFS : Z := 119.
Definition ENOTCONN : Z := 126.
Definition ENOTSOCK : Z := 128.
Definition EOPNOTSUPP : Z := 130.
Definition EPROTONOSUPPORT : Z := 135.
Definition ETIMEDOUT : Z := 138.

Definition WSA_NOT_ENOUGH_MEMORY : Z := 8.
Definition WSAEINTR : Z := 10004.
Definition WSAEBADF : Z := 10009.
Definition WSAEACCES : Z := 10013.
Definition WSAEFAULT : Z := 10014.
Definition WSAEINVAL : Z := 10022.
Definition WSAEMFILE : Z := 10024.
Definition WSAEWOULDBLOCK : Z := 10035.
Definition WSAEINPROGRESS : Z := 10036.
Definition WSAEALREADY : Z := 10037.
Definition WSAENOTSOCK : Z := 10038.
Definition WSAEMSGSIZE : Z := 10040.
Definition WSAEPROTONOSUPPORT : Z := 10043.
Definition WSAEOPNOTSUPP : Z := 10045.
Definition WSAEAFNOSUPPORT : Z := 10047.
Definition WSAEADDRINUSE : Z := 10048.
Definition WSAENETDOWN : Z := 10050.
Definition WSAENETUNREACH : Z := 10051.
Definition WSAECONNABORTED : Z := 10053.
Definition WSAECONNRESET : Z := 10054.
Definition WSAENOBUFS : Z := 10055.
Definition WSAEISCONN : Z := 10056.
Definition WSAENOTCONN : Z := 10057.
Definition WSAESHUTDOWN : Z := 10058.
Definition WSAETIMEDOUT : Z := 10060.
Definition WSAECONNREFUSED : Z := 10061.
Definition WSAEHOSTUNREACH : Z := 10065.

Definition FIONBIO : Z := 2147772030.
Definition INFINITE : Z := 2 ^ 32 - 1.
Definition INVALID_SOCKET : Z := 2 ^ 64 - 1.
Definition SOCKET_ERROR : Z := -1.
End Win.

(** ** [hev-sys-errno.c] *)

(** The cases of the [switch]. *)
Definition wsa_errno_table : list (Z * Z) :=
  [(Win.WSAEWOULDBLOCK, Win.EAGAIN); (Win.WSAEBADF, Win.EBADF);
   (Win.WSAEINPROGRESS, Win.EINPROGRESS); (Win.WSAEMSGSIZE, Win.EMSGSIZE);
   (Win.WSAEALREADY, Win.EALREADY); (Win.WSAEISCONN, Win.EISCONN);
   (Win.WSAENOTCONN, Win.ENOTCONN); (Win.WSAECONNRESET, Win.ECONNRESET);
   (Win.WSAENOTSOCK, Win.ENOTSOCK); (Win.WSAEINTR, Win.EINTR);
   (Win.WSAECONNABORTED, Win.ECONNABORTED); (Win.WSAECONNREFUSED, Win.ECONNREFUSED);
   (Win.WSAENETDOWN, Win.ENETDOWN); (Win.WSAENETUNREACH, Win.ENETUNREACH);
   (Win.WSAEHOSTUNREACH, Win.EHOSTUNREACH); (Win.WSAEACCES, Win.EACCES);
   (Win.WSAEADDRINUSE, Win.EADDRINUSE); (Win.WSAEMFILE, Win.EMFILE);
   (Win.WSAENOBUFS, Win.ENOBUFS); (Win.WSA_NOT_ENOUGH_MEMORY, Win.ENOMEM);
   (Win.WSAEINVAL, Win.EINVAL); (Win.WSAEFAULT, Win.EFAULT);
   (Win.WSAEAFNOSUPPORT, Win.EAFNOSUPPORT); (Win.WSAEPROTONOSUPPORT, Win.EPROTONOSUPPORT);
   (Win.WSAEOPNOTSUPP, Win.EOPNOTSUPP); (Win.WSAETIMEDOUT, Win.ETIMEDOUT);
   (Win.WSAESHUTDOWN, Win.EPIPE)].

Definition wsa_errno (error : Z) : Z :=
  default Win.EIO (snd <$> find (fun p => p.1 =? error) wsa_errno_table).

(** Assignment to [errno]; the result is its new value. *)
Definition assign_errno (v : Z) : co Z := sys "errno" [v] ~;; Ret v.

Definition hev_sys_set_errno_from_wsa_code (error : Z) : co Z := assign_errno (wsa_errno error).

Definition hev_sys_set_errno_from_wsa : co Z :=
  error <~ sys "WSAGetLastError" [] ;; hev_sys_set_errno_from_wsa_code error.

(** Fail with -1 and the last Winsock error, or with a given error. *)
Definition wsa_fail : co Z := hev_sys_set_errno_from_wsa ~;; Ret (-1).
Definition errno_fail (v : Z) : co Z := assign_errno v ~;; Ret (-1).

(** ** [hev-sys-time.c] *)

(** C's division truncates, and by zero it is undefined. *)
Definition cdiv (x y : Z) : M Z := if y =? 0 then fail Undefined else ret (Z.quot x y).
Definition crem (x y : Z) : M Z := if y =? 0 then fail Undefined else ret (Z.rem x y).

Definition hev_sys_clock_gettime (clock_id ts : Z) : co Z :=
  if negb (is_true ts) then Ret (-1) else
  f <~ call (Query "QueryPerformanceFrequency" [] 1) ;;
  if a_ret f =? 0 then Ret (-1) else
  c <~ call (Query "QueryPerformanceCounter" [] 1) ;;
  if a_ret c =? 0 then Ret (-1) else
  match a_data f, a_data c with
  | [freq], [counter] =>
      sec <! cdiv counter freq ;;
      store ts (s64 sec) !;;
      rest <! crem counter freq ;;
      nsec <! cdiv (s64 (rest * 1000000000)) freq ;;
      store (ts + 8) (s32 nsec) !;;
      Ret 0
  | _, _ => act (fail Undefined)
  end.

(** ** [hev-sys-thread.c]; [entries] runs a client's function *)

Definition start_entry (start : Z) : Z := start.
Definition start_data (start : Z) : Z := start + 8.
Definition SIZEOF_THREAD_START : Z := 16.

Section threads.
Context (entries : Z -> Z -> co unit).

Definition hev_sys_thread_entry (data : Z) : co Z :=
  entry <! load (start_entry data) ;;
  arg <! load (start_data data) ;;
  free data ~;;
  entries entry arg ~;;
  Ret 0.

(** [InitOnceExecuteOnce] calls back at most once. *)
Definition hev_sys_once_entry (func : Z) : co Z := entries func NULL ~;; Ret 1.

Definition win_once (once func : Z) : co unit :=
  done <! load once ;;
  if is_true done then Ret tt else
  hev_sys_once_entry func ~;; act (store once 1).
End threads.

Definition hev_sys_thread_create (thread entry data : Z) : co Z :=
  start <~ malloc SIZEOF_THREAD_START ;;
  if negb (is_true start) then Ret Win.ENOMEM else
  store (start_entry start) entry !;;
  store (start_data start) data !;;
  handle <~ sys "_beginthreadex" [start] ;;
  if negb (is_true handle) then free start ~;; Ret Win.EAGAIN else
  store thread handle !;;
  Ret 0.

Definition hev_sys_thread_join (thread : Z) : co Z :=
  sys "WaitForSingleObject" [thread; Win.INFINITE] ~;;
  sys "CloseHandle" [thread] ~;;
  Ret 0.

(** ** [hev-sys.c], [hev-sys-netdb.c] and the stack range of a thread *)

Definition win_sys_init : co Z :=
  res <~ sys "WSAStartup" [514] ;;
  if negb (res =? 0) then sys "WSASetLastError" [res] ~;; Ret (-1) else Ret 0.

Definition win_sys_fini : co unit := sys "WSACleanup" [] ~;; Ret tt.

(** [outs] are the cells of the caller's result. *)
Definition hev_sys_getaddrinfo (node service hints res : Z) : co Z :=
  a <~ call (Sys "getaddrinfo" [node; service; hints; res] [res]) ;;
  if negb (a_ret a =? 0) then hev_sys_set_errno_from_wsa_code (a_ret a) ~;; Ret (a_ret a)
  else Ret (a_ret a).

Definition hev_sys_getnameinfo (addr addrlen node nodelen service servicelen flags : Z) : co Z :=
  a <~ call (Sys "getnameinfo" [addr; addrlen; node; nodelen; service; servicelen; flags]
               (zrange node nodelen ++ zrange service servicelen)) ;;
  if negb (a_ret a =? 0) then hev_sys_set_errno_from_wsa_code (a_ret a) ~;; Ret (a_ret a)
  else Ret (a_ret a).

Definition hev_sys_freeaddrinfo (res : Z) : co unit := sys "freeaddrinfo" [res] ~;; Ret tt.

(** [NT_TIB]: the stack range of the running thread is in its block [tib]. *)
Definition tib_stack_base (tib : Z) : Z := tib + 8.
Definition tib_stack_limit (tib : Z) : Z := tib + 16.
Definition sts_base (self : Z) : Z := self.
Definition sts_limit (self : Z) : Z := self + 8.

Definition hev_sys_task_stack_enter (self base limit : Z) : co unit :=
  tib <~ sys "NtCurrentTeb" [] ;;
  old <! load (tib_stack_base tib) ;;
  store (sts_base self) old !;;
  old <! load (tib_stack_limit tib) ;;
  store (sts_limit self) old !;;
  store (tib_stack_base tib) base !;;
  act (store (tib_stack_limit tib) limit).

Definition hev_sys_task_stack_leave (self : Z) : co unit :=
  tib <~ sys "NtCurrentTeb" [] ;;
  base <! load (sts_base self) ;;
  if negb (is_true base) then Ret tt else
  store (tib_stack_base tib) base !;;
  limit <! load (sts_limit self) ;;
  act (store (tib_stack_limit tib) limit).

(** [execute] is [hev_task_execute], in assembly. *)
Definition hev_sys_task_execute (execute : Z -> Z -> co unit) (ctx top limit entry : Z) : co unit :=
  tib <~ sys "NtCurrentTeb" [] ;;
  saved_base <! load (tib_stack_base tib) ;;
  saved_limit <! load (tib_stack_limit tib) ;;
  store (tib_stack_base tib) top !;;
  store (tib_stack_limit tib) limit !;;
  execute ctx entry ~;;
  store (tib_stack_base tib) saved_base !;;
  act (store (tib_stack_limit tib) saved_limit).
