(* ===== verification/WinFd.v ===== *)
(** * WinFd: [hev-sys-fd.c] and [hev-sys-fdio.c], descriptors of sockets

    The registry that gives Winsock sockets small numbers, in a growing array
    of slots, and the operations on descriptors built on it.  The lock is
    taken and released by calls; one thread's steps are modelled. *)

From S2P Require Export Prelude.
From S2P Require Export Env.
From S2P Require Export Mem.
From S2P Require Export WinSys.

Definition REG_INITIAL_CAP : Z := 256.
Definition REG_MAX_FDS : Z := 2 ^ 20.
Definition REG_FD_BASE : Z := 2 ^ 30.
Definition REG_TOKEN_BITS : Z := 20.
Definition REG_GEN_MASK : Z := Z.shiftr (2 ^ 64 - 1) REG_TOKEN_BITS.
Definition HEV_SYS_INVALID_TOKEN : Z := Win.INVALID_SOCKET.

(** [struct _RegSlot] and the static variables. *)
Definition slot_at (slots i : Z) : Z := slots + 16 * i.
Definition slot_socket (slot : Z) : Z := slot.
Definition slot_gen (slot : Z) : Z := slot + 8.
Definition SIZEOF_REG_SLOT : Z := 16.

Definition reg_lock : Z := 2048.
Definition reg_slots : Z := 2056.
Definition reg_capacity : Z := 2064.
Definition reg_hint : Z := 2072.
Definition reg_state : Z := 2080.

(** The old value, in one step. *)
Definition InterlockedCompareExchange (a exchange comparand : Z) : M Z :=
  v <- load a ;; when (v =? comparand) (store a exchange) ;;; ret v.

Definition AcquireShared : co unit := sys "AcquireSRWLockShared" [reg_lock] ~;; Ret tt.
Definition ReleaseShared : co unit := sys "ReleaseSRWLockShared" [reg_lock] ~;; Ret tt.
Definition AcquireExclusive : co unit := sys "AcquireSRWLockExclusive" [reg_lock] ~;; Ret tt.
Definition ReleaseExclusive : co unit := sys "ReleaseSRWLockExclusive" [reg_lock] ~;; Ret tt.

Fixpoint init_slots (slots : Z) (l : list Z) : M unit :=
  match l with
  | [] => ret tt
  | i :: l => store (slot_socket (slot_at slots i)) Win.INVALID_SOCKET ;;; init_slots slots l
  end.

Definition reg_init : co unit :=
  state <! InterlockedCompareExchange reg_state 1 0 ;;
  if state =? 0 then
    slots <~ calloc REG_INITIAL_CAP SIZEOF_REG_SLOT ;;
    store reg_slots slots !;;
    (if is_true slots then
       init_slots slots (zrange 0 REG_INITIAL_CAP) ;;;
       store reg_capacity REG_INITIAL_CAP
     else store reg_capacity 0) !;;
    act (store reg_state 2)
  else
    co_while (fun _ : unit =>
      state <! InterlockedCompareExchange reg_state 2 2 ;;
      if state =? 2 then Ret (inr tt) else
      sys "YieldProcessor" [] ~;; Ret (inl tt)) tt.

Definition reg_index_from_fd (fd : Z) : Z :=
  if (fd <? REG_FD_BASE) || (REG_FD_BASE + REG_MAX_FDS <=? fd) then -1 else fd - REG_FD_BASE.

Fixpoint clear_slots (slots : Z) (l : list Z) : M unit :=
  match l with
  | [] => ret tt
  | i :: l =>
      store (slot_socket (slot_at slots i)) Win.INVALID_SOCKET ;;;
      store (slot_gen (slot_at slots i)) 0 ;;;
      clear_slots slots l
  end.

Definition new_capacity (cap need_idx : Z) : Z :=
  let new_cap := if is_true cap then cap * 2 else REG_INITIAL_CAP in
  let new_cap := if new_cap <=? need_idx then need_idx + 1 else new_cap in
  if REG_MAX_FDS <? new_cap then REG_MAX_FDS else new_cap.

Definition reg_grow_locked (need_idx : Z) : co Z :=
  if REG_MAX_FDS <=? need_idx then Ret (-1) else
  cap <! load reg_capacity ;;
  let new_cap := new_capacity cap need_idx in
  if new_cap <=? cap then Ret (-1) else
  old <! load reg_slots ;;
  slots <~ realloc old (SIZEOF_REG_SLOT * new_cap) ;;
  if negb (is_true slots) then Ret (-1) else
  clear_slots slots (zrange cap (new_cap - cap)) !;;
  store reg_slots slots !;;
  store reg_capacity new_cap !;;
  Ret 0.

Definition hev_sys_fd_is_virtual (fd : Z) : bool := 0 <=? reg_index_from_fd fd.

Definition hev_sys_fd_to_socket (fd : Z) : co Z :=
  reg_init ~;;
  let idx := reg_index_from_fd fd in
  if idx <? 0 then Ret Win.INVALID_SOCKET else
  AcquireShared ~;;
  cap <! load reg_capacity ;;
  s <! (if idx <? cap then
          slots <- load reg_slots ;; load (slot_socket (slot_at slots idx))
        else ret Win.INVALID_SOCKET) ;;
  ReleaseShared ~;;
  Ret s.

Definition hev_sys_fd_to_token (fd : Z) : co Z :=
  reg_init ~;;
  let idx := reg_index_from_fd fd in
  if idx <? 0 then Ret HEV_SYS_INVALID_TOKEN else
  AcquireShared ~;;
  cap <! load reg_capacity ;;
  token <! (if idx <? cap then
              slots <- load reg_slots ;;
              s <- load (slot_socket (slot_at slots idx)) ;;
              if negb (s =? Win.INVALID_SOCKET) then
                gen <- load (slot_gen (slot_at slots idx)) ;;
                ret (Z.lor (w64 (Z.shiftl gen REG_TOKEN_BITS)) idx)
              else ret HEV_SYS_INVALID_TOKEN
            else ret HEV_SYS_INVALID_TOKEN) ;;
  ReleaseShared ~;;
  Ret token.

Definition hev_sys_token_to_socket (token : Z) : co Z :=
  let idx := Z.land token (Z.shiftl 1 REG_TOKEN_BITS - 1) in
  reg_init ~;;
  AcquireShared ~;;
  cap <! load reg_capacity ;;
  s <! (if idx <? cap then
          slots <- load reg_slots ;;
          gen <- load (slot_gen (slot_at slots idx)) ;;
          if gen =? Z.shiftr token REG_TOKEN_BITS
          then load (slot_socket (slot_at slots idx)) else ret Win.INVALID_SOCKET
        else ret Win.INVALID_SOCKET) ;;
  ReleaseShared ~;;
  Ret s.

(** A free slot among those listed. *)
Fixpoint find_slot (slots : Z) (l : list Z) : M (option Z) :=
  match l with
  | [] => ret None
  | i :: l =>
      s <- load (slot_socket (slot_at slots i)) ;;
      if s =? Win.INVALID_SOCKET then ret (Some i) else find_slot slots l
  end.

(** Give slot [i] to socket [s]: a new registration. *)
Definition take_slot (slots i s : Z) : M Z :=
  store (slot_socket (slot_at slots i)) s ;;;
  gen <- load (slot_gen (slot_at slots i)) ;;
  store (slot_gen (slot_at slots i)) (Z.land (w64 (gen + 1)) REG_GEN_MASK) ;;;
  store reg_hint (i + 1) ;;;
  ret (REG_FD_BASE + i).

Definition hev_sys_socket_to_fd (s : Z) : co Z :=
  if s =? Win.INVALID_SOCKET then Ret (-1) else
  reg_init ~;;
  AcquireExclusive ~;;
  hint <! load reg_hint ;;
  cap <! load reg_capacity ;;
  slots <! load reg_slots ;;
  found <! find_slot slots (zrange hint (cap - hint)) ;;
  fd <~ match found with
        | Some i => act (take_slot slots i s)
        | None =>
            store reg_hint cap !;;
            r <~ reg_grow_locked cap ;;
            if r =? 0 then
              slots <! load reg_slots ;;
              act (take_slot slots cap s)
            else Ret (-1)
        end ;;
  ReleaseExclusive ~;;
  Ret fd.

Definition hev_sys_fd_close_socket (fd : Z) : co Z :=
  reg_init ~;;
  let idx := reg_index_from_fd fd in
  if idx <? 0 then Ret Win.INVALID_SOCKET else
  AcquireExclusive ~;;
  cap <! load reg_capacity ;;
  s <! (if idx <? cap then
          slots <- load reg_slots ;;
          s <- load (slot_socket (slot_at slots idx)) ;;
          store (slot_socket (slot_at slots idx)) Win.INVALID_SOCKET ;;;
          hint <- load reg_hint ;;
          when (idx <? hint) (store reg_hint idx) ;;;
          ret s
        else ret Win.INVALID_SOCKET) ;;
  ReleaseExclusive ~;;
  Ret s.

Definition hev_sys_fd_replace (fd s old : Z) : co Z :=
  let idx := reg_index_from_fd fd in
  if idx <? 0 then errno_fail Win.EINVAL else
  reg_init ~;;
  AcquireExclusive ~;;
  cap <! load reg_capacity ;;
  r <~ (if cap <=? idx then reg_grow_locked idx else Ret 0) ;;
  if r <? 0 then ReleaseExclusive ~;; errno_fail Win.EMFILE else
  slots <! load reg_slots ;;
  prev <! load (slot_socket (slot_at slots idx)) ;;
  store old prev !;;
  store (slot_socket (slot_at slots idx)) s !;;
  gen <! load (slot_gen (slot_at slots idx)) ;;
  store (slot_gen (slot_at slots idx)) (Z.land (w64 (gen + 1)) REG_GEN_MASK) !;;
  ReleaseExclusive ~;;
  Ret 0.

Definition hev_sys_fd_socket (fd : Z) : co Z :=
  s <~ hev_sys_fd_to_socket fd ;;
  (if s =? Win.INVALID_SOCKET then sys "WSASetLastError" [Win.WSAENOTSOCK] ~;; Ret tt else Ret tt) ~;;
  Ret s.

Definition closesocket (s : Z) : co Z := sys "closesocket" [s].

(** [ioctlsocket (s, FIONBIO, &nonblock)] with [nonblock = 1]. *)
Definition set_nonblock (s : Z) : co Z := sys "ioctlsocket" [s; Win.FIONBIO; 1].

Definition hev_sys_fd_register (s : Z) : co Z :=
  if s =? Win.INVALID_SOCKET then wsa_fail else
  r <~ set_nonblock s ;;
  if negb (r =? 0) then hev_sys_set_errno_from_wsa ~;; closesocket s ~;; Ret (-1) else
  fd <~ hev_sys_socket_to_fd s ;;
  if fd <? 0 then closesocket s ~;; errno_fail Win.EMFILE else
  Ret fd.

(** ** [hev-sys-fdio.c] *)

Definition hev_sys_duplicate_socket_handle (s : Z) : co Z :=
  a <~ call (Query "WSADuplicateSocketW" [s] 94) ;;
  if negb (a_ret a =? 0) then Ret Win.INVALID_SOCKET else
  sys "WSASocketW" (a_data a).

Definition hev_sys_dup (oldfd : Z) : co Z :=
  s <~ hev_sys_fd_to_socket oldfd ;;
  if s =? Win.INVALID_SOCKET then sys "_dup" [oldfd] else
  copy <~ hev_sys_duplicate_socket_handle s ;;
  if copy =? Win.INVALID_SOCKET then wsa_fail else
  hev_sys_fd_register copy.

(** [replaced] is the address of the local variable. *)
Definition hev_sys_dup2 (oldfd newfd replaced : Z) : co Z :=
  s <~ hev_sys_fd_to_socket oldfd ;;
  if s =? Win.INVALID_SOCKET then sys "_dup2" [oldfd; newfd] else
  if oldfd =? newfd then Ret newfd else
  copy <~ hev_sys_duplicate_socket_handle s ;;
  if copy =? Win.INVALID_SOCKET then wsa_fail else
  r <~ set_nonblock copy ;;
  if negb (r =? 0) then hev_sys_set_errno_from_wsa ~;; closesocket copy ~;; Ret (-1) else
  r <~ hev_sys_fd_replace newfd copy replaced ;;
  if r <? 0 then closesocket copy ~;; Ret (-1) else
  old <! load replaced ;;
  (if negb (old =? Win.INVALID_SOCKET) then closesocket old ~;; Ret tt else Ret tt) ~;;
  Ret newfd.

Definition hev_sys_close (fd : Z) : co Z :=
  if fd <? 0 then errno_fail Win.EBADF else
  s <~ hev_sys_fd_close_socket fd ;;
  if negb (s =? Win.INVALID_SOCKET) then
    res <~ closesocket s ;;
    (if negb (res =? 0) then hev_sys_set_errno_from_wsa ~;; Ret tt else Ret tt) ~;;
    Ret (if res =? 0 then 0 else -1)
  else if hev_sys_fd_is_virtual fd then errno_fail Win.EBADF
  else sys "_close" [fd].

Definition hev_sys_fcntl (fd cmd : Z) : co Z :=
  if cmd =? 1 then Ret 0          (* F_GETFD *)
  else if cmd =? 2 then Ret 0     (* F_SETFD *)
  else if cmd =? 3 then Ret 0     (* F_GETFL: O_NONBLOCK is 0 *)
  else if cmd =? 4 then Ret 0     (* F_SETFL *)
  else errno_fail Win.EINVAL.

Definition hev_sys_openat (dirfd pathname flags mode : Z) : co Z :=
  sys "_open" [pathname; flags; if is_true (Z.land flags 256) then mode else 0].
