(* ===== verification/WinFdProps.v ===== *)
(** * WinFdProps: what a token of a descriptor promises

    The registry refined to a list of slots, each a socket with its generation,
    and the theorem about tokens. *)

From S2P Require Import Prelude.
From S2P Require Import Sep.
From S2P Require Import Env.
From S2P Require Import EnvLogic.
From S2P Require Import Bytes.
From S2P Require Import Mem.
From S2P Require Import WinSys.
From S2P Require Import WinFd.

(** ** The abstract registry *)

(** The slots, each a socket with its generation, and the hint. *)
Record registry : Type := Registry { rs_slots : list (Z * Z); rs_hint : Z }.

Definition free_slot : Z * Z := (Win.INVALID_SOCKET, 0).

Definition reg_slot (R : registry) (i : Z) : Z * Z := default free_slot (rs_slots R !! Z.to_nat i).

Definition slot_free (R : registry) (i : Z) : Prop := (reg_slot R i).1 = Win.INVALID_SOCKET.

Definition rs_cap (R : registry) : Z := Z.of_nat (length (rs_slots R)).

(** Every slot below the hint is in use. *)
Record registry_wf (R : registry) : Prop := {
  gw_cap : rs_cap R <= REG_MAX_FDS;
  gw_hint : 0 <= rs_hint R <= rs_cap R;
  gw_used : forall i, 0 <= i < rs_hint R -> ~ slot_free R i;
  gw_gens : forall i, 0 <= (reg_slot R i).2 < 2 ^ 44
}.

Definition next_gen (g : Z) : Z := (g + 1) mod 2 ^ 44.

Definition r_set (i : Z) (x : Z * Z) (R : registry) : registry :=
  Registry (<[Z.to_nat i := x]> (rs_slots R)) (rs_hint R).

Definition r_hint (h : Z) (R : registry) : registry := Registry (rs_slots R) h.

Definition r_grow (n : nat) (R : registry) : registry :=
  Registry (rs_slots R ++ replicate n free_slot) (rs_hint R).

Lemma reg_slot_grow n R i : reg_slot (r_grow n R) i = reg_slot R i.
Proof.
  unfold reg_slot, r_grow. simpl. destruct (decide (Z.to_nat i < length (rs_slots R))%nat).
  - by rw lookup_app_l.
  - rw lookup_app_r; [|lia]. rw (lookup_ge_None_2 (rs_slots R)); [|lia].
    destruct (_ !! _) as [x|] eqn:Hx; [|done]. apply lookup_replicate_1 in Hx as [-> _]. done.
Qed.

Lemma reg_slot_set R i x j : 0 <= i < rs_cap R -> 0 <= j ->
  reg_slot (r_set i x R) j = if decide (j = i) then x else reg_slot R j.
Proof.
  intros Hi Hj. unfold reg_slot, r_set, rs_cap in *. simpl. case_decide.
  - subst. rw list_lookup_insert_eq //. lia.
  - rw list_lookup_insert_ne //. lia.
Qed.

Lemma next_gen_mask g : 0 <= g < 2 ^ 44 -> Z.land (w64 (g + 1)) REG_GEN_MASK = next_gen g.
Proof.
  intros Hg. unfold next_gen. rw w64_small; [|lia]. change REG_GEN_MASK with (Z.ones 44).
  by rw Z.land_ones.
Qed.

Lemma next_gen_range g : 0 <= next_gen g < 2 ^ 44.
Proof. apply Z.mod_pos_bound. lia. Qed.

Lemma next_gen_ne g : 0 <= g < 2 ^ 44 -> next_gen g <> g.
Proof. unfold next_gen. intros Hg. div_lia. Qed.

(** ** Tokens *)

Definition token_of (i g : Z) : Z := g * 2 ^ 20 + i.

Lemma land_disjoint g i : 0 <= i < 2 ^ 20 -> Z.land (g * 2 ^ 20) i = 0.
Proof.
  intros Hi. apply Z.bits_inj'. intros n Hn. rw Z.land_spec Z.bits_0.
  destruct (decide (n < 20)); [by rw Z.mul_pow2_bits_low|].
  assert (i = i mod 2 ^ 20) as -> by (symmetry; by apply Z.mod_small).
  rw Z.mod_pow2_bits_high; [|lia]. by rw andb_false_r.
Qed.

Lemma token_make i g : 0 <= i < 2 ^ 20 -> 0 <= g < 2 ^ 44 ->
  Z.lor (w64 (Z.shiftl g REG_TOKEN_BITS)) i = token_of i g.
Proof.
  intros Hi Hg. unfold REG_TOKEN_BITS, token_of. rw Z.shiftl_mul_pow2; [|lia]. rw w64_small; [|lia].
  pose proof (land_disjoint g i Hi) as Hl. by rw (Z.add_nocarry_lxor _ _ Hl) (Z.lxor_lor _ _ Hl).
Qed.

Lemma token_index i g : 0 <= i < 2 ^ 20 -> Z.land (token_of i g) (Z.shiftl 1 REG_TOKEN_BITS - 1) = i.
Proof.
  intros Hi. change (Z.shiftl 1 REG_TOKEN_BITS - 1) with (Z.ones 20). rw Z.land_ones; [|lia].
  unfold token_of. rw Z.add_comm Z.mod_add; [|lia]. by apply Z.mod_small.
Qed.

Lemma token_gen i g : 0 <= i < 2 ^ 20 -> Z.shiftr (token_of i g) REG_TOKEN_BITS = g.
Proof.
  intros Hi. unfold REG_TOKEN_BITS, token_of. rw Z.shiftr_div_pow2; [|lia].
  rw Z.add_comm Z.div_add; [|lia]. rw Z.div_small; lia.
Qed.

(** ** The memory of the registry *)

Definition pad7 (a : Z) : heapProp := (∃ vs, bytes a vs ∗ ⌞length vs = 7%nat⌟)%I.

Definition one_slot (a : Z) (x : Z * Z) : heapProp :=
  (slot_socket a ↦ x.1 ∗ slot_gen a ↦ x.2)%I.

Fixpoint slots_at (a : Z) (l : list (Z * Z)) : heapProp :=
  match l with
  | [] => emp%I
  | x :: l => (one_slot a x ∗ pad7 (a + 1) ∗ pad7 (a + 9) ∗ slots_at (a + 16) l)%I
  end.

Lemma slots_app a l1 l2 :
  slots_at a (l1 ++ l2) ⊣⊢ slots_at a l1 ∗ slots_at (a + 16 * Z.of_nat (length l1)) l2.
Proof.
  revert a. induction l1 as [|x l1 IH]; intros a; cbn [app slots_at length].
  - by rw Z.add_0_r left_id.
  - rw IH. replace (a + 16 + 16 * Z.of_nat (length l1))
      with (a + 16 * Z.of_nat (S (length l1))) by lia. by rw !assoc.
Qed.

(** One slot, and what a change of it makes of the list. *)
Lemma reg_slots_acc a l i x :
  l !! i = Some x ->
  slots_at a l ⊢ one_slot (a + 16 * Z.of_nat i) x ∗
    (∀ y, one_slot (a + 16 * Z.of_nat i) y -∗ slots_at a (<[i := y]> l)).
Proof.
  intros Hi. rw -{1}(take_drop_middle l i x Hi). pose proof (lookup_lt_Some _ _ _ Hi) as Hlt.
  rw slots_app length_take_le; [|lia]. cbn [slots_at]. iIntros "(H1 & $ & Hp & Hq & H2)" (y) "Hy".
  rw insert_take_drop //. rw slots_app length_take_le; [|lia]. cbn [slots_at]. iFrame.
Qed.

(** The contents of slots, wherever they are. *)
Lemma slots_to_bytes a l :
  slots_at a l ⊢ ∃ vs, ⌞length vs = (16 * length l)%nat⌟ ∗ bytes a vs ∗
    ⌞forall b, bytes b vs ⊢ slots_at b l⌟.
Proof.
  revert a. induction l as [|[s g] l IH]; intros a.
  { iIntros "_". iExists []. iSplitR; [done|]. iSplitR; [done|]. iPureIntro. done. }
  cbn [slots_at]. iIntros "([Hs Hg] & (%p & Hp & %Hpl) & (%q & Hq & %Hql) & Hl)".
  iDestruct (IH with "Hl") as "(%vs & %Hlen & Hvs & %Hb)". simpl.
  iExists ([s] ++ p ++ [g] ++ q ++ vs). iSplitR; [iPureIntro; rw !length_app /=; lia|].
  assert (forall b, bytes b ([s] ++ p ++ [g] ++ q ++ vs) ⊣⊢
    b ↦ s ∗ bytes (b + 1) p ∗ (b + 8) ↦ g ∗ bytes (b + 9) q ∗ bytes (b + 16) vs) as Heq.
  { intros b. rw !bytes_app /= Hpl Hql. rw !right_id -!Z.add_assoc //. }
  rw Heq. iFrame. iPureIntro. intros b. rw Heq Hb. iIntros "($ & Hp & $ & Hq & $)".
  iSplitL "Hp"; [by iExists p; iFrame|by iExists q; iFrame].
Qed.

(** Bytes of any contents are slots. *)
Lemma bytes_to_slots n a ws :
  length ws = (16 * n)%nat -> bytes a ws ⊢ ∃ l, slots_at a l ∗ ⌞length l = n⌟.
Proof.
  revert a ws. induction n as [|n IH]; intros a ws Hlen.
  { destruct ws; [|simpl in Hlen; lia]. iIntros "H". iExists []. by iFrame. }
  do 16 (destruct ws as [|? ws]; [simpl in Hlen; lia|]).
  cbn [bytes]. rw -!Z.add_assoc /=.
  iIntros "(H0 & H1 & H2 & H3 & H4 & H5 & H6 & H7 & H8 & H9 & H10 & H11 & H12 & H13 & H14 & H15 & H)".
  iDestruct (IH with "H") as "(%l & Hl & %Hl)"; [simpl in Hlen; lia|].
  iExists ((z, z7) :: l). cbn [slots_at one_slot fst snd]. iFrame.
  iSplitL; [|iPureIntro; simpl; lia].
  iSplitL "H1 H2 H3 H4 H5 H6 H7"; [iExists [z0; z1; z2; z3; z4; z5; z6]|
                                    iExists [z8; z9; z10; z11; z12; z13; z14]];
    cbn [bytes]; rw -!Z.add_assoc /=; by iFrame.
Qed.

(** ** Reading and writing a slot *)

Section slot.
Context (p : Z) (l : list (Z * Z)) (i : Z) (x : Z * Z).
Hypothesis Hi : 0 <= i.
Hypothesis Hx : l !! Z.to_nat i = Some x.

Lemma slots_acc_at :
  slots_at p l ⊢ one_slot (slot_at p i) x ∗
    (∀ y, one_slot (slot_at p i) y -∗ slots_at p (<[Z.to_nat i := y]> l)).
Proof.
  assert (slot_at p i = p + 16 * Z.of_nat (Z.to_nat i)) as -> by (unfold slot_at; lia).
  by apply reg_slots_acc.
Qed.

Lemma wp_load_socket (Q : Z -> heapProp) :
  slots_at p l ∗ (slots_at p l -∗ Q x.1) ⊢ wp (load (slot_socket (slot_at p i))) Q.
Proof.
  iIntros "[Hl HQ]". iDestruct (slots_acc_at with "Hl") as "[[Hs Hg] Hl]". wp_load. iApply "HQ".
  iDestruct ("Hl" $! x with "[$Hs $Hg]") as "Hl". by rw list_insert_id.
Qed.

Lemma wp_load_gen (Q : Z -> heapProp) :
  slots_at p l ∗ (slots_at p l -∗ Q x.2) ⊢ wp (load (slot_gen (slot_at p i))) Q.
Proof.
  iIntros "[Hl HQ]". iDestruct (slots_acc_at with "Hl") as "[[Hs Hg] Hl]". wp_load. iApply "HQ".
  iDestruct ("Hl" $! x with "[$Hs $Hg]") as "Hl". by rw list_insert_id.
Qed.

Lemma wp_store_socket s (Q : unit -> heapProp) :
  slots_at p l ∗ (slots_at p (<[Z.to_nat i := (s, x.2)]> l) -∗ Q tt)
  ⊢ wp (store (slot_socket (slot_at p i)) s) Q.
Proof.
  iIntros "[Hl HQ]". iDestruct (slots_acc_at with "Hl") as "[[Hs Hg] Hl]". wp_store. iApply "HQ".
  iApply "Hl". iFrame.
Qed.

Lemma wp_store_gen g (Q : unit -> heapProp) :
  slots_at p l ∗ (slots_at p (<[Z.to_nat i := (x.1, g)]> l) -∗ Q tt)
  ⊢ wp (store (slot_gen (slot_at p i)) g) Q.
Proof.
  iIntros "[Hl HQ]". iDestruct (slots_acc_at with "Hl") as "[[Hs Hg] Hl]". wp_store. iApply "HQ".
  iApply "Hl". iFrame.
Qed.
End slot.

(** ** Loops over slots *)

(** The slots from [h] on become unused. *)
Lemma wp_clear_slots p l n (Q : unit -> heapProp) :
  (n <= length l)%nat ->
  slots_at p l ∗ (slots_at p (take (length l - n) l ++ replicate n free_slot) -∗ Q tt)
  ⊢ wp (clear_slots p (zrange (Z.of_nat (length l - n)) (Z.of_nat n))) Q.
Proof.
  revert l. induction n as [|n IH]; intros l Hn.
  { iIntros "[Hl HQ]". rw Nat.sub_0_r firstn_all /= app_nil_r. wp_norm. by iApply "HQ". }
  destruct (lookup_lt_is_Some_2 l (length l - S n)) as [x Hx]; [lia|].
  set (k := (length l - S n)%nat) in *. assert (Z.to_nat (Z.of_nat k) = k) as Hk by lia.
  unfold zrange. rw seqZ_cons; [|lia]. cbn [clear_slots]. iIntros "[Hl HQ]".
  iApply wp_bind. iApply (wp_store_socket p l (Z.of_nat k) x with "[$Hl HQ]"); [lia|by rw Hk|].
  rw Hk. iIntros "Hl". iApply wp_bind.
  iApply (wp_store_gen p _ (Z.of_nat k) (Win.INVALID_SOCKET, x.2) with "[$Hl HQ]");
    [lia|rw Hk list_lookup_insert_eq //; lia|].
  rw Hk list_insert_insert_eq /=. iIntros "Hl".
  set (l' := <[k := free_slot]> l). assert (length l' = length l) as Hl' by apply length_insert.
  assert (Z.succ (Z.of_nat k) = Z.of_nat (length l' - n)) as -> by lia.
  assert (Z.pred (Z.of_nat (S n)) = Z.of_nat n) as -> by lia.
  iApply (IH l'); [lia|]. iFrame "Hl". iIntros "Hl". iApply "HQ".
  assert (take (length l' - n) l' ++ replicate n free_slot = take k l ++ free_slot :: replicate n free_slot) as <-;
    [|done].
  assert ((length l' - n = S k)%nat) as -> by lia.
  assert (l' !! k = Some free_slot) as Hk' by (apply list_lookup_insert_eq; lia).
  rw (take_S_r _ _ _ Hk') -app_assoc. f_equal. by apply take_insert_ge.
Qed.

(** The first free slot from [h] on, or none. *)
Lemma wp_find_slot p l h n (Q : option Z -> heapProp) :
  0 <= h -> h + Z.of_nat n = Z.of_nat (length l) ->
  slots_at p l ∗
  (∀ r, slots_at p l -∗
     ⌞match r with
      | Some i => h <= i < Z.of_nat (length l) /\ fst <$> l !! Z.to_nat i = Some Win.INVALID_SOCKET /\
                  forall j, h <= j < i -> fst <$> l !! Z.to_nat j <> Some Win.INVALID_SOCKET
      | None => forall j, h <= j -> fst <$> l !! Z.to_nat j <> Some Win.INVALID_SOCKET
      end⌟ -∗ Q r)
  ⊢ wp (find_slot p (zrange h (Z.of_nat n))) Q.
Proof.
  revert h. induction n as [|n IH]; intros h Hh Hn.
  { iIntros "[Hl HQ] /=". wp_norm.
    iApply ("HQ" with "Hl"). iPureIntro. intros j Hj. rw lookup_ge_None_2 //. lia. }
  unfold zrange. rw seqZ_cons; [|lia]. cbn [find_slot]. iIntros "[Hl HQ]".
  destruct (lookup_lt_is_Some_2 l (Z.to_nat h)) as [[s g] Hx]; [lia|].
  iApply wp_bind. iApply (wp_load_socket p l h (s, g)); [done|done|]. iFrame "Hl". iIntros "Hl".
  cbn [fst]. destruct (Z.eqb_spec s Win.INVALID_SOCKET) as [->|Hs].
  - wp_norm. iApply ("HQ" with "Hl"). iPureIntro. split; [lia|]. rw Hx. split; [done|]. lia.
  - assert (Z.pred (Z.of_nat (S n)) = Z.of_nat n) as -> by lia.
    iApply (IH (Z.succ h)); [lia|lia|]. iFrame "Hl". iIntros (r) "Hl %Hr". iApply ("HQ" with "Hl").
    iPureIntro. assert (fst <$> l !! Z.to_nat h <> Some Win.INVALID_SOCKET) as Hne by (rw Hx; naive_solver).
    destruct r as [i|].
    + destruct Hr as (Hi & Hf & Hr). split_and!; [lia|lia|done|]. intros j Hj.
      destruct (decide (j = h)) as [->|]; [done|]. apply Hr. lia.
    + intros j Hj. destruct (decide (j = h)) as [->|]; [done|]. apply Hr. lia.
Qed.

(** ** The registry in memory *)

Definition slot_array (p : Z) (l : list (Z * Z)) : heapProp :=
  (⌞0 < p /\ p mod 16 = 0⌟ ∗ libc_header p ↦ (16 * Z.of_nat (length l)) ∗ slots_at p l)%I.

(** The registry [R], once the first call has made it. *)
Definition is_registry (R : registry) : heapProp :=
  (∃ p, reg_state ↦ 2 ∗ reg_slots ↦ p ∗ reg_capacity ↦ rs_cap R ∗ reg_hint ↦ rs_hint R ∗
        slot_array p (rs_slots R) ∗ ⌞registry_wf R⌟)%I.

(** The same slots, as far as one can see. *)
Definition same_slots (R R' : registry) : Prop := forall j, 0 <= j -> reg_slot R' j = reg_slot R j.

(** As [R], but for slot [i], which is [x]. *)
Definition sets_slot (i : Z) (x : Z * Z) (R R' : registry) : Prop :=
  forall j, 0 <= j -> reg_slot R' j = if decide (j = i) then x else reg_slot R j.

Lemma same_slots_refl R : same_slots R R.
Proof. done. Qed.

Lemma slot_lookup R i : 0 <= i < rs_cap R -> rs_slots R !! Z.to_nat i = Some (reg_slot R i).
Proof.
  intros Hi. unfold reg_slot, rs_cap in *.
  destruct (lookup_lt_is_Some_2 (rs_slots R) (Z.to_nat i)) as [x Hx]; [lia|]. by rw Hx.
Qed.

Lemma slot_beyond R i : rs_cap R <= i -> reg_slot R i = free_slot.
Proof. intros Hi. unfold reg_slot, rs_cap in *. rw lookup_ge_None_2 //. lia. Qed.

Lemma cap_set i x R : rs_cap (r_set i x R) = rs_cap R.
Proof. unfold rs_cap, r_set. simpl. by rw length_insert. Qed.

Lemma sets_slot_set i x R : 0 <= i < rs_cap R -> sets_slot i x R (r_set i x R).
Proof. intros Hi j Hj. by apply reg_slot_set. Qed.

Lemma wf_hint_down i g R :
  registry_wf R -> 0 <= i < rs_cap R -> 0 <= g < 2 ^ 44 ->
  registry_wf (r_hint (Z.min i (rs_hint R)) (r_set i (Win.INVALID_SOCKET, g) R)).
Proof.
  intros Hwf Hi Hg. pose proof (gw_hint R Hwf). split.
  - change (rs_cap (r_set i (Win.INVALID_SOCKET, g) R) <= REG_MAX_FDS). rw cap_set. apply Hwf.
  - change (0 <= Z.min i (rs_hint R) <= rs_cap (r_set i (Win.INVALID_SOCKET, g) R)). rw cap_set. lia.
  - intros j. change (0 <= j < Z.min i (rs_hint R) -> ~ slot_free (r_set i (Win.INVALID_SOCKET, g) R) j).
    intros Hj. unfold slot_free. rw reg_slot_set; [|done|lia]. rw decide_False; [|lia].
    apply (gw_used R Hwf). lia.
  - intros j. change (0 <= (reg_slot (r_set i (Win.INVALID_SOCKET, g) R) j).2 < 2 ^ 44).
    unfold reg_slot, r_set. simpl. destruct (decide (Z.to_nat j = Z.to_nat i)) as [->|Hne].
    + rw list_lookup_insert_eq //. unfold rs_cap in Hi. lia.
    + rw list_lookup_insert_ne //. apply Hwf.
Qed.

(** A slot is given a socket, the hint moves to [h]. *)
Lemma wf_take i s g h R :
  registry_wf R -> 0 <= i < rs_cap R -> 0 <= g < 2 ^ 44 -> s <> Win.INVALID_SOCKET ->
  0 <= h <= rs_cap R -> (forall j, 0 <= j < h -> j <> i -> ~ slot_free R j) ->
  registry_wf (r_hint h (r_set i (s, g) R)).
Proof.
  intros Hwf Hi Hg Hs Hh Hused. split.
  - change (rs_cap (r_set i (s, g) R) <= REG_MAX_FDS). rw cap_set. apply Hwf.
  - change (0 <= h <= rs_cap (r_set i (s, g) R)). by rw cap_set.
  - intros j. change (0 <= j < h -> ~ slot_free (r_set i (s, g) R) j).
    intros Hj. unfold slot_free. rw reg_slot_set; [|done|lia]. case_decide; [done|]. by apply Hused.
  - intros j. change (0 <= (reg_slot (r_set i (s, g) R) j).2 < 2 ^ 44).
    unfold reg_slot, r_set. simpl. destruct (decide (Z.to_nat j = Z.to_nat i)) as [->|Hne].
    + rw list_lookup_insert_eq //. unfold rs_cap in Hi. lia.
    + rw list_lookup_insert_ne //. apply Hwf.
Qed.

Lemma wf_grow n R :
  registry_wf R -> rs_cap R + Z.of_nat n <= REG_MAX_FDS -> registry_wf (r_grow n R).
Proof.
  intros Hwf Hn. assert (rs_cap (r_grow n R) = rs_cap R + Z.of_nat n) as Hc.
  { unfold rs_cap, r_grow. simpl. rw length_app length_replicate. lia. }
  split.
  - lia.
  - rw Hc. pose proof (gw_hint R Hwf). simpl. lia.
  - intros j Hj. unfold slot_free. rw reg_slot_grow. by apply (gw_used R Hwf).
  - intros j. rw reg_slot_grow. apply Hwf.
Qed.

(** ** Operations on the registry *)

Section ops.
Context (Y : Z -> heapProp -> heapProp) `{!YieldMono Y}.

(** A call on the lock. *)
Lemma cwp_srw_lock {B} f args (k : unit -> co B) Q :
  cwp Y (k tt) Q ⊢ cwp Y (co_bind (sys f args ~;; Ret tt) k) Q.
Proof.
  iIntros "H". iApply cwp_bind. iApply cwp_sys. iIntros (v). iExact "H".
Qed.

Lemma wp_cas a v x c (Q : Z -> heapProp) :
  a ↦ v ∗ (a ↦ (if v =? c then x else v) -∗ Q v) ⊢ wp (InterlockedCompareExchange a x c) Q.
Proof.
  iIntros "[Ha HQ]". unfold InterlockedCompareExchange, when. wp_load. iApply wp_bind.
  destruct (v =? c); [wp_store|wp_norm]; by iApply "HQ".
Qed.

Lemma cwp_reg_init {B} (k : unit -> co B) R Q :
  is_registry R ∗ (is_registry R -∗ cwp Y (k tt) Q) ⊢ cwp Y (co_bind reg_init k) Q.
Proof.
  iIntros "[(%p & Hst & HR) HQ]". iApply cwp_bind.
  iApply (cwp_wand _ _ (fun _ => reg_state ↦ 2)%I). iSplitL "Hst".
  - unfold reg_init. cbn [cwp]. iApply wp_cas. iFrame "Hst". iIntros "Hst".
    iApply (cwp_while _ _ (fun _ => reg_state ↦ 2)%I tt with "Hst"). intros []. iIntros "Hst".
    cbn [cwp]. iApply wp_cas. iFrame "Hst". iIntros "Hst". done.
  - iIntros ([]) "Hst". iApply "HQ". iExists p. iFrame.
Qed.

(** *** Looking up *)

Definition token_socket (R : registry) (t : Z) : Z :=
  let '(s, g) := reg_slot R (Z.land t (Z.shiftl 1 REG_TOKEN_BITS - 1)) in
  if g =? Z.shiftr t REG_TOKEN_BITS then s else Win.INVALID_SOCKET.

Definition fd_token (R : registry) (fd : Z) : Z :=
  let idx := reg_index_from_fd fd in
  let '(s, g) := reg_slot R idx in
  if (idx <? 0) || (s =? Win.INVALID_SOCKET) then HEV_SYS_INVALID_TOKEN else token_of idx g.

Lemma token_index_range t : 0 <= Z.land t (Z.shiftl 1 REG_TOKEN_BITS - 1) < 2 ^ 20.
Proof. change (Z.shiftl 1 REG_TOKEN_BITS - 1) with (Z.ones 20). rw Z.land_ones //. apply Z.mod_pos_bound. lia. Qed.

Lemma cwp_token_to_socket R t :
  is_registry R ⊢ cwp Y (hev_sys_token_to_socket t) (fun s => ⌞s = token_socket R t⌟ ∗ is_registry R).
Proof.
  iIntros "HR". unfold hev_sys_token_to_socket, token_socket.
  pose proof (token_index_range t) as Hr. set (idx := Z.land t _) in *. clearbody idx.
  iApply cwp_reg_init. iFrame "HR". iIntros "(%p & Hst & Hs & Hc & Hh & (Hp & Hhd & Hl) & Hwf)".
  iApply cwp_srw_lock. cbn [cwp]. wp_load. cbn [cwp].
  destruct (Z.ltb_spec idx (rs_cap R)) as [Hlt|Hge].
  - pose proof (slot_lookup R idx (conj (proj1 Hr) Hlt)) as Hx. destruct (reg_slot R idx) as [s g].
    wp_load. iApply wp_bind. iApply (wp_load_gen _ _ _ _ (proj1 Hr) Hx). iFrame "Hl". iIntros "Hl".
    cbn [snd]. destruct (g =? _).
    + iApply (wp_load_socket _ _ _ _ (proj1 Hr) Hx). iFrame "Hl". iIntros "Hl". iApply cwp_srw_lock.
      cbn [cwp fst]. iSplitR; [done|]. iExists p. iFrame.
    + wp_norm. iApply cwp_srw_lock. cbn [cwp]. iSplitR; [done|]. iExists p. iFrame.
  - rw (slot_beyond R idx Hge). wp_norm. iApply cwp_srw_lock. cbn [cwp free_slot].
    iSplitR; [by destruct (0 =? _)|]. iExists p. iFrame.
Qed.

Lemma cwp_fd_to_token R fd :
  is_registry R ⊢ cwp Y (hev_sys_fd_to_token fd) (fun t => ⌞t = fd_token R fd⌟ ∗ is_registry R).
Proof.
  iIntros "HR". unfold hev_sys_fd_to_token, fd_token.
  iApply cwp_reg_init. iFrame "HR". iIntros "HR".
  assert (reg_index_from_fd fd < 2 ^ 20) as Hu.
  { unfold reg_index_from_fd, REG_FD_BASE, REG_MAX_FDS.
    destruct (_ || _) eqn:Hb; [lia|]. apply orb_false_iff in Hb as [_ Hb%Z.leb_gt]. lia. }
  set (idx := reg_index_from_fd fd) in *. clearbody idx.
  destruct (Z.ltb_spec idx 0) as [Hn|Hn].
  { cbn [cwp]. destruct (reg_slot R idx). by iFrame. }
  iDestruct "HR" as "(%p & Hst & Hs & Hc & Hh & (Hp & Hhd & Hl) & %Hwf)".
  iApply cwp_srw_lock. cbn [cwp]. wp_load. cbn [cwp orb].
  destruct (Z.ltb_spec idx (rs_cap R)) as [Hlt|Hge].
  - pose proof (slot_lookup R idx (conj Hn Hlt)) as Hx. pose proof (gw_gens R Hwf idx) as Hg.
    destruct (reg_slot R idx) as [s g]. cbn [snd] in Hg.
    wp_load. iApply wp_bind. iApply (wp_load_socket _ _ _ _ Hn Hx). iFrame "Hl". iIntros "Hl".
    cbn [fst]. destruct (Z.eqb_spec s Win.INVALID_SOCKET) as [->|Hs]; cbn [negb].
    + wp_norm. iApply cwp_srw_lock. cbn [cwp]. iSplitR; [done|]. iExists p. by iFrame.
    + iApply wp_bind. iApply (wp_load_gen _ _ _ _ Hn Hx). iFrame "Hl". iIntros "Hl". wp_norm.
      iApply cwp_srw_lock. cbn [cwp snd]. iSplitR; [iPureIntro; by apply token_make|].
      iExists p. by iFrame.
  - rw (slot_beyond R idx Hge). wp_norm. iApply cwp_srw_lock. cbn [cwp free_slot].
    iSplitR; [done|]. iExists p. by iFrame.
Qed.

(** *** Closing *)

Lemma cwp_fd_close_socket R fd :
  is_registry R ⊢ cwp Y (hev_sys_fd_close_socket fd) (fun s =>
    ∃ R', is_registry R' ∗
    let i := reg_index_from_fd fd in
    ⌞if i <? 0 then s = Win.INVALID_SOCKET /\ same_slots R R'
     else s = (reg_slot R i).1 /\ sets_slot i (Win.INVALID_SOCKET, (reg_slot R i).2) R R'⌟).
Proof.
  iIntros "HR". unfold hev_sys_fd_close_socket.
  iApply cwp_reg_init. iFrame "HR". iIntros "HR". set (i := reg_index_from_fd fd). clearbody i.
  destruct (Z.ltb_spec i 0) as [Hn|Hn].
  { cbn [cwp]. iExists R. iFrame. iPureIntro. by split. }
  iDestruct "HR" as "(%p & Hst & Hs & Hc & Hh & (Hp & Hhd & Hl) & %Hwf)".
  iApply cwp_srw_lock. cbn [cwp]. wp_load. cbn [cwp].
  destruct (Z.ltb_spec i (rs_cap R)) as [Hlt|Hge].
  - pose proof (slot_lookup R i (conj Hn Hlt)) as Hx. pose proof (gw_gens R Hwf i) as Hg.
    wp_load. iApply wp_bind. iApply (wp_load_socket _ _ _ _ Hn Hx). iFrame "Hl". iIntros "Hl".
    iApply wp_bind. iApply (wp_store_socket _ _ _ _ Hn Hx). iFrame "Hl". iIntros "Hl". wp_load.
    iAssert (reg_hint ↦ Z.min i (rs_hint R) -∗
             is_registry (r_hint (Z.min i (rs_hint R)) (r_set i (Win.INVALID_SOCKET, (reg_slot R i).2) R)))%I
      with "[Hst Hs Hc Hp Hhd Hl]" as "HR".
    { iIntros "Hh". iExists p. unfold slot_array.
      assert (rs_cap (r_hint (Z.min i (rs_hint R)) (r_set i (Win.INVALID_SOCKET, (reg_slot R i).2) R))
              = rs_cap R) as -> by apply cap_set.
      cbn [rs_slots rs_hint r_hint r_set]. rw length_insert. iFrame. iPureIntro.
      by apply wf_hint_down. }
    iApply wp_bind. unfold when. destruct (Z.ltb_spec i (rs_hint R)) as [Hlo|Hhi].
    + wp_store. rw Z.min_l; [|lia]. iDestruct ("HR" with "Hh") as "HR". iApply cwp_srw_lock. cbn [cwp].
      iExists _. iFrame "HR". iPureIntro. split; [done|]. intros j Hj. exact (sets_slot_set i _ R (conj Hn Hlt) j Hj).
    + wp_norm. rw Z.min_r; [|lia]. iDestruct ("HR" with "Hh") as "HR". iApply cwp_srw_lock. cbn [cwp].
      iExists _. iFrame "HR". iPureIntro. split; [done|]. intros j Hj. exact (sets_slot_set i _ R (conj Hn Hlt) j Hj).
  - wp_norm. iApply cwp_srw_lock. cbn [cwp]. iExists R. iSplitL; [iExists p; by iFrame|]. iPureIntro.
    rw (slot_beyond R i Hge). split; [done|]. intros j Hj. case_decide; [|done]. subst.
    by rw slot_beyond.
Qed.
(** *** Growing *)

Lemma array_block p l :
  slot_array p l ⊢ ∃ vs, ⌞length vs = (16 * length l)%nat⌟ ∗ block_with p vs ∗
    ⌞forall b ws, bytes b (vs ++ ws) ⊢ slots_at b l ∗ bytes (b + 16 * Z.of_nat (length l)) ws⌟.
Proof.
  iIntros "(Hp & Hh & Hl)". iDestruct (slots_to_bytes with "Hl") as "(%vs & %Hlen & Hl & %Hb)".
  iExists vs. unfold block_with. rw Hlen. assert (Z.of_nat (16 * length l) = 16 * Z.of_nat (length l)) as -> by lia.
  iFrame. iPureIntro. split; [done|]. intros b ws. rw bytes_app Hb Hlen. iIntros "[$ H]".
  by assert (Z.of_nat (16 * length l) = 16 * Z.of_nat (length l)) as -> by lia.
Qed.

Lemma new_capacity_grows cap need :
  0 <= cap <= need -> need < REG_MAX_FDS -> need < new_capacity cap need <= REG_MAX_FDS.
Proof.
  unfold new_capacity, REG_MAX_FDS, REG_INITIAL_CAP, is_true. cbv zeta. intros Hc Hn.
  destruct (Z.eqb_spec cap 0); cbn [negb]; repeat case_match; lia.
Qed.

Lemma cwp_grow R need :
  rs_cap R <= need ->
  is_registry R ⊢ cwp Y (reg_grow_locked need) (fun r =>
    (⌞r = -1⌟ ∗ is_registry R) ∨
    (∃ n, ⌞r = 0 /\ need < rs_cap (r_grow n R)⌟ ∗ is_registry (r_grow n R))).
Proof.
  iIntros (Hneed) "HR". unfold reg_grow_locked.
  destruct (Z.leb_spec REG_MAX_FDS need) as [Hmax|Hmax].
  { cbn [cwp]. iLeft. by iFrame. }
  iDestruct "HR" as "(%p & Hst & Hs & Hc & Hh & Ha & %Hwf)". cbn [cwp]. wp_load.
  assert (0 <= rs_cap R) as Hcap by (unfold rs_cap; lia).
  destruct (new_capacity_grows (rs_cap R) need) as [Hlo Hhi]; [lia|done|].
  set (nc := new_capacity (rs_cap R) need) in *. clearbody nc.
  destruct (Z.leb_spec nc (rs_cap R)) as [|_]; [lia|]. cbn [cwp]. wp_load.
  iDestruct (array_block with "Ha") as "(%vs & %Hvs & Hb & %Hslots)".
  set (k := length (rs_slots R)) in *.
  set (n := Z.to_nat (nc - rs_cap R)). assert (rs_cap R = Z.of_nat k) as Hk by done.
  assert (SIZEOF_REG_SLOT * nc = Z.of_nat (16 * (k + n))) as -> by (unfold SIZEOF_REG_SLOT; lia).
  iApply cwp_bind. unfold realloc, call. cbn [cwp co_bind].
  iApply (ext_wp_realloc _ vs); [lia|lia|]. iFrame "Hb". iIntros (a) "[[%Ha Hb]|(%ws & %Ha & Hb)]".
  - rw Ha. cbn [is_true negb Z.eqb cwp]. iLeft. iSplitR; [done|]. iExists p. iFrame. iSplitL; [|done].
    iDestruct "Hb" as "($ & Hhd & Hb)". rw Hvs.
    iDestruct (Hslots p [] with "[Hb]") as "[$ _]"; [by rw app_nil_r|].
    by assert (Z.of_nat (16 * k) = 16 * Z.of_nat k) as -> by lia.
  - destruct Ha as [Ha Hlen]. set (q := a_ret a) in *. clearbody q. unfold is_true.
    rw (proj2 (Z.eqb_neq q 0) Ha). cbn [negb cwp]. iDestruct "Hb" as "(Hq & Hhd & Hb)".
    iDestruct (Hslots with "Hb") as "[Hl Hb]".
    iDestruct (bytes_to_slots n _ ws with "Hb") as "(%l2 & Hl2 & %Hl2)"; [lia|].
    iAssert (slots_at q (rs_slots R ++ l2))%I with "[Hl Hl2]" as "Hl"; [iApply slots_app; by iFrame|].
    assert (length (rs_slots R ++ l2) - n = k)%nat as Hdiff by (rw length_app; lia).
    assert (zrange (rs_cap R) (nc - rs_cap R)
            = zrange (Z.of_nat (length (rs_slots R ++ l2) - n)) (Z.of_nat n)) as -> by (f_equal; lia).
    iApply (wp_clear_slots q _ n); [rw length_app; lia|]. iFrame "Hl". iIntros "Hl". cbn [cwp].
    rw Hdiff take_app_length'; [|done]. wp_store. cbn [cwp]. wp_store. cbn [cwp]. iRight. iExists n.
    assert (rs_cap (r_grow n R) = nc) as Hcap'.
    { unfold rs_cap, r_grow. simpl. rw length_app length_replicate. lia. }
    iSplitR; [iPureIntro; split; [done|lia]|]. iExists q. rw Hcap'. iFrame.
    iSplitL; [|iPureIntro; apply wf_grow; [done|lia]].
    rw length_app Hlen. unfold rs_cap in Hcap'. cbn [rs_slots r_grow] in Hcap' |- *. rw Hcap'.
    by assert (Z.of_nat (16 * (k + n)) = 16 * nc) as -> by lia.
Qed.
(** *** Registering *)

(** Slot [i], the least free one of [R], is given to [s]. *)
Definition taken (R : registry) (i s : Z) (R' : registry) : Prop :=
  0 <= i < REG_MAX_FDS /\ slot_free R i /\ (forall j, 0 <= j < i -> ~ slot_free R j) /\
  sets_slot i (s, next_gen (reg_slot R i).2) R R'.

Definition used_below (R : registry) (i : Z) : Prop := forall j, 0 <= j < i -> ~ slot_free R j.

(** The rest of the registry while a slot is given away. *)
Definition registry_at (p : Z) (R : registry) : heapProp :=
  (reg_state ↦ 2 ∗ reg_slots ↦ p ∗ reg_capacity ↦ rs_cap R ∗ slot_array p (rs_slots R))%I.

Lemma wp_take_slot p R i s h (Q : Z -> heapProp) :
  registry_wf R -> 0 <= i < rs_cap R -> used_below R i -> s <> Win.INVALID_SOCKET ->
  registry_at p R ∗ reg_hint ↦ h ∗
  (is_registry (r_hint (i + 1) (r_set i (s, next_gen (reg_slot R i).2) R)) -∗ Q (REG_FD_BASE + i))
  ⊢ wp (take_slot p i s) Q.
Proof.
  iIntros (Hwf Hi Hused Hs) "((Hst & Hsl & Hc & Hp & Hhd & Hl) & Hh & HQ)". unfold take_slot.
  pose proof (slot_lookup R i Hi) as Hx. pose proof (gw_gens R Hwf i) as Hg.
  set (x := reg_slot R i) in *. clearbody x. destruct Hi as [Hi0 Hi1].
  iApply wp_bind. iApply (wp_store_socket _ _ _ _ Hi0 Hx). iFrame "Hl". iIntros "Hl".
  assert (<[Z.to_nat i:=(s, x.2)]> (rs_slots R) !! Z.to_nat i = Some (s, x.2)) as Hx2.
  { apply list_lookup_insert_eq. unfold rs_cap in Hi1. lia. }
  iApply wp_bind. iApply (wp_load_gen _ _ _ _ Hi0 Hx2). iFrame "Hl". iIntros "Hl".
  iApply wp_bind. iApply (wp_store_gen _ _ _ _ Hi0 Hx2). iFrame "Hl". iIntros "Hl".
  cbn [fst snd]. rw list_insert_insert_eq next_gen_mask //. wp_store. iApply "HQ".
  iExists p. unfold slot_array.
  assert (rs_cap (r_hint (i + 1) (r_set i (s, next_gen x.2) R)) = rs_cap R) as -> by apply cap_set.
  cbn [rs_slots rs_hint r_hint r_set]. rw length_insert. iFrame. iPureIntro.
  apply wf_take; [done|done|apply next_gen_range|done|lia|]. intros j Hj Hne. apply Hused. lia.
Qed.

Lemma wf_hint h R :
  registry_wf R -> 0 <= h <= rs_cap R -> used_below R h -> registry_wf (r_hint h R).
Proof. intros [Hc Hh Hu Hg] H1 H2. by split. Qed.

(** A search from the hint on sees every free slot. *)
Lemma searched_below R i :
  registry_wf R -> i <= rs_cap R ->
  (forall j, rs_hint R <= j < i -> fst <$> rs_slots R !! Z.to_nat j <> Some Win.INVALID_SOCKET) ->
  used_below R i.
Proof.
  intros Hwf Hi Hnot j Hj. destruct (decide (j < rs_hint R)); [apply (gw_used R Hwf); lia|].
  specialize (Hnot j ltac:(lia)). rw slot_lookup in Hnot; [|lia]. intros Hj'. apply Hnot. simpl. by rw Hj'.
Qed.

Lemma cwp_socket_to_fd R s :
  is_registry R ⊢ cwp Y (hev_sys_socket_to_fd s) (fun r =>
    ∃ R', is_registry R' ∗
    ⌞(r = -1 /\ same_slots R R') \/
     (exists i, r = (REG_FD_BASE + i)%Z /\ s <> Win.INVALID_SOCKET /\ taken R i s R')⌟).
Proof.
  iIntros "HR". unfold hev_sys_socket_to_fd. destruct (Z.eqb_spec s Win.INVALID_SOCKET) as [Hs|Hs].
  { cbn [cwp]. iExists R. iFrame. iPureIntro. by left. }
  iApply cwp_reg_init. iFrame "HR". iIntros "(%p & Hst & Hsl & Hc & Hh & (Hp & Hhd & Hl) & %Hwf)".
  pose proof (gw_hint R Hwf) as Hhint. assert (rs_cap R = Z.of_nat (length (rs_slots R))) as Hcap by done.
  iApply cwp_srw_lock. cbn [cwp]. wp_load. cbn [cwp]. wp_load. cbn [cwp]. wp_load. cbn [cwp].
  assert (rs_cap R - rs_hint R = Z.of_nat (Z.to_nat (rs_cap R - rs_hint R))) as -> by lia.
  iApply (wp_find_slot p (rs_slots R) (rs_hint R)); [lia|lia|]. iFrame "Hl". iIntros ([i|]) "Hl %Hf".
  - destruct Hf as (Hi & Hfree & Hnot).
    assert (used_below R i) as Hused by (apply searched_below; [done|lia|done]).
    assert (slot_free R i) as Hfr.
    { rw slot_lookup in Hfree; [|lia]. unfold slot_free. simpl in Hfree. congruence. }
    cbn [act cwp co_bind]. iApply (wp_take_slot p R i s); [done|lia|done|done|]. iFrame.
    iIntros "HR". cbn [cwp]. iApply cwp_srw_lock. cbn [cwp]. iExists _. iFrame "HR". iPureIntro. right.
    exists i. split; [done|]. split; [done|]. pose proof (gw_cap R Hwf).
    split; [lia|]. split; [done|]. split; [done|]. intros j Hj. apply sets_slot_set; [lia|done].
  - assert (used_below R (rs_cap R)) as Hused.
    { apply searched_below; [done|lia|]. intros j Hj. apply Hf. lia. }
    iApply cwp_bind. cbn [cwp]. wp_store. iApply cwp_bind.
    set (R1 := r_hint (rs_cap R) R). assert (registry_wf R1) as Hwf1 by (apply wf_hint; [done|lia|done]).
    iApply cwp_wand. iSplitL.
    { iApply (cwp_grow R1 (rs_cap R)); [done|]. iExists p. by iFrame. }
    iIntros (r) "[[-> HR]|(%n & %Hn & (%q & Hst & Hsl & Hc & Hh & Ha & %Hwf2))]".
    + cbn [Z.eqb cwp]. iApply cwp_srw_lock. cbn [cwp]. iExists R1. iFrame. iPureIntro. by left.
    + destruct Hn as [-> Hn]. set (R2 := r_grow n R1) in *. cbn [Z.eqb cwp]. wp_load. cbn [act cwp].
      assert (forall j, reg_slot R2 j = reg_slot R j) as Heq by (intros j; exact (reg_slot_grow n R1 j)).
      assert (used_below R2 (rs_cap R)) as Hused2.
      { intros j Hj. unfold slot_free. rw Heq. by apply Hused. }
      iApply (wp_take_slot q R2 (rs_cap R) s); [done|lia|done|done|]. iFrame.
      iIntros "HR". cbn [cwp]. iApply cwp_srw_lock. cbn [cwp]. iExists _. iFrame "HR". iPureIntro. right.
      exists (rs_cap R). split; [done|]. split; [done|]. pose proof (gw_cap R2 Hwf2).
      split; [lia|]. split; [unfold slot_free; by rw slot_beyond|]. split; [done|].
      intros j Hj. rw -!Heq. apply sets_slot_set; [lia|done].
Qed.
(** *** Replacing *)

Lemma cwp_errno_fail v (Q : Z -> heapProp) : Q (-1) ⊢ cwp Y (errno_fail v) Q.
Proof.
  iIntros "HQ". unfold errno_fail, assign_errno. iApply cwp_bind. iApply cwp_sys.
  iIntros (e). by cbn [cwp].
Qed.

Lemma cwp_replace_slot {B} (k : Z -> co B) p R i s old o Q :
  registry_wf R -> 0 <= i < rs_cap R -> s <> Win.INVALID_SOCKET ->
  registry_at p R ∗ reg_hint ↦ rs_hint R ∗ old ↦ o ∗
  (is_registry (r_set i (s, next_gen (reg_slot R i).2) R) -∗ old ↦ (reg_slot R i).1 -∗ cwp Y (k 0) Q)
  ⊢ cwp Y (slots <! load reg_slots ;;
           prev <! load (slot_socket (slot_at slots i)) ;;
           store old prev !;;
           store (slot_socket (slot_at slots i)) s !;;
           gen <! load (slot_gen (slot_at slots i)) ;;
           store (slot_gen (slot_at slots i)) (Z.land (w64 (gen + 1)) REG_GEN_MASK) !;;
           k 0) Q.
Proof.
  iIntros (Hwf Hi Hs) "((Hst & Hsl & Hc & Hp & Hhd & Hl) & Hh & Ho & HQ)".
  pose proof (slot_lookup R i Hi) as Hx. pose proof (gw_gens R Hwf i) as Hg.
  set (x := reg_slot R i) in *. clearbody x. destruct Hi as [Hi0 Hi1].
  cbn [cwp]. wp_load. cbn [cwp]. iApply (wp_load_socket _ _ _ _ Hi0 Hx). iFrame "Hl". iIntros "Hl".
  cbn [cwp]. wp_store. cbn [cwp]. iApply (wp_store_socket _ _ _ _ Hi0 Hx). iFrame "Hl". iIntros "Hl".
  assert (<[Z.to_nat i:=(s, x.2)]> (rs_slots R) !! Z.to_nat i = Some (s, x.2)) as Hx2.
  { apply list_lookup_insert_eq. unfold rs_cap in Hi1. lia. }
  cbn [cwp]. iApply (wp_load_gen _ _ _ _ Hi0 Hx2). iFrame "Hl". iIntros "Hl".
  cbn [cwp]. iApply (wp_store_gen _ _ _ _ Hi0 Hx2). iFrame "Hl". iIntros "Hl".
  cbn [fst snd]. rw list_insert_insert_eq next_gen_mask //. iApply ("HQ" with "[-Ho] Ho").
  iExists p. unfold slot_array. rw cap_set. cbn [rs_slots rs_hint r_set]. rw length_insert.
  iFrame. iPureIntro. pose proof (gw_hint R Hwf).
  assert (r_set i (s, next_gen x.2) R = r_hint (rs_hint R) (r_set i (s, next_gen x.2) R)) as -> by done.
  apply wf_take; [done|done|apply next_gen_range|done|lia|]. intros j Hj _. by apply (gw_used R Hwf).
Qed.

Lemma cwp_fd_replace R fd s old o :
  s <> Win.INVALID_SOCKET ->
  is_registry R ∗ old ↦ o ⊢ cwp Y (hev_sys_fd_replace fd s old) (fun r =>
    ∃ R' o', is_registry R' ∗ old ↦ o' ∗
    let i := reg_index_from_fd fd in
    ⌞(r = -1 /\ o' = o /\ same_slots R R' /\ (i < 0 \/ rs_cap R <= i)) \/
     (r = 0 /\ 0 <= i /\ o' = (reg_slot R i).1 /\
      sets_slot i (s, next_gen (reg_slot R i).2) R R')⌟).
Proof.
  iIntros (Hs) "[HR Ho]". unfold hev_sys_fd_replace. set (i := reg_index_from_fd fd). clearbody i.
  destruct (Z.ltb_spec i 0) as [Hn|Hn].
  { iApply cwp_errno_fail. iExists R, o. iFrame. iPureIntro. left. split_and!; [done..|by left]. }
  iApply cwp_reg_init. iFrame "HR". iIntros "(%p & Hst & Hsl & Hc & Hh & Ha & %Hwf)".
  iApply cwp_srw_lock. cbn [cwp]. wp_load. destruct (Z.leb_spec (rs_cap R) i) as [Hge|Hlt].
  - iApply cwp_bind. iApply cwp_wand. iSplitR "Ho".
    { iApply (cwp_grow R i); [done|]. iExists p. by iFrame. }
    iIntros (r) "[[-> HR]|(%n & %Hgr & (%q & Hst & Hsl & Hc & Hh & Ha & %Hwf2))]".
    + cbn [Z.ltb Z.compare]. iApply cwp_srw_lock. iApply cwp_errno_fail. iExists R, o. iFrame.
      iPureIntro. left. split_and!; [done..|by right].
    + destruct Hgr as [-> Hgr]. set (R2 := r_grow n R) in *. cbn [Z.ltb Z.compare].
      assert (forall j, reg_slot R2 j = reg_slot R j) as Heq by (intros j; exact (reg_slot_grow n R j)).
      iApply (cwp_replace_slot (fun r => ReleaseExclusive ~;; Ret r) q R2 i s old o _ Hwf2 (conj Hn Hgr) Hs).
      iFrame. iIntros "HR Ho". iApply cwp_srw_lock. cbn [cwp]. iExists _, _. iFrame. iPureIntro. right.
      rw Heq. split_and!; [done|done|done|]. intros j Hj. rw -(Heq i) -(Heq j). apply sets_slot_set; [lia|done].
  - cbn [co_bind Z.ltb Z.compare].
    iApply (cwp_replace_slot (fun r => ReleaseExclusive ~;; Ret r) p R i s old o _ Hwf (conj Hn Hlt) Hs).
    iFrame. iIntros "HR Ho". iApply cwp_srw_lock. cbn [cwp]. iExists _, _. iFrame. iPureIntro. right.
    split_and!; [done|done|done|]. intros j Hj. apply sets_slot_set; [lia|done].
Qed.

(** *** Histories *)

(** A call on the registry; [old] is where a replaced socket goes. *)
Inductive fd_op : Type :=
| FdRegister (s : Z)
| FdClose (fd : Z)
| FdReplace (fd s : Z)
| FdLookup (fd : Z).

Definition fd_op_run (old : Z) (op : fd_op) : co unit :=
  match op with
  | FdRegister s => hev_sys_socket_to_fd s ~;; Ret tt
  | FdClose fd => hev_sys_fd_close_socket fd ~;; Ret tt
  | FdReplace fd s => hev_sys_fd_replace fd s old ~;; Ret tt
  | FdLookup fd => hev_sys_fd_to_token fd ~;; Ret tt
  end.

(** Only a socket replaces another. *)
Definition fd_op_ok (op : fd_op) : Prop :=
  match op with FdReplace _ s => s <> Win.INVALID_SOCKET | _ => True end.

(** The operation takes descriptor [fd] from its socket. *)
Definition fd_op_ends (fd : Z) (op : fd_op) : Prop :=
  match op with FdClose fd' | FdReplace fd' _ => fd' = fd | _ => False end.

Definition fd_op_result (op : fd_op) (R R' : registry) : Prop :=
  match op with
  | FdRegister s => same_slots R R' \/ exists i, s <> Win.INVALID_SOCKET /\ taken R i s R'
  | FdClose fd =>
      let i := reg_index_from_fd fd in
      if i <? 0 then same_slots R R' else sets_slot i (Win.INVALID_SOCKET, (reg_slot R i).2) R R'
  | FdReplace fd s =>
      let i := reg_index_from_fd fd in
      same_slots R R' \/ (0 <= i /\ sets_slot i (s, next_gen (reg_slot R i).2) R R')
  | FdLookup _ => same_slots R R'
  end.

Lemma cwp_fd_op old op R o :
  fd_op_ok op ->
  is_registry R ∗ old ↦ o ⊢ cwp Y (fd_op_run old op) (fun _ =>
    ∃ R' o', is_registry R' ∗ old ↦ o' ∗ ⌞fd_op_result op R R'⌟).
Proof.
  iIntros (Hok) "[HR Ho]". destruct op as [s|fd|fd s|fd]; cbn [fd_op_run fd_op_result]; iApply cwp_call.
  - iSplitL "HR"; [by iApply cwp_socket_to_fd|]. iIntros (r) "(%R' & HR & %H)". cbn [cwp].
    iExists R', o. iFrame. iPureIntro. destruct H as [[_ H]|(i & _ & H)]; [by left|by right; exists i].
  - iSplitL "HR"; [by iApply cwp_fd_close_socket|]. iIntros (r) "(%R' & HR & %H)". cbn [cwp].
    iExists R', o. iFrame. iPureIntro. cbv zeta in H. by destruct (_ <? 0); destruct H.
  - iSplitL "HR Ho"; [by iApply (cwp_fd_replace with "[$HR $Ho]")|].
    iIntros (r) "(%R' & %o' & HR & Ho & %H)". cbn [cwp]. iExists R', o'. iFrame. iPureIntro. tauto.
  - iSplitL "HR"; [by iApply cwp_fd_to_token|]. iIntros (r) "[_ HR]". cbn [cwp].
    iExists R, o. iFrame. done.
Qed.
End ops.

(** ** Slots over time *)

(** Slot [i] still has its registration: socket [s], generation [g]. *)
Definition slot_kept (i s g : Z) (R : registry) : Prop := reg_slot R i = (s, g).

(** Slot [i] has lost its registration of generation [g], at most [n]
    registrations ago. *)
Definition slot_lost (i g : Z) (n : nat) (R : registry) : Prop :=
  exists m : nat, (m <= n)%nat /\ (reg_slot R i).2 = (g + Z.of_nat m) mod 2 ^ 44 /\
    (m = 0%nat -> (reg_slot R i).1 = Win.INVALID_SOCKET).

Lemma next_gen_add g m :
  next_gen ((g + Z.of_nat m) mod 2 ^ 44) = (g + Z.of_nat (S m)) mod 2 ^ 44.
Proof. unfold next_gen. rw Zplus_mod_idemp_l. f_equal. lia. Qed.

Lemma kept_op i fd s g op R R' :
  0 <= i -> reg_index_from_fd fd = i -> s <> Win.INVALID_SOCKET ->
  (forall fd', fd_op_ends fd' op -> reg_index_from_fd fd' <> i) ->
  fd_op_result op R R' -> slot_kept i s g R -> slot_kept i s g R'.
Proof.
  unfold slot_kept. intros Hi Hfd Hs Hne Hr Hk. destruct op as [s'|fd'|fd' s'|fd']; cbn in Hr, Hne.
  - destruct Hr as [H|(j & _ & _ & Hfree & _ & H)]; rw H //. rw decide_False //. intros ->.
    unfold slot_free in Hfree. by rw Hk in Hfree.
  - specialize (Hne fd' eq_refl). destruct (_ <? 0); rw Hr //. by rw decide_False.
  - specialize (Hne fd' eq_refl). destruct Hr as [H|[_ H]]; rw H //. by rw decide_False.
  - by rw Hr.
Qed.

Lemma lost_op i g n op R R' :
  0 <= i -> fd_op_result op R R' -> slot_lost i g n R -> slot_lost i g (S n) R'.
Proof.
  unfold slot_lost. intros Hi Hr (m & Hm & Hg & Hz).
  assert (forall R', reg_slot R' i = reg_slot R i -> slot_lost i g (S n) R') as Hsame.
  { intros R0 H0. exists m. rw H0. split; [lia|by split]. }
  assert (forall s, reg_slot R' i = (s, next_gen (reg_slot R i).2) -> slot_lost i g (S n) R') as Hnew.
  { intros s H. exists (S m). rw H /= Hg next_gen_add. split; [lia|]. by split. }
  destruct op as [s'|fd'|fd' s'|fd']; cbn in Hr.
  - destruct Hr as [H|(j & _ & _ & _ & _ & H)]; [by apply Hsame, H|]. specialize (H i Hi).
    case_decide; [subst; by eapply Hnew|by apply Hsame].
  - destruct (_ <? 0); [by apply Hsame, Hr|]. specialize (Hr i Hi). case_decide; [|by apply Hsame].
    subst. exists m. rw Hr /=. split; [lia|]. by split.
  - destruct Hr as [H|[_ H]]; [by apply Hsame, H|]. specialize (H i Hi).
    case_decide; [subst; by eapply Hnew|by apply Hsame].
  - by apply Hsame, Hr.
Qed.

Lemma kept_socket i s g R : 0 <= i < 2 ^ 20 -> slot_kept i s g R -> token_socket R (token_of i g) = s.
Proof.
  intros Hi Hk. unfold token_socket. rw token_index // Hk token_gen // Z.eqb_refl //.
Qed.

Lemma lost_socket i g n R :
  0 <= i < 2 ^ 20 -> 0 <= g < 2 ^ 44 -> Z.of_nat n < 2 ^ 44 -> slot_lost i g n R ->
  token_socket R (token_of i g) = Win.INVALID_SOCKET.
Proof.
  intros Hi Hg Hn (m & Hm & Hgen & Hz). unfold token_socket. rw token_index // token_gen //.
  destruct (reg_slot R i) as [s g']. cbn [fst snd] in *. destruct (Z.eqb_spec g' g) as [->|]; [|done].
  apply Hz. assert (Z.of_nat m < 2 ^ 44) as Hm' by lia. clear - Hgen Hg Hm'.
  assert (Z.of_nat m = 0) as H0 by (div_lia). lia.
Qed.

(** ** Histories *)

Fixpoint fd_history (old : Z) (ops : list fd_op) : co unit :=
  match ops with
  | [] => Ret tt
  | op :: ops => fd_op_run old op ~;; fd_history old ops
  end.

Section history.
Context (Y : Z -> heapProp -> heapProp) `{!YieldMono Y}.

(** A fact [P n] of the slots that each operation carries to [P (S n)]. *)
Lemma cwp_history (P : nat -> registry -> Prop) old ops n R o :
  Forall fd_op_ok ops ->
  (forall op m R R', op ∈ ops -> fd_op_result op R R' -> P m R -> P (S m) R') ->
  P n R ->
  is_registry R ∗ old ↦ o ⊢ cwp Y (fd_history old ops) (fun _ =>
    ∃ R' o', is_registry R' ∗ old ↦ o' ∗ ⌞P (n + length ops)%nat R'⌟).
Proof.
  revert n R o. induction ops as [|op ops IH]; intros n R o Hok Hstep HP; cbn [fd_history length].
  { iIntros "[HR Ho]". cbn [cwp]. iExists R, o. iFrame. by rw Nat.add_0_r. }
  apply Forall_cons in Hok as [Hop Hok]. iIntros "H". iApply cwp_call. iSplitL.
  { iApply (cwp_fd_op Y old op R o with "H"). done. }
  iIntros (_) "(%R' & %o' & HR & Ho & %Hr)".
  assert (n + S (length ops) = S n + length ops)%nat as -> by lia.
  iApply (IH (S n) R' o' with "[$HR $Ho]"); [done| |].
  - intros op' m R1 R2 Hin. apply Hstep. by constructor.
  - apply (Hstep op n R R'); [by constructor|done|done].
Qed.
End history.

(** ** A token, while its registration lasts and after *)

(** How a registration ends: by a close, or because the descriptor is given
    another socket. *)
Inductive fd_end : Type := EndClose | EndReplace (s : Z).

(** The socket that the descriptor had. *)
Definition fd_end_run (old fd : Z) (e : fd_end) : co Z :=
  match e with
  | EndClose => hev_sys_fd_close_socket fd
  | EndReplace s => hev_sys_fd_replace fd s old ~;; v <! load old ;; Ret v
  end.

Definition fd_end_ok (e : fd_end) : Prop :=
  match e with EndClose => True | EndReplace s => s <> Win.INVALID_SOCKET end.

Definition token_life (old fd : Z) (before : list fd_op) (e : fd_end) (after : list fd_op) :
    co (Z * Z * Z) :=
  t <~ hev_sys_fd_to_token fd ;;
  fd_history old before ~;;
  a <~ hev_sys_token_to_socket t ;;
  c <~ fd_end_run old fd e ;;
  fd_history old after ~;;
  b <~ hev_sys_token_to_socket t ;;
  Ret (a, c, b).

Lemma index_inj fd fd' :
  0 <= reg_index_from_fd fd -> reg_index_from_fd fd' = reg_index_from_fd fd -> fd' = fd.
Proof. unfold reg_index_from_fd. repeat case_match; lia. Qed.

Lemma index_range fd : 0 <= reg_index_from_fd fd -> 0 <= reg_index_from_fd fd < 2 ^ 20.
Proof.
  unfold reg_index_from_fd, REG_FD_BASE, REG_MAX_FDS. destruct (_ || _) eqn:Hb; [lia|].
  apply orb_false_iff in Hb as [Hb1%Z.ltb_ge Hb2%Z.leb_gt]. lia.
Qed.

Lemma fd_token_of R fd s g :
  0 <= reg_index_from_fd fd -> reg_slot R (reg_index_from_fd fd) = (s, g) -> s <> Win.INVALID_SOCKET ->
  fd_token R fd = token_of (reg_index_from_fd fd) g.
Proof.
  intros Hi Hx Hs. unfold fd_token. rw Hx (proj2 (Z.ltb_ge _ _) Hi) (proj2 (Z.eqb_neq _ _) Hs) //.
Qed.

(** The end of the registration gives its socket back. *)
Lemma cwp_fd_end old fd e s g R o :
  let i := reg_index_from_fd fd in
  0 <= i -> reg_slot R i = (s, g) -> s <> Win.INVALID_SOCKET -> 0 <= g < 2 ^ 44 -> fd_end_ok e ->
  is_registry R ∗ old ↦ o ⊢ cwp no_yield (fd_end_run old fd e) (fun c => ⌞c = s⌟ ∗
    ∃ R' o', is_registry R' ∗ old ↦ o' ∗ ⌞slot_lost i g 1 R'⌟).
Proof.
  intros i Hi Hx Hs Hg He. iIntros "[HR Ho]". destruct e as [|s']; cbn [fd_end_run].
  - iApply cwp_wand. iSplitL "HR"; [by iApply cwp_fd_close_socket|].
    iIntros (c) "(%R2 & HR & %Hc)". cbv zeta in Hc. fold i in Hc.
    rw (proj2 (Z.ltb_ge i 0) Hi) in Hc. destruct Hc as [-> Hset]. rw Hx in Hset |- *.
    iSplitR; [done|]. iExists R2, o. iFrame. iPureIntro. exists 0%nat.
    rw (Hset i Hi) decide_True // Z.add_0_r Z.mod_small //. split; [lia|done].
  - iApply cwp_call. iSplitL; [iApply (cwp_fd_replace with "[$HR $Ho]"); done|].
    iIntros (r) "(%R2 & %o2 & HR & Ho & %Hc)". cbv zeta in Hc. fold i in Hc.
    destruct Hc as [(_ & _ & _ & [Hn|Hn])|(_ & _ & -> & Hset)]; [lia| |].
    + rw (slot_beyond R i Hn) in Hx. injection Hx as <- _. by elim Hs.
    + rw Hx in Hset |- *. cbn [cwp]. wp_load. cbn [cwp]. iSplitR; [done|].
      iExists R2, s. iFrame. iPureIntro. exists 1%nat.
      rw (Hset i Hi) decide_True //.
Qed.

(** C25. A token made for a descriptor gives its socket for as long as no call
    closes or replaces that descriptor, whatever other descriptors are
    registered, closed, replaced or looked up meanwhile.  Once the descriptor
    is closed, or replaced to name another socket, the token gives no socket,
    even when its number has been given to others since, for fewer than
    2^44 - 1 further calls: then its generation could come round. *)
Theorem token_names_registration old fd s g before e after R o :
  let i := reg_index_from_fd fd in
  0 <= i -> reg_slot R i = (s, g) -> s <> Win.INVALID_SOCKET -> 0 <= g < 2 ^ 44 ->
  Forall fd_op_ok (before ++ after) -> Forall (fun op => ~ fd_op_ends fd op) before ->
  fd_end_ok e -> Z.of_nat (length after) < 2 ^ 44 - 1 ->
  {{{ is_registry R ∗ old ↦ o }}}
    token_life old fd before e after @ no_yield
  {{{ r, ⌞r = (s, s, Win.INVALID_SOCKET)⌟ ∗ ∃ R' o', is_registry R' ∗ old ↦ o' }}}.
Proof.
  intros i Hi Hx Hs Hg [Hok1 Hok2]%Forall_app Hkeep He Hlen. pose proof (index_range fd Hi) as Hr.
  unfold ctriple, token_life. iIntros "[HR Ho]". iApply cwp_call.
  iSplitL "HR"; [by iApply cwp_fd_to_token|]. iIntros (t) "[-> HR]".
  rw (fd_token_of R fd s g Hi Hx Hs). fold i in Hr |- *. iApply cwp_call. iSplitL.
  { iApply (cwp_history _ (fun _ => slot_kept i s g) old before 0%nat R o with "[$HR $Ho]");
      [done| |exact Hx].
    intros op _ R1 R2 Hin Hres. apply (kept_op i fd s g op R1 R2 Hi eq_refl Hs); [|done].
    intros fd' Hends Heq. apply (index_inj _ _ Hi) in Heq. subst fd'.
    rw Forall_forall in Hkeep. by apply (Hkeep op). }
  iIntros (_) "(%R1 & %o1 & HR & Ho & %Hk)". iApply cwp_call.
  iSplitL "HR"; [by iApply cwp_token_to_socket|]. iIntros (a) "[-> HR]". rw (kept_socket i s g) //.
  iApply cwp_call. iSplitL "HR Ho"; [by iApply (cwp_fd_end old fd e s g R1 o1 with "[$HR $Ho]")|].
  iIntros (c) "(-> & %R2 & %o2 & HR & Ho & %Hl2)".
  iApply cwp_call. iSplitL.
  { iApply (cwp_history _ (slot_lost i g) old after 1%nat R2 o2 with "[$HR $Ho]"); [done| |done].
    intros op m R3 R4 _. by apply lost_op. }
  iIntros (_) "(%R3 & %o3 & HR & Ho & %Hl)". iApply cwp_call.
  iSplitL "HR"; [by iApply cwp_token_to_socket|]. iIntros (b) "[-> HR]".
  assert (Z.of_nat (1 + length after) < 2 ^ 44) as Hn by lia.
  rw (lost_socket i g _ R3 Hr Hg Hn Hl). cbn [cwp]. iSplitR; [done|]. iExists R3, o3. iFrame.
Qed.

Lemma token_names_registration_witness :
  {{{ is_registry (Registry [(5, 1); free_slot] 1) ∗ 8192 ↦ 0 }}}
    token_life 8192 REG_FD_BASE [FdRegister 6; FdClose (REG_FD_BASE + 1)] (EndReplace 8)
      [FdClose REG_FD_BASE; FdRegister 9] @ no_yield
  {{{ r, ⌞r = (5, 5, Win.INVALID_SOCKET)⌟ ∗ ∃ R' o', is_registry R' ∗ 8192 ↦ o' }}}.
Proof.
  apply (token_names_registration 8192 REG_FD_BASE 5 1
           [FdRegister 6; FdClose (REG_FD_BASE + 1)] (EndReplace 8)
           [FdClose REG_FD_BASE; FdRegister 9] (Registry [(5, 1); free_slot] 1) 0).
  - vm_compute. discriminate.
  - reflexivity.
  - vm_compute. discriminate.
  - lia.
  - repeat constructor.
  - repeat constructor; vm_compute; [tauto|discriminate].
  - vm_compute. discriminate.
  - reflexivity.
Defined.
