(* ===== verification/WinSock.v ===== *)
(** * WinSock: [hev-sys-socket.c], [hev-sys-msg.c] and [hev-sys-poll.c]

    POSIX socket calls over Winsock.  Arrays that live on the stack, or in a
    block freed on return when they are long, are lists; the block is
    allocated and freed. *)

From S2P Require Export Prelude.
From S2P Require Export Env.
From S2P Require Export Mem.
From S2P Require Export WinSys.
From S2P Require Export WinFd.
From S2P Require Export Buffer.
From S2P Require Export IO.
From S2P Require Export Socket.

(** ** [hev-sys-socket.c] *)

Definition WSA_FLAG_OVERLAPPED : Z := 1.
Definition AF_INET : Z := 2.
Definition IPPROTO_TCP : Z := 6.
Definition LOOPBACK : Z := 16777343.  (* htonl (INADDR_LOOPBACK) *)

Definition hev_sys_socket (domain type protocol : Z) : co Z :=
  s <~ sys "WSASocketW" [domain; type; protocol; WSA_FLAG_OVERLAPPED] ;;
  hev_sys_fd_register s.

Definition hev_sys_accept (fd addr addrlen : Z) : co Z :=
  s <~ hev_sys_fd_socket fd ;;
  if s =? Win.INVALID_SOCKET then wsa_fail else
  outs <! addr_outs addr addrlen ;;
  a <~ call (Sys "accept" [s; addr; addrlen] outs) ;;
  let c := a_ret a in
  if c =? Win.INVALID_SOCKET then wsa_fail else
  r <~ set_nonblock c ;;
  if negb (r =? 0) then hev_sys_set_errno_from_wsa ~;; closesocket c ~;; Ret (-1) else
  new_fd <~ hev_sys_socket_to_fd c ;;
  if new_fd <? 0 then closesocket c ~;; errno_fail Win.EMFILE else
  Ret new_fd.

(** Close what a socket variable holds. *)
Definition close_valid (s : Z) : co unit :=
  if negb (s =? Win.INVALID_SOCKET) then closesocket s ~;; Ret tt else Ret tt.

Definition close_fd (fd : Z) : co unit :=
  if 0 <=? fd then s <~ hev_sys_fd_close_socket fd ;; close_valid s else Ret tt.

(** The label [fail], with the variables as they are there. *)
Definition socketpair_fail (listener conn peer fd0 fd1 : Z) : co Z :=
  e <~ sys "WSAGetLastError" [] ;;
  (if negb (e =? 0) then hev_sys_set_errno_from_wsa ~;; Ret tt else Ret tt) ~;;
  close_fd fd0 ~;;
  close_fd fd1 ~;;
  close_valid conn ~;;
  close_valid peer ~;;
  close_valid listener ~;;
  Ret (-1).

(** From the connected pair on. *)
Definition socketpair_register (conn peer sv : Z) : co Z :=
  let INV := Win.INVALID_SOCKET in
  r <~ set_nonblock conn ;;
  if negb (r =? 0) then socketpair_fail INV conn peer (-1) (-1) else
  r <~ set_nonblock peer ;;
  if negb (r =? 0) then socketpair_fail INV conn peer (-1) (-1) else
  sys "WSASetLastError" [0] ~;;
  fd0 <~ hev_sys_socket_to_fd conn ;;
  if fd0 <? 0 then assign_errno Win.EMFILE ~;; socketpair_fail INV conn peer fd0 (-1) else
  sys "WSASetLastError" [0] ~;;
  fd1 <~ hev_sys_socket_to_fd peer ;;
  if fd1 <? 0 then assign_errno Win.EMFILE ~;; socketpair_fail INV INV peer fd0 fd1 else
  store (sv_fd sv 0) fd0 !;;
  store (sv_fd sv 1) fd1 !;;
  Ret 0.

Definition hev_sys_socketpair (domain type protocol sv : Z) : co Z :=
  let INV := Win.INVALID_SOCKET in
  if negb (is_true sv) || negb (type =? SOCK_STREAM) then errno_fail Win.EINVAL else
  store (sv_fd sv 0) (-1) !;;
  store (sv_fd sv 1) (-1) !;;
  listener <~ sys "socket" [AF_INET; SOCK_STREAM; IPPROTO_TCP] ;;
  if listener =? INV then socketpair_fail listener INV INV (-1) (-1) else
  r <~ sys "bind" [listener; AF_INET; LOOPBACK; 0] ;;
  if negb (r =? 0) then socketpair_fail listener INV INV (-1) (-1) else
  r <~ sys "listen" [listener; 1] ;;
  if negb (r =? 0) then socketpair_fail listener INV INV (-1) (-1) else
  name <~ call (Query "getsockname" [listener] 3) ;;
  if negb (a_ret name =? 0) then socketpair_fail listener INV INV (-1) (-1) else
  conn <~ sys "socket" [AF_INET; SOCK_STREAM; IPPROTO_TCP] ;;
  if conn =? INV then socketpair_fail listener conn INV (-1) (-1) else
  r <~ sys "connect" (conn :: a_data name) ;;
  if negb (r =? 0) then socketpair_fail listener conn INV (-1) (-1) else
  peer <~ sys "accept" [listener; NULL; NULL] ;;
  if peer =? INV then socketpair_fail listener conn peer (-1) (-1) else
  closesocket listener ~;;
  socketpair_register conn peer sv.

(** The common shape: [c s] on the socket of [fd], 0 for success. *)
Definition on_socket (fd : Z) (c : Z -> co Z) : co Z :=
  s <~ hev_sys_fd_socket fd ;;
  if s =? Win.INVALID_SOCKET then wsa_fail else
  r <~ c s ;;
  if negb (r =? 0) then wsa_fail else Ret 0.

Definition hev_sys_connect (fd name namelen : Z) : co Z :=
  s <~ hev_sys_fd_socket fd ;;
  if s =? Win.INVALID_SOCKET then wsa_fail else
  r <~ sys "connect" [s; name; namelen] ;;
  if negb (r =? 0) then
    errno <~ hev_sys_set_errno_from_wsa ;;
    (if errno =? Win.EAGAIN then assign_errno Win.EINPROGRESS ~;; Ret tt else Ret tt) ~;;
    Ret (-1)
  else Ret 0.

Definition hev_sys_bind (fd name namelen : Z) : co Z :=
  on_socket fd (fun s => sys "bind" [s; name; namelen]).

Definition hev_sys_listen (fd backlog : Z) : co Z :=
  on_socket fd (fun s => sys "listen" [s; backlog]).

Definition hev_sys_shutdown (fd how : Z) : co Z :=
  on_socket fd (fun s => sys "shutdown" [s; how]).

Definition hev_sys_setsockopt (fd level optname optval optlen : Z) : co Z :=
  on_socket fd (fun s => sys "setsockopt" [s; level; optname; optval; optlen]).

Definition hev_sys_getsockname (fd addr addrlen : Z) : co Z :=
  on_socket fd (fun s =>
    outs <! addr_outs addr addrlen ;;
    a <~ call (Sys "getsockname" [s; addr; addrlen] outs) ;; Ret (a_ret a)).

Definition hev_sys_getpeername (fd addr addrlen : Z) : co Z :=
  on_socket fd (fun s =>
    outs <! addr_outs addr addrlen ;;
    a <~ call (Sys "getpeername" [s; addr; addrlen] outs) ;; Ret (a_ret a)).

Definition hev_sys_ioctl (fd request argp : Z) : co Z :=
  s <~ hev_sys_fd_to_socket fd ;;
  if negb (s =? Win.INVALID_SOCKET) then
    if negb (request =? Win.FIONBIO) then errno_fail Win.EINVAL else
    mode <! (if is_true argp then load argp else ret 0) ;;
    res <~ sys "ioctlsocket" [s; Win.FIONBIO; mode] ;;
    if negb (res =? 0) then wsa_fail else Ret 0
  else Ret 0.

(** ** [hev-sys-msg.c] *)

Definition WBUF_STACK : Z := 64.
Definition SIZEOF_WSABUF : Z := 16.

(** [MSG_OOB | MSG_PEEK | MSG_DONTROUTE | MSG_WAITALL] *)
Definition flags_to_wsa (flags : Z) : Z := Z.land flags 15.

(** The buffers as pairs of an address and a length. *)
Fixpoint wsabufs (iov : Z) (l : list Z) : M (list (Z * Z)) :=
  match l with
  | [] => ret []
  | i :: l =>
      base <- load (iov_base iov i) ;;
      len <- load (iov_len iov i) ;;
      rest <- wsabufs iov l ;;
      ret ((base, w32 len) :: rest)
  end.

(** The block, NULL for the array on the stack, and the buffers; [None] when
    there is no memory. *)
Definition wsabuf_get (iov iovcnt : Z) : co (option (Z * list (Z * Z))) :=
  blk <~ (if WBUF_STACK <? iovcnt then
            p <~ malloc (w64 (SIZEOF_WSABUF * iovcnt)) ;;
            Ret (if is_true p then Some p else None)
          else Ret (Some NULL)) ;;
  match blk with
  | None => Ret None
  | Some blk => bufs <! wsabufs iov (zrange 0 iovcnt) ;; Ret (Some (blk, bufs))
  end.

Definition wsabuf_put (blk : Z) : co unit := if is_true blk then free blk else Ret tt.

Definition buf_args (bufs : list (Z * Z)) : list Z := flat_map (fun b => [b.1; b.2]) bufs.
Definition buf_cells (bufs : list (Z * Z)) : list Z := flat_map (fun b => zrange b.1 b.2) bufs.

(** The common shape of the calls that transfer bytes. *)
Definition on_socket_io (fd : Z) (c : Z -> co Z) : co Z :=
  s <~ hev_sys_fd_socket fd ;;
  if s =? Win.INVALID_SOCKET then wsa_fail else
  res <~ c s ;;
  if res <? 0 then hev_sys_set_errno_from_wsa ~;; Ret res else Ret res.

Definition hev_sys_recv (fd buf len flags : Z) : co Z :=
  on_socket_io fd (fun s =>
    a <~ call (Sys "winsock_recv" [s; buf; s32 len; flags_to_wsa flags] (zrange buf (s32 len))) ;;
    Ret (a_ret a)).

Definition hev_sys_send (fd buf len flags : Z) : co Z :=
  on_socket_io fd (fun s => sys "winsock_send" [s; buf; s32 len; flags_to_wsa flags]).

Definition hev_sys_recvfrom (fd buf len flags addr addrlen : Z) : co Z :=
  on_socket_io fd (fun s =>
    outs <! addr_outs addr addrlen ;;
    a <~ call (Sys "winsock_recvfrom" [s; buf; s32 len; flags_to_wsa flags; addr; addrlen]
                 (outs ++ zrange buf (s32 len))) ;;
    Ret (a_ret a)).

Definition hev_sys_sendto (fd buf len flags addr addrlen : Z) : co Z :=
  on_socket_io fd (fun s =>
    sys "winsock_sendto" [s; buf; s32 len; flags_to_wsa flags; addr; addrlen]).

Definition crt_read (fd buf count : Z) : co Z :=
  a <~ call (Sys "_read" [fd; buf; count] (zrange buf count)) ;; Ret (a_ret a).

Definition crt_write (fd buf count : Z) : co Z := sys "_write" [fd; buf; count].

Definition hev_sys_read (fd buf count : Z) : co Z :=
  s <~ hev_sys_fd_to_socket fd ;;
  if negb (s =? Win.INVALID_SOCKET) then hev_sys_recv fd buf count 0
  else crt_read fd buf (w32 count).

Definition hev_sys_write (fd buf count : Z) : co Z :=
  s <~ hev_sys_fd_to_socket fd ;;
  if negb (s =? Win.INVALID_SOCKET) then hev_sys_send fd buf count 0
  else crt_write fd buf (w32 count).

(** The loops over the buffers of a CRT descriptor. *)
Fixpoint crt_vector (rw : Z -> Z -> Z -> co Z) (fd iov : Z) (l : list Z) (total : Z) : co Z :=
  match l with
  | [] => Ret total
  | i :: l =>
      base <! load (iov_base iov i) ;;
      len <! load (iov_len iov i) ;;
      r <~ rw fd base (w32 len) ;;
      if r <? 0 then Ret (if 0 <? total then total else r) else
      let total := total + r in
      if r <? len then Ret total else crt_vector rw fd iov l total
  end.

(** [WSARecv] and the like: the count of bytes comes through a pointer. *)
Definition wsa_count (a : answer) : co Z :=
  match a_data a with n :: _ => Ret n | [] => act (fail Undefined) end.

Definition hev_sys_readv (fd iov iovcnt recvd : Z) : co Z :=
  s <~ hev_sys_fd_to_socket fd ;;
  if s =? Win.INVALID_SOCKET then crt_vector crt_read fd iov (zrange 0 iovcnt) 0 else
  w <~ wsabuf_get iov iovcnt ;;
  match w with
  | None => errno_fail Win.ENOMEM
  | Some (blk, bufs) =>
      store recvd 0 !;;
      a <~ call (Sys "WSARecv" (s :: 0 :: buf_args bufs) (recvd :: buf_cells bufs)) ;;
      wsabuf_put blk ~;;
      if negb (a_ret a =? 0) then wsa_fail else n <! load recvd ;; Ret n
  end.

Definition hev_sys_writev (fd iov iovcnt : Z) : co Z :=
  s <~ hev_sys_fd_to_socket fd ;;
  if s =? Win.INVALID_SOCKET then crt_vector crt_write fd iov (zrange 0 iovcnt) 0 else
  w <~ wsabuf_get iov iovcnt ;;
  match w with
  | None => errno_fail Win.ENOMEM
  | Some (blk, bufs) =>
      a <~ call (Query "WSASend" (s :: 0 :: buf_args bufs) 1) ;;
      wsabuf_put blk ~;;
      if negb (a_ret a =? 0) then wsa_fail else wsa_count a
  end.

(** [recvd] and [wflags] are the addresses of the local variables. *)
Definition hev_sys_recvmsg_impl (s msg flags recvd wflags : Z) : co Z :=
  store recvd 0 !;;
  store wflags 0 !;;
  iovlen <! load (msg_iovlen msg) ;;
  iov <! load (msg_iov msg) ;;
  w <~ wsabuf_get iov (s32 iovlen) ;;
  match w with
  | None => errno_fail Win.ENOMEM
  | Some (blk, bufs) =>
      store wflags (flags_to_wsa flags) !;;
      name <! load (msg_name msg) ;;
      a <~ (if is_true name then
              namelen <! load (msg_namelen msg) ;;
              call (Sys "WSARecvFrom" (s :: flags_to_wsa flags :: name :: buf_args bufs)
                      (recvd :: wflags :: msg_namelen msg :: zrange name namelen ++ buf_cells bufs))
            else
              call (Sys "WSARecv" (s :: flags_to_wsa flags :: buf_args bufs)
                      (recvd :: wflags :: buf_cells bufs))) ;;
      wsabuf_put blk ~;;
      if negb (a_ret a =? 0) then wsa_fail else
      f <! load wflags ;;
      store (msg_flags msg) (s32 f) !;;
      n <! load recvd ;;
      Ret n
  end.

Definition hev_sys_sendmsg_impl (s msg flags : Z) : co Z :=
  iovlen <! load (msg_iovlen msg) ;;
  iov <! load (msg_iov msg) ;;
  w <~ wsabuf_get iov (s32 iovlen) ;;
  match w with
  | None => errno_fail Win.ENOMEM
  | Some (blk, bufs) =>
      name <! load (msg_name msg) ;;
      a <~ (if is_true name then
              namelen <! load (msg_namelen msg) ;;
              call (Query "WSASendTo" (s :: flags_to_wsa flags :: name :: namelen :: buf_args bufs) 1)
            else call (Query "WSASend" (s :: flags_to_wsa flags :: buf_args bufs) 1)) ;;
      wsabuf_put blk ~;;
      if negb (a_ret a =? 0) then wsa_fail else wsa_count a
  end.

Definition hev_sys_recvmsg (fd msg flags recvd wflags : Z) : co Z :=
  s <~ hev_sys_fd_socket fd ;;
  if s =? Win.INVALID_SOCKET then wsa_fail else hev_sys_recvmsg_impl s msg flags recvd wflags.

Definition hev_sys_sendmsg (fd msg flags : Z) : co Z :=
  s <~ hev_sys_fd_socket fd ;;
  if s =? Win.INVALID_SOCKET then wsa_fail else hev_sys_sendmsg_impl s msg flags.

Definition mmsg_len (msg : Z) : Z := msg + 56.

(** The loops over the headers; [i] messages are done. *)
Fixpoint mmsg_loop (one : Z -> co Z) (msgv vlen : Z) (l : list Z) : co Z :=
  match l with
  | [] => Ret vlen
  | i :: l =>
      r <~ one (mmsg_at msgv i) ;;
      if r <? 0 then Ret (if 0 <? i then i else -1) else
      store (mmsg_len (mmsg_at msgv i)) (w32 r) !;;
      mmsg_loop one msgv vlen l
  end.

Definition hev_sys_recvmmsg (fd msgv vlen flags recvd wflags : Z) : co Z :=
  s <~ hev_sys_fd_socket fd ;;
  if s =? Win.INVALID_SOCKET then wsa_fail else
  mmsg_loop (fun m => hev_sys_recvmsg_impl s m flags recvd wflags) msgv vlen (zrange 0 vlen).

Definition hev_sys_sendmmsg (fd msgv vlen flags : Z) : co Z :=
  s <~ hev_sys_fd_socket fd ;;
  if s =? Win.INVALID_SOCKET then wsa_fail else
  mmsg_loop (fun m => hev_sys_sendmsg_impl s m flags) msgv vlen (zrange 0 vlen).

(** ** [hev-sys-poll.c] *)

(** [struct pollfd] of Winsock. *)
Definition wpfd_fd (fds i : Z) : Z := fds + 16 * i.
Definition wpfd_events (fds i : Z) : Z := fds + 16 * i + 8.
Definition wpfd_revents (fds i : Z) : Z := fds + 16 * i + 10.
Definition POLLNVAL : Z := 4.

(** The sockets to poll, each with its events and its place in [fds], and the
    number of descriptors without a socket. *)
Fixpoint poll_scan (fds : Z) (l : list Z) : co (list (Z * Z * Z) * Z) :=
  match l with
  | [] => Ret ([], 0)
  | i :: l =>
      store (wpfd_revents fds i) 0 !;;
      fd <! load (wpfd_fd fds i) ;;
      if s64 fd <? 0 then poll_scan fds l else
      s <~ hev_sys_fd_to_socket (s32 fd) ;;
      if s =? Win.INVALID_SOCKET then
        store (wpfd_revents fds i) POLLNVAL !;;
        rest <~ poll_scan fds l ;;
        Ret (rest.1, rest.2 + 1)
      else
        events <! load (wpfd_events fds i) ;;
        rest <~ poll_scan fds l ;;
        Ret ((s, events, i) :: rest.1, rest.2)
  end.

Fixpoint poll_back (fds : Z) (native : list (Z * Z * Z)) (revents : list Z) : M unit :=
  match native, revents with
  | (_, _, i) :: native, r :: revents =>
      store (wpfd_revents fds i) r ;;; poll_back fds native revents
  | [], _ => ret tt
  | _, [] => fail Undefined
  end.

Definition poll_native (fds nfds timeout : Z) : co Z :=
  scan <~ poll_scan fds (zrange 0 nfds) ;;
  let '(native, invalid) := scan in
  match native with
  | [] =>
      (if invalid =? 0 then
         if timeout <? 0 then sys "Sleep" [Win.INFINITE] ~;; Ret tt
         else if 0 <? timeout then sys "Sleep" [timeout] ~;; Ret tt else Ret tt
       else Ret tt) ~;;
      Ret invalid
  | _ =>
      a <~ call (Query "WSAPoll"
                   (Z.of_nat (length native) :: (if is_true invalid then 0 else timeout) ::
                    flat_map (fun p => [p.1.1; p.1.2]) native) (length native)) ;;
      if a_ret a =? Win.SOCKET_ERROR then wsa_fail else
      poll_back fds native (a_data a) !;;
      Ret (a_ret a + invalid)
  end.

Definition hev_sys_poll (fds nfds timeout : Z) : co Z :=
  if (nfds <? 0) || ((0 <? nfds) && negb (is_true fds)) then errno_fail Win.EINVAL else
  if 64 <? nfds then
    native <~ malloc (w64 (16 * nfds)) ;;
    map <~ malloc (w64 (4 * nfds)) ;;
    if negb (is_true native) || negb (is_true map) then
      free native ~;; free map ~;; errno_fail Win.ENOMEM
    else
      res <~ poll_native fds nfds timeout ;;
      free native ~;;
      free map ~;;
      Ret res
  else poll_native fds nfds timeout.
