(* ===== verification/Iocp.v ===== *)
(** * Iocp: the reactor over an I/O completion port, [kern/io/*-iocp.*]

    Sockets and waitable handles are nodes of a tree ordered by handle; each
    waits on an event through a wait completion packet.  The names shared with
    the other reactors carry the prefix [iocp_]. *)

From S2P Require Export Prelude.
From S2P Require Export Env.
From S2P Require Export RBTree.
From S2P Require Export Mem.
From S2P Require Export WinSys.
From S2P Require Export WinFd.
From S2P Require Export Reactor.

(** ** [hev-task-io-reactor-iocp.h] *)

Definition IOCP_EV_RO : Z := 9.    (* FD_READ | FD_ACCEPT *)
Definition IOCP_EV_WO : Z := 18.   (* FD_WRITE | FD_CONNECT *)
Definition IOCP_EV_ER : Z := 32.   (* FD_CLOSE *)

Definition IOCP_OP_ADD : Z := 0.
Definition IOCP_OP_MOD : Z := 1.
Definition IOCP_OP_DEL : Z := 2.

Definition IOCP_EVENT_GEN_MAX : Z := 1.

(** [POLLIN], [POLLOUT] and [POLLERR] of Winsock. *)
Definition WIN_POLLIN : Z := 768.
Definition WIN_POLLOUT : Z := 16.
Definition WIN_POLLERR : Z := 1.

(** [struct _HevTaskIOReactorIOCP] *)
Definition iocp_handle (self : Z) : Z := reactor_fd self.
Definition iocp_tree (self : Z) : Z := self + 8.
Definition SIZEOF_IOCP : Z := 16.

Record iocp_setup_event : Type := IocpSetup {
  ise_op : Z;
  ise_handle : Z;
  ise_events : Z;
  ise_data : Z
}.

Definition iocp_setup_event_set (handle op events data : Z) : iocp_setup_event :=
  IocpSetup op handle (s32 events) data.

Definition iocp_reactor_events (poll_events : Z) : Z :=
  let e := 0 in
  let e := if is_true (Z.land poll_events WIN_POLLIN) then Z.lor e IOCP_EV_RO else e in
  let e := if is_true (Z.land poll_events WIN_POLLOUT) then Z.lor e IOCP_EV_WO else e in
  if is_true (Z.land poll_events WIN_POLLERR) then Z.lor e IOCP_EV_ER else e.

Definition iocp_setup_event_fd_gen (fd op poll_events data : Z) : co (list iocp_setup_event * Z) :=
  handle <~ hev_sys_fd_to_token (s32 fd) ;;
  Ret ([iocp_setup_event_set handle op (iocp_reactor_events poll_events) data], 1).

Definition iocp_setup_event_whandle_gen (handle op data : Z) : list iocp_setup_event * Z :=
  ([iocp_setup_event_set handle op 0 data], 1).

Definition iocp_wait_event_get_events (event : HevTaskIOReactorWaitEvent) : Z :=
  let events := 0 in
  let events :=
    if is_true (Z.land (we_events event) IOCP_EV_RO) then Z.lor events WIN_POLLIN else events in
  let events :=
    if is_true (Z.land (we_events event) IOCP_EV_WO) then Z.lor events WIN_POLLOUT else events in
  if is_true (Z.land (we_events event) IOCP_EV_ER) then Z.lor events WIN_POLLERR else events.

Definition iocp_wait_event_get_data (event : HevTaskIOReactorWaitEvent) : Z := we_data event.

(** ** Nodes: [struct _HevTaskIOReactorIOCPNode] *)

Definition inode_base (node : Z) : Z := node.
Definition inode_handle (node : Z) : Z := node + 24.
Definition inode_data (node : Z) : Z := node + 32.
Definition inode_ehandle (node : Z) : Z := node + 40.
Definition inode_packet (node : Z) : Z := node + 48.
Definition inode_armed (node : Z) : Z := node + 56.
Definition SIZEOF_INODE : Z := 64.

Definition inode_of (base : Z) : Z := base.

(** The three functions of [ntdll], static variables. *)
Definition nt_create_wait_packet : Z := 2176.
Definition nt_associate_wait_packet : Z := 2184.
Definition nt_cancel_wait_packet : Z := 2192.

Definition hev_task_io_reactor_iocp_init : co Z :=
  create <! load nt_create_wait_packet ;;
  if is_true create then Ret 0 else
  ntdll <~ sys "GetModuleHandleA" [] ;;
  if negb (is_true ntdll) then Ret (-1) else
  associate <~ sys "GetProcAddress" [ntdll; 0] ;;
  store nt_associate_wait_packet associate !;;
  cancel <~ sys "GetProcAddress" [ntdll; 1] ;;
  store nt_cancel_wait_packet cancel !;;
  create <~ sys "GetProcAddress" [ntdll; 2] ;;
  store nt_create_wait_packet create !;;
  if negb (is_true associate) || negb (is_true cancel) || negb (is_true create) then
    store nt_create_wait_packet NULL !;; Ret (-1)
  else Ret 0.

Definition hev_task_io_reactor_iocp_node_is_handle (node : Z) : M bool :=
  handle <- load (inode_handle node) ;;
  ehandle <- load (inode_ehandle node) ;;
  ret (handle =? ehandle).

Definition hev_task_io_reactor_iocp_node_arm (node port : Z) : co Z :=
  armed <! load (inode_armed node) ;;
  if is_true armed then Ret 0 else
  packet <! load (inode_packet node) ;;
  ehandle <! load (inode_ehandle node) ;;
  r <~ sys "NtAssociateWaitCompletionPacket" [packet; port; ehandle; NULL; node; 0; 1] ;;
  if r <? 0 then Ret (-1) else
  store (inode_armed node) 1 !;;
  Ret 0.

Definition WSAEventSelect (sock ehandle events : Z) : co Z :=
  sys "WSAEventSelect" [sock; ehandle; events].

Definition hev_task_io_reactor_iocp_node_free (node : Z) : co unit :=
  armed <! load (inode_armed node) ;;
  packet <! load (inode_packet node) ;;
  (if is_true armed then sys "NtCancelWaitCompletionPacket" [packet; 1] ~;; Ret tt else Ret tt) ~;;
  packet <! load (inode_packet node) ;;
  (if is_true packet then sys "CloseHandle" [packet] ~;; Ret tt else Ret tt) ~;;
  is_handle <! hev_task_io_reactor_iocp_node_is_handle node ;;
  (if is_handle : bool then Ret tt else
     handle <! load (inode_handle node) ;;
     sock <~ hev_sys_token_to_socket handle ;;
     (if negb (sock =? Win.INVALID_SOCKET) then WSAEventSelect sock NULL 0 ~;; Ret tt
      else Ret tt) ~;;
     ehandle <! load (inode_ehandle node) ;;
     sys "WSACloseEvent" [ehandle] ~;; Ret tt) ~;;
  free node.

Definition hev_task_io_reactor_iocp_node_detach (self node : Z) : co unit :=
  hev_rbtree_erase (iocp_tree self) (inode_base node) !;;
  hev_task_io_reactor_iocp_node_free node.

(** ** The tree of handles *)

(** One step of the insertion's search: the slot and the parent, or a node
    with the same handle. *)
Definition iocp_insert_body (handle : Z) (st : Z * Z) : M (Z * Z + option (Z * Z)) :=
  let '(new, parent) := st in
  cur <- load new ;;
  if is_true cur then
    this <- load (inode_handle (inode_of cur)) ;;
    if this <? handle then ret (inl (rb_left cur, cur))
    else if handle <? this then ret (inl (rb_right cur, cur))
    else ret (inr None)
  else ret (inr (Some (new, parent))).

Definition hev_task_io_reactor_iocp_insert (self node : Z) : M Z :=
  handle <- load (inode_handle node) ;;
  r <- while (iocp_insert_body handle) (rb_root (iocp_tree self), NULL) ;;
  match r with
  | None => ret (-1)
  | Some (new, parent) =>
      hev_rbtree_node_link (inode_base node) parent new ;;;
      hev_rbtree_insert_color (iocp_tree self) (inode_base node) ;;;
      ret 0
  end.

Definition iocp_lookup_body (handle node : Z) : M (Z + Z) :=
  if is_true node then
    this <- load (inode_handle (inode_of node)) ;;
    if this <? handle then l <- load (rb_left node) ;; ret (inl l)
    else if handle <? this then r <- load (rb_right node) ;; ret (inl r)
    else ret (inr (inode_of node))
  else ret (inr NULL).

Definition hev_task_io_reactor_iocp_lookup (self handle : Z) : M Z :=
  root <- load (rb_root (iocp_tree self)) ;;
  while (iocp_lookup_body handle) root.

(** ** Operations *)

(** The label [free_event]. *)
Definition iocp_add_free_event (node handle : Z) : co Z :=
  is_handle <! hev_task_io_reactor_iocp_node_is_handle node ;;
  (if is_handle : bool then Ret tt else
     sock <~ hev_sys_token_to_socket handle ;;
     WSAEventSelect sock NULL 0 ~;;
     ehandle <! load (inode_ehandle node) ;;
     sys "WSACloseEvent" [ehandle] ~;; Ret tt) ~;;
  free node ~;;
  Ret (-1).

(** From the creation of the packet on. *)
Definition iocp_add_packet (self node handle : Z) : co Z :=
  a <~ call (Sys "NtCreateWaitCompletionPacket" [inode_packet node] [inode_packet node]) ;;
  if a_ret a <? 0 then iocp_add_free_event node handle else
  port <! load (iocp_handle self) ;;
  r <~ hev_task_io_reactor_iocp_node_arm node port ;;
  if r <? 0 then hev_task_io_reactor_iocp_node_free node ~;; Ret (-1) else
  hev_task_io_reactor_iocp_insert self node !;;
  Ret 0.

Definition hev_task_io_reactor_iocp_add (self : Z) (event : iocp_setup_event) : co Z :=
  node <! hev_task_io_reactor_iocp_lookup self (ise_handle event) ;;
  if is_true node then
    is_handle <! hev_task_io_reactor_iocp_node_is_handle node ;;
    if negb is_handle || is_true (ise_events event) then Ret (-1) else
    store (inode_data node) (ise_data event) !;;
    port <! load (iocp_handle self) ;;
    hev_task_io_reactor_iocp_node_arm node port
  else
    node <~ calloc 1 SIZEOF_INODE ;;
    if negb (is_true node) then Ret (-1) else
    store (inode_data node) (ise_data event) !;;
    store (inode_handle node) (ise_handle event) !;;
    if is_true (ise_events event) then
      sock <~ hev_sys_token_to_socket (ise_handle event) ;;
      let events := Z.lor (ise_events event) IOCP_EV_ER in
      if sock =? Win.INVALID_SOCKET then free node ~;; Ret (-1) else
      ehandle <~ sys "CreateEventA" [NULL; 1; 0; NULL] ;;
      store (inode_ehandle node) ehandle !;;
      if negb (is_true ehandle) then free node ~;; Ret (-1) else
      r <~ WSAEventSelect sock ehandle events ;;
      if is_true r then iocp_add_free_event node (ise_handle event) else
      iocp_add_packet self node (ise_handle event)
    else
      store (inode_ehandle node) (ise_handle event) !;;
      iocp_add_packet self node (ise_handle event).

Definition hev_task_io_reactor_iocp_mod (self : Z) (event : iocp_setup_event) : co Z :=
  node <! hev_task_io_reactor_iocp_lookup self (ise_handle event) ;;
  if negb (is_true node) then Ret (-1) else
  is_handle <! hev_task_io_reactor_iocp_node_is_handle node ;;
  if negb is_handle && is_true (ise_events event) then
    handle <! load (inode_handle node) ;;
    sock <~ hev_sys_token_to_socket handle ;;
    let events := Z.lor (ise_events event) IOCP_EV_ER in
    if sock =? Win.INVALID_SOCKET then Ret (-1) else
    ehandle <! load (inode_ehandle node) ;;
    r <~ WSAEventSelect sock ehandle events ;;
    if is_true r then Ret (-1) else Ret 0
  else Ret 0.

Definition hev_task_io_reactor_iocp_del (self : Z) (event : iocp_setup_event) : co Z :=
  node <! hev_task_io_reactor_iocp_lookup self (ise_handle event) ;;
  if negb (is_true node) then Ret (-1) else
  hev_task_io_reactor_iocp_node_detach self node ~;;
  Ret 0.

(** ** The reactor *)

Definition iocp_reactor_new : co Z :=
  r <~ hev_task_io_reactor_iocp_init ;;
  if r <? 0 then Ret NULL else
  self <~ hev_malloc0 SIZEOF_IOCP ;;
  if negb (is_true self) then Ret NULL else
  handle <~ sys "CreateIoCompletionPort" [Win.INVALID_SOCKET; NULL; 0; 0] ;;
  if negb (is_true handle) then hev_free self ~;; Ret NULL else
  store (iocp_handle self) handle !;;
  Ret self.

(** Each round frees a node of the tree. *)
Definition iocp_destroy_body (self : Z) (_ : unit) : co (unit + unit) :=
  root <! load (rb_root (iocp_tree self)) ;;
  if is_true root then
    hev_task_io_reactor_iocp_node_detach self (inode_of root) ~;; Ret (inl tt)
  else Ret (inr tt).

Definition iocp_reactor_destroy (self : Z) : co unit :=
  co_chase (iocp_destroy_body self) tt ~;;
  handle <! load (iocp_handle self) ;;
  sys "CloseHandle" [handle] ~;;
  hev_free self.

Definition iocp_reactor_setup (self : Z) (events : list iocp_setup_event) (count : Z) : co Z :=
  if IOCP_EVENT_GEN_MAX <? count then act abort else
  match events with
  | [] => Ret (-1)
  | event :: _ =>
      if count <=? 0 then Ret (-1)
      else if ise_op event =? IOCP_OP_ADD then hev_task_io_reactor_iocp_add self event
      else if ise_op event =? IOCP_OP_MOD then hev_task_io_reactor_iocp_mod self event
      else if ise_op event =? IOCP_OP_DEL then hev_task_io_reactor_iocp_del self event
      else Ret (-1)
  end.

Definition WAIT_TIMEOUT : Z := 258.

(** One round: a completion; the [OVERLAPPED] pointer is the node. *)
Definition iocp_wait_body (self timeout : Z) (_ : unit) :
    co (unit + (Z * list HevTaskIOReactorWaitEvent)) :=
  port <! load (iocp_handle self) ;;
  a <~ call (Query "GetQueuedCompletionStatus" [port; timeout] 1) ;;
  if a_ret a =? 0 then
    error <~ sys "GetLastError" [] ;;
    Ret (inr (if error =? WAIT_TIMEOUT then (0, []) else (-1, [])))
  else
    node <! match a_data a with node :: _ => ret node | [] => fail Undefined end ;;
    store (inode_armed node) 0 !;;
    data <! load (inode_data node) ;;
    is_handle <! hev_task_io_reactor_iocp_node_is_handle node ;;
    if is_handle : bool then Ret (inr (1, [WaitEvent 0 data])) else
    handle <! load (inode_handle node) ;;
    sock <~ hev_sys_token_to_socket handle ;;
    if sock =? Win.INVALID_SOCKET then Ret (inl tt) else
    ehandle <! load (inode_ehandle node) ;;
    e <~ call (Query "WSAEnumNetworkEvents" [sock; ehandle] 1) ;;
    hev_task_io_reactor_iocp_node_arm node port ~;;
    let nevents := match a_data e with ev :: _ => ev | [] => 0 end in
    if is_true (a_ret e) || negb (is_true nevents) then Ret (inl tt) else
    Ret (inr (1, [WaitEvent nevents data])).

Definition iocp_reactor_wait (self count timeout : Z) : co (Z * list HevTaskIOReactorWaitEvent) :=
  if count <=? 0 then Ret (-1, []) else co_while (iocp_wait_body self timeout) tt.
