(* ===== verification/IocpProofs.v ===== *)
(** * IocpProofs: the reactor of completion ports refined to a map

    What the kernel remembers of wait completion packets, the invariant of the
    tree of handles, and the refinement of each operation to one on a map from
    handles to the data they were registered with. *)

From Stdlib Require Import String Sorting.Sorted.
From S2P Require Import Prelude.
From S2P Require Import Sep.
From S2P Require Import RBTree.
From S2P Require Import RBTreeSpec.
From S2P Require Import RBTreeProofs.
From S2P Require Import RBTreeErase.
From S2P Require Import RBTreeRemove.
From S2P Require Import RBTreeApi.
From S2P Require Import Env.
From S2P Require Import EnvLogic.
From S2P Require Import Trace.
From S2P Require Import World.
From S2P Require Import Mem.
From S2P Require Import Alloc.
From S2P Require Import WinSys.
From S2P Require Import WinFd.
From S2P Require Import WinFdProps.
From S2P Require Import Reactor.
From S2P Require Import Iocp.

Local Open Scope Z_scope.

(** ** Wait completion packets *)

(** The packets that are associated, each with its context. *)
Abbreviation packets := (gmap Z Z).

(** A completion is reported for a packet that is associated. *)
Definition packet_valid (w : packets) (e : ext) (a : answer) : bool :=
  match e with
  | Query f _ _ =>
      if String.eqb f "GetQueuedCompletionStatus" then
        (a_ret a =? 0) ||
        match a_data a with
        | node :: _ => existsb (fun x => x.2 =? node) (map_to_list w)
        | [] => false
        end
      else true
  | _ => true
  end.

(** Associating a packet, taking it back with its completion, and the report
    of the completion, which ends the association. *)
Definition packet_step (w : packets) (e : ext) (a : answer) : packets :=
  match e with
  | Query f args _ =>
      if String.eqb f "NtAssociateWaitCompletionPacket" then
        match args with
        | [packet; _; _; _; node; _; _] => if a_ret a <? 0 then w else <[packet := node]> w
        | _ => w
        end
      else if String.eqb f "NtCancelWaitCompletionPacket" then
        match args with
        | packet :: _ => delete packet w
        | [] => w
        end
      else if String.eqb f "GetQueuedCompletionStatus" then
        match a_data a with
        | node :: _ => if a_ret a =? 0 then w else filter (fun x => x.2 <> node) w
        | [] => w
        end
      else w
  | _ => w
  end.

Definition packet_call (f : string) : bool :=
  String.eqb f "NtAssociateWaitCompletionPacket" ||
  String.eqb f "NtCancelWaitCompletionPacket" ||
  String.eqb f "GetQueuedCompletionStatus".

Definition unpacked (e : ext) : Prop :=
  match e with Query f _ _ => packet_call f = false | _ => True end.

Abbreviation unpacked_tree := (calls_only unpacked).

Lemma unpacked_neutral e : unpacked e -> neutral_call packet_step e.
Proof.
  destruct e as [| | | |f args n|]; try done. unfold unpacked, packet_call. intros H w a.
  apply orb_false_iff in H as [[H1 H2]%orb_false_iff H3]. simpl. by rw H1 H2 H3.
Qed.

Lemma unpacked_sys f args : packet_call f = false -> unpacked_tree (sys f args).
Proof. intros H. by split. Qed.

#[export] Hint Extern 1 (unpacked_tree (sys _ _)) => apply unpacked_sys; reflexivity : calls.

Lemma unpacked_free p : unpacked_tree (free p).
Proof. unfold free. calls. Qed.

Lemma unpacked_calloc n s : unpacked_tree (calloc n s).
Proof. unfold calloc, malloc. calls. Qed.
#[export] Hint Resolve unpacked_free unpacked_calloc : calls.

Lemma unpacked_init : unpacked_tree reg_init.
Proof. unfold reg_init, act. calls. Qed.
#[export] Hint Resolve unpacked_init : calls.

Lemma unpacked_token_to_socket t : unpacked_tree (hev_sys_token_to_socket t).
Proof. unfold hev_sys_token_to_socket, AcquireShared, ReleaseShared. calls. Qed.

Lemma unpacked_fd_to_token fd : unpacked_tree (hev_sys_fd_to_token fd).
Proof. unfold hev_sys_fd_to_token, AcquireShared, ReleaseShared. calls. Qed.
#[export] Hint Resolve unpacked_token_to_socket unpacked_fd_to_token : calls.

Lemma unpacked_select s eh ev : unpacked_tree (WSAEventSelect s eh ev).
Proof. unfold WSAEventSelect. calls. Qed.
#[export] Hint Resolve unpacked_select : calls.

(** ** Nodes *)

Record inode : Type := INode {
  in_handle : Z;
  in_data : Z;
  in_ehandle : Z;
  in_packet : Z;
  in_armed : Z;
}.

Definition set_armed (v : Z) (e : inode) : inode :=
  INode (in_handle e) (in_data e) (in_ehandle e) (in_packet e) v.

Definition set_data (d : Z) (e : inode) : inode :=
  INode (in_handle e) d (in_ehandle e) (in_packet e) (in_armed e).

Definition inode_offs : list Z := [0; 8; 16; 24; 32; 40; 48; 56].

(** Nodes are blocks of the C library. *)
Definition c_rest : Z -> list Z -> Z -> heapProp := @block_rest (simple_allocator 0).

Definition is_inode (n : Z) (e : inode) : heapProp :=
  (inode_handle n ↦ in_handle e ∗ inode_data n ↦ in_data e ∗ inode_ehandle n ↦ in_ehandle e ∗
   inode_packet n ↦ in_packet e ∗ inode_armed n ↦ in_armed e ∗ c_rest n inode_offs SIZEOF_INODE)%I.

Lemma inode_block n e : rb_cell n ∗ is_inode n e ⊢ mblock n SIZEOF_INODE.
Proof.
  iIntros "[(%a & %b & %c & H1 & H2 & H3) (H4 & H5 & H6 & H7 & H8 & Hr)]".
  iApply (@block_close (simple_allocator 0) n inode_offs); [done|]. iFrame "Hr".
  unfold field_cells, inode_offs. simpl. rw Z.add_0_r.
  iSplitL "H1"; [by iExists _|]. iSplitL "H2"; [by iExists _|]. iSplitL "H3"; [by iExists _|].
  iSplitL "H4"; [by iExists _|]. iSplitL "H5"; [by iExists _|]. iSplitL "H6"; [by iExists _|].
  iSplitL "H7"; [by iExists _|]. iSplitL "H8"; [by iExists _|]. done.
Qed.

Lemma cwp_calloc Y `{!YieldMono Y} n size :
  0 <= n * size ->
  emp ⊢ cwp Y (calloc n size) (fun p => ⌞p = NULL⌟ ∨ @zeroed (simple_allocator 0) p (n * size)).
Proof.
  intros Hn. iIntros "_". unfold calloc, malloc, call. cbn [co_bind cwp]. iApply ext_wp_malloc.
  iIntros (a) "H". cbn [cwp co_bind]. iApply wp_wand. iSplitL; [|iIntros (u) "H"; iExact "H"].
  iApply (@wp_memset0 (simple_allocator 0)); [done|]. iExact "H".
Qed.

(** A node fresh from [calloc]. *)
Lemma fresh_inode p :
  @zeroed (simple_allocator 0) p SIZEOF_INODE
  ⊢ ⌞aligned p⌟ ∗ rb_cell p ∗ is_inode p (INode 0 0 0 0 0).
Proof.
  iIntros "H".
  iDestruct (@zeroed_struct (simple_allocator 0) p inode_offs SIZEOF_INODE eq_refl with "H")
    as "([%Hp %Ha] & Hf & Hr)". unfold inode_offs at 1. simpl. rw Z.add_0_r.
  iDestruct "Hf" as "(H1 & H2 & H3 & H4 & H5 & H6 & H7 & H8 & _)".
  iSplitR; [iPureIntro; split; [done|div_lia]|]. iSplitL "H1 H2 H3".
  { iExists 0, 0, 0. iSplitL "H1"; [iExact "H1"|]. iSplitL "H2"; [iExact "H2"|iExact "H3"]. }
  iSplitL "H4"; [iExact "H4"|]. iSplitL "H5"; [iExact "H5"|]. iSplitL "H6"; [iExact "H6"|].
  iSplitL "H7"; [iExact "H7"|]. iSplitL "H8"; [iExact "H8"|iExact "Hr"].
Qed.

#[global] Opaque c_rest.

Lemma inode_intro n h d eh p a :
  inode_handle n ↦ h -∗ inode_data n ↦ d -∗ inode_ehandle n ↦ eh -∗ inode_packet n ↦ p -∗
  inode_armed n ↦ a -∗ c_rest n inode_offs SIZEOF_INODE -∗ is_inode n (INode h d eh p a).
Proof.
  iIntros "H4 H5 H6 H7 H8 Hr".
  iSplitL "H4"; [iExact "H4"|]. iSplitL "H5"; [iExact "H5"|]. iSplitL "H6"; [iExact "H6"|].
  iSplitL "H7"; [iExact "H7"|]. iSplitL "H8"; [iExact "H8"|iExact "Hr"].
Qed.

(** ** Searching the tree *)

(** Handles are in decreasing order. *)
Definition downward (hof : Z -> Z) (L : list Z) : Prop := StronglySorted (fun x y => hof y < hof x) L.

Lemma downward_app hof A x B :
  downward hof (A ++ x :: B) -> downward hof A /\ downward hof B /\
  Forall (fun y => hof x < hof y) A /\ Forall (fun y => hof y < hof x) B.
Proof.
  unfold downward. induction A as [|a A IH]; simpl; intros H.
  - inversion H; subst. by split_and!; [constructor| | |].
  - inversion H as [|? ? HA Ha]; subst. destruct (IH HA) as (H1 & H2 & H3 & H4).
    apply Forall_app in Ha as [Ha1 [Hax Ha2]%Forall_cons]. split_and!; [by constructor|done|by constructor|done].
Qed.

Lemma downward_insert hof A x B :
  downward hof (A ++ B) -> Forall (fun y => hof x < hof y) A -> Forall (fun y => hof y < hof x) B ->
  downward hof (A ++ x :: B).
Proof.
  unfold downward. induction A as [|a A IH]; simpl; intros H HA HB; [by constructor|].
  inversion H as [|? ? HAB Ha]; subst. apply Forall_cons in HA as [Hax HA].
  constructor; [by apply IH|]. apply Forall_app in Ha as [Ha1 Ha2]. apply Forall_app. by split; [|constructor].
Qed.

Lemma downward_remove hof A x B : downward hof (A ++ x :: B) -> downward hof (A ++ B).
Proof.
  unfold downward. induction A as [|a A IH]; simpl; intros H; inversion H as [|? ? H1 H2]; subst; [done|].
  constructor; [by apply IH|]. apply Forall_app in H2 as [H2 [_ H3]%Forall_cons]. by apply Forall_app.
Qed.

Lemma downward_ext hof hof' L :
  (forall x, x ∈ L -> hof' x = hof x) -> downward hof L -> downward hof' L.
Proof.
  unfold downward. induction L as [|a L IH]; intros He H; [constructor|].
  inversion H as [|? ? H1 H2]; subst. constructor; [apply IH; [intros x Hx; apply He; by constructor|done]|].
  rw Forall_forall in H2. apply Forall_forall. intros y Hy. rw (He a); [|by constructor]. rw (He y); [by apply H2|by constructor].
Qed.

Section search.
Context (R : heapProp) (hof : Z -> Z) (T : list Z).
Context (access : forall x, x ∈ T ->
  R ⊢ inode_handle x ↦ hof x ∗ (inode_handle x ↦ hof x -∗ R)).

Lemma wp_this x (Q : Z -> heapProp) :
  x ∈ T -> R ∗ (R -∗ Q (hof x)) ⊢ wp (load (inode_handle x)) Q.
Proof.
  iIntros (Hx) "[HR HQ]". iDestruct (access x Hx with "HR") as "[Hc HR]".
  iApply wp_load. iFrame "Hc". iIntros "Hc". iApply "HQ". by iApply "HR".
Qed.

(** [r] is the node of handle [h] among those of [L], if there is one. *)
Definition found (L : list Z) (h r : Z) : Prop :=
  (r ∈ L /\ hof r = h) \/ (r = NULL /\ Forall (fun x => hof x <> h) L).

Lemma wp_lookup_loop fuel p t h :
  (theight t < fuel)%nat -> inorder t ⊆ T -> downward hof (inorder t) ->
  is_tree p t ∗ R
  ⊢ wp (loop fuel (iocp_lookup_body h) (ptr t)) (fun r =>
      ⌞found (inorder t) h r⌟ ∗ is_tree p t ∗ R).
Proof.
  revert p t. induction fuel as [|fuel IH]; intros p t Hf Hin Hd; [lia|].
  iIntros "[Ht HR]". iApply wp_loop_S. unfold iocp_lookup_body.
  destruct t as [|c l a r].
  { simpl. wp_norm. iFrame. iPureIntro. right. by split; [|constructor]. }
  simpl (ptr _). iDestruct "Ht" as "(%Hal & (Hc & Hrt & Hlt) & Hl & Hr)". rw is_true_aligned //.
  simpl in Hin, Hd, Hf. apply downward_app in Hd as (Hdl & Hdr & HA & HB).
  iApply wp_bind. iApply wp_this; [apply Hin, elem_of_app; right; by constructor|].
  iFrame "HR". iIntros "HR". change (inode_of a) with a. destruct (Z.ltb_spec (hof a) h) as [Hlt|Hge].
  { wp_load. iApply wp_wand. iSplitL "Hl HR".
    { iApply (IH a l); [lia| |done|iFrame]. intros y Hy. apply Hin, elem_of_app. by left. }
    iIntros (res) "(%Hres & Hl & HR)". iSplitR; [|by iFrame]. iPureIntro.
    destruct Hres as [[H1 H2]|[-> H2]]; [left; split; [apply elem_of_app; by left|done]|right; split; [done|]].
    apply Forall_app. split; [done|]. constructor; [lia|]. eapply Forall_impl; [exact HB|]. simpl. lia. }
  destruct (Z.ltb_spec h (hof a)) as [Hlt|Hge'].
  { wp_load. iApply wp_wand. iSplitL "Hr HR".
    { iApply (IH a r); [lia| |done|iFrame]. intros y Hy. apply Hin, elem_of_app. right. by right. }
    iIntros (res) "(%Hres & Hr & HR)". iSplitR; [|by iFrame]. iPureIntro.
    destruct Hres as [[H1 H2]|[-> H2]]; [left; split; [apply elem_of_app; right; by right|done]|right; split; [done|]].
    apply Forall_app. split; [eapply Forall_impl; [exact HA|]; simpl; lia|]. constructor; [lia|done]. }
  wp_norm. iFrame. iPureIntro. split; [|done]. left. split; [|lia]. apply elem_of_app. right. by constructor.
Qed.

Lemma wp_insert_search fuel self k t h :
  (theight t < fuel)%nat -> inorder t ⊆ T -> downward hof (inorder t) ->
  Forall (fun y => hof y <> h) (inorder t) ->
  Forall (fun y => h < hof y) (cbefore k) -> Forall (fun y => hof y < h) (cafter k) ->
  is_ctx self k (ptr t) ∗ is_tree (cptr k) t ∗ R
  ⊢ wp (loop fuel (iocp_insert_body h) (clink self k, cptr k)) (fun r =>
      ∃ k', ⌞r = Some (clink self k', cptr k') /\ plug k' Leaf = plug k t /\
          Forall (fun y => h < hof y) (cbefore k') /\ Forall (fun y => hof y < h) (cafter k')⌟ ∗
        is_ctx self k' NULL ∗ R).
Proof.
  revert k t. induction fuel as [|fuel IH]; intros k t Hf Hin Hd Hne Hb Ha; [lia|].
  iIntros "(Hk & Ht & HR)". iApply wp_loop_S. unfold iocp_insert_body.
  iDestruct (is_ctx_link with "Hk") as "[Hlink Hk]". wp_load. iDestruct ("Hk" with "Hlink") as "Hk".
  destruct t as [|c l a r]; [simpl; wp_norm; iExists k; by iFrame|].
  simpl (ptr _). iDestruct "Ht" as "(%Hal & Hn & Hl & Hr)". rw is_true_aligned //.
  simpl in Hin, Hd, Hf, Hne. apply downward_app in Hd as (Hdl & Hdr & HA & HB).
  apply Forall_app in Hne as [Hnl [Hna Hnr]%Forall_cons].
  iApply wp_bind. iApply wp_this; [apply Hin, elem_of_app; right; by constructor|].
  iFrame "HR". iIntros "HR". change (inode_of a) with a. destruct (Z.ltb_spec (hof a) h) as [Hlt|Hge].
  - wp_norm. iApply (IH (CL c k a r) l with "[-]"); [lia| |done|done|done| |simpl; by iFrame].
    + intros y Hy. apply Hin, elem_of_app. by left.
    + simpl. constructor; [done|]. apply Forall_app. split; [|done].
      eapply Forall_impl; [exact HB|]. simpl. lia.
  - rw (proj2 (Z.ltb_lt h (hof a))); [|lia]. wp_norm.
    iApply (IH (CR c l a k) r with "[-]"); [lia| |done|done| |done|simpl; by iFrame].
    + intros y Hy. apply Hin, elem_of_app. right. by right.
    + simpl. apply Forall_app. split; [done|]. apply Forall_app. split; [|constructor; [lia|done]].
      eapply Forall_impl; [exact HA|]. simpl. lia.
Qed.

(** On the whole tree. *)
Lemma wp_iocp_lookup self h :
  downward hof T ->
  rb_lists (iocp_tree self) T ∗ R
  ⊢ wp (hev_task_io_reactor_iocp_lookup self h) (fun r =>
      ⌞found T h r⌟ ∗ rb_lists (iocp_tree self) T ∗ R).
Proof.
  iIntros (Hd) "[(%t & [%Hb %Ht] & Hroot & Htree) HR]". unfold hev_task_io_reactor_iocp_lookup.
  wp_load. iApply (wp_while (tsize t)). iSplit.
  { iDestruct (is_tree_heap_ge with "Htree") as "Htree". iExact "Htree". }
  iIntros (fuel Hf). pose proof (theight_tsize t). iApply wp_wand. iSplitL "Htree HR".
  { iApply (wp_lookup_loop fuel NULL t h with "[$Htree $HR]"); [lia|by rw Ht|by rw Ht]. }
  iIntros (r) "(%Hr & Htree & $)". rw Ht in Hr. iSplitR; [done|]. iExists t. iFrame. done.
Qed.

Lemma wp_iocp_insert self n h :
  downward hof T -> Forall (fun x => hof x <> h) T -> aligned n ->
  rb_lists (iocp_tree self) T ∗ R ∗ rb_cell n ∗ inode_handle n ↦ h
  ⊢ wp (hev_task_io_reactor_iocp_insert self n) (fun r => ⌞r = 0⌟ ∗ ∃ A B,
      ⌞T = A ++ B /\ Forall (fun y => h < hof y) A /\ Forall (fun y => hof y < h) B⌟ ∗
      rb_lists (iocp_tree self) (A ++ n :: B) ∗ R ∗ inode_handle n ↦ h).
Proof.
  iIntros (Hd Hne Hn) "((%t & [%Hb %Ht] & Hroot & Htree) & HR & Hcell & Hh)".
  unfold hev_task_io_reactor_iocp_insert. wp_load. iApply wp_bind. iApply wp_wand.
  iSplitL "Hroot Htree HR".
  { iApply (wp_while (tsize t)). iSplit.
    { iDestruct (is_tree_heap_ge with "Htree") as "Htree". iExact "Htree". }
    iIntros (fuel Hf). pose proof (theight_tsize t).
    iApply (wp_insert_search fuel (iocp_tree self) RBTreeSpec.Top t h); [lia|by rw Ht|by rw Ht|by rw Ht|done|done|].
    simpl. iFrame. }
  iIntros (r) "(%k & %Hpure & Hk & HR)". destruct Hpure as (-> & Hplug & HA & HB). simpl in Hplug. subst t.
  destruct (plug_balanced_inv _ _ Hb) as (c & m & Hrk & Hleaf). rw (inorder_plug k Leaf) in Ht.
  simpl in Ht. iApply wp_bind. iApply wp_wand. change (inode_base n) with n.
  iSplitL "Hk Hcell"; [iApply (wp_link_insert _ _ _ _ _ Hrk Hleaf Hn); iFrame|].
  iIntros (u) "Hins". iApply wp_bind. iApply wp_wand. iSplitL "Hins"; [by iApply wp_insert_color|].
  iIntros (v) "Htree". wp_norm. iSplitR; [done|]. iExists (cbefore k), (cafter k). iFrame. done.
Qed.
End search.

(** ** The invariant *)

Definition h_of (E : gmap Z inode) (n : Z) : Z := from_option in_handle 0 (E !! n).

(** The tree lists the nodes by handle, and an associated packet is that of an
    armed node. *)
Record inodes_ok (L : list Z) (E : gmap Z inode) (w : packets) : Prop := {
  io_elem n : n ∈ L <-> is_Some (E !! n);
  io_down : downward (h_of E) L;
  io_armed p n : w !! p = Some n ->
    exists e, E !! n = Some e /\ in_packet e = p /\ in_armed e <> 0
}.

Lemma h_of_some E n e : E !! n = Some e -> h_of E n = in_handle e.
Proof. unfold h_of. by intros ->. Qed.

Lemma ok_empty : inodes_ok [] ∅ ∅.
Proof.
  split.
  - intros n. rw lookup_empty. split; [by intros ?%not_elem_of_nil|by intros []].
  - constructor.
  - intros p n. by rw lookup_empty.
Qed.

(** A node changes, and the associations of its packet. *)
Lemma ok_update L E w n e e' w' :
  inodes_ok L E w -> E !! n = Some e -> in_handle e' = in_handle e ->
  (forall p m, w' !! p = Some m ->
     (m <> n /\ w !! p = Some m) \/ (m = n /\ in_packet e' = p /\ in_armed e' <> 0)) ->
  inodes_ok L (<[n := e']> E) w'.
Proof.
  intros [H1 H2 H3] He Hh Hw. split.
  - intros m. rw H1 lookup_insert. case_decide; [subst; rw He|done]. by split; eauto.
  - apply (downward_ext (h_of E)); [|done]. intros x _. unfold h_of. rw lookup_insert.
    case_decide; [subst; by rw He|done].
  - intros p m [[Hne Hp]|(-> & Hp & Ha)]%Hw.
    + destruct (H3 _ _ Hp) as (e0 & He0 & Hr). exists e0. rw lookup_insert_ne //.
    + exists e'. rw lookup_insert_eq //.
Qed.

Lemma ok_arm L E w n e :
  inodes_ok L E w -> E !! n = Some e ->
  inodes_ok L (<[n := set_armed 1 e]> E) (<[in_packet e := n]> w).
Proof.
  intros Hok He. apply (ok_update L E w n e); [done..|]. intros p m. rw lookup_insert.
  case_decide as Hp; [intros [= <-]; right; by split_and!|].
  intros Hw. destruct (io_armed _ _ _ Hok _ _ Hw) as (e0 & He0 & Hr & _). left. split; [|done].
  intros ->. congruence.
Qed.

Lemma ok_received L E w n e :
  inodes_ok L E w -> E !! n = Some e ->
  inodes_ok L (<[n := set_armed 0 e]> E) (filter (fun x => x.2 <> n) w).
Proof.
  intros Hok He. apply (ok_update L E w n e); [done..|].
  intros p m [Hp Hm]%map_lookup_filter_Some. by left.
Qed.

Lemma ok_set_data L E w n e d :
  inodes_ok L E w -> E !! n = Some e -> inodes_ok L (<[n := set_data d e]> E) w.
Proof.
  intros Hok He. apply (ok_update L E w n e); [done..|]. intros p m Hw.
  destruct (decide (m = n)) as [->|]; [|by left]. right. split; [done|].
  destruct (io_armed _ _ _ Hok _ _ Hw) as (e0 & He0 & Hr). by simplify_eq.
Qed.

(** A node leaves; its packet is associated no more. *)
Lemma ok_delete A B E w n e w' :
  inodes_ok (A ++ n :: B) E w -> E !! n = Some e ->
  (forall p m, w' !! p = Some m -> w !! p = Some m) ->
  (in_armed e <> 0 -> w' !! in_packet e = None) ->
  inodes_ok (A ++ B) (delete n E) w'.
Proof.
  intros [H1 H2 H3] He Hsub Hnone. destruct (downward_app _ _ _ _ H2) as (_ & _ & HA & HB).
  rw Forall_forall in HA. rw Forall_forall in HB.
  assert (forall x, x ∈ A ++ B -> x <> n) as Hne.
  { intros x [Hx|Hx]%elem_of_app ->; [specialize (HA n Hx)|specialize (HB n Hx)]; lia. }
  split.
  - intros m. rw lookup_delete. case_decide as Hm.
    + subst m. split; [intros Hx; by destruct (Hne n Hx)|by intros []].
    + rw -H1 !elem_of_app elem_of_cons. naive_solver.
  - apply (downward_ext (h_of E)); [|by apply downward_remove in H2].
    intros x Hx. unfold h_of. rw lookup_delete_ne //. by apply not_eq_sym, Hne.
  - intros p m Hp. destruct (H3 _ _ (Hsub _ _ Hp)) as (e0 & He0 & Hpk & Ha). exists e0.
    rw lookup_delete_ne //. intros <-. simplify_eq. by rw (Hnone Ha) in Hp.
Qed.

(** A node enters. *)
Lemma ok_insert A B E w n e w' :
  inodes_ok (A ++ B) E w -> E !! n = None ->
  Forall (fun y => in_handle e < h_of E y) A -> Forall (fun y => h_of E y < in_handle e) B ->
  (forall p m, w' !! p = Some m ->
     w !! p = Some m \/ (m = n /\ in_packet e = p /\ in_armed e <> 0)) ->
  inodes_ok (A ++ n :: B) (<[n := e]> E) w'.
Proof.
  intros [H1 H2 H3] He HA HB Hw.
  assert (forall x, x ∈ A ++ B -> x <> n) as Hne.
  { intros x Hx ->. apply H1 in Hx as [e0 He0]. congruence. }
  assert (forall x, x ∈ A ++ B -> h_of (<[n := e]> E) x = h_of E x) as Hh.
  { intros x Hx. unfold h_of. rw lookup_insert_ne //. by apply not_eq_sym, Hne. }
  assert (h_of (<[n := e]> E) n = in_handle e) as Hn by by apply h_of_some, lookup_insert_eq.
  split.
  - intros m. rw lookup_insert. case_decide as Hm.
    + subst m. split; [by eauto|]. intros _. rw elem_of_app elem_of_cons. tauto.
    + rw -H1 !elem_of_app elem_of_cons. naive_solver.
  - apply downward_insert; [by apply (downward_ext (h_of E))| |].
    + rw Forall_forall in HA. apply Forall_forall. intros x Hx. rw Hn Hh; [by apply HA|].
      apply elem_of_app. by left.
    + rw Forall_forall in HB. apply Forall_forall. intros x Hx. rw Hn Hh; [by apply HB|].
      apply elem_of_app. by right.
  - intros p m [Hp|(-> & Hp & Ha)]%Hw.
    + destruct (H3 _ _ Hp) as (e0 & He0 & Hr). exists e0. rw lookup_insert_ne //. intros ->. congruence.
    + exists e. rw lookup_insert_eq //.
Qed.

(** The handles that are registered, each with its data and whether it is a
    waitable handle itself. *)
Definition shows (E : gmap Z inode) (M : gmap Z (Z * bool)) : Prop :=
  forall h x, M !! h = Some x <-> exists n e, E !! n = Some e /\ in_handle e = h /\
    x = (in_data e, in_handle e =? in_ehandle e).

Lemma handles_unique L E w n m e e' :
  inodes_ok L E w -> E !! n = Some e -> E !! m = Some e' -> in_handle e = in_handle e' -> n = m.
Proof.
  intros [H1 H2 _] Hn Hm Heq. assert (n ∈ L) as Hin by by apply H1; eauto.
  apply list_elem_of_split in Hin as (A & B & ->).
  destruct (downward_app _ _ _ _ H2) as (_ & _ & HA & HB). rw Forall_forall in HA. rw Forall_forall in HB.
  assert (m ∈ A ++ n :: B) as Hin by by apply H1; eauto.
  apply elem_of_app in Hin as [Hx|[->|Hx]%elem_of_cons]; [specialize (HA m Hx)|done|specialize (HB m Hx)];
    rw (h_of_some E n e) // (h_of_some E m e') // in HA HB; lia.
Qed.

Lemma shows_lookup E M n e :
  shows E M -> E !! n = Some e -> M !! in_handle e = Some (in_data e, in_handle e =? in_ehandle e).
Proof. intros Hs He. apply Hs. exists n, e. by split_and!. Qed.

Lemma shows_none E M h :
  shows E M -> (forall n e, E !! n = Some e -> in_handle e <> h) -> M !! h = None.
Proof.
  intros Hs Hne. destruct (M !! h) as [x|] eqn:Hx; [|done].
  apply Hs in Hx as (n & e & He & Hh & _). by destruct (Hne n e He).
Qed.

(** A node changes all but its handle. *)
Lemma shows_update L E w M n e e' :
  inodes_ok L E w -> shows E M -> E !! n = Some e -> in_handle e' = in_handle e ->
  shows (<[n := e']> E) (<[in_handle e := (in_data e', in_handle e' =? in_ehandle e')]> M).
Proof.
  intros Hok Hs He Hh k x. rw lookup_insert. case_decide as Hk.
  - subst k. split.
    + intros [= <-]. exists n, e'. rw lookup_insert_eq //.
    + intros (m & e0 & He0 & Hh0 & ->). f_equal.
      destruct (decide (n = m)) as [->|Hne]; [rw lookup_insert_eq in He0; congruence|].
      rw lookup_insert_ne // in He0. by destruct Hne; eapply (handles_unique L E w).
  - rw (Hs k x). split; intros (m & e0 & He0 & Hh0 & ->); exists m, e0.
    + rw lookup_insert_ne //. intros <-. simplify_eq.
    + destruct (decide (n = m)) as [->|Hne]; [rw lookup_insert_eq in He0; congruence|].
      by rw lookup_insert_ne // in He0.
Qed.

Lemma shows_same L E w M n e e' :
  inodes_ok L E w -> shows E M -> E !! n = Some e -> in_handle e' = in_handle e ->
  in_data e' = in_data e -> in_ehandle e' = in_ehandle e -> shows (<[n := e']> E) M.
Proof.
  intros Hok Hs He Hh Hd Heh. pose proof (shows_update L E w M n e e' Hok Hs He Hh) as H.
  rw Hh Hd Heh (insert_id M) in H; [done|by apply (shows_lookup E M n e)].
Qed.

Lemma shows_insert E M n e :
  shows E M -> E !! n = None -> (forall m e', E !! m = Some e' -> in_handle e' <> in_handle e) ->
  shows (<[n := e]> E) (<[in_handle e := (in_data e, in_handle e =? in_ehandle e)]> M).
Proof.
  intros Hs He Hne k x. rw lookup_insert. case_decide as Hk.
  - subst k. split.
    + intros [= <-]. exists n, e. rw lookup_insert_eq //.
    + intros (m & e0 & He0 & Hh0 & ->). rw lookup_insert in He0. case_decide; [congruence|].
      by destruct (Hne m e0 He0).
  - rw (Hs k x). split; intros (m & e0 & He0 & Hh0 & ->); exists m, e0.
    + rw lookup_insert_ne //. intros <-. congruence.
    + rw lookup_insert in He0. case_decide; [congruence|done].
Qed.

Lemma shows_delete L E w M n e :
  inodes_ok L E w -> shows E M -> E !! n = Some e -> shows (delete n E) (delete (in_handle e) M).
Proof.
  intros Hok Hs He k x. rw lookup_delete. case_decide as Hk.
  - subst k. split; [done|]. intros (m & e0 & He0 & Hh0 & _).
    rw lookup_delete in He0. case_decide as Hm; [done|].
    by destruct Hm; eapply (handles_unique L E w).
  - rw (Hs k x). split; intros (m & e0 & He0 & Hh0 & ->); exists m, e0.
    + rw lookup_delete_ne //. intros <-. congruence.
    + rw lookup_delete in He0. by case_decide.
Qed.

(** ** The reactor *)

Definition nodes (E : gmap Z inode) : heapProp := ([∗ map] n ↦ e ∈ E, is_inode n e)%I.

Definition iocp_offs : list Z := [0; 8].

Definition is_tree_of (self : Z) (E : gmap Z inode) (w : packets) : heapProp :=
  (∃ L, rb_lists (iocp_tree self) L ∗ nodes E ∗ ⌞inodes_ok L E w⌟)%I.

Section reactor.
Context `{!Allocator} (Y : Z -> heapProp -> heapProp) `{!YieldMono Y}.

(** The reactor [self] over the port [port] with the registrations [M]. *)
Definition is_iocp (self port : Z) (M : gmap Z (Z * bool)) (w : packets) : heapProp :=
  (iocp_handle self ↦ port ∗ block_rest self iocp_offs SIZEOF_IOCP ∗
   ∃ E, is_tree_of self E w ∗ ⌞shows E M⌟)%I.

Abbreviation kernel w := (within packet_valid packet_step w).

(** Calls that are none of the three on packets. *)
Lemma cwp_kernel_any {A} f args n (k : answer -> co A) w Q :
  packet_call f = false ->
  (∀ a, cwp Y (kernel w (k a)) Q) ⊢ cwp Y (kernel w (Ext (Query f args n) k)) Q.
Proof.
  intros Hf. iIntros "H". iApply cwp_within_query. iIntros (a _).
  rw (unpacked_neutral (Query f args n) Hf w a). iApply "H".
Qed.

(** Programs that make no such calls. *)
Lemma cwp_kernel_plain {A B} (c : co A) (k : A -> co B) w Q1 Q :
  unpacked_tree c ->
  cwp Y c Q1 ∗ (∀ x, Q1 x -∗ cwp Y (kernel w (k x)) Q) ⊢ cwp Y (kernel w (co_bind c k)) Q.
Proof.
  intros Hc. apply cwp_within_plain; [done|]. by apply (calls_mono unpacked _ c unpacked_neutral).
Qed.

Lemma nodes_acc E n e :
  E !! n = Some e -> nodes E ⊢ is_inode n e ∗ (∀ e', is_inode n e' -∗ nodes (<[n := e']> E)).
Proof.
  intros He. unfold nodes. iIntros "H". by iDestruct (big_sepM_insert_acc with "H") as "[$ $]".
Qed.

Lemma nodes_handle E n :
  is_Some (E !! n) ->
  nodes E ⊢ inode_handle n ↦ h_of E n ∗ (inode_handle n ↦ h_of E n -∗ nodes E).
Proof.
  intros [e He]. iIntros "H". iDestruct (nodes_acc E n e He with "H") as "[(Hh & Hr) H]".
  rw (h_of_some E n e He). iFrame "Hh". iIntros "Hh".
  iDestruct ("H" $! e with "[$Hh $Hr]") as "H". by rw insert_id.
Qed.

Lemma nodes_fresh E n v : nodes E -∗ inode_handle n ↦ v -∗ ⌜E !! n = None⌝.
Proof.
  iIntros "H Hn". destruct (E !! n) as [e|] eqn:He; [|done].
  iDestruct (nodes_acc E n e He with "H") as "[(Hh & _) _]".
  by iDestruct (points_to_ne with "Hh Hn") as %?.
Qed.

(** *** Arming and freeing *)

(** A node that is armed already stays so; the association may fail. *)
Definition arms (n : Z) (e : inode) (w : packets) (r : Z) (e' : inode) (w' : packets) : Prop :=
  ((r = 0 \/ r = -1) /\ e' = e /\ w' = w) \/
  (r = 0 /\ e' = set_armed 1 e /\ w' = <[in_packet e := n]> w).

Lemma cwp_arm n port e w :
  is_inode n e ⊢ cwp Y (kernel w (hev_task_io_reactor_iocp_node_arm n port)) (fun rw =>
    ∃ e', is_inode n e' ∗ ⌞arms n e w rw.1 e' rw.2⌟).
Proof.
  destruct e as [h d eh p ar]. iIntros "(Hh & Hd & He & Hp & Ha & Hr)".
  unfold hev_task_io_reactor_iocp_node_arm. cbn [within cwp in_armed in_packet in_ehandle].
  wp_load. destruct (is_true ar) eqn:Harm.
  { cbn [within cwp fst snd]. iExists _. iSplitL; [iApply (inode_intro with "Hh Hd He Hp Ha Hr")|].
    iPureIntro. left. auto. }
  cbn [within cwp]. do 2 wp_load. cbn [co_bind sys call]. iApply cwp_within_query.
  iIntros (a _). unfold packet_step. cbn [String.eqb Ascii.eqb Bool.eqb co_bind].
  destruct (a_ret a <? 0).
  { cbn [within cwp fst snd]. iExists _. iSplitL; [iApply (inode_intro with "Hh Hd He Hp Ha Hr")|].
    iPureIntro. left. auto. }
  cbn [within cwp]. wp_store. cbn [within cwp fst snd]. iExists _.
  iSplitL; [iApply (inode_intro with "Hh Hd He Hp Ha Hr")|]. iPureIntro. by right.
Qed.

(** A node's packet is taken back if it is armed. *)
Definition disarmed (e : inode) (w : packets) : packets :=
  if is_true (in_armed e) then delete (in_packet e) w else w.

Lemma cwp_node_free n e w R :
  rb_cell n ∗ is_inode n e ∗ is_registry R
  ⊢ cwp Y (kernel w (hev_task_io_reactor_iocp_node_free n)) (fun rw =>
      is_registry R ∗ ⌞rw.2 = disarmed e w⌟).
Proof.
  iIntros "(Hc & (Hh & Hd & He & Hp & Ha & Hr) & HR)". unfold hev_task_io_reactor_iocp_node_free, disarmed.
  cbn [within cwp]. do 2 wp_load. iApply (cwp_within_call _ _ _ _ _ _
    (fun xw => ⌞xw.2 = if is_true (in_armed e) then delete (in_packet e) w else w⌟)%I). iSplitR.
  { destruct (is_true (in_armed e)); [|by cbn [within cwp fst snd]]. cbn [co_bind sys call].
    iApply cwp_within_query. iIntros (a _). by cbn [within cwp fst snd co_bind]. }
  iIntros (u w') "%Hw". cbn [snd] in Hw. subst w'. set (w' := if is_true _ then _ else _). clearbody w'.
  cbn [within cwp]. wp_load. iApply (cwp_kernel_plain _ _ _ (fun _ => emp)%I); [calls|]. iSplitR.
  { destruct (is_true _); [|by cbn [cwp]]. iApply cwp_call. iSplitR.
    - iApply cwp_sys. iIntros (v). cbn [cwp]. iAssert emp%I as "H"; [done|]. iExact "H".
    - iIntros (v) "_". by cbn [cwp]. }
  iIntros (u1) "_". cbn [within cwp]. unfold hev_task_io_reactor_iocp_node_is_handle. do 2 wp_load. wp_norm.
  iApply (cwp_kernel_plain _ _ _ (fun _ => inode_handle n ↦ in_handle e ∗ inode_ehandle n ↦ in_ehandle e ∗
    is_registry R)%I); [calls|].
  iSplitL "Hh He HR".
  { destruct (in_handle e =? in_ehandle e); [by cbn [cwp]; iFrame|]. cbn [cwp]. wp_load.
    iApply cwp_call. iSplitL "HR"; [by iApply cwp_token_to_socket|]. iIntros (s) "[-> HR]".
    iApply (cwp_call _ _ _ (fun _ => emp)%I). iSplitR.
    { destruct (negb _); [|by cbn [cwp]]. unfold WSAEventSelect. iApply cwp_sys. iIntros (v). by cbn [cwp]. }
    iIntros (v) "_". cbn [cwp]. wp_load. iApply cwp_sys. iIntros (v'). cbn [cwp]. iFrame. }
  iIntros (u2) "(Hh & He & HR)".
  iDestruct (inode_intro with "Hh Hd He Hp Ha Hr") as "Hn".
  iDestruct (inode_block with "[$Hc $Hn]") as "Hb". unfold free, call. cbn [co_bind within cwp].
  iApply (ext_wp_free n SIZEOF_INODE). iSplitL "Hb"; [iExact "Hb"|].
  iIntros (a). cbn [packet_valid packet_step within cwp fst snd]. by iFrame.
Qed.
(** *** The tree as a whole *)

Lemma ok_aligned L E w n e :
  inodes_ok L E w -> Forall aligned L -> E !! n = Some e -> n <> NULL.
Proof.
  intros Hok HL He. rw Forall_forall in HL. destruct (HL n) as [Hn _]; [|unfold NULL; lia].
  apply (io_elem _ _ _ Hok). eauto.
Qed.

(** The node of handle [h], or NULL. *)
Definition looked_up (E : gmap Z inode) (h r : Z) : Prop :=
  (exists e, E !! r = Some e /\ in_handle e = h /\ r <> NULL) \/
  (r = NULL /\ forall n e, E !! n = Some e -> in_handle e <> h).

Lemma wp_lookup self E w h :
  is_tree_of self E w
  ⊢ wp (hev_task_io_reactor_iocp_lookup self h) (fun r =>
      ⌞looked_up E h r⌟ ∗ is_tree_of self E w).
Proof.
  iIntros "(%L & HL & HE & %Hok)". iDestruct (rb_lists_aligned with "HL") as %Hal.
  iApply wp_wand. iSplitL.
  { iApply (wp_iocp_lookup (nodes E) (h_of E) L with "[$HL $HE]").
    - intros x Hx. apply nodes_handle. by apply (io_elem _ _ _ Hok).
    - apply (io_down _ _ _ Hok). }
  iIntros (r) "(%Hr & HL & HE)". iSplitR; [|iExists L; by iFrame]. iPureIntro.
  destruct Hr as [[Hin Hh]|[-> Hne]].
  - left. pose proof Hin as [e He]%(io_elem _ _ _ Hok). exists e. rw (h_of_some E r e He) in Hh.
    split_and!; [done|done|by eapply ok_aligned].
  - right. split; [done|]. intros n e He. rw Forall_forall in Hne.
    rw -(h_of_some E n e He). apply Hne, (io_elem _ _ _ Hok). eauto.
Qed.

Lemma wp_insert self E w n e w' :
  aligned n -> (forall m e', E !! m = Some e' -> in_handle e' <> in_handle e) ->
  (forall p m, w' !! p = Some m -> w !! p = Some m \/ (m = n /\ in_packet e = p /\ in_armed e <> 0)) ->
  is_tree_of self E w ∗ rb_cell n ∗ is_inode n e
  ⊢ wp (hev_task_io_reactor_iocp_insert self n) (fun r =>
      ⌞E !! n = None⌟ ∗ is_tree_of self (<[n := e]> E) w').
Proof.
  iIntros (Hn Hne Hw) "((%L & HL & HE & %Hok) & Hc & (Hh & Hr))".
  iDestruct (nodes_fresh with "HE Hh") as %Hfresh. iApply wp_wand. iSplitL "HL HE Hc Hh".
  { iApply (wp_iocp_insert (nodes E) (h_of E) L _ self n (in_handle e) with "[$HL $HE $Hc $Hh]"); [| |done].
    - apply (io_down _ _ _ Hok).
    - apply Forall_forall. intros x Hx. apply (io_elem _ _ _ Hok) in Hx as [e' He'].
      rw (h_of_some E x e' He'). by eapply Hne. }
  iIntros (r) "(_ & %A & %B & %Hp & HL & HE & Hh)". destruct Hp as (-> & HA & HB). iSplitR; [done|]. iExists (A ++ n :: B).
  iFrame "HL". iSplitL; [|iPureIntro; by apply (ok_insert A B E w)].
  unfold nodes. rw big_sepM_insert //. iFrame "HE Hh". iExact "Hr".
  Unshelve. intros x Hx. apply nodes_handle. by apply (io_elem _ _ _ Hok).
Qed.

Lemma disarmed_sub e w p m : disarmed e w !! p = Some m -> w !! p = Some m.
Proof. unfold disarmed. destruct (is_true _); [|done]. rw lookup_delete. by case_decide. Qed.

Lemma disarmed_none e w : in_armed e <> 0 -> disarmed e w !! in_packet e = None.
Proof. intros Ha. unfold disarmed. rw is_true_nonnull //. apply lookup_delete_eq. Qed.

Lemma cwp_detach self E w n e R :
  E !! n = Some e ->
  is_tree_of self E w ∗ is_registry R
  ⊢ cwp Y (kernel w (hev_task_io_reactor_iocp_node_detach self n)) (fun rw =>
      is_tree_of self (delete n E) rw.2 ∗ is_registry R).
Proof.
  iIntros (He) "[(%L & HL & HE & %Hok) HR]".
  assert (n ∈ L) as Hin by by apply (io_elem _ _ _ Hok); eauto.
  apply list_elem_of_split in Hin as (A & B & ->).
  unfold hev_task_io_reactor_iocp_node_detach. cbn [within cwp]. change (inode_base n) with n.
  iApply wp_wand. iSplitL "HL"; [by iApply wp_rb_erase|]. iIntros (u) "[HL Hc]".
  unfold nodes. rw (big_sepM_delete _ _ _ _ He). iDestruct "HE" as "[Hn HE]".
  iApply cwp_wand. iSplitL "Hc Hn HR"; [iApply (cwp_node_free n e w R); iFrame|].
  iIntros ([u1 w']) "[$ %Hw]". cbn [fst snd] in *. subst w'. iExists (A ++ B). iFrame "HL HE". iPureIntro.
  apply (ok_delete A B E w n e); [done|done|apply disarmed_sub|apply disarmed_none].
Qed.

(** *** Adding *)

Lemma cells_out a data :
  (length data <= 1)%nat ->
  cells_with (take (length data) [a]) data -∗ cells (drop (length data) [a]) -∗ ∃ v, a ↦ v.
Proof.
  intros Hl. iIntros "H1 H2". rw cells_with_cells.
  iDestruct (cells_join (length data) [a] with "[$H1 $H2]") as "[$ _]".
Qed.

Lemma cwp_free_inode {B} n e (k : unit -> co B) Q :
  rb_cell n ∗ is_inode n e ∗ cwp Y (k tt) Q ⊢ cwp Y (co_bind (free n) k) Q.
Proof.
  iIntros "(Hc & Hn & H)". iDestruct (inode_block with "[$Hc $Hn]") as "Hb".
  unfold free, call. cbn [co_bind cwp]. iApply (ext_wp_free n SIZEOF_INODE).
  iSplitL "Hb"; [iExact "Hb"|]. iIntros (a). iExact "H".
Qed.

Lemma unpacked_free_event n h : unpacked_tree (iocp_add_free_event n h).
Proof. unfold iocp_add_free_event. calls. Qed.
#[local] Hint Resolve unpacked_free_event : calls.

Lemma cwp_add_free_event n e h R :
  rb_cell n ∗ is_inode n e ∗ is_registry R
  ⊢ cwp Y (iocp_add_free_event n h) (fun r => ⌞r = -1⌟ ∗ is_registry R).
Proof.
  destruct e as [h0 d eh p ar]. iIntros "(Hc & (Hh & Hd & He & Hp & Ha & Hr) & HR)".
  unfold iocp_add_free_event. cbn [cwp in_handle in_data in_ehandle in_packet in_armed].
  unfold hev_task_io_reactor_iocp_node_is_handle. do 2 wp_load. wp_norm.
  iApply (cwp_call _ _ _ (fun _ => inode_ehandle n ↦ eh ∗ is_registry R)%I). iSplitL "He HR".
  { destruct (h0 =? eh); [by cbn [cwp]; iFrame|]. iApply cwp_call.
    iSplitL "HR"; [by iApply cwp_token_to_socket|]. iIntros (s) "[_ HR]". unfold WSAEventSelect.
    iApply cwp_sys. iIntros (v). cbn [cwp]. wp_load. iApply cwp_sys. iIntros (v'). cbn [cwp]. iFrame. }
  iIntros (u) "[He HR]". iApply cwp_free_inode. iSplitL "Hc"; [iExact "Hc"|].
  iSplitR "HR"; [iApply (inode_intro with "Hh Hd He Hp Ha Hr")|]. cbn [cwp]. by iFrame.
Qed.

(** The node was entered, or freed. *)
Definition added (self : Z) (E : gmap Z inode) (n : Z) (e : inode) (rw : Z * packets) : heapProp :=
  ((⌞rw.1 = -1⌟ ∗ is_tree_of self E rw.2) ∨
   (⌞rw.1 = 0⌟ ∗ ∃ e', ⌞E !! n = None /\ in_handle e' = in_handle e /\ in_data e' = in_data e /\
      in_ehandle e' = in_ehandle e⌟ ∗ is_tree_of self (<[n := e']> E) rw.2))%I.

Lemma cwp_add_packet self E w port n e R :
  aligned n -> in_armed e = 0 -> (forall m e', E !! m = Some e' -> in_handle e' <> in_handle e) ->
  is_tree_of self E w ∗ iocp_handle self ↦ port ∗ rb_cell n ∗ is_inode n e ∗ is_registry R
  ⊢ cwp Y (kernel w (iocp_add_packet self n (in_handle e))) (fun rw =>
      iocp_handle self ↦ port ∗ is_registry R ∗ added self E n e rw).
Proof.
  intros Hn Harm Hne. destruct e as [h d eh p ar]. cbn in Harm, Hne. subst ar.
  iIntros "(HE & Hport & Hc & (Hh & Hd & He & Hp & Ha & Hr) & HR)". unfold iocp_add_packet, call.
  cbn [co_bind within cwp in_handle in_data in_ehandle in_packet in_armed]. iApply ext_wp_sys.
  iSplitL "Hp"; [unfold cells; cbn [big_opL]; iSplitL; [by iExists p|done]|].
  iIntros (a [Hl _]) "H1 H2". iDestruct (cells_out with "H1 H2") as "[%p' Hp]"; [done|].
  cbn [packet_valid packet_step]. iDestruct (inode_intro with "Hh Hd He Hp Ha Hr") as "Hn".
  destruct (a_ret a <? 0).
  { iApply cwp_wand. iSplitL "Hc Hn HR".
    { iApply (cwp_within_neutral _ _ _ (iocp_add_free_event n h) w (fun r => ⌞r = -1⌟ ∗ is_registry R)%I).
      - apply (calls_mono unpacked); [apply unpacked_neutral|apply unpacked_free_event].
      - iApply cwp_add_free_event. iFrame. }
    iIntros ([r w']) "(%Hw & %Hr & HR)". cbn [fst snd] in *. subst. iFrame "Hport HR". iLeft. by iFrame. }
  cbn [within cwp]. wp_load. iApply cwp_within_call. iSplitL "Hn"; [by iApply cwp_arm|].
  iIntros (r w') "(%e' & Hn & %Harms)". cbn [fst snd] in Harms. destruct (Z.ltb_spec r 0) as [Hr|Hr].
  - destruct Harms as [(_ & -> & ->)|(-> & _ & _)]; [|done]. iApply cwp_within_call.
    iSplitL "Hc Hn HR"; [iApply (cwp_node_free n _ w R); iFrame|]. iIntros (u w') "[HR %Hw]".
    cbn [fst snd] in Hw. unfold disarmed in Hw. cbn in Hw. subst w'. cbn [within cwp]. iFrame "Hport HR".
    iLeft. by iFrame.
  - cbn [within cwp]. assert (in_handle e' = h /\ in_data e' = d /\ in_ehandle e' = eh) as (Hh & Hd & Heh).
    { destruct Harms as [(_ & -> & _)|(_ & -> & _)]; done. }
    iApply wp_wand. iSplitL "HE Hc Hn".
    { iApply (wp_insert self E w n e' w' with "[$HE $Hc $Hn]"); [done|by rw Hh|].
      intros q m Hq. destruct Harms as [(_ & _ & ->)|(_ & -> & ->)]; [by left|].
      rw lookup_insert in Hq. case_decide; [|by left]. right. simplify_eq. done. }
    iIntros (u) "[%Hfresh HE]". cbn [within cwp]. iFrame "Hport HR". iRight. iSplitR; [done|].
    iExists e'. by iFrame.
Qed.

(** [iocp_setup] of a handle [h] that is not registered, and of one that is. *)
Definition add_result (ev : iocp_setup_event) (M : gmap Z (Z * bool)) (r : Z)
    (M' : gmap Z (Z * bool)) : Prop :=
  match M !! ise_handle ev with
  | None => (r = -1 /\ M' = M) \/
      (r = 0 /\ exists b, (ise_events ev = 0 -> b = true) /\
         M' = <[ise_handle ev := (ise_data ev, b)]> M)
  | Some (_, b) =>
      if negb b || is_true (ise_events ev) then r = -1 /\ M' = M
      else (r = 0 \/ r = -1) /\ M' = <[ise_handle ev := (ise_data ev, true)]> M
  end.

Lemma arms_same n e w r e' w' :
  arms n e w r e' w' ->
  (r = 0 \/ r = -1) /\ in_handle e' = in_handle e /\ in_data e' = in_data e /\ in_ehandle e' = in_ehandle e.
Proof. intros [(Hr & -> & _)|(-> & -> & _)]; auto. Qed.

Lemma ok_arms L E w n e r e' w' :
  inodes_ok L E w -> E !! n = Some e -> arms n e w r e' w' -> inodes_ok L (<[n := e']> E) w'.
Proof.
  intros Hok He [(_ & -> & ->)|(_ & -> & ->)]; [by rw insert_id|by apply ok_arm].
Qed.

(** Adding a handle that is there. *)
Lemma cwp_add_again self port M w R n E e ev :
  E !! n = Some e -> in_handle e = ise_handle ev -> shows E M ->
  iocp_handle self ↦ port ∗ block_rest self iocp_offs SIZEOF_IOCP ∗ is_tree_of self E w ∗ is_registry R
  ⊢ cwp Y (kernel w (is_handle <! hev_task_io_reactor_iocp_node_is_handle n ;;
      if negb is_handle || is_true (ise_events ev) then Ret (-1) else
      store (inode_data n) (ise_data ev) !;;
      port <! load (iocp_handle self) ;;
      hev_task_io_reactor_iocp_node_arm n port)) (fun rw =>
    ∃ M', is_iocp self port M' rw.2 ∗ is_registry R ∗ ⌞add_result ev M rw.1 M'⌟).
Proof.
  intros He Hh Hs. iIntros "(Hport & Hrest & (%L & HL & HE & %Hok) & HR)".
  pose proof (shows_lookup E M n e Hs He) as HM. rw Hh in HM. unfold add_result. rw HM.
  cbn [within cwp]. unfold hev_task_io_reactor_iocp_node_is_handle.
  iDestruct (nodes_acc E n e He with "HE") as "[(Hhd & Hd & Heh & Hp & Ha & Hr) HE]".
  do 2 wp_load. wp_norm. rw -Hh. destruct (negb (in_handle e =? in_ehandle e) || is_true (ise_events ev)) eqn:Hb.
  { cbn [within cwp fst snd]. iExists M. iFrame "HR Hport Hrest". iSplitL; [|done]. iExists E. iSplitL; [|done].
    iExists L. iFrame "HL". iDestruct (inode_intro with "Hhd Hd Heh Hp Ha Hr") as "Hn".
    iDestruct ("HE" with "Hn") as "HE". destruct e. rw insert_id //. by iFrame. }
  apply orb_false_iff in Hb as [Hb%negb_false_iff Hev]. cbn [within cwp]. wp_store. cbn [within cwp]. wp_load.
  iDestruct (inode_intro with "Hhd Hd Heh Hp Ha Hr") as "Hn". set (e1 := INode _ _ _ _ _).
  iApply cwp_wand. iSplitL "Hn"; [by iApply (cwp_arm n port e1)|]. iIntros ([r w']) "(%e' & Hn & %Harms)".
  cbn [fst snd] in *. destruct (arms_same _ _ _ _ _ _ Harms) as (Hres & Hh' & Hd' & Heh').
  iDestruct ("HE" with "Hn") as "HE". iExists (<[in_handle e := (ise_data ev, true)]> M).
  iFrame "HR Hport Hrest". iSplitL; [|done]. iExists (<[n := e']> E). iSplitL.
  - iExists L. iFrame. iPureIntro. rw -(insert_insert_eq E n e' e1). apply (ok_arms L _ w n e1 r e' w'); [|apply lookup_insert_eq|done].
    by apply (ok_set_data L E w n e).
  - iPureIntro. pose proof (shows_update L E w M n e e' Hok Hs He Hh') as HS.
    by rw Hh' Hd' Heh' /= Hb in HS.
Qed.

Lemma cwp_kernel_free {B} n e (k : unit -> co B) w Q :
  rb_cell n ∗ is_inode n e ∗ cwp Y (kernel w (k tt)) Q ⊢ cwp Y (kernel w (co_bind (free n) k)) Q.
Proof.
  iIntros "(Hc & Hn & H)". iApply (cwp_kernel_plain _ _ _ (fun _ => emp)%I); [calls|]. iSplitL "Hc Hn".
  - iDestruct (inode_block with "[$Hc $Hn]") as "Hb". unfold free, call. cbn [co_bind cwp].
    iApply (ext_wp_free n SIZEOF_INODE). iSplitL "Hb"; [iExact "Hb"|]. by iIntros (a).
  - iIntros ([]) "_". iExact "H".
Qed.

(** The reactor, as it was. *)
Lemma iocp_same self port M E w :
  shows E M -> iocp_handle self ↦ port ∗ block_rest self iocp_offs SIZEOF_IOCP ∗ is_tree_of self E w
  ⊢ is_iocp self port M w.
Proof. intros Hs. iIntros "($ & $ & H)". iExists E. by iFrame. Qed.

Lemma added_iocp self port M E n e ev rw R :
  shows E M -> (forall m e', E !! m = Some e' -> in_handle e' <> ise_handle ev) ->
  in_handle e = ise_handle ev -> in_data e = ise_data ev ->
  (ise_events ev = 0 -> in_ehandle e = ise_handle ev) ->
  iocp_handle self ↦ port ∗ block_rest self iocp_offs SIZEOF_IOCP ∗ added self E n e rw ∗ is_registry R
  ⊢ ∃ M', is_iocp self port M' rw.2 ∗ is_registry R ∗ ⌞add_result ev M rw.1 M'⌟.
Proof.
  intros Hs Hne Hh Hd Heh. pose proof (shows_none E M _ Hs Hne) as HM. unfold add_result. rw HM.
  iIntros "(Hp & Hb & [[-> HE]|(-> & %e' & %He & HE)] & $)".
  - iExists M. iSplitL; [|iPureIntro; by left]. iApply (iocp_same self port M E); [done|]. iFrame.
  - destruct He as (Hfresh & Hh' & Hd' & Heh'). iExists (<[ise_handle ev := (ise_data ev, in_handle e' =? in_ehandle e')]> M).
    iSplitL.
    + iApply (iocp_same self port _ (<[n := e']> E)); [|iFrame].
      pose proof (shows_insert E M n e' Hs Hfresh) as HS. rw Hh' Hh Hd' Hd in HS. by rw Hh' Hh; apply HS.
    + iPureIntro. right. split; [done|]. exists (in_handle e' =? in_ehandle e'). split; [|done].
      intros H0. rw Hh' Heh' Hh (Heh H0). apply Z.eqb_refl.
Qed.

Lemma cwp_add self port M w R ev :
  is_iocp self port M w ∗ is_registry R
  ⊢ cwp Y (kernel w (hev_task_io_reactor_iocp_add self ev)) (fun rw =>
      ∃ M', is_iocp self port M' rw.2 ∗ is_registry R ∗ ⌞add_result ev M rw.1 M'⌟).
Proof.
  iIntros "[(Hport & Hrest & %E & HE & %Hs) HR]". unfold hev_task_io_reactor_iocp_add.
  cbn [within cwp]. iApply wp_wand. iSplitL "HE"; [by iApply wp_lookup|]. iIntros (n) "[%Hn HE]".
  destruct Hn as [(e & He & Hh & Hnn)|[-> Hne]].
  { rw is_true_nonnull //. iApply (cwp_add_again self port M w R n E e ev He Hh Hs). iFrame. }
  change (is_true NULL) with false. cbv iota. pose proof (shows_none E M _ Hs Hne) as HM.
  iApply (cwp_kernel_plain (calloc 1 SIZEOF_INODE) _ w
    (fun p => ⌞p = NULL⌟ ∨ @zeroed (simple_allocator 0) p SIZEOF_INODE)%I); [calls|].
  iSplitR; [by iApply cwp_calloc|]. iIntros (n) "[->|Hz]".
  { change (is_true NULL) with false. cbn [negb within cwp fst snd]. iExists M.
    iSplitR "HR"; [iApply (iocp_same self port M E); [done|iFrame]|]. iFrame "HR". iPureIntro.
    unfold add_result. rw HM. by left. }
  iDestruct (fresh_inode with "Hz") as "(%Hal & Hc & (Hh & Hd & He & Hp & Ha & Hr))".
  cbn [in_handle in_data in_ehandle in_packet in_armed].
  rw is_true_aligned //. cbn [negb within cwp]. wp_store. cbn [within cwp]. wp_store.
  destruct (is_true (ise_events ev)) eqn:Hev.
  - iApply (cwp_kernel_plain _ _ _ (fun _ => is_registry R)); [calls|]. iSplitL "HR".
    { iApply cwp_wand. iSplitL "HR"; [by iApply cwp_token_to_socket|]. by iIntros (s) "[_ $]". }
    iIntros (sock) "HR". cbv zeta. destruct (sock =? Win.INVALID_SOCKET).
    { iDestruct (inode_intro with "Hh Hd He Hp Ha Hr") as "Hn". iApply cwp_kernel_free. iFrame "Hc Hn".
      cbn [within cwp fst snd]. iExists M. iSplitR "HR"; [iApply (iocp_same self port M E); [done|iFrame]|].
      iFrame "HR". iPureIntro. unfold add_result. rw HM. by left. }
    cbn [co_bind sys call]. iApply cwp_kernel_any; [done|]. iIntros (a). cbn [co_bind within cwp].
    wp_store. iDestruct (inode_intro with "Hh Hd He Hp Ha Hr") as "Hn".
    destruct (is_true (a_ret a)) eqn:Heh; cbn [negb].
    2:{ iApply cwp_kernel_free. iFrame "Hc Hn". cbn [within cwp fst snd]. iExists M.
        iSplitR "HR"; [iApply (iocp_same self port M E); [done|iFrame]|]. iFrame "HR". iPureIntro.
        unfold add_result. rw HM. by left. }
    unfold WSAEventSelect at 1. cbn [co_bind sys call]. iApply cwp_kernel_any; [done|]. iIntros (b).
    cbn [co_bind]. destruct (is_true (a_ret b)).
    { iApply cwp_wand. iSplitL "Hc Hn HR".
      { iApply (cwp_within_neutral _ _ _ (iocp_add_free_event n (ise_handle ev)) w
          (fun r => ⌞r = -1⌟ ∗ is_registry R)%I).
        - apply (calls_mono unpacked); [apply unpacked_neutral|apply unpacked_free_event].
        - iApply (cwp_add_free_event n). iFrame "Hc Hn HR". }
      iIntros ([r w']) "(%Hw & %Hr & HR)". cbn [fst snd] in *. subst. iExists M.
      iSplitR "HR"; [iApply (iocp_same self port M E); [done|iFrame]|]. iFrame "HR". iPureIntro.
      unfold add_result. rw HM. by left. }
    set (e := INode _ _ _ _ _). change (iocp_add_packet self n (ise_handle ev)) with (iocp_add_packet self n (in_handle e)). iApply cwp_wand.
    iSplitL "HE Hport Hc Hn HR"; [iApply (cwp_add_packet self E w port n e R); [done..|]; iSplitL "HE"; [iExact "HE"|];
        iSplitL "Hport"; [iExact "Hport"|]; iSplitL "Hc"; [iExact "Hc"|]; iSplitL "Hn"; [iExact "Hn"|iExact "HR"]|].
    iIntros (rw) "(Hport & HR & HA)". iApply (added_iocp self port M E n e ev rw R); [done..| |iFrame].
    intros H0. by rw H0 in Hev.
  - cbn [within cwp]. wp_store. iDestruct (inode_intro with "Hh Hd He Hp Ha Hr") as "Hn".
    set (e := INode _ _ _ _ _). change (iocp_add_packet self n (ise_handle ev)) with (iocp_add_packet self n (in_handle e)). iApply cwp_wand.
    iSplitL "HE Hport Hc Hn HR"; [iApply (cwp_add_packet self E w port n e R); [done..|]; iSplitL "HE"; [iExact "HE"|];
        iSplitL "Hport"; [iExact "Hport"|]; iSplitL "Hc"; [iExact "Hc"|]; iSplitL "Hn"; [iExact "Hn"|iExact "HR"]|].
    iIntros (rw) "(Hport & HR & HA)". iApply (added_iocp self port M E n e ev rw R); [done..|iFrame].
Qed.

End reactor.
