(* ===== verification/IocpLife.v ===== *)
(** * IocpLife: the reactor of completion ports from its creation to its end

    The remaining operations on the map of registrations: changing and deleting
    one, waiting for a completion, and the creation and destruction of the
    reactor. *)

From Stdlib Require Import String Sorting.Sorted.
From S2P Require Import Prelude.
From S2P Require Import Sep.
From S2P Require Import RBTree.
From S2P Require Import RBTreeSpec.
From S2P Require Import RBTreeProofs.
From S2P Require Import RBTreeErase.
From S2P Require Import RBTreeRemove.
From S2P Require Import RBTreeApi.
From S2P Require Import Env.
From S2P Require Import EnvLogic.
From S2P Require Import Trace.
From S2P Require Import World.
From S2P Require Import Mem.
From S2P Require Import Alloc.
From S2P Require Import WinSys.
From S2P Require Import WinFd.
From S2P Require Import WinFdProps.
From S2P Require Import Reactor.
From S2P Require Import Iocp.

From S2P Require Import IocpProofs.

Local Open Scope Z_scope.

(** [hev_task_io_reactor_setup] with one event. *)
Definition setup_result (ev : iocp_setup_event) (M : gmap Z (Z * bool)) (r : Z)
    (M' : gmap Z (Z * bool)) : Prop :=
  if ise_op ev =? IOCP_OP_ADD then add_result ev M r M'
  else if ise_op ev =? IOCP_OP_MOD then
    M' = M /\ (r = 0 \/ r = -1) /\ (M !! ise_handle ev = None -> r = -1)
  else if ise_op ev =? IOCP_OP_DEL then
    M' = delete (ise_handle ev) M /\ r = match M !! ise_handle ev with Some _ => 0 | None => -1 end
  else M' = M /\ r = -1.

(** An event is reported with the data of a registered handle; a waitable handle
    reports no kinds of events. *)
Definition wait_result (M : gmap Z (Z * bool)) (res : Z * list HevTaskIOReactorWaitEvent) : Prop :=
  (res.2 = [] /\ (res.1 = 0 \/ res.1 = -1)) \/
  (res.1 = 1 /\ exists ev h b, res.2 = [ev] /\ M !! h = Some (we_data ev, b) /\
     (b = true -> we_events ev = 0) /\ (b = false -> we_events ev <> 0)).

(** ** Allocators make no calls on packets *)

Lemma unpacked_default : unpacked_tree hev_memory_allocator_default.
Proof. unfold hev_memory_allocator_default, simple_new, malloc. calls. Qed.

Lemma unpacked_alloc self n : unpacked_tree (hev_memory_allocator_alloc self n).
Proof. unfold hev_memory_allocator_alloc, simple_alloc, slice_alloc, wild_call, act, malloc. calls. Qed.

Lemma unpacked_release self p : unpacked_tree (hev_memory_allocator_free self p).
Proof.
  unfold hev_memory_allocator_free, simple_free, slice_free, slice_evict, wild_call, act. calls.
Qed.
#[export] Hint Resolve unpacked_default unpacked_alloc unpacked_release : calls.

Lemma unpacked_hev_free p : unpacked_tree (hev_free p).
Proof. unfold hev_free. calls. Qed.

Lemma unpacked_hev_malloc0 n : unpacked_tree (hev_malloc0 n).
Proof. unfold hev_malloc0. calls. Qed.
#[export] Hint Resolve unpacked_hev_free unpacked_hev_malloc0 : calls.

Lemma unpacked_iocp_new : unpacked_tree iocp_reactor_new.
Proof. unfold iocp_reactor_new, hev_task_io_reactor_iocp_init. calls. Qed.

Section life.
Context `{!Allocator} (Y : Z -> heapProp -> heapProp) `{!YieldMono Y}.

Abbreviation kernel w := (within packet_valid packet_step w).

(** The same rules on a call that is bound. *)
Lemma cwp_kernel_query {B} f args n (k : answer -> co B) w Q :
  (∀ a, ⌜packet_valid w (Query f args n) a = true⌝ →
     cwp Y (kernel (packet_step w (Query f args n) a) (k a)) Q)
  ⊢ cwp Y (kernel w (co_bind (call (Query f args n)) k)) Q.
Proof. apply cwp_within_query. Qed.

Lemma cwp_kernel_skip {B} f args n (k : answer -> co B) w Q :
  packet_call f = false ->
  (∀ a, cwp Y (kernel w (k a)) Q) ⊢ cwp Y (kernel w (co_bind (call (Query f args n)) k)) Q.
Proof. apply cwp_kernel_any. Qed.

Lemma cwp_mod self port M w R ev :
  is_iocp self port M w ∗ is_registry R
  ⊢ cwp Y (kernel w (hev_task_io_reactor_iocp_mod self ev)) (fun rw =>
      is_iocp self port M rw.2 ∗ is_registry R ∗
      ⌞(rw.1 = 0 \/ rw.1 = -1) /\ (M !! ise_handle ev = None -> rw.1 = -1)⌟).
Proof.
  iIntros "[(Hport & Hrest & %E & HE & %Hs) HR]". unfold hev_task_io_reactor_iocp_mod.
  cbn [within cwp]. iApply wp_wand. iSplitL "HE"; [by iApply wp_lookup|]. iIntros (n) "[%Hn HE]".
  destruct Hn as [(e & He & Hh & Hnn)|[-> Hne]].
  2:{ change (is_true NULL) with false. cbn [negb within cwp fst snd]. iFrame "HR".
      iSplitL; [|by iPureIntro; auto]. iApply (iocp_same self port M E); [done|iFrame]. }
  rw is_true_nonnull //. cbn [negb within cwp]. pose proof (shows_lookup E M n e Hs He) as HM. rw Hh in HM.
  iDestruct "HE" as "(%L & HL & HE & %Hok)".
  iDestruct (nodes_acc E n e He with "HE") as "[(Hhd & Hd & Heh & Hp & Ha & Hr) HE]".
  unfold hev_task_io_reactor_iocp_node_is_handle. do 2 wp_load. wp_norm.
  iApply (cwp_wand _ _ (fun rw => inode_handle n ↦ in_handle e ∗ inode_ehandle n ↦ in_ehandle e ∗
    is_registry R ∗ ⌞rw.2 = w /\ (rw.1 = 0 \/ rw.1 = -1)⌟)%I). iSplitL "Hhd Heh HR".
  - destruct (negb _ && _); [|cbn [within cwp fst snd]; iFrame; by iPureIntro; auto].
    cbn [within cwp]. wp_load. iApply (cwp_kernel_plain Y _ _ _ (fun _ => is_registry R)); [calls|].
    iSplitL "HR".
    { iApply cwp_wand. iSplitL "HR"; [by iApply cwp_token_to_socket|]. by iIntros (s) "[_ $]". }
    iIntros (sock) "HR". cbv zeta. destruct (sock =? Win.INVALID_SOCKET).
    { cbn [within cwp fst snd]. iFrame. by iPureIntro; auto. }
    cbn [within cwp]. wp_load. unfold WSAEventSelect. cbn [co_bind sys call].
    iApply cwp_kernel_any; [done|]. iIntros (a). cbn [co_bind].
    destruct (is_true (a_ret a)); cbn [within cwp fst snd]; iFrame; by iPureIntro; auto.
  - iIntros ([r w']) "(Hhd & Heh & HR & %Hrw)". cbn [fst snd] in *. destruct Hrw as [-> Hr].
    iDestruct (inode_intro with "Hhd Hd Heh Hp Ha Hr") as "Hn". iDestruct ("HE" with "Hn") as "HE".
    iFrame "HR". iSplitL; [|iPureIntro; split; [done|by rw HM]].
    iApply (iocp_same self port M E); [done|]. iFrame "Hport Hrest". iExists L. iFrame "HL".
    destruct e. rw insert_id //. by iFrame.
Qed.

Lemma cwp_del self port M w R ev :
  is_iocp self port M w ∗ is_registry R
  ⊢ cwp Y (kernel w (hev_task_io_reactor_iocp_del self ev)) (fun rw =>
      is_iocp self port (delete (ise_handle ev) M) rw.2 ∗ is_registry R ∗
      ⌞rw.1 = match M !! ise_handle ev with Some _ => 0 | None => -1 end⌟).
Proof.
  iIntros "[(Hport & Hrest & %E & HE & %Hs) HR]". unfold hev_task_io_reactor_iocp_del.
  cbn [within cwp]. iApply wp_wand. iSplitL "HE"; [by iApply wp_lookup|]. iIntros (n) "[%Hn HE]".
  destruct Hn as [(e & He & Hh & Hnn)|[-> Hne]].
  - rw is_true_nonnull //. cbn [negb]. pose proof (shows_lookup E M n e Hs He) as HM. rw Hh in HM. rw HM.
    iDestruct "HE" as "(%L & HL & HE & %Hok)". iApply cwp_within_call. iSplitL "HL HE HR".
    { iApply (cwp_detach Y self E w n e R He). iFrame "HR". iExists L. by iFrame. }
    iIntros (u w') "[HE HR]". cbn [within cwp fst snd]. iFrame "HR". iSplitL; [|done].
    iApply (iocp_same self port _ (delete n E)); [rw -Hh; by eapply shows_delete|]. iFrame.
  - change (is_true NULL) with false. pose proof (shows_none E M _ Hs Hne) as HM. rw HM.
    cbn [negb within cwp fst snd]. iFrame "HR". iSplitL; [|done]. rw delete_id //.
    iApply (iocp_same self port M E); [done|iFrame].
Qed.

Lemma cwp_setup self port M w R ev :
  is_iocp self port M w ∗ is_registry R
  ⊢ cwp Y (kernel w (iocp_reactor_setup self [ev] 1)) (fun rw =>
      ∃ M', is_iocp self port M' rw.2 ∗ is_registry R ∗ ⌞setup_result ev M rw.1 M'⌟).
Proof.
  iIntros "H". unfold iocp_reactor_setup, setup_result. change (IOCP_EVENT_GEN_MAX <? 1) with false.
  change (1 <=? 0) with false. cbv iota. destruct (ise_op ev =? IOCP_OP_ADD); [by iApply cwp_add|].
  destruct (ise_op ev =? IOCP_OP_MOD).
  { iApply cwp_wand. iSplitL; [by iApply cwp_mod|]. iIntros (rw) "(H & HR & %Hr)". iExists M. by iFrame. }
  destruct (ise_op ev =? IOCP_OP_DEL).
  { iApply cwp_wand. iSplitL; [by iApply cwp_del|]. iIntros (rw) "(H & HR & %Hr)".
    iExists (delete (ise_handle ev) M). by iFrame. }
  cbn [within cwp fst snd]. iDestruct "H" as "[H HR]". iExists M. by iFrame.
Qed.

(** *** Waiting *)

Lemma reported_node w f args n a :
  packet_valid w (Query f args n) a = true -> f = "GetQueuedCompletionStatus"%string -> a_ret a <> 0 ->
  exists p node rest, a_data a = node :: rest /\ w !! p = Some node.
Proof.
  intros Hv -> Hr. cbn in Hv. apply orb_true_iff in Hv as [Hz%Z.eqb_eq|Hv]; [done|].
  destruct (a_data a) as [|node rest]; [done|]. apply existsb_exists in Hv as ([p m] & Hin & Hm%Z.eqb_eq).
  cbn in Hm. subst m. exists p, node, rest. split; [done|].
  by apply elem_of_map_to_list, list_elem_of_In.
Qed.

Lemma cwp_wait_body self port timeout M w R :
  is_iocp self port M w ∗ is_registry R
  ⊢ cwp Y (kernel w (iocp_wait_body self timeout tt)) (fun rw =>
      is_iocp self port M rw.2 ∗ is_registry R ∗
      ⌞match rw.1 with inl _ => True | inr res => wait_result M res end⌟).
Proof.
  iIntros "[(Hport & Hrest & %E & (%L & HL & HE & %Hok) & %Hs) HR]". unfold iocp_wait_body.
  cbn [within cwp]. wp_load. iApply cwp_kernel_query. iIntros (a Hv).
  destruct (Z.eqb_spec (a_ret a) 0) as [Hz|Hnz].
  { assert (packet_step w (Query "GetQueuedCompletionStatus" [port; timeout] 1) a = w) as ->.
    { cbn. rw Hz. by destruct (a_data a). }
    cbn [co_bind sys call]. iApply cwp_kernel_any; [done|]. iIntros (er). cbn [co_bind within cwp fst snd].
    iFrame "HR". iSplitL.
    - iApply (iocp_same self port M E); [done|]. iFrame "Hport Hrest". iExists L. by iFrame.
    - iPureIntro. left. by destruct (_ =? _); auto. }
  destruct (reported_node w _ _ _ a Hv eq_refl Hnz) as (p & n & rest & Hdata & Hp).
  destruct (io_armed _ _ _ Hok _ _ Hp) as (e & He & _ & _).
  assert (packet_step w (Query "GetQueuedCompletionStatus" [port; timeout] 1) a =
    filter (fun x => x.2 <> n) w) as ->.
  { cbn. rw Hdata (proj2 (Z.eqb_neq _ _) Hnz) //. }
  rw Hdata. set (w1 := filter _ w). pose proof (ok_received L E w n e Hok He) as Hok1. fold w1 in Hok1.
  clearbody w1. cbn [within cwp]. wp_norm. cbn [within cwp].
  iDestruct (nodes_acc E n e He with "HE") as "[(Hh & Hd & Heh & Hpk & Ha & Hr) HE]".
  wp_store. cbn [within cwp]. wp_load. cbn [within cwp].
  unfold hev_task_io_reactor_iocp_node_is_handle. do 2 wp_load. wp_norm.
  pose proof (shows_lookup E M n e Hs He) as HM. set (e1 := set_armed 0 e) in *.
  assert (shows (<[n := e1]> E) M) as Hs1 by by apply (shows_same L E w M n e e1).
  destruct (in_handle e =? in_ehandle e) eqn:Hwait.
  { iDestruct (inode_intro with "Hh Hd Heh Hpk Ha Hr") as "Hn". iDestruct ("HE" with "Hn") as "HE".
    cbn [within cwp fst snd]. iFrame "HR". iSplitL.
    - iApply (iocp_same self port M _ _ Hs1). iFrame "Hport Hrest". iExists L. iFrame "HL". by iFrame.
    - iPureIntro. right. split; [done|]. exists (WaitEvent 0 (in_data e)), (in_handle e), true. by split_and!. }
  cbn [within cwp]. wp_load. iApply (cwp_kernel_plain Y _ _ _ (fun _ => is_registry R)); [calls|].
  iSplitL "HR".
  { iApply cwp_wand. iSplitL "HR"; [by iApply cwp_token_to_socket|]. by iIntros (s) "[_ $]". }
  iIntros (sock) "HR". destruct (sock =? Win.INVALID_SOCKET).
  { iDestruct (inode_intro with "Hh Hd Heh Hpk Ha Hr") as "Hn". iDestruct ("HE" with "Hn") as "HE".
    cbn [within cwp fst snd]. iFrame "HR". iSplitL; [|done].
    iApply (iocp_same self port M _ _ Hs1). iFrame "Hport Hrest". iExists L. iFrame "HL". by iFrame. }
  cbn [within cwp]. wp_load. iApply cwp_kernel_skip; [done|]. iIntros (en).
  iDestruct (inode_intro with "Hh Hd Heh Hpk Ha Hr") as "Hn".
  iApply cwp_within_call. iSplitL "Hn"; [by iApply (cwp_arm Y n port e1)|].
  iIntros (r w2) "(%e2 & Hn & %Harms)". cbn [fst snd] in Harms. iDestruct ("HE" with "Hn") as "HE".
  destruct (arms_same _ _ _ _ _ _ Harms) as (_ & Hh2 & Hd2 & Heh2).
  pose proof (ok_arms L _ w1 n e1 r e2 w2 Hok1 (lookup_insert_eq _ _ _) Harms) as Hok2.
  rw insert_insert_eq in Hok2.
  assert (shows (<[n := e2]> E) M) as Hs2 by by apply (shows_same L E w M n e e2).
  iAssert (is_iocp self port M w2) with "[HL HE Hport Hrest]" as "HI".
  { iApply (iocp_same self port M _ _ Hs2). iFrame "Hport Hrest". iExists L. iFrame "HL". by iFrame. }
  cbv zeta. set (ev := match a_data en with [] => 0 | ev :: _ => ev end).
  destruct (is_true (a_ret en) || negb (is_true ev)) eqn:Hb; cbn [within cwp fst snd]; iFrame "HI HR"; [done|].
  apply orb_false_iff in Hb as [_ Hev%negb_false_iff]. iPureIntro. right. split; [done|].
  exists (WaitEvent ev (in_data e)), (in_handle e), false. split_and!; [done|done|done|].
  intros _ H0. cbn in H0. by rw H0 in Hev.
Qed.

Lemma cwp_wait self port count timeout M w R :
  is_iocp self port M w ∗ is_registry R
  ⊢ cwp Y (kernel w (iocp_reactor_wait self count timeout)) (fun rw =>
      is_iocp self port M rw.2 ∗ is_registry R ∗ ⌞wait_result M rw.1⌟).
Proof.
  iIntros "H". unfold iocp_reactor_wait. destruct (count <=? 0).
  { cbn [within cwp fst snd]. iDestruct "H" as "[$ $]". iPureIntro. left. auto. }
  iApply (cwp_within_while _ _ _ _ (fun _ w => is_iocp self port M w ∗ is_registry R)%I with "H").
  intros [] v. iIntros "H". iApply cwp_wand. iSplitL; [by iApply cwp_wait_body|].
  iIntros ([[[]|res] v']) "(H & HR & %Hr)"; cbn [fst snd]; by iFrame.
Qed.

(** *** Creation *)

(** The functions of [ntdll], once they have been looked up or not yet. *)
Definition nt_vars : heapProp :=
  ((∃ v, nt_create_wait_packet ↦ v) ∗ (∃ v, nt_associate_wait_packet ↦ v) ∗
   (∃ v, nt_cancel_wait_packet ↦ v))%I.

Lemma cwp_iocp_init : nt_vars ⊢ cwp Y hev_task_io_reactor_iocp_init (fun _ => nt_vars).
Proof.
  iIntros "([%c Hc] & [%a Ha] & [%x Hx])". unfold hev_task_io_reactor_iocp_init. cbn [cwp]. wp_load.
  destruct (is_true c).
  { cbn [cwp]. iSplitL "Hc"; [by iExists c|]. iSplitL "Ha"; [by iExists a|by iExists x]. }
  iApply cwp_sys. iIntros (ntdll). destruct (negb _).
  { cbn [cwp]. iSplitL "Hc"; [by iExists c|]. iSplitL "Ha"; [by iExists a|by iExists x]. }
  iApply cwp_sys. iIntros (a'). cbn [cwp]. wp_store. iApply cwp_sys. iIntros (x'). cbn [cwp]. wp_store.
  iApply cwp_sys. iIntros (c'). cbn [cwp]. wp_store. destruct (_ || _).
  - cbn [cwp]. wp_store. cbn [cwp]. iSplitL "Hc"; [by iExists NULL|].
    iSplitL "Ha"; [by iExists a'|by iExists x'].
  - cbn [cwp]. iSplitL "Hc"; [by iExists c'|]. iSplitL "Ha"; [by iExists a'|by iExists x'].
Qed.

Lemma no_nodes self :
  rb_root (iocp_tree self) ↦ NULL ⊢ is_tree_of self ∅ ∅.
Proof.
  iIntros "H". iExists []. iSplitL; [|unfold nodes; rw big_sepM_empty; iSplitR; [done|by iPureIntro; apply ok_empty]].
  iExists Leaf. iSplitR; [iPureIntro; split; [by exists 0%nat; constructor|done]|]. unfold is_rbtree. by iFrame.
Qed.

Lemma cwp_iocp_new :
  al_heap ∗ nt_vars ⊢ cwp Y iocp_reactor_new (fun r => al_heap ∗ nt_vars ∗
    (⌞r = NULL⌟ ∨ ⌞r <> NULL⌟ ∗ ∃ port, is_iocp r port ∅ ∅)).
Proof.
  iIntros "[Hh Hn]". unfold iocp_reactor_new. iApply cwp_call. iSplitL "Hn"; [by iApply cwp_iocp_init|].
  iIntros (i) "Hn". destruct (i <? 0); [cbn [cwp]; iFrame; by iLeft|]. iApply cwp_call.
  iSplitL "Hh"; [iApply (wp_hev_malloc0 _ SIZEOF_IOCP with "Hh"); done|].
  iIntros (r) "[Hh [->|Hz]]"; [cbn; iFrame; by iLeft|]. rw (zeroed_struct r iocp_offs) //.
  iDestruct "Hz" as "([%Hp _] & Hf & Hb)". rw is_true_nonnull; [|unfold NULL; lia]. cbn [negb].
  iEval (unfold iocp_offs; simpl; rw Z.add_0_r) in "Hf". iDestruct "Hf" as "(H1 & H2 & _)".
  iApply cwp_sys. iIntros (port). destruct (is_true port); cbn [negb cwp].
  - iAssert (iocp_handle r ↦ 0)%I with "[H1]" as "H1"; [iExact "H1"|]. wp_store. cbn [cwp].
    iFrame "Hh Hn". iRight. iSplitR; [iPureIntro; unfold NULL; lia|]. iExists port. iFrame "H1 Hb".
    iExists ∅. iSplitL; [by iApply no_nodes|]. iPureIntro. intros h x. rw lookup_empty.
    split; [done|]. intros (n & e & He & _). by rw lookup_empty in He.
  - iApply (cwp_call _ _ _ (fun _ => al_heap)). iSplitR "Hn".
    + iApply (wp_hev_free _ r SIZEOF_IOCP). iFrame "Hh". iApply (block_close r iocp_offs); [done|].
      iFrame "Hb". unfold field_cells, iocp_offs. simpl. rw Z.add_0_r.
      iSplitL "H1"; [by iExists 0|]. iSplitL "H2"; [by iExists 0|done].
    + iIntros (u) "Hh". cbn [cwp]. iFrame. by iLeft.
Qed.

(** *** Destruction *)

Lemma nodes_heap_ge E : nodes E ⊢ heap_ge (size E).
Proof.
  unfold nodes. induction E as [|n e E Hn IH] using map_ind.
  - rw map_size_empty. apply heap_ge_0.
  - rw map_size_insert_None // big_sepM_insert //. iIntros "[(Hh & _) HE]".
    iApply (heap_ge_sep 1). iSplitL "Hh"; [by iApply points_to_heap_ge|by iApply IH].
Qed.

Lemma cwp_destroy_loop self w R k E :
  (size E < k)%nat ->
  is_tree_of self E w ∗ is_registry R
  ⊢ cwp Y (kernel w (co_loop (act (fail OutOfFuel)) k (iocp_destroy_body self) tt)) (fun rw =>
      ⌞rw.2 = ∅⌟ ∗ rb_root (iocp_tree self) ↦ NULL ∗ is_registry R).
Proof.
  revert E w. induction k as [|k IH]; intros E w Hk; [lia|]. iIntros "[(%L & HL & HE & %Hok) HR]".
  iApply cwp_within_loop_S. unfold iocp_destroy_body at 1. cbn [within cwp].
  iDestruct "HL" as "(%t & [%Hb %Ht] & Hroot & Htree)". wp_load. destruct t as [|c l a r].
  - simpl in Ht. subst L. assert (E = ∅) as ->.
    { apply map_eq. intros n. rw lookup_empty. destruct (E !! n) as [e|] eqn:He; [|done].
      assert (n ∈ ([] : list Z)) as []%not_elem_of_nil. apply (io_elem _ _ _ Hok). eauto. }
    assert (w = ∅) as ->.
    { apply map_eq. intros p. rw lookup_empty. destruct (w !! p) as [n|] eqn:Hp; [|done].
      destruct (io_armed _ _ _ Hok _ _ Hp) as (e & He & _). by rw lookup_empty in He. }
    simpl. unfold nodes. rw big_sepM_empty. by iFrame.
  - iDestruct "Htree" as "(%Hal & Hnode & Hl & Hr)". simpl (ptr _). rw is_true_aligned //.
    assert (is_Some (E !! a)) as [e He].
    { apply (io_elem _ _ _ Hok). rw -Ht. simpl. apply elem_of_app. right. by constructor. }
    iApply cwp_within_call. iSplitL.
    { iApply (cwp_detach Y self E w a e R He). iFrame "HR". iExists L. iSplitR "HE"; [|by iFrame].
      iExists (Node c l a r). iSplitR; [done|]. iFrame "Hroot". simpl. by iFrame. }
    iIntros (u w') "[HE HR]". cbn [within cwp fst snd]. iApply IH; [|iFrame].
    rw map_size_delete He. assert (size E <> 0%nat) as Hne; [|lia].
    intros H0%map_size_empty_inv. by rw H0 lookup_empty in He.
Qed.

Lemma cwp_iocp_destroy self port M w R :
  is_iocp self port M w ∗ is_registry R ∗ al_heap
  ⊢ cwp Y (kernel w (iocp_reactor_destroy self)) (fun rw => ⌞rw.2 = ∅⌟ ∗ is_registry R ∗ al_heap).
Proof.
  iIntros "((Hport & Hrest & %E & HE & _) & HR & Hh)". unfold iocp_reactor_destroy.
  iApply (cwp_within_call _ _ _ _ _ _ (fun xw => ⌞xw.2 = ∅⌟ ∗ rb_root (iocp_tree self) ↦ NULL ∗
    is_registry R)%I). iSplitL "HE HR".
  { iApply (cwp_within_chase _ _ _ (size E)). iSplit.
    - iDestruct "HE" as "(%L & _ & HE & _)". iDestruct (nodes_heap_ge with "HE") as "HE". iExact "HE".
    - iIntros (k Hk). iApply (cwp_destroy_loop self w R k E Hk). iFrame. }
  iIntros (u w') "(%Hw & Hroot & HR)". cbn [snd] in Hw. subst w'. cbn [within cwp]. wp_load.
  iApply (cwp_kernel_plain Y (sys "CloseHandle" [port]) _ _ (fun _ => emp)%I); [calls|]. iSplitR.
  { iApply cwp_sys. iIntros (v). by cbn [cwp]. }
  iIntros (v) "_". iApply cwp_mono; [|iApply (cwp_within_neutral _ _ _ (hev_free self) ∅ (fun _ => is_registry R ∗ al_heap)%I)].
  - iIntros ([x v'])  "(%Hv & $ & $)". done.
  - apply (calls_mono unpacked); [apply unpacked_neutral|apply unpacked_hev_free].
  - iApply cwp_wand. iSplitL "Hport Hrest Hroot Hh"; [|iIntros (x) "Hh"; iFrame "HR"; iExact "Hh"].
    iApply (wp_hev_free _ self SIZEOF_IOCP). iFrame "Hh". iApply (block_close self iocp_offs); [done|].
    iFrame "Hrest". unfold field_cells, iocp_offs. simpl. rw Z.add_0_r.
    iSplitL "Hport"; [by iExists port|]. iSplitL "Hroot"; [by iExists NULL|done].
Qed.
End life.
