(* ===== verification/IocpProps.v ===== *)
(** * IocpProps: what the reactor of completion ports promises

    A session creates the reactor, runs any sequence of its operations and of
    calls on the registry of descriptors, and destroys it. *)

From S2P Require Import Prelude.
From S2P Require Import Sep.
From S2P Require Import Env.
From S2P Require Import EnvLogic.
From S2P Require Import Trace.
From S2P Require Import World.
From S2P Require Import Mem.
From S2P Require Import Alloc.
From S2P Require Import WinSys.
From S2P Require Import WinFd.
From S2P Require Import WinFdProps.
From S2P Require Import Reactor.
From S2P Require Import Iocp.
From S2P Require Import IocpProofs.
From S2P Require Import IocpLife.

Local Open Scope Z_scope.

(** ** Operations and their results *)

Inductive iocp_op : Type :=
| OpHandle (handle op data : Z)
| OpFd (fd op poll_events data : Z)
| OpWait (count timeout : Z)
| OpRegistry (o : fd_op).

Inductive iocp_result : Type :=
| RSetup (r : Z)
| RWait (res : Z * list HevTaskIOReactorWaitEvent)
| RRegistry.

Definition iocp_op_run (old self : Z) (op : iocp_op) : co iocp_result :=
  match op with
  | OpHandle handle op data =>
      let '(events, count) := iocp_setup_event_whandle_gen handle op data in
      r <~ iocp_reactor_setup self events count ;;
      Ret (RSetup r)
  | OpFd fd op poll_events data =>
      ec <~ iocp_setup_event_fd_gen fd op poll_events data ;;
      r <~ iocp_reactor_setup self ec.1 ec.2 ;;
      Ret (RSetup r)
  | OpWait count timeout =>
      res <~ iocp_reactor_wait self count timeout ;;
      Ret (RWait res)
  | OpRegistry o => fd_op_run old o ~;; Ret RRegistry
  end.

Fixpoint iocp_run (old self : Z) (ops : list iocp_op) : co (list iocp_result) :=
  match ops with
  | [] => Ret []
  | op :: ops =>
      r <~ iocp_op_run old self op ;;
      rs <~ iocp_run old self ops ;;
      Ret (r :: rs)
  end.

Definition iocp_session (old : Z) (ops : list iocp_op) : co (option (list iocp_result)) :=
  self <~ iocp_reactor_new ;;
  if negb (is_true self) then Ret None else
  rs <~ iocp_run old self ops ;;
  iocp_reactor_destroy self ~;;
  Ret (Some rs).

(** ** The specification: a map of registrations and the registry *)

Definition whandle_event (handle op data : Z) : iocp_setup_event :=
  iocp_setup_event_set handle op 0 data.

Definition fd_event (R : registry) (fd op poll_events data : Z) : iocp_setup_event :=
  iocp_setup_event_set (fd_token R (s32 fd)) op (iocp_reactor_events poll_events) data.

Inductive iocp_step : gmap Z (Z * bool) * registry -> iocp_op -> iocp_result ->
    gmap Z (Z * bool) * registry -> Prop :=
| step_handle M R M' handle op data r :
    setup_result (whandle_event handle op data) M r M' ->
    iocp_step (M, R) (OpHandle handle op data) (RSetup r) (M', R)
| step_fd M R M' fd op poll_events data r :
    setup_result (fd_event R fd op poll_events data) M r M' ->
    iocp_step (M, R) (OpFd fd op poll_events data) (RSetup r) (M', R)
| step_wait M R count timeout res :
    wait_result M res ->
    iocp_step (M, R) (OpWait count timeout) (RWait res) (M, R)
| step_registry M R o R' :
    fd_op_result o R R' ->
    iocp_step (M, R) (OpRegistry o) RRegistry (M, R').

Inductive iocp_path : gmap Z (Z * bool) * registry -> list iocp_op -> list iocp_result ->
    gmap Z (Z * bool) * registry -> Prop :=
| path_nil s : iocp_path s [] [] s
| path_cons s1 op r s2 ops rs s3 :
    iocp_step s1 op r s2 -> iocp_path s2 ops rs s3 -> iocp_path s1 (op :: ops) (r :: rs) s3.

Definition iocp_op_ok (op : iocp_op) : Prop :=
  match op with OpRegistry o => fd_op_ok o | _ => True end.

(** ** The registry makes no calls on packets *)

Lemma unpacked_fd_op old o : unpacked_tree (fd_op_run old o).
Proof.
  destruct o; cbn [fd_op_run];
    unfold hev_sys_socket_to_fd, hev_sys_fd_close_socket, hev_sys_fd_replace, reg_grow_locked, realloc,
      errno_fail, assign_errno, AcquireExclusive, ReleaseExclusive, act; calls.
Qed.
#[local] Hint Resolve unpacked_fd_op : calls.

Section session.
Context `{!Allocator} (Y : Z -> heapProp -> heapProp) `{!YieldMono Y}.

Abbreviation kernel w := (within packet_valid packet_step w).

Lemma cwp_iocp_op old self port M w R o op :
  iocp_op_ok op ->
  is_iocp self port M w ∗ is_registry R ∗ old ↦ o
  ⊢ cwp Y (kernel w (iocp_op_run old self op)) (fun rw =>
      ∃ M' R' o', is_iocp self port M' rw.2 ∗ is_registry R' ∗ old ↦ o' ∗
      ⌞iocp_step (M, R) op rw.1 (M', R')⌟).
Proof.
  iIntros (Hok) "(HI & HR & Ho)". destruct op as [h op d|fd op pe d|count timeout|fo]; cbn [iocp_op_run].
  - cbn [iocp_setup_event_whandle_gen]. iApply cwp_within_call. iSplitL "HI HR".
    { iApply (cwp_setup Y self port M w R (whandle_event h op d)). iFrame. }
    iIntros (r w') "(%M' & HI & HR & %Hr)". cbn [within cwp fst snd] in *. iExists M', R, o. iFrame.
    iPureIntro. by constructor.
  - iApply (cwp_kernel_plain Y _ _ _ (fun ec => ⌞ec = ([fd_event R fd op pe d], 1)⌟ ∗ is_registry R)%I).
    { unfold iocp_setup_event_fd_gen. calls. }
    iSplitL "HR".
    { unfold iocp_setup_event_fd_gen. iApply cwp_call. iSplitL; [by iApply cwp_fd_to_token|].
      iIntros (t) "[-> HR]". cbn [cwp]. by iFrame. }
    iIntros (ec) "[-> HR]". cbn [fst snd]. iApply cwp_within_call. iSplitL "HI HR".
    { iApply (cwp_setup Y self port M w R (fd_event R fd op pe d)). iFrame. }
    iIntros (r w') "(%M' & HI & HR & %Hr)". cbn [within cwp fst snd] in *. iExists M', R, o. iFrame.
    iPureIntro. by constructor.
  - iApply cwp_within_call. iSplitL "HI HR".
    { iApply (cwp_wait Y self port count timeout M w R). iFrame. }
    iIntros (res w') "(HI & HR & %Hr)". cbn [within cwp fst snd] in *. iExists M, R, o. iFrame.
    iPureIntro. by constructor.
  - iApply (cwp_kernel_plain Y _ _ _ (fun _ => ∃ R' o', is_registry R' ∗ old ↦ o' ∗
      ⌞fd_op_result fo R R'⌟)%I); [calls|]. iSplitL "HR Ho".
    { by iApply (cwp_fd_op Y old fo R o with "[$HR $Ho]"). }
    iIntros (u) "(%R' & %o' & HR & Ho & %Hr)". cbn [within cwp fst snd]. iExists M, R', o'. iFrame.
    iPureIntro. by constructor.
Qed.

Lemma cwp_iocp_run old self port ops M w R o :
  Forall iocp_op_ok ops ->
  is_iocp self port M w ∗ is_registry R ∗ old ↦ o
  ⊢ cwp Y (kernel w (iocp_run old self ops)) (fun rw =>
      ∃ M' R' o', is_iocp self port M' rw.2 ∗ is_registry R' ∗ old ↦ o' ∗
      ⌞iocp_path (M, R) ops rw.1 (M', R')⌟).
Proof.
  revert M w R o. induction ops as [|op ops IH]; intros M w R o Hok; cbn [iocp_run].
  { iIntros "(HI & HR & Ho)". cbn [within cwp fst snd]. iExists M, R, o. iFrame. iPureIntro. constructor. }
  apply Forall_cons in Hok as [Hop Hok]. iIntros "H". iApply cwp_within_call.
  iSplitL; [by iApply cwp_iocp_op|]. iIntros (r w1) "(%M1 & %R1 & %o1 & HI & HR & Ho & %Hs)".
  iApply cwp_within_call. iSplitL; [iApply IH; [done|iFrame]|].
  iIntros (rs w2) "(%M2 & %R2 & %o2 & HI & HR & Ho & %Hp)". cbn [within cwp fst snd] in *.
  iExists M2, R2, o2. iFrame. iPureIntro. by apply path_cons with (M1, R1).
Qed.
End session.

(** C9. A reactor over a completion port keeps exactly the registrations that a
    map from handles to data would: adding, changing and deleting a handle,
    waiting, and opening, closing and replacing descriptors in between give the
    results of the specification, so a wait reports only the data of a handle
    that is registered then, never that of a deleted one, and no node is used
    after it has been freed; when the reactor is destroyed no packet is
    associated any more and all its memory has been given back. *)
Theorem iocp_session_refines `{!Allocator} old ops R o :
  Forall iocp_op_ok ops ->
  {{{ is_registry R ∗ old ↦ o ∗ al_heap ∗ nt_vars }}}
    within packet_valid packet_step ∅ (iocp_session old ops) @ no_yield
  {{{ rw, ⌞rw.2 = ∅⌟ ∗ al_heap ∗ nt_vars ∗ ∃ R' o', is_registry R' ∗ old ↦ o' ∗
      ⌞match rw.1 with
       | None => same_slots R R'
       | Some rs => exists M, iocp_path (∅, R) ops rs (M, R')
       end⌟ }}}.
Proof.
  intros Hok. unfold ctriple, iocp_session. iIntros "(HR & Ho & Hh & Hn)".
  iApply (cwp_kernel_plain _ _ _ _ (fun r => al_heap ∗ nt_vars ∗
    (⌞r = NULL⌟ ∨ ⌞r <> NULL⌟ ∗ ∃ port, is_iocp r port ∅ ∅))%I); [apply unpacked_iocp_new|].
  iSplitL "Hh Hn"; [by iApply (cwp_iocp_new with "[$Hh $Hn]")|].
  iIntros (self) "(Hh & Hn & [->|[%Hs [%port HI]]])".
  { cbn [is_true negb Z.eqb NULL within cwp fst snd]. iSplitR; [done|]. iFrame. done. }
  rw is_true_nonnull //. cbn [negb]. iApply cwp_within_call. iSplitL "HI HR Ho".
  { iApply (cwp_iocp_run no_yield old self port ops ∅ ∅ R o Hok). iFrame. }
  iIntros (rs w) "(%M & %R' & %o' & HI & HR & Ho & %Hp)". iApply cwp_within_call.
  iSplitL "HI HR Hh"; [iApply (cwp_iocp_destroy no_yield self port M w R'); iFrame|].
  iIntros (u w') "(%Hw & HR & Hh)". cbn [within cwp fst snd] in *. iFrame "Hh Hn". iSplitR; [done|].
  iExists R', o'. iFrame. iPureIntro. by exists M.
Qed.

(** A socket and a timer are registered, the socket is closed and deleted. *)
Definition example_ops : list iocp_op :=
  [OpFd REG_FD_BASE IOCP_OP_ADD WIN_POLLIN 7; OpHandle 20 IOCP_OP_ADD 8; OpWait 1 (-1);
   OpFd REG_FD_BASE IOCP_OP_DEL 0 0; OpRegistry (FdClose REG_FD_BASE); OpWait 1 0].

Lemma iocp_session_refines_witness :
  let R := Registry [(5, 1); free_slot] 1 in
  {{{ is_registry R ∗ 8192 ↦ 0 ∗ @al_heap (simple_allocator 4096) ∗ nt_vars }}}
    within packet_valid packet_step ∅ (iocp_session 8192 example_ops) @ no_yield
  {{{ rw, ⌞rw.2 = ∅⌟ ∗ @al_heap (simple_allocator 4096) ∗ nt_vars ∗
      ∃ R' o', is_registry R' ∗ 8192 ↦ o' ∗
      ⌞match rw.1 with
       | None => same_slots R R'
       | Some rs => exists M, iocp_path (∅, R) example_ops rs (M, R')
       end⌟ }}}.
Proof.
  apply (@iocp_session_refines (simple_allocator 4096) 8192 example_ops
           (Registry [(5, 1); free_slot] 1) 0).
  repeat constructor.
Defined.
