(* ===== verification/Detector.v ===== *)
(** * Detector: [src/src/lib/misc], the stack overflow detector and the debugger

    Diagnostics that are compiled in on request: a signal handler that names
    the task whose stack holds the faulting address, and functions a debugger
    calls.  Text that is printed is a call; its format stands for the string. *)

From S2P Require Export Prelude.
From S2P Require Export Env.
From S2P Require Export Dll.
From S2P Require Export Mem.
From S2P Require Export TaskBase.

(** ** [struct _HevTaskStackDetector] *)

Definition SIZEOF_SIGACTION : Z := 152.
Definition SIZEOF_STACK_T : Z := 24.
Definition SIGSTKSZ : Z := 8192.

Definition sd_bus_sa (d : Z) : Z := d.
Definition sd_segv_sa (d : Z) : Z := d + SIZEOF_SIGACTION.
Definition sd_oss (d : Z) : Z := d + 2 * SIZEOF_SIGACTION.
Definition sd_stack (d : Z) : Z := d + 2 * SIZEOF_SIGACTION + SIZEOF_STACK_T.
Definition SIZEOF_DETECTOR : Z := 2 * SIZEOF_SIGACTION + SIZEOF_STACK_T + SIGSTKSZ.

(** [sa_sigaction] of a [struct sigaction], [si_addr] of a [siginfo_t]. *)
Definition sa_sigaction (sa : Z) : Z := sa.
Definition si_addr (si : Z) : Z := si + 16.

Definition SIGBUS : Z := 7.
Definition SIGSEGV : Z := 11.
Definition SA_SIGINFO : Z := 4.
Definition SA_ONSTACK : Z := 134217728.
Definition FN_signal_handler : Z := 601.

(** The cells of an object a call fills. *)
Definition words (p n : Z) : list Z := (fun i => p + 8 * i) <$> zrange 0 (n / 8).

Definition setaltstack (sp size flags oss : Z) (outs : list Z) : co Z :=
  a <~ call (Sys "sigaltstack" [sp; size; flags; oss] outs) ;; Ret (a_ret a).

(** ** The handler *)

Definition report_overflow (task base bottom addr : Z) : co unit :=
  sys "fprintf" [] ~;;
  sys "fprintf" [task] ~;;
  sys "fprintf" [base; bottom] ~;;
  sys "fprintf" [addr] ~;;
  sys "fprintf" [] ~;; Ret tt.

(** One round of the [for] over all tasks. *)
Definition detect_body (si node : Z) : co (Z + unit) :=
  if negb (is_true node) then Ret (inr tt) else
  let task := task_of_list_node node in
  stack <! load (task_stack task) ;;
  stack_base <! hev_task_stack_get_base stack ;;
  stack <! load (task_stack task) ;;
  stack_bottom <! hev_task_stack_get_bottom stack ;;
  addr <! load (si_addr si) ;;
  co_when ((stack_base <=? addr) && (addr <=? stack_bottom))
    (report_overflow task stack_base stack_bottom addr) ~;;
  node <! hev_list_node_next node ;;
  Ret (inl node).

(** [actions] are the handlers that were installed before, by address. *)
Definition signal_handler (actions : Z -> Z -> Z -> Z -> co unit) (signo si unused : Z) : co unit :=
  context <! hev_task_system_get_context ;;
  node <! hev_list_first (ctx_all_tasks context) ;;
  self <! load (ctx_stack_detector context) ;;
  co_chase (detect_body si) node ~;;
  if signo =? SIGBUS then
    f <! load (sa_sigaction (sd_bus_sa self)) ;; actions f signo si unused
  else if signo =? SIGSEGV then
    f <! load (sa_sigaction (sd_segv_sa self)) ;; actions f signo si unused
  else Ret tt.

(** ** Life cycle *)

Definition sigaction (signo handler flags old : Z) (outs : list Z) : co Z :=
  a <~ call (Sys "sigaction" [signo; handler; flags; old] outs) ;; Ret (a_ret a).

Definition hev_task_stack_detector_new : co Z :=
  self <~ malloc SIZEOF_DETECTOR ;;
  if negb (is_true self) then Ret NULL else
  r1 <~ setaltstack (sd_stack self) SIGSTKSZ 0 (sd_oss self) (words (sd_oss self) SIZEOF_STACK_T) ;;
  let flags := Z.lor SA_SIGINFO SA_ONSTACK in
  r2 <~ sigaction SIGBUS FN_signal_handler flags (sd_bus_sa self)
          (words (sd_bus_sa self) SIZEOF_SIGACTION) ;;
  r3 <~ sigaction SIGSEGV FN_signal_handler flags (sd_segv_sa self)
          (words (sd_segv_sa self) SIZEOF_SIGACTION) ;;
  let res := Z.lor (Z.lor (Z.lor 0 r1) r2) r3 in
  if res <? 0 then free self ~;; Ret NULL else
  Ret self.

(** The saved actions and stack are installed again. *)
Definition hev_task_stack_detector_destroy (self : Z) : co unit :=
  sys "sigaction" [SIGBUS; sd_bus_sa self; NULL] ~;;
  sys "sigaction" [SIGSEGV; sd_segv_sa self; NULL] ~;;
  sys "sigaltstack" [sd_oss self; NULL] ~;;
  free self.

(** ** [hev-debugger.c] *)

Definition _hev_task_system_get_context : M Z := hev_task_system_get_context.

Definition _hev_task_system_get_total_task_count : M Z :=
  context <- hev_task_system_get_context ;; load (ctx_total_task_count context).

Definition _hev_task_system_get_running_task_count : M Z :=
  context <- hev_task_system_get_context ;; load (ctx_running_task_count context).

Definition _hev_task_system_get_current_task : M Z :=
  context <- hev_task_system_get_context ;; load (ctx_current_task context).

(** The name of a state stands for its number. *)
Definition dump_task (task : Z) : co unit :=
  state <! load (task_state task) ;;
  stack <! load (task_stack task) ;;
  stack_base <! hev_task_stack_get_base stack ;;
  stack <! load (task_stack task) ;;
  stack_bottom <! hev_task_stack_get_bottom stack ;;
  sys "printf" [task] ~;;
  sys "printf" [if (state =? HEV_TASK_RUNNING) || (state =? HEV_TASK_WAITING)
                then state else HEV_TASK_STOPPED] ~;;
  entry <! load (task_entry task) ;;
  data <! load (task_data task) ;;
  sys "printf" [entry; data] ~;;
  sys "printf" [stack_base; stack_bottom] ~;;
  priority <! load (task_priority task) ;;
  next_priority <! load (task_next_priority task) ;;
  sys "printf" [priority; next_priority] ~;;
  ref_count <! load (task_ref_count task) ;;
  sys "printf" [ref_count] ~;;
  sched_key <! load (task_sched_key task) ;;
  sys "printf" [sched_key] ~;; Ret tt.

Definition _hev_task_system_dump_all_tasks : co unit :=
  context <! hev_task_system_get_context ;;
  node <! hev_list_first (ctx_all_tasks context) ;;
  sys "printf" [] ~;;
  co_chase (fun node =>
    if negb (is_true node) then Ret (inr tt) else
    dump_task (task_of_list_node node) ~;;
    node <! hev_list_node_next node ;;
    Ret (inl node)) node ~;;
  sys "printf" [] ~;; Ret tt.
