(* ===== verification/System.v ===== *)
(** * System: [src/src/kern/core/hev-task-system.c], the task system's life *)

From S2P Require Export Prelude.
From S2P Require Export Env.
From S2P Require Export Dll.
From S2P Require Export Mem.
From S2P Require Export TaskBase.
From S2P Require Export Timer.
From S2P Require Export Reactor.
From S2P Require Export Sched.
From S2P Require Export Task.
From S2P Require Export Dns.

Definition hev_task_system_set_context (context : Z) : M unit :=
  store hev_task_system_tls_context context.

(** Nothing to do on POSIX systems. *)
Definition hev_sys_init : Z := 0.
Definition hev_sys_fini : co unit := Ret tt.

(** Drop the thread's allocator, back to the one made on demand. *)
Definition drop_default_allocator : co unit :=
  allocator <! hev_memory_allocator_set_default NULL ;;
  co_when (is_true allocator) (hev_memory_allocator_unref allocator).

Definition init_exit : co Z := drop_default_allocator ~;; hev_sys_fini ~;; Ret (-1).
Definition init_free_context (context : Z) : co Z := hev_free context ~;; init_exit.
Definition init_free_reactor (context : Z) : co Z :=
  reactor <! load (ctx_reactor context) ;;
  hev_task_io_reactor_destroy reactor ~;;
  init_free_context context.

Definition hev_task_system_init : co Z :=
  context <! hev_task_system_get_context ;;
  if is_true context then Ret (-1) else
  if hev_sys_init <? 0 then Ret (-1) else
  allocator <~ slice_new ;;
  allocator <! hev_memory_allocator_set_default allocator ;;
  co_when (is_true allocator) (hev_memory_allocator_unref allocator) ~;;
  context <~ hev_malloc0 SIZEOF_CONTEXT ;;
  if negb (is_true context) then init_exit else
  reactor <~ hev_task_io_reactor_new ;;
  store (ctx_reactor context) reactor !;;
  if negb (is_true reactor) then init_free_context context else
  timer <~ hev_task_timer_new context ;;
  store (ctx_timer context) timer !;;
  if negb (is_true timer) then init_free_reactor context else
  hev_task_system_set_context context !;;
  Ret 0.

Definition fini_tasks (context : Z) (_ : unit) : co (unit + unit) :=
  node <! hev_list_first (ctx_all_tasks context) ;;
  if negb (is_true node) then Ret (inr tt) else
  hev_task_destroy (task_of_list_node node) ~;;
  Ret (inl tt).

Definition hev_task_system_fini : co unit :=
  context <! hev_task_system_get_context ;;
  if negb (is_true context) then Ret tt else
  co_chase (fini_tasks context) tt ~;;
  dns_proxy <! load (ctx_dns_proxy context) ;;
  co_when (is_true dns_proxy) (hev_task_dns_proxy_destroy dns_proxy) ~;;
  timer <! load (ctx_timer context) ;;
  hev_task_timer_destroy timer ~;;
  reactor <! load (ctx_reactor context) ;;
  hev_task_io_reactor_destroy reactor ~;;
  hev_free context ~;;
  hev_task_system_set_context NULL !;;
  drop_default_allocator ~;;
  hev_sys_fini.

Definition hev_task_system_run : co unit := hev_task_system_schedule HEV_TASK_RUN_SCHEDULER.
