(* ===== verification/SystemProofs.v ===== *)
(** * SystemProofs: the life of a task system and of its tasks

    [is_system ctx s L J T n] is the memory of a task system between two calls of
    the user: the scheduler of [QueueProofs] in the state [s], and the objects of
    the tasks [L], whose blocks come from the default allocator; [J] are their
    entries and arguments, [n] the count of those that have been run. *)

From stdpp Require Import functions.

From S2P Require Import Prelude.
From S2P Require Import Sep.
From S2P Require Import RBTree.
From S2P Require Import RBTreeSpec.
From S2P Require Import RBTreeProofs.
From S2P Require Import RBTreeApi.
From S2P Require Import Env.
From S2P Require Import EnvLogic.
From S2P Require Import Dll.
From S2P Require Import Mem.
From S2P Require Import Alloc.
From S2P Require Import TaskBase.
From S2P Require Import Queue.
From S2P Require Import Timer.
From S2P Require Import QueueSpec.
From S2P Require Import QueueProofs.
From S2P Require Import TimerProofs.
From S2P Require Import Reactor.
From S2P Require Import Sched.
From S2P Require Import Task.
From S2P Require Import System.

(** ** The abstract operations *)

(** A new task, stopped, with the default priority to come. *)
Definition s_create (t : Z) (s : sched) : sched :=
  Sched (<[t := TInfo 0 0 HEV_TASK_PRIORITY_DEFAULT HEV_TASK_STOPPED]> (s_tasks s))
        (s_queue s) (s_current s).

Definition s_put (t : Z) (j : tinfo) (s : sched) : sched :=
  Sched (<[t := j]> (s_tasks s)) (s_queue s) (s_current s).

(** [hev_task_run]: a stopped task is queued, behind the tasks whose key is not
    greater than its own. *)
Definition s_run (t : Z) (s : sched) : sched :=
  let i := info (s_tasks s) t in
  if ti_state i =? HEV_TASK_STOPPED then
    let k := if is_true (s_current s) then w64 (ti_next i + min_key s) else ti_next i in
    s_insert t (s_put t (TInfo k (ti_next i) (ti_next i) HEV_TASK_STOPPED) s)
  else s.

Definition s_delete (t : Z) (s : sched) : sched :=
  Sched (delete t (s_tasks s)) (s_queue s) (s_current s).

Definition s_empty : sched := Sched ∅ [] 0.

Section wf.
Context (s : sched) (Hwf : sched_wf s).

Lemma create_wf t : s_tasks s !! t = None -> 0 < t -> t mod 16 = 0 -> sched_wf (s_create t s).
Proof.
  intros Ht Hpos Hal. destruct Hwf as [[Hnd Hk Hr Hst Hks Ha] Hsort].
  assert (t ∉ s_queue s) as Hq. { intros H. apply Hk in H as [i Hi]. congruence. }
  split; [split|]; simpl; try done.
  - intros x Hx. destruct (decide (x = t)) as [->|]; [by rw lookup_insert_eq|].
    rw lookup_insert_ne //. by apply Hk.
  - intros x i. destruct (decide (x = t)) as [->|]; [rw lookup_insert_eq; by intros [= <-]|].
    rw lookup_insert_ne //. apply Hr.
  - intros x i. destruct (decide (x = t)) as [->|]; [rw lookup_insert_eq; intros [= <-]; by right; right|].
    rw lookup_insert_ne //. apply Hst.
  - intros x i. destruct (decide (x = t)) as [->|]; [rw lookup_insert_eq; intros [= <-]; done|].
    rw lookup_insert_ne //. apply Hks.
  - intros x i. destruct (decide (x = t)) as [->|]; [by rw lookup_insert_eq|].
    rw lookup_insert_ne //. apply Ha.
  - eapply q_sorted_ext; [|exact Hsort]. intros x Hx. apply key_in_insert_ne. by intros ->.
Qed.

Lemma delete_wf t i :
  s_tasks s !! t = Some i -> ti_state i <> HEV_TASK_RUNNING -> sched_wf (s_delete t s).
Proof.
  intros Ht Hi. destruct Hwf as [[Hnd Hk Hr Hst Hks Ha] Hsort].
  assert (t ∉ s_queue s) as Hq. { intros H. by apply Hi, (Hr t i Ht). }
  split; [split|]; simpl; try done.
  - intros x Hx. rw lookup_delete_ne; [by apply Hk|]. by intros ->.
  - intros x j [_ Hj]%lookup_delete_Some. by apply Hr.
  - intros x j [_ Hj]%lookup_delete_Some. by eapply Hst.
  - intros x j [_ Hj]%lookup_delete_Some. by eapply Hks.
  - intros x j [_ Hj]%lookup_delete_Some. by eapply Ha.
  - eapply q_sorted_ext; [|exact Hsort]. intros x Hx. unfold key_in, info.
    rw lookup_delete_ne //. by intros ->.
Qed.

Lemma s_put_wf t i j :
  s_tasks s !! t = Some i -> ti_state i = HEV_TASK_STOPPED -> ti_state j = HEV_TASK_STOPPED ->
  (0 <= ti_key j < 2 ^ 64 /\ 0 <= ti_prio j <= HEV_TASK_PRIORITY_MAX /\
   0 <= ti_next j <= HEV_TASK_PRIORITY_MAX) -> sched_wf (s_put t j s).
Proof.
  intros Ht Hi Hj Hb. destruct Hwf as [Hbase Hsort].
  assert (t ∉ s_queue s) as Hq. { apply (not_running_not_queued s Hbase t i); [done|]. by rw Hi. }
  split.
  - apply (base_update s Hbase t i); [done|done|by right; right|apply Hbase|done|]. rw Hj. by split.
  - eapply q_sorted_ext; [|exact Hsort]. intros x Hx. apply key_in_insert_ne. by intros ->.
Qed.

Lemma put_min_key t j : t ∉ s_queue s -> min_key (s_put t j s) = min_key s.
Proof.
  intros Hq. unfold min_key. simpl. destruct (s_queue s) as [|x q]; [done|].
  apply key_in_insert_ne. intros ->. apply Hq. by left.
Qed.
End wf.

Lemma empty_wf : sched_wf s_empty.
Proof.
  split; [|by constructor]. split; simpl; [constructor|by intros t []%not_elem_of_nil|..];
    intros t i; by rw lookup_empty.
Qed.

(** The entry and the argument of each task. *)
Abbreviation jobs := (Z -> Z * Z).

Section system.
Context `{HA : !Allocator} (Y : Z -> heapProp -> heapProp) `{!YieldMono Y}.

(** ** Stacks *)

Definition stack_offs : list Z := [0; 8].

Definition is_stack (k : Z) : heapProp :=
  (⌞0 < k⌟ ∗ (∃ size base, stack_size k ↦ size ∗ stack_stack k ↦ base) ∗
   block_rest k stack_offs SIZEOF_STACK)%I.

Lemma stack_fields k :
  field_cells k stack_offs ⊣⊢ (∃ size, stack_size k ↦ size) ∗ (∃ base, stack_stack k ↦ base).
Proof. unfold field_cells, stack_offs, stack_size, stack_stack. simpl. by rw Z.add_0_r right_id. Qed.

Lemma wp_free_stack k :
  al_heap ∗ (∃ size, stack_size k ↦ size) ∗ (∃ base, stack_stack k ↦ base) ∗
  block_rest k stack_offs SIZEOF_STACK ⊢ cwp Y (hev_free k) (fun _ => al_heap).
Proof.
  iIntros "(Hh & Hs & Hb & Hr)". iApply (wp_hev_free _ k SIZEOF_STACK). iFrame "Hh".
  iApply (block_close k stack_offs); [done|]. rw stack_fields. iFrame.
Qed.

Lemma cwp_stack_new size :
  al_heap ∗ (∃ pz, stack_page_size ↦ pz)
  ⊢ cwp Y (hev_task_stack_new size) (fun k =>
      al_heap ∗ (∃ pz, stack_page_size ↦ pz) ∗ (⌞k = NULL⌟ ∨ is_stack k)).
Proof.
  iIntros "[Hh [%pz Hp]]". unfold hev_task_stack_new, getpagesize. cbn [cwp]. wp_load.
  iApply (cwp_call _ _ _ (fun _ => ∃ pz, stack_page_size ↦ pz)%I). iSplitL "Hp".
  { destruct (is_true pz); cbn [negb co_when cwp]; [by iExists pz|].
    iApply cwp_sys. iIntros (v). unfold act. cbn [cwp]. wp_store. by iExists v. }
  iIntros (_) "[%pz' Hp]". cbn [cwp]. wp_load. cbv zeta.
  iApply cwp_call. iSplitL "Hh"; [iApply (wp_hev_malloc _ SIZEOF_STACK with "Hh"); done|].
  iIntros (k) "[Hh [->|Hb]]"; [cbn; iFrame; by iLeft|].
  iAssert ⌜0 < k⌝%I as %Hk; [iDestruct (al_pos with "Hb") as %[? _]; done|].
  rw is_true_nonnull; [|unfold NULL; lia]. cbn [negb].
  iDestruct (block_open k stack_offs with "Hb") as "[Hf Hr]"; [done..|]. rw stack_fields.
  iDestruct "Hf" as "[[%sz Hs] [%b Hb]]".
  iApply cwp_sys. iIntros (v). cbn [cwp]. wp_store.
  destruct (v =? MAP_FAILED).
  { iApply cwp_call. iSplitL "Hh Hs Hb Hr"; [iApply wp_free_stack; iFrame|].
    iIntros (u) "Hh". cbn [cwp]. iFrame. by iLeft. }
  iApply cwp_sys. iIntros (r). destruct (r <? 0).
  { iApply cwp_sys. iIntros (r2). iApply cwp_call. iSplitL "Hh Hs Hb Hr"; [iApply wp_free_stack; iFrame|].
    iIntros (u) "Hh". cbn [cwp]. iFrame. by iLeft. }
  cbn [cwp]. wp_store. iFrame "Hh". iSplitL "Hp"; [by iExists _|]. iRight. iSplitR; [done|].
  iFrame "Hr". iExists _, _. iFrame.
Qed.

Lemma cwp_stack_destroy k :
  al_heap ∗ is_stack k ⊢ cwp Y (hev_task_stack_destroy k) (fun _ => al_heap).
Proof.
  iIntros "[Hh (_ & (%size & %base & Hs & Hb) & Hr)]". unfold hev_task_stack_destroy. cbn [cwp].
  wp_load. cbn [cwp]. wp_load. iApply cwp_sys. iIntros (v). iApply wp_free_stack. iFrame.
Qed.

(** ** Task objects *)

Definition task_offs : list Z := [0; 8; 16; 24; 32; 40; 48; 56; 64; 72; 76; 77; 78; 280; 288].

(** What a task has besides the scheduler's cells: its job, its stack and one
    reference.  Nobody waits for its end. *)
Definition task_body (J : jobs) (t : Z) : heapProp :=
  ((∃ b, task_stack_bottom t ↦ b ∗ task_entry t ↦ (J t).1 ∗ task_data t ↦ (J t).2 ∗ task_joiner t ↦ NULL) ∗
   (∃ k, task_stack t ↦ k ∗ is_stack k) ∗ task_ref_count t ↦ 1 ∗
   block_rest t task_offs SIZEOF_TASK)%I.

(** The fields of a task by what they are for. *)
Lemma task_fields (P : Z -> heapProp) t :
  ([∗ list] o ∈ task_offs, P (t + o)) ⊣⊢
  (P (task_stack_bottom t) ∗ P (task_entry t) ∗ P (task_data t) ∗ P (task_joiner t)) ∗
  (P (task_sched_key t) ∗ P (task_priority t) ∗ P (task_next_priority t) ∗ P (task_state t)) ∗
  (P (rb_parent_color (task_sched_node t)) ∗ P (rb_right (task_sched_node t)) ∗
   P (rb_left (task_sched_node t))) ∗
  (P (list_next (task_list_node t)) ∗ P (list_prev (task_list_node t))) ∗
  P (task_stack t) ∗ P (task_ref_count t).
Proof.
  unfold task_offs, task_stack_bottom, task_entry, task_data, task_joiner, task_sched_key, task_priority,
    task_next_priority, task_state, rb_parent_color, rb_right, rb_left, task_sched_node, list_next,
    list_prev, task_list_node, task_stack, task_ref_count. rw -!Z.add_assoc. simpl. rw Z.add_0_r.
  iSplit.
  - iIntros "($ & $ & $ & $ & $ & $ & $ & $ & $ & $ & $ & $ & $ & $ & $ & _)".
  - iIntros "(($ & $ & $ & $) & ($ & $ & $ & $) & ($ & $ & $) & ($ & $) & $ & $)".
Qed.

(** A task is given back with everything it has. *)
Lemma wp_free_task t i :
  al_heap ∗ task_cells t i ∗ rb_cell (task_sched_node t) ∗ list_cell (task_list_node t) ∗
  (∃ b e d j, task_stack_bottom t ↦ b ∗ task_entry t ↦ e ∗ task_data t ↦ d ∗ task_joiner t ↦ j) ∗
  (∃ k, task_stack t ↦ k) ∗ (∃ rc, task_ref_count t ↦ rc) ∗ block_rest t task_offs SIZEOF_TASK
  ⊢ cwp Y (hev_free t) (fun _ => al_heap).
Proof.
  iIntros "(Hh & (H1 & H2 & H3 & H4) & (%pc & %l & %r & H5 & H6 & H7) & (%n & %p & H8 & H9) &
    (%b & %e & %d & %j & H10 & H11 & H12 & H13) & [%k H14] & [%rc H15] & Hr)".
  iApply (wp_hev_free _ t SIZEOF_TASK). iFrame "Hh". iApply (block_close t task_offs); [done|].
  iFrame "Hr". unfold field_cells. rw (task_fields (fun a => ∃ v, a ↦ v)%I t). iFrame.
Qed.

(** ** The system *)

Definition ctx_offs : list Z := [0; 4; 8; 16; 24; 32; 40; 48; 56; 280; 288].
Definition timer_offs : list Z := [0; 8; 16; 24; 32; 40; 48; 56].

Definition no_timers : timers := Timers ∅ [].

(** The objects a system owns besides its tasks: no proxy; [T] is the
    timer with its sleepers. *)
Definition system_reactor (ctx : Z) : heapProp :=
  (∃ r fd, ctx_reactor ctx ↦ r ∗ reactor_fd r ↦ fd ∗ block_rest r [0] SIZEOF_REACTOR)%I.

Definition system_timer (ctx : Z) (T : Z * timers) : heapProp :=
  (ctx_timer ctx ↦ T.1 ∗ is_timer T.1 ctx T.2 ∗ timer_clock T.1 ∗
   (∃ sec nsec, ts_sec (timer_poll_deadline T.1) ↦ sec ∗ ts_nsec (timer_poll_deadline T.1) ↦ nsec) ∗
   block_rest T.1 timer_offs SIZEOF_TIMER)%I.

#[global] Typeclasses Opaque system_timer.

Definition system_rest (ctx n : Z) : heapProp :=
  (ctx_dns_proxy ctx ↦ NULL ∗ ctx_total_task_count ctx ↦ n ∗
   (∃ d, ctx_stack_detector ctx ↦ d) ∗ block_rest ctx ctx_offs SIZEOF_CONTEXT)%I.

Definition task_objects (J : jobs) (L : list Z) : heapProp := ([∗ list] t ∈ L, task_body J t)%I.

(** The tasks of the scheduler are the tasks in the list of all tasks. *)
Definition same_tasks (s : sched) (L : list Z) : Prop :=
  NoDup L /\ forall t, t ∈ L <-> is_Some (s_tasks s !! t).

Definition is_system (ctx : Z) (s : sched) (L : list Z) (J : jobs) (T : Z * timers) (n : Z) : heapProp :=
  (hev_task_system_tls_context ↦ ctx ∗ al_heap ∗ (∃ pz, stack_page_size ↦ pz) ∗
   is_sched ctx s ∗ is_list (ctx_all_tasks ctx) (task_list_node <$> L) ∗ task_objects J L ∗
   system_reactor ctx ∗ system_timer ctx T ∗ system_rest ctx n ∗
   ⌞0 < ctx /\ sched_wf s /\ same_tasks s L⌟)%I.

Lemma create_same s L t : s_tasks s !! t = None -> same_tasks s L -> same_tasks (s_create t s) (L ++ [t]).
Proof.
  intros Ht [Hnd HL]. split.
  - apply NoDup_app. split; [done|]. split; [|apply NoDup_singleton].
    intros x Hx ->%list_elem_of_singleton. apply HL in Hx as [i Hi]. congruence.
  - intros x. simpl. rw elem_of_app list_elem_of_singleton HL lookup_insert_is_Some'. naive_solver.
Qed.

Lemma delete_same s A t B : same_tasks s (A ++ t :: B) -> same_tasks (s_delete t s) (A ++ B).
Proof.
  intros [Hnd HL]. rw -Permutation_middle in Hnd. apply NoDup_cons in Hnd as [Ht Hnd].
  split; [done|]. intros x. simpl. rw lookup_delete_is_Some -HL. rw !elem_of_app elem_of_cons.
  rw elem_of_app in Ht. split; [|naive_solver]. intros Hx. split; [naive_solver|naive_solver].
Qed.

Lemma task_cells_fresh t i ts : task_cells t i ∗ all_cells ts ⊢ ⌜ts !! t = None⌝.
Proof.
  iIntros "[(H1 & H2 & H3 & H4) Hts]". destruct (ts !! t) as [j|] eqn:Hj; [|done].
  iDestruct (all_cells_acc _ _ _ Hj with "Hts") as "[(H5 & H6 & H7 & H8) _]".
  by iDestruct (points_to_ne with "H4 H8") as %[].
Qed.

Lemma is_sched_create ctx s t :
  0 < t -> t mod 16 = 0 -> sched_wf s ->
  task_cells t (TInfo 0 0 HEV_TASK_PRIORITY_DEFAULT HEV_TASK_STOPPED) ∗ rb_cell (task_sched_node t) ∗
  is_sched ctx s ⊢ ⌞s_tasks s !! t = None⌟ ∗ is_sched ctx (s_create t s).
Proof.
  intros Hpos Hal Hwf. iIntros "(Hc & Hn & (_ & Hq & Hcur & Hts & Hidle))".
  iDestruct (task_cells_fresh with "[$Hc $Hts]") as %Ht. iSplitR; [done|].
  pose proof (create_wf s Hwf t Ht Hpos Hal) as [Hb _]. unfold is_sched. iSplitR; [done|].
  cbn [s_create s_queue s_current s_tasks]. iFrame "Hq Hcur". unfold all_cells, idle_nodes.
  rw !big_sepM_insert //. iFrame "Hc Hts Hidle". iExact "Hn".
Qed.

Lemma is_sched_delete ctx s t i :
  s_tasks s !! t = Some i -> ti_state i <> HEV_TASK_RUNNING -> sched_wf s ->
  is_sched ctx s ⊢ task_cells t i ∗ rb_cell (task_sched_node t) ∗ is_sched ctx (s_delete t s).
Proof.
  intros Ht Hi Hwf. iIntros "(_ & Hq & Hcur & Hts & Hidle)". unfold all_cells, idle_nodes.
  rw !(big_sepM_delete _ (s_tasks s) t i) //. iDestruct "Hts" as "[$ Hts]".
  iDestruct "Hidle" as "[Hn Hidle]". unfold idle_node at 1. rw (proj2 (Z.eqb_neq _ _) Hi). iFrame "Hn".
  pose proof (delete_wf s Hwf t i Ht Hi) as [Hb _]. unfold is_sched. iSplitR; [done|].
  cbn [s_delete s_queue s_current s_tasks]. iFrame.
Qed.

(** ** Creating a task *)

(** A zeroed block as the fields of a task. *)
Lemma zeroed_task t :
  zeroed t SIZEOF_TASK ⊢ ⌞0 < t /\ t mod 16 = 0⌟ ∗
    (task_stack_bottom t ↦ 0 ∗ task_entry t ↦ 0 ∗ task_data t ↦ 0 ∗ task_joiner t ↦ 0) ∗
    (task_sched_key t ↦ 0 ∗ task_priority t ↦ 0 ∗ task_next_priority t ↦ 0 ∗ task_state t ↦ 0) ∗
    rb_cell (task_sched_node t) ∗ list_cell (task_list_node t) ∗
    task_stack t ↦ 0 ∗ task_ref_count t ↦ 0 ∗ block_rest t task_offs SIZEOF_TASK.
Proof.
  rw (zeroed_struct t task_offs) //. rw (task_fields (fun a => a ↦ 0)%I t).
  iIntros "($ & ($ & $ & (H1 & H2 & H3) & (H4 & H5) & $ & $) & $)". iSplitL "H1 H2 H3".
  - iExists _, _, _. iFrame.
  - iExists _, _. iFrame.
Qed.

Lemma jobs_fresh J t x L : t ∉ L -> task_objects (<[t := x]> J) L ⊣⊢ task_objects J L.
Proof.
  intros Ht. apply big_sepL_proper. intros k u Hu. unfold task_body. rw fn_lookup_insert_ne //.
  intros ->. by apply Ht, (list_elem_of_lookup_2 _ k).
Qed.

Lemma cwp_task_new ctx s L J T n size :
  is_system ctx s L J T n ⊢ cwp Y (hev_task_new size) (fun t =>
    (⌞t = NULL⌟ ∗ is_system ctx s L J T n) ∨
    (⌞t <> NULL /\ s_tasks s !! t = None⌟ ∗
     is_system ctx (s_create t s) (L ++ [t]) (<[t := (0, 0)]> J) T n)).
Proof.
  iIntros "(Htls & Hh & Hpz & Hs & Hl & Ho & Hr & Ht & Hx & %Hp)". destruct Hp as (Hctx & Hwf & Hsame).
  unfold hev_task_new. iApply cwp_call.
  iSplitL "Hh"; [iApply (wp_hev_malloc0 _ SIZEOF_TASK with "Hh"); done|].
  iIntros (t) "[Hh [->|Hz]]"; [cbn; iLeft; by iFrame|].
  iDestruct (zeroed_task with "Hz") as "([%Hpos %Hal] & (H1 & H2 & H3 & H4) & (H5 & H6 & H7 & H8) & Hn & Hc & Hk & Hrc & Hb)".
  rw is_true_nonnull; [|unfold NULL; lia]. cbn [negb cwp]. wp_store. wp_store. cbv zeta.
  iApply cwp_call. iSplitL "Hh Hpz"; [iApply cwp_stack_new; iFrame|].
  iIntros (k) "(Hh & Hpz & [->|Hks])"; cbn [cwp]; wp_store.
  { change (is_true NULL) with false. cbn [negb]. iApply cwp_call.
    iSplitR "Htls Hpz Hs Hl Ho Hr Ht Hx".
    - iApply (wp_free_task t (TInfo 0 0 HEV_TASK_PRIORITY_DEFAULT HEV_TASK_STOPPED)). iFrame.
    - iIntros (u) "Hh". cbn [cwp]. iLeft. by iFrame. }
  iDestruct "Hks" as "(%Hk & (%sz & %base & Hsz & Hbase) & Hkr)".
  rw (is_true_nonnull k); [|unfold NULL; lia]. cbn [negb cwp].
  unfold hev_task_stack_get_bottom. wp_load. wp_load. cbn [cwp]. wp_store. cbn [cwp].
  unfold hev_task_system_get_context. wp_load. cbn [cwp]. iApply wp_wand.
  iSplitL "Hl Hc"; [iApply (wp_list_add_tail with "[$Hl $Hc]"); unfold task_list_node, NULL; lia|].
  iIntros (_) "Hl". iDestruct (is_sched_create ctx s t Hpos Hal Hwf with "[H5 H6 H7 H8 Hn $Hs]") as "[%Hfr Hs]".
  { iFrame "Hn". unfold task_cells. cbn. iFrame. }
  iRight. iSplitR; [iPureIntro; split; [unfold NULL; lia|done]|]. unfold is_system.
  rw fmap_app. cbn [fmap list_fmap].
  iSplitL "Htls"; [iExact "Htls"|]. iSplitL "Hh"; [iExact "Hh"|]. iSplitL "Hpz"; [iExact "Hpz"|].
  iSplitL "Hs"; [iExact "Hs"|]. iSplitL "Hl"; [iExact "Hl"|]. iSplitR "Hr Ht Hx";
    [|iSplitL "Hr"; [iExact "Hr"|]; iSplitL "Ht"; [iExact "Ht"|]; iSplitL "Hx"; [iExact "Hx"|];
      iPureIntro; split_and!; [done|by apply create_wf|by apply create_same]].
  assert (t ∉ L) as HtL. { intros Hin. apply (proj2 Hsame) in Hin as [x Hx]. congruence. }
  unfold task_objects. rw big_sepL_snoc. iSplitL "Ho"; [by iApply (jobs_fresh J t (0, 0) L HtL)|].
  unfold task_body. rw fn_lookup_insert. cbn [fst snd].
  iSplitL "H1 H2 H3 H4"; [iExists _; iSplitL "H1"; [iExact "H1"|]; iFrame|].
  iSplitR "Hrc Hb"; [|iSplitL "Hrc"; [iExact "Hrc"|iExact "Hb"]]. iExists k. iSplitL "Hk"; [iExact "Hk"|].
  iSplitR; [done|]. iSplitR "Hkr"; [|iExact "Hkr"]. iExists _, _. iFrame.
Qed.

(** ** Running one *)

(** A task's object, and the system without it. *)
Lemma task_objects_acc J L t :
  NoDup L -> t ∈ L ->
  task_objects J L ⊢ task_body J t ∗ (∀ x, task_body (<[t := x]> J) t -∗ task_objects (<[t := x]> J) L).
Proof.
  intros Hnd (A & B & ->)%list_elem_of_split. apply NoDup_app in Hnd as (_ & HnA & HB).
  apply NoDup_cons in HB as [HB _].
  assert (t ∉ A) as HtA by (intros Hin; apply (HnA t Hin); by left).
  unfold task_objects. rw big_sepL_app big_sepL_cons. iIntros "(HoA & $ & HoB)" (x) "Ht".
  rw big_sepL_app big_sepL_cons. iFrame "Ht". iSplitL "HoA"; by iApply jobs_fresh.
Qed.

Lemma jobs_same J t x L : J t = x -> task_objects (<[t := x]> J) L ⊣⊢ task_objects J L.
Proof.
  intros Hx. apply big_sepL_proper. intros k u Hu. unfold task_body.
  destruct (decide (u = t)) as [->|]; [by rw fn_lookup_insert Hx|by rw fn_lookup_insert_ne].
Qed.

(** The scheduler's cells of a stopped task. *)
Lemma is_sched_put ctx s t i :
  s_tasks s !! t = Some i -> ti_state i = HEV_TASK_STOPPED -> sched_wf s ->
  is_sched ctx s ⊢ task_cells t i ∗ (∀ k p,
    ⌜0 <= k < 2 ^ 64 /\ 0 <= p <= HEV_TASK_PRIORITY_MAX⌝ →
    task_cells t (TInfo k p (ti_next i) HEV_TASK_STOPPED) -∗
    is_sched ctx (s_put t (TInfo k p (ti_next i) HEV_TASK_STOPPED) s)).
Proof.
  intros Ht Hi Hwf. pose proof (sw_keys _ (proj1 Hwf) _ _ Ht) as (_ & _ & Hn).
  iIntros "(_ & Hq & Hcur & Hts & Hidle)".
  iDestruct (all_cells_acc _ _ _ Ht with "Hts") as "[$ Hts]".
  iDestruct (idle_nodes_acc _ _ _ Ht with "Hidle") as "[Hn Hidle]". iIntros (k p Hkp) "Hc".
  pose proof (s_put_wf s Hwf t i (TInfo k p (ti_next i) HEV_TASK_STOPPED) Ht Hi eq_refl) as [Hb _]; [tauto|].
  unfold is_sched. iSplitR; [done|]. cbn [s_put s_queue s_current s_tasks]. iFrame "Hq Hcur".
  iSplitL "Hts Hc"; [by iApply "Hts"|]. iApply "Hidle". unfold idle_node. by rw Hi.
Qed.

(** The rest of [hev_task_system_run_new_task], for a stopped task. *)
Lemma wp_run_key ctx s t i (Q : unit -> heapProp) :
  s_tasks s !! t = Some i -> ti_state i = HEV_TASK_STOPPED -> sched_wf s ->
  is_sched ctx s ∗
  (is_sched ctx (s_set_key t (if is_true (s_current s) then w64 (ti_key i + min_key s) else ti_key i) s) -∗ Q tt)
  ⊢ wp (if is_true (s_current s) then
          key <- load (task_sched_key t) ;;
          min <- hev_task_system_get_min_sched_key ctx ;;
          store (task_sched_key t) (w64 (key + min))
        else ret tt) Q.
Proof.
  intros Ht Hi Hwf. iIntros "[Hs HQ]". pose proof (sw_keys _ (proj1 Hwf) _ _ Ht) as (Hk & _ & _).
  destruct (is_true (s_current s)).
  - iDestruct (is_sched_key ctx s t i Ht with "Hs") as "[Hk Hs]". wp_load.
    iDestruct "Hs" as "[Hs _]". iDestruct ("Hs" with "Hk") as "Hs".
    iApply wp_bind. iApply wp_wand. iSplitL "Hs"; [by iApply wp_get_min_sched_key|].
    iIntros (m) "[-> Hs]". iDestruct (is_sched_key ctx s t i Ht with "Hs") as "[Hk Hs]". wp_store.
    iApply "HQ". iDestruct "Hs" as "[_ Hs]". iApply ("Hs" with "[] Hk"). iPureIntro. apply w64_range.
  - wp_norm. iApply "HQ". iDestruct (is_sched_key ctx s t i Ht with "Hs") as "[Hk [_ Hs]]".
    iApply ("Hs" with "[//] Hk").
Qed.

Lemma run_eq t s i :
  s_tasks s !! t = Some i -> ti_state i = HEV_TASK_STOPPED -> t ∉ s_queue s ->
  let s1 := s_put t (TInfo (ti_next i) (ti_next i) (ti_next i) HEV_TASK_STOPPED) s in
  s_run t s = s_insert t (s_set_key t (if is_true (s_current s1)
      then w64 (ti_next i + min_key s1) else ti_next i) s1).
Proof.
  intros Ht Hi Hq s1. unfold s_run. rw (info_some s t i Ht) Hi. rw Z.eqb_refl. f_equal.
  unfold s1. rw put_min_key //. unfold s_set_key, s_put. cbn [s_tasks s_queue s_current].
  rw info_insert. cbn. by rw insert_insert_eq.
Qed.

Lemma run_wf t s i : s_tasks s !! t = Some i -> sched_wf s -> sched_wf (s_run t s).
Proof.
  intros Ht Hwf. unfold s_run. rw (info_some s t i Ht).
  destruct (Z.eqb_spec (ti_state i) HEV_TASK_STOPPED) as [Hi|]; [|done].
  pose proof (sw_keys _ (proj1 Hwf) _ _ Ht) as (_ & _ & Hn). unfold HEV_TASK_PRIORITY_MAX in Hn.
  set (k := if is_true _ then _ else _). assert (0 <= k < 2 ^ 64) as Hk.
  { unfold k. destruct (is_true (s_current s)); [apply w64_range|lia]. }
  destruct (s_put_wf s Hwf t i (TInfo k (ti_next i) (ti_next i) HEV_TASK_STOPPED) Ht Hi eq_refl) as [Hb Hs];
    [cbn; unfold HEV_TASK_PRIORITY_MAX; lia|].
  by eapply (insert_wf _ Hb t); [by rw lookup_insert_eq| |].
Qed.

Lemma run_same t s L : same_tasks s L -> t ∈ L -> same_tasks (s_run t s) L.
Proof.
  intros [Hnd HL] Ht. split; [done|]. intros x. unfold s_run. destruct (_ =? _); [|apply HL].
  cbn [s_insert s_put s_tasks]. rw !lookup_insert_is_Some' HL. apply HL in Ht. naive_solver.
Qed.

Definition runnable (s : sched) (t : Z) : bool := ti_state (info (s_tasks s) t) =? HEV_TASK_STOPPED.

(** The steps of [hev_task_run] of a stopped task, in any logic of trees: [W] is
    the precondition of the rest before the new context is made, [W'] after. *)
Section steps.
Context (W W' : co unit -> heapProp) (E : heapProp) (t : Z).
Context (W_act : forall X (m : M X) k, wp m (fun x => W (k x)) ⊢ W (Act m k)).
Context (W'_act : forall X (m : M X) k, wp m (fun x => W' (k x)) ⊢ W' (Act m k)).
Context (W_execute : forall bottom base k,
  E ∗ (∀ a, W' (k a)) ⊢ W (Ext (Query "hev_task_execute" [t; bottom; base] 0) k)).

Lemma task_run_steps ctx s L J T n entry data :
  t ∈ L -> runnable s t = true ->
  is_system ctx s L J T n ∗ E ∗
  (is_system ctx (s_run t s) L (<[t := (entry, data)]> J) T (w32 (n + 1)) -∗ W' (Ret tt))
  ⊢ W (hev_task_run t entry data).
Proof.
  intros HtL Hrun. iIntros "((Htls & Hh & Hpz & Hs & Hl & Ho & Hr & Ht & Hx & %Hp) & HE & HK)".
  destruct Hp as (Hctx & Hwf & Hsame). destruct (proj1 (proj2 Hsame t) HtL) as [i Hi].
  unfold runnable in Hrun. rw (info_some s t i Hi) in Hrun. apply Z.eqb_eq in Hrun as Hstop.
  unfold hev_task_run. iApply W_act. iDestruct (is_sched_state ctx s t i Hi with "Hs") as "[Hst Hs]".
  wp_load. iDestruct ("Hs" with "Hst") as "Hs". rw Hstop Z.eqb_refl. cbn [negb].
  assert (t ∉ s_queue s) as Hq.
  { apply (not_running_not_queued s (proj1 Hwf) t i); [done|]. by rw Hstop. }
  pose proof (sw_keys _ (proj1 Hwf) _ _ Hi) as (_ & _ & Hnx).
  iDestruct (task_objects_acc J L t (proj1 Hsame) HtL with "Ho") as
    "[((%b & Hb & He & Hd & Hj) & (%k & Hk & Hk0 & (%sz & %base & Hsz & Hbase) & Hkr) & Hrc & Hblk) Ho]".
  iApply W_act. wp_store. iApply W_act. wp_store.
  iDestruct (is_sched_put ctx s t i Hi Hstop Hwf with "Hs") as "[(H1 & H2 & H3 & H4) Hs]".
  iApply W_act. wp_load. iApply W_act. wp_store. iApply W_act. wp_store. rw Hstop.
  iDestruct ("Hs" $! (ti_next i) (ti_next i) with "[] [H1 H2 H3 H4]") as "Hs".
  { iPureIntro. unfold HEV_TASK_PRIORITY_MAX in *. lia. }
  { unfold task_cells. iFrame. }
  set (s1 := s_put t (TInfo (ti_next i) (ti_next i) (ti_next i) HEV_TASK_STOPPED) s).
  assert (s_tasks s1 !! t = Some (TInfo (ti_next i) (ti_next i) (ti_next i) HEV_TASK_STOPPED)) as Hi1.
  { unfold s1. cbn. by rw lookup_insert_eq. }
  assert (sched_wf s1) as Hwf1.
  { apply (s_put_wf s Hwf t i); [done|done|done|]. cbn. unfold HEV_TASK_PRIORITY_MAX in *. lia. }
  unfold hev_task_system_run_new_task, hev_task_system_get_context. iApply W_act. wp_load. iApply W_act.
  wp_load. iApply W_act. wp_load. unfold hev_task_stack_get_base. iApply W_act. wp_load.
  cbn [sys call co_bind]. iApply W_execute. iFrame "HE". iIntros (v). cbn [co_bind]. iApply W'_act.
  iDestruct (is_sched_current with "Hs") as "[Hcur Hs]". wp_load. iDestruct ("Hs" with "Hcur") as "Hs".
  iApply W'_act. iApply (wp_run_key ctx s1 t _ _ Hi1 eq_refl Hwf1). iFrame "Hs". iIntros "Hs". cbn [ti_key].
  set (s2 := s_set_key t _ s1). iApply W'_act. iApply wp_wand. iSplitL "Hs".
  { iApply (wp_insert_task ctx s2 t (TInfo (if is_true (s_current s1) then w64 (ti_next i + min_key s1)
      else ti_next i) (ti_next i) (ti_next i) HEV_TASK_STOPPED)); [|done| |iExact "Hs"].
    - unfold s2, s_set_key. cbn [s_tasks]. rw (info_some s1 t _ Hi1). by rw lookup_insert_eq.
    - unfold s2, s_set_key. cbn [s_tasks s_queue].
      eapply q_sorted_ext; [|exact (proj2 Hwf1)]. intros x Hx. apply key_in_insert_ne. by intros ->. }
  iIntros (_) "Hs". assert (s_insert t s2 = s_run t s) as ->.
  { symmetry. apply (run_eq t s i Hi Hstop Hq). }
  iDestruct "Hx" as "(Hdns & Hn & Hx)". unfold act. iApply W'_act. wp_load. iApply W'_act. wp_store.
  iApply "HK". unfold is_system. iSplitL "Htls"; [iExact "Htls"|]. iSplitL "Hh"; [iExact "Hh"|].
  iSplitL "Hpz"; [iExact "Hpz"|]. iSplitL "Hs"; [iExact "Hs"|]. iSplitL "Hl"; [iExact "Hl"|].
  iSplitL "Ho Hb He Hd Hj Hk Hk0 Hsz Hbase Hkr Hrc Hblk".
  { iApply "Ho". unfold task_body. rw fn_lookup_insert. cbn [fst snd].
    iSplitL "Hb He Hd Hj"; [iExists _; iFrame|].
    iSplitR "Hrc Hblk"; [|iSplitL "Hrc"; [iExact "Hrc"|iExact "Hblk"]].
    iExists k. iSplitL "Hk"; [iExact "Hk"|]. iSplitL "Hk0"; [iExact "Hk0"|].
    iSplitR "Hkr"; [|iExact "Hkr"]. iExists _, _. iFrame. }
  iSplitL "Hr"; [iExact "Hr"|]. iSplitL "Ht"; [iExact "Ht"|].
  iSplitL; [|iPureIntro; split_and!; [done|by eapply run_wf|by apply run_same]].
  iSplitL "Hdns"; [iExact "Hdns"|]. iSplitL "Hn"; [iExact "Hn"|]. iExact "Hx".
Qed.
End steps.

Lemma cwp_task_run ctx s L J T n t entry data :
  t ∈ L ->
  is_system ctx s L J T n ⊢ cwp Y (hev_task_run t entry data) (fun _ =>
    is_system ctx (s_run t s) L (if runnable s t then <[t := (entry, data)]> J else J) T
      (if runnable s t then w32 (n + 1) else n)).
Proof.
  intros HtL. destruct (runnable s t) eqn:Hrun.
  - set (Q := fun _ : unit => _). iIntros "H".
    assert (forall X (m : M X) (k : X -> co unit), wp m (fun x => cwp Y (k x) Q) ⊢ cwp Y (Act m k) Q) as Hact by done.
    iApply (task_run_steps (fun c => cwp Y c Q) (fun c => cwp Y c Q) emp%I t Hact Hact _ ctx s L J T n entry data HtL Hrun).
    + iSplitL; [iExact "H"|]. iSplitR; [done|]. iIntros "H". iExact "H".
    Unshelve. intros bottom base k. iIntros "[_ H]". cbn [cwp]. iApply ext_wp_query. iIntros (a _). iApply "H".
  - iIntros "(Htls & Hh & Hpz & Hs & Hl & Ho & Hr & Ht & Hx & %Hp)".
    destruct Hp as (Hctx & Hwf & Hsame). destruct (proj1 (proj2 Hsame t) HtL) as [i Hi].
    unfold hev_task_run. cbn [cwp]. iDestruct (is_sched_state ctx s t i Hi with "Hs") as "[Hst Hs]".
    wp_load. iDestruct ("Hs" with "Hst") as "Hs". unfold runnable in Hrun. rw (info_some s t i Hi) in Hrun.
    rw Hrun. cbn [negb cwp]. unfold s_run. rw (info_some s t i Hi) Hrun.
    iSplitL "Htls"; [iExact "Htls"|]. by iFrame.
Qed.
End system.
