(* ===== verification/SystemLife.v ===== *)
(** * SystemLife: from [hev_task_system_init] to [hev_task_system_fini] *)

From S2P Require Import Prelude.
From S2P Require Import Sep.
From S2P Require Import RBTree.
From S2P Require Import RBTreeSpec.
From S2P Require Import RBTreeProofs.
From S2P Require Import RBTreeApi.
From S2P Require Import Env.
From S2P Require Import EnvLogic.
From S2P Require Import Dll.
From S2P Require Import Mem.
From S2P Require Import Alloc.
From S2P Require Import TaskBase.
From S2P Require Import Queue.
From S2P Require Import Timer.
From S2P Require Import QueueSpec.
From S2P Require Import QueueProofs.
From S2P Require Import TimerProofs.
From S2P Require Import Reactor.
From S2P Require Import Sched.
From S2P Require Import Task.
From S2P Require Import System.
From S2P Require Import SystemProofs.

Section life.
Context `{HA : !Allocator} (Y : Z -> heapProp -> heapProp) `{!YieldMono Y}.

(** ** Destroying a task *)

(** A task's cells outside the list of all tasks, whatever is in them. *)
Definition loose_task (t : Z) : heapProp :=
  ((∃ i, task_cells t i) ∗ rb_cell (task_sched_node t) ∗
   (∃ b e d j, task_stack_bottom t ↦ b ∗ task_entry t ↦ e ∗ task_data t ↦ d ∗ task_joiner t ↦ j) ∗
   (∃ k, task_stack t ↦ k ∗ is_stack k) ∗ (∃ rc, task_ref_count t ↦ rc) ∗
   block_rest t task_offs SIZEOF_TASK)%I.

Definition task_list (ctx : Z) (L : list Z) : heapProp :=
  is_list (ctx_all_tasks ctx) (task_list_node <$> L).

Lemma cwp_task_destroy ctx A t B :
  hev_task_system_tls_context ↦ ctx ∗ al_heap ∗ task_list ctx (A ++ t :: B) ∗ loose_task t
  ⊢ cwp Y (hev_task_destroy t) (fun _ =>
      hev_task_system_tls_context ↦ ctx ∗ al_heap ∗ task_list ctx (A ++ B)).
Proof.
  iIntros "(Htls & Hh & Hl & ([%i Hc] & Hn & Hf & (%k & Hk & Hks) & Hrc & Hb))".
  unfold hev_task_destroy, hev_task_system_get_context, task_list. cbn [cwp]. wp_load.
  rw fmap_app fmap_cons. cbn [cwp]. iApply wp_wand. iSplitL "Hl"; [by iApply wp_list_del|].
  iIntros (_) "[Hl Hln]". rw -fmap_app. cbn [cwp]. wp_load.
  iApply cwp_call. iSplitL "Hh Hks"; [iApply cwp_stack_destroy; iFrame|]. iIntros (_) "Hh".
  iApply (cwp_wand _ _ (fun _ => al_heap)).
  iSplitL "Hh Hc Hn Hf Hk Hrc Hb Hln"; [|iIntros (u) "Hh"; by iFrame].
  iApply (wp_free_task Y t i). iFrame "Hh Hc Hn Hln Hf". iSplitL "Hk"; [by iExists k|]. iFrame.
Qed.

Lemma loose_body t i J :
  task_cells t i ∗ rb_cell (task_sched_node t) ∗ task_body J t ⊢ loose_task t.
Proof.
  iIntros "(Hc & Hn & (%b & Hf) & Hk & Hrc & Hb)". iSplitL "Hc"; [by iExists i|]. iSplitL "Hn"; [iExact "Hn"|].
  iSplitL "Hf"; [iExists _, _, _, _; iExact "Hf"|]. iSplitL "Hk"; [iExact "Hk"|].
  iSplitL "Hrc"; [by iExists _|]. iExact "Hb".
Qed.

(** Dropping the only reference to a task that does not run. *)
Lemma cwp_task_unref ctx s A t B J T n i :
  s_tasks s !! t = Some i -> ti_state i <> HEV_TASK_RUNNING ->
  is_system ctx s (A ++ t :: B) J T n ⊢ cwp Y (hev_task_unref t) (fun _ =>
    is_system ctx (s_delete t s) (A ++ B) J T n).
Proof.
  intros Ht Hi. iIntros "(Htls & Hh & Hpz & Hs & Hl & Ho & Hr & Htm & Hx & %Hp)".
  destruct Hp as (Hctx & Hwf & Hsame).
  iDestruct (is_sched_delete ctx s t i Ht Hi Hwf with "Hs") as "(Hc & Hn & Hs)".
  unfold task_objects. rw big_sepL_app big_sepL_cons. iDestruct "Ho" as "(HoA & ([%b Hf] & Hk & Hrc & Hb) & HoB)".
  unfold hev_task_unref. cbn [cwp]. wp_load. cbn [cwp]. wp_store. cbn [cwp]. wp_load.
  change (s32 (1 - 1)) with 0. change (is_true 0) with false. cbv iota.
  iApply cwp_wand. iSplitL "Htls Hh Hl Hc Hn Hf Hk Hrc Hb".
  - iApply (cwp_task_destroy ctx A t B). iSplitL "Htls"; [iExact "Htls"|]. iSplitL "Hh"; [iExact "Hh"|].
    iSplitL "Hl"; [iExact "Hl"|]. iSplitL "Hc"; [by iExists i|]. iSplitL "Hn"; [iExact "Hn"|].
    iSplitL "Hf"; [iExists _, _, _, _; iExact "Hf"|]. iSplitL "Hk"; [iExact "Hk"|].
    iSplitL "Hrc"; [by iExists _|]. iExact "Hb".
  - iIntros (_) "(Htls & Hh & Hl)". iSplitL "Htls"; [iExact "Htls"|]. iSplitL "Hh"; [iExact "Hh"|].
    iSplitL "Hpz"; [iExact "Hpz"|]. iSplitL "Hs"; [iExact "Hs"|]. iSplitL "Hl"; [iExact "Hl"|].
    iSplitL "HoA HoB"; [unfold task_objects; rw big_sepL_app; iSplitL "HoA"; [iExact "HoA"|iExact "HoB"]|].
    iSplitL "Hr"; [iExact "Hr"|]. iSplitL "Htm"; [iExact "Htm"|]. iSplitL "Hx"; [iExact "Hx"|].
    iPureIntro. split_and!; [done|by eapply delete_wf|by apply delete_same].
Qed.

(** ** Taking a scheduler apart *)

Lemma is_tree_cells p t : is_tree p t ⊢ [∗ list] x ∈ inorder t, rb_cell x.
Proof.
  revert p. induction t as [|c l IHl a r IHr]; intros p; simpl; [done|].
  iIntros "(_ & Hn & Hl & Hr)". rw big_sepL_app big_sepL_cons. rw IHl IHr. iFrame "Hl Hr".
  iExists _, _, _. iExact "Hn".
Qed.

Lemma queue_cells ctx q :
  is_queue ctx q ⊢ (∃ v, rb_root (ctx_running_tasks ctx) ↦ v) ∗ (∃ v, rb_leftmost (ctx_running_tasks ctx) ↦ v) ∗
    (∃ v, ctx_running_task_count ctx ↦ v) ∗ [∗ list] t ∈ q, rb_cell (task_sched_node t).
Proof.
  iIntros "[[(%t & %Ht & Hroot & Ht) Hlm] Hn]". destruct Ht as [_ Ht]. rw is_tree_cells Ht big_sepL_fmap.
  iSplitL "Hroot"; [by iExists _|]. iSplitL "Hlm"; [by iExists _|]. iSplitL "Hn"; [by iExists _|]. iExact "Ht".
Qed.

(** Each task gets its node back, from the queue or from beside it. *)
Lemma collect_nodes L q (ts : gmap Z tinfo) :
  NoDup L -> NoDup q -> (forall t, t ∈ L <-> is_Some (ts !! t)) ->
  (forall t, t ∈ q -> is_Some (ts !! t)) ->
  (forall t i, ts !! t = Some i -> (ti_state i = HEV_TASK_RUNNING <-> t ∈ q)) ->
  all_cells ts ∗ idle_nodes ts ∗ ([∗ list] t ∈ q, rb_cell (task_sched_node t))
  ⊢ [∗ list] t ∈ L, (∃ i, task_cells t i) ∗ rb_cell (task_sched_node t).
Proof.
  revert q ts. induction L as [|t L IH]; intros q ts Hnd Hq HL Hk Hr.
  { assert (ts = ∅) as ->.
    { apply map_empty. intros t. destruct (ts !! t) eqn:E; [|done].
      assert (t ∈ []) as Ht by (apply HL; by eexists). by apply not_elem_of_nil in Ht. }
    destruct q as [|t q]; [|destruct (Hk t) as [i Hi]; [by left|]; by rw lookup_empty in Hi].
    unfold all_cells, idle_nodes. rw !big_sepM_empty. by iIntros "(_ & _ & _)". }
  apply NoDup_cons in Hnd as [HtL Hnd]. destruct (proj1 (HL t) (list_elem_of_here t L)) as [i Hi].
  set (q' := filter (fun y => y <> t) q).
  assert (all_cells ts ∗ idle_nodes ts ∗ ([∗ list] t ∈ q, rb_cell (task_sched_node t)) ⊢
    task_cells t i ∗ rb_cell (task_sched_node t) ∗
    all_cells (delete t ts) ∗ idle_nodes (delete t ts) ∗ ([∗ list] t ∈ q', rb_cell (task_sched_node t))) as Hstep.
  { unfold all_cells, idle_nodes. rw !(big_sepM_delete _ ts t i) //. unfold idle_node at 1.
    iIntros "([$ $] & [Hn $] & Hq)". destruct (Z.eqb_spec (ti_state i) HEV_TASK_RUNNING) as [E|E].
    - destruct (queue_split q t Hq) as (A & B & Hs & Hf); [by apply (Hr t i Hi)|].
      unfold q'. rw Hf Hs !big_sepL_app big_sepL_cons. iDestruct "Hq" as "($ & $ & $)".
    - iFrame "Hn". unfold q'. rw filter_all; [iExact "Hq"|]. apply Forall_forall. intros x Hx ->.
      by apply E, (Hr t i Hi). }
  rw Hstep big_sepL_cons. iIntros "(Hc & Hn & H)". iSplitL "Hc Hn"; [iSplitL "Hc"; [by iExists i|iExact "Hn"]|].
  iApply (IH q' with "H"); [done|by apply NoDup_filter|..].
  - intros x. rw lookup_delete_is_Some -HL elem_of_cons. naive_solver.
  - intros x [Hx Hxq]%list_elem_of_filter. rw lookup_delete_ne; [by apply Hk|]. by intros ->.
  - intros x j [Hne Hj]%lookup_delete_Some. unfold q'. rw list_elem_of_filter (Hr x j Hj). naive_solver.
Qed.

(** ** Every task goes *)

Lemma loose_heap_ge L : ([∗ list] t ∈ L, loose_task t) ⊢ heap_ge (length L).
Proof.
  induction L as [|t L IH]; [apply heap_ge_0|]. rw big_sepL_cons IH.
  iIntros "[([%i (Hk & _)] & _) H]". iDestruct (points_to_heap_ge with "Hk") as "Hk".
  iApply (heap_ge_sep 1). iFrame.
Qed.

Lemma cwp_fini_loop ctx k L :
  (length L < k)%nat ->
  hev_task_system_tls_context ↦ ctx ∗ al_heap ∗ task_list ctx L ∗ ([∗ list] t ∈ L, loose_task t)
  ⊢ cwp Y (co_loop (act (fail OutOfFuel)) k (fini_tasks ctx) tt) (fun _ =>
      hev_task_system_tls_context ↦ ctx ∗ al_heap ∗ task_list ctx []).
Proof.
  revert L. induction k as [|k IH]; intros L Hk; [lia|].
  iIntros "(Htls & Hh & Hl & HL)". iApply cwp_loop_S. unfold fini_tasks. cbn [cwp].
  destruct L as [|t L].
  - iApply wp_wand. iSplitL "Hl"; [by iApply wp_list_first|]. iIntros (n) "[-> Hl]".
    cbn. by iFrame.
  - iAssert (⌜task_list_node t <> NULL⌝)%I as %Ht; [by iDestruct "Hl" as "(_ & _ & %Hn & _)"|].
    iApply wp_wand. iSplitL "Hl"; [by iApply wp_list_first|]. iIntros (n) "[-> Hl]".
    unfold hdd. cbn [fmap list_fmap head default id]. rw is_true_nonnull //. cbn [negb].
    replace (task_of_list_node (task_list_node t)) with t by (unfold task_of_list_node, task_list_node; lia).
    rw big_sepL_cons. iDestruct "HL" as "[Ht HL]".
    iApply (cwp_call _ _ _ (fun _ => hev_task_system_tls_context ↦ ctx ∗ al_heap ∗ task_list ctx L)%I).
    iSplitR "HL".
    { iApply (cwp_task_destroy ctx [] t L). iSplitL "Htls"; [iExact "Htls"|].
      iSplitL "Hh"; [iExact "Hh"|]. iSplitL "Hl"; [iExact "Hl"|iExact "Ht"]. }
    iIntros (_) "(Htls & Hh & Hl)". cbn [cwp]. iApply (IH L); [simpl in Hk; lia|].
    iSplitL "Htls"; [iExact "Htls"|]. iSplitL "Hh"; [iExact "Hh"|]. iSplitL "Hl"; [iExact "Hl"|iExact "HL"].
Qed.

Lemma cwp_fini_tasks ctx L :
  hev_task_system_tls_context ↦ ctx ∗ al_heap ∗ task_list ctx L ∗ ([∗ list] t ∈ L, loose_task t)
  ⊢ cwp Y (co_chase (fini_tasks ctx) tt) (fun _ =>
      hev_task_system_tls_context ↦ ctx ∗ al_heap ∗ task_list ctx []).
Proof.
  iIntros "H". iApply (cwp_chase _ (length L)). iSplit.
  - iDestruct "H" as "(_ & _ & _ & H)". by iApply loose_heap_ge.
  - iIntros (k Hk). by iApply cwp_fini_loop.
Qed.

(** ** The objects of the system *)

Lemma cached_nil self : is_cached self [] ⊣⊢ rb_root self ↦ NULL ∗ rb_leftmost self ↦ NULL.
Proof.
  unfold is_cached, rb_lists. iSplit.
  - iIntros "[(%t & [%Hb %Ht] & Hr & Htr) $]". destruct t as [|c l a r]; [|simpl in Ht; by destruct (inorder l)].
    iDestruct "Htr" as "_". iExact "Hr".
  - iIntros "[Hr $]". iExists Leaf. iSplitR; [|by iFrame]. iPureIntro. split; [|done].
    exists 0%nat. constructor.
Qed.

Lemma timer_fields tm ctx :
  is_timer tm ctx no_timers ∗ timer_clock tm ∗
  (∃ sec nsec, ts_sec (timer_poll_deadline tm) ↦ sec ∗ ts_nsec (timer_poll_deadline tm) ↦ nsec)
  ⊢ field_cells tm timer_offs.
Proof.
  unfold is_timer, no_timers. cbn [tm_queue tm_entries]. rw cached_nil.
  iIntros "((_ & [H1 H2] & H3 & _) & (%a & %b & %c & H4 & H5 & H6) & (%d & %e & H7 & H8))".
  unfold field_cells, timer_offs. simpl. rw Z.add_0_r.
  iSplitL "H1"; [by iExists _|]. iSplitL "H2"; [by iExists _|]. iSplitL "H3"; [by iExists _|].
  iSplitL "H4"; [by iExists _|]. unfold ts_nsec, timer_cached_curr, timer_poll_deadline. rw -!Z.add_assoc.
  iSplitL "H5"; [by iExists _|]. iSplitL "H6"; [by iExists _|]. iSplitL "H7"; [by iExists _|].
  iSplitL "H8"; [by iExists _|]. done.
Qed.

Lemma cwp_timer_new ctx :
  al_heap ⊢ cwp Y (hev_task_timer_new ctx) (fun tm => al_heap ∗
    (⌞tm = NULL⌟ ∨ ⌞tm <> NULL⌟ ∗ is_timer tm ctx no_timers ∗ timer_clock tm ∗
     (∃ sec nsec, ts_sec (timer_poll_deadline tm) ↦ sec ∗ ts_nsec (timer_poll_deadline tm) ↦ nsec) ∗
     block_rest tm timer_offs SIZEOF_TIMER)).
Proof.
  iIntros "Hh". unfold hev_task_timer_new. iApply cwp_call.
  iSplitL; [iApply (wp_hev_malloc0 _ SIZEOF_TIMER with "Hh"); done|].
  iIntros (tm) "[Hh [->|Hz]]"; [cbn; iFrame; by iLeft|]. rw (zeroed_struct tm timer_offs) //.
  iDestruct "Hz" as "([%Hp _] & Hf & Hb)". rw is_true_nonnull; [|unfold NULL; lia]. cbn [negb cwp].
  unfold timer_offs at 1. simpl. rw Z.add_0_r.
  iDestruct "Hf" as "(H1 & H2 & H3 & H4 & H5 & H6 & H7 & H8 & _)". fold (timer_ctx tm). wp_store.
  iFrame "Hh". iRight. iSplitR; [iPureIntro; unfold NULL; lia|]. iSplitL "H1 H2 H3".
  { unfold is_timer, no_timers. cbn [tm_queue tm_entries]. rw cached_nil. iFrame.
    iSplitR; [iPureIntro; split; simpl; [constructor| |constructor]|unfold entries; by rw big_sepM_empty].
    intros n. rw lookup_empty. split; [by intros []%not_elem_of_nil|by intros []]. }
  iSplitL "H4 H5 H6".
  { iExists 0, 0, 0. unfold ts_sec, ts_nsec, timer_cached_curr, timer_cached_curr_valid. rw -!Z.add_assoc. iFrame. }
  iFrame "Hb". iExists 0, 0. unfold ts_sec, ts_nsec, timer_poll_deadline. rw -!Z.add_assoc. iFrame.
Qed.

Lemma wp_free_reactor r fd :
  al_heap ∗ reactor_fd r ↦ fd ∗ block_rest r [0] SIZEOF_REACTOR ⊢ cwp Y (hev_free r) (fun _ => al_heap).
Proof.
  iIntros "(Hh & Hf & Hb)". iApply (wp_hev_free _ r SIZEOF_REACTOR). iFrame "Hh".
  iApply (block_close r [0]); [done|]. iFrame "Hb". unfold field_cells. simpl. rw Z.add_0_r.
  iSplitL; [by iExists fd|done].
Qed.

Lemma cwp_reactor_new :
  al_heap ⊢ cwp Y hev_task_io_reactor_new (fun r => al_heap ∗
    (⌞r = NULL⌟ ∨ ⌞r <> NULL⌟ ∗ ∃ fd, reactor_fd r ↦ fd ∗ block_rest r [0] SIZEOF_REACTOR)).
Proof.
  iIntros "Hh". unfold hev_task_io_reactor_new, reactor_open. iApply cwp_call.
  iSplitL; [iApply (wp_hev_malloc0 _ SIZEOF_REACTOR with "Hh"); done|].
  iIntros (r) "[Hh [->|Hz]]"; [cbn; iFrame; by iLeft|]. rw (zeroed_struct r [0]) //.
  iDestruct "Hz" as "([%Hp _] & Hf & Hb)". rw is_true_nonnull; [|unfold NULL; lia]. cbn [negb].
  rw big_sepL_singleton Z.add_0_r. iAssert (reactor_fd r ↦ 0)%I with "[Hf]" as "Hf"; [iExact "Hf"|].
  iApply cwp_sys. iIntros (fd). cbn [cwp]. wp_store. destruct (fd <? 0).
  { iApply cwp_call. iSplitL; [iApply (wp_free_reactor r fd); iFrame|].
    iIntros (u) "Hh". cbn [cwp]. iFrame. by iLeft. }
  iApply cwp_sys. iIntros (flags). destruct (flags <? 0).
  { iApply cwp_sys. iIntros (x). iApply cwp_call. iSplitL; [iApply (wp_free_reactor r fd); iFrame|].
    iIntros (u) "Hh". cbn [cwp]. iFrame. by iLeft. }
  cbv zeta. iApply cwp_sys. iIntros (v). destruct (v <? 0).
  { iApply cwp_sys. iIntros (x). iApply cwp_call. iSplitL; [iApply (wp_free_reactor r fd); iFrame|].
    iIntros (u) "Hh". cbn [cwp]. iFrame. by iLeft. }
  cbn [cwp]. iFrame "Hh". iRight. iSplitR; [iPureIntro; unfold NULL; lia|]. iExists fd. iFrame.
Qed.

Lemma cwp_reactor_destroy r fd :
  al_heap ∗ reactor_fd r ↦ fd ∗ block_rest r [0] SIZEOF_REACTOR
  ⊢ cwp Y (hev_task_io_reactor_destroy r) (fun _ => al_heap).
Proof.
  iIntros "(Hh & Hf & Hb)". unfold hev_task_io_reactor_destroy. cbn [cwp]. wp_load.
  iApply cwp_sys. iIntros (v). iApply (wp_free_reactor r fd). iFrame.
Qed.

(** ** The end *)

(** Dropping the default allocator leaves none. *)
Context (al_drop : al_heap ⊢ cwp Y drop_default_allocator (fun _ => tls_default_allocator ↦ NULL)).

(** The context's fields, beside those of the run queue and the list. *)
Definition ctx_cells (ctx : Z) : heapProp :=
  ((∃ v, ctx_total_task_count ctx ↦ v) ∗ (∃ v, ctx_running_task_count ctx ↦ v) ∗
   (∃ v, ctx_timer ctx ↦ v) ∗ (∃ v, ctx_reactor ctx ↦ v) ∗ (∃ v, ctx_dns_proxy ctx ↦ v) ∗
   (∃ v, ctx_stack_detector ctx ↦ v) ∗ (∃ v, ctx_current_task ctx ↦ v) ∗
   (∃ v, rb_root (ctx_running_tasks ctx) ↦ v) ∗ (∃ v, rb_leftmost (ctx_running_tasks ctx) ↦ v) ∗
   (∃ v, list_head (ctx_all_tasks ctx) ↦ v) ∗ (∃ v, list_tail (ctx_all_tasks ctx) ↦ v))%I.

Lemma wp_free_ctx ctx :
  al_heap ∗ ctx_cells ctx ∗ block_rest ctx ctx_offs SIZEOF_CONTEXT
  ⊢ cwp Y (hev_free ctx) (fun _ => al_heap).
Proof.
  iIntros "(Hh & Hc & Hb)". iApply (wp_hev_free _ ctx SIZEOF_CONTEXT). iFrame "Hh".
  iApply (block_close ctx ctx_offs); [done|]. iFrame "Hb". unfold field_cells, ctx_offs. simpl.
  rw Z.add_0_r. unfold ctx_cells, rb_root, rb_leftmost, list_head, list_tail, ctx_total_task_count,
    ctx_running_task_count, ctx_timer, ctx_reactor, ctx_dns_proxy, ctx_stack_detector, ctx_current_task,
    ctx_running_tasks, ctx_all_tasks. rw -!Z.add_assoc.
  iDestruct "Hc" as "($ & $ & $ & $ & $ & $ & $ & $ & $ & $ & $)".
Qed.

(** What is left when the context is gone. *)
Definition no_system : heapProp :=
  (hev_task_system_tls_context ↦ NULL ∗ tls_default_allocator ↦ NULL ∗ ∃ pz, stack_page_size ↦ pz)%I.

(** The tasks of a system, loose. *)
Lemma system_apart ctx s L J :
  same_tasks s L ->
  is_sched ctx s ∗ task_objects J L ⊢ ([∗ list] t ∈ L, loose_task t) ∗
    (∃ v, ctx_running_task_count ctx ↦ v) ∗ (∃ v, ctx_current_task ctx ↦ v) ∗
    (∃ v, rb_root (ctx_running_tasks ctx) ↦ v) ∗ (∃ v, rb_leftmost (ctx_running_tasks ctx) ↦ v).
Proof.
  intros [Hnd HL]. iIntros "[(%Hb & Hq & Hcur & Hts & Hidle) Ho]".
  iDestruct (queue_cells with "Hq") as "(Hr & Hlm & Hn & Hq)".
  iDestruct (collect_nodes L (s_queue s) (s_tasks s) with "[$Hts $Hidle $Hq]") as "HL";
    [done|apply Hb|done|apply Hb|apply Hb|].
  iSplitL "HL Ho"; [|iSplitL "Hn"; [iExact "Hn"|]; iSplitL "Hcur"; [by iExists _|];
    iSplitL "Hr"; [iExact "Hr"|iExact "Hlm"]].
  unfold task_objects. iDestruct (big_sepL_sep_2 with "HL Ho") as "H".
  iApply (big_sepL_impl with "H"). iIntros "!>" (k t _) "[[[%i Hc] Hn] Hb]".
  iApply (loose_body t i J). iSplitL "Hc"; [iExact "Hc"|]. iSplitL "Hn"; [iExact "Hn"|iExact "Hb"].
Qed.

Lemma cwp_system_fini ctx s L J tm n :
  is_system ctx s L J (tm, no_timers) n ⊢ cwp Y hev_task_system_fini (fun _ => no_system).
Proof.
  unfold is_system, system_timer. cbn [fst snd].
  iIntros "(Htls & Hh & Hpz & Hs & Hl & Ho & (%r & %fd & Hr & Hfd & Hrb) &
    (Htm & Ht & Hck & Hdl & Htb) & (Hdns & Htot & Hdet & Hcb) & %Hp)".
  destruct Hp as (Hctx & Hwf & Hsame). unfold hev_task_system_fini, hev_task_system_get_context.
  cbn [cwp]. wp_load. rw is_true_nonnull; [|unfold NULL; lia]. cbn [negb].
  iDestruct (system_apart ctx s L J Hsame with "[$Hs $Ho]") as "(HL & Hcnt & Hcur & Hroot & Hlm)".
  iApply (cwp_call _ _ _ (fun _ => hev_task_system_tls_context ↦ ctx ∗ al_heap ∗ task_list ctx [])%I).
  iSplitL "Htls Hh Hl HL".
  { iApply cwp_fini_tasks. iSplitL "Htls"; [iExact "Htls"|]. iSplitL "Hh"; [iExact "Hh"|].
    iSplitL "Hl"; [iExact "Hl"|iExact "HL"]. }
  iIntros (_) "(Htls & Hh & (Hhd & Htl & _))". cbn [cwp]. wp_load. change (is_true NULL) with false.
  cbn [co_when co_bind cwp]. wp_load. unfold hev_task_timer_destroy.
  iApply (cwp_call _ _ _ (fun _ => al_heap)). iSplitL "Hh Ht Hck Hdl Htb".
  { iApply (wp_hev_free _ tm SIZEOF_TIMER). iFrame "Hh". iApply (block_close tm timer_offs); [done|].
    iSplitR "Htb"; [|iExact "Htb"]. iApply (timer_fields tm ctx).
    iSplitL "Ht"; [iExact "Ht"|]. iSplitL "Hck"; [iExact "Hck"|iExact "Hdl"]. }
  iIntros (_) "Hh". cbn [cwp]. wp_load.
  iApply (cwp_call _ _ _ (fun _ => al_heap)). iSplitL "Hh Hfd Hrb"; [iApply (cwp_reactor_destroy r fd); iFrame|].
  iIntros (_) "Hh". iApply (cwp_call _ _ _ (fun _ => al_heap)).
  iSplitR "Htls Hpz".
  { iApply wp_free_ctx. iSplitL "Hh"; [iExact "Hh"|]. iSplitR "Hcb"; [|iExact "Hcb"]. unfold ctx_cells.
    iSplitL "Htot"; [by iExists _|]. iSplitL "Hcnt"; [iExact "Hcnt"|]. iSplitL "Htm"; [by iExists _|].
    iSplitL "Hr"; [by iExists _|]. iSplitL "Hdns"; [by iExists _|]. iSplitL "Hdet"; [iExact "Hdet"|].
    iSplitL "Hcur"; [iExact "Hcur"|]. iSplitL "Hroot"; [iExact "Hroot"|]. iSplitL "Hlm"; [iExact "Hlm"|].
    iSplitL "Hhd"; by iExists _. }
  iIntros (_) "Hh". unfold hev_task_system_set_context. cbn [cwp]. wp_store.
  iApply cwp_call. iSplitL "Hh"; [by iApply al_drop|]. iIntros (u) "Hd". unfold hev_sys_fini. cbn [cwp].
  iSplitL "Htls"; [iExact "Htls"|]. iSplitL "Hd"; [iExact "Hd"|iExact "Hpz"].
Qed.

(** ** The beginning *)

(** A fresh context is that of a scheduler without tasks. *)
Lemma zeroed_context ctx :
  zeroed ctx SIZEOF_CONTEXT ⊢ ⌞0 < ctx⌟ ∗ ctx_total_task_count ctx ↦ 0 ∗ ctx_timer ctx ↦ 0 ∗
    ctx_reactor ctx ↦ 0 ∗ ctx_dns_proxy ctx ↦ NULL ∗ ctx_stack_detector ctx ↦ 0 ∗
    is_sched ctx s_empty ∗ task_list ctx [] ∗ block_rest ctx ctx_offs SIZEOF_CONTEXT.
Proof.
  rw (zeroed_struct ctx ctx_offs) //. iIntros "([%Hp _] & Hf & $)". iSplitR; [done|].
  unfold ctx_offs. simpl. rw Z.add_0_r.
  iDestruct "Hf" as "(H1 & H2 & H3 & H4 & H5 & H6 & H7 & H8 & H9 & H10 & H11 & _)".
  iSplitL "H1"; [iExact "H1"|]. iSplitL "H3"; [iExact "H3"|]. iSplitL "H4"; [iExact "H4"|].
  iSplitL "H5"; [iExact "H5"|]. iSplitL "H6"; [iExact "H6"|]. iSplitL "H2 H7 H8 H9".
  - unfold is_sched, is_queue. cbn [s_empty s_queue s_current s_tasks fmap list_fmap length].
    rw cached_nil. iSplitR; [iPureIntro; apply empty_wf|].
    iSplitR "H7"; [iSplitR "H2"; [|iExact "H2"]; iSplitL "H8"; [iExact "H8"|]|].
    + unfold rb_leftmost, ctx_running_tasks. rw -!Z.add_assoc. iExact "H9".
    + iSplitL; [iExact "H7"|]. unfold all_cells, idle_nodes. by rw !big_sepM_empty.
  - unfold task_list, is_list, is_dll. cbn [fmap list_fmap dseg]. iSplitL "H10"; [iExact "H10"|].
    iSplitL; [|done]. unfold list_tail, ctx_all_tasks. rw -!Z.add_assoc. iExact "H11".
Qed.

(** What follows the choice of the allocator. *)
Definition init_tail (context : Z) : co Z :=
  if negb (is_true context) then init_exit else
  reactor <~ hev_task_io_reactor_new ;;
  store (ctx_reactor context) reactor !;;
  if negb (is_true reactor) then init_free_context context else
  timer <~ hev_task_timer_new context ;;
  store (ctx_timer context) timer !;;
  if negb (is_true timer) then init_free_reactor context else
  hev_task_system_set_context context !;;
  Ret 0.

Lemma cwp_init_exit :
  hev_task_system_tls_context ↦ NULL ∗ al_heap ∗ (∃ pz, stack_page_size ↦ pz)
  ⊢ cwp Y init_exit (fun r => ⌞r = -1⌟ ∗ no_system).
Proof.
  iIntros "(Htls & Hh & Hpz)". unfold init_exit. iApply cwp_call. iSplitL "Hh"; [by iApply al_drop|].
  iIntros (u) "Hd". unfold hev_sys_fini. cbn [cwp co_bind]. iSplitR; [done|].
  iSplitL "Htls"; [iExact "Htls"|]. iSplitL "Hd"; [iExact "Hd"|iExact "Hpz"].
Qed.

Lemma cwp_init_free_context ctx :
  hev_task_system_tls_context ↦ NULL ∗ al_heap ∗ (∃ pz, stack_page_size ↦ pz) ∗ ctx_cells ctx ∗
  block_rest ctx ctx_offs SIZEOF_CONTEXT
  ⊢ cwp Y (init_free_context ctx) (fun r => ⌞r = -1⌟ ∗ no_system).
Proof.
  iIntros "(Htls & Hh & Hpz & Hc & Hb)". unfold init_free_context.
  iApply (cwp_call _ _ _ (fun _ => al_heap)). iSplitL "Hh Hc Hb"; [iApply wp_free_ctx; iFrame|].
  iIntros (u) "Hh". iApply cwp_init_exit. iFrame.
Qed.

Lemma fresh_ctx_cells ctx t m r p d :
  ctx_total_task_count ctx ↦ t ∗ ctx_timer ctx ↦ m ∗ ctx_reactor ctx ↦ r ∗ ctx_dns_proxy ctx ↦ p ∗
  ctx_stack_detector ctx ↦ d ∗ is_sched ctx s_empty ∗ task_list ctx [] ⊢ ctx_cells ctx.
Proof.
  iIntros "(H1 & H3 & H4 & H5 & H6 & (_ & Hq & Hcur & _ & _) & (Hhd & Htl & _))".
  iDestruct (queue_cells with "Hq") as "(Hr & Hlm & Hn & _)". unfold ctx_cells.
  iSplitL "H1"; [by iExists _|]. iSplitL "Hn"; [iExact "Hn"|]. iSplitL "H3"; [by iExists _|].
  iSplitL "H4"; [by iExists _|]. iSplitL "H5"; [by iExists _|]. iSplitL "H6"; [by iExists _|].
  iSplitL "Hcur"; [by iExists _|]. iSplitL "Hr"; [iExact "Hr"|]. iSplitL "Hlm"; [iExact "Hlm"|].
  iSplitL "Hhd"; by iExists _.
Qed.

(** The system starts without tasks, or everything is given back. *)
Definition started (r : Z) : heapProp :=
  (⌞r = 0⌟ ∗ (∃ ctx tm, is_system ctx s_empty [] (fun _ => (0, 0)) (tm, no_timers) 0) ∨ ⌞r = -1⌟ ∗ no_system)%I.

Lemma cwp_init_tail ctx :
  hev_task_system_tls_context ↦ NULL ∗ al_heap ∗ (∃ pz, stack_page_size ↦ pz) ∗
  (⌞ctx = NULL⌟ ∨ zeroed ctx SIZEOF_CONTEXT) ⊢ cwp Y (init_tail ctx) started.
Proof.
  iIntros "(Htls & Hh & Hpz & [->|Hz])"; unfold init_tail.
  { change (is_true NULL) with false. cbn [negb]. iApply (cwp_wand _ _ (fun r => ⌞r = -1⌟ ∗ no_system)%I).
    iSplitL; [iApply cwp_init_exit; iFrame|]. iIntros (r) "H". by iRight. }
  iDestruct (zeroed_context with "Hz") as "(%Hp & Htot & Htm & Hr & Hdns & Hdet & Hs & Hl & Hb)".
  rw is_true_nonnull; [|unfold NULL; lia]. cbn [negb].
  iApply cwp_call. iSplitL "Hh"; [by iApply cwp_reactor_new|]. iIntros (r) "[Hh Hrr]". cbn [cwp]. wp_store.
  iDestruct "Hrr" as "[->|[%Hr0 (%fd & Hfd & Hrb)]]".
  { change (is_true NULL) with false. cbn [negb]. iApply (cwp_wand _ _ (fun r => ⌞r = -1⌟ ∗ no_system)%I).
    iSplitL; [|iIntros (x) "H"; by iRight]. iApply cwp_init_free_context.
    iSplitL "Htls"; [iExact "Htls"|]. iSplitL "Hh"; [iExact "Hh"|]. iSplitL "Hpz"; [iExact "Hpz"|].
    iSplitR "Hb"; [|iExact "Hb"]. iApply (fresh_ctx_cells ctx). iFrame. }
  rw (is_true_nonnull r) //. cbn [negb].
  iApply cwp_call. iSplitL "Hh"; [by iApply (cwp_timer_new ctx)|]. iIntros (tm) "[Hh Htt]". cbn [cwp]. wp_store.
  iDestruct "Htt" as "[->|[%Ht0 (Ht & Hck & Hdl & Htb)]]".
  { change (is_true NULL) with false. cbn [negb]. unfold init_free_reactor. cbn [cwp]. wp_load.
    iApply (cwp_call _ _ _ (fun _ => al_heap)).
    iSplitL "Hh Hfd Hrb"; [iApply (cwp_reactor_destroy r fd); iFrame|]. iIntros (_) "Hh".
    iApply (cwp_wand _ _ (fun r => ⌞r = -1⌟ ∗ no_system)%I).
    iSplitL; [|iIntros (x) "H"; by iRight]. iApply cwp_init_free_context.
    iSplitL "Htls"; [iExact "Htls"|]. iSplitL "Hh"; [iExact "Hh"|]. iSplitL "Hpz"; [iExact "Hpz"|].
    iSplitR "Hb"; [|iExact "Hb"]. iApply (fresh_ctx_cells ctx). iFrame. }
  rw (is_true_nonnull tm) //. cbn [negb]. unfold hev_task_system_set_context. cbn [cwp]. wp_store.
  iLeft. iSplitR; [done|]. iExists ctx, tm. unfold is_system.
  iSplitL "Htls"; [iExact "Htls"|]. iSplitL "Hh"; [iExact "Hh"|]. iSplitL "Hpz"; [iExact "Hpz"|].
  iSplitL "Hs"; [iExact "Hs"|]. iSplitL "Hl"; [iExact "Hl"|].
  iSplitR; [unfold task_objects; by rw big_sepL_nil|].
  iSplitL "Hr Hfd Hrb"; [iExists r, fd; iFrame|].
  iSplitL "Htm Ht Hck Hdl Htb"; [unfold system_timer; iSplitL "Htm"; [iExact "Htm"|]; iSplitL "Ht"; [iExact "Ht"|];
    iSplitL "Hck"; [iExact "Hck"|]; iSplitL "Hdl"; [iExact "Hdl"|iExact "Htb"]|].
  iSplitL; [iSplitL "Hdns"; [iExact "Hdns"|]; iSplitL "Htot"; [iExact "Htot"|]; iSplitL "Hdet"; [by iExists _|iExact "Hb"]|].
  iPureIntro. split; [done|]. split; [apply empty_wf|]. split; [constructor|]. intros t. cbn. rw lookup_empty.
  split; [by intros []%not_elem_of_nil|by intros []].
Qed.
End life.
