(* ===== verification/SystemProps.v ===== *)
(** * SystemProps: what a task system owns

    The users of a system here create tasks, run them and drop them; the tasks
    themselves do not get to run. *)

From S2P Require Import Prelude.
From S2P Require Import Sep.
From S2P Require Import Env.
From S2P Require Import EnvLogic.
From S2P Require Import Trace.
From S2P Require Import Threads.
From S2P Require Import Mem.
From S2P Require Import Slice.
From S2P Require Import SliceProofs.
From S2P Require Import SliceLife.
From S2P Require Import Alloc.
From S2P Require Import TaskBase.
From S2P Require Import QueueSpec.
From S2P Require Import QueueProofs.
From S2P Require Import Task.
From S2P Require Import System.
From S2P Require Import SystemProofs.
From S2P Require Import SystemLife.

(** ** The two default allocators of a system *)

Inductive kind : Type := Caching | Plain.

Definition kind_allocator (k : kind) (self : Z) : Allocator :=
  match k with Caching => slice_allocator self | Plain => simple_allocator self end.

Lemma drop_set Y `{!YieldMono Y} self obj :
  self <> NULL -> (obj ⊢ cwp Y (hev_memory_allocator_unref self) (fun _ => emp)) ->
  tls_default_allocator ↦ self ∗ obj ⊢ cwp Y drop_default_allocator (fun _ => tls_default_allocator ↦ NULL).
Proof.
  intros Hs Ho. iIntros "[Ht Ho]". unfold drop_default_allocator, hev_memory_allocator_set_default.
  cbn [cwp]. wp_load. wp_store. rw is_true_nonnull //. cbn [co_when]. iApply cwp_wand.
  iSplitL "Ho"; [by iApply Ho|]. iIntros (u) "_". iExact "Ht".
Qed.

Lemma kind_drop Y `{!YieldMono Y} k self :
  @al_heap (kind_allocator k self) ⊢ cwp Y drop_default_allocator (fun _ => tls_default_allocator ↦ NULL).
Proof.
  destruct k; cbn [kind_allocator].
  - iIntros "H". iDestruct (slice_heap_pos with "H") as %Hp. iDestruct "H" as "[Ht [%st H]]".
    iApply (drop_set Y self (slice_obj self st 1)); [unfold NULL; lia|by apply wp_slice_unref|iFrame].
  - iIntros "[Ht H]". iAssert ⌜0 < self⌝%I as %Hp; [by iDestruct "H" as "([% _] & _)"|].
    iApply (drop_set Y self (simple_obj self)); [unfold NULL; lia|by apply wp_simple_unref|iFrame].
Qed.

(** ** A user of the system *)

Inductive request : Type :=
| Create (stack_size : Z)            (* a new task at the end of the list *)
| Run (i : nat) (entry data : Z)     (* run the [i]th task *)
| Release (i : nat).                 (* drop it, if it has not been run *)

(** [L] are the user's tasks. *)
Definition serve (L : list Z) (o : request) : co (list Z) :=
  match o with
  | Create stack_size =>
      t <~ hev_task_new stack_size ;;
      Ret (if is_true t then L ++ [t] else L)
  | Run i entry data =>
      match L !! i with
      | Some t => hev_task_run t entry data ~;; Ret L
      | None => Ret L
      end
  | Release i =>
      match L !! i with
      | Some t =>
          state <! hev_task_get_state t ;;
          if state =? HEV_TASK_STOPPED then hev_task_unref t ~;; Ret (delete i L) else Ret L
      | None => Ret L
      end
  end.

Fixpoint serve_all (L : list Z) (l : list request) : co unit :=
  match l with
  | [] => Ret tt
  | o :: l => L <~ serve L o ;; serve_all L l
  end.

Definition system_life (l : list request) : co Z :=
  r <~ hev_task_system_init ;;
  if r <? 0 then Ret r else
  serve_all [] l ~;;
  hev_task_system_fini ~;;
  Ret 0.

Section serve.
Context `{HA : !Allocator} (Y : Z -> heapProp -> heapProp) `{!YieldMono Y}.

Lemma cwp_serve ctx s L J tm n o :
  is_system ctx s L J (tm, no_timers) n ⊢ cwp Y (serve L o) (fun L' => ∃ s' J' n', is_system ctx s' L' J' (tm, no_timers) n').
Proof.
  iIntros "H". destruct o as [size|i entry data|i]; cbn [serve].
  - iApply cwp_call. iSplitL; [by iApply (cwp_task_new Y ctx s L J (tm, no_timers) n size)|].
    iIntros (t) "[[-> H]|[%Ht H]]"; cbn [cwp].
    + change (is_true NULL) with false. cbv iota. iExists s, J, n. iExact "H".
    + rw is_true_nonnull; [|tauto]. iExists _, _, _. iExact "H".
  - destruct (L !! i) as [t|] eqn:Ht; [|cbn; iExists s, J, n; iExact "H"].
    iApply cwp_call. iSplitL.
    + iApply (cwp_task_run Y ctx s L J (tm, no_timers) n t entry data with "H"). by apply list_elem_of_lookup_2 in Ht.
    + iIntros (u) "H". cbn [cwp]. iExists _, _, _. iExact "H".
  - destruct (L !! i) as [t|] eqn:Ht; [|cbn; iExists s, J, n; iExact "H"].
    iDestruct "H" as "(Htls & Hh & Hpz & Hs & H)". unfold hev_task_get_state. cbn [cwp].
    iAssert ⌜same_tasks s L⌝%I as %Hsame.
    { iDestruct "H" as "(_ & _ & _ & _ & _ & %Hp)". iPureIntro. tauto. }
    destruct (proj1 (proj2 Hsame t)) as [j Hj]; [by apply list_elem_of_lookup_2 in Ht|].
    iDestruct (is_sched_state ctx s t j Hj with "Hs") as "[Hst Hs]". wp_load.
    iDestruct ("Hs" with "Hst") as "Hs".
    iAssert (is_system ctx s L J (tm, no_timers) n) with "[Htls Hh Hpz Hs H]" as "H".
    { iSplitL "Htls"; [iExact "Htls"|]. iSplitL "Hh"; [iExact "Hh"|]. iSplitL "Hpz"; [iExact "Hpz"|].
      iSplitL "Hs"; [iExact "Hs"|iExact "H"]. }
    destruct (Z.eqb_spec (ti_state j) HEV_TASK_STOPPED) as [Hstop|_]; [|cbn; iExists s, J, n; iExact "H"].
    rw (delete_take_drop L i). rw -{1}(take_drop_middle L i t Ht).
    iApply cwp_call. iSplitL.
    + iApply (cwp_task_unref Y ctx s _ t _ J (tm, no_timers) n j Hj with "H"). by rw Hstop.
    + iIntros (u) "H". cbn [cwp]. iExists _, _, _. iExact "H".
Qed.

Lemma cwp_serve_all ctx s L J tm n l :
  is_system ctx s L J (tm, no_timers) n ⊢ cwp Y (serve_all L l) (fun _ => ∃ s' L' J' n', is_system ctx s' L' J' (tm, no_timers) n').
Proof.
  revert s L J n. induction l as [|o l IH]; intros s L J n; cbn [serve_all].
  - iIntros "H". cbn [cwp]. iExists s, L, J, n. iExact "H".
  - iIntros "H". iApply cwp_call. iSplitL; [by iApply cwp_serve|].
    iIntros (L') "(%s' & %J' & %n' & H)". by iApply IH.
Qed.
End serve.

(** The rest of a life, once [hev_task_system_init] has returned [r]. *)
Definition life_tail (l : list request) (r : Z) : co Z :=
  if r <? 0 then Ret r else serve_all [] l ~;; hev_task_system_fini ~;; Ret 0.

Definition life_over (r : Z) : heapProp := (⌞r = 0 \/ r = -1⌟ ∗ no_system)%I.

Lemma cwp_life_tail Y `{!YieldMono Y} k self l r :
  @started (kind_allocator k self) r ⊢ cwp Y (life_tail l r) life_over.
Proof.
  iIntros "[[-> (%ctx & %tm & H)]|[-> H]]"; unfold life_tail; cbn [Z.ltb Z.compare].
  - iApply cwp_call. iSplitL; [by iApply (@cwp_serve_all (kind_allocator k self))|].
    iIntros (u) "(%s & %L & %J & %n & H)". iApply cwp_call. iSplitL.
    + iApply (@cwp_system_fini (kind_allocator k self) Y _ (kind_drop Y k self) with "H").
    + iIntros (v) "H". cbn [cwp]. iSplitR; [by iPureIntro; left|]. iExact "H".
  - cbn [cwp]. iSplitR; [by iPureIntro; right|]. iExact "H".
Qed.

(** ** The allocator of last resort *)

(** The answers considered: when the caching allocator cannot be made, there is
    memory for the plain one. *)
Definition fallback_ok (_ : unit) (e : ext) (x : answer) : Prop :=
  e = Malloc SIZEOF_ALLOCATOR -> a_ret x <> 0.

Definition no_step (_ : unit) (_ : ext) (_ : answer) : unit := tt.

Abbreviation ftwp := (twp fallback_ok no_step (fun _ => emp)%I).

Lemma ftwp_any {A} (c : co A) Q : cwp yield_id c Q ⊢ ftwp c Q.
Proof.
  apply twp_of_cwp. apply (calls_mono (fun _ => True)); [by intros e _ [] a|].
  induction c as [a|X c k IH|e k IH|k IH|]; simpl; auto.
Qed.

Lemma ftwp_default :
  tls_default_allocator ↦ NULL ⊢ ftwp hev_memory_allocator_default (fun self => simple_heap self).
Proof.
  iIntros "Ht". unfold hev_memory_allocator_default, simple_new, malloc. t_load.
  change (is_true NULL) with false. t_norm. iApply twp_ext. iIntros (w) "_".
  iApply ext_wp_malloc. iIntros (x) "Hx %Hv". iSplitR; [done|].
  iDestruct "Hx" as "[%Hz|([%Hp %Hal] & Hh & Hb)]"; [by destruct Hv|].
  rw is_true_nonnull; [|unfold NULL; lia]. rw simple_cells.
  iDestruct "Hb" as "[(%fa & %fr & %ff & %fd & %rc & Ha & Hr & Hf & Hd & Hc) Hrest]".
  t_norm. do 6 (iApply twp_act; wp_store). iApply twp_ret. unfold simple_heap, simple_obj, vtable.
  iFrame "Ht Ha Hr Hf Hd Hc Hh Hrest". by iPureIntro.
Qed.

Lemma ftwp_malloc0 n :
  0 < n <= MAX_REQUEST ->
  tls_default_allocator ↦ NULL ⊢ ftwp (hev_malloc0 n) (fun p => ∃ self,
    simple_heap self ∗ (⌞p = NULL⌟ ∨ @zeroed (simple_allocator self) p n)).
Proof.
  iIntros (Hn) "Ht". unfold hev_malloc0. iApply twp_call. iSplitL; [by iApply ftwp_default|].
  iIntros (self) "H". iApply ftwp_any. iApply cwp_wand. iSplitL.
  - iApply (@wp_malloc0_from (simple_allocator self) yield_id _ n Hn with "H").
  - iIntros (p) "H". iExists self. iExact "H".
Qed.

(** Starting leaves a system with one of the two allocators, or nothing. *)
Lemma ftwp_init :
  no_system ⊢ ftwp hev_task_system_init (fun r => ∃ k self, @started (kind_allocator k self) r).
Proof.
  iIntros "(Htls & Hd & Hpz)". unfold hev_task_system_init. t_load. change (is_true NULL) with false.
  change (hev_sys_init <? 0) with false. iApply twp_call.
  iSplitR; [iApply ftwp_any; by iApply wp_slice_new|]. iIntros (a) "Ha".
  iApply twp_act. unfold hev_memory_allocator_set_default. wp_load. wp_store.
  change (is_true NULL) with false. cbn [co_when].
  iDestruct "Ha" as "[->|Ha]".
  - iApply twp_bind. iApply twp_ret. iApply twp_call.
    iSplitL "Hd"; [iApply (ftwp_malloc0 SIZEOF_CONTEXT with "Hd"); done|].
    iIntros (p) "(%self & Hh & Hz)". iApply ftwp_any. iApply cwp_wand. iSplitL.
    + iApply (@cwp_init_tail (simple_allocator self) yield_id _ (kind_drop yield_id Plain self) p).
      iSplitL "Htls"; [iExact "Htls"|]. iSplitL "Hh"; [iExact "Hh"|]. iSplitL "Hpz"; [iExact "Hpz"|iExact "Hz"].
    + iIntros (r) "H". iExists Plain, self. iExact "H".
  - iApply twp_bind. iApply twp_ret. iApply twp_call. iSplitL "Hd Ha".
    + iApply ftwp_any. iApply (@wp_hev_malloc0 (slice_allocator a) yield_id _ SIZEOF_CONTEXT); [done|].
      iSplitL "Hd"; [iExact "Hd"|]. iExists empty_cache. iExact "Ha".
    + iIntros (p) "[Hh Hz]". iApply ftwp_any. iApply cwp_wand. iSplitL.
      * iApply (@cwp_init_tail (slice_allocator a) yield_id _ (kind_drop yield_id Caching a) p).
        iSplitL "Htls"; [iExact "Htls"|]. iSplitL "Hh"; [iExact "Hh"|]. iSplitL "Hpz"; [iExact "Hpz"|iExact "Hz"].
      * iIntros (r) "H". iExists Caching, a. iExact "H".
Qed.

(** C8. A thread without a task system starts one, creates, runs and drops
    tasks as it likes, and ends the system.  Whatever the outside world answers
    (every allocation and every call may fail, but for the block of the plain
    allocator, needed when the caching one cannot be made), the run does not
    fault, returns 0, or -1 when the system could not be started, and its
    memory at the end is what it was at the beginning: every block, those of
    the tasks left behind included, has been given back to the C library. *)
Theorem system_gives_back l :
  no_system ⊢ solo_ok fallback_ok no_step (system_life l) life_over tt.
Proof.
  rw -solo_sound. iIntros "H". unfold system_life. iApply twp_call.
  iSplitL; [by iApply ftwp_init|]. iIntros (r) "(%k & %self & H)".
  iApply ftwp_any. by iApply (cwp_life_tail yield_id k self l r).
Qed.

(** C34. When there is memory neither for the caching allocator nor for the
    plain one, [hev_memory_allocator_default] returns NULL and [hev_malloc0]
    uses it all the same: starting a task system without memory does not return
    -1 but reads the table of functions at NULL. *)
Theorem init_out_of_memory m e1 e2 :
  m !! hev_task_system_tls_context = Some NULL -> m !! tls_default_allocator = Some NULL ->
  m !! ma_alloc NULL = None ->
  (run [Answer NULL e1 []; Answer NULL e2 []] hev_task_system_init m).1 = Fault Segv.
Proof.
  intros Hc Hd Hn. unfold hev_task_system_init, hev_task_system_get_context. cbn [run].
  unfold load at 1. rw Hc. cbn -[hev_malloc0]. unfold hev_memory_allocator_set_default, bind, load, store.
  rw Hd. cbn -[hev_malloc0 mem_bound]. unfold hev_malloc0, hev_memory_allocator_default. cbn.
  rw Hd. cbn. unfold load, store. rw lookup_insert_eq. cbn. rw lookup_insert_eq. cbn.
  rw !lookup_insert_ne //. by rw Hn.
Qed.

Lemma init_out_of_memory_witness :
  (run [Answer NULL 12 []; Answer NULL 12 []] hev_task_system_init
     {[ hev_task_system_tls_context := NULL; tls_default_allocator := NULL ]}).1 = Fault Segv.
Proof.
  apply (init_out_of_memory
    {[ hev_task_system_tls_context := NULL; tls_default_allocator := NULL ]} 12 12); reflexivity.
Defined.
