(* ===== verification/Coroutine.v ===== *)
(** * Coroutine: the switch between the scheduler and its tasks

    A task's context ([task->context], filled by [_setjmp]) is the rest of its
    tree, and a long jump goes on with it.  [in_kernel] is the program of the
    thread that starts the tasks and runs the scheduler, with its tasks: where
    the scheduler jumps to a task ([Yield] of the task, in kernel context) the
    task's tree goes on, until it jumps back ([Yield] of a type, in task
    context).  [hev_task_execute] makes the context of a new task, which is in
    [hev_task_executer] then, behind its [_setjmp].  The result is one tree
    without suspensions.

    It is proved from a logic of one task and one of the scheduler.  The state
    that tasks share has an abstract value [g], and with it a set of contexts.
    [gwp] is the weakest precondition of a task that last got the processor in
    the state [g]: it gives the memory up with each suspension, in a state that
    is as far from [g] as the other tasks may rely on, and gets it back in one
    as far as it may rely on itself.  [kwp] is that of the kernel's side.
    [in_kernel_sound] says that the two make the whole run. *)

From Stdlib Require Import String.
From S2P Require Import Prelude.
From S2P Require Import Sep.
From S2P Require Import Env.
From S2P Require Import EnvLogic.
From S2P Require Import Trace.
From S2P Require Import Threads.
From S2P Require Import TaskBase.
From S2P Require Import Task.

Local Open Scope Z_scope.

(** The task whose context the call makes. *)
Definition starts (e : ext) : option Z :=
  match e with
  | Query f (t :: _) _ => if String.eqb f "hev_task_execute" then Some t else None
  | _ => None
  end.

Section switch.
Context (entries : Z -> Z -> co unit).

(** The contexts that can be jumped to. *)
Abbreviation contexts := (gmap Z (co unit)).

Definition enter (e : ext) (tasks : contexts) : contexts :=
  match starts e with
  | Some t => <[t := hev_task_executer entries t]> tasks
  | None => tasks
  end.

(** A task that is removed has not saved its context. *)
Definition save (me type : Z) (c : co unit) (tasks : contexts) : contexts :=
  if type =? HEV_TASK_SCHED_REMOVE then delete me tasks else <[me := c]> tasks.

(** Task [me] until it jumps back to the kernel. *)
Fixpoint in_task {A} (me : Z) (c : co unit) (tasks : contexts)
    (longjmp : Z -> contexts -> co A) : co A :=
  match c with
  | Ret _ => act (fail Undefined)
  | Act m k => Act m (fun x => in_task me (k x) tasks longjmp)
  | Ext e k =>
      match e with
      | Yield type => longjmp type (save me type (k (Answer 1 0 [])) tasks)
      | _ => Ext e (fun a => in_task me (k a) (enter e tasks) longjmp)
      end
  | Fuel k => Fuel (fun n => in_task me (k n) tasks longjmp)
  | Stop => Stop
  end.

Fixpoint in_kernel {A} (c : co A) (tasks : contexts) : co A :=
  match c with
  | Ret x => Ret x
  | Act m k => Act m (fun x => in_kernel (k x) tasks)
  | Ext e k =>
      match e with
      | Yield t =>
          match tasks !! t with
          | Some task => in_task t task tasks (fun type tasks => in_kernel (k (Answer type 0 [])) tasks)
          | None => act (fail Undefined)
          end
      | _ => Ext e (fun a => in_kernel (k a) (enter e tasks))
      end
  | Fuel k => Fuel (fun n => in_kernel (k n) tasks)
  | Stop => Stop
  end.
End switch.

(** Calls that neither switch nor make a context. *)
Definition plain (e : ext) : Prop :=
  match e with Yield _ => False | _ => starts e = None end.

Abbreviation plain_tree := (calls_only plain).

Section logic.
Context (entries : Z -> Z -> co unit) (ok : ext -> answer -> Prop).

(** The programs that make no switch: a thread alone. *)
Abbreviation swp := (twp (fun _ : unit => ok) (fun _ _ _ => tt) (fun _ => emp)%I).

Context {G : Type} (rely : Z -> G -> G -> Prop) `{HR : !forall t, PreOrder (rely t)}.
Context (ctxs : G -> gset Z) (take : Z -> G -> heapProp) (give : Z -> Z -> G -> heapProp).

(** From where task [me] got the processor to where it suspends itself. *)
Definition moves (me type : Z) (g g' : G) : Prop :=
  (forall t, t <> me -> rely t g g') /\
  ctxs g' = if type =? HEV_TASK_SCHED_REMOVE then ctxs g ∖ {[me]} else ctxs g.

Definition ext_ok (e : ext) (Φ : answer -> heapProp) : heapProp :=
  ext_wp e (fun a => ⌜ok e a⌝ → Φ a)%I.

Lemma ext_ok_wand e Φ Ψ : ext_ok e Φ ∗ (∀ a, Φ a -∗ Ψ a) ⊢ ext_ok e Ψ.
Proof.
  iIntros "[H K]". iApply ext_wp_wand. iFrame "H". iIntros (a) "H %Ha". iApply "K". by iApply "H".
Qed.

Lemma ext_ok_mono e Φ Ψ : (forall a, Φ a ⊢ Ψ a) -> ext_ok e Φ ⊢ ext_ok e Ψ.
Proof. intros H. iIntros "H". iApply ext_ok_wand. iFrame. iIntros (a) "Ha". by iApply H. Qed.

Lemma twp_ext_ok {A} e (k : answer -> co A) Q : ext_ok e (fun a => swp (k a) Q) ⊢ swp (Ext e k) Q.
Proof.
  iIntros "H" (w) "_". iApply ext_wp_wand. iFrame "H". iIntros (a) "H %Ha". iSplitR; [done|]. by iApply "H".
Qed.

(** ** A task *)

Fixpoint gwp {A} (me : Z) (g : G) (c : co A) (Q : G -> A -> heapProp) : heapProp :=
  match c with
  | Ret x => Q g x
  | Act m k => wp m (fun x => gwp me g (k x) Q)
  | Ext e k =>
      match e with
      | Yield type =>
          ∃ g1, ⌞moves me type g g1⌟ ∗ give me type g1 ∗
            (if type =? HEV_TASK_SCHED_REMOVE then emp
             else ∀ g2, ⌜rely me g1 g2⌝ → take me g2 -∗ gwp me g2 (k (Answer 1 0 [])) Q)
      | _ => ⌜starts e = None⌝ ∧ ext_ok e (fun a => gwp me g (k a) Q)
      end
  | Fuel k => ∀ n, gwp me g (k n) Q
  | Stop => True
  end%I.

Lemma gwp_mono {A} me g (c : co A) Q1 Q2 :
  (forall g x, Q1 g x ⊢ Q2 g x) -> gwp me g c Q1 ⊢ gwp me g c Q2.
Proof.
  intros HQ. revert g. induction c as [x|X m k IH|e k IH|k IH|]; intros g; cbn [gwp].
  - apply HQ.
  - iIntros "H". iApply wp_wand. iSplitL "H"; [iExact "H"|]. iIntros (x) "H". by iApply IH.
  - destruct e; try (iIntros "[%Hs H]"; iSplit; [done|]; iApply (ext_ok_mono with "H"); intros a; apply IH).
    iIntros "(%g1 & %Hm & Hg & H)". iExists g1. iSplitR; [done|]. iFrame "Hg".
    destruct (type =? HEV_TASK_SCHED_REMOVE); [done|]. iIntros (g2 Hr) "Ht".
    iApply IH. by iApply ("H" with "[//] Ht").
  - iIntros "H" (n). iApply IH. iApply "H".
  - done.
Qed.

(** A task that is removed keeps nothing, so there is no frame around that. *)
Definition stays (e : ext) : Prop := e <> Yield HEV_TASK_SCHED_REMOVE.

Lemma gwp_wand {A} me g (c : co A) Q1 Q2 :
  calls_only stays c -> gwp me g c Q1 ∗ (∀ g x, Q1 g x -∗ Q2 g x) ⊢ gwp me g c Q2.
Proof.
  revert g. induction c as [x|X m k IH|e k IH|k IH|]; intros g Hc; cbn [gwp calls_only] in *.
  - iIntros "[H K]". by iApply "K".
  - iIntros "[H K]". iApply wp_wand. iSplitL "H"; [iExact "H"|]. iIntros (x) "H". iApply IH; [done|iFrame].
  - destruct Hc as [He Hc]. destruct e; try (iIntros "[[%Hs H] K]"; iSplit; [done|]; iApply ext_ok_wand;
      iSplitL "H"; [iExact "H"|]; iIntros (a) "H"; iApply IH; [done|iFrame]).
    iIntros "[(%g1 & %Hm & Hg & H) K]". iExists g1. iSplitR; [done|]. iFrame "Hg".
    destruct (Z.eqb_spec type HEV_TASK_SCHED_REMOVE) as [->|_]; [done|]. iIntros (g2 Hr) "Ht".
    iApply IH; [done|]. iFrame "K". by iApply ("H" with "[//] Ht").
  - iIntros "[H K]" (n). iApply IH; [done|]. iFrame "K". iApply "H".
  - by iIntros "_".
Qed.

Lemma gwp_bind {A B} me g (c : co A) (k : A -> co B) Q :
  gwp me g c (fun g x => gwp me g (k x) Q) ⊢ gwp me g (co_bind c k) Q.
Proof.
  revert g. induction c as [x|X m f IH|e f IH|f IH|]; intros g; cbn [gwp co_bind].
  - done.
  - iIntros "H". iApply wp_wand. iSplitL "H"; [iExact "H"|]. iIntros (x) "H". by iApply IH.
  - destruct e; try (iIntros "[%Hs H]"; iSplit; [done|]; iApply (ext_ok_mono with "H"); intros a; apply IH).
    iIntros "(%g1 & %Hm & Hg & H)". iExists g1. iSplitR; [done|]. iFrame "Hg".
    destruct (type =? HEV_TASK_SCHED_REMOVE); [done|]. iIntros (g2 Hr) "Ht".
    iApply IH. by iApply ("H" with "[//] Ht").
  - iIntros "H" (n). iApply IH. iApply "H".
  - done.
Qed.

Lemma gwp_call {A B} me g (c : co A) (k : A -> co B) Q1 Q :
  calls_only stays c ->
  gwp me g c Q1 ∗ (∀ g x, Q1 g x -∗ gwp me g (k x) Q) ⊢ gwp me g (co_bind c k) Q.
Proof. intros Hc. iIntros "H". iApply gwp_bind. by iApply gwp_wand. Qed.

(** A function that does not switch. *)
Lemma gwp_of_cwp {A} me g (c : co A) Q :
  plain_tree c -> cwp no_yield c Q ⊢ gwp me g c (fun g' x => ⌞g' = g⌟ ∗ Q x).
Proof.
  induction c as [x|X m k IH|e k IH|k IH|]; intros Hc; cbn [gwp cwp calls_only] in *.
  - iIntros "$". done.
  - iIntros "H". iApply wp_wand. iSplitL "H"; [iExact "H"|]. iIntros (x) "H". by iApply IH.
  - destruct Hc as [He Hc]. destruct e; try done;
      (iIntros "H"; iSplit; [done|]; unfold ext_ok; iApply ext_wp_wand; iSplitL "H"; [iExact "H"|];
       iIntros (a) "H %Ha"; by iApply IH).
  - iIntros "H" (n). iApply IH; [done|]. iApply "H".
  - done.
Qed.

Lemma gwp_plain {A B} me g (c : co A) (k : A -> co B) Q1 Q :
  plain_tree c ->
  cwp no_yield c Q1 ∗ (∀ x, Q1 x -∗ gwp me g (k x) Q) ⊢ gwp me g (co_bind c k) Q.
Proof.
  intros Hc. iIntros "H". iApply gwp_bind. iApply gwp_mono; [|iApply (gwp_of_cwp _ _ _ (fun x => gwp me g (k x) Q))].
  - intros g' x. iIntros "[-> H]". iExact "H".
  - done.
  - by iApply cwp_wand.
Qed.

(** The loop invariant may depend on the state the processor was last got in. *)
Lemma gwp_while {X R} me (body : X -> co (X + R)) (Inv : G -> X -> heapProp) g x Q :
  (forall g x, Inv g x ⊢ gwp me g (body x) (fun g r => match r with inl x => Inv g x | inr v => Q g v end)) ->
  Inv g x ⊢ gwp me g (co_while body x) Q.
Proof.
  intros Hb. assert (forall n g x, Inv g x ⊢ gwp me g (co_loop Stop n body x) Q) as Hloop.
  { intros n. induction n as [|n IH]; intros g1 y; [by iIntros "_"|]. iIntros "H".
    simpl. iApply gwp_bind. iApply gwp_mono; [|by iApply Hb]. intros g2 [z|v]; [apply IH|done]. }
  unfold co_while. cbn [gwp]. iIntros "H" (n). by iApply Hloop.
Qed.

Lemma gwp_for {A} me (l : list A) body (Inv : G -> heapProp) g :
  (forall g x, x ∈ l -> Inv g ⊢ gwp me g (body x) (fun g _ => Inv g)) ->
  Inv g ⊢ gwp me g (co_for l body) (fun g _ => Inv g).
Proof.
  revert g. induction l as [|x l IH]; intros g Hb; cbn [co_for gwp]; [done|].
  iIntros "H". iApply gwp_bind. iApply gwp_mono; [|iApply (Hb g x with "H"); by constructor].
  intros g' u. apply IH. intros g2 y Hy. apply Hb. by constructor.
Qed.

(** *** The tasks that are suspended *)

(** A task to be resumed, in the state [g]. *)
Definition resumable (t : Z) (g : G) (c : co unit) : heapProp :=
  (∀ g', ⌜rely t g g'⌝ → take t g' -∗ gwp t g' c (fun _ _ => False))%I.

Definition pool (tasks : gmap Z (co unit)) (g : G) : heapProp :=
  ([∗ map] t ↦ c ∈ tasks, resumable t g c)%I.

Lemma resumable_rely t g g' c : rely t g g' -> resumable t g c ⊢ resumable t g' c.
Proof. intros Hr. iIntros "H" (g2 Hr2) "Ht". iApply ("H" with "[%] Ht"). by transitivity g'. Qed.

Lemma pool_rely tasks g g' :
  (forall t, is_Some (tasks !! t) -> rely t g g') -> pool tasks g ⊢ pool tasks g'.
Proof.
  intros Hr. apply big_sepM_mono. intros t c Ht. apply resumable_rely, Hr. by exists c.
Qed.

Lemma save_dom me type c tasks :
  me ∈ dom tasks -> dom (save me type c tasks) =
    if type =? HEV_TASK_SCHED_REMOVE then dom tasks ∖ {[me]} else dom tasks.
Proof.
  intros Hme. unfold save. destruct (_ =? _); [by rw dom_delete_L|]. rw dom_insert_L. set_solver.
Qed.

(** The pool when task [me] suspends itself. *)
Lemma save_pool me type c tasks g g1 :
  moves me type g g1 ->
  pool (delete me tasks) g ∗ (if type =? HEV_TASK_SCHED_REMOVE then emp else resumable me g1 c)
  ⊢ pool (save me type c tasks) g1.
Proof.
  intros [Hr _]. iIntros "[Hp Hc]". iDestruct (pool_rely _ g g1 with "Hp") as "Hp".
  { intros t [x [Hne _]%lookup_delete_Some]. apply Hr. by intros ->. }
  unfold save. destruct (_ =? _); [by iFrame|]. unfold pool.
  iApply big_sepM_insert_delete. iFrame.
Qed.
(** Task [me] runs until it jumps back. *)
Lemma in_task_sound {A} me g (c : co unit) tasks (longjmp : Z -> gmap Z (co unit) -> co A) Q :
  me ∈ dom tasks -> dom tasks = ctxs g ->
  gwp me g c (fun _ _ => False) ∗ pool (delete me tasks) g ∗
  (∀ type tasks' g1, ⌜moves me type g g1 /\ dom tasks' = ctxs g1⌝ →
     give me type g1 -∗ pool tasks' g1 -∗ swp (longjmp type tasks') Q)
  ⊢ swp (in_task entries me c tasks longjmp) Q.
Proof.
  intros Hme Hdom. induction c as [x|X m k IH|e k IH|k IH|]; cbn [gwp in_task].
  - by iIntros "[[] _]".
  - iIntros "(H & Hp & K)". iApply twp_act. iApply wp_wand. iSplitL "H"; [iExact "H"|].
    iIntros (x) "H". iApply IH. iFrame.
  - destruct e as [sz|p sz|p|f args outs|f args n|type].
    6:{ iIntros "[(%g1 & %Hm & Hg & H) [Hp K]]". iApply ("K" with "[] Hg").
        - iPureIntro. split; [done|]. rw save_dom // Hdom. symmetry. apply Hm.
        - iApply (save_pool me type _ tasks g g1 Hm). iFrame "Hp". by destruct (_ =? _). }
    all: iIntros "[[%Hs H] [Hp K]]"; rw /enter Hs; iApply twp_ext_ok; iApply ext_ok_wand; iFrame "H";
      iIntros (a) "H"; iApply IH; iFrame.
  - iIntros "(H & Hp & K)" (n). iApply IH. iFrame "Hp K". iApply "H".
  - by iIntros "_".
Qed.

(** ** The kernel *)

Fixpoint kwp {A} (g : G) (c : co A) (Q : G -> A -> heapProp) : heapProp :=
  match c with
  | Ret x => Q g x
  | Act m k => wp m (fun x => kwp g (k x) Q)
  | Ext e k =>
      match e with
      | Yield t =>
          ⌞t ∈ ctxs g⌟ ∗ take t g ∗
            ∀ type g1, ⌜moves t type g g1⌝ → give t type g1 -∗ kwp g1 (k (Answer type 0 [])) Q
      | _ =>
          ext_ok e (fun a =>
            match starts e with
            | Some t =>
                ∃ g1, ⌞t ∉ ctxs g /\ (forall u, u ∈ ctxs g -> rely u g g1) /\ ctxs g1 = ({[t]} ∪ ctxs g)⌟ ∗
                  resumable t g1 (hev_task_executer entries t) ∗ kwp g1 (k a) Q
            | None => kwp g (k a) Q
            end)
      end
  | Fuel k => ∀ n, kwp g (k n) Q
  | Stop => True
  end%I.

Lemma kwp_wand {A} g (c : co A) Q1 Q2 :
  kwp g c Q1 ∗ (∀ g x, Q1 g x -∗ Q2 g x) ⊢ kwp g c Q2.
Proof.
  revert g. induction c as [x|X m k IH|e k IH|k IH|]; intros g; cbn [kwp].
  - iIntros "[H K]". by iApply "K".
  - iIntros "[H K]". iApply wp_wand. iSplitL "H"; [iExact "H"|]. iIntros (x) "H". iApply IH. iFrame.
  - destruct e as [sz|p sz|p|f args outs|f args n|type].
    6:{ iIntros "[($ & $ & H) K]" (ty g1 Hm) "Hg". iApply IH. iFrame "K". by iApply ("H" with "[//] Hg"). }
    all: iIntros "[H K]"; iApply ext_ok_wand; iFrame "H"; iIntros (a) "H"; destruct (starts _) as [t|];
      [iDestruct "H" as "(%g1 & %Hg1 & Hr & H)"; iExists g1; iSplitR; [done|]; iFrame "Hr"|];
      iApply IH; iFrame.
  - iIntros "[H K]" (n). iApply IH. iFrame "K". iApply "H".
  - by iIntros "_".
Qed.

Lemma kwp_bind {A B} g (c : co A) (k : A -> co B) Q :
  kwp g c (fun g x => kwp g (k x) Q) ⊢ kwp g (co_bind c k) Q.
Proof.
  revert g. induction c as [x|X m f IH|e f IH|f IH|]; intros g; cbn [kwp co_bind].
  - done.
  - iIntros "H". iApply wp_wand. iSplitL "H"; [iExact "H"|]. iIntros (x) "H". by iApply IH.
  - destruct e as [sz|p sz|p|g1 args outs|g1 args n|type].
    6:{ iIntros "($ & $ & H)" (ty g1 Hm) "Hg". iApply IH. by iApply ("H" with "[//] Hg"). }
    all: iIntros "H"; iApply (ext_ok_mono with "H"); intros a; destruct (starts _) as [t|];
      [iIntros "(%g2 & %Hg2 & Hr & H)"; iExists g2; iSplitR; [done|]; iFrame "Hr"; by iApply IH|apply IH].
  - iIntros "H" (n). iApply IH. iApply "H".
  - done.
Qed.

Lemma kwp_call {A B} g (c : co A) (k : A -> co B) Q1 Q :
  kwp g c Q1 ∗ (∀ g x, Q1 g x -∗ kwp g (k x) Q) ⊢ kwp g (co_bind c k) Q.
Proof. iIntros "H". iApply kwp_bind. by iApply kwp_wand. Qed.

(** A function that does not switch. *)
Lemma kwp_of_swp {A} g (c : co A) Q :
  plain_tree c -> swp c Q ⊢ kwp g c (fun g' x => ⌞g' = g⌟ ∗ Q x).
Proof.
  induction c as [x|X m k IH|e k IH|k IH|]; intros Hc; cbn [kwp twp calls_only] in *.
  - iIntros "$". done.
  - iIntros "H". iDestruct ("H" $! tt with "[//]") as "H". iApply wp_wand. iSplitL "H"; [iExact "H"|].
    iIntros (x) "[_ H]". by iApply IH.
  - destruct Hc as [He Hc]. destruct e as [sz|p sz|p|f args outs|f args n|type]; try done;
      (unfold plain in He; rw He; iIntros "H"; iDestruct ("H" $! tt with "[//]") as "H";
       unfold ext_ok; iApply ext_wp_wand; iFrame "H"; iIntros (a) "H %Ha"; iDestruct ("H" with "[//]") as "[_ H]";
       by iApply IH).
  - iIntros "H" (n). iApply IH; [done|]. iApply "H".
  - done.
Qed.

Lemma kwp_plain {A B} g (c : co A) (k : A -> co B) Q1 Q :
  plain_tree c ->
  swp c Q1 ∗ (∀ x, Q1 x -∗ kwp g (k x) Q) ⊢ kwp g (co_bind c k) Q.
Proof.
  intros Hc. iIntros "[H K]". iApply kwp_call. iSplitL "H"; [by iApply kwp_of_swp|].
  iIntros (g' x) "[-> H]". by iApply "K".
Qed.

Lemma kwp_while {X R} (body : X -> co (X + R)) (Inv : G -> X -> heapProp) g x Q :
  (forall g x, Inv g x ⊢ kwp g (body x) (fun g r => match r with inl x => Inv g x | inr v => Q g v end)) ->
  Inv g x ⊢ kwp g (co_while body x) Q.
Proof.
  intros Hb. assert (forall n g x, Inv g x ⊢ kwp g (co_loop Stop n body x) Q) as Hloop.
  { intros n. induction n as [|n IH]; intros g1 y; [by iIntros "_"|]. iIntros "H".
    simpl. iApply kwp_call. iSplitL; [by iApply Hb|]. iIntros (g2 [z|v]) "H"; [by iApply IH|done]. }
  unfold co_while. cbn [kwp]. iIntros "H" (n). by iApply Hloop.
Qed.

(** ** Both together *)

Lemma in_kernel_sound {A} g (c : co A) tasks Q :
  dom tasks = ctxs g ->
  kwp g c Q ∗ pool tasks g ⊢ swp (in_kernel entries c tasks) (fun x =>
    ∃ g' tasks', ⌞dom tasks' = ctxs g'⌟ ∗ pool tasks' g' ∗ Q g' x).
Proof.
  revert g tasks. induction c as [x|X m k IH|e k IH|k IH|]; intros g tasks Hdom; cbn [kwp in_kernel].
  - iIntros "[H Hp]". iApply twp_ret. iExists g, tasks. by iFrame.
  - iIntros "[H Hp]". iApply twp_act. iApply wp_wand. iSplitL "H"; [iExact "H"|].
    iIntros (x) "H". iApply (IH x g tasks Hdom). iFrame.
  - destruct e as [sz|p sz|p|f args outs|f args n|t].
    6:{ iIntros "[(%Ht & Htake & H) Hp]". rw -Hdom in Ht. apply elem_of_dom in Ht as [c Ht]. rw Ht.
        unfold pool at 1. rw (big_sepM_delete _ tasks t c Ht). iDestruct "Hp" as "[Hc Hp]".
        iDestruct ("Hc" $! g with "[] Htake") as "Hc"; [iPureIntro; reflexivity|].
        iApply (in_task_sound t g c tasks); [by apply elem_of_dom; exists c|done|]. iFrame "Hc Hp".
        iIntros (type tasks' g1 [Hm Hdom1]) "Hg Hp". iApply (IH _ g1 tasks' Hdom1). iFrame "Hp".
        by iApply ("H" with "[//] Hg"). }
    all: iIntros "[H Hp]"; iApply twp_ext_ok; iApply ext_ok_wand; iFrame "H"; iIntros (a) "H";
      rw /enter; destruct (starts _) as [t|] eqn:Hs; [|iApply (IH _ g tasks Hdom); iFrame];
      iDestruct "H" as "(%g1 & %Hg1 & Hr & H)"; destruct Hg1 as (Ht & Hrely & Hg1);
      iDestruct (pool_rely tasks g g1 with "Hp") as "Hp";
      [by intros u Hu; apply Hrely; rw -Hdom; apply elem_of_dom|];
      iApply (IH _ g1); [by rw dom_insert_L Hdom Hg1|]; iFrame "H"; unfold pool;
      rw big_sepM_insert; [by iFrame|]; apply not_elem_of_dom; by rw Hdom.
  - iIntros "[H Hp]" (n). iApply (IH n g tasks Hdom). iFrame "Hp". iApply "H".
  - by iIntros "_".
Qed.
End logic.
