(* ===== verification/RunProofs.v ===== *)
(** * RunProofs: the scheduler runs its tasks

    The kernel's side of [hev_task_system_run] against the logic of
    [Coroutine].  First the choice of a task, with polls that report events of
    the tasks' descriptors; then, for a system without descriptors, the loop.
    The abstract state is the list of tasks, their jobs and whatever the tasks
    share, which is an invariant of theirs over the scheduler's view of them,
    with an account of the jobs that were started and of those that are done.
    Then the protocol between the scheduler and its tasks, the scheduler's
    loop, and the tasks' first and last steps. *)

From stdpp Require Import functions.
From Stdlib Require Import String.
From S2P Require Import Prelude.
From S2P Require Import Sep.
From S2P Require Import RBTree.
From S2P Require Import RBTreeSpec.
From S2P Require Import RBTreeApi.
From S2P Require Import Env.
From S2P Require Import EnvLogic.
From S2P Require Import Trace.
From S2P Require Import World.
From S2P Require Import Threads.
From S2P Require Import Mem.
From S2P Require Import Alloc.
From S2P Require Import TaskBase.
From S2P Require Import Queue.
From S2P Require Import Timer.
From S2P Require Import QueueSpec.
From S2P Require Import QueueProofs.
From S2P Require Import TimerProofs.
From S2P Require Import Reactor.
From S2P Require Import Sched.
From S2P Require Import SchedProofs.
From S2P Require Import Task.
From S2P Require Import QueueProps.
From S2P Require Import Kernel.
From S2P Require Import System.
From S2P Require Import SystemProofs.
From S2P Require Import SystemLife.
From S2P Require Import Coroutine.

Local Open Scope Z_scope.

(** ** Functions that do not switch *)

Lemma plain_sys f args : starts (Query f args 0) = None -> plain_tree (sys f args).
Proof. intros H. by split. Qed.
#[export] Hint Extern 1 (plain_tree (sys _ _)) => apply plain_sys; reflexivity : calls.

Lemma plain_malloc n : plain_tree (malloc n).
Proof. unfold malloc. calls. Qed.

Lemma plain_free p : plain_tree (free p).
Proof. unfold free. calls. Qed.
#[export] Hint Resolve plain_malloc plain_free : calls.

Lemma plain_default : plain_tree hev_memory_allocator_default.
Proof. unfold hev_memory_allocator_default, simple_new. calls. Qed.

Lemma plain_alloc self n : plain_tree (hev_memory_allocator_alloc self n).
Proof. unfold hev_memory_allocator_alloc, simple_alloc, slice_alloc, wild_call, act. calls. Qed.

Lemma plain_release self p : plain_tree (hev_memory_allocator_free self p).
Proof.
  unfold hev_memory_allocator_free, simple_free, slice_free, slice_evict, wild_call, act. calls.
Qed.
#[export] Hint Resolve plain_default plain_alloc plain_release : calls.

Lemma plain_hev_malloc n : plain_tree (hev_malloc n).
Proof. unfold hev_malloc. calls. Qed.

Lemma plain_hev_malloc0 n : plain_tree (hev_malloc0 n).
Proof. unfold hev_malloc0. calls. Qed.

Lemma plain_hev_free p : plain_tree (hev_free p).
Proof. unfold hev_free. calls. Qed.
#[export] Hint Resolve plain_hev_malloc plain_hev_malloc0 plain_hev_free : calls.

Lemma plain_task_unref t : plain_tree (hev_task_unref t).
Proof. unfold hev_task_unref, hev_task_destroy, hev_task_stack_destroy. calls. Qed.

Lemma plain_task_new size : plain_tree (hev_task_new size).
Proof. unfold hev_task_new, hev_task_stack_new, getpagesize, act. calls. Qed.
#[export] Hint Resolve plain_task_unref plain_task_new : calls.

Lemma plain_switch ctx type : plain_tree (schedule_switch ctx type).
Proof. unfold schedule_switch, hev_task_system_remove_current_task, act. calls. Qed.

Lemma plain_get_curr : plain_tree hev_task_timer_get_curr.
Proof. unfold hev_task_timer_get_curr, act. calls. Qed.
#[export] Hint Resolve plain_switch plain_get_curr : calls.

Lemma plain_get_timeout self : plain_tree (hev_task_timer_get_timeout self).
Proof. unfold hev_task_timer_get_timeout, act. calls. Qed.

Lemma plain_timer_wake self : plain_tree (hev_task_timer_wake self).
Proof. unfold hev_task_timer_wake, act. calls. Qed.

Lemma plain_poll_rearm self n : plain_tree (hev_task_timer_poll_rearm self n).
Proof. unfold hev_task_timer_poll_rearm, act. calls. Qed.

Lemma plain_poll_due self : plain_tree (hev_task_timer_poll_due self).
Proof. unfold hev_task_timer_poll_due, act. calls. Qed.
#[export] Hint Resolve plain_get_timeout plain_timer_wake plain_poll_rearm plain_poll_due : calls.

Lemma plain_reactor_wait self n timeout : plain_tree (hev_task_io_reactor_wait self n timeout).
Proof. unfold hev_task_io_reactor_wait, act. calls. Qed.
#[export] Hint Resolve plain_reactor_wait : calls.

Lemma plain_io_poll ctx timeout : plain_tree (hev_task_system_io_poll ctx timeout).
Proof. unfold hev_task_system_io_poll. calls. Qed.
#[export] Hint Resolve plain_io_poll : calls.

Lemma plain_pick ctx : plain_tree (hev_task_system_pick_current_task ctx).
Proof.
  unfold hev_task_system_pick_current_task, hev_task_system_io_poll_maybe, poll_until_running, act. calls.
Qed.
#[export] Hint Resolve plain_pick : calls.

Lemma plain_timer_destroy tm : plain_tree (hev_task_timer_destroy tm).
Proof. unfold hev_task_timer_destroy. calls. Qed.

Lemma plain_reactor_destroy r : plain_tree (hev_task_io_reactor_destroy r).
Proof. unfold hev_task_io_reactor_destroy. calls. Qed.
#[export] Hint Resolve plain_timer_destroy plain_reactor_destroy : calls.

(** ** The scheduler after a task has given the processor up *)

(** The current task is removed and freed. *)
Definition s_remove (s : sched) : sched :=
  Sched (delete (s_current s) (s_tasks s)) (filter (fun y => y <> s_current s) (s_queue s)) (s_current s).

Definition s_after (type : Z) (s : sched) : sched :=
  if type =? HEV_TASK_SCHED_REMOVE then s_remove s else s_switch type s.

(** Every task of the system has been started and has not ended. *)
Definition all_live (s : sched) : Prop :=
  forall t i, s_tasks s !! t = Some i -> ti_state i <> HEV_TASK_STOPPED.

Section wf.
Context (s : sched) (Hwf : sched_wf s) (Hr : runs s).

(** The current task as it is when it is handed to [hev_task_unref]. *)
Definition s_stop : sched :=
  let i := info (s_tasks s) (s_current s) in
  Sched (<[s_current s := TInfo (ti_key i) (ti_prio i) (ti_next i) HEV_TASK_STOPPED]> (s_tasks s))
        (filter (fun y => y <> s_current s) (s_queue s)) (s_current s).

Lemma stop_wf : sched_wf s_stop.
Proof.
  destruct Hwf as [Hb Hs]. destruct (sw_known _ Hb _ Hr) as [i Hi].
  pose proof (sw_keys _ Hb _ i Hi) as Hk. unfold s_stop. rw (info_some s _ i Hi). split.
  - apply (base_update s Hb _ i); simpl; [done|done|by right; right| | |].
    + apply NoDup_filter, Hb.
    + intros x Hx. rw list_elem_of_filter. tauto.
    + split; [done|]. by intros [? _]%list_elem_of_filter.
  - apply (sorted_update s _ _ (s_current s)); [by intros x [? _]%list_elem_of_filter| |].
    + intros x Hx. by apply key_in_insert_ne.
    + by apply q_sorted_filter.
Qed.

Lemma stop_delete : s_delete (s_current s) s_stop = s_remove s.
Proof. unfold s_delete, s_stop, s_remove. cbn. by rw delete_insert_eq. Qed.

Lemma remove_wf : sched_wf (s_remove s).
Proof.
  rw -stop_delete. eapply (delete_wf _ stop_wf); [by apply lookup_insert_eq|done].
Qed.

Lemma after_wf type : sched_wf (s_after type s).
Proof. unfold s_after. destruct (_ =? _); [apply remove_wf|by apply switch_wf]. Qed.
End wf.

Lemma switch_tasks type s t :
  sched_wf s -> runs s -> is_Some (s_tasks (s_switch type s) !! t) <-> is_Some (s_tasks s !! t).
Proof.
  intros [Hb _] Hr. destruct (sw_known _ Hb _ Hr) as [i Hi]. unfold s_switch, s_reinsert, s_block, s_charge, s_set_key.
  destruct (type =? HEV_TASK_SCHED_SWITCH); [|destruct (type =? HEV_TASK_SCHED_WAITIO); [|done]]; cbn;
    rw !lookup_insert_is_Some'; naive_solver.
Qed.

Lemma after_live type s : sched_wf s -> runs s -> all_live s -> all_live (s_after type s).
Proof.
  intros [Hb _] Hr Hl. destruct (sw_known _ Hb _ Hr) as [i Hi]. pose proof (Hl _ _ Hi) as Hs.
  unfold s_after, s_switch, s_reinsert, s_block, s_charge, s_set_key, all_live, s_remove in *.
  intros t j. destruct (type =? HEV_TASK_SCHED_REMOVE).
  { cbn. intros [_ Hj]%lookup_delete_Some. by apply (Hl t). }
  destruct (type =? HEV_TASK_SCHED_SWITCH); [|destruct (type =? HEV_TASK_SCHED_WAITIO); [|by apply Hl]]; cbn.
  all: rw (info_some s _ i Hi) info_insert; destruct (decide (t = s_current s)) as [->|Hne];
    [rw lookup_insert_eq; by intros [= <-]|rw !lookup_insert_ne //; by apply Hl].
Qed.

(** The tasks of a system, one less. *)
Lemma remove_same s L :
  same_tasks s L -> same_tasks (s_remove s) (filter (fun t => t <> s_current s) L).
Proof.
  intros [Hnd HL]. split; [by apply NoDup_filter|]. intros t. rw list_elem_of_filter HL. cbn.
  rw lookup_delete_is_Some. naive_solver.
Qed.

Section run.
Context `{HA : !Allocator} (Y : Z -> heapProp -> heapProp) `{!YieldMono Y}.

Lemma cwp_remove_stopped ctx s L J T n :
  runs s ->
  is_system ctx s L J T n
  ⊢ cwp Y (hev_task_system_remove_current_task ctx HEV_TASK_STOPPED) (fun _ =>
      is_system ctx (s_remove s) (filter (fun t => t <> s_current s) L) J T (w32 (n - 1))).
Proof.
  iIntros (Hr) "(Htls & Hh & Hpz & (%Hb & [Hq Hn] & Hcur & Hts & Hidle) & Hl & Ho & Hrc & Htm & (Hdns & Htot & Hx) & %Hp)".
  destruct Hp as (Hctx & Hwf & Hsame). destruct (sw_known _ Hb _ Hr) as [i Hi].
  pose proof (stop_wf s Hwf Hr) as Hwf1.
  unfold hev_task_system_remove_current_task.
  iDestruct (all_cells_acc _ _ _ Hi with "Hts") as "[(Hk & Hpr & Hnx & Hst) Hts]".
  iDestruct (idle_nodes_acc _ _ _ Hi with "Hidle") as "[Hidle0 Hidle]".
  unfold idle_node at 1. rw (proj2 (sw_running _ Hb _ _ Hi) Hr) Z.eqb_refl. iDestruct "Hidle0" as "_".
  cbn [cwp co_bind]. wp_load. wp_store.
  iApply wp_wand. iSplitL "Hq"; [iApply (wp_queue_erase with "Hq"); [apply Hb|done]|].
  iIntros (_) "[Hq Hnode]". wp_load. wp_store. rw Z.eqb_refl. cbn [cwp]. wp_load. cbn [cwp]. wp_store.
  set (j := TInfo (ti_key i) (ti_prio i) (ti_next i) HEV_TASK_STOPPED).
  iDestruct ("Hts" $! j with "[$Hk $Hpr $Hnx $Hst]") as "Hts".
  iDestruct ("Hidle" $! j with "Hnode") as "Hidle".
  assert (is_Some (s_tasks s !! s_current s)) as HtL by by exists i.
  apply (proj2 Hsame) in HtL. destruct (queue_split L _ (proj1 Hsame) HtL) as (A & B & HL & Hf).
  rw Hf -(stop_delete s) {1 2}HL.
  iApply (cwp_task_unref Y ctx (s_stop s) A (s_current s) B J T (w32 (n - 1)) j).
  { unfold s_stop. rw (info_some s _ i Hi). cbn. by rw lookup_insert_eq. }
  { done. }
  assert (same_tasks (s_stop s) L) as Hsame1.
  { destruct Hsame as [Hnd HLt]. split; [done|]. intros t. rw HLt. unfold s_stop. cbn.
    rw lookup_insert_is_Some'. naive_solver. }
  rw -HL. iSplitL "Htls"; [iExact "Htls"|]. iSplitL "Hh"; [iExact "Hh"|]. iSplitL "Hpz"; [iExact "Hpz"|].
  iSplitL "Hq Hn Hcur Hts Hidle".
  { iSplitR; [iPureIntro; exact (proj1 Hwf1)|]. unfold s_stop. rw (info_some s _ i Hi). fold j.
    cbn [s_queue s_current s_tasks]. rw (filter_count _ _ (sw_nodup _ Hb) Hr) count_pred.
    iSplitL "Hq Hn"; [iSplitL "Hq"; [iExact "Hq"|iExact "Hn"]|].
    iSplitL "Hcur"; [iExact "Hcur"|]. iSplitL "Hts"; [iExact "Hts"|iExact "Hidle"]. }
  iSplitL "Hl"; [iExact "Hl"|]. iSplitL "Ho"; [iExact "Ho"|]. iSplitL "Hrc"; [iExact "Hrc"|].
  iSplitL "Htm"; [iExact "Htm"|]. iSplitL; [iSplitL "Hdns"; [iExact "Hdns"|]; iSplitL "Htot"; [iExact "Htot"|iExact "Hx"]|].
  by iPureIntro.
Qed.
End run.

(** ** Wakeups *)

Definition wake_step (s s' : sched) : Prop := exists t, wakeable s t /\ s' = s_wakeup t s.

(** Any number of tasks are woken. *)
Abbreviation woken := (rtc wake_step).

Lemma wakeup_live s t i : s_tasks s !! t = Some i -> all_live s -> all_live (s_wakeup t s).
Proof.
  intros Hi Hl u j. destruct (wakeup_cases s t i Hi) as [->|(k & -> & _)]; [by apply Hl|].
  intros [[_ <-]|[_ Hj]]%lookup_insert_Some; [done|by apply (Hl u)].
Qed.

Lemma wakeup_same L s t i : s_tasks s !! t = Some i -> same_tasks s L -> same_tasks (s_wakeup t s) L.
Proof.
  intros Hi [Hnd HL]. split; [done|]. intros u. rw HL.
  destruct (wakeup_cases s t i Hi) as [->|(k & -> & _)]; [done|].
  rw lookup_insert_is_Some'. destruct (decide (t = u)) as [<-|]; [|tauto].
  split; [by left|intros _; by exists i].
Qed.

Lemma wakeup_queue s t i : s_tasks s !! t = Some i -> s_queue s <> [] -> s_queue (s_wakeup t s) <> [].
Proof.
  intros Hi Hq. destruct (wakeup_cases s t i Hi) as [->|(k & _ & Hin)]; [done|].
  destruct (s_queue s) as [|x q]; [done|]. intros E. specialize (Hin x). rw E in Hin.
  apply (not_elem_of_nil x), Hin. by left.
Qed.

(** What wakeups keep. *)
Lemma woken_keeps (P : sched -> Prop) :
  (forall s t i, s_tasks s !! t = Some i -> ti_state i <> HEV_TASK_STOPPED -> P s -> P (s_wakeup t s)) ->
  forall s s', woken s s' -> P s -> P s'.
Proof. intros HP s s'. induction 1 as [|s1 s2 s3 (t & (i & Hi & Hs) & ->) _ IH]; eauto. Qed.

Lemma woken_wf s s' : woken s s' -> sched_wf s -> sched_wf s'.
Proof. apply woken_keeps. intros s1 t i Hi _ Hwf. by eapply wakeup_wf. Qed.

Lemma woken_same L s s' : woken s s' -> same_tasks s L -> same_tasks s' L.
Proof. apply (woken_keeps (fun s => same_tasks s L)). intros s1 t i Hi _. by eapply wakeup_same. Qed.

Lemma woken_live s s' : woken s s' -> all_live s -> all_live s'.
Proof. apply woken_keeps. intros s1 t i Hi _. by eapply wakeup_live. Qed.

Lemma woken_queue s s' : woken s s' -> s_queue s <> [] -> s_queue s' <> [].
Proof. apply (woken_keeps (fun s => s_queue s <> [])). intros s1 t i Hi _. by eapply wakeup_queue. Qed.

Lemma woken_runs t s s' : woken s s' -> s_current s = t /\ runs s -> s_current s' = t /\ runs s'.
Proof.
  apply (woken_keeps (fun s => s_current s = t /\ runs s)). intros s1 v i Hi _ [Hc Hr].
  rw wakeup_current. split; [done|]. by eapply wakeup_runs.
Qed.

Lemma woken_sleepers T s s' : woken s s' -> sleepers_ok T s -> sleepers_ok T s'.
Proof.
  apply (woken_keeps (sleepers_ok T)). intros s1 v i Hi _ Hok n e He.
  by eapply wakeup_keeps; [|apply (Hok n e He)].
Qed.

Lemma timer_wakes T curr s : sleepers_ok T s -> timers_wf T -> woken s (s_timer_wake T curr s).
Proof.
  intros Hok HT. unfold s_timer_wake. destruct (tm_queue T) as [|n q] eqn:E; [done|].
  destruct (_ <? 0); [done|]. destruct (proj1 (tw_known _ HT n)) as [e He]; [rw E; by left|].
  rw He. apply rtc_once. exists (te_task e). split; [by apply (Hok n)|done].
Qed.

(** ** Polling *)

(** The event stands for one of the tasks [ts], by itself or through one of the
    slots, each a cell with the task it holds. *)
Definition names_task (slots : list (Z * Z)) (ts : list Z) (ev : HevTaskIOReactorWaitEvent) : bool :=
  let data := we_data ev in
  if Z.land data HEV_TASK_SCHED_SLOT_TAG =? 0 then bool_decide (data ∈ ts)
  else existsb (fun p => (Z.land p.1 HEV_TASK_SCHED_SLOT_TAG =? 0) &&
                         (data =? hev_task_slot_to_data p.1) && bool_decide (p.2 ∈ ts)) slots.

(** The answers of a poll when the descriptors that were added are those of the
    tasks [ts]. *)
Definition poll_answer (slots : list (Z * Z)) (ts : list Z) (e : ext) (a : answer) : bool :=
  match e with
  | Query f _ _ =>
      if String.eqb f "epoll_wait"
      then forallb (names_task slots ts) (take (Z.to_nat (a_ret a)) (wait_events (a_data a)))
      else true
  | _ => true
  end.

Lemma names_event slots ts ev :
  names_task slots ts ev = true -> exists t, event_task slots ev t /\ t ∈ ts.
Proof.
  unfold names_task. destruct (Z.eqb_spec (Z.land (we_data ev) HEV_TASK_SCHED_SLOT_TAG) 0) as [Hz|_].
  - intros Hin%bool_decide_eq_true. exists (we_data ev). split; [by left|done].
  - intros ([slot t] & Hin & H)%existsb_exists. cbn [fst snd] in H.
    apply andb_true_iff in H as [[Hz%Z.eqb_eq Hd%Z.eqb_eq]%andb_true_iff Ht%bool_decide_eq_true].
    exists t. split; [|done]. right. exists slot. split; [by apply list_elem_of_In|done].
Qed.

Lemma names_events slots ts evs :
  forallb (names_task slots ts) evs = true ->
  exists us, Forall2 (event_task slots) evs us /\ Forall (fun t => t ∈ ts) us.
Proof.
  induction evs as [|ev evs IH]; cbn [forallb]; [by exists []|].
  intros [(t & Ht & Hin)%names_event (us & Hus & Hall)%IH]%andb_true_iff.
  exists (t :: us). by split; constructor.
Qed.

Lemma woken_all s ts :
  Forall (wakeable s) ts -> sched_wf s -> woken s (foldl (fun s t => s_wakeup t s) s ts).
Proof.
  revert s. induction ts as [|t ts IH]; intros s Hw Hwf; cbn [foldl]; [done|].
  apply Forall_cons in Hw as [Ht Hw]. eapply rtc_l; [by exists t|].
  destruct Ht as (i & Hi & Hs). apply IH; [|by eapply wakeup_wf].
  eapply Forall_impl; [exact Hw|]. intros u Hu. by eapply wakeup_keeps.
Qed.

Lemma woken_wakeable ts s s' : woken s s' -> Forall (wakeable s) ts -> Forall (wakeable s') ts.
Proof.
  apply (woken_keeps (fun s => Forall (wakeable s) ts)). intros s1 t i Hi _ Hw.
  eapply Forall_impl; [exact Hw|]. intros u Hu. by eapply wakeup_keeps.
Qed.

Lemma sched_count ctx s :
  is_sched ctx s ⊢ ctx_running_task_count ctx ↦ w32 (Z.of_nat (length (s_queue s))) ∗
    (ctx_running_task_count ctx ↦ w32 (Z.of_nat (length (s_queue s))) -∗ is_sched ctx s).
Proof. iIntros "($ & [$ $] & $ & $ & $)". by iIntros "$". Qed.

Lemma count_queue s : is_true (w32 (Z.of_nat (length (s_queue s)))) = true -> s_queue s <> [].
Proof. by intros H E; rw E in H. Qed.

Section poll.
Context `{HA : !Allocator} (slots : list (Z * Z)) (ts : list Z).

(** A program whose polls report the tasks [ts]. *)
Definition polling {A} (c : co A) : co (A * unit) :=
  within (fun _ : unit => poll_answer slots ts) (fun _ _ _ => tt) tt c.

Definition poll_wp {A} (c : co A) (Q : A -> heapProp) : heapProp :=
  cwp no_yield (polling c) (fun xw => Q xw.1).

Lemma poll_wp_call {A B} (c : co A) (k : A -> co B) Q1 Q :
  poll_wp c Q1 ∗ (∀ x, Q1 x -∗ poll_wp (k x) Q) ⊢ poll_wp (co_bind c k) Q.
Proof.
  unfold poll_wp, polling. iIntros "[H K]". iApply cwp_within_call. iSplitL "H"; [iExact "H"|].
  iIntros (x []) "H". by iApply "K".
Qed.

Lemma poll_wp_wand {A} (c : co A) Q1 Q2 :
  poll_wp c Q1 ∗ (∀ x, Q1 x -∗ Q2 x) ⊢ poll_wp c Q2.
Proof.
  unfold poll_wp. iIntros "[H K]". iApply cwp_wand. iSplitL "H"; [iExact "H"|]. iIntros (x). iApply "K".
Qed.

Lemma poll_wp_any {A} (c : co A) Q : cwp no_yield c Q ⊢ poll_wp c Q.
Proof.
  unfold poll_wp, polling. iIntros "H". iApply cwp_wand. iSplitL.
  - iApply (cwp_within_neutral _ _ no_yield c tt Q with "H").
    apply (calls_mono (fun _ => True)); [by intros e _ [] a|].
    induction c as [a|X c k IH|e k IH|k IH|]; simpl; auto.
  - iIntros (x) "[_ H]". iExact "H".
Qed.

Lemma poll_wp_act {A X} (c : M X) (k : X -> co A) Q :
  wp c (fun x => poll_wp (k x) Q) ⊢ poll_wp (Act c k) Q.
Proof. done. Qed.

Lemma poll_wp_ret {A} (x : A) Q : Q x ⊢ poll_wp (Ret x) Q.
Proof. done. Qed.

Lemma poll_wp_while {X R} (body : X -> co (X + R)) (I : X -> heapProp) x Q :
  (forall x, I x ⊢ poll_wp (body x) (fun r => match r with inl x' => I x' | inr v => Q v end)) ->
  I x ⊢ poll_wp (co_while body x) Q.
Proof.
  intros Hb. unfold poll_wp, polling in *.
  apply (cwp_within_while _ _ no_yield body (fun x _ => I x) x tt (fun xw => Q xw.1)).
  intros y []. apply Hb.
Qed.

(** A poll, and the events it reports. *)
Lemma poll_wp_wait {B} args n (k : answer -> co B) Q :
  (∀ a, ⌜exists us, Forall2 (event_task slots) (take (Z.to_nat (a_ret a)) (wait_events (a_data a))) us /\
        Forall (fun t => t ∈ ts) us⌝ → poll_wp (k a) Q)
  ⊢ poll_wp (Ext (Query "epoll_wait" args n) k) Q.
Proof.
  unfold poll_wp, polling. iIntros "H". iApply cwp_within_query. iIntros (a Ha). iApply "H".
  iPureIntro. by apply names_events.
Qed.

(** The parts of a system that a poll deals with. *)
Definition polled (ctx tm : Z) (T : timers) (s : sched) : heapProp :=
  (system_reactor ctx ∗ system_timer ctx (tm, T) ∗ slots_cells slots ∗ is_sched ctx s)%I.

(** What a poll finds, and leaves. *)
Definition pollable (T : timers) (s : sched) : Prop :=
  sleepers_ok T s /\ sched_wf s /\ Forall (wakeable s) ts.

Lemma woken_pollable T s s' : woken s s' -> pollable T s -> pollable T s'.
Proof.
  intros Hw (Hok & Hwf & Hts). split_and!;
    [by eapply woken_sleepers|by eapply woken_wf|by eapply woken_wakeable].
Qed.

Lemma poll_io_poll ctx tm timeout T s :
  pollable T s ->
  polled ctx tm T s
  ⊢ poll_wp (hev_task_system_io_poll ctx timeout) (fun _ => ∃ s', ⌞woken s s'⌟ ∗ polled ctx tm T s').
Proof.
  unfold polled, system_timer. iIntros (Hpo) "[(%r & %fd & Hr & Hfd & Hrb) [(Htm & Ht & (%sc & %n & %v & Hc1 & Hc2 & Hc3) & (%ds & %dn & Hd1 & Hd2) & Htb) [Hsl Hs]]]".
  cbn [fst snd]. unfold hev_task_system_io_poll. iApply poll_wp_act. wp_load.
  iApply (poll_wp_call _ _ (fun _ => is_timer tm ctx T ∗ timer_clock tm)%I). iSplitL "Ht Hc1 Hc2 Hc3".
  { iApply poll_wp_any. destruct (timeout <? 0); [|cbn [cwp]; iFrame "Ht"; iExists _, _, _; iFrame].
    iApply cwp_wand. iSplitL; [iApply (cwp_get_timeout no_yield tm ctx T sc n v); iFrame|].
    iIntros (x) "($ & $ & _)". }
  iIntros (to) "(Ht & Hck)". iApply poll_wp_act. wp_load. destruct Hpo as (Hok & Hwf & Hts).
  iApply (poll_wp_call _ _ (fun re => ⌞exists us, Forall2 (event_task slots) (take (Z.to_nat re.1) re.2) us /\
    Forall (fun t => t ∈ ts) us⌟ ∗ reactor_fd r ↦ fd)%I). iSplitL "Hfd".
  { unfold hev_task_io_reactor_wait. iApply poll_wp_act. wp_load. iApply poll_wp_wait.
    iIntros (a Ha). iApply poll_wp_ret. cbn [fst snd]. iFrame "Hfd". done. }
  iIntros (re) "[%Hre Hfd]". destruct Hre as (us & Hus & Hin).
  assert (Forall (wakeable s) us) as Hw.
  { eapply Forall_impl; [exact Hin|]. intros t Ht. by eapply (proj1 (Forall_forall _ _) Hts). }
  set (s1 := foldl (fun s t => s_wakeup t s) s us).
  assert (woken s s1) as H1 by by apply woken_all.
  iApply poll_wp_act. iApply wp_wand.
  iSplitL "Hs Hsl"; [iApply (wp_wake_events ctx slots _ us s Hus Hw Hwf); iFrame "Hs Hsl"|].
  iIntros (u) "[Hs Hsl]". fold s1.
  iAssert ⌜timers_wf T⌝%I as %HT; [by iDestruct "Ht" as "[% _]"|].
  assert (sleepers_ok T s1) as Hok1 by by eapply woken_sleepers.
  assert (sched_wf s1) as Hwf1 by by eapply woken_wf.
  iApply (poll_wp_call _ _ (fun _ => is_timer tm ctx T ∗ timer_clock tm ∗
    ∃ curr, ⌞normalised curr⌟ ∗ is_sched ctx (s_timer_wake T curr s1))%I). iSplitL "Ht Hck Hs".
  { iApply poll_wp_any. iApply (cwp_timer_wake no_yield tm ctx T s1 Hok1 Hwf1). iFrame. }
  iIntros (u1) "(Ht & Hck & %curr & _ & Hs)".
  iApply poll_wp_any. unfold hev_task_timer_poll_rearm. iApply cwp_bind. iApply cwp_get_curr. iIntros (now Hnow).
  unfold act. cbn [cwp]. iApply wp_store_ts. iFrame "Hd1 Hd2". iIntros "Hd1 Hd2".
  iExists (s_timer_wake T curr s1). iSplitR; [iPureIntro; etrans; [exact H1|by apply timer_wakes]|].
  iSplitL "Hr Hfd Hrb"; [iExists r, fd; iFrame|]. iFrame "Hs Hsl Htm Ht Htb Hck".
  iExists _, _. iFrame.
Qed.

Lemma poll_io_poll_maybe ctx tm T s :
  pollable T s ->
  polled ctx tm T s
  ⊢ poll_wp (hev_task_system_io_poll_maybe ctx) (fun _ => ∃ s', ⌞woken s s'⌟ ∗ polled ctx tm T s').
Proof.
  unfold polled at 1, system_timer. iIntros (Hpo) "[Hr [(Htm & Ht & Hck & (%ds & %dn & Hd) & Htb) [Hsl Hs]]]". cbn [fst snd].
  unfold hev_task_system_io_poll_maybe. iApply poll_wp_act. wp_load.
  iApply (poll_wp_call _ _ (fun _ => is_timer tm ctx T ∗ timer_deadline tm (ds, dn))%I).
  iSplitL "Ht Hd".
  { iApply poll_wp_any. iApply cwp_wand. iSplitL; [iApply (cwp_poll_due no_yield tm ctx T (ds, dn)); by iFrame|].
    iIntros (due) "(Ht & Hd & _)". iFrame. }
  iIntros (due) "[Ht [Hd1 Hd2]]". iAssert (system_timer ctx (tm, T)) with "[Htm Ht Hck Hd1 Hd2 Htb]" as "Ht".
  { unfold system_timer. iFrame "Htm Ht Hck Htb". iExists ds, dn. iFrame. }
  destruct due.
  - iApply (poll_io_poll _ _ _ T s Hpo). iSplitL "Hr"; [iExact "Hr"|iFrame "Ht Hsl Hs"].
  - iApply poll_wp_ret. iExists s. iSplitR; [done|]. iSplitL "Hr"; [iExact "Hr"|iFrame "Ht Hsl Hs"].
Qed.

(** Without a running task there is nothing to do but to wait for one. *)
Lemma poll_until ctx tm T s :
  pollable T s ->
  polled ctx tm T s ⊢ poll_wp (co_while (poll_until_running ctx) tt) (fun _ =>
    ∃ s', ⌞woken s s' /\ s_queue s' <> []⌟ ∗ polled ctx tm T s').
Proof.
  intros Hpo. rw -(poll_wp_while (poll_until_running ctx) (fun _ => ∃ s', ⌞woken s s'⌟ ∗ polled ctx tm T s')%I tt
    (fun _ => ∃ s', ⌞woken s s' /\ s_queue s' <> []⌟ ∗ polled ctx tm T s')%I); [by iIntros "H"; iExists s; iFrame|].
  intros []. unfold poll_until_running. iIntros "(%s1 & %H1 & H)". iApply poll_wp_call.
  iSplitL; [iApply (poll_io_poll with "H"); by eapply woken_pollable|].
  iIntros (u) "(%s2 & %H2 & Hr & Ht & Hsl & Hs)". iDestruct (sched_count with "Hs") as "[Hc Hs]".
  iApply poll_wp_act. wp_load. iDestruct ("Hs" with "Hc") as "Hs". iApply poll_wp_ret.
  assert (woken s s2) by by etrans. destruct (is_true _) eqn:E; iExists s2;
    (iSplitR; [|iSplitL "Hr"; [iExact "Hr"|iFrame "Ht Hsl Hs"]]); iPureIntro; [|done].
  split; [done|by apply count_queue].
Qed.

(** Polling before the choice, if some of the [n] tasks are waiting:
    afterwards some task is running. *)
Lemma poll_before ctx tm T s n :
  pollable T s -> 0 < n ->
  polled ctx tm T s
  ⊢ poll_wp (let q := w32 (Z.of_nat (length (s_queue s))) in
         if q <? n then
           if is_true q then hev_task_system_io_poll_maybe ctx else co_while (poll_until_running ctx) tt
         else Ret tt)
        (fun _ => ∃ s', ⌞(woken s s' /\ s_queue s' <> []) /\
           (n <= w32 (Z.of_nat (length (s_queue s))) -> s' = s)⌟ ∗ polled ctx tm T s').
Proof.
  intros Hpo Hn. cbv zeta. pose proof (w32_range (Z.of_nat (length (s_queue s)))) as Hrange.
  destruct (Z.ltb_spec (w32 (Z.of_nat (length (s_queue s)))) n) as [Hlt|Hge].
  - destruct (is_true _) eqn:E.
    + iIntros "H". iApply poll_wp_wand. iSplitL; [by iApply poll_io_poll_maybe|]. iIntros (u) "(%s1 & %H1 & H)".
      iExists s1. iFrame "H". iPureIntro. split; [|lia]. split; [done|]. eapply woken_queue; [done|by apply count_queue].
    + iIntros "H". iApply poll_wp_wand. iSplitL; [by iApply poll_until|]. iIntros (u) "(%s1 & %H1 & H)".
      iExists s1. iFrame "H". iPureIntro. split; [done|lia].
  - iIntros "H". iApply poll_wp_ret. iExists s. iFrame "H". iPureIntro. split; [|done]. split; [done|].
    apply count_queue, is_true_spec. lia.
Qed.

Lemma poll_pick ctx tm T s n :
  pollable T s -> 0 < n < 2 ^ 32 ->
  polled ctx tm T s ∗ ctx_total_task_count ctx ↦ n
  ⊢ poll_wp (hev_task_system_pick_current_task ctx) (fun _ =>
    ∃ s', ⌞(woken s s' /\ s_queue s' <> []) /\
           (n <= w32 (Z.of_nat (length (s_queue s))) -> s' = s)⌟ ∗
      polled ctx tm T (s_pick s') ∗ ctx_total_task_count ctx ↦ n).
Proof.
  intros Hpo Hn. iIntros "[(Hr & Ht & Hsl & Hs) Htot]". unfold hev_task_system_pick_current_task.
  iDestruct (sched_count with "Hs") as "[Hc Hs]". iApply poll_wp_act. wp_load. iDestruct ("Hs" with "Hc") as "Hs".
  iApply poll_wp_act. wp_load. iApply poll_wp_call. iSplitL "Hs Hr Ht Hsl".
  { iApply (poll_before ctx tm T s n Hpo); [lia|]. iSplitL "Hr"; [iExact "Hr"|iFrame "Ht Hsl Hs"]. }
  iIntros (u) "(%s1 & %H1 & Hr & Ht & Hsl & Hs)". iApply poll_wp_any. unfold act. cbn [cwp].
  iApply wp_wand. iSplitL "Hs"; [iApply (wp_pick_first ctx s1 with "Hs")|].
  iIntros (u2) "Hs". iExists s1. iSplitR; [done|]. iSplitR "Htot"; [|iExact "Htot"].
  iSplitL "Hr"; [iExact "Hr"|iFrame "Ht Hsl Hs"].
Qed.
End poll.

(** ** Polling without descriptors *)

(** What the calls answer when no descriptor has been added. *)
Definition idle_poll (e : ext) (a : answer) : Prop :=
  match e with
  | Query f _ _ => f = "epoll_wait"%string -> a_ret a <= 0
  | _ => True
  end.

Lemma idle_answer e a : idle_poll e a -> poll_answer [] [] e a = true.
Proof.
  destruct e; try done. cbn. destruct (String.eqb_spec f "epoll_wait") as [->|]; [|done].
  intros H. by rw (Z2Nat.nonpos _ (H eq_refl)).
Qed.

Section kernel.
Context `{HA : !Allocator} (entries : Z -> Z -> co unit).
Context (ok : ext -> answer -> Prop) (ok_idle : forall e a, ok e a -> idle_poll e a).

Abbreviation swp := (twp (fun _ : unit => ok) (fun _ _ _ => tt) (fun _ => emp)%I).

Lemma swp_any {A} (c : co A) Q : cwp yield_id c Q ⊢ swp c Q.
Proof.
  apply twp_of_cwp. apply (calls_mono (fun _ => True)); [by intros e _ [] a|].
  induction c as [a|X c k IH|e k IH|k IH|]; simpl; auto.
Qed.

(** A function that is proved for every suspension. *)
Lemma swp_call {A B} (c : co A) (k : A -> co B) Q1 Q :
  cwp yield_id c Q1 ∗ (∀ x, Q1 x -∗ swp (k x) Q) ⊢ swp (co_bind c k) Q.
Proof. iIntros "[H K]". iApply twp_call. iFrame "K". by iApply swp_any. Qed.

Lemma swp_polling {A} (c : co A) Q : poll_wp [] [] c Q ⊢ swp c Q.
Proof.
  unfold poll_wp, polling. induction c as [a|X c k IH|e k IH|k IH|]; cbn [within cwp twp].
  - done.
  - iIntros "H" ([]) "_". iApply wp_wand. iSplitL "H"; [iExact "H"|]. iIntros (x) "H".
    iSplitR; [done|]. by iApply IH.
  - assert (forall a, ok e a ->
      cwp no_yield (if poll_answer [] [] e a then within (fun _ : unit => poll_answer [] []) (fun _ _ _ => tt) tt (k a)
                    else Stop) (fun xw => Q xw.1) ⊢ swp (k a) Q) as Hstep.
    { intros a Ha. rw (idle_answer e a (ok_idle _ _ Ha)). apply IH. }
    destruct e; try (iIntros "H" ([]) "_"; iApply ext_wp_wand; iSplitL "H"; [iExact "H"|];
      iIntros (a) "H %Ha"; iSplitR; [done|]; by iApply Hstep).
    unfold no_yield. by iIntros "%".
  - iIntros "H" (n). iApply IH. iApply "H".
  - done.
Qed.

(** ** Choosing the next task *)

(** A system all of whose tasks are counted, with its sleepers. *)
Definition counted (ctx tm : Z) (s : sched) (L : list Z) (J : jobs) (T : timers) : heapProp :=
  (is_system ctx s L J (tm, T) (w32 (Z.of_nat (length L))) ∗ ⌞sleepers_ok T s⌟)%I.

Lemma swp_pick ctx tm s L J T :
  L <> [] -> Z.of_nat (length L) < 2 ^ 32 ->
  counted ctx tm s L J T ⊢ swp (hev_task_system_pick_current_task ctx) (fun _ =>
    ∃ s', ⌞woken s s' /\ s_queue s' <> []⌟ ∗ counted ctx tm (s_pick s') L J T).
Proof.
  intros HL Hlen. iIntros "[(Htls & Hh & Hpz & Hs & Hl & Ho & Hr & Ht & (Hdns & Htot & Hx) & %Hp) %Hok]".
  destruct Hp as (Hctx & Hwf & Hsame).
  assert (0 < Z.of_nat (length L)) as Hpos by (destruct L; simpl in *; [done|lia]).
  rw (w32_small (Z.of_nat (length L))); [|lia]. iApply twp_wand. iSplitL "Hs Hr Ht Htot".
  { iApply swp_polling. iApply (poll_pick [] [] ctx tm T s (Z.of_nat (length L))); [done|lia|].
    unfold polled, slots_cells. iSplitR "Htot"; [|iExact "Htot"]. iSplitL "Hr"; [iExact "Hr"|].
    iFrame "Ht Hs". done. }
  iIntros (u) "(%s1 & %H1 & (Hr & Ht & Hsl & Hs) & Htot)". destruct H1 as [[H1 Hne] _].
  unfold slots_cells.
  iExists s1. iSplitR; [done|]. iSplitL; [|iPureIntro; exact (woken_sleepers T s s1 H1 Hok)].
  unfold is_system. iSplitL "Htls"; [iExact "Htls"|]. iSplitL "Hh"; [iExact "Hh"|].
  iSplitL "Hpz"; [iExact "Hpz"|]. iSplitL "Hs"; [iExact "Hs"|]. iSplitL "Hl"; [iExact "Hl"|].
  iSplitL "Ho"; [iExact "Ho"|]. iSplitL "Hr"; [iExact "Hr"|]. iSplitL "Ht"; [iExact "Ht"|].
  iSplitL; [|iPureIntro; split_and!; [done|by apply pick_wf, (woken_wf s)|exact (woken_same L s s1 H1 Hsame)]].
  iSplitL "Hdns"; [iExact "Hdns"|]. rw w32_small; [|lia]. iSplitL "Htot"; [iExact "Htot"|iExact "Hx"].
Qed.
End kernel.

(** The tasks that have not ended, their jobs, the jobs of all tasks that were
    started, those that are done, the sleepers, and the value of what the
    tasks share. *)
Record ghost (U : Type) : Type :=
  Ghost { g_tasks : list Z; g_jobs : jobs; g_begun : list (Z * Z); g_done : list (Z * Z);
          g_timers : timers; g_user : U }.
Arguments Ghost {U} _ _ _ _ _ _.
Arguments g_begun {U} _.
Arguments g_done {U} _.
Arguments g_tasks {U} _.
Arguments g_jobs {U} _.
Arguments g_timers {U} _.
Arguments g_user {U} _.

Definition yield_type (type : Z) : Prop :=
  type = HEV_TASK_SCHED_SWITCH \/ type = HEV_TASK_SCHED_WAITIO \/ type = HEV_TASK_SCHED_REMOVE.

(** The list of tasks after [t] has suspended itself. *)
Definition left_tasks (t type : Z) (L : list Z) : list Z :=
  if type =? HEV_TASK_SCHED_REMOVE then filter (fun u => u <> t) L else L.

(** The sleeping nodes of task [t] are the same. *)
Definition same_naps (t : Z) (T T' : timers) : Prop :=
  forall n e, te_task e = t -> tm_entries T !! n = Some e <-> tm_entries T' !! n = Some e.

(** Task [t] has none. *)
Definition no_nap (t : Z) (T : timers) : Prop :=
  forall n e, tm_entries T !! n = Some e -> te_task e <> t.

#[export] Instance same_naps_preorder t : PreOrder (same_naps t).
Proof.
  split; [by intros T n e _|]. intros T1 T2 T3 H1 H2 n e He. by rw (H1 n e He) (H2 n e He).
Qed.

Lemma same_no_nap t T T' : same_naps t T T' -> no_nap t T -> no_nap t T'.
Proof. intros H Hn n e He Ht. apply (H n e Ht) in He. by eapply Hn. Qed.

Lemma naps_insert v n e T : te_task e <> v -> tm_entries T !! n = None -> same_naps v T (t_insert n e T).
Proof.
  intros Hne Hn m f Hf. cbn. destruct (decide (m = n)) as [->|Hm]; [|by rw lookup_insert_ne].
  rw lookup_insert_eq Hn. split; [done|]. by intros [= <-].
Qed.

Lemma naps_remove v n e T : tm_entries T !! n = Some e -> te_task e <> v -> same_naps v T (t_remove n T).
Proof.
  intros Hn Hne m f Hf. cbn. destruct (decide (m = n)) as [->|Hm]; [|by rw lookup_delete_ne].
  rw lookup_delete_eq Hn. split; [by intros [= <-]|done].
Qed.

Lemma naps_removed t n T T1 : tm_entries T !! n = None -> same_naps t T T1 -> same_naps t T (t_remove n T1).
Proof.
  intros Hn H m f Hf. rw (H m f Hf). cbn. destruct (decide (m = n)) as [->|Hm]; [|by rw lookup_delete_ne].
  rw lookup_delete_eq. split; [|done]. intros Hm. apply (H n f Hf) in Hm. congruence.
Qed.

Section run.
Context `{HA : !Allocator} (entries : Z -> Z -> co unit).
Context (ok : ext -> answer -> Prop) (ok_idle : forall e a, ok e a -> idle_poll e a).
Context (ctx tm : Z) {U : Type} (urely : Z -> U -> U -> Prop) `{HU : !forall t, PreOrder (urely t)}.
Context (I : gmap Z tinfo -> U -> heapProp) (Fin : Z * Z -> heapProp).

(** What is shared survives wakeups. *)
Definition wake_closed : Prop :=
  forall s t u, wakeable s t -> I (s_tasks s) u ⊢ I (s_tasks (s_wakeup t s)) u.

Context (I_wake : wake_closed).

Lemma woken_shared s s' u : woken s s' -> I (s_tasks s) u ⊢ I (s_tasks s') u.
Proof. induction 1 as [|s1 s2 s3 (t & Ht & ->) _ IH]; [done|]. by rw I_wake //. Qed.

(** ** The protocol *)

Definition ctxs (g : ghost U) : gset Z := list_to_set (g_tasks g).

(** The tasks do not start others, nor change what is theirs to do: the
    scheduler relies on that, for whom [t] is [NULL]. *)
Definition same_jobs (g g' : ghost U) : Prop := g_jobs g' = g_jobs g /\ g_begun g' = g_begun g.

Definition rely (t : Z) (g g' : ghost U) : Prop :=
  g_jobs g' t = g_jobs g t /\ same_naps t (g_timers g) (g_timers g') /\ urely t (g_user g) (g_user g') /\
  (t = NULL -> same_jobs g g').

#[export] Instance rely_preorder t : PreOrder (rely t).
Proof.
  unfold rely, same_jobs. split.
  - intros g. by split_and!.
  - intros g1 g2 g3 (H1 & H2 & H3 & H0) (H4 & H5 & H6 & H7).
    split_and!; [congruence|by etrans|by etrans|]. intros Ht.
    destruct (H0 Ht), (H7 Ht). split; congruence.
Qed.

(** What every job has left that is done, and how the jobs add up. *)
Definition ledger (g : ghost U) : heapProp :=
  (([∗ list] p ∈ g_done g, Fin p) ∗ ⌞(g_jobs g <$> g_tasks g) ++ g_done g ≡ₚ g_begun g⌟)%I.

(** Task [t] has the processor and the memory of the system. *)
Definition take (t : Z) (g : ghost U) : heapProp :=
  (∃ s, counted ctx tm s (g_tasks g) (g_jobs g) (g_timers g) ∗ I (s_tasks s) (g_user g) ∗ ledger g ∗
    ⌞all_live s /\ s_current s = t /\ runs s⌟)%I.

(** Task [t] suspends itself: what is shared will be as the invariant says once
    the scheduler has taken note of it. *)
Definition give (t type : Z) (g : ghost U) : heapProp :=
  (∃ s L, counted ctx tm s L (g_jobs g) (g_timers g) ∗ I (s_tasks (s_after type s)) (g_user g) ∗ ledger g ∗
    ⌞(all_live s /\ s_current s = t /\ runs s) /\ yield_type type /\ g_tasks g = left_tasks t type L /\
     (type = HEV_TASK_SCHED_REMOVE -> no_nap t (g_timers g))⌟)%I.

(** The scheduler, between two tasks. *)
Definition pending (g : ghost U) : heapProp :=
  (∃ s, counted ctx tm s (g_tasks g) (g_jobs g) (g_timers g) ∗ I (s_tasks s) (g_user g) ∗ ledger g ∗ ⌞all_live s⌟)%I.

Lemma counted_pure s L J T : counted ctx tm s L J T -∗ ⌜0 < ctx /\ sched_wf s /\ same_tasks s L⌝.
Proof. iIntros "[(_ & _ & _ & _ & _ & _ & _ & _ & _ & %Hp) _]". by iPureIntro. Qed.

Lemma counted_sleepers s L J T : counted ctx tm s L J T -∗ ⌜sleepers_ok T s /\ timers_wf T⌝.
Proof.
  unfold counted, is_system, system_timer.
  iIntros "[(_ & _ & _ & _ & _ & _ & _ & (_ & [%HT _] & _) & _) %Hok]". by iPureIntro.
Qed.

Abbreviation swp := (twp (fun _ : unit => ok) (fun _ _ _ => tt) (fun _ => emp)%I).
Abbreviation kwpr := (kwp entries ok rely ctxs take give).
Abbreviation gwpr := (gwp ok rely ctxs take give).

(** ** The switch *)

Lemma switch_same type s L :
  sched_wf s -> runs s -> same_tasks s L -> same_tasks (s_switch type s) L.
Proof. intros Hwf Hr [Hnd HL]. split; [done|]. intros t. by rw HL switch_tasks. Qed.

(** The tasks but the current one are as they were. *)
Lemma after_others type s t : t <> s_current s -> s_tasks (s_after type s) !! t = s_tasks s !! t.
Proof.
  intros Hne. unfold s_after, s_remove, s_switch, s_reinsert, s_block, s_charge, s_set_key.
  destruct (_ =? _); [cbn; by rw lookup_delete_ne|].
  destruct (_ =? _); [|destruct (_ =? _); [|done]]; cbn; by rw !lookup_insert_ne.
Qed.

Lemma after_sleepers type s T :
  sched_wf s -> runs s -> all_live s -> (type = HEV_TASK_SCHED_REMOVE -> no_nap (s_current s) T) ->
  sleepers_ok T s -> sleepers_ok T (s_after type s).
Proof.
  intros Hwf Hr Hl Hn Hok n e He. destruct (decide (te_task e = s_current s)) as [Heq|Hne].
  - destruct (Z.eqb_spec type HEV_TASK_SCHED_REMOVE) as [Hrm|Hnrm]; [by destruct (Hn Hrm n e He)|].
    destruct (proj2 (switch_tasks type s (te_task e) Hwf Hr)) as [i Hi].
    { destruct (Hok n e He) as (i & Hi & _). by exists i. }
    pose proof (after_live type s Hwf Hr Hl) as Hl'.
    assert (s_after type s = s_switch type s) as Heq2 by (unfold s_after; by rw (proj2 (Z.eqb_neq _ _) Hnrm)).
    rw Heq2 in Hl' |- *. exists i. split; [done|by apply (Hl' (te_task e))].
  - rw after_others //. by apply (Hok n).
Qed.

Lemma cwp_give t type g :
  give t type g ⊢ cwp yield_id (schedule_switch ctx type) (fun _ => pending g).
Proof.
  iIntros "(%s & %L & HS & HI & HD & %Hp)". destruct Hp as ((Hl & <- & Hr) & Hty & HL & Hnap).
  iDestruct (counted_pure with "HS") as %(Hctx & Hwf & Hsame).
  iDestruct (counted_sleepers with "HS") as %[Hok _].
  iApply cwp_wand. iSplitL "HS".
  - instantiate (1 := fun _ => counted ctx tm (s_after type s) (g_tasks g) (g_jobs g) (g_timers g)). rw HL.
    iDestruct "HS" as "[HS _]". pose proof (after_sleepers type s (g_timers g) Hwf Hr Hl Hnap Hok) as Hok'.
    destruct Hty as [Hty|[Hty| ->]].
    3:{ unfold schedule_switch, left_tasks. cbn [Z.eqb HEV_TASK_SCHED_REMOVE].
        change (HEV_TASK_SCHED_REMOVE =? HEV_TASK_SCHED_SWITCH) with false.
        change (HEV_TASK_SCHED_REMOVE =? HEV_TASK_SCHED_WAITIO) with false. rw !Z.eqb_refl.
        iApply cwp_wand. iSplitL; [by iApply (cwp_remove_stopped _ ctx s L (g_jobs g) (tm, g_timers g) with "HS")|].
        iIntros (u) "H". iSplitL; [|by iPureIntro].
        assert (s_current s ∈ L) as HcL.
        { apply (proj2 Hsame). by apply (sw_known _ (proj1 Hwf)). }
        rw (filter_count L (s_current s) (proj1 Hsame) HcL) count_pred. unfold s_after. rw Z.eqb_refl. iExact "H". }
    all: assert (type =? HEV_TASK_SCHED_REMOVE = false) as Hne by (by rw Hty);
      unfold s_after, left_tasks in *; rw Hne in Hok' |- *;
      iDestruct "HS" as "(Htls & Hh & Hpz & Hs & H)"; iApply cwp_wand;
      (iSplitL "Hs"; [iApply (cwp_switch yield_id ctx type s with "Hs"); [tauto|done|done]|]);
      iIntros (u) "Hs"; (iSplitL; [|by iPureIntro]); iSplitL "Htls"; [iExact "Htls"|]; iSplitL "Hh"; [iExact "Hh"|];
      iSplitL "Hpz"; [iExact "Hpz"|]; iSplitL "Hs"; [iExact "Hs"|];
      iDestruct "H" as "($ & $ & $ & $ & $ & %Hp)"; iPureIntro;
      (split_and!; [done|by apply switch_wf|by apply switch_same]).
  - iIntros (u) "HS". iExists _. iFrame "HS HI HD". iPureIntro. by apply after_live.
Qed.

(** ** The loop of the scheduler *)

Lemma is_sched_jump s :
  is_sched ctx s ⊢ ctx_current_task ctx ↦ s_current s ∗
    (∀ t, ctx_current_task ctx ↦ t -∗ is_sched ctx (Sched (s_tasks s) (s_queue s) t)).
Proof.
  iIntros "(%Hb & $ & $ & $ & $)". iIntros (t) "$". iPureIntro. by destruct Hb.
Qed.

(** The cells of a system that the scheduler reads. *)
Lemma counted_total s L J T :
  counted ctx tm s L J T ⊢ ctx_total_task_count ctx ↦ w32 (Z.of_nat (length L)) ∗
    (ctx_total_task_count ctx ↦ w32 (Z.of_nat (length L)) -∗ counted ctx tm s L J T).
Proof. iIntros "[($ & $ & $ & $ & $ & $ & $ & $ & ($ & $ & $) & $) $]". by iIntros "$". Qed.

Lemma counted_current s L J T :
  counted ctx tm s L J T ⊢ ctx_current_task ctx ↦ s_current s ∗
    (∀ t, ctx_current_task ctx ↦ t -∗ counted ctx tm (Sched (s_tasks s) (s_queue s) t) L J T).
Proof.
  iIntros "[($ & $ & $ & Hs & $ & $ & $ & $ & $ & %Hp) %Hok]".
  iDestruct (is_sched_jump with "Hs") as "[$ Hs]". iIntros (t) "Hc".
  iSplitL; [|by iPureIntro]. iSplitL; [by iApply "Hs"|]. iPureIntro. destruct Hp as (Hctx & [[] Hs] & Hsame).
  split_and!; [done| |done]. split; [by split|done].
Qed.

Lemma current_stays s L J T :
  counted ctx tm s L J T ⊢ ctx_current_task ctx ↦ s_current s ∗
    (ctx_current_task ctx ↦ s_current s -∗ counted ctx tm s L J T).
Proof.
  iIntros "HS". iDestruct (counted_current with "HS") as "[$ HS]". iIntros "Hc".
  iDestruct ("HS" with "Hc") as "HS". by destruct s.
Qed.

Lemma counted_tls s L J T :
  counted ctx tm s L J T ⊢ hev_task_system_tls_context ↦ ctx ∗
    (hev_task_system_tls_context ↦ ctx -∗ counted ctx tm s L J T).
Proof. iIntros "[($ & $) $]". by iIntros "$". Qed.

Lemma counted_sched s L J T :
  counted ctx tm s L J T ⊢ is_sched ctx s ∗
    (∀ s', ⌜sched_wf s' /\ same_tasks s' L /\ sleepers_ok T s'⌝ → is_sched ctx s' -∗ counted ctx tm s' L J T).
Proof.
  iIntros "[(H1 & H2 & H3 & Hs & H4 & H5 & H6 & H7 & H8 & %Hp) _]". iSplitL "Hs"; [iExact "Hs"|].
  iIntros (s' (Hwf & Hsame & Hok)) "Hs". iSplitL; [|by iPureIntro]. iSplitL "H1"; [iExact "H1"|].
  iSplitL "H2"; [iExact "H2"|]. iSplitL "H3"; [iExact "H3"|]. iSplitL "Hs"; [iExact "Hs"|].
  iSplitL "H4"; [iExact "H4"|]. iSplitL "H5"; [iExact "H5"|]. iSplitL "H6"; [iExact "H6"|].
  iSplitL "H7"; [iExact "H7"|]. iSplitL "H8"; [iExact "H8"|]. iPureIntro. by destruct Hp.
Qed.

(** Before a round: [type] is what the scheduler was jumped to with, 0 at first;
    the jobs [B] have been started. *)
Definition round_inv (B : list (Z * Z)) (g : ghost U) (type : Z) : heapProp :=
  (⌞Z.of_nat (length (g_tasks g)) < 2 ^ 32 /\ g_begun g = B⌟ ∗
   if type =? 0 then pending g else ∃ t, give t type g)%I.

(** Every task has ended, and every job that was started is done. *)
Definition finished (B : list (Z * Z)) (g : ghost U) : heapProp :=
  (⌞g_tasks g = []⌟ ∗ (∃ D, ⌞D ≡ₚ B⌟ ∗ [∗ list] p ∈ D, Fin p) ∗
   ∃ s, counted ctx tm s [] (g_jobs g) no_timers ∗ I ∅ (g_user g) ∗ ⌞s_current s = 0⌟)%I.

Lemma swp_round_switch B g type :
  round_inv B g type ⊢ swp (schedule_switch ctx type) (fun _ =>
    ⌞Z.of_nat (length (g_tasks g)) < 2 ^ 32 /\ g_begun g = B⌟ ∗ pending g).
Proof.
  iIntros "[%Hlen H]". destruct (Z.eqb_spec type 0) as [->|_].
  - iApply twp_ret. by iFrame.
  - iDestruct "H" as (t) "H". iApply swp_any. iApply cwp_wand.
    iSplitL; [by iApply cwp_give|]. iIntros (u) "$". done.
Qed.

Lemma moves_length t type g g1 :
  moves rely ctxs t type g g1 -> NoDup (g_tasks g1) -> (length (g_tasks g1) <= length (g_tasks g))%nat.
Proof.
  intros [_ Hc] Hnd. apply submseteq_length, NoDup_submseteq; [done|]. intros x Hx.
  assert (x ∈ ctxs g1) as Hx1 by by apply elem_of_list_to_set.
  rw Hc in Hx1. assert (x ∈ ctxs g) as Hx2 by (destruct (_ =? _); set_solver).
  by apply elem_of_list_to_set in Hx2.
Qed.

Lemma give_nodup t type g : give t type g -∗ ⌜NoDup (g_tasks g) /\ type <> 0⌝.
Proof.
  iIntros "(%s & %L & HS & _ & _ & %Hp)". destruct Hp as (_ & Hty & HL & _).
  iDestruct (counted_pure with "HS") as %(_ & _ & [Hnd _]). iPureIntro. split.
  - rw HL. unfold left_tasks. destruct (_ =? _); [by apply NoDup_filter|done].
  - unfold yield_type, HEV_TASK_SCHED_SWITCH, HEV_TASK_SCHED_WAITIO, HEV_TASK_SCHED_REMOVE,
      HEV_TASK_YIELD, HEV_TASK_WAITIO, HEV_TASK_YIELD_COUNT in Hty. lia.
Qed.

(** Without tasks there are no sleepers. *)
Lemma no_tasks s T : same_tasks s [] -> sleepers_ok T s -> timers_wf T -> s_tasks s = ∅ /\ T = no_timers.
Proof.
  intros [_ Hs] Hok HT. assert (s_tasks s = ∅) as Hts.
  { apply map_empty. intros t. destruct (s_tasks s !! t) eqn:E; [|done].
    assert (t ∈ @nil Z) as Hin by (apply Hs; by eexists). by apply not_elem_of_nil in Hin. }
  split; [done|]. destruct T as [E q]. unfold no_timers. assert (E = ∅) as ->.
  { apply map_empty. intros n. destruct (E !! n) as [e|] eqn:En; [|done].
    destruct (Hok n e En) as (i & Hi & _). by rw Hts in Hi. }
  f_equal. destruct q as [|n q]; [done|]. destruct (proj1 (tw_known _ HT n)) as [e He]; [by left|done].
Qed.

Lemma moves_jobs t type g g1 : t <> NULL -> moves rely ctxs t type g g1 -> same_jobs g g1.
Proof. intros Ht [Hr _]. by apply (Hr NULL). Qed.

Lemma kwp_round B g type :
  round_inv B g type ⊢ kwpr g (schedule_round ctx type) (fun g r =>
    match r with inl type => round_inv B g type | inr _ => finished B g end).
Proof.
  iIntros "H". unfold schedule_round. iApply kwp_plain; [calls|].
  iSplitL; [by iApply swp_round_switch|]. iIntros (u) "(%Hlen & %s & HS & HI & HD & %Hl)". destruct Hlen as [Hlen HB].
  iDestruct (counted_pure with "HS") as %(Hctx & Hwf & Hsame).
  iDestruct (counted_sleepers with "HS") as %[Hok HT].
  cbn [kwp]. iDestruct (counted_total with "HS") as "[Ht HS]". wp_load. iDestruct ("HS" with "Ht") as "HS".
  rw w32_small; [|lia]. destruct (Z.eqb_spec (Z.of_nat (length (g_tasks g))) 0) as [Hz|Hz].
  - assert (g_tasks g = []) as HL by (destruct (g_tasks g); simpl in *; [done|lia]). rw HL in Hsame |- *.
    destruct (no_tasks s _ Hsame Hok HT) as [Hts HT0]. rw HT0.
    iDestruct (counted_current with "HS") as "[Hc HS]". cbn [kwp]. wp_store. iSplitR; [done|].
    iSplitL "HD"; [iDestruct "HD" as "[HD %Hd]"; rw HL HB in Hd; iExists _; iFrame "HD"; by iPureIntro|].
    iExists (Sched (s_tasks s) (s_queue s) NULL). rw -Hts. iFrame "HI". iSplitL; [by iApply "HS"|done].
  - iApply kwp_plain; [calls|]. iSplitL "HS".
    { iApply (swp_pick ok ok_idle ctx tm s with "HS"); [|done]. intros E. by rw E in Hz. }
    iIntros (u2) "(%s1 & %Hq & HS)". destruct Hq as [Hwk Hq]. cbn [kwp].
    iDestruct (woken_shared _ _ _ Hwk with "HI") as "HI".
    pose proof (woken_live _ _ Hwk Hl) as Hl1. pose proof (woken_wf _ _ Hwk Hwf) as Hwf1.
    pose proof (woken_same _ _ _ Hwk Hsame) as Hsame1.
    unfold hev_task_system_update_sched_time, hev_task_system_get_clock_time.
    wp_norm. iDestruct (current_stays with "HS") as "[Hc HS]". cbn [kwp]. wp_load.
    iDestruct ("HS" with "Hc") as "HS". cbn [co_bind call kwp].
    assert (s_current (s_pick s1) ∈ s_queue s1) as Hin by (cbn; destruct (s_queue s1); [done|by left]).
    iSplitR.
    { iPureIntro. apply elem_of_list_to_set, (proj2 Hsame1), (sw_known _ (proj1 Hwf1)). exact Hin. }
    assert (s_current (s_pick s1) <> NULL) as Hnn.
    { destruct (sw_known _ (proj1 Hwf1) _ Hin) as [i Hi].
      pose proof (sw_addr _ (proj1 Hwf1) _ _ Hi). unfold NULL. lia. }
    iSplitL "HS HI HD".
    { iExists (s_pick s1). iFrame "HS HI HD". iPureIntro. by split. }
    iIntros (ty g1 Hm) "Hg". cbn [kwp a_ret]. iDestruct (give_nodup with "Hg") as %[Hnd Hty].
    pose proof (moves_length _ _ _ _ Hm Hnd). destruct (moves_jobs _ _ _ _ Hnn Hm) as [_ HB1].
    iSplitR; [iPureIntro; split; [lia|congruence]|].
    rw (proj2 (Z.eqb_neq ty 0) Hty). iExists _. iExact "Hg".
Qed.

(** [hev_task_system_run] returns when every task has ended, its job done. *)
Lemma kwp_system_run g s :
  Z.of_nat (length (g_tasks g)) < 2 ^ 32 -> all_live s -> s_current s = 0 ->
  counted ctx tm s (g_tasks g) (g_jobs g) (g_timers g) ∗ I (s_tasks s) (g_user g) ∗ ledger g
  ⊢ kwpr g hev_task_system_run (fun g' _ => finished (g_begun g) g').
Proof.
  intros Hlen Hl Hc. iIntros "(HS & HI & HD)".
  unfold hev_task_system_run, hev_task_system_schedule, hev_task_system_get_context. cbn [kwp].
  iDestruct (counted_tls with "HS") as "[Ht HS]". wp_load. iDestruct ("HS" with "Ht") as "HS". cbn [kwp].
  iDestruct (current_stays with "HS") as "[Hcur HS]". wp_load. rw Hc.
  change (is_true 0) with false. cbv iota. unfold schedule_kernel. rw Z.eqb_refl.
  iApply (kwp_while _ _ _ _ _ _ (schedule_round ctx) (round_inv (g_begun g)) g 0); [intros g1 x; apply kwp_round|].
  iSplitR; [done|]. cbn [Z.eqb]. iExists s. iDestruct ("HS" with "Hcur") as "HS". by iFrame "HS HI HD".
Qed.

(** ** The tasks *)

Lemma runs_pos s L J T t : runs s -> s_current s = t -> counted ctx tm s L J T -∗ ⌜0 < t /\ t ∈ L⌝.
Proof.
  iIntros (Hr <-) "HS". iDestruct (counted_pure with "HS") as %(_ & [Hb _] & [_ HL]). iPureIntro.
  destruct (sw_known _ Hb _ Hr) as [i Hi]. split; [apply (sw_addr _ Hb _ _ Hi)|]. apply HL. by exists i.
Qed.

(** Task [t] at work, between two suspensions: it last got the processor in the
    state [g]; now the sleepers are [T] and what is shared is [u], no other
    task being concerned. *)
Definition working (t : Z) (g : ghost U) (s : sched) (T : timers) (u : U) : heapProp :=
  (counted ctx tm s (g_tasks g) (g_jobs g) T ∗ ledger g ∗
   ⌞(all_live s /\ s_current s = t /\ runs s) /\
    forall v, v <> t -> same_naps v (g_timers g) T /\ urely v (g_user g) u⌟)%I.

Lemma take_working t g :
  take t g ⊢ ∃ s, working t g s (g_timers g) (g_user g) ∗ I (s_tasks s) (g_user g).
Proof.
  iIntros "(%s & HS & HI & HD & %Hp)". iExists s. iFrame "HS HI HD". iPureIntro. by split.
Qed.

(** The state in which task [t] gives the processor up. *)
Definition to_give (g : ghost U) (T : timers) (u : U) : ghost U :=
  Ghost (g_tasks g) (g_jobs g) (g_begun g) (g_done g) T u.


(** Where task [t] suspends itself. *)
Lemma working_gives t g s T u type :
  type = HEV_TASK_SCHED_SWITCH \/ type = HEV_TASK_SCHED_WAITIO ->
  working t g s T u ∗ I (s_tasks (s_switch type s)) u
  ⊢ ∃ g1, ⌞moves rely ctxs t type g g1 /\ g1 = to_give g T u⌟ ∗ give t type g1.
Proof.
  intros Hty. iIntros "[(HS & HD & %Hp) HI]". destruct Hp as [Hs Hu]. iExists (to_give g T u).
  assert (type =? HEV_TASK_SCHED_REMOVE = false) as Hne by by destruct Hty as [->| ->].
  iSplitR.
  { iPureIntro. split; [|done]. split; [intros v Hv; split_and!; [done|by apply Hu..|done]|]. by rw Hne. }
  iExists s, (g_tasks g). cbn [g_jobs g_user g_tasks g_timers to_give]. iFrame "HS HD".
  unfold s_after, left_tasks. rw Hne. iFrame "HI". iPureIntro.
  split_and!; [apply Hs..|destruct Hty; [by left|by right; left]|done|]. by intros ->.
Qed.

(** A task yields. *)
Lemma gwp_task_yield t g type s T u Q :
  type = HEV_TASK_SCHED_SWITCH \/ type = HEV_TASK_SCHED_WAITIO ->
  working t g s T u ∗ I (s_tasks (s_switch type s)) u ∗
  (∀ g2, ⌜same_naps t T (g_timers g2) /\ urely t u (g_user g2)⌝ → take t g2 -∗ Q g2 tt)
  ⊢ gwpr t g (hev_task_yield type) Q.
Proof.
  intros Hty. iIntros "((HS & HD & %Hp) & HI & HQ)".
  iDestruct (runs_pos with "HS") as %[Hpos _]; [by apply Hp..|].
  unfold hev_task_yield, hev_task_system_schedule, hev_task_system_get_context. cbn [gwp].
  iDestruct (counted_tls with "HS") as "[Ht HS]". wp_load. iDestruct ("HS" with "Ht") as "HS". cbn [gwp].
  iDestruct (current_stays with "HS") as "[Hcur HS]". wp_load. iDestruct ("HS" with "Hcur") as "HS".
  assert (s_current s = t) as -> by apply Hp. rw (proj2 (is_true_spec t)); [|lia]. cbn [co_bind call gwp].
  assert (type =? HEV_TASK_SCHED_REMOVE = false) as Hne by by destruct Hty as [->| ->].
  iDestruct (working_gives t g s T u type Hty with "[HS HI HD]") as (g1) "[%Hg1 Hg]".
  { iFrame "HS HI HD". by iPureIntro. }
  destruct Hg1 as [Hm ->]. iExists _. iFrame "Hg". iSplitR; [done|]. rw Hne.
  iIntros (g2 (_ & Hn & Hu & _)) "Ht". iApply ("HQ" with "[//] Ht").
Qed.

(** ** Sleeping *)

Lemma stack_tnode_fresh n T : is_timer tm ctx T ∗ stack_tnode n -∗ ⌜tm_entries T !! n = None⌝.
Proof.
  iIntros "[(_ & _ & _ & HE) [_ [%e (H1 & _)]]]". destruct (tm_entries T !! n) as [f|] eqn:E; [|done].
  iDestruct (entries_acc _ _ _ E with "HE") as "[(H2 & _) _]".
  by iDestruct (points_to_ne with "H1 H2") as %?.
Qed.

(** The timer of a system, for one of its functions. *)
Lemma counted_timer s L J T :
  counted ctx tm s L J T ⊢ ctx_timer ctx ↦ tm ∗ is_timer tm ctx T ∗ timer_clock tm ∗ is_sched ctx s ∗
    (∀ T' s', ⌜sched_wf s' /\ same_tasks s' L /\ sleepers_ok T' s'⌝ →
       ctx_timer ctx ↦ tm -∗ is_timer tm ctx T' -∗ timer_clock tm -∗ is_sched ctx s' -∗ counted ctx tm s' L J T').
Proof.
  unfold counted, is_system, system_timer. cbn [fst snd].
  iIntros "[(H1 & H2 & H3 & Hs & H4 & H5 & H6 & (Htm & Ht & Hck & Hd & Hb) & H8 & %Hp) _]".
  iFrame "Htm Ht Hck Hs". iIntros (T' s' (Hwf & Hsame & Hok)) "Htm Ht Hck Hs".
  iSplitL; [|by iPureIntro]. iSplitL "H1"; [iExact "H1"|]. iSplitL "H2"; [iExact "H2"|].
  iSplitL "H3"; [iExact "H3"|]. iSplitL "Hs"; [iExact "Hs"|]. iSplitL "H4"; [iExact "H4"|].
  iSplitL "H5"; [iExact "H5"|]. iSplitL "H6"; [iExact "H6"|].
  iSplitL "Htm Ht Hck Hd Hb"; [iFrame "Htm Ht Hck Hd Hb"|].
  iSplitL "H8"; [iExact "H8"|]. iPureIntro. by destruct Hp.
Qed.

Lemma timed_wakes T curr s (b : bool) :
  sleepers_ok T s -> timers_wf T -> woken s (if b then s_timer_wake T curr s else s).
Proof. intros Hok HT. destruct b; [by apply timer_wakes|done]. Qed.

(** The second half of [hev_task_timer_wait]: the node is taken out, and the
    next sleeper is woken when it is time. *)
Definition wait_rest (n : Z) (leftmost : bool) : co Z :=
  first <! hev_rbtree_cached_first (timer_sort_tree tm) ;;
  let leftmost := leftmost || (tnode_base n =? first) in
  hev_rbtree_cached_erase (timer_sort_tree tm) (tnode_base n) !;;
  curr <~ hev_task_timer_get_curr ;;
  when leftmost (hev_task_timer_wakeup tm curr) !;;
  expire <! load_ts (tnode_expire n) ;;
  Ret (hev_task_timer_get_time curr expire).

Lemma gwp_wait_rest t g s T u n e lm (Q : ghost U -> Z -> heapProp) :
  tm_entries T !! n = Some e -> te_task e = t ->
  working t g s T u ∗ I (s_tasks s) u ∗
  (∀ s' r, working t g s' (t_remove n T) u -∗ I (s_tasks s') u -∗ stack_tnode n -∗ Q g r)
  ⊢ gwpr t g (wait_rest n lm) Q.
Proof.
  intros He Het. iIntros "((HS & HD & %Hp) & HI & HQ)". destruct Hp as [Hs Hu].
  iDestruct (counted_pure with "HS") as %(_ & Hwf & Hsame). iDestruct (counted_sleepers with "HS") as %[Hok HT].
  iDestruct (counted_timer with "HS") as "(Htm & Ht & Hck & Hsc & HS)". unfold wait_rest. cbn [gwp].
  iApply wp_wand. iSplitL "Ht"; [by iApply wp_timer_first|]. iIntros (f) "[-> Ht]". cbn [gwp].
  iApply wp_wand. iSplitL "Ht"; [iApply (wp_timer_erase _ _ _ _ _ He with "Ht")|].
  iIntros (_) "(Ht & Hb & He)". iApply gwp_plain; [apply plain_get_curr|].
  iSplitR; [by iApply (cwp_get_curr no_yield (fun t => ⌞normalised t⌟)%I); iIntros (c Hc)|].
  iIntros (curr _). cbn [gwp]. set (b := lm || _). set (T1 := t_remove n T).
  assert (sleepers_ok T1 s) as Hok1 by by apply sleepers_remove.
  assert (timers_wf T1) as HT1 by by apply t_remove_wf.
  pose proof (timed_wakes T1 curr s b Hok1 HT1) as Hw.
  iApply (wp_wand _ (fun _ => is_timer tm ctx T1 ∗ is_sched ctx (if b then s_timer_wake T1 curr s else s))%I).
  iSplitL "Ht Hsc"; [destruct b; cbn [when]; [iApply wp_timer_wakeup; [done..|]; iFrame|wp_norm; iFrame]|].
  iIntros (_) "[Ht Hsc]". iDestruct "He" as "(H1 & H2 & H3)". unfold load_ts. wp_load. wp_load. cbn [gwp].
  iDestruct ("HS" with "[%] Htm Ht Hck Hsc") as "HS".
  { split_and!; [by eapply woken_wf|by eapply woken_same|by eapply woken_sleepers]. }
  iDestruct (woken_shared _ _ _ Hw with "HI") as "HI".
  iApply ("HQ" with "[HS HD] HI [Hb H1 H2 H3]"); [|iFrame "Hb"; iExists e; iFrame].
  iFrame "HS HD". iPureIntro. destruct Hs as [Hl Hc]. split.
  - split; [by eapply woken_live|by eapply woken_runs].
  - intros v Hv. destruct (Hu v Hv) as [Hn HUv]. split; [|done]. etrans; [exact Hn|].
    apply (naps_remove v n e); [done|]. by rw Het.
Qed.

(** A task sleeps: its node is among the sleepers meanwhile. *)
Lemma gwp_task_sleep t g s T u ms n Q :
  aligned n -> 0 < ms ->
  working t g s T u ∗ I (s_tasks (s_switch HEV_TASK_SCHED_WAITIO s)) u ∗ stack_tnode n ∗
  (∀ g' s' T' r, ⌜same_naps t T T' /\ urely t u (g_user g')⌝ →
     working t g' s' T' (g_user g') -∗ I (s_tasks s') (g_user g') -∗ stack_tnode n -∗ Q g' r)
  ⊢ gwpr t g (hev_task_sleep ms n) Q.
Proof.
  intros Hal Hms. iIntros "((HS & HD & %Hp) & HI & Hnode & HQ)". destruct Hp as [Hs Hu].
  iDestruct (counted_pure with "HS") as %(_ & Hwf & Hsame). iDestruct (counted_sleepers with "HS") as %[Hok HT].
  unfold hev_task_sleep, hev_task_system_get_context. rw (proj2 (Z.eqb_neq ms 0)); [|lia]. cbn [gwp].
  iDestruct (counted_tls with "HS") as "[Htls HS]". wp_load. iDestruct ("HS" with "Htls") as "HS".
  iDestruct (counted_timer with "HS") as "(Htm & Ht & Hck & Hsc & HS)". cbn [gwp]. wp_load. cbn [gwp].
  iDestruct (is_sched_current with "Hsc") as "[Hc Hsc]". wp_load. iDestruct ("Hsc" with "Hc") as "Hsc".
  assert (s_current s = t) as -> by apply Hs. unfold hev_task_timer_wait.
  iApply gwp_plain; [apply plain_get_curr|].
  iSplitR; [by iApply (cwp_get_curr no_yield (fun t => ⌞normalised t⌟)%I); iIntros (c Hc)|].
  iIntros (t0 _). iDestruct (stack_tnode_fresh with "[$Ht $Hnode]") as %Hn. cbn [gwp].
  iApply wp_wand. iSplitL "Ht Hck Hnode"; [iApply (wp_timer_insert with "[$Ht $Hck $Hnode]"); done|].
  iIntros (lm) "(_ & Ht & Hck)". set (e := TEntry (hev_task_timer_get_expire t0 ms) t). set (T1 := t_insert n e T).
  destruct Hs as (Hl & Hc & Hr). destruct (sw_known _ (proj1 Hwf) _ Hr) as [i Hi].
  assert (sleepers_ok T1 s) as Hok1.
  { apply (sleepers_insert T s n e i); [done| |by apply (Hl _ _ Hi)]. cbn. by rw -Hc. }
  iDestruct ("HS" with "[//] Htm Ht Hck Hsc") as "HS".
  iDestruct (working_gives t g s T1 u HEV_TASK_SCHED_WAITIO with "[HS HI HD]") as (g1) "[%Hg1 Hg]"; [by right| |].
  { iFrame "HS HI HD". iPureIntro. split; [done|]. intros v Hv. destruct (Hu v Hv) as [Hnv HUv]. split; [|done].
    etrans; [exact Hnv|]. apply naps_insert; [by intros <-|done]. }
  destruct Hg1 as [Hm ->]. cbn [co_bind call gwp]. iExists _. iFrame "Hg". iSplitR; [done|].
  change (HEV_TASK_WAITIO =? HEV_TASK_SCHED_REMOVE) with false. cbv iota.
  iIntros (g2 (_ & Hn2 & Hu2 & _)) "Ht". cbn [g_timers g_user to_give] in Hn2, Hu2.
  iDestruct (take_working with "Ht") as (s2) "[HW HI]".
  assert (tm_entries (g_timers g2) !! n = Some e) as He.
  { apply (Hn2 n e eq_refl). cbn. by rw lookup_insert_eq. }
  iApply (gwp_wait_rest t g2 s2 (g_timers g2) (g_user g2) n e lm); [done..|]. iFrame "HW HI".
  iIntros (s3 r) "HW HI Hnode". iApply ("HQ" with "[%] HW HI Hnode"). split; [|done].
  intros m f Hf. cbn. destruct (decide (m = n)) as [->|Hmn].
  - rw lookup_delete_eq Hn. done.
  - rw lookup_delete_ne // -(Hn2 m f Hf). cbn. by rw lookup_insert_ne.
Qed.

(** ** The first and the last steps of a task *)

(** What a task has done when its entry function returns: its job [p]. *)
Definition ending (t : Z) (p : Z * Z) (g : ghost U) : heapProp :=
  (∃ s T u, working t g s T u ∗ I (delete t (s_tasks s)) u ∗ Fin p ∗ ⌞no_nap t T⌟)%I.

(** A task has the same job whenever it gets the processor. *)
Lemma gwp_same_job {A} t g (c : co A) (Φ : ghost U -> A -> heapProp) :
  t <> NULL -> gwpr t g c Φ ⊢ gwpr t g c (fun g' x => ⌞g_jobs g' t = g_jobs g t⌟ ∗ Φ g' x).
Proof.
  intros Ht. assert (forall g0 : ghost U, g_jobs g t = g_jobs g0 t ->
    gwpr t g c Φ ⊢ gwpr t g c (fun g' x => ⌞g_jobs g' t = g_jobs g0 t⌟ ∗ Φ g' x)) as H; [|by apply H].
  intros g0. revert g. induction c as [x|X m k IH|e k IH|k IH|]; intros g Hg; cbn [gwp].
  - iIntros "$". done.
  - iIntros "H". iApply wp_wand. iSplitL "H"; [iExact "H"|]. iIntros (x) "H". by iApply IH.
  - destruct e; try (iIntros "[%Hs H]"; iSplit; [done|]; iApply (ext_ok_mono with "H"); intros a; by apply IH).
    iIntros "(%g1 & %Hm & Hg & H)". iExists g1. iSplitR; [done|]. iFrame "Hg".
    destruct (type =? HEV_TASK_SCHED_REMOVE); [done|]. iIntros (g2 Hr) "Ht".
    iApply IH; [|by iApply ("H" with "[//] Ht")].
    destruct (moves_jobs _ _ _ _ Ht Hm) as [Hj _], Hr as (Hj2 & _). congruence.
  - iIntros "H" (n). iApply IH; [done|]. iApply "H".
  - done.
Qed.

Lemma counted_body s L J T t :
  t ∈ L -> counted ctx tm s L J T ⊢ task_body J t ∗ (task_body J t -∗ counted ctx tm s L J T).
Proof.
  intros Ht. iIntros "[(H1 & H2 & H3 & H4 & H5 & Ho & H6 & H7 & H8 & %Hp) %Hok]".
  unfold task_objects at 1. iDestruct (big_sepL_elem_of_acc _ _ t Ht with "Ho") as "[Hb Ho]".
  iSplitL "Hb"; [iExact "Hb"|]. iIntros "Hb". iSpecialize ("Ho" with "Hb"). iSplitL; [|by iPureIntro].
  iSplitL "H1"; [iExact "H1"|]. iSplitL "H2"; [iExact "H2"|]. iSplitL "H3"; [iExact "H3"|].
  iSplitL "H4"; [iExact "H4"|]. iSplitL "H5"; [iExact "H5"|]. iSplitL "Ho"; [iExact "Ho"|].
  iSplitL "H6"; [iExact "H6"|]. iSplitL "H7"; [iExact "H7"|]. iSplitL "H8"; [iExact "H8"|].
  done.
Qed.

(** The state after the end of task [t]. *)
Definition left_ghost (t : Z) (g : ghost U) (T : timers) (u : U) : ghost U :=
  Ghost (left_tasks t HEV_TASK_SCHED_REMOVE (g_tasks g)) (g_jobs g) (g_begun g) (g_jobs g t :: g_done g) T u.

Lemma left_ledger t g T u :
  NoDup (g_tasks g) -> t ∈ g_tasks g -> ledger g ∗ Fin (g_jobs g t) ⊢ ledger (left_ghost t g T u).
Proof.
  intros Hnd Ht. iIntros "[[HD %Hp] HQ]". iSplitL; [cbn; iFrame "HD HQ"|]. iPureIntro.
  cbn [left_ghost g_jobs g_tasks g_done g_begun]. unfold left_tasks. rw Z.eqb_refl -Hp.
  rw {2}(filter_perm (g_tasks g) t Hnd Ht) fmap_cons. by rw -Permutation_middle.
Qed.

Lemma left_ctxs t g T u : ctxs (left_ghost t g T u) = ctxs g ∖ {[t]}.
Proof.
  unfold ctxs, left_ghost, left_tasks. cbn [g_tasks]. rw Z.eqb_refl. apply set_eq. intros x.
  rw elem_of_list_to_set list_elem_of_filter elem_of_difference elem_of_list_to_set elem_of_singleton. tauto.
Qed.

(** A new task runs its job to the end. *)
Lemma gwp_executer t g :
  take t g ∗ (take t g -∗ gwpr t g (entries (g_jobs g t).1 (g_jobs g t).2) (fun g' _ => ending t (g_jobs g t) g'))
  ⊢ gwpr t g (hev_task_executer entries t) (fun _ _ => False).
Proof.
  iIntros "[(%s & HS & HI & HD & %Hp) HK]". destruct Hp as (Hl & Hc & Hr).
  iDestruct (runs_pos with "HS") as %[Hpos HtL]; [done..|].
  iDestruct (counted_body s _ _ _ t HtL with "HS") as "[((%b & Hb & He & Hd & Hj) & H) HS]".
  unfold hev_task_executer. cbn [gwp]. wp_load. wp_load.
  iDestruct ("HS" with "[Hb He Hd Hj H]") as "HS"; [iFrame "H"; iExists b; iFrame|].
  iApply gwp_bind. iApply gwp_mono; [|iApply gwp_same_job; [unfold NULL; lia|]; iApply "HK"; iExists s; by iFrame "HS HI HD"].
  intros g' []. iIntros "(%Hjob & %s' & %T & %u & (HS & HD & %Hw) & HI & HQ & %Hnap)". destruct Hw as ((Hl' & Hc' & Hr') & Hu).
  iDestruct (runs_pos with "HS") as %[_ HtL']; [done..|].
  iDestruct (counted_pure with "HS") as %(_ & _ & [Hnd _]).
  rw -Hjob. iDestruct (left_ledger t g' T u Hnd HtL' with "[$HD $HQ]") as "HD".
  iDestruct (counted_body s' _ _ _ t HtL' with "HS") as "[((%b' & Hb & He & Hd & Hj) & H) HS]".
  cbn [gwp]. wp_load. change (is_true NULL) with false. cbn [when]. wp_norm.
  iDestruct ("HS" with "[Hb He Hd Hj H]") as "HS"; [iFrame "H"; iExists b'; iFrame|].
  unfold hev_task_system_kill_current_task. cbn [co_bind call gwp]. rw Z.eqb_refl.
  iExists (left_ghost t g' T u). iSplitR.
  { iPureIntro. split; [intros v Hv; split_and!; [done|by apply Hu..|done]|]. rw left_ctxs Z.eqb_refl //. }
  iSplitL; [|done]. iExists s', (g_tasks g'). iFrame "HD". cbn [g_jobs g_user g_tasks g_timers left_ghost]. iFrame "HS".
  unfold s_after, s_remove. rw Z.eqb_refl Hc'. iFrame "HI". iPureIntro.
  split_and!; [done..|by right; right|done|done].
Qed.
End run.
