(* ===== verification/Apps.v ===== *)
(** * Apps: the example programs

    The programs of [src/apps/], as users of the library: their tasks' entry
    functions, by their addresses, and [main].  Local variables whose address
    is taken are parameters.  [drive] runs a program with its tasks in a world
    of its own, and at the end some of them are run. *)

From Stdlib Require Import String.
From S2P Require Import Prelude.
From S2P Require Import Env.
From S2P Require Import Mem.
From S2P Require Import TaskBase.
From S2P Require Import Reactor.
From S2P Require Import Sched.
From S2P Require Import Task.
From S2P Require Import Channel.
From S2P Require Import IO.
From S2P Require Import WinSock.
From S2P Require Import Socket.
From S2P Require Import System.
From S2P Require Import Coroutine.

Local Open Scope Z_scope.

(** The format is part of the call's name. *)
Definition printf (format : string) (args : list Z) : co unit :=
  sys ("printf " ++ format) args ~;; Ret tt.

(** The addresses of the entry functions. *)
Definition FN_entry1 : Z := 1.
Definition FN_entry2 : Z := 2.

(** ** [simple.c] *)

Definition simple_entry1 (data : Z) : co unit :=
  co_for [0; 1] (fun _ =>
    printf "hello 1" [] ~;;
    hev_task_yield HEV_TASK_YIELD).

Definition simple_entry2 (data : Z) : co unit :=
  co_for [0; 1] (fun _ =>
    printf "hello 2" [] ~;;
    hev_task_yield HEV_TASK_YIELD).

Definition simple_entries (entry data : Z) : co unit :=
  if entry =? FN_entry1 then simple_entry1 data else simple_entry2 data.

Definition simple_main : co Z :=
  hev_task_system_init ~;;
  task <~ hev_task_new (-1) ;;
  hev_task_set_priority task 2 !;;
  hev_task_run task FN_entry1 NULL ~;;
  task <~ hev_task_new (-1) ;;
  hev_task_set_priority task 1 !;;
  hev_task_run task FN_entry2 NULL ~;;
  hev_task_system_run ~;;
  hev_task_system_fini ~;;
  Ret 0.

(** ** [timeout.c]: [node] is the timer node of [hev_task_sleep] *)

Definition timeout_entry (node data : Z) : co unit :=
  let interval := 1000 in
  printf "waiting for timeout %ums ..." [interval] ~;;
  hev_task_sleep interval node ~;;
  printf "timeout" [].

Definition timeout_main : co Z :=
  hev_task_system_init ~;;
  task <~ hev_task_new (-1) ;;
  hev_task_run task FN_entry1 NULL ~;;
  hev_task_system_run ~;;
  hev_task_system_fini ~;;
  Ret 0.

(** ** [wakeup.c] *)

Definition wakeup_entry1 (node data : Z) : co unit :=
  let interval := 5000 in
  printf "task1: waiting for timeout %ums ..." [interval] ~;;
  left_ms <~ hev_task_sleep interval node ;;
  if left_ms =? 0 then printf "task1: timeout" []
  else printf "task1: awake now, left: %ums" [left_ms].

Definition wakeup_entry2 (node data : Z) : co unit :=
  let task1 := data in
  let interval := 1000 in
  printf "task2: wakeup task1 after %dms..." [interval] ~;;
  hev_task_sleep interval node ~;;
  printf "task2: wakeup task1 ..." [] ~;;
  act (hev_task_wakeup task1).

Definition wakeup_entries (node1 node2 entry data : Z) : co unit :=
  if entry =? FN_entry1 then wakeup_entry1 node1 data else wakeup_entry2 node2 data.

Definition wakeup_main : co Z :=
  hev_task_system_init ~;;
  task1 <~ hev_task_new (-1) ;;
  hev_task_run task1 FN_entry1 NULL ~;;
  task2 <~ hev_task_new (-1) ;;
  hev_task_set_priority task2 1 !;;
  hev_task_run task2 FN_entry2 task1 ~;;
  hev_task_system_run ~;;
  hev_task_system_fini ~;;
  Ret 0.

(** ** [channel.c]: [args] is a [TaskArgs], [chan] the two pointers of [main] *)

Definition args_type (args : Z) : Z := args.
Definition args_command (args : Z) : Z := args + 8.
Definition SIZEOF_ARGS : Z := 16.

(** The addresses of the strings. *)
Definition STR_hello : Z := 11.
Definition STR_world : Z := 12.

Definition print_args (args : Z) : co unit :=
  type <! load (args_type args) ;;
  command <! load (args_command args) ;;
  printf "type: %d command: %s" [type; command].

Definition channel_entry1 (args data : Z) : co unit :=
  let chan := data in
  hev_task_channel_read chan args SIZEOF_ARGS ~;;
  print_args args ~;;
  store (args_type args) 2 !;;
  store (args_command args) STR_world !;;
  hev_task_channel_write chan args SIZEOF_ARGS ~;;
  hev_task_channel_destroy chan.

Definition channel_entry2 (args data : Z) : co unit :=
  let chan := data in
  store (args_type args) 1 !;;
  store (args_command args) STR_hello !;;
  hev_task_channel_write chan args SIZEOF_ARGS ~;;
  hev_task_channel_read chan args SIZEOF_ARGS ~;;
  print_args args ~;;
  hev_task_channel_destroy chan.

Definition channel_entries (args1 args2 entry data : Z) : co unit :=
  if entry =? FN_entry1 then channel_entry1 args1 data else channel_entry2 args2 data.

Definition channel_main (chan1 chan2 : Z) : co Z :=
  hev_task_system_init ~;;
  hev_task_channel_new chan1 chan2 ~;;
  task <~ hev_task_new (-1) ;;
  hev_task_set_priority task 1 !;;
  c1 <! load chan1 ;;
  hev_task_run task FN_entry1 c1 ~;;
  task <~ hev_task_new (-1) ;;
  hev_task_set_priority task 2 !;;
  c2 <! load chan2 ;;
  hev_task_run task FN_entry2 c2 ~;;
  hev_task_system_run ~;;
  hev_task_system_fini ~;;
  Ret 0.

(** ** [call.c]: [ptr] is the local of [call_entry], which is not initialised *)

Definition call_entry (ptr call : Z) : co unit :=
  printf "call %p on stack %p" [call; ptr] ~;;
  value <! load ptr ;;
  act (hev_task_call_set_retval call value).

Definition call_task_entry (ptr data : Z) : co unit :=
  call <~ hev_task_call_new SIZEOF_CALL 8192 ;;
  hev_task_call_jump (fun _ call => call_entry ptr call) call FN_entry2 ~;;
  hev_task_call_destroy call.

Definition call_main : co Z :=
  hev_task_system_init ~;;
  task <~ hev_task_new (-1) ;;
  hev_task_run task FN_entry1 NULL ~;;
  hev_task_system_run ~;;
  hev_task_system_fini ~;;
  Ret 0.

(** ** [echo-server.c] *)

Definition SOL_SOCKET : Z := 1.
Definition SO_REUSEADDR : Z := 2.
Definition PORT : Z := 8000.
Definition SIZEOF_SOCKADDR_IN : Z := 16.

(** [struct sockaddr_in], byte by byte: the port is in network order. *)
Definition sin_init (addr : Z) : M unit :=
  memset0 addr SIZEOF_SOCKADDR_IN ;;;
  store addr AF_INET ;;; store (addr + 1) 0 ;;;
  memset0 (addr + 4) 4 ;;;
  store (addr + 2) (PORT / 256) ;;; store (addr + 3) (PORT mod 256).

Section echo.
Context (yielders : Z -> Z -> Z -> co Z).

(** The locals: [buf fd] of the client's task of [fd]; [reuseaddr], [addr] and
    [addr_len] of the listener's. *)
Context (buf : Z -> Z) (reuseaddr addr addr_len : Z).

Definition task_client_entry (data : Z) : co unit :=
  let fd := s32 data in
  size <~ hev_task_io_socket_recv yielders fd (buf fd) 2048 0 NULL NULL ;;
  (if size =? -1 then printf "Receive failed!" [] else
   size <~ hev_task_io_socket_send yielders fd (buf fd) size MSG_WAITALL NULL NULL ;;
   if size =? -1 then printf "Send failed!" [] else Ret tt) ~;;
  hev_task_io_close fd ~;;
  Ret tt.

(** Accept until a connection is there. *)
Definition echo_accept (fd : Z) (_ : unit) : co (unit + Z) :=
  client_fd <~ hev_task_io_socket_accept yielders fd addr addr_len NULL NULL ;;
  if negb (client_fd =? -1) then Ret (inr client_fd) else
  printf "Accept failed!" [] ~;;
  Ret (inl tt).

(** The loop never ends. *)
Definition echo_serve (fd : Z) (_ : unit) : co (unit + unit) :=
  store addr_len SIZEOF_SOCKADDR_IN !;;
  client_fd <~ co_while (echo_accept fd) tt ;;
  bytes <! load_all (zrange addr 8) ;;
  printf "New client %d enter from %s:%u" (client_fd :: bytes) ~;;
  task <~ hev_task_new (-1) ;;
  hev_task_set_priority task 1 !;;
  hev_task_add_fd task client_fd (Z.lor POLLIN POLLOUT) ~;;
  hev_task_run task FN_entry2 client_fd ~;;
  Ret (inl tt).

Definition task_listener_entry (data : Z) : co unit :=
  task <! hev_task_self ;;
  store reuseaddr 1 !;;
  fd <~ hev_task_io_socket_socket AF_INET SOCK_STREAM 0 ;;
  if fd =? -1 then printf "Create socket failed!" [] else
  ret <~ hev_task_io_socket_setsockopt fd SOL_SOCKET SO_REUSEADDR reuseaddr 4 ;;
  if ret =? -1 then printf "Set reuse address failed!" [] ~;; hev_task_io_close fd ~;; Ret tt else
  sin_init addr !;;
  ret <~ hev_task_io_socket_bind fd addr SIZEOF_SOCKADDR_IN ;;
  if ret =? -1 then printf "Bind address failed!" [] ~;; hev_task_io_close fd ~;; Ret tt else
  ret <~ hev_task_io_socket_listen fd 100 ;;
  if ret =? -1 then printf "Listen failed!" [] ~;; hev_task_io_close fd ~;; Ret tt else
  hev_task_add_fd task fd POLLIN ~;;
  co_while (echo_serve fd) tt ~;;
  hev_task_io_close fd ~;;
  Ret tt.

Definition echo_entries (entry data : Z) : co unit :=
  if entry =? FN_entry1 then task_listener_entry data else task_client_entry data.
End echo.

Definition echo_main : co Z :=
  hev_task_system_init ~;;
  task <~ hev_task_new (-1) ;;
  hev_task_run task FN_entry1 NULL ~;;
  hev_task_system_run ~;;
  hev_task_system_fini ~;;
  Ret 0.

(** ** Running the programs *)

(** A world that grants every request, but for the caching allocator unless
    [mc_cache]: the task system then has the plain one.  Blocks are one behind
    the other, and [epoll_wait] moves the clock on by its timeout.  The log has
    the calls of [printf]. *)
Record machine : Type := Machine { mc_next : Z; mc_now : Z; mc_log : list ext; mc_cache : bool }.

Definition timespec_of (ms : Z) : list Z := [ms / 1000; ms mod 1000 * 1000000].

Definition machine_answer (w : machine) (e : ext) : answer :=
  match e with
  | Malloc size =>
      if (size =? SIZEOF_ALLOCATOR_SLICE) && negb (mc_cache w) then Answer NULL 12 []
      else Answer (mc_next w) 0 []
  | Realloc _ size => if size =? 0 then Answer NULL 0 [] else Answer (mc_next w) 0 []
  | Query f _ _ =>
      if String.eqb f "clock_gettime" then Answer 0 0 (timespec_of (mc_now w))
      else if String.eqb f "timespec_get" then Answer 1 0 (timespec_of (mc_now w))
      else if String.eqb f "getpagesize" then Answer 4096 0 []
      else if String.eqb f "mmap" then Answer 1048576 0 []
      else if String.eqb f "epoll_create" then Answer 3 0 []
      else Answer 0 0 []
  | _ => Answer 0 0 []
  end.

Definition machine_step (w : machine) (e : ext) : machine :=
  match e with
  | Malloc size | Realloc _ size =>
      Machine (mc_next w + 16 * (size / 16 + 1)) (mc_now w) (mc_log w) (mc_cache w)
  | Query f args _ =>
      if String.eqb f "epoll_wait" then
        Machine (mc_next w) (mc_now w + Z.max 0 (nth 2 args 0)) (mc_log w) (mc_cache w)
      else if String.prefix "printf" f then Machine (mc_next w) (mc_now w) (mc_log w ++ [e]) (mc_cache w)
      else w
  | _ => w
  end.

(** The end of a run: [Undocumented] when the world gives an answer that is not
    [valid], [Unfinished] when [fuel] rounds of a loop are not enough. *)
Inductive driven (W A : Type) : Type :=
| Ended (x : A) (w : W) (m : mem)
| Faulted (f : fault)
| Undocumented (e : ext)
| Unfinished.
Arguments Ended {_ _} _ _ _.
Arguments Faulted {_ _} _.
Arguments Undocumented {_ _} _.
Arguments Unfinished {_ _}.

(** A world answers a call, which it may look up in the memory, and goes on. *)
Fixpoint drive {W A} (respond : W -> mem -> ext -> answer * W) (fuel : nat) (w : W) (c : co A) (m : mem) :
    driven W A :=
  match c with
  | Ret x => Ended x w m
  | Act c k => match c m with Ok (x, m') => drive respond fuel w (k x) m' | Err f => Faulted f end
  | Ext e k =>
      let '(a, w') := respond w m e in
      if valid e a m then
        match effect e a m with Ok m' => drive respond fuel w' (k a) m' | Err f => Faulted f end
      else Undocumented e
  | Fuel k => drive respond fuel w (k fuel) m
  | Stop => Unfinished
  end.

Definition machine_respond (w : machine) (_ : mem) (e : ext) : answer * machine :=
  (machine_answer w e, machine_step w e).

(** The memory before the program: no task system, and the local variables. *)
Definition fresh_mem (locals : list Z) : mem :=
  put_cells ([hev_task_system_tls_context; tls_default_allocator; stack_page_size] ++ locals) [] ∅.

(** What a program prints, what it returns, and whether it gives all memory
    back. *)
Definition observe (entries : Z -> Z -> co unit) (main : co Z) (locals : list Z) :
    option (Z * list ext * bool) :=
  let m := fresh_mem locals in
  match drive machine_respond 32 (Machine 65536 0 [] false) (in_kernel entries main ∅) m with
  | Ended r w m' => Some (r, mc_log w, bool_decide (dom m' = dom m))
  | _ => None
  end.

Example simple_program_runs :
  observe simple_entries simple_main [] = Some (0,
    [Query "printf hello 2" [] 0; Query "printf hello 1" [] 0;
     Query "printf hello 2" [] 0; Query "printf hello 1" [] 0], true).
Proof. by vm_compute. Qed.

Example wakeup_program_runs :
  observe (wakeup_entries 4096 8192) wakeup_main (zrange 4096 64 ++ zrange 8192 64) = Some (0,
    [Query "printf task2: wakeup task1 after %dms..." [1000] 0;
     Query "printf task1: waiting for timeout %ums ..." [5000] 0;
     Query "printf task2: wakeup task1 ..." [] 0;
     Query "printf task1: awake now, left: %ums" [4000] 0], true).
Proof. by vm_compute. Qed.

Example channel_program_runs :
  observe (channel_entries 4096 8192) (channel_main 12288 12296)
    (zrange 4096 16 ++ zrange 8192 16 ++ [12288; 12296]) = Some (0,
    [Query "printf type: %d command: %s" [1; STR_hello] 0;
     Query "printf type: %d command: %s" [2; STR_world] 0], true).
Proof. by vm_compute. Qed.
