(* ===== verification/Tests.v ===== *)
(** * Tests: the programs of [src/tests] that need the library alone

    Each test is [main] with the entry functions of its tasks, as in the source
    file of its name; [assert] aborts.  Static variables have fixed addresses;
    the local variables of a task whose addresses are taken are in its frame, a
    parameter of the entry function.  The tests are run in the world of [Apps]:
    they validate the definitions of the library against what its authors expect
    of it. *)

From Stdlib Require Import String.
From S2P Require Import Prelude.
From S2P Require Import Env.
From S2P Require Import Mem.
From S2P Require Import TaskBase.
From S2P Require Import Timer.
From S2P Require Import Sched.
From S2P Require Import Task.
From S2P Require Import Mutex.
From S2P Require Import Cond.
From S2P Require Import Channel.
From S2P Require Import Buffer.
From S2P Require Import System.
From S2P Require Import Coroutine.
From S2P Require Import Apps.

Local Open Scope Z_scope.

(** ** Common parts *)

Definition assert (b : bool) : M unit := if b then ret tt else abort.

(** [assert (c == v)]. *)
Definition expect (c : co Z) (v : Z) : co unit := x <~ c ;; act (assert (x =? v)).
Definition expect_cell (a v : Z) : co unit := expect (act (load a)) v.
Definition add_cell (a n : Z) : co unit := v <! load a ;; act (store a (s32 (v + n))).

(** [task = hev_task_new (-1); assert (task); ... hev_task_run (task, entry, data)]. *)
Definition new_task : co Z :=
  task <~ hev_task_new (-1) ;;
  assert (is_true task) !;;
  Ret task.

Definition run_task (entry data : Z) : co unit :=
  task <~ new_task ;;
  hev_task_run task entry data.

Definition run_task_at (priority entry data : Z) : co unit :=
  task <~ new_task ;;
  hev_task_set_priority task priority !;;
  hev_task_run task entry data.

(** A [main] that fills the system, runs it and ends it. *)
Definition main_of (c : co unit) : co Z :=
  expect hev_task_system_init 0 ~;;
  c ~;;
  hev_task_system_run ~;;
  hev_task_system_fini ~;;
  Ret 0.

(** The static variables of a test. *)
Definition count : Z := 4096.
Definition mutex : Z := 4112.
Definition cond : Z := 4144.
Definition tag : Z := 4160.
Definition static_chan1 : Z := 4176.
Definition static_chan2 : Z := 4184.
Definition STATICS : list Z := zrange 4096 128.

(** The local variables of a task that the library is given the addresses of:
    the nodes of the timer, of a mutex and of a condition, and a buffer. *)
Definition fr_tnode (fp : Z) : Z := fp.
Definition fr_mnode (fp : Z) : Z := fp + 64.
Definition fr_cnode (fp : Z) : Z := fp + 96.
Definition fr_val (fp : Z) : Z := fp + 128.

Definition SIZEOF_FRAME : Z := 144.

(** The entry functions of the tasks, each with a block of memory as its
    frame. *)
Definition framed (entries : Z -> Z -> Z -> co unit) (entry data : Z) : co unit :=
  fp <~ malloc SIZEOF_FRAME ;;
  entries fp entry data ~;;
  free fp.

(** The test ends with success, and all memory has been given back. *)
Definition passes (cache : bool) (entries : Z -> Z -> Z -> co unit) (main : co Z) : bool :=
  let m := fresh_mem STATICS in
  match drive machine_respond 256 (Machine 65536 0 [] cache) (in_kernel (framed entries) main ∅) m with
  | Ended r _ m' => (r =? 0) && bool_decide (dom m' = dom m)
  | _ => false
  end.

Definition FN_entry3 : Z := 3.
Definition FN_entry4 : Z := 4.
Definition FN_entry5 : Z := 5.
Definition FN_entry6 : Z := 6.
Definition FN_entry7 : Z := 7.
Definition FN_entry8 : Z := 8.
Definition FN_entry9 : Z := 9.
Definition FN_entry10 : Z := 10.
Definition FN_entry11 : Z := 11.

(** ** [task.c] *)

Definition task_task1_entry (data : Z) : co unit := add_cell count 1.
Definition task_task2_entry (data : Z) : co unit := add_cell count 1.

Definition task_entries (fp entry data : Z) : co unit :=
  if entry =? FN_entry1 then task_task1_entry data else task_task2_entry data.

Definition task_main : co Z :=
  main_of (run_task FN_entry1 NULL ~;; run_task FN_entry2 NULL) ~;;
  expect_cell count 2 ~;;
  Ret 0.

(** ** [task-yield.c] *)

Definition yield_task1_entry (data : Z) : co unit :=
  add_cell count 1 ~;;
  hev_task_yield HEV_TASK_YIELD ~;;
  v <! load count ;;
  act (assert (Z.land v 1 =? 0)).

Definition yield_task2_entry (data : Z) : co unit := add_cell count 1.

Definition yield_entries (fp entry data : Z) : co unit :=
  if entry =? FN_entry1 then yield_task1_entry data else yield_task2_entry data.

Definition yield_main : co Z := main_of (run_task FN_entry1 NULL ~;; run_task FN_entry2 NULL).

(** ** [task-mutex.c] *)

Definition mutex_task1_entry (fp data : Z) : co unit :=
  expect (act (hev_task_mutex_trylock mutex)) 0 ~;;
  expect (act (hev_task_mutex_trylock mutex)) (-1) ~;;
  expect (act (hev_task_mutex_unlock mutex)) 0 ~;;
  expect (hev_task_mutex_lock mutex (fr_mnode fp)) 0 ~;;
  hev_task_yield HEV_TASK_YIELD ~;;
  expect_cell count 0 ~;;
  expect (act (hev_task_mutex_unlock mutex)) 0.

Definition mutex_task2_entry (fp data : Z) : co unit :=
  expect (hev_task_mutex_lock mutex (fr_mnode fp)) 0 ~;;
  add_cell count 1 ~;;
  expect (act (hev_task_mutex_unlock mutex)) 0.

Definition mutex_entries (fp entry data : Z) : co unit :=
  if entry =? FN_entry1 then mutex_task1_entry fp data else mutex_task2_entry fp data.

Definition mutex_main : co Z :=
  main_of (expect (act (hev_task_mutex_init mutex)) 0 ~;;
    run_task_at 1 FN_entry1 NULL ~;; run_task_at 2 FN_entry2 NULL).

(** ** [task-cond.c] *)

Definition task_producer_entry (fp data : Z) : co unit :=
  expect (hev_task_mutex_lock mutex (fr_mnode fp)) 0 ~;;
  v <! load count ;;
  co_when (v =? 0) (expect (act (hev_task_cond_signal cond)) 0) ~;;
  add_cell count 1 ~;;
  expect (act (hev_task_mutex_unlock mutex)) 0 ~;;
  hev_task_sleep 50 (fr_tnode fp) ~;;
  expect (hev_task_mutex_lock mutex (fr_mnode fp)) 0 ~;;
  v <! load count ;;
  co_when (v =? 0) (expect (act (hev_task_cond_broadcast cond)) 0) ~;;
  add_cell count 10 ~;;
  expect (act (hev_task_mutex_unlock mutex)) 0.

Definition consumer_wait (fp : Z) (_ : unit) : co (unit + unit) :=
  v <! load count ;;
  if v =? 0 then expect (hev_task_cond_wait cond mutex (fr_cnode fp) (fr_mnode fp)) 0 ~;; Ret (inl tt)
  else Ret (inr tt).

(** What both consumers begin with. *)
Definition consume (fp : Z) : co unit :=
  expect (hev_task_mutex_lock mutex (fr_mnode fp)) 0 ~;;
  co_while (consumer_wait fp) tt ~;;
  add_cell count (-1) ~;;
  expect (act (hev_task_mutex_unlock mutex)) 0.

Definition task_consumer1_entry (fp data : Z) : co unit :=
  hev_task_yield HEV_TASK_YIELD ~;;
  consume fp.

Definition task_consumer2_entry (fp data : Z) : co unit :=
  consume fp ~;;
  expect (hev_task_mutex_lock mutex (fr_mnode fp)) 0 ~;;
  expect_cell count 0 ~;;
  expect (hev_task_cond_timedwait cond mutex 0 (fr_cnode fp) (fr_mnode fp) (fr_tnode fp)) (-1) ~;;
  expect (hev_task_cond_timedwait cond mutex 1 (fr_cnode fp) (fr_mnode fp) (fr_tnode fp)) (-1) ~;;
  expect (act (hev_task_mutex_unlock mutex)) 0 ~;;
  co_for (seq 0 10) (fun _ => run_task_at 1 FN_entry2 NULL).

Definition cond_entries (fp entry data : Z) : co unit :=
  if entry =? FN_entry1 then task_producer_entry fp data
  else if entry =? FN_entry2 then task_consumer1_entry fp data
  else task_consumer2_entry fp data.

Definition cond_main : co Z :=
  main_of (expect (act (hev_task_mutex_init mutex)) 0 ~;;
    expect (act (hev_task_cond_init cond)) 0 ~;;
    run_task_at 2 FN_entry1 NULL ~;; run_task_at 1 FN_entry3 NULL).

(** ** [task-cond-timedwait.c] *)

Definition task_late_entry (fp data : Z) : co unit :=
  expect (hev_task_mutex_lock mutex (fr_mnode fp)) 0 ~;;
  expect (hev_task_cond_timedwait cond mutex 2000 (fr_cnode fp) (fr_mnode fp) (fr_tnode fp)) 0 ~;;
  expect (act (hev_task_mutex_unlock mutex)) 0.

Definition task_early_entry (fp data : Z) : co unit :=
  expect (hev_task_mutex_lock mutex (fr_mnode fp)) 0 ~;;
  expect (hev_task_cond_timedwait cond mutex 50 (fr_cnode fp) (fr_mnode fp) (fr_tnode fp)) (-1) ~;;
  expect (act (hev_task_mutex_unlock mutex)) 0 ~;;
  expect (hev_task_mutex_lock mutex (fr_mnode fp)) 0 ~;;
  expect (act (hev_task_cond_signal cond)) 0 ~;;
  expect (act (hev_task_mutex_unlock mutex)) 0.

Definition timedwait_entries (fp entry data : Z) : co unit :=
  if entry =? FN_entry1 then task_late_entry fp data else task_early_entry fp data.

Definition timedwait_main : co Z :=
  main_of (expect (act (hev_task_mutex_init mutex)) 0 ~;;
    expect (act (hev_task_cond_init cond)) 0 ~;;
    run_task FN_entry1 NULL ~;; run_task FN_entry2 NULL).

(** ** [task-wakeup.c] *)

Definition wakeup_task1_entry (data : Z) : co unit := hev_task_yield HEV_TASK_WAITIO.

Definition wakeup_poll (task : Z) (_ : unit) : co (unit + unit) :=
  state <! hev_task_get_state task ;;
  if state =? HEV_TASK_WAITING then Ret (inr tt) else
  hev_task_yield HEV_TASK_YIELD ~;;
  Ret (inl tt).

Definition wakeup_task2_entry (data : Z) : co unit :=
  let task := data in
  co_while (wakeup_poll task) tt ~;;
  hev_task_wakeup task !;;
  hev_task_unref task.

Definition wakeup_test_entries (fp entry data : Z) : co unit :=
  if entry =? FN_entry1 then wakeup_task1_entry data else wakeup_task2_entry data.

Definition wakeup_test_main : co Z :=
  main_of (task1 <~ new_task ;;
    hev_task_run task1 FN_entry1 NULL ~;;
    task2 <~ new_task ;;
    data <! hev_task_ref task1 ;;
    hev_task_run task2 FN_entry2 data).

(** ** [task-priority.c] *)

Definition priority_entry (priority order : Z) : co unit :=
  task <! hev_task_self ;;
  expect (act (hev_task_get_priority task)) priority ~;;
  add_cell count 1 ~;;
  expect_cell count order.

Definition priority_task1_entry (data : Z) : co unit := priority_entry 2 2.
Definition priority_task2_entry (data : Z) : co unit := priority_entry 1 1.

Definition priority_entries (fp entry data : Z) : co unit :=
  if entry =? FN_entry1 then priority_task1_entry data else priority_task2_entry data.

Definition priority_main : co Z :=
  main_of (run_task_at 2 FN_entry1 NULL ~;; run_task_at 1 FN_entry2 NULL).

(** ** [task-join.c] *)

Definition join_task1_entry (fp data : Z) : co unit := hev_task_sleep 10 (fr_tnode fp) ~;; Ret tt.

Definition join_task2_entry (data : Z) : co unit :=
  let task1 := data in
  expect (hev_task_join task1) 0 ~;;
  hev_task_unref task1.

Definition join_entries (fp entry data : Z) : co unit :=
  if entry =? FN_entry1 then join_task1_entry fp data else join_task2_entry data.

Definition join_main : co Z :=
  main_of (task1 <~ new_task ;;
    hev_task_run task1 FN_entry1 NULL ~;;
    task2 <~ new_task ;;
    hev_task_ref task1 !;;
    hev_task_run task2 FN_entry2 task1).

(** ** [task-join-rerun.c] *)

Definition rerun_task1_entry (data : Z) : co unit := add_cell count 1.

Definition rerun_task2_entry (data : Z) : co unit :=
  let task1 := data in
  expect (act (hev_task_get_state task1)) HEV_TASK_STOPPED ~;;
  expect (hev_task_join task1) 0.

Definition rerun_entries (fp entry data : Z) : co unit :=
  if entry =? FN_entry1 then rerun_task1_entry data else rerun_task2_entry data.

Definition rerun_main : co Z :=
  expect hev_task_system_init 0 ~;;
  task1 <~ new_task ;;
  task2 <~ new_task ;;
  hev_task_ref task1 !;;
  hev_task_ref task2 !;;
  hev_task_run task1 FN_entry1 NULL ~;;
  hev_task_run task2 FN_entry2 task1 ~;;
  hev_task_system_run ~;;
  expect_cell count 1 ~;;
  hev_task_ref task1 !;;
  hev_task_run task1 FN_entry1 NULL ~;;
  hev_task_system_run ~;;
  expect_cell count 2 ~;;
  hev_task_unref task1 ~;;
  hev_task_unref task2 ~;;
  hev_task_system_fini ~;;
  Ret 0.

(** ** [task-data.c], [task-self.c] and [task-ref.c] *)

Definition data_entry (data : Z) : co unit := act (assert (data =? tag)).

Definition data_main : co Z :=
  main_of (task <~ new_task ;;
    hev_task_run task FN_entry1 tag ~;;
    expect (act (hev_task_get_data task)) tag).

(** The static variable [task] is at [count]. *)
Definition self_entry (data : Z) : co unit :=
  self <! hev_task_self ;; expect_cell count self.

Definition self_main : co Z :=
  main_of (task <~ new_task ;;
    store count task !;;
    hev_task_run task FN_entry1 NULL).

Definition ref_main : co Z :=
  hev_task_system_init ~;;
  task <~ new_task ;;
  expect (act (hev_task_ref task)) task ~;;
  hev_task_unref task ~;;
  hev_task_unref task ~;;
  hev_task_system_fini ~;;
  Ret 0.

(** ** [task-state.c] *)

Definition state_task1_entry (fp data : Z) : co unit :=
  task <! hev_task_self ;;
  expect (act (hev_task_get_state task)) HEV_TASK_RUNNING ~;;
  hev_task_sleep 1 (fr_tnode fp) ~;;
  Ret tt.

Definition state_task2_entry (data : Z) : co unit :=
  let task := data in
  expect (act (hev_task_get_state task)) HEV_TASK_WAITING ~;;
  hev_task_unref task.

Definition state_entries (fp entry data : Z) : co unit :=
  if entry =? FN_entry1 then state_task1_entry fp data else state_task2_entry data.

Definition state_main : co Z :=
  expect hev_task_system_init 0 ~;;
  task1 <~ new_task ;;
  hev_task_ref task1 !;;
  hev_task_set_priority task1 1 !;;
  expect (act (hev_task_get_state task1)) HEV_TASK_STOPPED ~;;
  hev_task_run task1 FN_entry1 NULL ~;;
  expect (act (hev_task_get_state task1)) HEV_TASK_RUNNING ~;;
  task2 <~ new_task ;;
  hev_task_set_priority task2 2 !;;
  data <! hev_task_ref task1 ;;
  hev_task_run task2 FN_entry2 data ~;;
  hev_task_system_run ~;;
  expect (act (hev_task_get_state task1)) HEV_TASK_STOPPED ~;;
  hev_task_unref task1 ~;;
  hev_task_system_fini ~;;
  Ret 0.

(** ** [memory.c] *)

(** [memcmp (ptr, zero, n) == 0]. *)
Definition expect_zero (ptr n : Z) : M unit :=
  bytes <- load_all (zrange ptr n) ;;
  assert (forallb (Z.eqb 0) bytes).

Definition not_null (c : co Z) : co Z := ptr <~ c ;; assert (is_true ptr) !;; Ret ptr.

Definition memory_main : co Z :=
  expect hev_task_system_init 0 ~;;
  ptr <~ not_null (hev_malloc 16) ;;
  hev_free ptr ~;;
  ptr <~ not_null (hev_malloc0 64) ;;
  expect_zero ptr 64 !;;
  hev_free ptr ~;;
  ptr <~ not_null (hev_calloc 2 64) ;;
  expect_zero ptr (2 * 64) !;;
  hev_free ptr ~;;
  ptr <~ not_null (hev_malloc 128) ;;
  memset0 ptr 128 !;;
  ptr <~ hev_realloc ptr 256 ;;
  expect_zero ptr 128 !;;
  ptr <~ hev_realloc ptr 32 ;;
  expect_zero ptr 32 !;;
  hev_realloc ptr 0 ~;;
  hev_task_system_fini ~;;
  Ret 0.

(** ** [task-sleep.c]: [counter] is at [count] *)

Definition time_diff (sp1 sp2 : timespec) : Z :=
  let sec := sp2.1 - sp1.1 in
  let nsec := sp2.2 - sp1.2 in
  let '(sec, nsec) := if nsec <? 0 then (sec - 1, nsec + 1000000000) else (sec, nsec) in
  sec * 1000 + Z.quot (nsec + 999999) 1000000.

Definition TIME_UTC : Z := 1.

Definition timespec_get : co timespec :=
  a <~ call (Query "timespec_get" [TIME_UTC] 2) ;;
  match a_data a with
  | [sec; nsec] => Ret (sec, nsec)
  | _ => act (fail Undefined)
  end.

(** A sleep that takes at least its time, with the clock read before and after
    it: the lines from the first [timespec_get] to the last [assert]. *)
Definition timed (c : co unit) (ms : Z) : co unit :=
  sp1 <~ timespec_get ;;
  c ~;;
  sp2 <~ timespec_get ;;
  act (assert (ms <=? time_diff sp1 sp2)).

Definition sleep_for (fp ms : Z) : co unit := timed (expect (hev_task_sleep ms (fr_tnode fp)) 0) ms.

Definition task_entry1 (fp data : Z) : co unit := sleep_for fp 10 ~;; sleep_for fp 100.
Definition task_entry2 (fp data : Z) : co unit := add_cell count 1 ~;; sleep_for fp 10.
Definition task_entry3 (fp data : Z) : co unit := expect_cell count 1 ~;; sleep_for fp 20.
Definition task_entry4 (fp data : Z) : co unit := expect_cell count 1 ~;; sleep_for fp 10.
Definition task_entry5 (fp data : Z) : co unit := add_cell count 1 ~;; sleep_for fp 20.
Definition task_entry6 (fp data : Z) : co unit := add_cell count 1 ~;; sleep_for fp 10.

Definition task_entry7 (fp data : Z) : co unit :=
  task <~ new_task ;;
  hev_task_set_priority task 1 !;;
  self <! hev_task_self ;;
  hev_task_run task FN_entry8 self ~;;
  expect_cell count 1 ~;;
  add_cell count 1 ~;;
  timed (remaining <~ hev_task_sleep 20 (fr_tnode fp) ;;
         assert ((0 <=? remaining) && (remaining <=? 20)) !;;
         expect (hev_task_sleep remaining (fr_tnode fp)) 0) 20.

Definition task_entry8 (data : Z) : co unit :=
  let task := data in
  expect_cell count 2 ~;;
  act (hev_task_wakeup task).

Definition task_entry9 (fp data : Z) : co unit := add_cell count 1 ~;; sleep_for fp 10.

Definition task_entry10 (fp data : Z) : co unit :=
  expect_cell count 1 ~;; add_cell count 1 ~;; sleep_for fp 20.

Definition task_entry11 (fp data : Z) : co unit :=
  expect_cell count 2 ~;; add_cell count 1 ~;; sleep_for fp 30.

Definition sleep_entries (fp entry data : Z) : co unit :=
  match entry with
  | 1 => task_entry1 fp data
  | 2 => task_entry2 fp data
  | 3 => task_entry3 fp data
  | 4 => task_entry4 fp data
  | 5 => task_entry5 fp data
  | 6 => task_entry6 fp data
  | 7 => task_entry7 fp data
  | 8 => task_entry8 data
  | 9 => task_entry9 fp data
  | 10 => task_entry10 fp data
  | _ => task_entry11 fp data
  end.

Definition sleep_main : co Z :=
  expect hev_task_system_init 0 ~;;
  run_task FN_entry1 NULL ~;;
  hev_task_system_run ~;;
  run_task_at 1 FN_entry2 NULL ~;;
  run_task_at 2 FN_entry3 NULL ~;;
  hev_task_system_run ~;;
  store count 0 !;;
  run_task_at 2 FN_entry4 NULL ~;;
  run_task_at 1 FN_entry5 NULL ~;;
  hev_task_system_run ~;;
  store count 0 !;;
  run_task_at 1 FN_entry6 NULL ~;;
  run_task_at 2 FN_entry7 NULL ~;;
  hev_task_system_run ~;;
  store count 0 !;;
  run_task_at 1 FN_entry9 NULL ~;;
  run_task_at 2 FN_entry10 NULL ~;;
  run_task_at 3 FN_entry11 NULL ~;;
  hev_task_system_run ~;;
  hev_task_system_fini ~;;
  Ret 0.

(** ** [task-channel.c] *)

Definition SIZEOF_INT : Z := 4.

Definition read_value (chan fp value : Z) : co unit :=
  expect (hev_task_channel_read chan (fr_val fp) SIZEOF_INT) SIZEOF_INT ~;;
  expect_cell (fr_val fp) value.

Definition write_value (chan fp value : Z) : co unit :=
  store (fr_val fp) value !;;
  expect (hev_task_channel_write chan (fr_val fp) SIZEOF_INT) SIZEOF_INT.

Definition channel_task1_entry (fp data : Z) : co unit :=
  let chan := data in
  store (fr_val fp) 0 !;;
  read_value chan fp 1234 ~;;
  read_value chan fp 5678 ~;;
  expect (hev_task_channel_read chan (fr_val fp) SIZEOF_INT) (-1) ~;;
  hev_task_channel_destroy chan.

Definition channel_task2_entry (fp data : Z) : co unit :=
  let chan := data in
  write_value chan fp 1234 ~;;
  write_value chan fp 5678 ~;;
  hev_task_channel_destroy chan.

Definition channel_task3_entry (fp data : Z) : co unit :=
  let chan := data in
  store (fr_val fp) 0 !;;
  read_value chan fp 1234 ~;;
  write_value chan fp 5678 ~;;
  read_value chan fp 9012 ~;;
  expect (hev_task_channel_write chan (fr_val fp) SIZEOF_INT) (-1) ~;;
  hev_task_channel_destroy chan.

Definition channel_task4_entry (fp data : Z) : co unit :=
  let chan := data in
  write_value chan fp 1234 ~;;
  read_value chan fp 5678 ~;;
  write_value chan fp 9012 ~;;
  hev_task_channel_destroy chan.

Definition channel_test_entries (fp entry data : Z) : co unit :=
  match entry with
  | 1 => channel_task1_entry fp data
  | 2 => channel_task2_entry fp data
  | 3 => channel_task3_entry fp data
  | _ => channel_task4_entry fp data
  end.

(** Two tasks at the two ends of a new channel. *)
Definition channel_pair (i entry1 entry2 : Z) : co unit :=
  expect (hev_task_channel_new_with_buffers static_chan1 static_chan2 16 i) 0 ~;;
  chan1 <! load static_chan1 ;;
  run_task_at 1 entry1 chan1 ~;;
  chan2 <! load static_chan2 ;;
  run_task_at 2 entry2 chan2.

Definition channel_test_main : co Z :=
  main_of (co_for [0; 1; 2; 3; 4] (fun i =>
    channel_pair i FN_entry1 FN_entry2 ~;; channel_pair i FN_entry3 FN_entry4)).

(** ** [task-channel-destroy.c] *)

Definition task_reader_entry (fp data : Z) : co unit :=
  chan1 <! load static_chan1 ;;
  read_value chan1 fp 42.

Definition task_writer_entry (fp data : Z) : co unit :=
  chan2 <! load static_chan2 ;;
  write_value chan2 fp 42 ~;;
  hev_task_sleep 50 (fr_tnode fp) ~;;
  chan1 <! load static_chan1 ;;
  hev_task_channel_destroy chan1.

Definition destroy_entries (fp entry data : Z) : co unit :=
  if entry =? FN_entry1 then task_reader_entry fp data else task_writer_entry fp data.

Definition destroy_main : co Z :=
  expect hev_task_system_init 0 ~;;
  expect (hev_task_channel_new static_chan1 static_chan2) 0 ~;;
  task_reader <~ new_task ;;
  hev_task_ref task_reader !;;
  hev_task_run task_reader FN_entry1 NULL ~;;
  run_task FN_entry2 NULL ~;;
  hev_task_system_run ~;;
  chan2 <! load static_chan2 ;;
  hev_task_channel_destroy chan2 ~;;
  hev_task_unref task_reader ~;;
  hev_task_system_fini ~;;
  Ret 0.

(** ** [task-channel-select.c] *)

(** [ChannelData]: every member of the union is at the same address. *)
Definition data_type (d : Z) : Z := d.
Definition data_value (d : Z) : Z := d + 8.
Definition SIZEOF_CHANNEL_DATA : Z := 16.

Definition CHANNEL_DATA_U8 : Z := 0.
Definition CHANNEL_DATA_U16 : Z := 1.
Definition CHANNEL_DATA_U32 : Z := 2.
Definition CHANNEL_DATA_U64 : Z := 3.
Definition CHANNEL_DATA_CHAN : Z := 4.

Section select.
Context (MAX_CHANNELS : nat).

(** The array [chans] of a task is a list; its elements that are written
    through a pointer are read from [static_chan2]. *)
Definition read_round (sel fp : Z) (chans : list Z) : co (list Z + list Z) :=
  let d := fr_val fp in
  memset0 d SIZEOF_CHANNEL_DATA !;;
  c <~ hev_task_channel_select_read sel 100 (fr_tnode fp) ;;
  if negb (is_true c) then Ret (inr chans) else
  expect (hev_task_channel_read c d SIZEOF_CHANNEL_DATA) SIZEOF_CHANNEL_DATA ~;;
  type <! load (data_type d) ;;
  if type =? CHANNEL_DATA_U8 then expect_cell (data_value d) 123 ~;; Ret (inl chans)
  else if type =? CHANNEL_DATA_U16 then expect_cell (data_value d) 32767 ~;; Ret (inl chans)
  else if type =? CHANNEL_DATA_U32 then expect_cell (data_value d) 387563847 ~;; Ret (inl chans)
  else if type =? CHANNEL_DATA_U64 then expect_cell (data_value d) 3784597313707128903 ~;; Ret (inl chans)
  else if type =? CHANNEL_DATA_CHAN then
    chan <! load (data_value d) ;;
    hev_task_channel_select_add sel chan !;;
    Ret (inl (chans ++ [chan]))
  else Ret (inl chans).

Definition drop_channel (sel chan : Z) : co unit :=
  hev_task_channel_select_del sel chan !;;
  hev_task_channel_destroy chan.

Definition task_read_entry (fp data : Z) : co unit :=
  let chan := data in
  sel <~ not_null hev_task_channel_select_new ;;
  hev_task_channel_select_add sel chan !;;
  chans <~ co_while (read_round sel fp) [] ;;
  expect (hev_task_channel_select_read sel 0 (fr_tnode fp)) NULL ~;;
  expect (hev_task_channel_select_read sel 1 (fr_tnode fp)) NULL ~;;
  co_for chans (drop_channel sel) ~;;
  drop_channel sel chan ~;;
  hev_task_channel_select_destroy sel.

Definition write_data (chan fp type value : Z) : co unit :=
  let d := fr_val fp in
  store (data_type d) type !;;
  store (data_value d) value !;;
  expect (hev_task_channel_write chan d SIZEOF_CHANNEL_DATA) SIZEOF_CHANNEL_DATA.

Definition write_entry (n : nat) (type value fp data : Z) : co unit :=
  let chan := data in
  co_for (seq 0 n) (fun _ => write_data chan fp type value) ~;;
  hev_task_channel_destroy chan.

Definition task_write_u8_entry : Z -> Z -> co unit := write_entry 8 CHANNEL_DATA_U8 123.
Definition task_write_u16_entry : Z -> Z -> co unit := write_entry 16 CHANNEL_DATA_U16 32767.
Definition task_write_u32_entry : Z -> Z -> co unit := write_entry 32 CHANNEL_DATA_U32 387563847.
Definition task_write_u64_entry : Z -> Z -> co unit := write_entry 64 CHANNEL_DATA_U64 3784597313707128903.

(** The entries of the writers are [FN_entry4] to [FN_entry7]. *)
Definition fork_round (fp chan : Z) (i : nat) : co unit :=
  expect (hev_task_channel_new static_chan1 static_chan2) 0 ~;;
  chan1 <! load static_chan1 ;;
  chan2 <! load static_chan2 ;;
  run_task_at (Z.of_nat i mod (HEV_TASK_PRIORITY_MAX + 1)) (FN_entry4 + Z.of_nat i mod 4) chan1 ~;;
  write_data chan fp CHANNEL_DATA_CHAN chan2.

Definition task_fork_entry (fp data : Z) : co unit :=
  let chan := data in
  co_for (seq 0 MAX_CHANNELS) (fork_round fp chan) ~;;
  hev_task_channel_destroy chan.

Fixpoint select_readers (sel : Z) (n : nat) : co (list Z) :=
  match n with
  | O => Ret []
  | S n =>
      expect (hev_task_channel_new static_chan1 static_chan2) 0 ~;;
      chan <! load static_chan1 ;;
      chan_i <! load static_chan2 ;;
      hev_task_channel_select_add sel chan_i !;;
      run_task_at 1 FN_entry1 chan ~;;
      chans <~ select_readers sel n ;;
      Ret (chan_i :: chans)
  end.

Fixpoint select_writes (sel fp : Z) (n : nat) : co unit :=
  match n with
  | O => Ret tt
  | S n =>
      c <~ hev_task_channel_select_write sel 100 (fr_tnode fp) ;;
      if negb (is_true c) then Ret tt else
      write_data c fp CHANNEL_DATA_U64 3784597313707128903 ~;;
      select_writes sel fp n
  end.

Definition task_select_entry (fp data : Z) : co unit :=
  sel <~ not_null hev_task_channel_select_new ;;
  chans <~ select_readers sel MAX_CHANNELS ;;
  select_writes sel fp MAX_CHANNELS ~;;
  expect (hev_task_channel_select_write sel 0 (fr_tnode fp)) NULL ~;;
  expect (hev_task_channel_select_write sel 1 (fr_tnode fp)) NULL ~;;
  co_for chans (drop_channel sel) ~;;
  hev_task_channel_select_destroy sel.

Definition select_entries (fp entry data : Z) : co unit :=
  match entry with
  | 1 => task_read_entry fp data
  | 2 => task_fork_entry fp data
  | 3 => task_select_entry fp data
  | 4 => task_write_u8_entry fp data
  | 5 => task_write_u16_entry fp data
  | 6 => task_write_u32_entry fp data
  | _ => task_write_u64_entry fp data
  end.
End select.

Definition select_main : co Z :=
  main_of (expect (hev_task_channel_new static_chan1 static_chan2) 0 ~;;
    chan1 <! load static_chan1 ;;
    chan2 <! load static_chan2 ;;
    run_task_at 1 FN_entry1 chan1 ~;;
    run_task_at 2 FN_entry2 chan2 ~;;
    run_task_at 2 FN_entry3 NULL).

(** ** [system.c] *)

Definition MAX_FD : Z := 1024.

(** Descriptors that are open. *)
Fixpoint count_open (l : list Z) (n : Z) : co Z :=
  match l with
  | [] => Ret n
  | fd :: l =>
      r <~ hev_task_io_fcntl fd F_GETFD 0 ;;
      count_open l (if 0 <=? r then n + 1 else n)
  end.

Definition count_fds : co Z := count_open (zrange 0 MAX_FD) 0.

(** The lines of [/proc/self/maps]. *)
Definition EOF : Z := -1.
Definition NEWLINE : Z := 10.

Definition count_lines (fp n : Z) : co (Z + Z) :=
  c <~ sys "fgetc" [fp] ;;
  if c =? EOF then Ret (inr n) else
  Ret (inl (if c =? NEWLINE then n + 1 else n)).

Definition count_maps : co Z :=
  fp <~ sys "fopen /proc/self/maps" [] ;;
  if negb (is_true fp) then Ret 0 else
  n <~ co_while (count_lines fp) 0 ;;
  sys "fclose" [fp] ~;;
  Ret n.

Definition system_task_entry (data : Z) : co unit := hev_task_yield HEV_TASK_YIELD.

Definition test_init_fini : co unit :=
  expect hev_task_system_init 0 ~;;
  expect hev_task_system_init (-1) ~;;
  hev_task_system_run ~;;
  hev_task_system_fini ~;;
  hev_task_system_fini.

Definition test_unfinished_tasks : co unit :=
  expect hev_task_system_init 0 ~;;
  new_task ~;;
  task <~ new_task ;;
  hev_task_ref task !;;
  hev_task_run task FN_entry1 NULL ~;;
  hev_task_system_run ~;;
  expect (act (hev_task_get_state task)) HEV_TASK_STOPPED ~;;
  hev_task_system_fini.

Definition system_main (LOOP_COUNT : nat) : co Z :=
  test_init_fini ~;;
  test_unfinished_tasks ~;;
  fds <~ count_fds ;;
  maps <~ count_maps ;;
  co_for (seq 0 LOOP_COUNT) (fun _ => test_init_fini ~;; test_unfinished_tasks) ~;;
  expect count_fds fds ~;;
  expect count_maps maps ~;;
  Ret 0.

(** ** [io-circular-buffer.c]: [iov] is at [count] *)

Definition expect_segments (n : M Z) (lens : list Z) : co unit :=
  r <! n ;;
  assert (r =? Z.of_nat (length lens)) !;;
  co_for (combine (zrange 0 (Z.of_nat (length lens))) lens) (fun p =>
    base <! load (iov_base count p.1) ;;
    assert (is_true base) !;;
    expect_cell (iov_len count p.1) p.2).

Definition segment_base : M Z := load (iov_base count 0).

Definition circular_buffer_main : co Z :=
  buffer <~ not_null (hev_circular_buffer_new 128) ;;
  expect (act (hev_circular_buffer_ref buffer)) buffer ~;;
  hev_circular_buffer_unref buffer ~;;
  expect (act (hev_circular_buffer_get_max_size buffer)) 128 ~;;
  let use_size n := expect (act (hev_circular_buffer_get_use_size buffer)) n in
  let reading := expect_segments (hev_circular_buffer_reading buffer count) in
  let writing := expect_segments (hev_circular_buffer_writing buffer count) in
  use_size 0 ~;; reading [] ~;; writing [128] ~;;
  wb1 <! segment_base ;;
  hev_circular_buffer_write_finish buffer 32 !;;
  use_size 32 ~;; reading [32] ~;;
  rb1 <! segment_base ;;
  writing [128 - 32] ~;;
  wb2 <! segment_base ;;
  assert (32 =? wb2 - wb1) !;;
  hev_circular_buffer_write_finish buffer (128 - 32) !;;
  use_size 128 ~;; writing [] ~;; reading [128] ~;;
  rb2 <! segment_base ;;
  assert (rb1 =? rb2) !;;
  hev_circular_buffer_read_finish buffer 16 !;;
  use_size (128 - 16) ~;; writing [16] ~;;
  wb3 <! segment_base ;;
  assert (wb3 =? wb1) !;;
  reading [128 - 16] ~;;
  rb3 <! segment_base ;;
  assert (rb3 =? rb1 + 16) !;;
  hev_circular_buffer_read_finish buffer (128 - 16) !;;
  use_size 0 ~;; writing [128] ~;;
  hev_circular_buffer_write_finish buffer (128 - 16) !;;
  reading [128 - 16] ~;;
  hev_circular_buffer_read_finish buffer 16 !;;
  use_size (128 - 16 - 16) ~;; writing [16; 16] ~;; reading [128 - 16 - 16] ~;;
  hev_circular_buffer_read_finish buffer (128 - 16 - 16) !;;
  use_size 0 ~;; writing [16; 128 - 16] ~;;
  hev_circular_buffer_write_finish buffer 32 !;;
  use_size 32 ~;; reading [16; 16] ~;; writing [128 - 16 - 16] ~;;
  hev_circular_buffer_unref buffer ~;;
  Ret 0.

(** ** The benchmarks of [src/benches]

    The figures they print are computed in floating point: here [printf] has the
    times and the counts they are computed from. *)

Definition report (name : string) (n : Z) (t0 t1 : timespec) : co unit :=
  printf name [n; t0.1; t0.2; t1.1; t1.2].

(** ** [switch.c]: [task_peer] is at [count] *)

Section switch.
Context (NCALLS : nat).

Definition ping_entry (data : Z) : co unit :=
  co_for (seq 0 (Z.to_nat data)) (fun _ =>
    task_peer <! load count ;;
    hev_task_wakeup task_peer !;;
    hev_task_yield HEV_TASK_YIELD).

Definition pong_entry (data : Z) : co unit :=
  co_for (seq 0 (Z.to_nat data)) (fun _ =>
    task_peer <! load count ;;
    hev_task_wakeup task_peer !;;
    hev_task_yield HEV_TASK_YIELD).

Definition switch_entries (fp entry data : Z) : co unit :=
  if entry =? FN_entry1 then ping_entry data else pong_entry data.

Definition switch_main : co Z :=
  r <~ hev_task_system_init ;;
  if r <? 0 then Ret 1 else
  task <~ hev_task_new (-1) ;;
  task_peer <~ hev_task_new (-1) ;;
  store count task_peer !;;
  hev_task_run task FN_entry1 (Z.of_nat NCALLS) ~;;
  hev_task_run task_peer FN_entry2 (Z.of_nat NCALLS) ~;;
  t0 <~ timespec_get ;;
  hev_task_system_run ~;;
  t1 <~ timespec_get ;;
  report "yield switch" (Z.of_nat NCALLS) t0 t1 ~;;
  hev_task_unref task ~;;
  task_peer <! load count ;;
  hev_task_unref task_peer ~;;
  hev_task_system_fini ~;;
  Ret 0.
End switch.

(** ** [timer.c] *)

Section timer.
Context (NTASKS NLOOPS : nat).

Definition sleep_entry (fp data : Z) : co unit :=
  co_for (seq 0 NLOOPS) (fun _ => hev_task_sleep 1 (fr_tnode fp) ~;; Ret tt).

(** [tasks[i] = hev_task_new (-1)], followed by [start] of it. *)
Fixpoint new_tasks (n : nat) (start : Z -> co unit) : co (list Z) :=
  match n with
  | O => Ret []
  | S n =>
      task <~ hev_task_new (-1) ;;
      start task ~;;
      tasks <~ new_tasks n start ;;
      Ret (task :: tasks)
  end.

Definition timer_main : co Z :=
  r <~ hev_task_system_init ;;
  if r <? 0 then Ret 1 else
  tasks <~ new_tasks NTASKS (fun task => hev_task_run task FN_entry1 NULL) ;;
  t0 <~ timespec_get ;;
  hev_task_system_run ~;;
  t1 <~ timespec_get ;;
  report "sleep(1) parallel" (Z.of_nat NLOOPS) t0 t1 ~;;
  co_for tasks hev_task_unref ~;;
  hev_task_system_fini ~;;
  Ret 0.
End timer.

(** ** [task.c] of the benchmarks *)

Section task.
Context (NOPS : nat).

Definition bench_new_free (stack_size : Z) (name : string) : co unit :=
  t0 <~ timespec_get ;;
  co_for (seq 0 NOPS) (fun _ =>
    task <~ hev_task_new stack_size ;;
    hev_task_unref task) ~;;
  t1 <~ timespec_get ;;
  report name (Z.of_nat NOPS) t0 t1.

Definition exit_entry (data : Z) : co unit := hev_task_exit.

Definition SIZEOF_POINTER : Z := 8.

(** The pointers in the block [tasks] are a list here. *)
Definition bench_run_exit (count : nat) : co unit :=
  block <~ malloc (SIZEOF_POINTER * Z.of_nat count) ;;
  tasks <~ new_tasks count (fun _ => Ret tt) ;;
  t0 <~ timespec_get ;;
  co_for tasks (fun task =>
    hev_task_ref task !;;
    hev_task_run task FN_entry1 NULL) ~;;
  hev_task_system_run ~;;
  t1 <~ timespec_get ;;
  report "run+exit" (Z.of_nat count) t0 t1 ~;;
  co_for tasks hev_task_unref ~;;
  free block.

Definition bench_task_main (count1 count2 : nat) : co Z :=
  r <~ hev_task_system_init ;;
  if r <? 0 then Ret 1 else
  bench_new_free (-1) "task new+free 64k" ~;;
  bench_new_free (8 * 1024) "task new+free 8k" ~;;
  bench_run_exit count1 ~;;
  bench_run_exit count2 ~;;
  hev_task_system_fini ~;;
  Ret 0.
End task.

(** ** [channel.c] of the benchmarks: [chan_req] and [chan_rep] are
    [static_chan1] and [static_chan2] *)

Definition SIZEOF_LONG : Z := 8.

(** One round trip; false when the function returns. *)
Definition speak (fp : Z) (n : nat) : co (nat + bool) :=
  match n with
  | O => Ret (inr true)
  | S n =>
      chan_req <! load static_chan1 ;;
      s <~ hev_task_channel_write chan_req (fr_val fp) SIZEOF_LONG ;;
      if s <? 0 then Ret (inr false) else
      s <~ hev_task_channel_read chan_req (fr_val fp) SIZEOF_LONG ;;
      Ret (if s <? 0 then inr false else inl n)
  end.

Definition speaker_entry (fp data : Z) : co unit :=
  store (fr_val fp) 0 !;;
  done <~ co_while (speak fp) (Z.to_nat data) ;;
  if negb done then Ret tt else
  chan_req <! load static_chan1 ;;
  hev_task_channel_destroy chan_req ~;;
  chan_rep <! load static_chan2 ;;
  hev_task_channel_destroy chan_rep.

Definition echo (fp : Z) (_ : unit) : co (unit + unit) :=
  chan_rep <! load static_chan2 ;;
  s <~ hev_task_channel_read chan_rep (fr_val fp) SIZEOF_LONG ;;
  if s <=? 0 then Ret (inr tt) else
  s <~ hev_task_channel_write chan_rep (fr_val fp) SIZEOF_LONG ;;
  Ret (if s <? 0 then inr tt else inl tt).

Definition echo_entry (fp data : Z) : co unit := co_while (echo fp) tt.

Definition bench_channel_entries (fp entry data : Z) : co unit :=
  if entry =? FN_entry1 then speaker_entry fp data else echo_entry fp data.

Definition bench_channel (NOPS : nat) (buffers : Z) (name : string) : co unit :=
  hev_task_channel_new_with_buffers static_chan1 static_chan2 SIZEOF_LONG buffers ~;;
  task0 <~ hev_task_new (-1) ;;
  hev_task_run task0 FN_entry1 (Z.of_nat NOPS) ~;;
  task1 <~ hev_task_new (-1) ;;
  hev_task_run task1 FN_entry2 NULL ~;;
  t0 <~ timespec_get ;;
  hev_task_system_run ~;;
  t1 <~ timespec_get ;;
  report name (Z.of_nat NOPS) t0 t1 ~;;
  hev_task_unref task0 ~;;
  hev_task_unref task1.

Definition bench_channel_main (NOPS : nat) : co Z :=
  r <~ hev_task_system_init ;;
  if r <? 0 then Ret 1 else
  bench_channel NOPS 0 "channel rtt (unbuf)" ~;;
  bench_channel NOPS 8 "channel rtt (buf8)" ~;;
  hev_task_system_fini ~;;
  Ret 0.

(** ** The tests and the benchmarks are run *)

Definition no_entries (fp entry data : Z) : co unit := Ret tt.

(** The tests of [src/tests] above, but for the circular buffer, which leaves
    the default allocator; [MAX_CHANNELS] and [LOOP_COUNT] are small. *)
Definition tests : list ((Z -> Z -> Z -> co unit) * co Z) :=
  [(task_entries, task_main); (yield_entries, yield_main); (mutex_entries, mutex_main);
   (cond_entries, cond_main); (timedwait_entries, timedwait_main);
   (wakeup_test_entries, wakeup_test_main); (priority_entries, priority_main);
   (join_entries, join_main); (rerun_entries, rerun_main);
   (fun _ _ => data_entry, data_main); (fun _ _ => self_entry, self_main); (no_entries, ref_main);
   (state_entries, state_main); (no_entries, memory_main); (sleep_entries, sleep_main);
   (channel_test_entries, channel_test_main); (destroy_entries, destroy_main);
   (select_entries 4, select_main); (fun _ _ => system_task_entry, system_main 2)].

Example tests_pass : forallb (fun t => passes false t.1 t.2) tests = true.
Proof. vm_cast_no_check (eq_refl true). Qed.

(** How a program ends: its result and what it prints, or its fault. *)
Definition ends (cache : bool) (entries : Z -> Z -> co unit) (main : co Z) : option (Z * list ext + fault) :=
  match drive machine_respond 256 (Machine 65536 0 [] cache) (in_kernel entries main ∅) (fresh_mem STATICS) with
  | Ended r w _ => Some (inl (r, mc_log w))
  | Faulted f => Some (inr f)
  | _ => None
  end.

Example circular_buffer_passes : ends false (framed no_entries) circular_buffer_main = Some (inl (0, [])).
Proof. by vm_compute. Qed.

Example bench_task_runs :
  ends false (fun _ => exit_entry) (bench_task_main 3 3 4) = Some (inl (0,
    [Query "printf task new+free 64k" [3; 0; 0; 0; 0] 0; Query "printf task new+free 8k" [3; 0; 0; 0; 0] 0;
     Query "printf run+exit" [3; 0; 0; 0; 0] 0; Query "printf run+exit" [4; 0; 0; 0; 0] 0])).
Proof. by vm_compute. Qed.

(** [hev_task_run] takes the reference that [hev_task_new] gave: the other
    benchmarks drop it again after the run, when the task has been freed. *)
Example bench_switch_use_after_free :
  ends false (framed switch_entries) (switch_main 3) = Some (inr Segv).
Proof. vm_cast_no_check (eq_refl (Some (@inr (Z * list ext) _ Segv))). Qed.

Example bench_timer_use_after_free :
  ends false (framed (fun fp _ => sleep_entry 3 fp)) (timer_main 3 3) = Some (inr Segv).
Proof. vm_cast_no_check (eq_refl (Some (@inr (Z * list ext) _ Segv))). Qed.

Example bench_channel_use_after_free :
  ends false (framed bench_channel_entries) (bench_channel_main 3) = Some (inr Segv).
Proof. vm_cast_no_check (eq_refl (Some (@inr (Z * list ext) _ Segv))). Qed.

(** In the cache of the other allocator the freed block can still be read. *)
Example bench_switch_cached :
  ends true (framed switch_entries) (switch_main 3) =
  Some (inl (0, [Query "printf yield switch" [3; 0; 0; 0; 0] 0])).
Proof. by vm_compute. Qed.
