(* ===== verification/RunProps.v ===== *)
(** * RunProps: a program that runs tasks

    The choice of the next task, with polls in between; then the whole program.

    The whole life of a task system with its tasks: the memory between its
    start and its end belongs to tasks that are proved each on its own, against
    the invariant of what they share. *)

From stdpp Require Import functions.
From Stdlib Require Import String.
From S2P Require Import Prelude.
From S2P Require Import Sep.
From S2P Require Import Env.
From S2P Require Import EnvLogic.
From S2P Require Import Trace.
From S2P Require Import Threads.
From S2P Require Import Mem.
From S2P Require Import Alloc.
From S2P Require Import TaskBase.
From S2P Require Import QueueSpec.
From S2P Require Import QueueProofs.
From S2P Require Import TimerProofs.
From S2P Require Import Reactor.
From S2P Require Import Sched.
From S2P Require Import SchedProofs.
From S2P Require Import Task.
From S2P Require Import QueueProps.
From S2P Require Import Dns.
From S2P Require Import Aide.
From S2P Require Import System.
From S2P Require Import SystemProofs.
From S2P Require Import SystemLife.
From S2P Require Import SystemProps.
From S2P Require Import Apps.
From S2P Require Import Coroutine.
From S2P Require Import RunProofs.

Local Open Scope Z_scope.

(** ** The choice of the next task *)



(** ** The program *)

(** A task to be run, with its priority. *)
Record job : Type := Job { job_priority : Z; job_entry : Z; job_data : Z }.

(** The number of tasks that could not be created, 0 or 1. *)
Definition spawn (j : job) : co Z :=
  t <~ hev_task_new (-1) ;;
  if negb (is_true t) then Ret 1 else
  hev_task_set_priority t (job_priority j) !;;
  hev_task_run t (job_entry j) (job_data j) ~;;
  Ret 0.

Fixpoint spawn_all (l : list job) : co Z :=
  match l with
  | [] => Ret 0
  | j :: l => n <~ spawn j ;; m <~ spawn_all l ;; Ret (n + m)
  end.

(** The rest of the program, once [hev_task_system_init] has returned [r]. *)
Definition program_tail (l : list job) (r : Z) : co Z :=
  if r <? 0 then Ret r else
  n <~ spawn_all l ;;
  hev_task_system_run ~;;
  hev_task_system_fini ~;;
  Ret n.

(** -1, or the number of jobs for which there was no task. *)
Definition program (l : list job) : co Z :=
  r <~ hev_task_system_init ;; program_tail l r.

(** ** Functions that do not switch *)

Lemma plain_unref self : plain_tree (hev_memory_allocator_unref self).
Proof. unfold hev_memory_allocator_unref, slice_destroy, slice_destroy_class, wild_call, act. calls. Qed.
#[export] Hint Resolve plain_unref : calls.

Lemma plain_slice_new : plain_tree slice_new.
Proof. unfold slice_new, act. calls. Qed.

Lemma plain_drop : plain_tree drop_default_allocator.
Proof. unfold drop_default_allocator, act. calls. Qed.
#[export] Hint Resolve plain_slice_new plain_drop : calls.

Lemma plain_system_init : plain_tree hev_task_system_init.
Proof.
  unfold hev_task_system_init, init_free_reactor, init_free_context, init_exit, hev_task_io_reactor_new,
    reactor_open, hev_task_timer_new, hev_sys_fini, act. calls.
Qed.

Lemma plain_setup_loop fd events res : plain_tree (setup_loop fd events res).
Proof. revert res. induction events as [|ev events IH]; intros res; cbn [setup_loop]; calls. Qed.

Lemma plain_write_sync fd byte : plain_tree (write_sync fd byte).
Proof. unfold write_sync, act. calls. Qed.
#[export] Hint Resolve plain_setup_loop plain_write_sync : calls.

Lemma plain_aide_put self : plain_tree (hev_task_aide_put self).
Proof.
  unfold hev_task_aide_put, hev_task_aide_destroy, hev_task_aide_reactor_destroy, hev_sys_mutex_lock,
    hev_sys_mutex_unlock, hev_task_io_close, act. calls.
Qed.
#[export] Hint Resolve plain_aide_put : calls.

Lemma plain_proxy_destroy self : plain_tree (hev_task_dns_proxy_destroy self).
Proof.
  unfold hev_task_dns_proxy_destroy, hev_task_dns_proxy_drain, drain_read, read_sync, hev_task_aide_del,
    hev_task_io_reactor_setup, hev_task_io_close, act. calls.
Qed.
#[export] Hint Resolve plain_proxy_destroy : calls.

Lemma plain_system_fini : plain_tree hev_task_system_fini.
Proof. unfold hev_task_system_fini, fini_tasks, hev_task_destroy, hev_task_stack_destroy, hev_sys_fini, act. calls. Qed.

(** ** Creating and running the tasks *)

(** A task is created, gets its priority, and is run. *)
Definition s_spawn (t p : Z) (s : sched) : sched := s_run t (s_priority t p (s_create t s)).

Lemma spawn_tasks t p s :
  exists i, s_tasks (s_spawn t p s) = <[t := i]> (s_tasks s) /\ ti_state i = HEV_TASK_RUNNING.
Proof.
  unfold s_spawn, s_run, s_priority, s_create, s_insert, s_put. cbn [s_tasks]. rw !info_insert.
  cbn [ti_state]. rw Z.eqb_refl. cbn [s_tasks]. rw !insert_insert_eq. eexists. by split.
Qed.

Lemma spawn_current t p s : s_current (s_spawn t p s) = s_current s.
Proof. unfold s_spawn, s_run. by destruct (_ =? _). Qed.

Lemma spawn_live t p s : all_live s -> all_live (s_spawn t p s).
Proof.
  intros Hl u j Hj. destruct (spawn_tasks t p s) as (i & Ht & Hi). rw Ht in Hj.
  apply lookup_insert_Some in Hj as [[_ <-]|[_ Hj]]; [by rw Hi|by apply (Hl u)].
Qed.

Section program.
Context `{HA : !Allocator} (entries : Z -> Z -> co unit).
Context (ok : ext -> answer -> Prop) (ok_idle : forall e a, ok e a -> idle_poll e a).
Context (ctx tm : Z) {U : Type} (urely : Z -> U -> U -> Prop) `{HU : !forall t, PreOrder (urely t)}.
Context (I : gmap Z tinfo -> U -> heapProp) (Fin : Z * Z -> heapProp) (P : job -> heapProp) (jobs : list job) (start : U).
Context (I_spawn : forall ts t i u, ts !! t = None -> I ts u ⊢ I (<[t := i]> ts) u) (I_wake : wake_closed I).

Abbreviation swp := (twp (fun _ : unit => ok) (fun _ _ _ => tt) (fun _ => emp)%I).
Abbreviation kwpr := (kwp entries ok (rely urely) ctxs (take ctx tm I Fin) (give ctx tm I Fin)).
Abbreviation gwpr := (gwp ok (rely urely) ctxs (take ctx tm I Fin) (give ctx tm I Fin)).

(** What a task has to do. *)
Definition work (j : job) : Z * Z := (job_entry j, job_data j).

(** Every job can be run as a task on its own, to its end; what the tasks share
    was [start] when the task was created. *)
Definition jobs_run : Prop := forall j t (g : ghost U),
  j ∈ jobs -> t ∈ g_tasks g -> g_jobs g t = work j ->
  urely t start (g_user g) -> no_nap t (g_timers g) ->
  P j ∗ take ctx tm I Fin t g
  ⊢ gwpr t g (entries (job_entry j) (job_data j)) (fun g _ => ending ctx tm urely I Fin t (work j) g).

Context (Hjobs : jobs_run).

(** Before the tasks run. *)
Definition spawned (g : ghost U) : heapProp :=
  (∃ s, counted ctx tm s (g_tasks g) (g_jobs g) (g_timers g) ∗ I (s_tasks s) (g_user g) ∗ ledger Fin g ∗
    ⌞all_live s /\ s_current s = 0 /\ g_timers g = no_timers /\ g_user g = start⌟)%I.

Lemma spawned_resumable j t (g : ghost U) :
  j ∈ jobs -> g_jobs g t = work j -> g_timers g = no_timers -> g_user g = start ->
  P j ⊢ resumable ok (rely urely) ctxs (take ctx tm I Fin) (give ctx tm I Fin) t g (hev_task_executer entries t).
Proof.
  intros Hj Hg HT Hu. iIntros "HP" (g1 (HJ & Hn1 & Hu1 & _)) "Ht". rw Hu in Hu1. rw HT in Hn1. rw Hg in HJ. iApply gwp_executer. iFrame "Ht".
  iIntros "Ht". rw HJ. cbn [work fst snd].
  iAssert ⌜t ∈ g_tasks g1⌝%I as %Hin.
  { iDestruct "Ht" as "(%s & HS & _ & _ & %Hp)". destruct Hp as (_ & Hc & Hr).
    by iDestruct (runs_pos with "HS") as %[_ Ht]. }
  iApply Hjobs; [done..| |iFrame]. eapply same_no_nap; [exact Hn1|]. by intros n e He.
Qed.

Lemma system_priority s L J T n t p :
  is_Some (s_tasks s !! t) ->
  is_system ctx s L J T n ⊢ wp (hev_task_set_priority t p) (fun _ => is_system ctx (s_priority t p s) L J T n).
Proof.
  iIntros (Ht) "(H1 & H2 & H3 & Hs & H4 & H5 & H6 & H7 & H8 & %Hp)". destruct Hp as (Hctx & Hwf & [Hnd HL]).
  iApply wp_wand. iSplitL "Hs"; [by iApply wp_set_priority|]. iIntros (u) "Hs".
  iSplitL "H1"; [iExact "H1"|]. iSplitL "H2"; [iExact "H2"|]. iSplitL "H3"; [iExact "H3"|].
  iSplitL "Hs"; [iExact "Hs"|]. iSplitL "H4"; [iExact "H4"|]. iSplitL "H5"; [iExact "H5"|].
  iSplitL "H6"; [iExact "H6"|]. iSplitL "H7"; [iExact "H7"|]. iSplitL "H8"; [iExact "H8"|].
  iPureIntro. split_and!; [done|by apply priority_wf|]. split; [done|]. intros x. rw HL. cbn.
  rw lookup_insert_is_Some'. destruct Ht. naive_solver.
Qed.

(** The state of the tasks once [t] has been started too. *)
Definition with_task (g : ghost U) (t : Z) (j : job) : ghost U :=
  Ghost (g_tasks g ++ [t]) (<[t := work j]> (<[t := (0, 0)]> (g_jobs g)))
    (work j :: g_begun g) (g_done g) (g_timers g) (g_user g).

Lemma with_task_ledger g t j : t ∉ g_tasks g -> ledger Fin g ⊢ ledger Fin (with_task g t j).
Proof.
  intros Ht. iIntros "[HF %Hp]". iSplitL "HF"; [iExact "HF"|]. iPureIntro. cbn [with_task g_jobs g_tasks g_done g_begun].
  assert ((<[t := work j]> (<[t := (0, 0)]> (g_jobs g)) <$> g_tasks g) = (g_jobs g <$> g_tasks g)) as E.
  { apply list_fmap_ext. intros i v Hv.
    assert (t <> v) as Hne by (intros <-; apply Ht; by eapply list_elem_of_lookup_2).
    by rw !fn_lookup_insert_ne. }
  rw fmap_app E fmap_cons fn_lookup_insert -Hp -app_assoc. cbn. by rw Permutation_middle.
Qed.

Lemma with_task_ctxs g t j : ctxs (with_task g t j) = {[t]} ∪ ctxs g.
Proof. unfold ctxs. cbn. rw list_to_set_app_L. cbn. set_solver. Qed.

(** The context of a new task is made. *)
Lemma kwp_execute {A} g t j bottom base (k : answer -> co A) Q :
  t ∉ g_tasks g -> NULL ∉ g_tasks g ->
  resumable ok (rely urely) ctxs (take ctx tm I Fin) (give ctx tm I Fin) t (with_task g t j) (hev_task_executer entries t) ∗
  (∀ a, kwpr (with_task g t j) (k a) Q)
  ⊢ kwpr g (Ext (Query "hev_task_execute" [t; bottom; base] 0) k) Q.
Proof.
  iIntros (Hnt H0) "[HR H]". cbn [kwp]. unfold ext_ok. iApply ext_wp_query.
  iIntros (a _ _). cbn [starts String.eqb]. iExists (with_task g t j). iFrame "HR". iSplitR "H"; [|iApply "H"].
  iPureIntro. split_and!; [by rw elem_of_list_to_set| |by apply with_task_ctxs].
  intros v Hv. apply elem_of_list_to_set in Hv. split; [|split_and!; [done..|by intros ->]].
  cbn. assert (t <> v) as Hne by (by intros <-). by rw !fn_lookup_insert_ne.
Qed.

Lemma kwp_spawn g j :
  j ∈ jobs -> spawned g ∗ P j ⊢ kwpr g (spawn j) (fun g' n => spawned g' ∗
    ((⌞n = 1 /\ g' = g⌟ ∗ P j) ∨ ⌞n = 0 /\ exists t, g' = with_task g t j⌟)).
Proof.
  iIntros (Hj) "[(%s & HS & HI & HD & %Hl) HP]". destruct Hl as (Hl & Hc & HT & Hu).
  iDestruct (counted_pure with "HS") as %(_ & [Hb _] & [_ HL]).
  assert (NULL ∉ g_tasks g) as H0.
  { intros Hin. apply HL in Hin as [i Hi]. pose proof (sw_addr _ Hb _ _ Hi). unfold NULL in *. lia. }
  iDestruct (counted_sleepers with "HS") as %[Hok _]. iDestruct "HS" as "[HS _]". unfold spawn.
  iApply kwp_plain; [calls|]. iSplitL "HS"; [iApply swp_any; iApply (cwp_task_new yield_id ctx with "HS")|].
  iIntros (t) "[[-> HS]|[%Hnt HS]]".
  { change (is_true NULL) with false. cbn [negb kwp]. iSplitR "HP"; [|iLeft; by iFrame].
    iExists s. iSplitL "HS"; [by iFrame "HS"|]. by iFrame "HI HD". }
  destruct Hnt as [Hnn Hnew]. rw is_true_nonnull //. cbn [negb kwp].
  iAssert ⌜t ∉ g_tasks g⌝%I as %Hni.
  { iDestruct "HS" as "(_ & _ & _ & _ & _ & _ & _ & _ & _ & %Hp)". destruct Hp as (_ & _ & [Hnd _]).
    iPureIntro. apply NoDup_app in Hnd as (_ & Hd & _). intros Hin. apply (Hd t Hin). by left. }
  iApply wp_wand. iSplitL "HS".
  { iApply (system_priority with "HS"). cbn. rw lookup_insert_eq. by eexists. }
  iIntros (u) "HS".
  set (F := fun g' => (spawned g' ∗ ⌞exists t, g' = with_task g t j⌟)%I).
  iApply (kwp_call _ _ _ _ _ _ _ _ _ (fun g' _ => F g')). iSplitL.
  2:{ iIntros (g' v) "[HS %Hg']". cbn [kwp]. iFrame "HS". iRight. by iPureIntro. }
  set (Q := fun g' (_ : unit) => _).
  assert (forall g X (m : M X) (k : X -> co unit), wp m (fun x => kwpr g (k x) Q) ⊢ kwpr g (Act m k) Q) as Hact by done.
  iApply (task_run_steps (fun c => kwpr g c Q) (fun c => kwpr (with_task g t j) c Q)
    (resumable ok (rely urely) ctxs (take ctx tm I Fin) (give ctx tm I Fin) t (with_task g t j) (hev_task_executer entries t)) t
    (Hact g) (Hact (with_task g t j)) (fun b1 b2 k => kwp_execute g t j b1 b2 k Q Hni H0) ctx (s_priority t (job_priority j) (s_create t s)) (g_tasks g ++ [t])).
  - apply elem_of_app. right. by left.
  - unfold runnable, s_priority, s_create. cbn [s_tasks]. by rw !info_insert.
  - iSplitL "HS"; [iExact "HS"|]. iSplitL "HP".
    { iApply (spawned_resumable with "HP"); [done| |done|done]. cbn. by rw fn_lookup_insert. }
    iIntros "HS". cbn [kwp]. iSplitL; [|iPureIntro; by exists t].
    iDestruct (with_task_ledger g t j Hni with "HD") as "HD".
    iExists (s_spawn t (job_priority j) s). cbn [g_tasks g_jobs g_timers g_user with_task]. iSplitL "HS".
    + unfold counted. iSplitL; [|iPureIntro; rw HT; by intros n e He]. rw length_app. cbn [length].
      assert (w32 (w32 (length (g_tasks g)) + 1) = w32 (Z.of_nat (length (g_tasks g) + 1))) as <-; [|iExact "HS"].
      unfold w32. rw Zplus_mod_idemp_l. f_equal. lia.
    + destruct (spawn_tasks t (job_priority j) s) as (i & Hi & _). rw Hi. iSplitL "HI"; [by iApply I_spawn|].
      iFrame "HD". iPureIntro. split_and!; [by apply spawn_live|by rw spawn_current|done..].
Qed.

Lemma kwp_spawn_all g l :
  l ⊆ jobs -> spawned g ∗ ([∗ list] j ∈ l, P j)
  ⊢ kwpr g (spawn_all l) (fun g' n => spawned g' ∗
      ∃ ran left, ⌞ran ++ left ≡ₚ l /\ n = Z.of_nat (length left) /\
        g_begun g' ≡ₚ (work <$> ran) ++ g_begun g /\
        (length (g_tasks g') = length (g_tasks g) + length ran)%nat⌟ ∗ [∗ list] j ∈ left, P j).
Proof.
  revert g. induction l as [|j l IH]; intros g Hl; cbn [spawn_all].
  - iIntros "[HS _]". cbn [kwp]. iFrame "HS". iExists [], [].
    iSplitR; [|done]. iPureIntro. cbn. split_and!; [done..|lia].
  - iIntros "[HS [HP HPs]]". iApply kwp_call. iSplitL "HS HP".
    { iApply kwp_spawn; [apply Hl; by left|]. iFrame. }
    iIntros (g1 n) "[HS HP]". assert (l ⊆ jobs) as Hl1 by (intros x Hx; apply Hl; by right).
    iApply kwp_call. iSplitL "HS HPs"; [iApply (IH g1 Hl1); iFrame|].
    iIntros (g2 m) "($ & %ran & %lf & %Hlf & HPs)". destruct Hlf as (Hperm & -> & Hb & Hlen). cbn [kwp].
    iDestruct "HP" as "[[%Hg1 HP]|%Hg1]".
    + destruct Hg1 as [-> ->]. iExists ran, (j :: lf). iFrame. iPureIntro.
      split_and!; [by rw -Permutation_middle Hperm|cbn [length]; lia|done|done].
    + destruct Hg1 as [-> [t ->]]. iExists (j :: ran), lf. iFrame. iPureIntro. cbn [fmap list_fmap app] in *.
      split_and!; [by rw -Hperm|lia| |].
      * rw Hb. cbn [with_task g_begun]. by rw -Permutation_middle.
      * rw Hlen. cbn. rw length_app /=. lia.
Qed.

(** What the program leaves: the tasks' memory, what the jobs that were done have
    left, and what those were given that got no task. *)
Definition program_over (r : Z) : heapProp :=
  (no_system ∗ (∃ u, I ∅ u) ∗ ∃ ran left,
    ⌞ran ++ left ≡ₚ jobs /\ (r = Z.of_nat (length left) \/ r = -1 /\ ran = [])⌟ ∗
    ([∗ list] j ∈ ran, Fin (work j)) ∗ [∗ list] j ∈ left, P j)%I.

Lemma kwp_program_tail :
  Z.of_nat (length jobs) < 2 ^ 32 ->
  (forall s L J n, is_system ctx s L J (tm, no_timers) n ⊢ swp hev_task_system_fini (fun _ => no_system)) ->
  is_system ctx s_empty [] (fun _ => (0, 0)) (tm, no_timers) 0 ∗ I ∅ start ∗ ([∗ list] j ∈ jobs, P j)
  ⊢ kwpr (Ghost [] (fun _ => (0, 0)) [] [] no_timers start) (program_tail jobs 0)
      (fun g r => ⌞g_tasks g = []⌟ ∗ program_over r).
Proof.
  intros Hlen Hfini. iIntros "(HS & HI & HP)". unfold program_tail. cbn [Z.ltb Z.compare].
  iApply kwp_call. iSplitL.
  { iApply (kwp_spawn_all _ jobs); [done|]. iFrame "HP". iExists s_empty. iSplitL "HS"; [iSplitL; [iExact "HS"|by iPureIntro; intros n e He]|].
    iFrame "HI". iSplitR; [unfold ledger; cbn; iSplitR; [done|by iPureIntro]|]. iPureIntro. split_and!; [|done..]. intros t i. cbn. by rw lookup_empty. }
  iIntros (g n) "((%s & HS & HI & HD & %Hl) & %ran & %left & %Hg & HP)". destruct Hl as (Hl & Hc & _).
  destruct Hg as (Hperm & -> & Hb & Hg). cbn in Hg, Hb. rw app_nil_r in Hb.
  assert (length ran <= length jobs)%nat as Hran by (rw -Hperm length_app; lia).
  iApply kwp_call. iSplitL "HS HI HD".
  { iApply (kwp_system_run entries ok ok_idle ctx tm urely I Fin I_wake g s); [lia|done|done|]. iFrame. }
  iIntros (g2 _) "(%Hnil & (%D & %HD & HF) & %s2 & [HS _] & HI & _)". iApply kwp_plain; [apply plain_system_fini|].
  iSplitL "HS"; [iApply (Hfini with "HS")|]. iIntros (_) "HN". cbn [kwp]. iSplitR; [done|]. iFrame "HN".
  iSplitL "HI"; [iExists _; iExact "HI"|]. iExists ran, left. iSplitR; [iPureIntro; split; [done|by left]|].
  iFrame "HP". rw HD Hb big_sepL_fmap. iExact "HF".
Qed.
End program.

(** ** The whole program *)

(** The answers considered: memory for the plain allocator when the caching one
    cannot be made, and no events of descriptors, as none is added. *)
Definition quiet_world (e : ext) (a : answer) : Prop := fallback_ok tt e a /\ idle_poll e a.

Abbreviation qtwp := (twp (fun _ : unit => quiet_world) no_step (fun _ => emp)%I).

Lemma twp_answers {A} (ok ok' : ext -> answer -> Prop) (c : co A) Q :
  (forall e a, ok' e a -> ok e a) ->
  twp (fun _ : unit => ok) no_step (fun _ => emp)%I c Q ⊢ twp (fun _ : unit => ok') no_step (fun _ => emp)%I c Q.
Proof.
  intros Hok. induction c as [x|X m k IH|e k IH|k IH|]; cbn [twp]; [done| | | |done].
  - iIntros "H" (w) "Hw". iDestruct ("H" $! w with "Hw") as "H". iApply wp_wand. iSplitL "H"; [iExact "H"|]. iIntros (x) "[$ H]". by iApply IH.
  - iIntros "H" (w) "Hw". iDestruct ("H" $! w with "Hw") as "H". iApply ext_wp_wand. iSplitL "H"; [iExact "H"|]. iIntros (a) "H %Ha".
    iDestruct ("H" with "[%]") as "[$ H]"; [by apply Hok|]. by iApply IH.
  - iIntros "H" (n). iApply IH. iApply "H".
Qed.

Lemma in_kernel_plain {A B} entries ok (c : co A) (k : A -> co B) tasks Q :
  plain_tree c ->
  twp (fun _ : unit => ok) no_step (fun _ => emp)%I c (fun x =>
    twp (fun _ : unit => ok) no_step (fun _ => emp)%I (in_kernel entries (k x) tasks) Q)
  ⊢ twp (fun _ : unit => ok) no_step (fun _ => emp)%I (in_kernel entries (co_bind c k) tasks) Q.
Proof.
  induction c as [x|X m f IH|e f IH|f IH|]; intros Hc; cbn [twp in_kernel co_bind calls_only] in *; [done| | | |done].
  - iIntros "H" (w) "Hw". iDestruct ("H" $! w with "Hw") as "H". iApply wp_wand. iSplitL "H"; [iExact "H"|]. iIntros (x) "[$ H]". by iApply IH.
  - destruct Hc as [He Hc]. destruct e as [sz|p sz|p|g args outs|g args n|type]; try done;
      unfold plain in He; unfold enter; rw He; apply text_wp_mono; intros a; by apply IH.
  - iIntros "H" (n). iApply IH; [done|]. iApply "H".
Qed.

Section whole.
Context (entries : Z -> Z -> co unit) {U : Type} (urely : Z -> U -> U -> Prop) `{HU : !forall t, PreOrder (urely t)}.
Context (I : gmap Z tinfo -> U -> heapProp) (Fin : Z * Z -> heapProp) (P : job -> heapProp) (jobs : list job) (start : U).

(** The obligations of the user: creating and waking tasks keeps what is shared,
    and every job can be run as a task on its own, with either allocator. *)
Definition shared_by_tasks : Prop :=
  (forall ts t i u, ts !! t = None -> I ts u ⊢ I (<[t := i]> ts) u) /\ wake_closed I /\
  forall k self ctx tm, @jobs_run (kind_allocator k self) entries quiet_world ctx tm U urely I Fin P jobs start.

Lemma quiet_idle e a : quiet_world e a -> idle_poll e a.
Proof. by intros [_ H]. Qed.

Lemma qtwp_program_tail k self r :
  Z.of_nat (length jobs) < 2 ^ 32 -> shared_by_tasks ->
  @started (kind_allocator k self) r ∗ I ∅ start ∗ ([∗ list] j ∈ jobs, P j)
  ⊢ qtwp (in_kernel entries (program_tail jobs r) ∅) (program_over I Fin P jobs).
Proof.
  intros Hlen (HI & Hw & Hj). iIntros "([[-> (%ctx & %tm & HS)]|[-> HS]] & HI & HP)".
  - iApply twp_wand. iSplitL.
    + iApply (in_kernel_sound entries quiet_world (rely urely) ctxs
        (@take (kind_allocator k self) ctx tm U I Fin) (@give (kind_allocator k self) ctx tm U I Fin)
        (Ghost [] (fun _ => (0, 0)) [] [] no_timers start)).
      { done. }
      iSplitL; [|unfold pool; by rw big_sepM_empty]. iApply (@kwp_program_tail (kind_allocator k self) entries quiet_world quiet_idle ctx tm U urely HU
        I Fin P jobs start HI Hw (Hj k self ctx tm) Hlen); [|iFrame; iExact "HS"].
      intros s L J n. iIntros "H". iApply swp_any.
      iApply (@cwp_system_fini (kind_allocator k self) yield_id _ (kind_drop yield_id k self) with "H").
    + iIntros (r) "(%g & %tasks & %Hdom & Hp & %Hnil & H)". unfold ctxs in Hdom. rw Hnil in Hdom.
      apply dom_empty_inv_L in Hdom as ->. iExact "H".
  - unfold program_tail. cbn [Z.ltb Z.compare in_kernel]. iApply twp_ret. iSplitL "HS"; [iExact "HS"|].
    iSplitL "HI"; [by iExists start|]. iExists [], jobs. iFrame "HP". iSplitR; [iPureIntro; split; [done|by right]|done].
Qed.

Lemma qtwp_program :
  Z.of_nat (length jobs) < 2 ^ 32 -> shared_by_tasks ->
  no_system ∗ I ∅ start ∗ ([∗ list] j ∈ jobs, P j)
  ⊢ qtwp (in_kernel entries (program jobs) ∅) (program_over I Fin P jobs).
Proof.
  intros Hlen Hs. iIntros "(HN & HI & HP)". unfold program.
  iApply in_kernel_plain; [apply plain_system_init|]. iApply twp_wand. iSplitL "HN".
  - iApply twp_answers; [by intros e a [H _]|]. by iApply ftwp_init.
  - iIntros (r) "(%k & %self & HS)". iApply qtwp_program_tail; [done..|]. iFrame.
Qed.

(** C1. A program starts a task system, creates a task for each of its jobs,
    runs them all, and ends the system.  The tasks are proved each on its own:
    with what its job is given, [P], a task does its job to the end, [Fin]; it
    has what the tasks share, and the system, from the moment it gets the
    processor to the moment it gives it up.  Then the program with its tasks,
    every switch of stacks included, does not fault, and when it ends every
    task that was created has done its job to the end and has been freed: the
    program returns the number of jobs for which there was no memory for a
    task, and each of the others has left its [Fin]; or it returns -1, and no
    task was created.  All memory of the system has been given back.  The
    answers of the system are any documented ones, failures of each allocation
    included, but that the plain allocator finds its own block when it is
    needed, and that a poll reports no events, no descriptor being added. *)
Theorem program_runs :
  Z.of_nat (length jobs) < 2 ^ 32 -> shared_by_tasks ->
  no_system ∗ I ∅ start ∗ ([∗ list] j ∈ jobs, P j)
  ⊢ solo_ok (fun _ => quiet_world) no_step (in_kernel entries (program jobs) ∅) (program_over I Fin P jobs) tt.
Proof. intros Hlen Hs. rw -solo_sound. by apply qtwp_program. Qed.
End whole.

(** ** The tasks of [simple.c] *)

(** They share nothing, and do not sleep. *)
Definition share_nothing (_ : gmap Z tinfo) (_ : unit) : heapProp := emp%I.
Definition rely_nothing (_ : Z) (_ _ : unit) : Prop := True.

#[export] Instance rely_nothing_preorder t : PreOrder (rely_nothing t).
Proof. by split. Qed.

Section simple.
Context `{HA : !Allocator} (ok : ext -> answer -> Prop) (ctx tm : Z).

Abbreviation taken := (take ctx tm share_nothing (fun _ => emp%I)).
Abbreviation gwps := (gwp ok (rely rely_nothing) ctxs taken (give ctx tm share_nothing (fun _ => emp%I))).

Definition simple_inv (t : Z) (g : ghost unit) : heapProp := (taken t g ∗ ⌞no_nap t (g_timers g)⌟)%I.

Lemma printf_then_yield t g format :
  simple_inv t g ⊢ gwps t g (printf format [] ~;; hev_task_yield HEV_TASK_YIELD) (fun g _ => simple_inv t g).
Proof.
  iIntros "[Ht %Hnap]". iDestruct (take_working ctx tm rely_nothing share_nothing (fun _ => emp%I) with "Ht") as (s) "[HW HI]".
  iApply (gwp_plain _ _ _ _ _ _ _ _ _ (fun _ => emp)%I).
  { unfold printf, sys. calls. }
  iSplitR; [unfold printf, sys; cbn [co_bind call cwp]; iApply ext_wp_query; by iIntros (a _)|].
  iIntros (u) "_". iApply (gwp_task_yield ok ctx tm rely_nothing share_nothing (fun _ => emp%I) t g HEV_TASK_YIELD s); [by left|].
  iFrame "HW". iSplitL "HI"; [iExact "HI"|]. iIntros (g2 [Hn _]) "Ht". iSplitL; [iExact "Ht"|].
  iPureIntro. by eapply same_no_nap.
Qed.

Lemma simple_ends t p g :
  simple_inv t g ⊢ ending ctx tm rely_nothing share_nothing (fun _ => emp%I) t p g.
Proof.
  iIntros "[Ht %Hnap]". iDestruct (take_working ctx tm rely_nothing share_nothing (fun _ => emp%I) with "Ht") as (s) "[HW HI]". iExists s, _, _.
  iFrame "HW". iSplitL "HI"; [iExact "HI"|done].
Qed.

Lemma simple_task t g entry data :
  simple_inv t g ⊢ gwps t g (simple_entries entry data) (fun g _ =>
    ending ctx tm rely_nothing share_nothing (fun _ => emp%I) t (entry, data) g).
Proof.
  rw -(gwp_mono _ _ _ _ _ _ _ _ (fun g _ => simple_inv t g)); [|intros; apply simple_ends].
  unfold simple_entries, simple_entry1, simple_entry2.
  destruct (_ =? _); apply gwp_for; intros g1 x _; apply printf_then_yield.
Qed.
End simple.

Lemma program_runs_witness :
  no_system ∗ share_nothing ∅ tt ∗ ([∗ list] j ∈ [Job 2 FN_entry1 NULL; Job 1 FN_entry2 NULL], emp)
  ⊢ solo_ok (fun _ => quiet_world) no_step
      (in_kernel simple_entries (program [Job 2 FN_entry1 NULL; Job 1 FN_entry2 NULL]) ∅)
      (program_over share_nothing (fun _ => emp)%I (fun _ => emp)%I [Job 2 FN_entry1 NULL; Job 1 FN_entry2 NULL]) tt.
Proof.
  apply (program_runs simple_entries rely_nothing share_nothing (fun _ => emp)%I (fun _ => emp)%I _ tt); [done|]. split.
  - intros ts t i u _. done.
  - split; [intros s t u _; done|]. intros k self ctx tm j t g _ _ _ _ Hn. iIntros "[_ H]".
    iApply (@simple_task (kind_allocator k self) quiet_world ctx tm). by iFrame "H".
Defined.
