(* ===== verification/RunMutex.v ===== *)
(** * RunMutex: a program whose tasks share a mutex

    The mutex of [MutexProofs] in the logic of [Coroutine]: the state that the
    tasks share is the mutex, and its rely and guarantee are those between the
    tasks, which yield and sleep as they like.  The theorem is about a whole
    program. *)

From stdpp Require Import functions.
From Stdlib Require Import String.
From S2P Require Import Prelude.
From S2P Require Import Sep.
From S2P Require Import Env.
From S2P Require Import EnvLogic.
From S2P Require Import Trace.
From S2P Require Import Threads.
From S2P Require Import Mem.
From S2P Require Import Alloc.
From S2P Require Import TaskBase.
From S2P Require Import QueueSpec.
From S2P Require Import QueueProofs.
From S2P Require Import RBTree.
From S2P Require Import RBTreeSpec.
From S2P Require Import SchedProofs.
From S2P Require Import Timer.
From S2P Require Import TimerProofs.
From S2P Require Import Task.
From S2P Require Import QueueProps.
From S2P Require Import Kernel.
From S2P Require Import Mutex.
From S2P Require Import MutexProofs.
From S2P Require Import SystemProofs.
From S2P Require Import SystemLife.
From S2P Require Import SystemProps.
From S2P Require Import Coroutine.
From S2P Require Import Apps.
From S2P Require Import RunProofs.
From S2P Require Import RunProps.

Local Open Scope Z_scope.

(** ** The mutex and the states of the tasks *)

(** [m_wf] in the tasks of the scheduler, whose owner is one of them. *)
Definition alive (ts : gmap Z tinfo) (t : Z) : Prop :=
  exists i, ts !! t = Some i /\ ti_state i <> HEV_TASK_STOPPED.

Definition awake (ts : gmap Z tinfo) (t : Z) : Prop :=
  exists i, ts !! t = Some i /\ ti_state i = HEV_TASK_RUNNING.

Record shape (ts : gmap Z tinfo) (m : mstate) : Prop := {
  sh_nodes : NoDup (waiters m).*1;
  sh_tasks : NoDup (waiters m).*2;
  sh_alive : forall t, t ∈ (waiters m).*2 -> alive ts t;
  sh_first : owner m = None -> match waiters m with [] => True | p :: _ => awake ts p.2 end;
  sh_owner : forall t, owner m = Some t -> alive ts t
}.

Lemma shape_start ts : shape ts (None, []).
Proof. split; cbn; [apply NoDup_nil_2|apply NoDup_nil_2|by intros t ?%not_elem_of_nil|done|done]. Qed.

(** What happens to the tasks that the mutex knows. *)
Lemma shape_mono ts ts' m :
  shape ts m ->
  (forall t, t ∈ (waiters m).*2 \/ owner m = Some t -> alive ts t -> alive ts' t) ->
  (forall p w, owner m = None -> waiters m = p :: w -> awake ts p.2 -> awake ts' p.2) ->
  shape ts' m.
Proof.
  intros [Hn Ht Ha Hf Ho] Hal Haw. split; [done|done| | |].
  - intros t Hin. apply Hal; [by left|by apply Ha].
  - intros Hnone. specialize (Hf Hnone). destruct (waiters m) as [|p w] eqn:E; [done|]. by eapply Haw.
  - intros t Hs. apply Hal; [by right|by apply Ho].
Qed.

(** A task that is not among the waiters, nor the owner, may change at will. *)
Lemma shape_other ts ts' t m :
  shape ts m -> t ∉ (waiters m).*2 -> owner m <> Some t -> (forall u, u <> t -> ts' !! u = ts !! u) ->
  shape ts' m.
Proof.
  intros H Hw Ho Hts. apply (shape_mono ts); [done| |].
  - intros u Hu (i & Hi & Hs). exists i. rw Hts; [done|]. intros ->. naive_solver.
  - intros p w _ Hp (i & Hi & Hs). exists i. rw Hts; [done|]. intros Heq. apply Hw. rw Hp fmap_cons Heq. by left.
Qed.

Lemma shape_new ts t i m : shape ts m -> ts !! t = None -> shape (<[t := i]> ts) m.
Proof.
  intros H Ht. apply (shape_other ts _ t); [done| | |].
  - intros Hin. destruct (sh_alive _ _ H t Hin) as (j & Hj & _). congruence.
  - intros Ho. destruct (sh_owner _ _ H t Ho) as (j & Hj & _). congruence.
  - intros u Hu. by rw lookup_insert_ne.
Qed.

(** The tasks after a task has suspended itself. *)
Lemma switch_state type s :
  type = HEV_TASK_SCHED_SWITCH \/ type = HEV_TASK_SCHED_WAITIO ->
  sched_wf s -> runs s ->
  exists j, s_tasks (s_switch type s) = <[s_current s := j]> (s_tasks s) /\
    ti_state j = if type =? HEV_TASK_SCHED_WAITIO then HEV_TASK_WAITING else HEV_TASK_RUNNING.
Proof.
  intros Hty [Hb _] Hr. destruct (sw_known _ Hb _ Hr) as [i Hi].
  pose proof (proj2 (sw_running _ Hb _ _ Hi) Hr) as Hst.
  destruct Hty as [->| ->]; unfold s_switch, s_reinsert, s_block, s_charge, s_set_key;
    cbn; rw !(info_some s _ i Hi) !info_insert !insert_insert_eq; by eexists.
Qed.

(** A waiter at the head of a free mutex does not go to sleep. *)
Lemma shape_switch type s m :
  type = HEV_TASK_SCHED_SWITCH \/ type = HEV_TASK_SCHED_WAITIO -> sched_wf s -> runs s ->
  (type = HEV_TASK_SCHED_WAITIO -> not_first (s_current s) m) ->
  shape (s_tasks s) m -> shape (s_tasks (s_switch type s)) m.
Proof.
  intros Hty Hwf Hr Hnf Hsh. destruct (switch_state type s Hty Hwf Hr) as (j & -> & Hj).
  apply (shape_mono (s_tasks s)); [done| |].
  - intros t _ (i & Hi & Hs). destruct (decide (t = s_current s)) as [->|Hne].
    + exists j. rw lookup_insert_eq Hj. split; [done|]. by destruct (_ =? _).
    + exists i. by rw lookup_insert_ne.
  - intros p w Ho Hw (i & Hi & Hs). destruct (decide (p.2 = s_current s)) as [Heq|Hne].
    + exists j. rw Heq lookup_insert_eq Hj. split; [done|].
      destruct (Z.eqb_spec type HEV_TASK_SCHED_WAITIO) as [E|_]; [|done].
      specialize (Hnf E Ho). rw Hw in Hnf. done.
    + exists i. by rw lookup_insert_ne.
Qed.

(** Wakeups do not disturb it. *)
Lemma shape_wakeup s t m : wakeable s t -> shape (s_tasks s) m -> shape (s_tasks (s_wakeup t s)) m.
Proof.
  intros Ht Hsh. apply (shape_mono (s_tasks s)); [done| |].
  - intros u _ Hu. destruct Ht as (i & Hi & _). by apply (wakeup_keeps s t i u).
  - intros p w _ _ Hp. by apply wakeup_keeps_running.
Qed.

(** ** The system as a kernel of the mutex *)

Section kernel.
Context `{HA : !Allocator} (ctx tm : Z) (L : list Z) (J : jobs) (T : timers).

Definition run_inv (s : sched) : heapProp := (counted ctx tm s L J T ∗ ⌞all_live s /\ runs s⌟)%I.

#[export] Program Instance run_kernel : Kernel := {|
  k_state := sched;
  k_inv := run_inv;
  k_current := s_current;
  k_alive := wakeable;
  k_running := running;
  k_wake := s_wakeup
|}.
Next Obligation.
  iIntros (s) "[HS %Hp]". unfold hev_task_self, hev_task_system_get_context.
  iDestruct (counted_tls with "HS") as "[Ht HS]". wp_load. iDestruct ("HS" with "Ht") as "HS".
  iDestruct (current_stays with "HS") as "[Hc HS]". wp_load.
  iSplitR; [done|]. iSplitL; [by iApply "HS"|done].
Qed.
Next Obligation.
  iIntros (s) "[HS %Hp]". iDestruct (runs_pos with "HS") as %[Hpos _]; [by destruct Hp|done|].
  iPureIntro. lia.
Qed.
Next Obligation.
  iIntros (s t (i & Hi & _)) "[HS _]". iDestruct (counted_pure with "HS") as %(_ & [Hb _] & _). iPureIntro.
  pose proof (sw_addr _ Hb _ _ Hi). lia.
Qed.
Next Obligation.
  iIntros (s) "[HS %Hp]". iDestruct (counted_pure with "HS") as %(_ & [Hb _] & _). iPureIntro.
  destruct Hp as [Hl Hr]. destruct (sw_known _ Hb _ Hr) as [i Hi]. exists i. split; [done|by apply (Hl _ _ Hi)].
Qed.
Next Obligation.
  iIntros (s t (i & Hi & Hst)) "[HS %Hp]". destruct Hp as [Hl Hr].
  iDestruct (counted_pure with "HS") as %(_ & Hwf & Hsame).
  iDestruct (counted_sleepers with "HS") as %[Hok _].
  unfold hev_task_wakeup, hev_task_system_wakeup_task, hev_task_system_get_context.
  iDestruct (counted_tls with "HS") as "[Ht HS]". wp_load. iDestruct ("HS" with "Ht") as "HS".
  iDestruct (counted_sched with "HS") as "[Hs HS]". iApply wp_wand.
  iSplitL "Hs"; [by iApply (wp_wakeup with "Hs")|]. iIntros (_) "Hs". iSplitL.
  - iApply ("HS" with "[%] Hs"). split_and!; [by eapply wakeup_wf|by eapply wakeup_same|].
    apply (woken_sleepers T s); [|done]. apply rtc_once. exists t. split; [by exists i|done].
  - iPureIntro. split; [by eapply wakeup_live|by eapply wakeup_runs].
Qed.
Next Obligation. intros s t. apply wakeup_running. Qed.
Next Obligation. intros s t. apply wakeup_current. Qed.
Next Obligation. intros s t u (i & Hi & _). by eapply wakeup_keeps. Qed.
Next Obligation. intros s t u. apply wakeup_keeps_running. Qed.
Next Obligation.
  iIntros (Y HY type s Q) "[[HS %Hp] HK]". iDestruct (runs_pos with "HS") as %[Hpos _]; [by destruct Hp|done|].
  unfold hev_task_yield, hev_task_system_schedule, hev_task_system_get_context. cbn [cwp].
  iDestruct (counted_tls with "HS") as "[Ht HS]". wp_load. iDestruct ("HS" with "Ht") as "HS".
  cbn [cwp]. iDestruct (current_stays with "HS") as "[Hc HS]". wp_load. iDestruct ("HS" with "Hc") as "HS".
  rw (proj2 (is_true_spec _)); [|lia]. cbn [cwp co_bind call].
  iApply (yield_mono' type (Q tt)); [iIntros "H" (a); iExact "H"|]. iApply "HK". by iFrame.
Qed.
End kernel.

(** What the tasks share: the mutex, and the nodes of the tasks that have
    ended. *)
Abbreviation shared := (mstate * list Z)%type.

Definition keeps (t : Z) (u u' : shared) : Prop := MutexProofs.rely t u.1 u'.1.

#[export] Instance keeps_preorder t : PreOrder (keeps t).
Proof.
  split.
  - intros u. apply rely_refl.
  - intros u1 u2 u3. apply rely_trans.
Qed.

(** The local variables of a task: its node of the mutex and its node of the
    timer. *)
Definition nap_node (base : Z) : Z := base + 64.

Definition own_nap (base : Z) : heapProp :=
  (stack_tnode (nap_node base) ∗ ⌞aligned (nap_node base)⌟)%I.

Definition locals (base : Z) : heapProp := (stack_mnode base ∗ own_nap base)%I.

Definition nodes (l : list Z) : heapProp := ([∗ list] n ∈ l, locals n)%I.

Definition mutex_shared (self : Z) (R : heapProp) (ts : gmap Z tinfo) (u : shared) : heapProp :=
  (is_mutex self R u.1 ∗ nodes u.2 ∗ ⌞shape ts u.1⌟)%I.

Lemma mutex_wakes self R : wake_closed (mutex_shared self R).
Proof. intros s t u Ht. iIntros "($ & $ & %Hsh)". iPureIntro. by apply shape_wakeup. Qed.

Section tasks.
Context `{HA : !Allocator} (ok : ext -> answer -> Prop) (ctx tm self : Z) (R : heapProp).

Abbreviation nothing_left := (fun _ : Z * Z => emp%I : heapProp).
Abbreviation taken := (take ctx tm (mutex_shared self R) nothing_left).
Abbreviation gwpm := (gwp ok (rely keeps) ctxs taken (give ctx tm (mutex_shared self R) nothing_left)).
Abbreviation works := (working ctx tm keeps nothing_left).

(** Task [t] at work, with the mutex in the state [m]; it does not sleep. *)
Definition at_work (t : Z) (g : ghost shared) (m : mstate) : heapProp :=
  (∃ s T l, works t g s T (m, l) ∗ is_mutex self R m ∗ nodes l ∗
    ⌞shape (s_tasks s) m /\ no_nap t T⌟)%I.

(** A step of [t] itself. *)
Lemma works_step t g s T m m' l : guarantee t m m' -> works t g s T (m, l) ⊢ works t g s T (m', l).
Proof.
  intros Hg. iIntros "($ & $ & %Hp)". iPureIntro. destruct Hp as [Hs Hu]. split; [done|]. intros v Hv.
  destruct (Hu v Hv) as [Hn Hk]. split; [done|]. eapply rely_trans; [exact Hk|]. by apply (guarantee_rely t).
Qed.

Lemma work_fold t g s T l m o w :
  guarantee t m (o, w) -> shape (s_tasks s) (o, w) -> no_nap t T ->
  works t g s T (m, l) ∗ nodes l ∗
  mutex_locker self ↦ (match o with Some _ => 1 | None => 0 end) ∗ mutex_waiters self ↦ wptr w ∗ wseg w ∗
  (match o with Some _ => emp | None => R end)
  ⊢ at_work t g (o, w).
Proof.
  intros Hg Hsh Hnap. iIntros "(HW & Hn & Hl & Hw & Hs & HR)". iExists s, T, l.
  iSplitL "HW"; [by iApply works_step|]. iFrame "Hn".
  iSplitL; [|by iPureIntro]. unfold is_mutex. cbn [owner waiters fst snd]. iFrame "Hl Hw Hs HR".
Qed.

Lemma works_back t g s T u :
  works t g s T u ∗ mutex_shared self R (s_tasks s) u ∗ ⌞no_nap t T⌟ ⊢ at_work t g u.1.
Proof.
  iIntros "(HW & (Hm & Hn & %Hsh) & %Hnap)". iExists s, T, u.2. destruct u as [m l].
  iFrame "HW Hm Hn". by iPureIntro.
Qed.

Lemma taken_work t g : no_nap t (g_timers g) -> taken t g ⊢ at_work t g (g_user g).1.
Proof.
  intros Hnap. iIntros "Ht". iDestruct (take_working ctx tm keeps (mutex_shared self R) nothing_left with "Ht") as (s) "[HW HI]".
  iApply works_back. iFrame "HW HI". by iPureIntro.
Qed.

(** ** Suspensions *)

(** A task yields for a moment, or sleeps. *)
Inductive rest : Type :=
| Yield
| Sleep (milliseconds : Z).

Definition take_rest (base : Z) (r : rest) : co unit :=
  match r with
  | Yield => hev_task_yield HEV_TASK_YIELD
  | Sleep ms => hev_task_sleep ms (nap_node base) ~;; Ret tt
  end.

Definition rest_ok (r : rest) : Prop := match r with Yield => True | Sleep ms => 0 <= ms end.

Lemma works_wf t g s T u :
  works t g s T u -∗ ⌜(all_live s /\ s_current s = t /\ runs s) /\ sched_wf s /\ alive (s_tasks s) t⌝.
Proof.
  iIntros "(HS & _ & %Hp)". destruct Hp as [Hp _]. iDestruct (counted_pure with "HS") as %(_ & Hwf & _).
  iPureIntro. split_and!; [apply Hp..|done|]. destruct Hp as (Hl & <- & Hr).
  destruct (sw_known _ (proj1 Hwf) _ Hr) as [i Hi]. exists i. split; [done|by apply (Hl _ _ Hi)].
Qed.

(** A task at work suspends itself: not as the first waiter of a free mutex. *)
Lemma shared_switch type t g s T m l :
  type = HEV_TASK_SCHED_SWITCH \/ type = HEV_TASK_SCHED_WAITIO ->
  (type = HEV_TASK_SCHED_WAITIO -> not_first t m) -> shape (s_tasks s) m ->
  works t g s T (m, l) ∗ is_mutex self R m ∗ nodes l
  ⊢ works t g s T (m, l) ∗ mutex_shared self R (s_tasks (s_switch type s)) (m, l).
Proof.
  intros Hty Hnf Hsh. iIntros "(HW & $ & $)". iDestruct (works_wf with "HW") as %[(_ & <- & Hr) [Hwf _]].
  iFrame "HW". iPureIntro. by apply shape_switch.
Qed.

Lemma gwp_suspend t g type m Q :
  type = HEV_TASK_SCHED_SWITCH \/ type = HEV_TASK_SCHED_WAITIO ->
  (type = HEV_TASK_SCHED_WAITIO -> not_first t m) ->
  at_work t g m ∗ (∀ g' m', ⌜MutexProofs.rely t m m'⌝ → at_work t g' m' -∗ Q g' tt)
  ⊢ gwpm t g (hev_task_yield type) Q.
Proof.
  intros Hty Hnf. iIntros "[(%s & %T & %l & HW & Hm & Hn & %Hp) HQ]". destruct Hp as [Hsh Hnap].
  iApply (gwp_task_yield ok ctx tm keeps (mutex_shared self R) nothing_left t g type s T (m, l)); [done|].
  iDestruct (shared_switch type with "[$HW $Hm $Hn]") as "[$ $]"; [done..|].
  iIntros (g2 [Hn Hu]) "Ht". iApply ("HQ" with "[%] [Ht]"); [exact Hu|].
  iApply taken_work; [by eapply same_no_nap|done].
Qed.

Lemma gwp_rest t base g r m Q :
  rest_ok r -> not_first t m ->
  at_work t g m ∗ own_nap base ∗
  (∀ g' m', ⌜MutexProofs.rely t m m'⌝ → at_work t g' m' -∗ own_nap base -∗ Q g' tt)
  ⊢ gwpm t g (take_rest base r) Q.
Proof.
  intros Hr Hnf. iIntros "(Hw & [Hn %Hal] & HQ)". destruct r as [|ms]; cbn [take_rest].
  - iApply gwp_suspend; [by left|done|]. iFrame "Hw". iIntros (g' m' Hm) "Hw".
    iApply ("HQ" with "[//] Hw"). by iFrame "Hn".
  - cbn in Hr. destruct (Z.eqb_spec ms 0) as [->|Hne].
    { cbn. iApply ("HQ" with "[%] Hw [Hn]"); [apply rely_refl|]. by iFrame "Hn". }
    iApply gwp_bind. iDestruct "Hw" as "(%s & %T & %l & HW & Hm & Hns & %Hp)". destruct Hp as [Hsh Hnap].
    iApply (gwp_task_sleep ok ctx tm keeps (mutex_shared self R) nothing_left (mutex_wakes self R) t g s T (m, l)); [done|lia|].
    iDestruct (shared_switch HEV_TASK_SCHED_WAITIO with "[$HW $Hm $Hns]") as "[$ $]"; [by right|done..|].
    iFrame "Hn". iIntros (g' s' T' v [Hna Hu]) "HW HI Hn". cbn [gwp]. iApply ("HQ" with "[%] [HW HI] [Hn]"); [exact Hu| |by iFrame "Hn"].
    iApply works_back. iFrame "HW HI". iPureIntro. by eapply same_no_nap.
Qed.

(** ** Locking *)

Definition in_line (t node : Z) (g : ghost shared) : heapProp :=
  (∃ m, at_work t g m ∗ own_nap node ∗ ⌞not_first t m /\ (node, t) ∈ waiters m⌟)%I.

Lemma gwp_mutex_wait t node g u :
  in_line t node g ⊢ gwpm t g (mutex_wait self node u) (fun g r =>
    match r with inl _ => in_line t node g | inr _ => (∃ w, at_work t g (None, (node, t) :: w)) ∗ own_nap node end).
Proof.
  iIntros "(%m & Hm & Hz & %Hp)". destruct Hp as [Hnf Hin]. unfold mutex_wait. iApply gwp_bind.
  iApply gwp_suspend; [by right|done|]. iFrame "Hm".
  iIntros (g2 m' [_ Hw]) "(%s & %T & %l & HS & (Hl & Hwt & Hs & HR) & Hn & %Hp)". apply Hw in Hin.
  destruct m' as [o w]. cbn [owner waiters fst snd] in *. destruct Hp as [Hsh Hnap].
  pose proof (guarantee_refl t (o, w)) as Hg.
  cbn [gwp]. wp_load. destruct o as [v|].
  - change (is_true 1) with true. cbv iota. cbn [gwp]. iExists (Some v, w). iFrame "Hz". iSplitL; [|by iPureIntro].
    iApply (work_fold t g2 s T l); [done..|]. iFrame "HS Hn Hl Hwt Hs HR".
  - change (is_true 0) with false. cbv iota. cbn [gwp]. wp_load.
    destruct w as [|[n v] w]; [by apply not_elem_of_nil in Hin|]. cbn [wptr wseg fst].
    destruct (Z.eqb_spec n node) as [->|Hne]; cbn [negb].
    + assert (v = t) as -> by (eapply (waiter_at _ node); [apply Hsh|by left|done]).
      iFrame "Hz". iExists w. iApply (work_fold t g2 s T l); [done..|]. iFrame "HS Hn Hl Hwt Hs HR".
    + iExists (None, (n, v) :: w). iFrame "Hz". iSplitL; [iApply (work_fold t g2 s T l); [done..|]; iFrame "HS Hn Hl Hwt Hs HR"|].
      iPureIntro. split; [|done]. intros _. cbn. intros ->. apply Hne.
      eapply (task_at _ _ _ t); [apply Hsh|by left|done].
Qed.

(** A task that waits joins the waiters. *)
Lemma shape_push ts o w n t :
  shape ts (o, w) -> is_Some o -> alive ts t -> t ∉ w.*2 -> n ∉ w.*1 -> shape ts (o, (n, t) :: w).
Proof.
  intros [Hn Ht Ha _ Ho] [v ->] Hal Hnt Hnn. cbn [owner waiters fst snd] in *. split; cbn.
  - by constructor.
  - by constructor.
  - intros u [->|Hu]%elem_of_cons; [done|by apply Ha].
  - done.
  - done.
Qed.

(** The first waiter of a free mutex takes it. *)
Lemma shape_pop ts w n t : shape ts (None, (n, t) :: w) -> shape ts (Some t, w) /\ t ∉ w.*2.
Proof.
  intros [Hn Ht Ha _ _]. cbn in *. apply NoDup_cons in Hn as [_ Hn]. apply NoDup_cons in Ht as [Hnt Ht].
  split; [|done]. split; cbn; [done|done| |done|].
  - intros u Hu. apply Ha. by right.
  - intros u [= <-]. apply Ha. by left.
Qed.

Lemma shape_take ts w t : shape ts (None, w) -> alive ts t -> shape ts (Some t, w).
Proof. intros [Hn Ht Ha _ _] Hal. split; cbn in *; [done|done|done|done|]. by intros u [= <-]. Qed.

Lemma wp_self t g s T u : works t g s T u ⊢ wp hev_task_self (fun r => ⌞r = t⌟ ∗ works t g s T u).
Proof.
  iIntros "(HS & HD & %Hp)". destruct Hp as [(Hl & Hc & Hr) Hu]. iApply wp_wand. iSplitL "HS".
  - iApply (@k_self (run_kernel ctx tm (g_tasks g) (g_jobs g) T) s). iSplitL; [iExact "HS"|done].
  - iIntros (r) "[-> [HS _]]". iSplitR; [done|]. iSplitL "HS"; [iExact "HS"|]. iSplitL; [iExact "HD"|by iPureIntro].
Qed.

Lemma gwp_mutex_lock t node g m :
  t ∉ (waiters m).*2 ->
  at_work t g m ∗ locals node
  ⊢ gwpm t g (hev_task_mutex_lock self node) (fun g r => ⌞r = 0⌟ ∗ R ∗ locals node ∗
      ∃ w, at_work t g (Some t, w) ∗ ⌞t ∉ w.*2⌟).
Proof.
  intros Hni. iIntros "[(%s & %T & %l & HS & (Hl & Hw & Hs & HR) & Hnd & %Hp) ((%Hn & %x & %y & Hnx & Hnt) & Hz)]".
  destruct Hp as [Hsh Hnap]. iDestruct (works_wf with "HS") as %[_ [_ Hal]].
  destruct m as [[v|] w]; cbn [owner waiters fst snd] in *; unfold hev_task_mutex_lock; cbn [gwp]; wp_load.
  - change (is_true 1) with true. cbn [co_when]. iApply gwp_bind. cbn [gwp co_bind].
    wp_load. wp_store. iApply wp_wand. iSplitL "HS"; [by iApply (wp_self with "HS")|]. iIntros (r) "[-> HS]".
    wp_store. wp_store. iClear "HR". iDestruct (wseg_fresh with "[$Hnx $Hs]") as %Hfr.
    iApply gwp_bind. iApply gwp_mono; [|iApply (gwp_while _ _ _ _ _ _ _ (fun g _ => in_line t node g) g tt
      (fun g _ => (∃ w, at_work t g (None, (node, t) :: w)) ∗ own_nap node)%I)].
    + intros g1 []. iIntros "[(%w1 & %s1 & %T1 & %l1 & HS & (Hl & Hw & (%_ & Hnx & Hnt & Hs) & HR) & Hnd & %Hp) Hz]".
      destruct Hp as [Hsh1 Hnap1]. destruct (shape_pop _ _ _ _ Hsh1) as [Hsh2 Hni1].
      cbn [gwp act waiters owner fst snd]. wp_load. wp_store. wp_store. iSplitR; [done|]. iFrame "HR".
      iSplitL "Hnx Hnt Hz"; [iFrame "Hz"; iSplitR; [done|]; iExists _, _; iFrame|].
      iExists w1. iSplitL; [|done]. iApply (work_fold t g1 s1 T1 l1); [apply guarantee_pop|done..|].
      iFrame "HS Hnd Hl Hw Hs".
    + intros g1 u. apply gwp_mutex_wait.
    + iExists (Some v, (node, t) :: w). iFrame "Hz". iSplitL; [|iPureIntro; split; [done|by left]].
      iApply (work_fold t g s T l); [apply guarantee_push|apply shape_push; [done|by exists v|done..]|done|].
      iFrame "HS Hnd Hl Hw". cbn [wseg]. by iFrame "Hnx Hnt Hs".
  - change (is_true 0) with false. cbn [co_when co_bind gwp]. wp_store.
    iSplitR; [done|]. iFrame "HR". iSplitL "Hnx Hnt Hz"; [iFrame "Hz"; iSplitR; [done|]; iExists _, _; iFrame|].
    iExists w. iSplitL; [|done]. iApply (work_fold t g s T l (None, w)); [|by apply shape_take|done|].
    { apply guarantee_owner; [by left|by right]. }
    iFrame "HS Hnd Hl Hw Hs".
Qed.

(** ** Unlocking, and what a task does *)

Lemma wp_work_unlock t g w :
  at_work t g (Some t, w) ∗ R
  ⊢ wp (hev_task_mutex_unlock self) (fun _ => at_work t g (None, w)).
Proof.
  iIntros "[(%s & %T & %l & (HS & HD & %Hu) & Hm & Hn & %Hp) HR]". destruct Hu as [(Hl & Hc & Hr) Hu], Hp as [Hsh Hnap].
  iApply wp_wand. iSplitR "Hn HD".
  - iApply (@wp_unlock (run_kernel ctx tm (g_tasks g) (g_jobs g) T) self R t s (Some t, w) eq_refl Hc).
    iFrame "HR". iSplitL "HS"; [iSplitL "HS"; [iExact "HS"|done]|]. iFrame "Hm". iPureIntro.
    split; [apply Hsh|apply Hsh| |done]. apply Forall_forall. intros u Hin. by apply Hsh.
  - iIntros (r) "(_ & %s' & ([HS %Hs'] & (Hl & Hw & Hs & HR) & %Hwf) & %Hc')".
    destruct Hs' as [Hl' Hr'], Hwf as [Hnd Htd Hal Hf]. cbn [owner waiters fst snd] in *.
    iApply (work_fold t g s' T l (Some t, w)); [apply guarantee_owner; [by right|by left]| |done|].
    + split; cbn [owner waiters fst snd]; [done|done| |exact Hf|done].
      intros u Hin. by apply (proj1 (Forall_forall _ _) Hal).
    + iSplitL "HS HD"; [iSplitL "HS"; [iExact "HS"|iSplitL; [iExact "HD"|by iPureIntro]]|]. iFrame "Hn Hl Hw Hs HR".
Qed.

(** The work of a task under the mutex, with a suspension in the middle, and a
    suspension outside. *)
Record critical : Type := Critical { sec_first : co Z; sec_second : Z -> co unit }.

Inductive action : Type :=
| Locked (c : critical) (r : rest)
| Pause (r : rest).

Definition perform (base : Z) (o : action) : co unit :=
  match o with
  | Locked c r =>
      hev_task_mutex_lock self base ~;;
      x <~ sec_first c ;;
      take_rest base r ~;;
      sec_second c x ~;;
      hev_task_mutex_unlock self !;;
      Ret tt
  | Pause r => take_rest base r
  end.

Definition client (base : Z) (l : list action) : co unit := co_for l (perform base).

(** Each part of a section works on the resource alone. *)
Definition critical_ok (c : critical) : Prop :=
  plain_tree (sec_first c) /\ (forall x, plain_tree (sec_second c x)) /\
  exists S : Z -> heapProp,
    (R ⊢ cwp no_yield (sec_first c) S) /\ forall x, S x ⊢ cwp no_yield (sec_second c x) (fun _ => R).

Definition action_ok (o : action) : Prop :=
  match o with Locked c r => critical_ok c /\ rest_ok r | Pause r => rest_ok r end.

(** Task [t] between two actions. *)
Definition idle (t base : Z) (g : ghost shared) : heapProp :=
  (∃ m, at_work t g m ∗ locals base ∗ ⌞owner m <> Some t /\ t ∉ (waiters m).*2⌟)%I.

Lemma idle_not_first t m : t ∉ (waiters m).*2 -> not_first t m.
Proof. intros Hni _. destruct (waiters m) as [|p w]; [done|]. intros <-. apply Hni. by left. Qed.

Lemma rely_idle t m m' :
  MutexProofs.rely t m m' -> t ∉ (waiters m).*2 -> t ∉ (waiters m').*2.
Proof.
  intros [_ Hw] Hni Hin. apply Hni. apply list_elem_of_fmap in Hin as ([n u] & -> & Hin).
  apply list_elem_of_fmap. exists (n, u). split; [done|by apply Hw].
Qed.

Lemma gwp_perform t base g o :
  action_ok o -> idle t base g ⊢ gwpm t g (perform base o) (fun g _ => idle t base g).
Proof.
  intros Ho. iIntros "(%m & Hm & Hn & %Hp)". destruct Hp as [Hnt Hni]. destruct o as [c r|r]; cbn [perform].
  - destruct Ho as ((Hp1 & Hp2 & S & H1 & H2) & Hr). iApply gwp_bind.
    iApply gwp_mono; [|iApply (gwp_mutex_lock t base g m Hni); iFrame "Hm Hn"].
    intros g1 v. iIntros "(_ & HR & [Hn Hz] & %w & Hm & %Hnw)".
    iApply gwp_plain; [exact Hp1|]. iSplitL "HR"; [by iApply H1|]. iIntros (x) "HS". iApply gwp_bind.
    iApply (gwp_rest t base g1 r (Some t, w)); [exact Hr|by intros ?|]. iFrame "Hm Hz". iIntros (g2 m2 Hrel) "Hm Hz".
    assert (owner m2 = Some t) as Ho2 by by apply Hrel.
    pose proof (rely_idle _ _ _ Hrel Hnw) as Hnw2. destruct m2 as [o2 w2]. cbn [owner waiters fst snd] in *. subst o2.
    iApply gwp_plain; [apply Hp2|]. iSplitL "HS"; [by iApply H2|]. iIntros (u) "HR". cbn [gwp].
    iApply wp_wand. iSplitL "Hm HR"; [iApply wp_work_unlock; iFrame "Hm HR"|]. iIntros (r2) "Hm".
    iExists (None, w2). iFrame "Hm Hn Hz". by iPureIntro.
  - iDestruct "Hn" as "[Hn Hz]". iApply gwp_rest; [exact Ho|by apply idle_not_first|]. iFrame "Hm Hz".
    iIntros (g2 m2 Hrel) "Hm Hz". iExists m2. iFrame "Hm Hn Hz".
    iPureIntro. split; [|by eapply rely_idle]. intros Ho2. apply Hnt. by apply Hrel.
Qed.

Lemma gwp_client t base g l :
  Forall action_ok l -> idle t base g ⊢ gwpm t g (client base l) (fun g _ => idle t base g).
Proof.
  intros Hl. apply gwp_for. intros g1 o Ho. apply gwp_perform. by eapply Forall_forall.
Qed.

(** A task that has been created does not know the mutex yet. *)
Lemma taken_idle t base g :
  keeps t ((None, []), []) (g_user g) -> no_nap t (g_timers g) -> taken t g ∗ locals base ⊢ idle t base g.
Proof.
  intros Hk Hnap. iIntros "[Ht Hn]". iExists (g_user g).1. iFrame "Hn". iSplitL; [by iApply taken_work|].
  iPureIntro. split.
  - intros Ho. by apply Hk in Ho.
  - eapply rely_idle; [exact Hk|]. by apply not_elem_of_nil.
Qed.

(** A task ends between two actions. *)
Lemma idle_ending t base p g : idle t base g ⊢ ending ctx tm keeps (mutex_shared self R) nothing_left t p g.
Proof.
  iIntros "(%m & (%s & %T & %l & (HS & HD & %Hu) & Hm & Hns & %Hp) & Hn & %Hi)". destruct Hp as [Hsh Hnap], Hi as [Ho Hw].
  iExists s, T, (m, base :: l). iSplitL "HS HD"; [iFrame "HS HD"; by iPureIntro|]. iSplitL; [|iSplitR; [done|by iPureIntro]].
  iFrame "Hm Hn Hns". iPureIntro. apply (shape_other (s_tasks s) _ t); [done..|].
  intros u Hne. by rw lookup_delete_ne.
Qed.
End tasks.

(** ** The whole program *)

Definition clients (self : Z) (scripts : Z -> list action) (entry data : Z) : co unit :=
  client self data (scripts entry).

(** The mutex is made before the tasks; the data of a job says where its local
    variables are. *)
Definition mutex_program (self : Z) (jobs : list job) : co Z :=
  hev_task_mutex_init self !;; program jobs.

(** C2. Tasks share a mutex and what it protects: each locks, works on the
    resource, yields or sleeps in the middle of its work, goes on and unlocks,
    as often as it likes, and yields or sleeps in between.  In the whole
    program, from the start of the task system to its end, with the scheduler,
    the wakeups of the mutex and of the timer, and every switch of stacks, nothing faults and no
    task works on the resource but the one that holds the mutex; when the
    program ends the mutex is free and has no waiters, the resource is back, and
    so is all other memory.  The program returns -1, or the number of jobs for
    which there was no memory for a task, as [program_runs] says. *)
Theorem mutex_program_safe self R scripts jobs :
  Z.of_nat (length jobs) < 2 ^ 32 ->
  (forall j, j ∈ jobs -> Forall (action_ok R) (scripts (job_entry j))) ->
  no_system ∗ R ∗ (∃ v w, mutex_locker self ↦ v ∗ mutex_waiters self ↦ w) ∗
    ([∗ list] j ∈ jobs, locals (job_data j))
  ⊢ solo_ok (fun _ => quiet_world) no_step (in_kernel (clients self scripts) (mutex_program self jobs) ∅)
      (fun r => life_over (Z.min r 0) ∗ R ∗ (mutex_locker self ↦ 0 ∗ mutex_waiters self ↦ NULL) ∗
         ∃ l, nodes l) tt.
Proof.
  intros Hlen Hok. rw -solo_sound. iIntros "(HN & HR & (%v & %w & Hl & Hw) & Hns)".
  unfold mutex_program. cbn [in_kernel]. iApply twp_act. unfold hev_task_mutex_init. wp_store. wp_store. wp_norm.
  iApply twp_wand. iSplitL.
  - iApply (qtwp_program _ keeps (mutex_shared self R) (fun _ => emp)%I (fun j => locals (job_data j)) jobs ((None, []), []) Hlen).
    + split_and!.
      * intros ts t i u Ht. iIntros "($ & $ & %Hsh)". iPureIntro. by apply shape_new.
      * apply mutex_wakes.
      * intros k slf ctx tm j t g Hj _ _ Hu Hnap. iIntros "[Hn Ht]". iApply gwp_mono;
          [|iApply (@gwp_client (kind_allocator k slf)); [by apply Hok|]; iApply taken_idle; [exact Hu|exact Hnap|]; iFrame].
        intros g' []. apply idle_ending.
    + iFrame "HN Hns". iSplitL; [|iSplitR; [by unfold nodes|]; iPureIntro; apply shape_start].
      unfold is_mutex. cbn. iFrame "Hl Hw HR".
  - iIntros (r) "($ & (%u & (Hl & Hw & Hs & HR) & Hns & %Hsh) & %ran & %left & %Hr & _ & Hleft)".
    iSplitR; [iPureIntro; destruct Hr as [_ [->|[-> _]]]; lia|].
    destruct u as [[o ws] l]. cbn [fst snd owner waiters] in *.
    destruct ws as [|p ws]; [|destruct (sh_alive _ _ Hsh p.2) as (i & Hi & _); [by left|done]].
    destruct o as [t|]; [destruct (sh_owner _ _ Hsh t eq_refl) as (i & Hi & _); done|].
    cbn [wptr wseg]. iFrame "HR Hl Hw". iExists (l ++ (job_data <$> left)). unfold nodes. rw big_sepL_app big_sepL_fmap.
    iFrame.
Qed.

(** A counter: between the read and the write the processor is given up. *)
Definition increment (cell : Z) : critical :=
  Critical (act (load cell)) (fun v => act (store cell (v + 1))).

Definition some_value (cell : Z) : heapProp := (∃ v, cell ↦ v)%I.

Lemma increment_ok cell : critical_ok (some_value cell) (increment cell).
Proof.
  split_and!; [cbn; by intros|cbn; by intros|]. exists (fun v => cell ↦ v)%I. split.
  - iIntros "[%v H]". cbn [increment sec_first act cwp]. by wp_load.
  - intros v. iIntros "H". cbn [increment sec_second act cwp]. wp_store. by iExists _.
Qed.

Definition two_counters (_ : Z) : list action := [Locked (increment 45056) (Sleep 10); Pause (Sleep 5); Locked (increment 45056) Yield].

Lemma mutex_program_safe_witness :
  no_system ∗ some_value 45056 ∗ (∃ v w, mutex_locker 40960 ↦ v ∗ mutex_waiters 40960 ↦ w) ∗
    ([∗ list] j ∈ [Job 1 1 16384; Job 1 1 16640], locals (job_data j))
  ⊢ solo_ok (fun _ => quiet_world) no_step
      (in_kernel (clients 40960 two_counters) (mutex_program 40960 [Job 1 1 16384; Job 1 1 16640]) ∅)
      (fun r => life_over (Z.min r 0) ∗ some_value 45056 ∗ (mutex_locker 40960 ↦ 0 ∗ mutex_waiters 40960 ↦ NULL) ∗
         ∃ l, nodes l) tt.
Proof.
  apply (mutex_program_safe 40960 (some_value 45056) two_counters [Job 1 1 16384; Job 1 1 16640]); [done|].
  intros j _. unfold two_counters.
  constructor; [by split; [exact (increment_ok 45056)|]|constructor; [done|constructor; [by split; [exact (increment_ok 45056)|]|constructor]]].
Defined.

(** The cells of the local variables. *)
Definition local_cells (base : Z) : list Z :=
  [base; base + 8] ++ map (Z.add (nap_node base)) [0; 8; 16; 24; 32; 40].

(** Two tasks that add two each, and sleep meanwhile. *)
Example counter_runs :
  let c := in_kernel (clients 40960 two_counters) (mutex_program 40960 [Job 1 1 16384; Job 1 1 16640]) ∅ in
  let m := fresh_mem ([40960; 40968; 45056] ++ local_cells 16384 ++ local_cells 16640) in
  match drive machine_respond 32 (Machine 65536 0 [] false) c m with
  | Ended r _ m' => Some (r, m' !! 45056, bool_decide (dom m' = dom m))
  | _ => None
  end = Some (0, Some 4, true).
Proof. by vm_compute. Qed.
