(* ===== verification/Arch.v ===== *)
(** * The stack switch: [arch] and [kern/task/hev-task-execute.S]

    [hev_task_execute (self, entry)] calls [entry] on the stack whose top is
    the first word of [self], and comes back on the stack of its caller.  It is
    assembly, one routine per architecture; here each routine is a list of the
    instructions it is written with, run by a word machine that has a register
    file, the memory of cells and a program counter.  Instructions take four
    bytes each, since nothing depends on their real length.  The macros of the
    assemblers stand for what they assemble to; a delay slot is the next
    instruction of the list.

    The second part has the calling conventions of the architectures, which
    are data: where arguments and return addresses are, which registers and
    which part of the frame of its caller a function must leave alone.  The
    third part is [hev_task_longjmp], which replaces [longjmp] on Windows, with
    the layout of its buffer that the files [hev-task-arch-*.c] check.
    [ArchProps] has the theorems. *)

From Stdlib Require Import String.
From S2P Require Import Prelude.

Local Open Scope string_scope.
Local Open Scope list_scope.
Local Open Scope Z_scope.

(** ** The machine *)

Abbreviation reg := string.

Record machine : Type := Machine {
  pc : Z;
  rf : reg -> Z;
  st : mem;
}.

Inductive insn : Type :=
| Ld (r b : reg) (o : Z)        (** [r := [b + o]] *)
| Ld2 (r1 r2 b : reg) (o : Z)   (** two neighbouring words *)
| St (r b : reg) (o : Z)        (** [[b + o] := r] *)
| St2 (r1 r2 b : reg) (o : Z)
| Push (r b : reg)              (** [b := b - word; [b] := r] *)
| Pop (r b : reg)               (** [r := [b]; b := b + word] *)
| Push2 (r1 r2 b : reg)
| Pop2 (r1 r2 b : reg)
| Add (r s : reg) (i : Z)
| Mov (r s : reg)
| Nop
| MovL (r s : reg)              (** the low 32 bits, the rest cleared *)
| IncL (r : reg)
| CsincL (r : reg)              (** [r], or 1 when the flag says zero *)
| TestL (r : reg)               (** the flag: whether the low 32 bits are 0 *)
| Fnclex                        (** clear the floating point exceptions *)
| Ldqa (r b : reg) (o : Z)      (** sixteen aligned bytes *)
| Jnz (k : Z)                   (** skip [k] instructions unless zero *)
| Jmp (r : reg)
| JmpM (b : reg) (o : Z)
| Call (l t : reg) (k : Z) (slot : bool)  (** [l := pc + k; pc := t] *)
| CallPush (t sp : reg)                   (** push [pc + 4]; [pc := t] *)
| Ret (r : reg) (k : Z) (slot : bool)     (** [pc := r + k] *)
| RetPop (sp : reg).

(** The zero flag, among the registers. *)
Definition ZF : reg := "zf".

Definition rset (r : reg) (v : Z) (f : reg -> Z) (x : reg) : Z :=
  if String.eqb x r then v else f x.

Definition res_bind {A B} (c : res A) (k : A -> res B) : res B :=
  match c with
  | Ok a => k a
  | Err e => Err e
  end.

Notation "x <-? c ; k" := (res_bind c (fun x => k))
  (at level 100, c at next level, right associativity).

Definition set_reg (r : reg) (v : Z) (m : machine) : machine :=
  Machine (pc m) (rset r v (rf m)) (st m).

Definition goto (a : Z) (m : machine) : machine := Machine a (rf m) (st m).

Definition peek (a : Z) (m : machine) : res Z :=
  match st m !! a with
  | Some v => Ok v
  | None => Err Segv
  end.

Definition poke (a v : Z) (m : machine) : res machine :=
  match st m !! a with
  | Some _ => Ok (Machine (pc m) (rf m) (<[a := v]> (st m)))
  | None => Err Segv
  end.

Definition low32 (v : Z) : Z := Z.land v 0xffffffff.

Section Cpu.
(** Bytes per word; the code and where it is loaded. *)
Context (word : Z) (code : list insn) (loc : Z).

Definition wrap (x : Z) : Z := x mod 2 ^ (8 * word).

Definition fetch (a : Z) : option insn :=
  if (loc <=? a) && (a <? loc + 4 * Z.of_nat (length code)) then
    code !! Z.to_nat ((a - loc) / 4)
  else None.

(** The instructions that fall through; [pc] is left to [step]. *)
Definition simple (i : insn) (m : machine) : res machine :=
  let ea b o := wrap (rf m b + o) in
  match i with
  | Ld r b o => v <-? peek (ea b o) m; Ok (set_reg r v m)
  | Ld2 r1 r2 b o =>
      v1 <-? peek (ea b o) m;
      v2 <-? peek (ea b (o + word)) m;
      Ok (set_reg r2 v2 (set_reg r1 v1 m))
  | St r b o => poke (ea b o) (rf m r) m
  | St2 r1 r2 b o =>
      m1 <-? poke (ea b o) (rf m r1) m;
      poke (ea b (o + word)) (rf m r2) m1
  | Push r b =>
      m1 <-? poke (ea b (- word)) (rf m r) m;
      Ok (set_reg b (ea b (- word)) m1)
  | Pop r b =>
      v <-? peek (ea b 0) m;
      Ok (set_reg b (ea b word) (set_reg r v m))
  | Push2 r1 r2 b =>
      m1 <-? poke (ea b (- (2 * word))) (rf m r1) m;
      m2 <-? poke (ea b (- word)) (rf m r2) m1;
      Ok (set_reg b (ea b (- (2 * word))) m2)
  | Pop2 r1 r2 b =>
      v1 <-? peek (ea b 0) m;
      v2 <-? peek (ea b word) m;
      Ok (set_reg b (ea b (2 * word)) (set_reg r2 v2 (set_reg r1 v1 m)))
  | Add r s i => Ok (set_reg r (ea s i) m)
  | Mov r s => Ok (set_reg r (rf m s) m)
  | Nop => Ok m
  | MovL r s => Ok (set_reg r (low32 (rf m s)) m)
  | IncL r => Ok (set_reg r (low32 (rf m r + 1)) m)
  | CsincL r =>
      Ok (set_reg r (if rf m ZF =? 0 then low32 (rf m r) else 1) m)
  | TestL r => Ok (set_reg ZF (if low32 (rf m r) =? 0 then 1 else 0) m)
  | Fnclex => Ok (set_reg "fpsw" (Z.land (rf m "fpsw") 0x7f00) m)
  | Ldqa r b o =>
      if ea b o mod 16 =? 0 then
        v <-? peek (ea b o) m; Ok (set_reg r v m)
      else Err Segv
  | Jnz _ | Jmp _ | JmpM _ _ | Call _ _ _ _ | CallPush _ _ | Ret _ _ _
  | RetPop _ => Err Undefined
  end.

(** The instruction in the delay slot of the one at [pc]. *)
Definition delay (slot : bool) (m : machine) : res machine :=
  if slot then
    match fetch (pc m + 4) with
    | Some i => simple i m
    | None => Err Undefined
    end
  else Ok m.

Definition step (i : insn) (m : machine) : res machine :=
  match i with
  | Jnz k =>
      Ok (goto (pc m + 4 + (if rf m ZF =? 0 then 4 * k else 0)) m)
  | Jmp r => Ok (goto (rf m r) m)
  | JmpM b o => t <-? peek (wrap (rf m b + o)) m; Ok (goto t m)
  | Call l t k slot =>
      let target := rf m t in
      m1 <-? delay slot (set_reg l (pc m + k) m);
      Ok (goto target m1)
  | CallPush t sp =>
      let target := rf m t in
      let a := wrap (rf m sp - word) in
      m1 <-? poke a (pc m + 4) m;
      Ok (goto target (set_reg sp a m1))
  | Ret r k slot =>
      let target := wrap (rf m r + k) in
      m1 <-? delay slot m;
      Ok (goto target m1)
  | RetPop sp =>
      t <-? peek (wrap (rf m sp)) m;
      Ok (goto t (set_reg sp (wrap (rf m sp + word)) m))
  | _ => m1 <-? simple i m; Ok (goto (pc m + 4) m1)
  end.

(** Run until control leaves the code. *)
Fixpoint run_code (fuel : nat) (m : machine) : res machine :=
  match fetch (pc m) with
  | None => Ok m
  | Some i =>
      match fuel with
      | O => Err OutOfFuel
      | S n => m1 <-? step i m; run_code n m1
      end
  end.

Definition run_cpu (m : machine) : res machine := run_code (length code) m.
End Cpu.

(** ** The routines *)

Definition hev_task_execute_arc32 : list insn := [
  Ld "r2" "r0" 0;
  St "sp" "r2" (-0x0c);
  St "blink" "r2" (-0x10);
  Add "sp" "r2" (-0x10);
  Call "blink" "r1" 4 false;
  Ld "blink" "sp" 0;
  Ld "sp" "sp" 0x04;
  Ret "blink" 0 false].

Definition hev_task_execute_arm : list insn := [
  Ld "r3" "r0" 0;
  St "sp" "r3" (-0x4);
  St "lr" "r3" (-0x8);
  Add "sp" "r3" (-0x8);
  Call "lr" "r1" 4 false;
  Ld "lr" "sp" 0;
  Ld "sp" "sp" 0x4;
  Ret "lr" 0 false].

Definition hev_task_execute_aarch64 : list insn := [
  Ld "x3" "x0" 0;
  Mov "x4" "sp";
  St2 "x4" "x30" "x3" (-0x10);
  Add "sp" "x3" (-0x10);
  Call "x30" "x1" 4 false;
  Ld2 "x4" "x30" "sp" 0;
  Mov "sp" "x4";
  Ret "x30" 0 false].

Definition hev_task_execute_aarch64_win : list insn := [
  Push2 "x29" "x30" "sp";
  Mov "x29" "sp";
  Ld "x3" "x0" 0;
  Mov "sp" "x3";
  Call "x30" "x1" 4 false;
  Mov "sp" "x29";
  Pop2 "x29" "x30" "sp";
  Ret "x30" 0 false].

Definition hev_task_execute_la32 : list insn := [
  Ld "t0" "a0" 0;
  St "sp" "t0" (-4);
  St "ra" "t0" (-8);
  Add "sp" "t0" (-8);
  Call "ra" "a1" 4 false;
  Ld "ra" "sp" 0;
  Ld "sp" "sp" 4;
  Ret "ra" 0 false].

Definition hev_task_execute_la64 : list insn := [
  Ld "t0" "a0" 0;
  St "sp" "t0" (-8);
  St "ra" "t0" (-16);
  Add "sp" "t0" (-16);
  Call "ra" "a1" 4 false;
  Ld "ra" "sp" 0;
  Ld "sp" "sp" 8;
  Ret "ra" 0 false].

Definition hev_task_execute_m68k : list insn := [
  Mov "d0" "sp";
  Ld "a0" "sp" 4;
  Ld "a1" "sp" 8;
  Ld "sp" "a0" 0;
  Push "d0" "sp";
  Push "a0" "sp";
  CallPush "a1" "sp";
  Ld "sp" "sp" 4;
  RetPop "sp"].

(** [brald] leaves its own address in [r15]; [rtsd] adds the 8. *)
Definition hev_task_execute_microblaze : list insn := [
  Ld "r3" "r5" 0;
  St "r1" "r3" (-4);
  St "r15" "r3" (-8);
  Call "r15" "r6" 0 true;
  Add "r1" "r3" (-32);
  Ld "r15" "r1" 24;
  Ret "r15" 8 true;
  Ld "r1" "r1" 28].

Definition hev_task_execute_mips32 : list insn := [
  Ld "t0" "a0" 0;
  St "sp" "t0" (-0x4);
  St "ra" "t0" (-0x8);
  Add "sp" "t0" (-0x20);
  Mov "t9" "a1";
  Call "ra" "a1" 4 false;
  Ld "ra" "sp" 0x18;
  Ld "sp" "sp" 0x1c;
  Ret "ra" 0 false].

Definition hev_task_execute_mips64 : list insn := [
  Ld "t0" "a0" 0;
  St "sp" "t0" (-0x08);
  St "ra" "t0" (-0x10);
  Add "sp" "t0" (-0x10);
  Mov "t9" "a1";
  Call "ra" "a1" 4 false;
  Ld "ra" "sp" 0;
  Ld "sp" "sp" 0x08;
  Ret "ra" 0 false].

Definition hev_task_execute_or1k : list insn := [
  Ld "r11" "r3" 0;
  St "r1" "r11" (-4);
  St "r9" "r11" (-8);
  Add "r1" "r11" (-8);
  Call "r9" "r4" 8 true;
  Nop;
  Ld "r9" "r1" 0;
  Ld "r1" "r1" 4;
  Ret "r9" 0 true;
  Nop].

Definition hev_task_execute_ppc32 : list insn := [
  Ld "r5" "r3" 0;
  Mov "r0" "lr";
  St "r1" "r5" (-0x04);
  St "r0" "r5" (-0x08);
  Add "r1" "r5" (-0x10);
  Mov "ctr" "r4";
  Call "lr" "ctr" 4 false;
  Ld "r0" "r1" 0x08;
  Ld "r1" "r1" 0x0c;
  Mov "lr" "r0";
  Ret "lr" 0 false].

Definition hev_task_execute_ppc64 : list insn := [
  Ld "r5" "r3" 0;
  Mov "r0" "lr";
  St "r1" "r5" (-0x08);
  St "r0" "r5" (-0x10);
  Add "r1" "r5" (-0x40);
  Mov "ctr" "r4";
  Call "lr" "ctr" 4 false;
  Ld "r0" "r1" 0x30;
  Ld "r1" "r1" 0x38;
  Mov "lr" "r0";
  Ret "lr" 0 false].

Definition hev_task_execute_riscv32 : list insn := [
  Ld "t0" "a0" 0;
  St "sp" "t0" (-0x0c);
  St "ra" "t0" (-0x10);
  Add "sp" "t0" (-0x10);
  Call "ra" "a1" 4 false;
  Ld "ra" "sp" 0;
  Ld "sp" "sp" 0x04;
  Ret "ra" 0 false].

Definition hev_task_execute_riscv64 : list insn := [
  Ld "t0" "a0" 0;
  St "sp" "t0" (-0x08);
  St "ra" "t0" (-0x10);
  Add "sp" "t0" (-0x10);
  Call "ra" "a1" 4 false;
  Ld "ra" "sp" 0;
  Ld "sp" "sp" 0x08;
  Ret "ra" 0 false].

Definition hev_task_execute_s390x : list insn := [
  Ld "r4" "r2" 0;
  Add "r4" "r4" (-256);
  St2 "r14" "r15" "r4" 0;
  Mov "r15" "r4";
  Call "r14" "r3" 4 false;
  Ld2 "r14" "r15" "r15" 0;
  Ret "r14" 0 false].

Definition hev_task_execute_sh : list insn := [
  Ld "r3" "r4" 0;
  Push "r15" "r3";
  Push "pr" "r3";
  Call "pr" "r5" 8 true;
  Mov "r15" "r3";
  Pop "pr" "r15";
  Ret "pr" 0 true;
  Ld "r15" "r15" 0].

Definition hev_task_execute_sw64 : list insn := [
  Ld "t0" "a0" 0;
  St "sp" "t0" (-0x08);
  St "ra" "t0" (-0x10);
  Add "sp" "t0" (-0x10);
  Mov "pv" "a1";
  Call "ra" "pv" 4 false;
  Ld "ra" "sp" 0;
  Ld "sp" "sp" 8;
  Ret "ra" 0 false].

Definition hev_task_execute_x86 : list insn := [
  Mov "eax" "esp";
  Ld "edx" "esp" 0x4;
  Ld "ecx" "esp" 0x8;
  Ld "esp" "edx" 0;
  Add "esp" "esp" (-0x8);
  Push "eax" "esp";
  Push "edx" "esp";
  CallPush "ecx" "esp";
  Ld "esp" "esp" 0x4;
  RetPop "esp"].

(** The registers of the arguments and the padding depend on the system. *)
Definition REG_ARG0 (win : bool) : reg := if win then "rcx" else "rdi".
Definition REG_ARG1 (win : bool) : reg := if win then "rdx" else "rsi".
Definition STACK_PAD (win : bool) : Z := if win then 0x28 else 0x08.

Definition hev_task_execute_x86_64 (win : bool) : list insn := [
  Mov "rax" "rsp";
  Ld "rsp" (REG_ARG0 win) 0;
  Push "rax" "rsp";
  Add "rsp" "rsp" (- STACK_PAD win);
  CallPush (REG_ARG1 win) "rsp";
  Ld "rsp" "rsp" (STACK_PAD win);
  RetPop "rsp"].

Inductive arch : Type :=
| X86 | X86_64 (win : bool) | MIPS64 | MIPS32 | ARM | AARCH64 | AARCH64_WIN
| SW64 | RISCV64 | RISCV32 | LA64 | LA32 | PPC64 | PPC32 | ARC32 | M68K
| MICROBLAZE | S390X | SH | OR1K.

(** The selection of [kern/task/hev-task-execute.S]. *)
Definition hev_task_execute (a : arch) : list insn :=
  match a with
  | X86 => hev_task_execute_x86
  | X86_64 win => hev_task_execute_x86_64 win
  | MIPS64 => hev_task_execute_mips64
  | MIPS32 => hev_task_execute_mips32
  | ARM => hev_task_execute_arm
  | AARCH64 => hev_task_execute_aarch64
  | AARCH64_WIN => hev_task_execute_aarch64_win
  | SW64 => hev_task_execute_sw64
  | RISCV64 => hev_task_execute_riscv64
  | RISCV32 => hev_task_execute_riscv32
  | LA64 => hev_task_execute_la64
  | LA32 => hev_task_execute_la32
  | PPC64 => hev_task_execute_ppc64
  | PPC32 => hev_task_execute_ppc32
  | ARC32 => hev_task_execute_arc32
  | M68K => hev_task_execute_m68k
  | MICROBLAZE => hev_task_execute_microblaze
  | S390X => hev_task_execute_s390x
  | SH => hev_task_execute_sh
  | OR1K => hev_task_execute_or1k
  end.

(** ** Calling conventions *)

(** Where a value is when a function is entered: in a register, or on the
    stack at an offset from the stack pointer its caller had before the
    call. *)
Inductive place : Type :=
| InReg (r : reg)
| OnStack (o : Z).

Record abi : Type := Abi {
  word : Z;               (** bytes per word *)
  sp : reg;
  arg0 : place;
  arg1 : place;
  link : place;           (** the return address *)
  link_off : Z;           (** what a return adds to it *)
  saved : list reg;       (** registers a function gives back unchanged *)
  align : Z;              (** of the stack pointer at a call *)
  home : Z * Z;           (** the part of its caller's frame, from its stack
                              pointer, that a function may write to *)
  callee : option reg;    (** where a function called through a pointer finds
                              its own address *)
}.

Definition abi_of (a : arch) : abi :=
  match a with
  | X86 => Abi 4 "esp" (OnStack 0) (OnStack 4) (OnStack (-4)) 0
      ["ebx"; "esi"; "edi"; "ebp"] 16 (0, 4) None
  | X86_64 false => Abi 8 "rsp" (InReg "rdi") (InReg "rsi") (OnStack (-8)) 0
      ["rbx"; "rbp"; "r12"; "r13"; "r14"; "r15"] 16 (0, 0) None
  | X86_64 true => Abi 8 "rsp" (InReg "rcx") (InReg "rdx") (OnStack (-8)) 0
      ["rbx"; "rbp"; "rsi"; "rdi"; "r12"; "r13"; "r14"; "r15"; "xmm6"; "xmm7";
       "xmm8"; "xmm9"; "xmm10"; "xmm11"; "xmm12"; "xmm13"; "xmm14"; "xmm15"]
      16 (0, 32) None
  | MIPS64 => Abi 8 "sp" (InReg "a0") (InReg "a1") (InReg "ra") 0
      ["fp"; "s0"; "s1"; "s2"; "s3"; "s4"; "s5"; "s6"; "s7"] 16 (0, 0) (Some "t9")
  | MIPS32 => Abi 4 "sp" (InReg "a0") (InReg "a1") (InReg "ra") 0
      ["fp"; "s0"; "s1"; "s2"; "s3"; "s4"; "s5"; "s6"; "s7"] 8 (0, 16) (Some "t9")
  | ARM => Abi 4 "sp" (InReg "r0") (InReg "r1") (InReg "lr") 0
      ["r4"; "r5"; "r6"; "r7"; "r8"; "r9"; "r10"; "r11"] 8 (0, 0) None
  | AARCH64 | AARCH64_WIN =>
      Abi 8 "sp" (InReg "x0") (InReg "x1") (InReg "x30") 0
      ["x19"; "x20"; "x21"; "x22"; "x23"; "x24"; "x25"; "x26"; "x27"; "x28";
       "x29"; "d8"; "d9"; "d10"; "d11"; "d12"; "d13"; "d14"; "d15"] 16 (0, 0) None
  | SW64 => Abi 8 "sp" (InReg "a0") (InReg "a1") (InReg "ra") 0
      ["fp"; "s0"; "s1"; "s2"; "s3"; "s4"; "s5"] 16 (0, 0) (Some "pv")
  | RISCV64 => Abi 8 "sp" (InReg "a0") (InReg "a1") (InReg "ra") 0
      ["s0"; "s1"; "s2"; "s3"; "s4"; "s5"; "s6"; "s7"; "s8"; "s9"; "s10";
       "s11"] 16 (0, 0) None
  | RISCV32 => Abi 4 "sp" (InReg "a0") (InReg "a1") (InReg "ra") 0
      ["s0"; "s1"; "s2"; "s3"; "s4"; "s5"; "s6"; "s7"; "s8"; "s9"; "s10";
       "s11"] 16 (0, 0) None
  | LA64 => Abi 8 "sp" (InReg "a0") (InReg "a1") (InReg "ra") 0
      ["fp"; "s0"; "s1"; "s2"; "s3"; "s4"; "s5"; "s6"; "s7"; "s8"] 16 (0, 0) None
  | LA32 => Abi 4 "sp" (InReg "a0") (InReg "a1") (InReg "ra") 0
      ["fp"; "s0"; "s1"; "s2"; "s3"; "s4"; "s5"; "s6"; "s7"; "s8"] 16 (0, 0) None
  | PPC64 => Abi 8 "r1" (InReg "r3") (InReg "r4") (InReg "lr") 0
      ["r14"; "r15"; "r16"; "r17"; "r18"; "r19"; "r20"; "r21"; "r22"; "r23";
       "r24"; "r25"; "r26"; "r27"; "r28"; "r29"; "r30"; "r31"] 16 (8, 48) (Some "r12")
  | PPC32 => Abi 4 "r1" (InReg "r3") (InReg "r4") (InReg "lr") 0
      ["r14"; "r15"; "r16"; "r17"; "r18"; "r19"; "r20"; "r21"; "r22"; "r23";
       "r24"; "r25"; "r26"; "r27"; "r28"; "r29"; "r30"; "r31"] 16 (4, 8) None
  | ARC32 => Abi 4 "sp" (InReg "r0") (InReg "r1") (InReg "blink") 0
      ["fp"; "r13"; "r14"; "r15"; "r16"; "r17"; "r18"; "r19"; "r20"; "r21";
       "r22"; "r23"; "r24"; "r25"] 4 (0, 0) None
  | M68K => Abi 4 "sp" (OnStack 0) (OnStack 4) (OnStack (-4)) 0
      ["d2"; "d3"; "d4"; "d5"; "d6"; "d7"; "a2"; "a3"; "a4"; "a5";
       "a6"] 4 (0, 4) None
  | MICROBLAZE => Abi 4 "r1" (InReg "r5") (InReg "r6") (InReg "r15") 8
      ["r19"; "r20"; "r21"; "r22"; "r23"; "r24"; "r25"; "r26"; "r27"; "r28";
       "r29"; "r30"; "r31"] 4 (4, 28) None
  | S390X => Abi 8 "r15" (InReg "r2") (InReg "r3") (InReg "r14") 0
      ["r6"; "r7"; "r8"; "r9"; "r10"; "r11"; "r12"; "r13"] 8 (16, 160) None
  | SH => Abi 4 "r15" (InReg "r4") (InReg "r5") (InReg "pr") 0
      ["r8"; "r9"; "r10"; "r11"; "r12"; "r13"; "r14"] 4 (0, 0) None
  | OR1K => Abi 4 "r1" (InReg "r3") (InReg "r4") (InReg "r9") 0
      ["r2"; "r10"; "r14"; "r16"; "r18"; "r20"; "r22"; "r24"; "r26"; "r28";
       "r30"] 4 (0, 0) None
  end.

(** What the routines give to [entry]: the convention, but for three of them.
    [hev-task-execute-la32.s] leaves a stack pointer that is a multiple of 8
    only; [hev-task-execute-microblaze.s] keeps [r15] in the last word of the
    argument area of [entry]; [hev-task-execute-ppc64.s] calls through [ctr]
    without the address in [r12], from which a function of the second ABI
    computes its table of contents. *)
Definition given (a : arch) : abi :=
  let b := abi_of a in
  match a with
  | LA32 => Abi (word b) (sp b) (arg0 b) (arg1 b) (link b) (link_off b) (saved b) 8 (home b) (callee b)
  | MICROBLAZE =>
      Abi (word b) (sp b) (arg0 b) (arg1 b) (link b) (link_off b) (saved b) (align b) (4, 24) (callee b)
  | PPC64 => Abi (word b) (sp b) (arg0 b) (arg1 b) (link b) (link_off b) (saved b) (align b) (home b) None
  | _ => b
  end.

(** The stack pointer before the call, in a function just entered. *)
Definition call_sp (b : abi) (m : machine) : Z :=
  match link b with
  | InReg _ => rf m (sp b)
  | OnStack o => rf m (sp b) - o
  end.

Definition value_of (b : abi) (p : place) (m : machine) : option Z :=
  match p with
  | InReg r => Some (rf m r)
  | OnStack o => st m !! (call_sp b m + o)
  end.

(** [m2] is a state in which a function that was entered in [m1] may return:
    it resumes the caller with the caller's stack pointer and registers, and
    has written neither to the frame of the caller, up to [top], but for its
    home area, nor to [live], cells of suspended calls elsewhere.  Nothing is
    said about the rest of the memory and the other registers. *)
Record returns (b : abi) (top : Z) (live : Z -> Prop) (m1 m2 : machine) : Prop :=
  Returns {
  ret_pc : exists ra, value_of b (link b) m1 = Some ra /\
    pc m2 = ra + link_off b;
  ret_sp : rf m2 (sp b) = call_sp b m1;
  ret_saved : forall r, r ∈ saved b -> rf m2 r = rf m1 r;
  ret_frame : forall x, call_sp b m1 <= x < top ->
    ~ (call_sp b m1 + fst (home b) <= x < call_sp b m1 + snd (home b)) ->
    st m2 !! x = st m1 !! x;
  ret_live : forall x, live x -> st m2 !! x = st m1 !! x;
}.

(** ** The long jump of Windows *)

Inductive win_arch : Type :=
| Win_x86 | Win_x86_64 | Win_aarch64.

(** The base of the segment [fs] is a register: [%fs:0] is in memory, the head of
    the thread's chain of exception handlers. *)
Definition hev_task_longjmp_x86 : list insn := [
  Ld "edx" "esp" 0x4;
  Ld "eax" "esp" 0x8;
  TestL "eax";
  Jnz 1;
  IncL "eax";
  Ld "ebp" "edx" 0x0;
  Ld "ebx" "edx" 0x4;
  Ld "edi" "edx" 0x8;
  Ld "esi" "edx" 0xc;
  Ld "ecx" "edx" 0x18;
  St "ecx" "fs" 0;
  Ld "esp" "edx" 0x10;
  Add "esp" "esp" 0x4;
  JmpM "edx" 0x14].

Definition hev_task_longjmp_x86_64 : list insn := [
  TestL "rdx";
  Jnz 1;
  IncL "rdx";
  MovL "rax" "rdx";
  Ld "rbx" "rcx" 0x08;
  Ld "rsi" "rcx" 0x20;
  Ld "rdi" "rcx" 0x28;
  Ld "r12" "rcx" 0x30;
  Ld "r13" "rcx" 0x38;
  Ld "r14" "rcx" 0x40;
  Ld "r15" "rcx" 0x48;
  Ld "mxcsr" "rcx" 0x58;
  Fnclex;
  Ld "fpcw" "rcx" 0x5c;
  Ldqa "xmm6" "rcx" 0x60;
  Ldqa "xmm7" "rcx" 0x70;
  Ldqa "xmm8" "rcx" 0x80;
  Ldqa "xmm9" "rcx" 0x90;
  Ldqa "xmm10" "rcx" 0xa0;
  Ldqa "xmm11" "rcx" 0xb0;
  Ldqa "xmm12" "rcx" 0xc0;
  Ldqa "xmm13" "rcx" 0xd0;
  Ldqa "xmm14" "rcx" 0xe0;
  Ldqa "xmm15" "rcx" 0xf0;
  Ld "rdx" "rcx" 0x50;
  Ld "rbp" "rcx" 0x18;
  Ld "rsp" "rcx" 0x10;
  Jmp "rdx"].

Definition hev_task_longjmp_aarch64 : list insn := [
  Mov "x9" "x0";
  TestL "x1";
  CsincL "x1";
  Ld "x19" "x9" 0x10;
  Ld "x20" "x9" 0x18;
  Ld "x21" "x9" 0x20;
  Ld "x22" "x9" 0x28;
  Ld "x23" "x9" 0x30;
  Ld "x24" "x9" 0x38;
  Ld "x25" "x9" 0x40;
  Ld "x26" "x9" 0x48;
  Ld "x27" "x9" 0x50;
  Ld "x28" "x9" 0x58;
  Ld "x29" "x9" 0x60;
  Ld "w10" "x9" 0x78;
  Ld "w11" "x9" 0x7c;
  Ld "d8" "x9" 0x80;
  Ld "d9" "x9" 0x88;
  Ld "d10" "x9" 0x90;
  Ld "d11" "x9" 0x98;
  Ld "d12" "x9" 0xa0;
  Ld "d13" "x9" 0xa8;
  Ld "d14" "x9" 0xb0;
  Ld "d15" "x9" 0xb8;
  Mov "fpcr" "w10";
  Mov "fpsr" "w11";
  Ld "x10" "x9" 0x70;
  Ld "x30" "x9" 0x68;
  MovL "x0" "x1";
  Mov "sp" "x10";
  Ret "x30" 0 false].

Definition hev_task_longjmp (a : win_arch) : list insn :=
  match a with
  | Win_x86 => hev_task_longjmp_x86
  | Win_x86_64 => hev_task_longjmp_x86_64
  | Win_aarch64 => hev_task_longjmp_aarch64
  end.

(** The fields of [_JUMP_BUFFER]: the register each one holds and its offset,
    as [hev-task-arch-x86.c], [hev-task-arch-x86_64.c] and
    [hev-task-arch-aarch64.c] check them.  Those that the jump does not copy
    into a register as they are, the stack pointer, the resume address and the
    [Registration] of x86, are apart. *)
Definition jump_buffer_x86 : list (reg * Z) :=
  [("ebp", 0); ("ebx", 4); ("edi", 8); ("esi", 12)].

Definition jump_buffer_x86_64 : list (reg * Z) :=
  [("rbx", 8); ("rbp", 24); ("rsi", 32); ("rdi", 40); ("r12", 48);
   ("r13", 56); ("r14", 64); ("r15", 72); ("mxcsr", 88); ("fpcw", 92);
   ("xmm6", 96); ("xmm7", 112); ("xmm8", 128); ("xmm9", 144); ("xmm10", 160);
   ("xmm11", 176); ("xmm12", 192); ("xmm13", 208); ("xmm14", 224);
   ("xmm15", 240)].

Definition jump_buffer_aarch64 : list (reg * Z) :=
  [("x19", 16); ("x20", 24); ("x21", 32); ("x22", 40); ("x23", 48);
   ("x24", 56); ("x25", 64); ("x26", 72); ("x27", 80); ("x28", 88);
   ("x29", 96); ("fpcr", 120); ("fpsr", 124); ("d8", 128); ("d9", 136);
   ("d10", 144); ("d11", 152); ("d12", 160); ("d13", 168); ("d14", 176);
   ("d15", 184)].

Definition jump_buffer (a : win_arch) : list (reg * Z) :=
  match a with
  | Win_x86 => jump_buffer_x86
  | Win_x86_64 => jump_buffer_x86_64
  | Win_aarch64 => jump_buffer_aarch64
  end.

Definition jb_sp (a : win_arch) : Z :=
  match a with Win_x86 => 16 | Win_x86_64 => 16 | Win_aarch64 => 112 end.

(** [Registration], the exception handlers to go back to. *)
Definition jb_registration : Z := 24.

Definition jb_pc (a : win_arch) : Z :=
  match a with Win_x86 => 20 | Win_x86_64 => 80 | Win_aarch64 => 104 end.
