(* ===== verification/ArchProps.v ===== *)
(** * Theorems about the stack switch

    The routine of every architecture is run symbolically by one tactic; the
    theorems quantify over the architecture. *)

From Stdlib Require Import String.
From S2P Require Import Prelude.
From S2P Require Import Arch.

Local Open Scope string_scope.
Local Open Scope list_scope.
Local Open Scope Z_scope.

(** ** Running code *)

Section Run.
Context (word : Z) (code : list insn) (loc : Z).

Lemma fetch_at (i : nat) (x : insn) :
  code !! i = Some x -> fetch code loc (loc + 4 * Z.of_nat i) = Some x.
Proof.
  intros Hi. pose proof (lookup_lt_Some _ _ _ Hi). unfold fetch.
  replace (_ && _) with true by lia.
  replace (loc + 4 * Z.of_nat i - loc) with (Z.of_nat i * 4) by lia.
  rewrite Z.div_mul by lia. by rewrite Nat2Z.id.
Qed.

Lemma fetch_out a :
  ~ (loc <= a < loc + 4 * Z.of_nat (length code)) -> fetch code loc a = None.
Proof. intros Ha. unfold fetch. by replace (_ && _) with false by lia. Qed.

Lemma run_out n m :
  fetch code loc (pc m) = None -> run_code word code loc n m = Ok m.
Proof. intros H. destruct n; simpl; by rewrite H. Qed.

Lemma run_in n m x m' :
  fetch code loc (pc m) = Some x -> step word code loc x m = Ok m' ->
  run_code word code loc (S n) m = run_code word code loc n m'.
Proof. intros H Hs. simpl. by rewrite H, Hs. Qed.
End Run.

Lemma wrap_small w x : 0 <= x < 2 ^ (8 * w) -> wrap w x = x.
Proof. apply Z.mod_small. Qed.

Lemma peek_some m a v : st m !! a = Some v -> peek a m = Ok v.
Proof. unfold peek. by intros ->. Qed.

Lemma poke_some m a v :
  is_Some (st m !! a) ->
  poke a v m = Ok (Machine (pc m) (rf m) (<[a := v]> (st m))).
Proof. unfold poke. by intros [? ->]. Qed.

(** ** The switch *)

(** What [hev_task_execute] pushes on the stack of its caller. *)
Definition pushes (a : arch) : Z :=
  match a with AARCH64_WIN => 16 | _ => 0 end.

(** The cells of its caller's stack that [hev_task_execute] depends on after
    [entry] returns: what it pushed and its own return address. *)
Definition old_frame (a : arch) (m : machine) (x : Z) : Prop :=
  rf m (sp (abi_of a)) - pushes a <= x < call_sp (abi_of a) m.

(** The bytes of the new stack within which the routine's frame lies. *)
Definition FRAME : Z := 256.

(** The state of a call [hev_task_execute (self, entry)]: the code at [loc],
    the arguments where the convention has them, a stack whose top, found at
    [self], has the alignment that the library's stacks have, with cells for a
    frame, apart from the stack of the caller. *)
Record executes (a : arch) (loc self entry top : Z) (m : machine) : Prop :=
  Executes {
  ex_pc : pc m = loc;
  ex_self : value_of (abi_of a) (arg0 (abi_of a)) m = Some self;
  ex_entry : value_of (abi_of a) (arg1 (abi_of a)) m = Some entry;
  ex_link : exists ra, value_of (abi_of a) (link (abi_of a)) m = Some ra /\
    0 <= ra + link_off (abi_of a) < 2 ^ (8 * word (abi_of a)) /\
    fetch (hev_task_execute a) loc (ra + link_off (abi_of a)) = None;
  ex_top : st m !! self = Some top;
  ex_align : top mod 16 = 0;
  ex_self_word : 0 <= self < 2 ^ (8 * word (abi_of a));
  ex_top_word : FRAME <= top < 2 ^ (8 * word (abi_of a));
  ex_sp_word : pushes a <= rf m (sp (abi_of a)) /\
    rf m (sp (abi_of a)) + 16 < 2 ^ (8 * word (abi_of a));
  ex_stack : forall x, top - FRAME <= x < top ->
    x mod word (abi_of a) = 0 -> is_Some (st m !! x);
  ex_old : forall x, rf m (sp (abi_of a)) - pushes a <= x < rf m (sp (abi_of a)) ->
    (x - rf m (sp (abi_of a))) mod word (abi_of a) = 0 -> is_Some (st m !! x);
  ex_apart : call_sp (abi_of a) m <= top - FRAME \/
    top <= rf m (sp (abi_of a)) - pushes a;
  ex_self_apart : ~ (rf m (sp (abi_of a)) - pushes a <= self
    < rf m (sp (abi_of a)));
  ex_code : 0 <= loc /\
    loc + 4 * Z.of_nat (length (hev_task_execute a)) < 2 ^ (8 * word (abi_of a));
  ex_entry_out : fetch (hev_task_execute a) loc entry = None;
}.

(** [entry] has been called: it finds [self] as its argument, an aligned stack
    pointer on the new stack with room for its home area, and its own address
    where the convention promises it; no memory has changed but the frames of
    [hev_task_execute], and no register that [entry] may not change. *)
Record entered (a : arch) (self entry top : Z) (m m1 : machine) : Prop :=
  Entered {
  en_pc : pc m1 = entry;
  en_self : value_of (abi_of a) (arg0 (abi_of a)) m1 = Some self;
  en_sp : top - FRAME <= call_sp (abi_of a) m1 <= top;
  en_align : call_sp (abi_of a) m1 mod align (given a) = 0;
  en_home : call_sp (abi_of a) m1 + snd (home (abi_of a)) <= top;
  en_callee : match callee (given a) with Some r => rf m1 r = entry | None => True end;
  en_mem : forall x, ~ (top - FRAME <= x < top) -> ~ old_frame a m x ->
    st m1 !! x = st m !! x;
}.

(** [hev_task_execute] has returned to its caller. *)
Record left_to (a : arch) (m m2 m3 : machine) : Prop := LeftTo {
  lt_pc : exists ra, value_of (abi_of a) (link (abi_of a)) m = Some ra /\
    pc m3 = ra + link_off (abi_of a);
  lt_sp : rf m3 (sp (abi_of a)) = call_sp (abi_of a) m;
  lt_saved : forall r, r ∈ saved (abi_of a) -> rf m3 r = rf m r;
  lt_mem : st m3 = st m2;
}.

Lemma step_at word code loc i m x m' n :
  pc m = loc + 4 * Z.of_nat i -> code !! i = Some x ->
  step word code loc x m = Ok m' ->
  run_code word code loc (S n) m = run_code word code loc n m'.
Proof. intros Hp Hi Hs. eapply run_in; [|done]. rewrite Hp. by apply fetch_at. Qed.

Lemma is_Some_insert (μ : mem) a b v :
  is_Some (μ !! b) -> is_Some (<[a := v]> μ !! b).
Proof. intros [w H]. destruct (decide (a = b)) as [->|]; simplify_map_eq; eauto. Qed.

(** ** Symbolic execution *)

Lemma run_out_at word code loc n m a :
  fetch code loc a = None -> pc m = a -> run_code word code loc n m = Ok m.
Proof. intros H <-. by apply run_out. Qed.

Lemma fetch_next code loc i a x :
  a = loc + 4 * Z.of_nat i -> code !! i = Some x -> fetch code loc a = Some x.
Proof. intros ->. apply fetch_at. Qed.

Lemma at_eq (μ : mem) a b v : μ !! b = v -> a = b -> μ !! a = v.
Proof. by intros ? ->. Qed.

Lemma at_same (μ : mem) a b v : b = a -> <[a := v]> μ !! b = Some v.
Proof. intros ->. apply lookup_insert_eq. Qed.

Lemma at_other (μ : mem) a b v w :
  μ !! b = w -> b <> a -> <[a := v]> μ !! b = w.
Proof. intros ??. by rewrite lookup_insert_ne. Qed.

(** A state of the return, with its registers one by one. *)
Lemma Forall_elem {A} (P : A -> Prop) (l : list A) :
  (forall x, x ∈ l -> P x) -> Forall P l.
Proof. apply Forall_forall. Qed.

Ltac red_abi :=
  cbn [abi_of given word sp arg0 arg1 link link_off saved align home callee value_of call_sp
       pushes pc rf st fst snd length 
       hev_task_execute] in *;
  unfold old_frame, FRAME in *;
  cbn [abi_of sp call_sp link pushes rf] in *;
  change (2 ^ (8 * 4)) with 4294967296 in *;
  change (2 ^ (8 * 8)) with 18446744073709551616 in *.

Ltac red_machine :=
  cbv beta iota delta [set_reg goto pc rf st res_bind REG_ARG0 REG_ARG1 STACK_PAD];
  cbn [rset String.eqb Ascii.eqb Bool.eqb ZF Z.eqb Pos.eqb].

(** A cell that a store needs. *)
Ltac cell_alloc :=
  first
    [ apply is_Some_insert; cell_alloc
    | match goal with
      | H : forall x, _ -> _ -> is_Some _ |- _ => apply H; [lia | div_lia]
      | H : ?μ !! _ = Some _ |- is_Some (?μ !! _) => eexists; apply (at_eq _ _ _ _ H); lia
      end ].

(** The value of a cell that a load reads. *)
Ltac cell_value :=
  first
    [ match goal with H : ?μ !! _ = Some _ |- ?μ !! _ = _ =>
        apply (at_eq _ _ _ _ H); lia end
    | apply at_same; lia
    | apply at_other; [cell_value | lia]
    | match goal with
      | H : forall x, _ -> ?μ !! x = _ |- ?μ !! _ = _ => rewrite H by lia; cell_value
      | H : forall x, _ -> _ -> ?μ !! x = _ |- ?μ !! _ = _ =>
          rewrite H by lia; cell_value
      end ].

Ltac exec_insn :=
  repeat first
    [ progress red_machine
    | rewrite wrap_small by
        (change (2 ^ (8 * 4)) with 4294967296;
         change (2 ^ (8 * 8)) with 18446744073709551616; lia)
    | erewrite peek_some by (cbn [st]; cell_value)
    | rewrite poke_some by (cbn [st]; cell_alloc)
    | match goal with H : (low32 _ =? 0) = _ |- _ => rewrite H end
    | match goal with |- context [?x mod 16 =? 0] =>
        replace (x mod 16 =? 0) with true by (symmetry; apply Z.eqb_eq; div_lia)
      end ];
  reflexivity.

Ltac exec_at i :=
  erewrite (step_at _ _ _ i);
  [ | red_machine; lia | reflexivity
  | cbn [step simple delay];
    try (erewrite (fetch_next _ _ (S i)) by (red_machine; first [lia | reflexivity]);
         cbn [simple]);
    exec_insn ].

Ltac exec_from i :=
  first [ match goal with H : fetch _ _ _ = None |- _ =>
            apply (run_out_at _ _ _ _ _ _ H); red_machine; lia end
        | exec_at i; exec_from (S i) ].

(** The entered state, computed. *)
Ltac solve_entered :=
  split; red_abi; red_machine;
  [ done | first [done | cell_value] | lia | div_lia | lia | done
  | intros x Hx Ho; rewrite !lookup_insert_ne by lia; done ].

(** The registers and the program counter of a return. *)
Ltac open_return :=
  intros [p2 f2 μ2] H2; destruct H2 as [Hpc Hsp Hsaved Hframe Hlive];
  red_abi; cbn [rset String.eqb Ascii.eqb Bool.eqb] in *;
  apply Forall_elem in Hsaved; rewrite !Forall_cons in Hsaved;
  cbn [rset String.eqb Ascii.eqb Bool.eqb] in Hsaved;
  let ra' := fresh "ra" in
  let E := fresh "E" in
  let Hra' := fresh "Hra" in
  destruct Hpc as (ra' & Hra' & ->);
  match type of Hra' with
  | Some _ = _ => injection Hra' as <-
  | ?l = Some _ => eassert (l = Some _) as E by (clear Hra'; cell_value);
      rewrite E in Hra'; injection Hra' as <-; clear E
  end.

Ltac solve_left :=
  split; red_abi; red_machine;
  [ eexists; split; [eassumption || reflexivity | first [reflexivity | lia]]
  | lia
  | apply Forall_forall; repeat (apply Forall_cons_2; [intuition congruence|]);
    apply Forall_nil_2
  | reflexivity ].

Ltac resume i :=
  match i with
  | 9%nat => fail
  | _ => first [ exec_from i | resume (S i) ]
  end.

(** The length of the code as a numeral. *)
Ltac red_length :=
  match goal with
  | |- context [run_cpu _ ?c] =>
      unfold run_cpu; let n := eval cbv in (length c) in change (length c) with n
  end.

Ltac open_call :=
  intros loc self entry top [p f μ] [];
  red_abi;
  match goal with H : exists ra, _ |- _ => destruct H as (ra & Hra & Hrab & Hrao) end;
  match goal with H : _ /\ _ + 4 * Z.of_nat (length ?c) < _ |- _ =>
    let n := eval cbv in (length c) in change (length c) with n in H end;
  simplify_eq.

Ltac solve_switch :=
  open_call;
  eexists; split; [red_length; exec_from 0%nat|]; 
  split; [solve_entered|];
  open_return; eexists; split; [red_length; resume 4%nat | solve_left].

Lemma sp_not_saved a : sp (abi_of a) ∉ saved (abi_of a).
Proof.
  destruct a; try match goal with w : bool |- _ => destruct w end;
    rewrite list_elem_of_In; vm_compute; intuition discriminate.
Qed.

(** A function that returns at once. *)
Definition return_now (b : abi) (ra : Z) (m : machine) : machine :=
  Machine (ra + link_off b) (rset (sp b) (call_sp b m) (rf m)) (st m).

Lemma rset_eq r v f : rset r v f r = v.
Proof. unfold rset. by rewrite String.eqb_refl. Qed.

Lemma rset_ne r v f x : x <> r -> rset r v f x = f x.
Proof. unfold rset. by intros ->%String.eqb_neq. Qed.

(** [given] is about what [entry] finds, not about where. *)
Lemma given_same a m :
  sp (given a) = sp (abi_of a) /\ saved (given a) = saved (abi_of a) /\
  link_off (given a) = link_off (abi_of a) /\ call_sp (given a) m = call_sp (abi_of a) m /\
  value_of (given a) (link (given a)) m = value_of (abi_of a) (link (abi_of a)) m.
Proof. by destruct a. Qed.

Lemma returns_now a top live ra m :
  value_of (abi_of a) (link (abi_of a)) m = Some ra ->
  returns (given a) top live m (return_now (abi_of a) ra m).
Proof.
  intros Hra. destruct (given_same a m) as (Hsp & Hsv & Ho & Hc & Hl).
  split; rewrite ?Hsp, ?Hsv, ?Ho, ?Hc, ?Hl; simpl; eauto.
  - apply rset_eq.
  - intros r Hr. apply rset_ne. intros ->. by apply (sp_not_saved a).
Qed.

(** ** The long jump *)

Definition lj_arch (a : win_arch) : arch :=
  match a with
  | Win_x86 => X86
  | Win_x86_64 => X86_64 true
  | Win_aarch64 => AARCH64_WIN
  end.

Definition lj_abi (a : win_arch) : abi := abi_of (lj_arch a).

(** Where a function leaves its result. *)
Definition result_reg (a : win_arch) : reg :=
  match a with
  | Win_x86 => "eax"
  | Win_x86_64 => "rax"
  | Win_aarch64 => "x0"
  end.

(** What a function that returns pops: the buffer has the stack pointer with
    which [setjmp] was entered. *)
Definition popped (a : win_arch) : Z :=
  match a with Win_x86 => 4 | _ => 0 end.

(** The state of a call [hev_task_longjmp (buf, val)] on a filled buffer: its
    fields hold words, [osp] and [target] those of the stack pointer and of the
    place to resume.  On x86 the head of the chain of exception handlers is a
    cell outside the buffer. *)
Record long_jumps (a : win_arch) (loc buf val osp target : Z) (m : machine) : Prop :=
  LongJumps {
  lj_pc : pc m = loc;
  lj_buf : value_of (lj_abi a) (arg0 (lj_abi a)) m = Some buf;
  lj_val : value_of (lj_abi a) (arg1 (lj_abi a)) m = Some val;
  lj_buf_word : 0 <= buf /\ buf + 256 < 2 ^ (8 * word (lj_abi a));
  lj_buf_align : buf mod 16 = 0;
  lj_val_word : 0 <= val < 2 ^ (8 * word (lj_abi a));
  lj_fields : Forall (fun f => is_Some (st m !! (buf + snd f))) (jump_buffer a);
  lj_osp : st m !! (buf + jb_sp a) = Some osp;
  lj_osp_word : 0 <= osp /\ osp + 4 < 2 ^ (8 * word (lj_abi a));
  lj_target : st m !! (buf + jb_pc a) = Some target;
  lj_target_word : 0 <= target < 2 ^ (8 * word (lj_abi a));
  lj_call_word : 0 <= call_sp (lj_abi a) m - 4 /\
    call_sp (lj_abi a) m + 8 < 2 ^ (8 * word (lj_abi a));
  lj_code : 0 <= loc /\
    loc + 4 * Z.of_nat (length (hev_task_longjmp a)) < 2 ^ (8 * word (lj_abi a));
  lj_out : fetch (hev_task_longjmp a) loc target = None;
  lj_handlers : match a with
    | Win_x86 => is_Some (st m !! (buf + jb_registration)) /\ is_Some (st m !! rf m "fs") /\
        0 <= rf m "fs" < 2 ^ (8 * word (lj_abi a)) /\ ~ (buf <= rf m "fs" < buf + 256)
    | _ => True
    end;
}.

(** The jump has been made: the registers have the values of the buffer,
    [setjmp] seems to return [val], or 1 instead of 0. *)
Record long_jumped (a : win_arch) (buf val osp target : Z) (m m' : machine) : Prop :=
  LongJumped {
  ljd_pc : pc m' = target;
  ljd_sp : rf m' (sp (lj_abi a)) = osp + popped a;
  ljd_fields :
    Forall (fun f => st m !! (buf + snd f) = Some (rf m' (fst f))) (jump_buffer a);
  ljd_val : rf m' (result_reg a) = if low32 val =? 0 then 1 else low32 val;
  ljd_mem : match a with
    | Win_x86 => exists v, st m !! (buf + jb_registration) = Some v /\ st m' = <[rf m "fs" := v]> (st m)
    | _ => st m' = st m
    end;
}.

Lemma low32_idemp v : low32 (low32 v) = low32 v.
Proof. unfold low32. by rewrite <- Z.land_assoc, Z.land_diag. Qed.

Lemma low32_small v : 0 <= v < 4294967296 -> low32 v = v.
Proof.
  intros Hv. unfold low32. change 0xffffffff with (Z.ones 32).
  rewrite Z.land_ones by lia. by apply Z.mod_small.
Qed.

Lemma low32_succ v : low32 v = 0 -> low32 (v + 1) = 1.
Proof.
  unfold low32. change 0xffffffff with (Z.ones 32). rewrite !Z.land_ones by lia.
  intros Hv. rewrite Zplus_mod, Hv. reflexivity.
Qed.

Ltac open_jump :=
  intros [p f μ] [];
  unfold lj_abi in *; cbn [lj_arch] in *; red_abi;
  match goal with H : Forall _ _ |- _ =>
    cbn [jump_buffer jb_sp jb_pc] in *;
    unfold jump_buffer_x86, jump_buffer_x86_64, jump_buffer_aarch64 in H;
    rewrite !Forall_cons in H;
    cbn [fst snd] in H; destruct_and? H end;
  unfold jb_registration in *;
  try match goal with H : is_Some _ /\ _ |- _ => destruct H as (? & ? & ? & ?) end;
  repeat match goal with H : is_Some (_ !! _) |- _ =>
    let v := fresh "v" in let Hv := fresh "Hv" in destruct H as [v Hv] end;
  match goal with H : _ /\ _ + 4 * Z.of_nat (length ?c) < _ |- _ =>
    let n := eval cbv in (length c) in change (length c) with n in H end;
  simplify_eq.

(** Runs on, with jumps over one instruction. *)
Ltac exec_over i :=
  first [ match goal with H : fetch _ _ _ = None |- _ =>
            apply (run_out_at _ _ _ _ _ _ H); red_machine; lia end
        | exec_at i; exec_over (S i)
        | exec_at (S i); exec_over (S (S i)) ].

Ltac solve_fields :=
  cbn [jump_buffer];
  unfold jump_buffer_x86, jump_buffer_x86_64, jump_buffer_aarch64;
  repeat (apply Forall_cons_2; [cbn [fst snd]; red_machine; assumption|]);
  apply Forall_nil_2.

Ltac solve_result :=
  cbn [result_reg]; red_machine; rewrite ?low32_idemp;
  match goal with H : (low32 _ =? 0) = _ |- _ => rewrite H end;
  first [ reflexivity | by rewrite low32_small by lia
        | apply low32_succ; lia ].

Ltac solve_jump :=
  open_jump;
  match goal with |- context [long_jumped _ _ ?val _ _ _] =>
    destruct (low32 val =? 0) eqn:Ez end;
  (eexists; split;
    [ red_length; exec_over 0%nat
    | split; unfold lj_abi; cbn [lj_arch popped] in *; red_abi; red_machine;
      [lia | lia | solve_fields | solve_result | first [done | eexists; split; [unfold jb_registration; eassumption | by rewrite Z.add_0_r]]] ]).

(** ** Theorems *)

(** C10. On every architecture [hev_task_execute (self, entry)] calls [entry]
    with [self] on the stack that [self] names, with room for the home area,
    having written nothing but its own frames; and when [entry] returns,
    whatever it did that the convention allows, [hev_task_execute] returns to
    its caller with the caller's stack pointer and saved registers.  The stack
    is aligned and [entry] finds its own address as the calling convention
    demands, and may use all of the home area, but for what [given] says: on
    LA32 the alignment is 8 instead of 16, on MicroBlaze [entry] must leave the
    last word of its argument area alone, and on PowerPC64 [r12] is not set. *)
Theorem execute_switches a loc self entry top m :
  executes a loc self entry top m ->
  exists m1,
    run_cpu (word (abi_of a)) (hev_task_execute a) loc m = Ok m1 /\
    entered a self entry top m m1 /\
    forall m2, returns (given a) top (old_frame a m) m1 m2 ->
    exists m3,
      run_cpu (word (abi_of a)) (hev_task_execute a) loc m2 = Ok m3 /\
      left_to a m m2 m3.
Proof.
  revert loc self entry top m.
  destruct a; try match goal with w : bool |- _ => destruct w end; solve_switch.
Qed.

(** A call on i386: [self] at 0x100, its stack below 0x4000. *)
Definition x86_call : machine :=
  Machine 0x1000 (rset "esp" 0x8000 (fun _ => 7))
    (list_to_map ([(0x8000, 0x500); (0x8004, 0x100); (0x8008, 0x2000);
                   (0x100, 0x4000)] ++
                  map (fun x => (x, 0)) (seqZ 0x3f00 256))).

Lemma x86_call_executes : executes X86 0x1000 0x100 0x2000 0x4000 x86_call.
Proof.
  split.
  - reflexivity.
  - vm_compute. reflexivity.
  - vm_compute. reflexivity.
  - exists 0x500. split_and!; vm_compute; first [reflexivity | discriminate].
  - vm_compute. reflexivity.
  - reflexivity.
  - vm_compute. intuition discriminate.
  - vm_compute. intuition discriminate.
  - vm_compute. intuition discriminate.
  - intros x Hx _. unfold FRAME in Hx.
    assert (Forall (fun x => is_Some (st x86_call !! x)) (seqZ 0x3f00 256)) as Ha.
    { apply (bool_decide_unpack _). vm_compute. exact I. }
    rewrite Forall_forall in Ha. apply Ha, elem_of_seqZ. lia.
  - cbn [abi_of sp pushes]. intros. lia.
  - right. vm_compute. discriminate.
  - vm_compute. intuition discriminate.
  - vm_compute. intuition discriminate.
  - reflexivity.
Qed.

Lemma execute_switches_witness :
  exists m1 m3,
    run_cpu 4 (hev_task_execute X86) 0x1000 x86_call = Ok m1 /\
    entered X86 0x100 0x2000 0x4000 x86_call m1 /\
    run_cpu 4 (hev_task_execute X86) 0x1000
      (return_now (abi_of X86) 0x1020 m1) = Ok m3 /\
    left_to X86 x86_call (return_now (abi_of X86) 0x1020 m1) m3.
Proof.
  destruct (execute_switches _ _ _ _ _ _ x86_call_executes)
    as (m1 & Hrun & Hin & Hret).
  destruct (Hret (return_now (abi_of X86) 0x1020 m1)) as (m3 & H3 & Hleft).
  - apply returns_now.
    pose (link_of r := match r with
                       | Ok m => value_of (abi_of X86) (link (abi_of X86)) m
                       | Err _ => None
                       end).
    change (link_of (Ok m1) = Some 0x1020). rewrite <- Hrun.
    vm_compute. reflexivity.
  - exists m1, m3. auto.
Defined.

(** C30. [hev_task_longjmp (buf, val)] resumes where the buffer says, with the
    stack pointer and every register that the buffer has a field for, at the
    offsets that [hev-task-arch-*.c] check, and returns [val] there, or 1 when
    [val] is 0.  It writes no memory, but that on x86 the head of the chain of
    exception handlers gets the value that the buffer has for it. *)
Theorem longjmp_restores a loc buf val osp target m :
  long_jumps a loc buf val osp target m ->
  exists m',
    run_cpu (word (lj_abi a)) (hev_task_longjmp a) loc m = Ok m' /\
    long_jumped a buf val osp target m m'.
Proof. revert m. destruct a; solve_jump. Qed.

(** A buffer on Windows for ARM64 whose cells count from 0. *)
Definition win_jump : machine :=
  Machine 0x1000
    (rset "x0" 0x100 (rset "x1" 0 (rset "sp" 0x8000 (fun _ => 7))))
    (list_to_map (map (fun x => (x, x - 0x100)) (seqZ 0x100 192))).

Lemma longjmp_restores_witness :
  exists m',
    run_cpu 8 (hev_task_longjmp Win_aarch64) 0x1000 win_jump = Ok m' /\
    long_jumped Win_aarch64 0x100 0 112 104 win_jump m'.
Proof.
  apply (longjmp_restores Win_aarch64). split; try (vm_compute; reflexivity).
  all: try (vm_compute; intuition discriminate).
  apply (bool_decide_unpack _). vm_compute. exact I.
Defined.
